(* ===== verification/_CoqProject ===== *)
-Q . S2P
Prelude.v
Ordering.v
RustText.v
History.v
HistoryFacts.v
RecorderFacts.v
Workload.v
WorkloadFacts.v
Quorum.v
QuorumFacts.v
ObjectModel.v
ObjectModelFacts.v
SourceIndexFacts.v
Attempts.v
ReadAnomalies.v
ReadSweepFacts.v
ReadFacts.v
ReplayFacts.v
ListHistory.v
ListHistoryFacts.v
Lineage.v
LineageFacts.v
Client.v
ClientRuns.v
ClientFacts.v
ReadFailure.v
Report.v
Evaluate.v
Checker.v
CheckerFacts.v
LegalityFacts.v
ReportAudit.v
AuditFacts.v
AuditVersionFacts.v
Verdict.v
VerdictFacts.v
Recovery.v
RecoveryFacts.v
Reread.v
RereadFacts.v
RecoveryArtifacts.v
RecoveryArtifactsFacts.v
EvidenceFacts.v
AuditCheckFacts.v
Msgpack.v
MsgpackFacts.v
Xl2Inspector.v
Xl2Facts.v
Xl2Theorems.v
Xl2Samples.v
RustWords.v
StorageLease.v
AckTrigger.v
AckTriggerFacts.v
StorageLeaseFacts.v
StorageLeaseTheorems.v
LeaseServerSample.v
StorageOwnership.v
StorageReceipts.v
HostFiles.v
StorageHelper.v
StorageMutation.v
StorageSession.v
StorageMutationFacts.v
StorageHelperTheorems.v
StorageReceiptTheorems.v
HelperProtocol.v
HelperSystem.v
HelperSystemFacts.v
HelperSystemTheorems.v
RecoveryWorkflow.v
RecoveryWorkflowFacts.v
RecoveryWorkflowTheorems.v
HelperSamples.v
HelperSystemSamples.v
HelperWitnesses.v
Samples.v
AckSamples.v
Disagreements.v
Witnesses.v
