(* ===== verification/Prelude.v ===== *)
(** * Verification of s3chaos

    s3chaos runs an S3 workload against a RustFS cluster while it injects
    faults, records every operation in a history, and afterwards decides from
    the history and from fresh reads whether the store kept its promises. This
    library models that decision and what it rests on, in layers that
    call each other downwards:

    - the _verdict_ ([src/fault/verdict.rs]) names a failure, its severity and
      the domain responsible for it, in the failure summary of a run;
    - the _recovery rereads_ ([recovery_stability_reread] of
      [src/fault/checker.rs]) read again what a failed check could not read, and
      classify the failure; the runner ([src/fault/runner/verification.rs])
      writes the two artifacts that [src/fault/artifact_validation.rs]
      validates;
    - the _audit_ ([validate_checker_audit_against_history] of
      [src/fault/checker.rs]) derives the verdict of a passing report again from
      the operations the checker itself recorded;
    - the _checker_ ([src/fault/checker.rs], [src/fault/checker/read_failure.rs])
      replays a history into an expected state per key, re-reads the store and
      fills a report;
    - the _history_ ([src/fault/history.rs]) is the recorder shared by all
      client tasks and the validators of what it recorded;
    - the _client_ ([S3WorkloadClient] of [src/fault/workload.rs]) is how the
      workload and the checker talk to the store: every call is recorded;
    - the _acknowledgement trigger_ ([src/fault/acknowledged_mutation.rs]) runs one
      quiet mutation on the client and activates a fault right after the store
      has acknowledged it;
    - the _quorum model_ ([src/fault/quorum.rs]) says how many shards of an
      erasure set a fault may take away before reads or writes must fail, and
      validates the evidence that a fault hit that many;
    - the _workload_ ([src/fault/workload.rs]) is the seeded plan of objects
      and operations, and the generator whose bodies the checker regenerates.

    Beside the data checker stands _storage recovery_, which damages the disk of
    a running cluster on purpose and must put it back:

    - the _Lease adapter_ ([src/fault/storage_recovery_lease.rs]) takes a
      Kubernetes Lease per storage target, so that one attempt at a time works
      on it, and gives it up only against a proof of cleanup;
    - the _ownership_ ([src/fault/storage_recovery_runtime.rs], with the
      identities of [src/fault/storage_recovery.rs]) is the context an attempt
      owns and the receipts the controller accepts for it;
    - the _helper_ ([src/fault/storage_recovery_helper.rs]) runs on the host as
      root: it flips one byte of a shard under a journal, restores it, and
      switches device-mapper tables;
    - the _session protocol_ ([KubectlStorageRecoveryAttemptGuard] of
      [src/fault/storage_recovery_runtime.rs] and [src/bin/s3chaos-storage-helper.rs])
      carries the controller's requests to the helper over a pipe, one line each
      way, and looks up what became of a mutation whose answer was lost;
    - the _attempt workflow_ ([src/fault/storage_recovery_runner.rs], with the suite
      deadline of [src/fault/shutdown.rs]) drives the phases of one attempt and
      leaves evidence and cleanup behind whatever fails;
    - the _XL2 inspector_ ([src/fault/xl2_inspector.rs]) reads RustFS object
      metadata to find the shard.

    ** Files

    - [Prelude]: the result monad ([ok], [err], [panicked]), loops with early
      return ([try_fold]), machine integers, record update.
    - [Ordering]: Rust's [Ord] on strings, options and pairs ([RustOrd]),
      stable [sort_by_key], [dedup], and the ordered traversal of the maps and
      sets ([BTreeMap], [BTreeSet]) that are [gmap] and [gset] here.
    - [RustText]: the [str] operations and [{}], [{:?}], [{:06}] formatting
      the source uses.
    - [History]: [OperationRecord], [validate_history_scope_and_order] (the loop
      body is [check_record_order]), [Recorder] as [RecorderState] with
      [begin], [finish] and the fault-window calls. [HistoryFacts] and
      [RecorderFacts] prove what the validators accept and that the recorder
      produces it under every interleaving.
    - [Workload], [WorkloadFacts]: [SplitMix64], [seeded_bytes],
      [shuffle_sizes], [WorkloadPlan] and its constructors, the operation mix,
      [mixed_write_upper_bound], [from_serialized].
    - [Quorum], [QuorumFacts]: [QuorumRequirements], [ErasureSetShape], the volume
      and partition boundaries, memberships, target proofs and health
      observations.
    - [ObjectModel]: [object_model], one function per arm of
      [apply_record_to_model], and [VersionWriteSourceIndex].
      [ObjectModelFacts] says what the model means, [SourceIndexFacts] that the
      index refines flat lists.
    - [Attempts]: matching of bodies and values, evidence messages.
    - [ReadAnomalies]: [stable_live_objects_at_read_starts],
      [CommittedWriteHistory], [verify_ranged_get],
      [successful_read_anomalies]; facts in [ReadSweepFacts], [ReadFacts],
      [ReplayFacts].
    - [ListHistory], [ListHistoryFacts]: [list_history_warnings].
    - [Lineage], [LineageFacts]: committed version lineage, the checks of a
      ListObjectVersions response, uncommitted versions.
    - [Client]: [S3WorkloadClient], each call a program ([Prog]) of recorder
      calls and SDK requests. [ClientRuns] gives the weakest preconditions of
      programs and what each call records, [ClientFacts] the interleavings of
      calls and the run of a single one.
    - [AckTrigger]: [QuietMutationWorkload], [AcknowledgedMutationTrigger], the
      eligibility of a record and the evidence of a fault, and the calibration
      checks. [AckTriggerFacts] composes it with the client and the checker and
      says what the calibration checks accept, [AckSamples] has a run.
    - [ReadFailure]: evidence of failed reads and its textual form.
    - [Report]: [CheckerReport], its audit, [success_predicate].
    - [Evaluate]: the functions that turn one observation into report entries.
    - [Checker], [CheckerFacts]: [check_s3_history] as a whole.
      [LegalityFacts]: on an unversioned bucket it decides which stores are
      legal.
    - [ReportAudit]: the receipt of a report and the validators of a passing one.
      [AuditFacts] and [AuditVersionFacts] say what an accepted audit proves,
      [AuditCheckFacts] when the report of a passing check is accepted.
    - [Verdict], [VerdictFacts]: [FailureClassification] and
      [FailureSummary].
    - [Recovery], [RecoveryFacts]: [RecoveryStabilityReport], the evidence it
      takes from a checker report, [classify_recovery_stability] and the
      validators of its key sets.
    - [Reread], [RereadFacts]: the retry loop of [recovery_stability_reread].
    - [RecoveryArtifacts], [RecoveryArtifactsFacts]: what the runner writes and
      what the artifact validator requires.
    - [EvidenceFacts]: a failed [check_s3_history], its rereads and the
      validators composed.
    - [Disagreements]: concrete runs on which two parts of the program do not
      agree.
    - [Msgpack], [Xl2Inspector]: the MessagePack cursor and [inspect_all_xl_meta],
      [inspect_xl_meta], [validate_format_json_drive]. [MsgpackFacts] and
      [Xl2Facts] give the grammar of the accepted files, [Xl2Theorems] the
      theorems and [Xl2Samples] a metadata file.
    - [RustWords]: [split_whitespace], [trim], [split] and integer parsing.
    - [StorageLease]: [KubernetesStorageLeaseAdapter] as programs ([LeaseProg]) of
      API requests. [StorageLeaseFacts] has the interface of the API server
      ([LeaseServer], [LeaseServerLaws]), the interleavings of adapters and their
      invariant; [StorageLeaseTheorems] the theorems, [LeaseServerSample] a server
      in memory that satisfies the laws.
    - [StorageOwnership], [StorageReceipts]: [OwnedStorageContext],
      [StorageRecoveryHostOperation], [StaleDeviceMapperPlan], digests, receipts,
      cleanup proofs and the Lease operations that need them.
    - [HostFiles]: system calls on a volume and a journal directory with caches,
      their failures, crashes, programs of calls ([HostProg]) and the rules to
      reason about them.
    - [StorageHelper], [StorageMutation], [StorageSession]: the helper's files,
      journal and receipts; [mutate], [restore], [verify_superseded]; and
      [StorageHelperSession]. [StorageMutationFacts] has the crash invariant,
      [StorageHelperTheorems] and [StorageReceiptTheorems] the theorems,
      [HelperSamples] and [HelperWitnesses] a host on which they are applied,
      and two runs in which the helper breaks its promises.
    - [HelperProtocol]: the guard's calls as programs ([GuardProg]) over the pipe,
      the Lease and the child process, and the helper's [serve_request].
      [HelperSystem] is the system of both, [HelperSystemFacts] its invariants,
      [HelperSystemTheorems] the theorems, [HelperSystemSamples] a session.
    - [RecoveryWorkflow]: [execute_storage_recovery_workflow], its evidence and
      validators, [RunDeadline]. [RecoveryWorkflowFacts] gives runs and stages,
      [RecoveryWorkflowTheorems] the theorems and sample attempts.
    - [Samples], [Witnesses]: concrete histories and stores on which the
      theorems with hypotheses are applied.

    ** State and effects

    A function that mutates through a reference returns the new value; fields
    keep the source's names behind a prefix ([om_live] is [ObjectModel::live]).
    A computation that may fail or panic has type [Result]. Unsigned integers
    are [N]. Arithmetic the source writes as checked, saturating or wrapping
    keeps that behaviour at 64 bits ([usize] is 64 bits wide); plain [+], [-]
    and [sum] on values read from a history, a plan or the recorder's counters
    panic when they leave the width, as in a build with overflow checks.
    Counters incremented once per element of a list in memory are unbounded.
    Strings are byte strings.

    Code outside the repository is a parameter. The SHA-256 of the [sha2] crate
    is a function [sha256_hex], about which nothing is assumed. The S3 client,
    the recorder's suffix and the clock are the class [CheckerEnv]: one answer
    per GET key, versioned GET and LIST (the check issues each request at most
    once), and for every batch of concurrent requests the order in which it
    completes ([env_completed]); the theorems assume only that completing a
    batch permutes it. The programs of [Client] are given the replies of the SDK,
    of which it is assumed only that a counted mutation is transmitted at most as
    often as the retry policy allows, and at least once when it is answered;
    [check_recorded] states that the suffix of a check is what these programs
    record. [serde_json] is a function from records to bytes. Writing a record to the
    history file is a parameter of [finish] that may fail for any record; the record
    is then lost and its event numbers are spent.

    The rereads see the store and the clock through the class [RereadEnv]: the
    answer to each GET of each round, the completion order of each batch, the
    time that passes before each reading of the clock, and which waits time
    out. Nothing is assumed of the clock but that it does not run backwards and
    that a sleep takes at least its duration.

    The adapters of a storage Lease talk to an API server of class [LeaseServer];
    [LeaseServerLaws] states that a read returns the stored object, that a write
    is applied only to the version it names, and that versions are not reused.
    Requests may be lost before or after they are applied. Every adapter reads a
    clock of its own, which is off the true time by at most a [skew]; C11 and C25
    speak of proofs and Leases that are unexpired on every such clock
    ([latest_clock]). A helper program makes system calls on a [Host]: the bytes and the
    directory entries the process sees, and those that are on disk. Any call may
    fail, a failed write may have written, and a crash keeps for each byte and
    each name the cached or the durable state. [StorageEnv], [Xl2Env] and
    [HelperEnv] hold the crates the helper calls: digests, UUIDs and JSON. Of
    them it is assumed, where a theorem says so, that journals decode to what was
    encoded and that the printed form of a UUID parses back. File names of the
    journal directory are taken to be UTF-8.

    A session of the helper is a system of two processes ([HelperSystem]): the
    guard's calls, each of which may be dropped at any await, with the line it was
    writing cut off or the response it was reading lost, and the helper, which
    serves the lines that reach it and may die at any time. The theorems assume of
    the callers only that an operation id is not used for a mutation after it was
    looked up, as the drivers do. The quiet mutation of the trigger uses the
    client's programs; the callback that activates the fault acts on a state of
    its own, and instants and durations are nanoseconds. An attempt of the
    workflow is a program over the wall clock, the monotonic clock and the calls of
    the case driver ([DriverCall]); each call ends with any result, or with the
    deadline it was awaited under.

    ** What the theorems show

    - A passing check accounts for every live key, explains every listed key,
      verifies every committed version and saw only written values (C1 to C4,
      [CheckerFacts]); on an unversioned bucket it passes exactly on the legal
      stores (C5, [LegalityFacts]). An accepted audit proves the same from the
      recorded operations, for a report of any origin (C6, C7), and C8 says which
      passing checks it accepts. With a recovered tenant a failing check is always
      attributed to a finding, and the artifacts of its rereads validate (C9, C10,
      [EvidenceFacts]).
    - At most one attempt holds an unexpired Lease proof, nobody but its holder
      changes an unexpired Lease, and a lone acquisition succeeds where it may
      (C11, C25, C26, [StorageLeaseTheorems]), by the fields of the Lease it finds.
    - A controlled mutation is journalled before it reaches the disk and stays
      so through any failures and crashes until it is restored, a restore that
      reports success has restored the volume, a new session starts only when
      no foreign mutation is open, and a lookup reports the stored journal
      (C12 to C14, C27, [StorageHelperTheorems]). C12 and C13 assume that earlier
      writes have reached the disk when a restore starts; [unsynced_repair_lost]
      of [HelperWitnesses] shows that the code needs it.
    - Over the pipe, with dropped calls and a helper that dies, the answer of a
      lookup is final: it is the state of the journal when a lookup of that id was
      served (this one, or one whose caller was dropped) and no mutation with that id
      comes after it; and the Lease is released only after the helper has accepted
      the cleanup and exited (C15, C16, [HelperSystemTheorems]).
    - A fault is activated only on an acknowledged commit, which the history
      records, and a check that passes afterwards has found that version (C17,
      C18, [AckTriggerFacts]).
    - An attempt always persists its evidence and cleans up, in this order, its
      receipts have the outcomes of the calls they stand for, and its evidence is
      valid unless persisting the raw evidence failed or the wall clock stepped back
      (C19, C20, [RecoveryWorkflowTheorems]).
    - The inspector accepts exactly the grammar of its files, never panics and
      locates the requested version only (C21 to C24, [Xl2Theorems]).
    - Receipts belong to one attempt (C28) and survive renewals of its Lease
      ([StorageReceiptTheorems]).
    - The object model is the state the history's committed operations define,
      and the source index refines flat lists of write attempts (C29, C30); what
      it keeps of ambiguous writes and deletes is in [ObjectModelFacts].
    - The replays of reads and listings report every value nobody wrote; their
      sweeps equal the naive scans (C31, C32), and they report nothing on clean
      histories ([ReplayFacts], [ReadFacts]). The version-listing checks mean what
      their messages say ([LineageFacts]).
    - The rereads end; they downgrade a failure only when every key was read
      back and never soften a correctness failure (C33, C34). The summaries
      written from them are coherent (C35), and accepted exactly when the
      recovery time fits ([RecoveryArtifactsFacts]).
    - Read and write quorums overlap and their tolerances are exact; the
      boundaries take away what they claim (C36), and a validated observation
      leaves the drives a boundary needs ([QuorumFacts]).
    - The validators accept exactly the admissible histories, and the clients and
      the recorder produce them under every interleaving as long as records can be
      written; otherwise the history is still a valid partial one (C37, C38).
    - A plan survives serialization and its write bound is exact (C39, C40).

    ** Termination

    Loops are structural recursions over the lists they traverse; the countdown
    of [truncate_error] and the shuffle recurse on their index. The retry loop
    of the rereads has fuel: [reread_fuel] allows one turn per second of the
    window and two more, because a turn that is followed by another has slept
    for at least a second. Running out of fuel would be [panicked], and C34
    proves that it does not happen. The paging loops of the client take the
    number of pages they may ask for, since nothing else bounds a server that
    keeps handing out tokens; [Diverge] is the listing that never ends, and
    [reads_are_recorded] gives the result of every listing that does. The programs
    of the Lease adapter, of the helper and of the workflow are trees, so they
    end; C26 gives the result of an acquisition and C19 that of an attempt.

    ** Not modelled

    Network, Kubernetes and file I/O beyond the calls above, serde's JSON text,
    the scenario drivers and the protocol suite. [Instant + Duration] is taken
    not to overflow. Of the client, the computation of timeouts from deadlines
    and the cleanup of a cancelled future. Of storage recovery, the stale-disk
    inventory of the helper (a parameter of its session), the one-shot modes of the
    helper binary, the host probe, the evidence artifacts of
    [src/fault/storage_recovery.rs] and the scenario drivers behind the workflow.
    Also left out are the audit of failing reports in [src/fault/checker.rs], the
    comparison of calibration suites ([src/fault/ack_calibration.rs]), which reads
    the artifacts of finished runs, quorum activation, plan and suite expansion, and
    the workload execution, whose client calls C38 allows in any order. *)
From Stdlib Require Export Ascii.
From stdpp Require Export base tactics option list list_numbers numbers strings
  gmap sets sorting pretty.
From stdpp Require Import options.

(** ** Rust results

    [anyhow::Result], a value or an error carrying its message; a Rust
    computation may also panic (an index out of range, a division by zero, a
    failed [expect]), which no caller recovers from. *)
Inductive Result (A : Type) : Type :=
| ok (a : A)
| err (msg : string)
| panicked.
Arguments ok {A} a.
Arguments err {A} msg.
Arguments panicked {A}.

Global Instance Result_ret : MRet Result := λ A a, ok a.
Global Instance Result_bind : MBind Result := λ A B f m,
  match m with ok a => f a | err e => err e | panicked => panicked end.

(** [ensure!(cond, msg)]. *)
Definition ensure (b : bool) (msg : string) : Result unit :=
  if b then ok tt else err msg.

(** [option.context(msg)?]. *)
Definition context {A} (o : option A) (msg : string) : Result A :=
  match o with Some a => ok a | None => err msg end.

Definition is_ok {A} (r : Result A) : bool :=
  match r with ok _ => true | _ => false end.

(** [slice[i]], [option.expect(_)]: panics on [None]. *)
Definition expect {A} (o : option A) : Result A :=
  match o with Some a => ok a | None => panicked end.

(** A [for] loop whose body may return early with an error. *)
Fixpoint try_fold {S A} (f : S → A → Result S) (s : S) (l : list A) : Result S :=
  match l with
  | [] => ok s
  | x :: l => s' ← f s x; try_fold f s' l
  end.

Lemma ensure_ok b msg u : ensure b msg = ok u ↔ b = true.
Proof. destruct b, u; naive_solver. Qed.

Lemma context_ok {A} (o : option A) msg a : context o msg = ok a ↔ o = Some a.
Proof. destruct o; naive_solver. Qed.

Lemma expect_ok {A} (o : option A) a : expect o = ok a ↔ o = Some a.
Proof. destruct o; naive_solver. Qed.

Lemma bind_ok {A B} (m : Result A) (f : A → Result B) b :
  m ≫= f = ok b ↔ ∃ a, m = ok a ∧ f a = ok b.
Proof. destruct m; unfold mbind; simpl; naive_solver. Qed.

(** Evaluates the error monad as far as its scrutinees are known. *)
Ltac run_result := cbn [mbind Result_bind context expect ensure option_bind].

Lemma bind_unit_ok {B} (m : Result unit) (f : unit → Result B) b :
  m ≫= f = ok b ↔ m = ok tt ∧ f tt = ok b.
Proof. rewrite bind_ok. split; [intros [[] ?]|intros ?; exists tt]; done. Qed.
Lemma bind_ensure_ok {B} (c : bool) msg (f : unit → Result B) b :
  ensure c msg ≫= f = ok b ↔ c = true ∧ f tt = ok b.
Proof. by rewrite bind_unit_ok, ensure_ok. Qed.
Lemma bind_context_ok {A B} (o : option A) msg (f : A → Result B) b :
  context o msg ≫= f = ok b ↔ ∃ a, o = Some a ∧ f a = ok b.
Proof. rewrite bind_ok. by setoid_rewrite context_ok. Qed.

Lemma bind_context_not_panicked {A B} (o : option A) msg (f : A → Result B) :
  (∀ a, f a ≠ panicked) → context o msg ≫= f ≠ panicked.
Proof. intros H. destruct o; [apply H|done]. Qed.

Lemma bind_ensure_not_panicked {B} (b : bool) msg (f : unit → Result B) :
  (b = true → f tt ≠ panicked) → ensure b msg ≫= f ≠ panicked.
Proof. intros H. destruct b; [by apply H|done]. Qed.
Lemma bind_not_panicked {A B} (m : Result A) (f : A → Result B) :
  m ≠ panicked → (∀ a, m = ok a → f a ≠ panicked) → m ≫= f ≠ panicked.
Proof. intros Hm Hf. destruct m; [by apply Hf|done|done]. Qed.

Lemma try_fold_app {S A} (f : S → A → Result S) s l1 l2 :
  try_fold f s (l1 ++ l2) = try_fold f s l1 ≫= λ s', try_fold f s' l2.
Proof.
  revert s. induction l1 as [|x l1 IH]; intros s; [done|]. simpl.
  unfold mbind, Result_bind. destruct (f s x); [apply IH|done..].
Qed.

(** The invariant rule of a [try_fold] loop: [P] holds of the elements
    consumed so far and of the loop state. *)
Lemma try_fold_invariant {S A} (f : S → A → Result S) (P : list A → S → Prop) s l s' :
  P [] s →
  (∀ done x st st', P done st → f st x = ok st' → P (done ++ [x]) st') →
  try_fold f s l = ok s' → P l s'.
Proof.
  intros H0 Hstep. revert s'. induction l as [|x l IH] using rev_ind; intros s'.
  { simpl. naive_solver. }
  rewrite try_fold_app, bind_ok. intros (s1 & H1 & H2). simpl in H2.
  apply bind_ok in H2 as (s2 & H2 & [= <-]). eauto.
Qed.

(** The iteration of one element, and what the loop did before and after. *)
Lemma try_fold_elem {S A} (f : S → A → Result S) s l s' x :
  x ∈ l → try_fold f s l = ok s' →
  ∃ l1 l2 s1 s2, try_fold f s l1 = ok s1 ∧ f s1 x = ok s2 ∧ try_fold f s2 l2 = ok s'.
Proof.
  intros (l1 & l2 & ->)%list_elem_of_split. rewrite try_fold_app.
  intros (s1 & H1 & (s2 & H2 & H3)%bind_ok)%bind_ok. by exists l1, l2, s1, s2.
Qed.
(** A property every iteration reflects holds before the loop if after it. *)
Lemma try_fold_backward {S A} (f : S → A → Result S) (Q : S → Prop) s l s' :
  (∀ s x s', f s x = ok s' → Q s' → Q s) → try_fold f s l = ok s' → Q s' → Q s.
Proof.
  intros Hf. revert s. induction l as [|x l IH]; intros s; [by intros [= <-]|].
  cbn [try_fold]. intros (s1 & H1 & H2)%bind_ok HQ. eapply Hf; [exact H1|]. by eapply IH.
Qed.
Lemma try_fold_forward {S A} (f : S → A → Result S) (Q : S → Prop) s l s' :
  (∀ s x s', f s x = ok s' → Q s → Q s') → try_fold f s l = ok s' → Q s → Q s'.
Proof.
  intros Hf. revert s. induction l as [|x l IH]; intros s; [by intros [= <-]|].
  cbn [try_fold]. intros (s1 & H1 & H2)%bind_ok HQ. eapply IH; [exact H2|]. by eapply Hf.
Qed.

(** A loop whose body always succeeds succeeds. *)
Lemma try_fold_total {S A} (f : S → A → Result S) s l :
  (∀ s x, ∃ s', f s x = ok s') → ∃ s', try_fold f s l = ok s'.
Proof.
  intros Hf. revert s. induction l as [|x l IH]; intros s; [by eexists|].
  cbn [try_fold]. destruct (Hf s x) as [s1 ->]. apply IH.
Qed.
(** [try_fold_invariant] with the element known to be in the list. *)
Lemma try_fold_invariant_in {S A} (f : S → A → Result S) (P : list A → S → Prop) s l s' :
  P [] s →
  (∀ done x st st', x ∈ l → P done st → f st x = ok st' → P (done ++ [x]) st') →
  try_fold f s l = ok s' → P l s'.
Proof.
  intros H0 Hstep. revert s'. induction l as [|x l IH] using rev_ind; intros s'.
  { simpl. naive_solver. }
  rewrite try_fold_app, bind_ok. intros (s1 & H1 & H2). simpl in H2.
  apply bind_ok in H2 as (s2 & H2 & [= <-]). eapply Hstep; [set_solver| |done].
  apply IH; [|done]. intros done y st st' Hy. apply Hstep. set_solver.
Qed.

Lemma elem_of_option_list {A} (x : A) (o : option A) : x ∈ option_list o ↔ o = Some x.
Proof.
  destruct o; simpl; [rewrite list_elem_of_singleton; naive_solver|].
  by rewrite elem_of_nil.
Qed.

(** ** Lists *)
Lemma filter_all_false {A} (P : A → bool) (l : list A) :
  Forall (λ x, P x = false) l → filter P l = [].
Proof. induction 1 as [|x l Hx _ IH]; [done|]. rewrite filter_cons, Hx. exact IH. Qed.
Lemma filter_ext_in {A} (P Q : A → bool) (l : list A) :
  (∀ x, x ∈ l → P x = Q x) → filter P l = filter Q l.
Proof.
  induction l as [|x l IH]; intros H; [done|]. rewrite !filter_cons.
  rewrite (H x) by set_solver. rewrite IH by set_solver. done.
Qed.

(** ** Machine integers

    Unsigned Rust integers are [N]; the operations that can leave the machine
    width are written with their width. *)
Definition u8_max : N := 2 ^ 8 - 1.
Definition u64_max : N := 2 ^ 64 - 1.
Definition wrap64 (n : N) : N := n `mod` 2 ^ 64.
Definition wrapping_add64 (a b : N) : N := wrap64 (a + b).
Definition wrapping_mul64 (a b : N) : N := wrap64 (a * b).
Definition checked_add64 (a b : N) : option N :=
  if decide (a + b ≤ u64_max)%N then Some (a + b)%N else None.
Definition checked_mul64 (a b : N) : option N :=
  if decide (a * b ≤ u64_max)%N then Some (a * b)%N else None.
(** [a + b] and [a - b] on [u64] with overflow checks: a panic out of range. *)
Definition add_u64 (a b : N) : Result N := expect (checked_add64 a b).
Definition sub_u64 (a b : N) : Result N :=
  if bool_decide (b ≤ a)%N then ok (a - b)%N else panicked.
Definition saturating_add64 (a b : N) : N := (a + b) `min` u64_max.
Definition saturating_mul64 (a b : N) : N := (a * b) `min` u64_max.
Definition div_ceil (a b : N) : N := (a + b - 1) `div` b.

(** [Vec::len]. *)
Definition len {A} (l : list A) : N := N.of_nat (length l).

(** The indices [0..n]. *)
Definition range_N (n : N) : list N := N.of_nat <$> seq 0 (N.to_nat n).

Lemma len_app {A} (l k : list A) : len (l ++ k) = (len l + len k)%N.
Proof. unfold len. rewrite length_app. lia. Qed.
Lemma len_cons {A} (x : A) l : len (x :: l) = (1 + len l)%N.
Proof. unfold len. simpl. lia. Qed.

(** [iter().sum()]. *)
Definition sum_N (l : list N) : N := foldr N.add 0%N l.
Lemma sum_N_cons x l : sum_N (x :: l) = (x + sum_N l)%N.
Proof. done. Qed.
Lemma sum_N_app l k : sum_N (l ++ k) = (sum_N l + sum_N k)%N.
Proof. induction l as [|x l IH]; simpl; [done|]. rewrite IH. lia. Qed.
Lemma sum_N_perm l k : l ≡ₚ k → sum_N l = sum_N k.
Proof. induction 1; simpl; lia. Qed.
Lemma checked_add64_Some a b c :
  checked_add64 a b = Some c ↔ c = (a + b)%N ∧ (a + b ≤ u64_max)%N.
Proof. unfold checked_add64. case_decide; naive_solver. Qed.
Lemma checked_mul64_Some a b c :
  checked_mul64 a b = Some c ↔ c = (a * b)%N ∧ (a * b ≤ u64_max)%N.
Proof. unfold checked_mul64. case_decide; naive_solver. Qed.
Lemma add_u64_ok a b c : add_u64 a b = ok c ↔ c = (a + b)%N ∧ (a + b ≤ u64_max)%N.
Proof.
  rewrite <-checked_add64_Some. unfold add_u64. destruct (checked_add64 a b); simpl; naive_solver.
Qed.
(** [iter().sum()] on [u64]. *)
Definition sum_u64 (l : list N) : Result N := try_fold add_u64 0%N l.
Lemma sum_u64_from acc l :
  (acc + sum_N l ≤ u64_max)%N → try_fold add_u64 acc l = ok (acc + sum_N l)%N.
Proof.
  revert acc. induction l as [|x l IH]; intros acc Hb; [simpl; f_equal; lia|].
  rewrite sum_N_cons in *. cbn [try_fold].
  assert (add_u64 acc x = ok (acc + x)%N) as -> by (apply add_u64_ok; split; [done|lia]). cbn.
  rewrite IH by lia. f_equal. lia.
Qed.
Lemma sum_u64_from_inv acc l n : try_fold add_u64 acc l = ok n → n = (acc + sum_N l)%N.
Proof.
  revert acc. induction l as [|x l IH]; intros acc; [intros [= <-]; simpl; lia|].
  rewrite sum_N_cons. cbn [try_fold]. intros (m & [-> _]%add_u64_ok & Hm)%bind_ok.
  apply IH in Hm. lia.
Qed.
Lemma sum_u64_ok l n : sum_u64 l = ok n → n = sum_N l.
Proof. intros H%sum_u64_from_inv. lia. Qed.
Lemma wrap64_lt n : (wrap64 n < 2 ^ 64)%N.
Proof. apply N.mod_lt. done. Qed.
Lemma wrap64_small n : (n < 2 ^ 64)%N → wrap64 n = n.
Proof. apply N.mod_small. Qed.

(** ** Record update

    [r <| field := v |>] and [r <| field ::= f |>]. An [Eta] instance rebuilds
    a record from its projections; a setter is obtained by abstracting one
    projection of that term. *)
Class Eta (R : Type) := eta : R → R.
Class Setter {R T : Type} (proj : R → T) := set : (T → T) → R → R.
Global Arguments set {R T} proj {_} f r.

Ltac build_setter :=
  lazymatch goal with
  | |- @Setter ?R ?T ?proj =>
      let f := fresh "f" in let r := fresh "r" in
      refine (fun (f : T → T) (r : R) => _);
      let i := constr:(_ : Eta R) in
      let t := eval hnf in i in
      let t := eval cbv beta in (t r) in
      let t := eval pattern (proj r) in t in
      lazymatch t with
      | ?g _ => let t := eval cbv beta in (g (f (proj r))) in exact t
      end
  end.
Global Hint Extern 0 (Setter _) => build_setter : typeclass_instances.

Declare Scope record_scope.
Open Scope record_scope.
Notation "r <| proj ::= f |>" := (set proj f r)
  (at level 12, f at next level, left associativity) : record_scope.
Notation "r <| proj := v |>" := (set proj (λ _, v) r)
  (at level 12, v at level 200, left associativity) : record_scope.
