(* ===== verification/Ordering.v ===== *)
(** Rust's [Ord], stable sorting ([sort], [sort_by], [sort_by_key]), [dedup],
    and the ordered iteration of [BTreeMap] and [BTreeSet].

    A [BTreeMap<K, V>] is a [gmap K V] and a [BTreeSet<K>] a [gset K]; what the
    Rust type adds, iteration in key order, is [map_entries], [map_keys] and
    [set_elems], the entries sorted by the key's order. *)
From S2P Require Import Prelude.
From stdpp Require Import options.

(** ** The [Ord] trait *)
Class RustOrd (A : Type) := {
  ord_le : relation A;
  ord_le_dec :: RelDecision ord_le;
  ord_le_po :: PartialOrder ord_le;
  ord_le_total :: Total ord_le;
}.
Global Hint Mode RustOrd ! : typeclass_instances.

Global Program Instance string_ord : RustOrd string := {| ord_le := String.le |}.
Global Program Instance N_ord : RustOrd N := {| ord_le := N.le |}.
Global Program Instance nat_ord : RustOrd nat := {| ord_le := le |}.

(** [false < true]. *)
Global Program Instance bool_ord : RustOrd bool := {| ord_le := λ a b, implb a b = true |}.
Next Obligation. intros a b. apply _. Defined.
Next Obligation.
  split; [split|].
  - by intros [].
  - by intros [] [] [].
  - by intros [] [].
Qed.
Next Obligation. intros [] []; simpl; auto. Qed.

(** Lexicographic order of pairs, hence of Rust tuples and derived [Ord]s. *)
Definition pair_le {A B} (RA : relation A) (RB : relation B) : relation (A * B) :=
  λ p q, RA p.1 q.1 ∧ (RA q.1 p.1 → RB p.2 q.2).

Global Program Instance prod_ord {A B} `{!RustOrd A, !RustOrd B} : RustOrd (A * B) :=
  {| ord_le := pair_le ord_le ord_le |}.
Next Obligation. intros A B ?? [a b] [a' b']. unfold pair_le. apply _. Defined.
Next Obligation.
  intros A B ??. split; [split|].
  - intros [a b]. split; simpl; [reflexivity|]. intros. reflexivity.
  - intros [a b] [a' b'] [a'' b''] [H1 H2] [H3 H4]; simpl in *. split; simpl.
    { by etrans. }
    intros H. assert (ord_le a' a) by (by etrans). assert (ord_le a'' a') by (by etrans).
    etrans; eauto.
  - intros [a b] [a' b'] [H1 H2] [H3 H4]; simpl in *.
    assert (a = a') as -> by (by apply (anti_symm ord_le)). f_equal.
    apply (anti_symm ord_le); eauto.
Qed.
Next Obligation.
  intros A B ?? [a b] [a' b']. unfold pair_le; simpl.
  destruct (decide (ord_le a a')), (decide (ord_le a' a)),
    (total ord_le a a'), (total ord_le b b'); naive_solver.
Qed.

(** [None < Some _]. *)
Definition option_le {A} (R : relation A) : relation (option A) :=
  λ x y, match x, y with
         | None, _ => True
         | Some _, None => False
         | Some a, Some b => R a b
         end.

Global Program Instance option_ord {A} `{!RustOrd A} : RustOrd (option A) :=
  {| ord_le := option_le ord_le |}.
Next Obligation. intros A ? [a|] [b|]; simpl; apply _. Defined.
Next Obligation.
  intros A ?. split; [split|].
  - intros [a|]; simpl; [reflexivity|done].
  - intros [a|] [b|] [c|]; simpl; try done. intros; by etrans.
  - intros [a|] [b|]; simpl; try done. intros. f_equal. by apply (anti_symm ord_le).
Qed.
Next Obligation.
  intros A ? [a|] [b|]; simpl; auto. apply (total ord_le).
Qed.

(** ** Stable sorting *)
Section sort.
Context {A : Type} (R : relation A) `{!RelDecision R}.

Fixpoint insert_sorted (x : A) (l : list A) : list A :=
  match l with
  | [] => [x]
  | y :: l' => if decide (R x y) then x :: y :: l' else y :: insert_sorted x l'
  end.

Definition sort_by (l : list A) : list A := foldr insert_sorted [] l.

Lemma insert_sorted_perm x l : insert_sorted x l ≡ₚ x :: l.
Proof using Type.
  induction l as [|y l IH]; simpl; [done|].
  case_decide; [done|]. rewrite IH. apply Permutation_swap.
Qed.

Lemma sort_by_perm l : sort_by l ≡ₚ l.
Proof using Type.
  induction l as [|x l IH]; simpl; [done|]. by rewrite insert_sorted_perm, IH.
Qed.

Lemma elem_of_sort_by x l : x ∈ sort_by l ↔ x ∈ l.
Proof using Type. by rewrite sort_by_perm. Qed.

Lemma insert_sorted_sorted `{!Total R, !Transitive R} x l :
  StronglySorted R l → StronglySorted R (insert_sorted x l).
Proof using Type.
  induction 1 as [|y l Hl IH Hy]; simpl; [by repeat constructor|].
  case_decide as Hxy.
  - constructor; [by constructor|]. constructor; [done|].
    eapply Forall_impl; [exact Hy|]. intros z ?; simpl. by etrans.
  - constructor; [done|]. rewrite insert_sorted_perm.
    constructor; [|done]. by destruct (total R x y).
Qed.

Lemma sort_by_sorted `{!Total R, !Transitive R} l : StronglySorted R (sort_by l).
Proof using Type.
  induction l; simpl; [constructor|]. by apply insert_sorted_sorted.
Qed.

Lemma insert_sorted_cons x l :
  Forall (R x) l → insert_sorted x l = x :: l.
Proof using Type. destruct 1; simpl; [done|]. by rewrite decide_True. Qed.

(** Sorting a sorted vector changes nothing. *)
Lemma sort_by_id l : StronglySorted R l → sort_by l = l.
Proof using Type.
  induction 1 as [|x l Hl IH Hx]; simpl; [done|].
  rewrite IH. by apply insert_sorted_cons.
Qed.
End sort.

(** The result of sorting does not depend on the order of the input when the
    order is antisymmetric. *)
Lemma sort_by_unique {A} (R : relation A) `{!RelDecision R, !Total R, !PartialOrder R}
    l1 l2 : l1 ≡ₚ l2 → sort_by R l1 = sort_by R l2.
Proof.
  intros H. apply (StronglySorted_unique R).
  - by apply sort_by_sorted; apply _.
  - by apply sort_by_sorted; apply _.
  - by rewrite !sort_by_perm.
Qed.

Lemma StronglySorted_weaken {A} (R S : relation A) (l : list A) :
  (∀ a b, R a b → S a b) → StronglySorted R l → StronglySorted S l.
Proof.
  intros H. induction 1 as [|x l Hs IH Hx]; constructor; [done|].
  eapply Forall_impl; [exact Hx|]. apply H.
Qed.
Lemma StronglySorted_filter {A} (R : relation A) (P : A → bool) (l : list A) :
  StronglySorted R l → StronglySorted R (filter P l).
Proof.
  induction 1 as [|x l Hs IH Hx]; [constructor|]. rewrite filter_cons. case_decide; [|done].
  constructor; [done|]. apply Forall_forall. intros y [_ Hy]%list_elem_of_filter.
  rewrite Forall_forall in Hx. by apply Hx.
Qed.

(** [sort_by_key]: elements are compared by their keys only. *)
Definition key_le {A K} `{!RustOrd K} (key : A → K) : relation A :=
  λ a b, ord_le (key a) (key b).
Global Instance key_le_dec {A K} `{!RustOrd K} (key : A → K) : RelDecision (key_le key).
Proof. intros a b. unfold key_le. apply _. Defined.
Global Instance key_le_trans {A K} `{!RustOrd K} (key : A → K) : Transitive (key_le key).
Proof. intros a b c. unfold key_le. intros; by etrans. Qed.
Global Instance key_le_total {A K} `{!RustOrd K} (key : A → K) : Total (key_le key).
Proof. intros a b. apply (total ord_le). Qed.

Definition sort_by_key {A K} `{!RustOrd K} (key : A → K) : list A → list A :=
  sort_by (key_le key).

Lemma sorted_key_unique {A K} `{!RustOrd K} (key : A → K) (l l' : list A) :
  NoDup (key <$> l) → l' ≡ₚ l →
  StronglySorted (key_le key) l → StronglySorted (key_le key) l' → l = l'.
Proof.
  revert l'. induction l as [|x l IH]; intros l' Hnd Hl' Hs Hs'.
  { by apply Permutation_nil_r in Hl' as ->. }
  destruct l' as [|y l']; [by apply Permutation_nil_cons in Hl'|].
  inversion Hs as [|?? Hsl Hx]; inversion Hs' as [|?? Hsl' Hy]; subst.
  rewrite fmap_cons, NoDup_cons in Hnd. destruct Hnd as [Hn Hnd].
  assert (y ∈ x :: l) as Hyin by (rewrite <-Hl'; left).
  assert (x ∈ y :: l') as Hxin by (rewrite Hl'; left).
  assert (x = y) as <-.
  { apply elem_of_cons in Hyin as [->|Hyin]; [done|].
    apply elem_of_cons in Hxin as [->|Hxin]; [done|].
    rewrite Forall_forall in Hx, Hy. destruct Hn.
    assert (key x = key y) as -> by (apply (anti_symm ord_le); [by apply Hx|by apply Hy]).
    by apply list_elem_of_fmap_2. }
  f_equal. apply Permutation_cons_inv in Hl'. by apply IH.
Qed.

(** Sorting by distinct keys does not depend on the order of the input. *)
Lemma sort_by_key_unique {A K} `{!RustOrd K} (key : A → K) (l1 l2 : list A) :
  NoDup (key <$> l1) → l1 ≡ₚ l2 → sort_by_key key l1 = sort_by_key key l2.
Proof.
  intros Hnd Hp. unfold sort_by_key. apply (sorted_key_unique key).
  - by rewrite (sort_by_perm (key_le key) l1).
  - by rewrite !sort_by_perm.
  - apply sort_by_sorted; apply _.
  - apply sort_by_sorted; apply _.
Qed.

(** [Vec::sort]. *)
Definition sort {A} `{!RustOrd A} (l : list A) : list A := sort_by ord_le l.

(** [Vec::dedup]: drops an element equal to its predecessor. *)
Fixpoint dedup {A} `{!EqDecision A} (l : list A) : list A :=
  match l with
  | [] => []
  | x :: l' =>
      match dedup l' with
      | [] => [x]
      | y :: l'' => if decide (x = y) then y :: l'' else x :: y :: l''
      end
  end.

Lemma elem_of_dedup {A} `{!EqDecision A} (x : A) l : x ∈ dedup l ↔ x ∈ l.
Proof.
  induction l as [|y l IH]; simpl; [done|].
  destruct (dedup l) as [|z l'].
  - rewrite !elem_of_cons, <-IH. done.
  - case_decide; subst; rewrite !elem_of_cons in *; naive_solver.
Qed.

Lemma dedup_nil {A} `{!EqDecision A} (l : list A) : dedup l = [] ↔ l = [].
Proof.
  destruct l as [|x l]; [done|]. simpl.
  destruct (dedup l); [done|]. by case_decide.
Qed.

Lemma sort_nil {A} `{!RustOrd A} (l : list A) : sort l = [] ↔ l = [].
Proof.
  unfold sort. split; [|by intros ->]. intros H.
  apply Permutation_nil_r. by rewrite <-(sort_by_perm ord_le l), H.
Qed.

(** ** Ordered iteration *)
Definition set_elems {K} `{Countable K, !RustOrd K} (s : gset K) : list K :=
  sort (elements s).
Definition map_keys {K V} `{Countable K, !RustOrd K} (m : gmap K V) : list K :=
  set_elems (dom m).
Definition map_entries {K V} `{Countable K, !RustOrd K} (m : gmap K V) : list (K * V) :=
  sort_by_key fst (map_to_list m).

(** A vector collected into a [BTreeSet]. *)
Definition to_set {K} `{Countable K} (l : list K) : gset K := list_to_set l.

Section ordered.
Context {K : Type} `{Countable K, !RustOrd K}.
Implicit Types (s : gset K) (k : K).

Lemma elem_of_set_elems k s : k ∈ set_elems s ↔ k ∈ s.
Proof using Type.
  unfold set_elems, sort. by rewrite elem_of_sort_by, elem_of_elements.
Qed.
Lemma set_elems_sorted s : StronglySorted ord_le (set_elems s).
Proof using Type. apply sort_by_sorted; apply _. Qed.
Lemma set_elems_NoDup s : NoDup (set_elems s).
Proof using Type.
  unfold set_elems, sort. rewrite sort_by_perm. apply NoDup_elements.
Qed.
Lemma set_elems_length s : length (set_elems s) = size s.
Proof using Type. unfold set_elems, sort. by rewrite sort_by_perm. Qed.

Lemma elem_of_map_keys {V} k (m : gmap K V) : k ∈ map_keys m ↔ is_Some (m !! k).
Proof using Type. unfold map_keys. by rewrite elem_of_set_elems, elem_of_dom. Qed.
Lemma elem_of_map_entries {V} k v (m : gmap K V) :
  (k, v) ∈ map_entries m ↔ m !! k = Some v.
Proof using Type.
  unfold map_entries, sort_by_key. by rewrite elem_of_sort_by, elem_of_map_to_list.
Qed.
Lemma map_entries_keys_NoDup {V} (m : gmap K V) : NoDup (map_entries m).*1.
Proof using Type.
  unfold map_entries, sort_by_key. rewrite sort_by_perm. apply NoDup_fst_map_to_list.
Qed.

(** [set.len() == vec.len()] after collecting: the vector has no duplicate. *)
Lemma to_set_size_le (l : list K) : size (to_set l) ≤ length l.
Proof using Type.
  unfold to_set. induction l as [|y l IH]; simpl; [done|].
  rewrite size_union_alt, size_singleton.
  pose proof (subseteq_size (list_to_set l ∖ {[y]} : gset K) (list_to_set l)).
  set_solver by lia.
Qed.
Lemma to_set_size (l : list K) : size (to_set l) = length l ↔ NoDup l.
Proof using Type.
  unfold to_set. split.
  - induction l as [|x l IH]; simpl; intros Hs; [constructor|].
    pose proof (to_set_size_le l) as Hle. unfold to_set in Hle.
    destruct (decide (x ∈ l)) as [Hx|Hx].
    + assert ({[x]} ∪ list_to_set l = (list_to_set l : gset K)) as E by set_solver.
      rewrite E in Hs. lia.
    + rewrite size_union, size_singleton in Hs by set_solver.
      constructor; [done|]. apply IH. lia.
  - induction 1 as [|x l Hx Hl IH]; simpl; [done|].
    rewrite size_union, size_singleton, IH by set_solver. lia.
Qed.
Lemma elem_of_to_set k l : k ∈ to_set l ↔ k ∈ l.
Proof using Type. unfold to_set. by rewrite elem_of_list_to_set. Qed.
End ordered.

Create Rewrite HintDb ordering.
#[export] Hint Rewrite @elem_of_set_elems @elem_of_map_keys @elem_of_map_entries
  @elem_of_to_set @elem_of_dedup @elem_of_sort_by : ordering.
