(* ===== verification/RustText.v ===== *)
(** Rust text: the [str] methods and the [format!] conversions the program
    uses, on UTF-8 byte strings ([string], one [ascii] per byte). *)
From S2P Require Import Prelude.
From stdpp Require Import options.

(** ** [str] methods *)
Definition starts_with (p s : string) : bool := String.prefix p s.
Global Arguments starts_with : simpl never.

Fixpoint strip_prefix (p s : string) : option string :=
  match p, s with
  | EmptyString, _ => Some s
  | String a p', String b s' => if decide (a = b) then strip_prefix p' s' else None
  | _, EmptyString => None
  end.

Fixpoint ends_with (suffix s : string) : bool :=
  bool_decide (suffix = s) ||
  match s with EmptyString => false | String _ s' => ends_with suffix s' end.

Fixpoint contains (needle s : string) : bool :=
  starts_with needle s ||
  match s with EmptyString => false | String _ s' => contains needle s' end.

(** [s.split_once(pat)]: around the first occurrence. *)
Fixpoint split_once (pat s : string) : option (string * string) :=
  match strip_prefix pat s with
  | Some rest => Some (""%string, rest)
  | None =>
      match s with
      | EmptyString => None
      | String c s' => '(a, b) ← split_once pat s'; Some (String c a, b)
      end
  end.

(** [s.match_indices(pat).count()] for a non-empty [pat]: occurrences that do
    not overlap, left to right; [skip] bytes of the last match are passed. *)
Fixpoint match_count_go (pat s : string) (skip : nat) : nat :=
  match s with
  | EmptyString => 0
  | String _ s' =>
      match skip with
      | S skip' => match_count_go pat s' skip'
      | O => if starts_with pat s
             then S (match_count_go pat s' (String.length pat - 1))
             else match_count_go pat s' 0
      end
  end.
Definition match_count (pat s : string) : nat := match_count_go pat s 0.

Definition ascii_lower (c : ascii) : ascii :=
  let n := N_of_ascii c in
  if decide (65 ≤ n ∧ n ≤ 90)%N then ascii_of_N (n + 32) else c.
Fixpoint to_ascii_lowercase (s : string) : string :=
  match s with
  | EmptyString => EmptyString
  | String c s' => String (ascii_lower c) (to_ascii_lowercase s')
  end.

(** [s.trim().is_empty()]: only characters with the Unicode [White_Space]
    property, written as their UTF-8 encodings. *)
Fixpoint trim_is_empty (s : string) : bool :=
  match s with
  | EmptyString => true
  | String "009" s' | String "010" s' | String "011" s' | String "012" s'
  | String "013" s' | String " " s' => trim_is_empty s'
  | String "194" (String "133" s') | String "194" (String "160" s') => trim_is_empty s'
  | String "225" (String "154" (String "128" s')) => trim_is_empty s'
  | String "226" (String "128" (String c s')) =>
      let n := N_of_ascii c in
      if bool_decide (128 ≤ n ∧ n ≤ 138)%N || bool_decide (n = 168)%N
         || bool_decide (n = 169)%N || bool_decide (n = 175)%N
      then trim_is_empty s' else false
  | String "226" (String "129" (String "159" s')) => trim_is_empty s'
  | String "227" (String "128" (String "128" s')) => trim_is_empty s'
  | _ => false
  end%char.

(** [s.is_char_boundary(i)]: position 0, the end, or a byte that does not
    continue a character ([10xxxxxx]). *)
Definition is_continuation (c : ascii) : bool :=
  let n := N_of_ascii c in bool_decide (128 ≤ n ∧ n < 192)%N.
Definition is_char_boundary (s : string) (i : nat) : bool :=
  match i with
  | O => true
  | _ => match String.get i s with
         | Some c => negb (is_continuation c)
         | None => bool_decide (i = String.length s)
         end
  end.

Fixpoint join (sep : string) (l : list string) : string :=
  match l with
  | [] => ""
  | [x] => x
  | x :: l' => x +:+ sep +:+ join sep l'
  end.

(** [s.replace(pat, by)]. Rust replaces the non-overlapping matches left to
    right; an empty pattern matches before every character and at the end. *)
Fixpoint replace_go (pat rep s : string) (skip : nat) : string :=
  match s with
  | EmptyString => EmptyString
  | String c s' =>
      match skip with
      | S skip' => replace_go pat rep s' skip'
      | O => if starts_with pat s
             then rep +:+ replace_go pat rep s' (String.length pat - 1)
             else String c (replace_go pat rep s' 0)
      end
  end.
Definition replace (pat rep s : string) : string := replace_go pat rep s 0.

(** ** Formatting *)

(** [{}] of an unsigned integer. *)
Definition dec (n : N) : string := pretty n.

(** [{:06}]. *)
Fixpoint zeros (n : nat) : string :=
  match n with O => EmptyString | S n' => String "0" (zeros n') end.
Definition dec_pad (width : nat) (n : N) : string :=
  zeros (width - String.length (dec n)) +:+ dec n.

Definition hex_digit (n : N) : ascii :=
  if decide (n < 10)%N then ascii_of_N (48 + n) else ascii_of_N (87 + n).

(** [char::escape_debug] of the bytes of an ASCII string as [str]'s [Debug]
    uses it. Bytes of a multi-byte character are copied, which is what Rust
    does for printable characters. *)
Definition escape_debug (c : ascii) : string :=
  let n := N_of_ascii c in
  if decide (n = 0)%N then "\0"
  else if decide (n = 9)%N then "\t"
  else if decide (n = 10)%N then "\n"
  else if decide (n = 13)%N then "\r"
  else if decide (n = 34)%N then String "\" (String "034" EmptyString)
  else if decide (n = 92)%N then "\\"
  else if decide (n < 32 ∨ n = 127)%N then
    "\u{" +:+ (if decide (n < 16)%N then String (hex_digit n) "}"
               else String (hex_digit (n `div` 16)) (String (hex_digit (n `mod` 16)) "}"))
  else String c EmptyString.
Fixpoint escape_all (s : string) : string :=
  match s with
  | EmptyString => EmptyString
  | String c s' => escape_debug c +:+ escape_all s'
  end.
Definition quote : string := String "034" EmptyString.
Definition str_debug (s : string) : string := quote +:+ escape_all s +:+ quote.

Definition option_debug {A} (f : A → string) (o : option A) : string :=
  match o with Some a => "Some(" +:+ f a +:+ ")" | None => "None" end.

(** [{:?}] of a [BTreeSet<String>], given its ordered elements. *)
Definition set_debug (l : list string) : string :=
  "{" +:+ join ", " (str_debug <$> l) +:+ "}".

Definition bool_display (b : bool) : string := if b then "true" else "false".

(** ** Parsing decimal text *)
Fixpoint digits_value (acc : N) (s : string) : option N :=
  match s with
  | EmptyString => Some acc
  | String c s' => d ← Ascii.is_nat c; digits_value (acc * 10 + N.of_nat d) s'
  end.

(** [str::parse::<u16>().ok()]: an optional [+], at least one digit, no
    overflow. *)
Definition parse_u16 (s : string) : option N :=
  let digits := match s with String "+" s' => s' | _ => s end in
  match digits with
  | EmptyString => None
  | _ => n ← digits_value 0 digits; if decide (n < 2 ^ 16)%N then Some n else None
  end%char.

(** ** Facts *)
Lemma append_assoc (a b c : string) : (a +:+ b) +:+ c = a +:+ b +:+ c.
Proof. induction a; simpl; [done|]. unfold String.append in *; fold String.append in *. congruence. Qed.
Lemma append_nil_r (a : string) : a +:+ "" = a.
Proof. induction a; simpl; [done|]. unfold String.append in *; fold String.append in *. congruence. Qed.
Lemma append_cons c (a b : string) : String c a +:+ b = String c (a +:+ b).
Proof. done. Qed.
Lemma append_nil_l (a : string) : "" +:+ a = a.
Proof. done. Qed.
Lemma length_append (a b : string) :
  String.length (a +:+ b) = (String.length a + String.length b)%nat.
Proof. induction a; [done|]. rewrite append_cons. simpl. lia. Qed.

Lemma append_inj_r (s a b : string) : a +:+ s = b +:+ s → a = b.
Proof.
  revert b. induction a as [|c a IH]; intros [|d b] H; [done| | |].
  - apply (f_equal String.length) in H. rewrite !length_append in H. simpl in H. lia.
  - apply (f_equal String.length) in H. rewrite !length_append in H. simpl in H. lia.
  - rewrite !append_cons in H. injection H as -> H. f_equal. by apply IH.
Qed.

Lemma starts_with_spec p s : starts_with p s = true ↔ ∃ rest, s = p +:+ rest.
Proof.
  unfold starts_with. revert s. induction p as [|a p IH]; intros s.
  { split; [intros _; by exists s|]. by destruct s. }
  destruct s as [|b s]; simpl.
  { split; [done|]. intros [rest H]. by rewrite append_cons in H. }
  destruct (ascii_dec a b) as [->|Hne].
  - rewrite IH. split; intros [rest H]; exists rest; [by rewrite append_cons, <-H|].
    rewrite append_cons in H. congruence.
  - split; [done|]. intros [rest H]. rewrite append_cons in H. congruence.
Qed.

Lemma strip_prefix_spec p s rest : strip_prefix p s = Some rest ↔ s = p +:+ rest.
Proof.
  revert s. induction p as [|a p IH]; intros s; simpl.
  { rewrite append_nil_l. naive_solver. }
  destruct s as [|b s]; [by rewrite append_cons|].
  rewrite append_cons. case_decide; subst; [rewrite IH|]; naive_solver.
Qed.

Lemma strip_prefix_app p s : strip_prefix p (p +:+ s) = Some s.
Proof. by apply strip_prefix_spec. Qed.

Lemma starts_with_strip p s : starts_with p s = bool_decide (is_Some (strip_prefix p s)).
Proof.
  apply eq_true_iff_eq. rewrite starts_with_spec, bool_decide_eq_true.
  unfold is_Some. by setoid_rewrite strip_prefix_spec.
Qed.

Lemma contains_spec needle s :
  contains needle s = true ↔ ∃ a b, s = a +:+ needle +:+ b.
Proof.
  induction s as [|c s IH].
  - simpl. rewrite orb_false_r, starts_with_spec. split.
    + intros [rest H]. by exists "", rest.
    + intros ([|? a] & b & H); [|by rewrite append_cons in H]. eauto.
  - simpl. rewrite orb_true_iff, starts_with_spec, IH. split.
    + intros [[rest ->]|(a & b & ->)]; [by exists "", rest|by exists (String c a), b].
    + intros ([|c' a] & b & H); [left; eauto|]. rewrite append_cons in H.
      injection H as -> ->. right. eauto.
Qed.

Lemma split_once_spec pat s a b :
  split_once pat s = Some (a, b) → s = a +:+ pat +:+ b.
Proof.
  revert a b. induction s as [|c s IH]; intros a b; simpl.
  - destruct (strip_prefix pat "") eqn:E; [|done]. intros [= <- <-].
    apply strip_prefix_spec in E. by rewrite append_nil_l, <-E.
  - destruct (strip_prefix pat (String c s)) eqn:E.
    + intros [= <- <-]. apply strip_prefix_spec in E. by rewrite append_nil_l, <-E.
    + intros H. apply bind_Some in H as ([a' b'] & H & [= <- <-]).
      rewrite append_cons. f_equal. by apply IH.
Qed.

Lemma split_once_Some pat s : is_Some (split_once pat s) ↔ contains pat s = true.
Proof.
  induction s as [|c s IH].
  - simpl. rewrite starts_with_strip, orb_false_r, bool_decide_eq_true.
    destruct (strip_prefix pat ""); simpl; split; try done; by intros [].
  - simpl. rewrite starts_with_strip, orb_true_iff, bool_decide_eq_true, <-IH.
    destruct (strip_prefix pat (String c s)) eqn:E; simpl.
    + split; [|by eauto]. eauto.
    + split.
      * intros [x H]. apply bind_Some in H as ([a b] & H & _). right. by eexists.
      * intros [[? ?]|[[a b] H]]; [done|]. rewrite H. simpl. by eexists.
Qed.

(** The first occurrence is found: if [a] is followed by [pat] and no earlier
    occurrence begins inside [a], the split is at [a]. *)
Lemma split_once_first pat a b :
  (∀ c a', a = c +:+ a' → a' ≠ "" → starts_with pat (a' +:+ pat +:+ b) = false) →
  split_once pat (a +:+ pat +:+ b) = Some (a, b).
Proof.
  induction a as [|c a IH]; intros Hfirst.
  - rewrite append_nil_l. destruct pat as [|p pat]; [by destruct b|].
    rewrite append_cons. simpl. rewrite decide_True by done.
    by rewrite strip_prefix_app.
  - rewrite append_cons. simpl.
    assert (strip_prefix pat (String c (a +:+ pat +:+ b)) = None) as ->.
    { pose proof (Hfirst "" (String c a)) as H. rewrite append_nil_l in H.
      specialize (H eq_refl ltac:(done)). rewrite append_cons in H.
      rewrite starts_with_strip, bool_decide_eq_false in H. by apply eq_None_not_Some. }
    rewrite IH; [done|]. intros c' a' -> Hne. apply (Hfirst (String c c')); [|done].
    by rewrite append_cons.
Qed.

Lemma digits_value_zeros n s : digits_value 0 (zeros n +:+ s) = digits_value 0 s.
Proof. induction n as [|n IH]; [done|]. simpl zeros. rewrite append_cons. by rewrite <-IH. Qed.

Lemma is_nat_pretty_N_char x :
  (x < 10)%N → Ascii.is_nat (pretty_N_char x) = Some (N.to_nat x).
Proof.
  intros Hx. assert (x = 0 ∨ x = 1 ∨ x = 2 ∨ x = 3 ∨ x = 4 ∨ x = 5
    ∨ x = 6 ∨ x = 7 ∨ x = 8 ∨ x = 9)%N as H by lia.
  repeat destruct H as [->|H]; try reflexivity. by subst.
Qed.

Lemma digits_value_go x s : digits_value 0 (pretty_N_go x s) = digits_value x s.
Proof.
  revert s. induction (N.lt_wf_0 x) as [x _ IH]; intros s.
  destruct (decide (x = 0)%N) as [->|Hx]; [by rewrite pretty_N_go_0|].
  rewrite pretty_N_go_step by lia. rewrite IH by (apply N.div_lt; lia).
  simpl. rewrite is_nat_pretty_N_char by (apply N.mod_lt; lia). simpl.
  rewrite N2Nat.id. f_equal. pose proof (N.div_mod x 10). lia.
Qed.

Lemma digits_value_dec n : digits_value 0 (dec n) = Some n.
Proof.
  unfold dec, pretty, pretty_N. case_decide; [by subst|]. by rewrite digits_value_go.
Qed.

Lemma dec_inj a b : dec a = dec b → a = b.
Proof. intros H. apply (f_equal (digits_value 0)) in H. rewrite !digits_value_dec in H. congruence. Qed.

Lemma dec_pad_inj w a b : dec_pad w a = dec_pad w b → a = b.
Proof.
  intros H. apply (f_equal (digits_value 0)) in H. unfold dec_pad in H.
  rewrite !digits_value_zeros, !digits_value_dec in H. congruence.
Qed.
