(* ===== verification/History.v ===== *)
(** The operation history ([src/fault/history.rs]): the record of one S3
    operation, the recorder that stamps and collects records, and the
    validators of a recorded history. *)
From S2P Require Import Prelude Ordering RustText.
From stdpp Require Import options.

(** ** Data *)
Module OperationKind.
Inductive t :=
| CreateBucket | PutBucketVersioning | Put | Get | Head | List | ListVersions
| Delete | CreateMultipartUpload | UploadPart | CompleteMultipartUpload
| AbortMultipartUpload.
Global Instance eq_dec : EqDecision t.
Proof. solve_decision. Defined.
(** [{:?}]. *)
Definition debug (k : t) : string :=
  match k with
  | CreateBucket => "CreateBucket"
  | PutBucketVersioning => "PutBucketVersioning"
  | Put => "Put"
  | Get => "Get"
  | Head => "Head"
  | List => "List"
  | ListVersions => "ListVersions"
  | Delete => "Delete"
  | CreateMultipartUpload => "CreateMultipartUpload"
  | UploadPart => "UploadPart"
  | CompleteMultipartUpload => "CompleteMultipartUpload"
  | AbortMultipartUpload => "AbortMultipartUpload"
  end.
End OperationKind.

Module OperationOutcome.
Inductive t := Ok | NotFound | Failed | Timeout | Unknown.
Global Instance eq_dec : EqDecision t.
Proof. solve_decision. Defined.
(** [{:?}]. *)
Definition debug (o : t) : string :=
  match o with
  | Ok => "Ok" | NotFound => "NotFound" | Failed => "Failed"
  | Timeout => "Timeout" | Unknown => "Unknown"
  end.
End OperationOutcome.

Module DurabilityCohort.
Inductive t := PreFault | FaultActive | PostRecovery.
Global Instance eq_dec : EqDecision t.
Proof. solve_decision. Defined.
Definition as_str (c : t) : string :=
  match c with
  | PreFault => "pre_fault"
  | FaultActive => "fault_active"
  | PostRecovery => "post_recovery"
  end.
End DurabilityCohort.

Module FaultWindowRelation.
Inductive t := BeforeFault | DuringFault | AfterFault | OverlapsFault | Unknown.
Global Instance eq_dec : EqDecision t.
Proof. solve_decision. Defined.
Definition as_str (r : t) : string :=
  match r with
  | BeforeFault => "before_fault"
  | DuringFault => "during_fault"
  | AfterFault => "after_fault"
  | OverlapsFault => "overlaps_fault"
  | Unknown => "unknown"
  end.
End FaultWindowRelation.

(** Generator inputs of a committed write's body. *)
Record PayloadRef := mkPayloadRef { payload_seed : N; payload_index : N }.
Global Instance PayloadRef_eq_dec : EqDecision PayloadRef.
Proof. solve_decision. Defined.

(** The byte range of a ranged GET. *)
Record ByteRange := mkByteRange { range_offset : N; range_length : N }.
Global Instance ByteRange_eq_dec : EqDecision ByteRange.
Proof. solve_decision. Defined.

Record ListedVersionEntry := mkListedVersionEntry {
  lve_key : string;
  lve_version_id : option string;
  lve_is_latest : bool;
  lve_is_delete_marker : bool;
}.
Global Instance ListedVersionEntry_eq_dec : EqDecision ListedVersionEntry.
Proof. solve_decision. Defined.

Module ReadPurpose.
Inductive t := CohortProbe | MutationVerification (operation_id : string).
Global Instance eq_dec : EqDecision t.
Proof. solve_decision. Defined.
End ReadPurpose.

Record OperationRecord := mkOperationRecord {
  op_id : string;
  op_scenario : string;
  op_run_id : option string;
  op_kind : OperationKind.t;
  op_bucket : string;
  op_key : option string;
  op_value_sha256 : option string;
  op_size_bytes : option N;
  op_version_id : option string;
  op_request_version_id : option string;
  op_is_delete_marker : option bool;
  op_request_id : option string;
  op_extended_request_id : option string;
  op_mutation_max_attempts : option N;
  op_mutation_attempts : option N;
  op_read_purpose : option ReadPurpose.t;
  op_listed_keys : option (list string);
  op_listed_versions : option (list ListedVersionEntry);
  op_payload_ref : option PayloadRef;
  op_range : option ByteRange;
  op_started_sequence : option N;
  op_ended_sequence : option N;
  op_started_at_ms : N;
  op_ended_at_ms : N;
  op_outcome : OperationOutcome.t;
  op_http_status : option N;
  op_error : option string;
  op_durability_cohort : option DurabilityCohort.t;
  op_fault_window_relation : option FaultWindowRelation.t;
}.
Global Instance OperationRecord_eq_dec : EqDecision OperationRecord.
Proof. solve_decision. Defined.
Global Instance OperationRecord_eta : Eta OperationRecord := λ r,
  mkOperationRecord (op_id r) (op_scenario r) (op_run_id r) (op_kind r) (op_bucket r)
    (op_key r) (op_value_sha256 r) (op_size_bytes r) (op_version_id r)
    (op_request_version_id r) (op_is_delete_marker r) (op_request_id r)
    (op_extended_request_id r) (op_mutation_max_attempts r) (op_mutation_attempts r)
    (op_read_purpose r) (op_listed_keys r) (op_listed_versions r) (op_payload_ref r)
    (op_range r) (op_started_sequence r) (op_ended_sequence r) (op_started_at_ms r)
    (op_ended_at_ms r) (op_outcome r) (op_http_status r) (op_error r)
    (op_durability_cohort r) (op_fault_window_relation r).

Definition verification_of (r : OperationRecord) : option string :=
  match op_read_purpose r with
  | Some (ReadPurpose.MutationVerification operation_id) => Some operation_id
  | _ => None
  end.
Definition is_cohort_probe (r : OperationRecord) : bool :=
  bool_decide (op_read_purpose r = Some ReadPurpose.CohortProbe).

(** [matches!(kind, Put | Delete | CompleteMultipartUpload)]: the object
    mutations. *)
Definition is_mutation_kind (k : OperationKind.t) : bool :=
  match k with
  | OperationKind.Put | OperationKind.Delete
  | OperationKind.CompleteMultipartUpload => true
  | _ => false
  end.
(** [matches!(kind, Put | CompleteMultipartUpload)]. *)
Definition is_write_kind (k : OperationKind.t) : bool :=
  match k with
  | OperationKind.Put | OperationKind.CompleteMultipartUpload => true
  | _ => false
  end.

(** [version_id.filter(|id| !id.is_empty() && id != "null")]: an immutable
    version identity. *)
Definition immutable_version_id (v : option string) : option string :=
  match v with
  | Some id => if decide (id = "" ∨ id = "null") then None else Some id
  | None => None
  end.

(** ** Validation of a recorded history *)

(** The records whose response carries a fresh immutable version identity. *)
Definition creates_version (r : OperationRecord) : bool :=
  bool_decide (op_outcome r = OperationOutcome.Ok) &&
  (is_write_kind (op_kind r)
   || (bool_decide (op_kind r = OperationKind.Delete)
       && bool_decide (op_request_version_id r = None)
       && bool_decide (op_is_delete_marker r ≠ Some false))).

Definition check_version_identity (seen : gset (string * string * string))
    (r : OperationRecord) : Result (gset (string * string * string)) :=
  if creates_version r then
    match immutable_version_id (op_version_id r) with
    | None => ok seen
    | Some version_id =>
        key ← context (op_key r) "successful versioned mutation history record has no key";
        _ ← ensure (bool_decide ((op_bucket r, key, version_id) ∉ seen))
              ("history reuses successful immutable S3 version identity "
               +:+ op_bucket r +:+ "/" +:+ key +:+ "@" +:+ version_id);
        ok ({[(op_bucket r, key, version_id)]} ∪ seen)
    end
  else ok seen.

Definition validate_successful_version_identity_uniqueness
    (records : list OperationRecord) : Result unit :=
  _ ← try_fold check_version_identity ∅ records; ok tt.

(** The state of the ordering loop. *)
Record OrderState := mkOrderState {
  ord_event_sequences : gset N;
  ord_operation_ids : gset string;
  ord_previous_ended : option N;
  ord_mutation_end_by_key : gmap string N;
}.

Definition check_read_purpose (r : OperationRecord) : Result unit :=
  match op_read_purpose r with
  | None => ok tt
  | Some purpose =>
      _ ← ensure (bool_decide (op_kind r = OperationKind.Get)
                  && bool_decide (op_range r = None)
                  && bool_decide (op_version_id r = None))
            "history read purpose requires an unversioned full GET";
      match purpose with
      | ReadPurpose.MutationVerification operation_id =>
          ensure (negb (trim_is_empty operation_id))
            "history verification has an empty mutation id"
      | ReadPurpose.CohortProbe => ok tt
      end
  end.

Definition check_mutation_attempts (r : OperationRecord) : Result unit :=
  match op_mutation_attempts r with
  | None => ok tt
  | Some attempts =>
      ensure (is_mutation_kind (op_kind r)
              && match op_mutation_max_attempts r with
                 | None => true
                 | Some maximum => bool_decide (attempts ≤ maximum)%N
                 end
              && (bool_decide (0 < attempts)%N
                  || bool_decide (op_outcome r ≠ OperationOutcome.Ok)))
        "history mutation attempt count contradicts its operation, retry ceiling, or outcome"
  end.

Definition check_event_sequence (require_contiguous : bool) (expected_last : N)
    (seen : gset N) (sequence : N) : Result (gset N) :=
  _ ← ensure (bool_decide (0 < sequence)%N
              && (negb require_contiguous || bool_decide (sequence ≤ expected_last)%N))
        "history recorder event sequence is outside the permitted monotonic range";
  _ ← ensure (bool_decide (sequence ∉ seen))
        "history contains a duplicate recorder event sequence";
  ok ({[sequence]} ∪ seen).

Definition check_completion_order (previous : option N) (ended : N) : Result unit :=
  match previous with
  | None => ok tt
  | Some previous =>
      ensure (bool_decide (previous < ended)%N)
        "history records are not in monotonically increasing completion order"
  end.

Definition check_mutation_overlap (ends : gmap string N) (r : OperationRecord)
    (started ended : N) : Result (gmap string N) :=
  if is_mutation_kind (op_kind r) then
    key ← context (op_key r) "object mutation history record has no key";
    match ends !! key with
    | None => ok (<[key:=ended]> ends)
    | Some previous_end =>
        _ ← ensure (bool_decide (previous_end < started)%N)
              ("history mutations for key " +:+ str_debug key
               +:+ " overlap; their latest state is ambiguous");
        ok (<[key:=ended]> ends)
    end
  else ok ends.

(** One iteration of the ordering loop. *)
Definition check_record_order (require_contiguous : bool) (expected_last : N)
    (st : OrderState) (r : OperationRecord) : Result OrderState :=
  _ ← ensure (negb (trim_is_empty (op_id r))
              && bool_decide (op_id r ∉ ord_operation_ids st))
        "history contains an empty or duplicate operation id";
  started ← context (op_started_sequence r)
              "history operation has no recorder start sequence";
  ended ← context (op_ended_sequence r)
              "history operation has no recorder end sequence";
  _ ← ensure (bool_decide (started < ended)%N)
        "history contains an inverted recorder event sequence";
  _ ← check_read_purpose r;
  _ ← check_mutation_attempts r;
  seen ← check_event_sequence require_contiguous expected_last
           (ord_event_sequences st) started;
  seen ← check_event_sequence require_contiguous expected_last seen ended;
  _ ← check_completion_order (ord_previous_ended st) ended;
  ends ← check_mutation_overlap (ord_mutation_end_by_key st) r started ended;
  ok (mkOrderState seen ({[op_id r]} ∪ ord_operation_ids st) (Some ended) ends).

Definition in_scope (scenario run_id bucket : string) (r : OperationRecord) : bool :=
  bool_decide (op_scenario r = scenario)
  && bool_decide (op_run_id r = Some run_id)
  && bool_decide (op_bucket r = bucket).

Definition validate_history_scope_and_order_mode (records : list OperationRecord)
    (scenario run_id bucket : string) (require_contiguous : bool) : Result unit :=
  _ ← ensure (forallb (in_scope scenario run_id bucket) records)
        "history contains an operation outside the checker run scenario, run id, or bucket";
  _ ← validate_successful_version_identity_uniqueness records;
  expected_event_count ← context (checked_mul64 (len records) 2)
                            "history event count overflow";
  _ ← try_fold (check_record_order require_contiguous expected_event_count)
        (mkOrderState ∅ ∅ None ∅) records;
  ok tt.

Definition validate_history_scope_and_order records scenario run_id bucket :=
  validate_history_scope_and_order_mode records scenario run_id bucket true.
Definition validate_partial_history_scope_and_order records scenario run_id bucket :=
  validate_history_scope_and_order_mode records scenario run_id bucket false.

(** [iter.max()] and [iter.min()]. *)
Definition list_max (l : list N) : option N :=
  match l with [] => None | x :: l' => Some (foldl N.max x l') end.
Definition list_min (l : list N) : option N :=
  match l with [] => None | x :: l' => Some (foldl N.min x l') end.

Definition validate_history_phase_boundary (completed following : list OperationRecord)
    (boundary : string) : Result unit :=
  match completed, following with
  | [], _ | _, [] => ok tt
  | _, _ =>
      completed_sequence ← context (list_max (omap op_ended_sequence completed))
        "completed history phase has no recorder end sequence";
      following_sequence ← context (list_min (omap op_started_sequence following))
        "following history phase has no recorder start sequence";
      ensure (bool_decide (completed_sequence < following_sequence)%N)
        ("history phases overlap at " +:+ boundary
         +:+ "; the previous phase had not completed before the next phase began")
  end.

(** ** The recorder *)
Record FaultWindow := mkFaultWindow {
  fw_active_at_ms : option N;
  fw_ended_at_ms : option N;
}.

Definition relation_for (w : FaultWindow) (started_at_ms ended_at_ms : N)
    : option FaultWindowRelation.t :=
  active_at_ms ← fw_active_at_ms w;
  match fw_ended_at_ms w with
  | None =>
      Some (if decide (ended_at_ms < active_at_ms)%N
            then FaultWindowRelation.BeforeFault
            else FaultWindowRelation.DuringFault)
  | Some fault_ended_at_ms =>
      if decide (ended_at_ms < active_at_ms)%N then Some FaultWindowRelation.BeforeFault
      else if decide (fault_ended_at_ms ≤ started_at_ms)%N
      then Some FaultWindowRelation.AfterFault
      else if decide (active_at_ms ≤ started_at_ms ∧ ended_at_ms ≤ fault_ended_at_ms)%N
      then Some FaultWindowRelation.DuringFault
      else Some FaultWindowRelation.OverlapsFault
  end.

(** The recorder state behind its mutex. The path and the buffered writer are I/O:
    writing a record is a parameter of [finish], which says with which error it fails,
    if it does. *)
Record RecorderState := mkRecorderState {
  rs_scenario : string;
  rs_run_id : string;
  rs_next_id : N;
  rs_next_event_sequence : N;
  rs_durability_cohort : DurabilityCohort.t;
  rs_fault_window : FaultWindow;
  rs_records : list OperationRecord;
  rs_redactions : list string;
}.
Global Instance RecorderState_eta : Eta RecorderState := λ r,
  mkRecorderState (rs_scenario r) (rs_run_id r) (rs_next_id r)
    (rs_next_event_sequence r) (rs_durability_cohort r) (rs_fault_window r)
    (rs_records r) (rs_redactions r).

Definition create (scenario run_id : string) : RecorderState :=
  mkRecorderState scenario run_id 1 1 DurabilityCohort.PreFault
    (mkFaultWindow None None) [] [].

(** [begin]: stamps a new operation with the next identifier and start event. *)
Definition begin (st : RecorderState) (kind : OperationKind.t) (bucket : string)
    (key value_sha256 : option string) (size_bytes : option N) (now : N)
    : Result (OperationRecord * RecorderState) :=
  next_id ← add_u64 (rs_next_id st) 1;
  next_event_sequence ← add_u64 (rs_next_event_sequence st) 1;
  ok (mkOperationRecord ("op-" +:+ dec_pad 6 (rs_next_id st)) (rs_scenario st)
        (Some (rs_run_id st)) kind bucket key value_sha256 size_bytes
        None None None None None None None None None None None None
        (Some (rs_next_event_sequence st)) None now now
        OperationOutcome.Unknown None None (Some (rs_durability_cohort st))
        (relation_for (rs_fault_window st) now now),
      st <| rs_next_id := next_id |> <| rs_next_event_sequence := next_event_sequence |>).

(** [truncate_error]: at most 300 bytes, cut at a character boundary. *)
Fixpoint char_boundary_at_or_below (s : string) (fuel_end : nat) : nat :=
  if is_char_boundary s fuel_end then fuel_end
  else match fuel_end with O => O | S e => char_boundary_at_or_below s e end.
Definition MAX_ERROR_LEN : nat := 300.
Definition truncate_error (message : string) : string :=
  if decide (String.length message ≤ MAX_ERROR_LEN) then message
  else String.substring 0 (char_boundary_at_or_below message MAX_ERROR_LEN) message
         +:+ "...".

Definition redact (redactions : list string) (message : string) : string :=
  foldl (λ m secret, replace secret "[REDACTED]" m) message redactions.

(** [finish]: stamps the end event, the cohort and the window relation, writes the
    record and appends it. When the record cannot be serialized, written or flushed,
    its event sequence is spent all the same and the record is not kept. *)
Definition finish (st : RecorderState) (record : OperationRecord)
    (outcome : OperationOutcome.t) (http_status : option N) (error : option string)
    (now : N) (write : OperationRecord → option string)
    : Result (Result OperationRecord * RecorderState) :=
  next_event_sequence ← add_u64 (rs_next_event_sequence st) 1;
  let record :=
    record <| op_ended_at_ms := now |> <| op_outcome := outcome |>
      <| op_http_status := http_status |>
      <| op_error := (λ m, truncate_error (redact (rs_redactions st) m)) <$> error |>
      <| op_ended_sequence := Some (rs_next_event_sequence st) |>
      <| op_durability_cohort := Some (rs_durability_cohort st) |>
      <| op_fault_window_relation :=
           relation_for (rs_fault_window st) (op_started_at_ms record) now |> in
  let st := st <| rs_next_event_sequence := next_event_sequence |> in
  ok match write record with
     | Some e => (err e, st)
     | None => (ok record, st <| rs_records ::= λ l, l ++ [record] |>)
     end.

Definition redact_secrets (st : RecorderState) (secrets : list string)
    : Result RecorderState :=
  _ ← ensure (forallb (λ s, bool_decide (s ≠ "")) secrets) "secret value must not be empty";
  ok (st <| rs_redactions ::= λ l, l ++ secrets |>).

Definition set_durability_cohort (st : RecorderState) (c : DurabilityCohort.t)
    : RecorderState := st <| rs_durability_cohort := c |>.

Definition mark_fault_active_at (st : RecorderState) (at_ms : N) : RecorderState :=
  st <| rs_fault_window := mkFaultWindow (Some at_ms) None |>
     <| rs_durability_cohort := DurabilityCohort.FaultActive |>.

Definition mark_fault_ended_now (st : RecorderState) (now : N) : RecorderState :=
  st <| rs_fault_window ::= λ w, mkFaultWindow (fw_active_at_ms w) (Some now) |>
     <| rs_durability_cohort := DurabilityCohort.PostRecovery |>.
