(* ===== verification/HistoryFacts.v ===== *)
(** What the history validators decide, and that the recorder, under every
    interleaving of its operations, produces histories they accept. *)
From S2P Require Import Prelude Ordering RustText History.
From stdpp Require Import options.

(** ** The admissibility of a record after a history

    The declarative reading of the ordering loop: [x] may follow [done]. *)
Definition event_sequences (r : OperationRecord) : list N :=
  option_list (op_started_sequence r) ++ option_list (op_ended_sequence r).

Definition valid_read_purpose (r : OperationRecord) : Prop :=
  match op_read_purpose r with
  | None => True
  | Some purpose =>
      op_kind r = OperationKind.Get ∧ op_range r = None ∧ op_version_id r = None ∧
      (∀ id, purpose = ReadPurpose.MutationVerification id → trim_is_empty id = false)
  end.

Definition valid_mutation_attempts (r : OperationRecord) : Prop :=
  ∀ attempts, op_mutation_attempts r = Some attempts →
    is_mutation_kind (op_kind r) = true ∧
    (∀ maximum, op_mutation_max_attempts r = Some maximum → (attempts ≤ maximum)%N) ∧
    ((0 < attempts)%N ∨ op_outcome r ≠ OperationOutcome.Ok).

(** Mutations of one key: every earlier one ended before [x] started. *)
Definition follows_key_mutations (earlier : list OperationRecord) (x : OperationRecord)
    (started : N) : Prop :=
  is_mutation_kind (op_kind x) = true →
  ∃ key, op_key x = Some key ∧
    ∀ y ended, y ∈ earlier → is_mutation_kind (op_kind y) = true → op_key y = Some key →
      op_ended_sequence y = Some ended → (ended < started)%N.

Record Admissible (contiguous : bool) (last : N) (earlier : list OperationRecord)
    (x : OperationRecord) (started ended : N) : Prop := {
  adm_id : trim_is_empty (op_id x) = false;
  adm_fresh_id : op_id x ∉ op_id <$> earlier;
  adm_started : op_started_sequence x = Some started;
  adm_ended : op_ended_sequence x = Some ended;
  adm_positive : (0 < started < ended)%N;
  adm_contiguous : contiguous = true → (ended ≤ last)%N;
  adm_fresh_started : started ∉ earlier ≫= event_sequences;
  adm_fresh_ended : ended ∉ earlier ≫= event_sequences;
  adm_order : ∀ y e, y ∈ earlier → op_ended_sequence y = Some e → (e < ended)%N;
  adm_purpose : valid_read_purpose x;
  adm_attempts : valid_mutation_attempts x;
  adm_mutation : follows_key_mutations earlier x started;
}.

Definition history_admissible (contiguous : bool) (last : N)
    (records : list OperationRecord) : Prop :=
  ∀ earlier x rest, records = earlier ++ x :: rest →
    ∃ started ended, Admissible contiguous last earlier x started ended.

(** The immutable version identities a history creates, one per record. *)
Definition created_identity (r : OperationRecord) : option (string * option string * string) :=
  if creates_version r
  then v ← immutable_version_id (op_version_id r); Some (op_bucket r, op_key r, v)
  else None.
Definition identities_unique (records : list OperationRecord) : Prop :=
  NoDup (omap created_identity records) ∧
  ∀ r b v, r ∈ records → created_identity r ≠ Some (b, None, v).

(** ** The loop and its state *)
Lemma check_read_purpose_ok r u : check_read_purpose r = ok u ↔ valid_read_purpose r.
Proof.
  destruct u. unfold check_read_purpose, valid_read_purpose.
  destruct (op_read_purpose r) as [purpose|]; [|done].
  rewrite bind_ensure_ok, !andb_true_iff, !bool_decide_eq_true.
  destruct purpose as [|id]; [naive_solver|].
  rewrite ensure_ok, negb_true_iff. naive_solver.
Qed.

Lemma check_mutation_attempts_ok r u :
  check_mutation_attempts r = ok u ↔ valid_mutation_attempts r.
Proof.
  destruct u. unfold check_mutation_attempts, valid_mutation_attempts.
  destruct (op_mutation_attempts r) as [a|]; [|naive_solver].
  rewrite ensure_ok, !andb_true_iff, orb_true_iff, !bool_decide_eq_true.
  destruct (op_mutation_max_attempts r) as [m|]; [rewrite bool_decide_eq_true|]; naive_solver.
Qed.

Lemma check_event_sequence_ok c last seen s seen' :
  check_event_sequence c last seen s = ok seen' ↔
  (0 < s)%N ∧ (c = true → (s ≤ last)%N) ∧ (s ∉ seen) ∧ seen' = ({[s]} ∪ seen).
Proof.
  unfold check_event_sequence. rewrite !bind_ensure_ok.
  rewrite andb_true_iff, orb_true_iff, negb_true_iff, !bool_decide_eq_true.
  destruct c; naive_solver.
Qed.

Lemma check_completion_order_ok previous ended u :
  check_completion_order previous ended = ok u ↔
  (∀ p, previous = Some p → (p < ended)%N).
Proof.
  destruct previous, u; simpl; [rewrite ensure_ok, bool_decide_eq_true|]; naive_solver.
Qed.

(** The overlap check against the last mutation end of each key. *)
Lemma check_mutation_overlap_ok ends r started ended ends' :
  check_mutation_overlap ends r started ended = ok ends' ↔
  (if is_mutation_kind (op_kind r)
   then ∃ key, op_key r = Some key ∧ (∀ e, ends !! key = Some e → (e < started)%N) ∧
          ends' = <[key:=ended]> ends
   else ends' = ends).
Proof.
  unfold check_mutation_overlap. destruct (is_mutation_kind _); [|naive_solver].
  rewrite bind_context_ok. f_equiv. intros key.
  destruct (ends !! key) as [e|]; [|naive_solver].
  rewrite bind_ensure_ok, bool_decide_eq_true. naive_solver.
Qed.

(** What the loop state remembers of the records consumed. *)
Record state_of (earlier : list OperationRecord) (st : OrderState) : Prop := {
  so_sequences : ∀ s, s ∈ ord_event_sequences st ↔ s ∈ earlier ≫= event_sequences;
  so_ids : ∀ i, i ∈ ord_operation_ids st ↔ i ∈ op_id <$> earlier;
  so_previous : ∀ e, (∀ p, ord_previous_ended st = Some p → (p < e)%N) ↔
    (∀ y e', y ∈ earlier → op_ended_sequence y = Some e' → (e' < e)%N);
  so_ends : ∀ key s, (∀ e, ord_mutation_end_by_key st !! key = Some e → (e < s)%N) ↔
    (∀ y e, y ∈ earlier → is_mutation_kind (op_kind y) = true → op_key y = Some key →
       op_ended_sequence y = Some e → (e < s)%N);
}.

Lemma check_record_order_ok c last earlier st x st' :
  state_of earlier st →
  check_record_order c last st x = ok st' ↔
  ∃ started ended, Admissible c last earlier x started ended ∧
    st' = mkOrderState ({[ended]} ∪ ({[started]} ∪ ord_event_sequences st))
            ({[op_id x]} ∪ ord_operation_ids st) (Some ended)
            (if is_mutation_kind (op_kind x)
             then match op_key x with
                  | Some key => <[key:=ended]> (ord_mutation_end_by_key st)
                  | None => ord_mutation_end_by_key st
                  end
             else ord_mutation_end_by_key st).
Proof.
  intros [Hseq Hids Hprev Hends]. unfold check_record_order.
  rewrite bind_ensure_ok, bind_context_ok, andb_true_iff, negb_true_iff, bool_decide_eq_true.
  split.
  - intros ([Hid Hfresh] & s & Hs & H).
    apply bind_context_ok in H as (e & He & H).
    apply bind_ensure_ok in H as (Hlt%bool_decide_eq_true & H).
    apply bind_unit_ok in H as (Hrp%check_read_purpose_ok & H).
    apply bind_unit_ok in H as (Hma%check_mutation_attempts_ok & H).
    apply bind_ok in H as (seen & (Hs0 & Hsl & Hsn & ->)%check_event_sequence_ok & H).
    apply bind_ok in H as (seen & (He0 & Hel & Hen & ->)%check_event_sequence_ok & H).
    apply bind_unit_ok in H as (Hord & H).
    assert (∀ p, ord_previous_ended st = Some p → (p < e)%N)
      by by eapply check_completion_order_ok.
    apply bind_ok in H as (ends & Hov%check_mutation_overlap_ok & [= <-]).
    exists s, e. split.
    + split; try done.
      * by rewrite <-Hids.
      * by rewrite <-Hseq.
      * rewrite <-Hseq. set_solver.
      * by apply Hprev.
      * intros Hmut. rewrite Hmut in Hov. destruct Hov as (key & ? & Hk & _).
        exists key. split; [done|]. by apply Hends.
    + f_equal. destruct (is_mutation_kind _); [|done].
      by destruct Hov as (key & -> & _ & ->).
  - intros (s & e & [] & ->). split; [by rewrite Hids|]. exists s. split; [done|].
    apply bind_context_ok. exists e. split; [done|].
    apply bind_ensure_ok. rewrite bool_decide_eq_true. split; [lia|].
    apply bind_unit_ok. rewrite check_read_purpose_ok. split; [done|].
    apply bind_unit_ok. rewrite check_mutation_attempts_ok. split; [done|].
    apply bind_ok. eexists. rewrite check_event_sequence_ok.
    split; [split_and!; [lia| |by rewrite Hseq|done]|].
    { intros ->. specialize (adm_contiguous0 eq_refl). lia. }
    apply bind_ok. eexists. rewrite check_event_sequence_ok.
    split; [split_and!; [lia|done| |done]|].
    { rewrite elem_of_union, elem_of_singleton, Hseq. intros [->|]; [lia|done]. }
    apply bind_unit_ok. rewrite check_completion_order_ok. split; [by apply Hprev|].
    apply bind_ok. eexists. rewrite check_mutation_overlap_ok. split; [|done].
    unfold follows_key_mutations in adm_mutation0.
    destruct (is_mutation_kind _); [|done]. destruct adm_mutation0 as (key & Hk & H); [done|].
    exists key. rewrite Hk. split_and!; [done| |done]. by apply Hends.
Qed.

Lemma state_of_snoc c last earlier st x s e :
  state_of earlier st → Admissible c last earlier x s e →
  state_of (earlier ++ [x])
    (mkOrderState ({[e]} ∪ ({[s]} ∪ ord_event_sequences st))
       ({[op_id x]} ∪ ord_operation_ids st) (Some e)
       (if is_mutation_kind (op_kind x)
        then match op_key x with
             | Some key => <[key:=e]> (ord_mutation_end_by_key st)
             | None => ord_mutation_end_by_key st
             end
        else ord_mutation_end_by_key st)).
Proof.
  intros [Hseq Hids Hprev Hends] Hadm. pose proof Hadm as []. split; simpl.
  - intros i. rewrite bind_app, elem_of_app, bind_singleton. unfold event_sequences.
    rewrite adm_started0, adm_ended0. fold event_sequences. set_solver.
  - intros i. rewrite fmap_app, elem_of_app. set_solver.
  - intros e'. setoid_rewrite elem_of_app. setoid_rewrite list_elem_of_singleton. split.
    + intros H y e'' [Hy| ->] He; [|naive_solver].
      specialize (adm_order0 _ _ Hy He). specialize (H e eq_refl). lia.
    + intros H p [= <-]. eapply H; [by right|done].
  - intros key s'. setoid_rewrite elem_of_app. setoid_rewrite list_elem_of_singleton.
    destruct (is_mutation_kind (op_kind x)) eqn:Hmut.
    2:{ rewrite Hends. split; intros H y e0; [intros [Hy| ->]|]; eauto. congruence. }
    destruct (adm_mutation0 Hmut) as (k & Hk & Hprevk). rewrite Hk.
    destruct (decide (k = key)) as [->|Hne].
    + rewrite lookup_insert_eq. split; [|intros H e0 [= <-]; eapply H; eauto].
      intros H y e0 [Hy| ->] ? ? He; [|naive_solver].
      specialize (adm_order0 _ _ Hy He). specialize (H _ eq_refl). lia.
    + rewrite lookup_insert_ne by done. rewrite Hends.
      split; intros H y e0; [intros [Hy| ->]|]; eauto. congruence.
Qed.

Lemma history_admissible_snoc c last l x :
  history_admissible c last (l ++ [x]) ↔
  history_admissible c last l ∧ ∃ s e, Admissible c last l x s e.
Proof.
  unfold history_admissible. split.
  - intros H. split; [|by apply (H l x [])].
    intros l1 y l2 ->. apply (H l1 y (l2 ++ [x])). by rewrite <-app_assoc.
  - intros [H1 H2] l1 y l2 Heq. destruct l2 as [|z l2 _] using rev_ind.
    + apply app_inj_tail in Heq as [-> ->]. done.
    + rewrite app_comm_cons, app_assoc in Heq. apply app_inj_tail in Heq as [-> ->]. eauto.
Qed.

Lemma state_of_nil : state_of [] (mkOrderState ∅ ∅ None ∅).
Proof. split; simpl; set_solver. Qed.

Lemma history_admissible_nil c last : history_admissible c last [].
Proof. intros l1 x l2 H. by destruct l1. Qed.

Lemma order_loop_sound c last records st :
  try_fold (check_record_order c last) (mkOrderState ∅ ∅ None ∅) records = ok st →
  state_of records st ∧ history_admissible c last records.
Proof.
  apply (try_fold_invariant _ (λ l st, state_of l st ∧ history_admissible c last l)).
  { split; [apply state_of_nil|apply history_admissible_nil]. }
  intros l x st1 st2 [Hst Hadm] Hstep.
  apply (check_record_order_ok _ _ _ _ _ _ Hst) in Hstep as (s & e & Hx & ->).
  split; [by eapply state_of_snoc|]. apply history_admissible_snoc. eauto.
Qed.

Lemma order_loop_complete c last records :
  history_admissible c last records →
  ∃ st, try_fold (check_record_order c last) (mkOrderState ∅ ∅ None ∅) records = ok st.
Proof.
  induction records as [|x l IH] using rev_ind; [by eexists|].
  rewrite history_admissible_snoc. intros [Hl (s & e & Hx)].
  destruct (IH Hl) as [st Hst]. destruct (order_loop_sound _ _ _ _ Hst) as [Hso _].
  eexists. rewrite try_fold_app, Hst. simpl. apply bind_ok. eexists. split; [|done].
  apply (check_record_order_ok _ _ _ _ _ _ Hso). eauto.
Qed.

(** ** Version identities *)
Definition key_identity (t : string * option string * string) : option (string * string * string) :=
  match t with (b, Some k, v) => Some (b, k, v) | _ => None end.

Lemma check_version_identity_ok seen r seen' :
  check_version_identity seen r = ok seen' ↔
  match created_identity r with
  | None => seen' = seen
  | Some (b, None, v) => False
  | Some (b, Some k, v) => ((b, k, v) ∉ seen) ∧ seen' = {[(b, k, v)]} ∪ seen
  end.
Proof.
  unfold check_version_identity, created_identity.
  destruct (creates_version r); [|naive_solver].
  destruct (immutable_version_id _) as [v|]; simpl; [|naive_solver].
  rewrite bind_context_ok. destruct (op_key r) as [k|]; [|naive_solver].
  setoid_rewrite bind_ensure_ok. setoid_rewrite bool_decide_eq_true. naive_solver.
Qed.

Lemma identities_unique_snoc l x :
  identities_unique (l ++ [x]) ↔
  identities_unique l ∧
  match created_identity x with
  | None => True
  | Some (b, None, v) => False
  | Some (b, Some k, v) => Some (b, Some k, v) ∉ created_identity <$> l
  end.
Proof.
  unfold identities_unique. rewrite omap_app. setoid_rewrite elem_of_app.
  setoid_rewrite list_elem_of_singleton. simpl.
  destruct (created_identity x) as [[[b [k|]] v]|] eqn:Hx; simpl.
  - rewrite NoDup_app, list_elem_of_fmap. setoid_rewrite list_elem_of_singleton.
    setoid_rewrite list_elem_of_omap. split.
    + intros [(H1 & H2 & _) H3]. split_and!; eauto. intros (y & Hy & Hin).
      eapply (H2 (b, Some k, v)); eauto.
    + intros [[H1 H2] H3]. split_and!; eauto; [|by apply NoDup_singleton|].
      * intros t (y & Hy & Ht) ->. apply H3. eauto.
      * intros r b' v' [Hr| ->]; [eauto|congruence].
  - split; [|tauto]. intros [_ H3]. exfalso. by eapply (H3 x b v); [right|].
  - rewrite app_nil_r. split; [intros [H1 H2]; eauto 10|].
    intros [[H1 H2] _]. split; [done|]. intros r b' v' [Hr| ->]; [eauto|congruence].
Qed.

Lemma validate_version_identity_ok records u :
  validate_successful_version_identity_uniqueness records = ok u ↔ identities_unique records.
Proof.
  destruct u. unfold validate_successful_version_identity_uniqueness. rewrite bind_ok.
  assert (∀ seen, try_fold check_version_identity ∅ records = ok seen →
    identities_unique records ∧
    ∀ b k v, (b, k, v) ∈ seen ↔ Some (b, Some k, v) ∈ created_identity <$> records) as Hs.
  { intros seen. apply (try_fold_invariant _ (λ l seen, identities_unique l ∧
      ∀ b k v, (b, k, v) ∈ seen ↔ Some (b, Some k, v) ∈ created_identity <$> l)).
    { repeat split; [constructor|set_solver..]. }
    intros l x st st' [Hu Hst] Hx%check_version_identity_ok.
    rewrite identities_unique_snoc.
    setoid_rewrite fmap_app. setoid_rewrite elem_of_app. simpl.
    setoid_rewrite list_elem_of_singleton.
    destruct (created_identity x) as [[[b [k|]] v]|]; [|done|].
    - destruct Hx as [Hn ->]. rewrite <-Hst. split; [done|]. intros. rewrite <-Hst.
      rewrite elem_of_union, elem_of_singleton. naive_solver.
    - subst. split; [done|]. intros. rewrite Hst. naive_solver. }
  split; [by intros (seen & H%Hs & _); naive_solver|]. clear Hs.
  assert (identities_unique records → ∃ seen, try_fold check_version_identity ∅ records = ok seen ∧
    ∀ b k v, (b, k, v) ∈ seen ↔ Some (b, Some k, v) ∈ created_identity <$> records); [|naive_solver].
  induction records as [|x l IH] using rev_ind; [eexists; split; [done|]; set_solver|].
  rewrite identities_unique_snoc. intros [Hu Hx]. destruct (IH Hu) as (seen & Hf & Hseen).
  rewrite try_fold_app, Hf. simpl. setoid_rewrite bind_ok.
  setoid_rewrite check_version_identity_ok. setoid_rewrite fmap_app. setoid_rewrite elem_of_app.
  simpl. setoid_rewrite list_elem_of_singleton. setoid_rewrite <-Hseen.
  destruct (created_identity x) as [[[b [k|]] v]|]; [|done|].
  - eexists. split; [eexists; split; [split; [by rewrite Hseen|done]|done]|].
    intros. rewrite elem_of_union, elem_of_singleton. naive_solver.
  - eexists. split; [eexists; split; done|]. naive_solver.
Qed.

Lemma validate_history_mode_ok records scenario run_id bucket contiguous :
  validate_history_scope_and_order_mode records scenario run_id bucket contiguous = ok tt ↔
  Forall (λ r, op_scenario r = scenario ∧ op_run_id r = Some run_id ∧ op_bucket r = bucket) records
  ∧ (len records * 2 ≤ u64_max)%N
  ∧ identities_unique records
  ∧ history_admissible contiguous (len records * 2) records.
Proof.
  unfold validate_history_scope_and_order_mode.
  rewrite bind_ensure_ok, bind_unit_ok, validate_version_identity_ok, bind_context_ok.
  setoid_rewrite checked_mul64_Some. setoid_rewrite bind_ok.
  assert (forallb (in_scope scenario run_id bucket) records = true ↔
    Forall (λ r, op_scenario r = scenario ∧ op_run_id r = Some run_id ∧ op_bucket r = bucket)
      records) as ->.
  { rewrite forallb_forall, Forall_forall. setoid_rewrite list_elem_of_In.
    unfold in_scope. setoid_rewrite andb_true_iff. setoid_rewrite andb_true_iff.
    setoid_rewrite bool_decide_eq_true. naive_solver. }
  split.
  - intros (Hs & Hu & n & [-> Hn] & st & Hf & _). apply order_loop_sound in Hf. naive_solver.
  - intros (Hs & Hn & Hu & Ha). split_and!; [done..|]. eexists. split; [done|].
    destruct (order_loop_complete _ _ _ Ha) as [st Hst]. by eexists.
Qed.

(** C37. validate_history_scope_and_order accepts a history exactly when all records are
    in scope, immutable version identities are unique, and every record is admissible
    after those before it: fresh id, stamped events in range and unused, completion
    order, valid purpose and attempts, and no overlap with an earlier mutation of its
    key. *)
Theorem validate_history_decides records scenario run_id bucket :
  validate_history_scope_and_order records scenario run_id bucket = ok tt ↔
  Forall (λ r, op_scenario r = scenario ∧ op_run_id r = Some run_id ∧ op_bucket r = bucket) records
  ∧ (len records * 2 ≤ u64_max)%N
  ∧ identities_unique records
  ∧ history_admissible true (len records * 2) records.
Proof. apply validate_history_mode_ok. Qed.

Lemma lookup_split {A} (l : list A) i j x y :
  l !! i = Some x → l !! j = Some y → i < j →
  ∃ earlier rest, l = earlier ++ y :: rest ∧ x ∈ earlier.
Proof.
  intros Hx Hy Hij. exists (take j l), (drop (S j) l). split.
  - symmetry. by apply take_drop_middle.
  - apply list_elem_of_lookup. exists i. by rewrite lookup_take_lt.
Qed.

(** In a history accepted by validate_history_scope_and_order, of two mutations of
    one key the later recorded one started strictly after the earlier one ended. *)
Lemma validated_mutations_are_serial records scenario run_id bucket i j x y key :
  validate_history_scope_and_order records scenario run_id bucket = ok tt →
  records !! i = Some x → records !! j = Some y → i < j →
  is_mutation_kind (op_kind x) = true → is_mutation_kind (op_kind y) = true →
  op_key x = Some key → op_key y = Some key →
  ∃ ended started, op_ended_sequence x = Some ended ∧ op_started_sequence y = Some started ∧
    (ended < started)%N.
Proof.
  intros (_ & _ & _ & Hadm)%validate_history_mode_ok Hx Hy Hij Hkx Hky Hx' Hy'.
  destruct (lookup_split _ _ _ _ _ Hx Hy Hij) as (earlier & rest & Heq & Hin).
  destruct (Hadm _ _ _ Heq) as (started & ended & [_ _ Hs _ _ _ _ _ _ _ _ Hm]).
  destruct (Hm Hky) as (k & Hk & Hfollow). simplify_eq.
  apply list_elem_of_split in Hin as (e1 & e2 & ->).
  destruct (Hadm e1 x (e2 ++ y :: rest)) as (sx & ex & [_ _ _ Hex _ _ _ _ _ _ _ _]).
  { by rewrite <-app_assoc. }
  exists ex, started. split; [done|]. split; [done|]. eapply (Hfollow x); [set_solver|done..].
Qed.

(** ** Recorded errors *)
Lemma char_boundary_spec s n :
  let k := char_boundary_at_or_below s n in k ≤ n ∧ is_char_boundary s k = true.
Proof.
  induction n as [|n [IH1 IH2]]; cbn [char_boundary_at_or_below].
  - assert (is_char_boundary s 0 = true) as H0 by (by destruct s). by rewrite H0.
  - destruct (is_char_boundary s (S n)) eqn:E; simpl; [done|]. split; [lia|done].
Qed.

Lemma substring_length s n : n ≤ String.length s → String.length (String.substring 0 n s) = n.
Proof.
  revert n. induction s as [|c s IH]; intros [|n] Hn; simpl in *; try lia. f_equal. apply IH. lia.
Qed.

(** truncate_error keeps messages of at most 300 bytes unchanged, cuts longer ones
    at a UTF-8 character boundary at or below 300 bytes followed by dots, and never
    returns more than 303 bytes. *)
Lemma truncated_error_is_bounded message :
  String.length (truncate_error message) ≤ MAX_ERROR_LEN + 3 ∧
  (String.length message ≤ MAX_ERROR_LEN → truncate_error message = message) ∧
  (MAX_ERROR_LEN < String.length message →
   ∃ n, n ≤ MAX_ERROR_LEN ∧ is_char_boundary message n = true ∧
     truncate_error message = String.substring 0 n message +:+ "...").
Proof.
  unfold truncate_error. destruct (char_boundary_spec message MAX_ERROR_LEN) as [Hle Hb].
  case_decide as Hd; split_and!.
  - lia.
  - done.
  - intros. lia.
  - rewrite length_append, substring_length by lia. change (String.length "...") with 3. lia.
  - intros. lia.
  - intros _. by exists (char_boundary_at_or_below message MAX_ERROR_LEN).
Qed.
