(* ===== verification/RecorderFacts.v ===== *)
(** The recorder as a shared object: clients on many tasks call [begin],
    edit the record they hold, and call [finish]; the mutex makes each call
    atomic, so an execution is a sequence of the steps below. *)
From S2P Require Import Prelude Ordering RustText History HistoryFacts.
From stdpp Require Import options.

(** Between [begin] and [finish] a client fills in response fields; it never
    touches the identity and start stamps. *)
Definition client_edit (r r' : OperationRecord) : Prop :=
  op_id r' = op_id r ∧ op_scenario r' = op_scenario r ∧ op_run_id r' = op_run_id r ∧
  op_kind r' = op_kind r ∧ op_bucket r' = op_bucket r ∧ op_key r' = op_key r ∧
  op_started_sequence r' = op_started_sequence r ∧ op_started_at_ms r' = op_started_at_ms r.

Section recorder.
(** What writing a record to the history ends with. *)
Context (write : OperationRecord → option string).

(** A recorder and the records clients hold. *)
Inductive recorder_step :
  RecorderState * list OperationRecord → RecorderState * list OperationRecord → Prop :=
| step_begin st inflight kind bucket key sha size now r st' :
    begin st kind bucket key sha size now = ok (r, st') →
    recorder_step (st, inflight) (st', r :: inflight)
| step_finish st l1 r l2 r' outcome status error now written st' :
    client_edit r r' → finish st r' outcome status error now write = ok (written, st') →
    recorder_step (st, l1 ++ r :: l2) (st', l1 ++ l2)
| step_cohort st inflight c : recorder_step (st, inflight) (set_durability_cohort st c, inflight)
| step_active st inflight now : recorder_step (st, inflight) (mark_fault_active_at st now, inflight)
| step_ended st inflight now : recorder_step (st, inflight) (mark_fault_ended_now st now, inflight)
| step_redact st inflight secrets st' :
    redact_secrets st secrets = ok st' → recorder_step (st, inflight) (st', inflight).

(** The next event sequence, after [lost] operations whose record could not be
    written. *)
Definition stamped (lost : N) (c : RecorderState * list OperationRecord) : N :=
  (1 + 2 * (len (rs_records c.1) + lost) + len c.2)%N.

Definition op_name (k : N) : string := "op-" +:+ dec_pad 6 k.

Record recorder_invariant (scenario run_id : string) (lost : N)
    (c : RecorderState * list OperationRecord) : Prop := {
  ri_scenario : rs_scenario c.1 = scenario;
  ri_run_id : rs_run_id c.1 = run_id;
  ri_next_id : rs_next_id c.1 = (1 + len (rs_records c.1) + lost + len c.2)%N;
  ri_next_sequence : rs_next_event_sequence c.1 = stamped lost c;
  ri_width : (stamped lost c ≤ u64_max)%N;
  ri_scope : ∀ r, r ∈ rs_records c.1 ++ c.2 →
    op_scenario r = scenario ∧ op_run_id r = Some run_id;
  ri_ids : ∀ r, r ∈ rs_records c.1 ++ c.2 → ∃ k, op_id r = op_name k ∧ (k < rs_next_id c.1)%N;
  ri_ids_NoDup : NoDup (op_id <$> rs_records c.1 ++ c.2);
  ri_started : ∀ r, r ∈ rs_records c.1 ++ c.2 →
    ∃ s, op_started_sequence r = Some s ∧ (0 < s < rs_next_event_sequence c.1)%N;
  ri_started_NoDup : NoDup (op_started_sequence <$> rs_records c.1 ++ c.2);
  ri_ended : ∀ r, r ∈ rs_records c.1 →
    ∃ s e, op_started_sequence r = Some s ∧ op_ended_sequence r = Some e ∧ (s < e)%N ∧
      (e < rs_next_event_sequence c.1)%N;
  ri_ended_sorted : StronglySorted N.lt (omap op_ended_sequence (rs_records c.1));
  ri_disjoint : ∀ r r' s, r ∈ rs_records c.1 ++ c.2 → r' ∈ rs_records c.1 →
    op_started_sequence r = Some s → op_ended_sequence r' ≠ Some s;
}.

(** Steps that touch neither counters nor records keep the invariant. *)
Lemma recorder_invariant_proper scenario run_id lost st st' fl :
  rs_scenario st' = rs_scenario st → rs_run_id st' = rs_run_id st →
  rs_next_id st' = rs_next_id st →
  rs_next_event_sequence st' = rs_next_event_sequence st → rs_records st' = rs_records st →
  recorder_invariant scenario run_id lost (st, fl) → recorder_invariant scenario run_id lost (st', fl).
Proof using Type.
  clear write.
  intros H1 H2 H3 H4 H5 []. unfold stamped in *; simpl in *.
  split; unfold stamped; simpl; rewrite ?H1, ?H2, ?H3, ?H4, ?H5; done.
Qed.

Lemma op_name_inj a b : op_name a = op_name b → a = b.
Proof using Type. intros H. apply (inj (String.append "op-")) in H. by eapply dec_pad_inj. Qed.

Lemma recorder_invariant_begin scenario run_id lost st fl kind bucket key sha size now r st' :
  begin st kind bucket key sha size now = ok (r, st') →
  recorder_invariant scenario run_id lost (st, fl) →
  recorder_invariant scenario run_id lost (st', r :: fl).
Proof using Type.
  clear write.
  unfold begin. intros (i & [-> _]%add_u64_ok & (e & [-> Hb]%add_u64_ok & Heq)%bind_ok)%bind_ok.
  revert Heq. intros [= <- <-] [Hsc Hru Hid Hseq Hw Hscope Hids HidN Hst HstN Hen Hens Hdis].
  unfold stamped in *; simpl in *.
  set (r0 := mkOperationRecord _ _ _ _ _ _ _ _ _ _ _ _ _ _ _ _ _ _ _ _ _ _ _ _ _ _ _ _ _).
  assert (∀ r, r ∈ rs_records st ++ r0 :: fl ↔ r = r0 ∨ r ∈ rs_records st ++ fl) as Hin.
  { intros r. rewrite !elem_of_app, elem_of_cons. tauto. }
  split; unfold stamped; simpl; rewrite ?len_cons; try done; try lia.
  - intros r [->|Hr]%Hin; [by subst r0; simpl; subst|]. by apply Hscope.
  - intros r [->|Hr]%Hin; [exists (rs_next_id st); split; [done|lia]|].
    destruct (Hids _ Hr) as (k & ? & ?). exists k. split; [done|lia].
  - rewrite fmap_app, fmap_cons, <-Permutation_middle, <-fmap_app.
    constructor; [|done]. intros (r & Heq & Hr)%list_elem_of_fmap.
    destruct (Hids _ Hr) as (k & Hk & Hlt). rewrite Hk in Heq.
    apply op_name_inj in Heq. lia.
  - intros r [->|Hr]%Hin; [eexists; split; [done|lia]|].
    destruct (Hst _ Hr) as (k & ? & ?). exists k. split; [done|lia].
  - rewrite fmap_app, fmap_cons, <-Permutation_middle, <-fmap_app.
    constructor; [|done]. intros (r & Heq & Hr)%list_elem_of_fmap.
    destruct (Hst _ Hr) as (k & Hk & Hlt). rewrite Hk in Heq. simpl in Heq.
    injection Heq. lia.
  - intros r Hr. destruct (Hen _ Hr) as (s & e & ? & ? & ? & ?). exists s, e. split_and!; try done; lia.
  - intros r r' s [->|Hr]%Hin Hr' Hs; [|by eapply Hdis].
    injection Hs as <-. destruct (Hen _ Hr') as (s & e & _ & -> & _ & ?).
    intros [= ->]. lia.
Qed.

(** An operation whose record is lost leaves a gap and nothing else. *)
Lemma recorder_invariant_lost scenario run_id lost st l1 r l2 st' :
  (rs_next_event_sequence st + 1 ≤ u64_max)%N →
  st' = st <| rs_next_event_sequence := (rs_next_event_sequence st + 1)%N |> →
  recorder_invariant scenario run_id lost (st, l1 ++ r :: l2) →
  recorder_invariant scenario run_id (lost + 1) (st', l1 ++ l2).
Proof using Type.
  clear write.
  intros Hb -> [Hsc Hru Hid Hseq Hw Hscope Hids HidN Hst HstN Hen Hens Hdis].
  unfold stamped in *; simpl in *. rewrite !len_app, len_cons in *.
  assert (∀ x, x ∈ rs_records st ++ l1 ++ l2 → x ∈ rs_records st ++ l1 ++ r :: l2) as Hin.
  { intros x. rewrite !elem_of_app, elem_of_cons. tauto. }
  assert (∀ {A} (f : OperationRecord → A), NoDup (f <$> rs_records st ++ l1 ++ r :: l2) →
    NoDup (f <$> rs_records st ++ l1 ++ l2)) as Hnd.
  { intros A f. rewrite !(assoc_L (++)), (fmap_app f _ (r :: l2)), fmap_cons, <-Permutation_middle, <-fmap_app.
    by intros [_ ?]%NoDup_cons. }
  split; unfold stamped; simpl; rewrite ?len_app; auto; try lia.
  - intros x Hx%Hin. destruct (Hst x Hx) as (s & ? & ?). exists s. split; [done|lia].
  - intros x Hx. destruct (Hen x Hx) as (s & e & ? & ? & ? & ?). exists s, e. split_and!; try done; lia.
  - intros x y s Hx%Hin. by apply Hdis.
Qed.

Lemma recorder_invariant_finish scenario run_id lost st l1 r l2 r' outcome status error now rf st' :
  client_edit r r' → finish st r' outcome status error now write = ok (ok rf, st') →
  recorder_invariant scenario run_id lost (st, l1 ++ r :: l2) →
  recorder_invariant scenario run_id lost (st', l1 ++ l2).
Proof using Type.
  intros (E1 & E2 & E3 & _ & _ & _ & E7 & _)
    Hf [Hsc Hru Hid Hseq Hw Hscope Hids HidN Hst HstN Hen Hens Hdis].
  unfold finish in Hf. apply bind_ok in Hf as (e & [-> Hb]%add_u64_ok & Heq).
  destruct (write _); [done|]. injection Heq as Hrf <-. revert Hrf.
  unfold stamped in *; simpl in *. rewrite len_app, len_cons in *. intros Hrf.
  assert (op_id rf = op_id r ∧ op_scenario rf = op_scenario r ∧ op_run_id rf = op_run_id r ∧
    op_started_sequence rf = op_started_sequence r ∧
    op_ended_sequence rf = Some (rs_next_event_sequence st)) as (F1 & F2 & F3 & F4 & F5).
  { by subst rf. }
  rewrite Hrf. clear Hrf.
  assert (∀ x, x ∈ (rs_records st ++ [rf]) ++ l1 ++ l2 →
    x = rf ∨ x ∈ rs_records st ++ l1 ++ r :: l2) as Hin.
  { intros x. rewrite !elem_of_app, list_elem_of_singleton, elem_of_cons. tauto. }
  assert (r ∈ rs_records st ++ l1 ++ r :: l2) as Hr by set_solver.
  assert (∀ {A} (f : OperationRecord → A), f rf = f r →
    f <$> (rs_records st ++ [rf]) ++ l1 ++ l2 ≡ₚ f <$> rs_records st ++ l1 ++ r :: l2) as Hperm.
  { intros A f Hf. rewrite !fmap_app. simpl. rewrite Hf, <-app_assoc.
    apply Permutation_app_head. simpl. apply Permutation_middle. }
  split; unfold stamped; simpl;
    rewrite ?len_app, ?len_cons; change (len []) with 0%N; try done; try lia.
  - intros x [->|Hx]%Hin; [|by apply Hscope]. rewrite F2, F3. by apply Hscope.
  - intros x [->|Hx]%Hin; [|by apply Hids]. rewrite F1. by apply Hids.
  - by rewrite Hperm.
  - assert (∀ x, x ∈ rs_records st ++ l1 ++ r :: l2 → ∃ s, op_started_sequence x = Some s ∧
      (0 < s < rs_next_event_sequence st + 1)%N) as H.
    { intros x Hx. destruct (Hst _ Hx) as (s & ? & ?). exists s. split; [done|lia]. }
    intros x [->|Hx]%Hin; [|by apply H]. rewrite F4. by apply H.
  - by rewrite Hperm.
  - intros x [Hx| ->%list_elem_of_singleton]%elem_of_app.
    + destruct (Hen _ Hx) as (s & e & ? & ? & ? & ?). exists s, e. split_and!; try done; lia.
    + destruct (Hst _ Hr) as (s & Hs & Hlt). exists s, (rs_next_event_sequence st).
      rewrite F4, F5. split_and!; try done; lia.
  - rewrite omap_app. simpl. rewrite F5. apply StronglySorted_app. split_and!; [|done|].
    + intros e e' (x & Hx & He)%list_elem_of_omap ->%list_elem_of_singleton.
      destruct (Hen _ Hx) as (s & e2 & _ & ? & _ & ?). simplify_eq. done.
    + by repeat constructor.
  - intros x y s Hx Hy Hs. apply elem_of_app in Hy as [Hy| ->%list_elem_of_singleton].
    + apply Hin in Hx as [->|Hx]; [|by eapply Hdis]. rewrite F4 in Hs. by eapply Hdis.
    + rewrite F5. intros [= <-]. apply Hin in Hx as [->|Hx].
      * rewrite F4 in Hs. destruct (Hst _ Hr) as (? & ? & ?). simplify_eq. lia.
      * destruct (Hst _ Hx) as (? & ? & ?). simplify_eq. lia.
Qed.

Lemma recorder_invariant_init scenario run_id :
  recorder_invariant scenario run_id 0 (create scenario run_id, []).
Proof using Type.
  clear write. split; simpl; try done; try set_solver; constructor. Qed.

(** The recorder is in order, and nothing was lost if every record could be written. *)
Definition recorder_in_order (scenario run_id : string) (c : RecorderState * list OperationRecord) : Prop :=
  ∃ lost, recorder_invariant scenario run_id lost c ∧ ((∀ r, write r = None) → lost = 0%N).

Lemma recorder_invariant_step scenario run_id c c' :
  recorder_step c c' → recorder_in_order scenario run_id c → recorder_in_order scenario run_id c'.
Proof using Type.
  intros Hstep (lost & Hinv & Hlost).
  destruct Hstep as [|st l1 r l2 r' o s e now written st' He Hf|st fl c|st fl n|st fl n|st fl secrets st' Hr].
  - exists lost. split; [by eapply recorder_invariant_begin|done].
  - destruct written as [rf|msg|].
    + exists lost. split; [by eapply recorder_invariant_finish|done].
    + unfold finish in Hf. apply bind_ok in Hf as (n & [-> Hb]%add_u64_ok & Heq).
      destruct (write _) as [m|] eqn:Hw; [|done]. injection Heq as _ <-. exists (lost + 1)%N.
      split; [by eapply recorder_invariant_lost|]. intros Hnone. by rewrite Hnone in Hw.
    + unfold finish in Hf. apply bind_ok in Hf as (n & _ & Heq). by destruct (write _).
  - exists lost. split; [by apply (recorder_invariant_proper _ _ _ st)|done].
  - exists lost. split; [by apply (recorder_invariant_proper _ _ _ st)|done].
  - exists lost. split; [by apply (recorder_invariant_proper _ _ _ st)|done].
  - unfold redact_secrets in Hr. apply bind_ensure_ok in Hr as [_ [= <-]].
    exists lost. split; [by apply (recorder_invariant_proper _ _ _ st)|done].
Qed.

Lemma recorder_invariant_reachable scenario run_id c :
  rtc recorder_step (create scenario run_id, []) c → recorder_in_order scenario run_id c.
Proof using Type.
  intros Hr. revert c Hr.
  apply (rtc_ind_r (recorder_in_order scenario run_id)).
  - exists 0%N. split; [apply recorder_invariant_init|done].
  - intros c c' _ Hstep IH. by eapply recorder_invariant_step.
Qed.

(** What a client must respect for its recorded operations to form a valid
    history: bucket, version identities, read purposes, attempt counts, and
    mutations of one key issued one after another. *)
Record disciplined (bucket : string) (records : list OperationRecord) : Prop := {
  dis_bucket : Forall (λ r, op_bucket r = bucket) records;
  dis_identities : identities_unique records;
  dis_purpose : Forall valid_read_purpose records;
  dis_attempts : Forall valid_mutation_attempts records;
  dis_mutations : ∀ earlier x rest s, records = earlier ++ x :: rest →
    op_started_sequence x = Some s → follows_key_mutations earlier x s;
}.

Lemma trim_is_empty_op_name k : trim_is_empty (op_name k) = false.
Proof using Type. done. Qed.

Lemma recorder_history_admissible scenario run_id lost contiguous st :
  recorder_invariant scenario run_id lost (st, []) → (contiguous = true → lost = 0%N) →
  Forall valid_read_purpose (rs_records st) → Forall valid_mutation_attempts (rs_records st) →
  (∀ earlier x rest s, rs_records st = earlier ++ x :: rest →
    op_started_sequence x = Some s → follows_key_mutations earlier x s) →
  history_admissible contiguous (len (rs_records st) * 2) (rs_records st).
Proof using Type.
  clear write.
  intros [_ _ _ Hseq _ _ Hids HidN Hst HstN Hen Hens Hdis] Hlost Hp Ha Hm l1 x l2 Heq.
  unfold stamped in *; simpl in *. rewrite app_nil_r in *. change (len []) with 0%N in *.
  rewrite Hseq in *. rewrite Heq in Hids, HidN, Hst, HstN, Hen, Hens, Hdis, Hp, Ha.
  assert (x ∈ l1 ++ x :: l2) as Hx by set_solver.
  destruct (Hen _ Hx) as (s & e & Hs & He & Hlt & Hlast).
  destruct (Hst _ Hx) as (s' & Hs' & Hpos). simplify_eq.
  rewrite fmap_app, fmap_cons in HidN. rewrite fmap_app, fmap_cons in HstN.
  apply NoDup_app in HidN as (_ & HidN & _). apply NoDup_app in HstN as (_ & HstN & _).
  rewrite omap_app in Hens. simpl in Hens. rewrite He in Hens.
  apply StronglySorted_app in Hens as (Hens & _ & _).
  assert (∀ y e', y ∈ l1 → op_ended_sequence y = Some e' → (e' < e)%N) as Hord.
  { intros y e' Hy He'. apply Hens; [|by left]. apply list_elem_of_omap. eauto. }
  exists s, e. split; try done; try lia.
  - destruct (Hids _ Hx) as (k & -> & _). apply trim_is_empty_op_name.
  - intros Hin. eapply HidN; [exact Hin|by left].
  - intros Hc. rewrite (Hlost Hc) in *. rewrite Heq in *. lia.
  - intros (y & Hy & Hin)%list_elem_of_bind. unfold event_sequences in Hy.
    apply elem_of_app in Hy as [Hy|Hy]; apply elem_of_option_list in Hy.
    + eapply (HstN (op_started_sequence y)); [by apply list_elem_of_fmap_2|].
      rewrite Hy, Hs. by left.
    + eapply (Hdis x y); eauto. set_solver.
  - intros (y & Hy & Hin)%list_elem_of_bind. unfold event_sequences in Hy.
    apply elem_of_app in Hy as [Hy|Hy]; apply elem_of_option_list in Hy.
    + eapply (Hdis y x); eauto. set_solver.
    + specialize (Hord _ _ Hin Hy). lia.
  - by eapply Forall_forall.
  - by eapply Forall_forall.
  - by eapply Hm.
Qed.

(** Once no operation is in flight, the records of disciplined clients pass the
    validator, under every interleaving: that of partial histories always, that of
    complete ones if every record could be written. *)
Lemma recorder_history_valid scenario run_id bucket st contiguous :
  rtc recorder_step (create scenario run_id, []) (st, []) →
  disciplined bucket (rs_records st) → (contiguous = true → ∀ r, write r = None) →
  validate_history_scope_and_order_mode (rs_records st) scenario run_id bucket contiguous = ok tt.
Proof using Type.
  intros (lost & Hinv & Hlost)%recorder_invariant_reachable [Hbk Hi Hp Ha Hm] Hwrite.
  pose proof (ri_width _ _ _ _ Hinv) as Hw. unfold stamped in Hw. simpl in Hw.
  change (len []) with 0%N in Hw. apply validate_history_mode_ok.
  split_and!; [|lia|done|eapply recorder_history_admissible; eauto].
  apply Forall_forall. intros r Hr'. rewrite Forall_forall in Hbk.
  destruct (ri_scope _ _ _ _ Hinv r); [by rewrite app_nil_r|]. naive_solver.
Qed.
End recorder.
