(* ===== verification/Workload.v ===== *)
(** The deterministic workload generator ([src/fault/workload.rs]): the
    SplitMix64 stream, seeded bodies, the size shuffle, the operation mix, the
    workload plan and its byte bound, and the object keys of a run. *)
From S2P Require Import Prelude Ordering RustText History.
From stdpp Require Import options.

(** ** SplitMix64 *)
Definition splitmix_new (seed : N) : N := seed.

(** [next_u64]: the value and the advanced state. *)
Definition next_u64 (state : N) : N * N :=
  let state := wrapping_add64 state 0x9E3779B97F4A7C15 in
  let value := state in
  let value := wrapping_mul64 (N.lxor value (N.shiftr value 30)) 0xBF58476D1CE4E5B9 in
  let value := wrapping_mul64 (N.lxor value (N.shiftr value 27)) 0x94D049BB133111EB in
  (N.lxor value (N.shiftr value 31), state).

(** [u64::to_le_bytes]. *)
Fixpoint le_bytes (n : nat) (v : N) : list N :=
  match n with
  | O => []
  | S n' => (v `mod` 256)%N :: le_bytes n' (v `div` 256)
  end.
Definition to_le_bytes (v : N) : list N := le_bytes 8 v.

(** The chunk loop: [chunks] chunks of at most eight bytes over [remaining]. *)
Fixpoint fill_chunks (chunks : nat) (remaining : nat) (state : N) : list N :=
  match chunks with
  | O => []
  | S chunks' =>
      let '(v, state) := next_u64 state in
      take (Nat.min 8 remaining) (to_le_bytes v) ++ fill_chunks chunks' (remaining - 8) state
  end.

Definition seeded_bytes (seed index size_bytes : N) : list N :=
  let size := N.to_nat size_bytes in
  fill_chunks (Nat.div (size + 7) 8) size
    (splitmix_new (N.lxor seed (wrapping_mul64 index 0xD6E8FEB86659FD93))).

(** [slice.swap(i, j)]: panics out of range. *)
Definition vec_swap {A} (l : list A) (i j : nat) : Result (list A) :=
  x ← expect (l !! i); y ← expect (l !! j); ok (<[i:=y]> (<[j:=x]> l)).

(** The Fisher-Yates loop over [index], from [count] down to 1. *)
Fixpoint shuffle_loop (count : nat) (sizes : list N) (state : N) : Result (list N) :=
  match count with
  | O => ok sizes
  | S count' =>
      let '(v, state) := next_u64 state in
      let swap_with := N.to_nat (v `mod` (N.of_nat count + 1)) in
      sizes ← vec_swap sizes count swap_with;
      shuffle_loop count' sizes state
  end.
Definition shuffle_sizes (sizes : list N) (seed : N) : Result (list N) :=
  shuffle_loop (length sizes - 1) sizes (splitmix_new (N.lxor seed 0xA0761D6478BD642F)).

(** ** Size classes and operation mix *)
Record WorkloadSizeClass := mkWorkloadSizeClass {
  sc_size_bytes : N;
  sc_object_count : N;
}.
Record WorkloadPayloadClass := mkWorkloadPayloadClass {
  pc_size_bytes : N;
  pc_weight : N;
}.

Definition MAX_CLASSES : N := 8.
Definition MAX_WEIGHT : N := 100.
Definition MAX_SIZE_BYTES : N := 64 * 1024 * 1024.

(** [(lo..=hi).contains(&x)]. *)
Definition in_range (lo hi x : N) : bool := bool_decide (lo ≤ x ∧ x ≤ hi)%N.

Definition validate_payload_class (c : WorkloadPayloadClass) : Result unit :=
  _ ← ensure (in_range 1 MAX_SIZE_BYTES (pc_size_bytes c))
        ("workload.payloadDistribution.sizeBytes must be between 1 and "
         +:+ dec MAX_SIZE_BYTES);
  ensure (in_range 1 MAX_WEIGHT (pc_weight c))
    ("workload.payloadDistribution.weight must be between 1 and " +:+ dec MAX_WEIGHT).

Definition validate_payload_distribution (classes : list WorkloadPayloadClass) : Result unit :=
  _ ← ensure (bool_decide (classes ≠ [])) "workload.payloadDistribution must not be empty";
  _ ← ensure (bool_decide (len classes ≤ MAX_CLASSES)%N)
        ("workload.payloadDistribution must contain at most " +:+ dec MAX_CLASSES +:+ " classes");
  try_fold (λ _ c, validate_payload_class c) tt classes.

(** The classes of [to_size_distribution], left to right; [assigned] objects
    are already placed and the last class takes the rest. *)
Fixpoint distribute (total_weight object_count assigned : N)
    (classes : list WorkloadPayloadClass) : Result (list WorkloadSizeClass) :=
  match classes with
  | [] => ok []
  | [class] =>
      ok [mkWorkloadSizeClass (pc_size_bytes class) (object_count - assigned)]
  | class :: classes' =>
      count ← (if decide (total_weight = 0)%N then panicked
               else ok (saturating_mul64 object_count (pc_weight class) `div` total_weight)%N);
      rest ← distribute total_weight object_count (saturating_add64 assigned count) classes';
      ok (mkWorkloadSizeClass (pc_size_bytes class) count :: rest)
  end.
Definition to_size_distribution (classes : list WorkloadPayloadClass) (object_count : N)
    : Result (list WorkloadSizeClass) :=
  distribute (sum_N (pc_weight <$> classes)) object_count 0 classes.

Definition default_payload_distribution : list WorkloadPayloadClass :=
  [mkWorkloadPayloadClass (4 * 1024) 85; mkWorkloadPayloadClass (16 * 1024) 10;
   mkWorkloadPayloadClass (8 * 1024 * 1024) 4; mkWorkloadPayloadClass (16 * 1024 * 1024) 1].

Record WorkloadHotspot := mkWorkloadHotspot {
  hs_object_percent : N;
  hs_operation_percent : N;
}.
Definition validate_hotspot (h : WorkloadHotspot) : Result unit :=
  _ ← ensure (in_range 1 100 (hs_object_percent h))
        "workload.hotspot.objectPercent must be between 1 and 100";
  ensure (in_range 1 100 (hs_operation_percent h))
    "workload.hotspot.operationPercent must be between 1 and 100".

Module WorkloadOperation.
Inductive t := Put | Overwrite | Get | List | Delete | Multipart.
Global Instance eq_dec : EqDecision t.
Proof. solve_decision. Defined.
End WorkloadOperation.

Record WorkloadOperationMix := mkWorkloadOperationMix {
  mix_put : N; mix_overwrite : N; mix_get : N; mix_list : N; mix_delete : N; mix_multipart : N;
}.
Definition default_operation_mix : WorkloadOperationMix :=
  mkWorkloadOperationMix 1 1 1 1 1 1.

Definition mix_fields (m : WorkloadOperationMix) : list (string * N) :=
  [("put", mix_put m); ("overwrite", mix_overwrite m); ("get", mix_get m);
   ("list", mix_list m); ("delete", mix_delete m); ("multipart", mix_multipart m)].
Definition validate_operation_mix (m : WorkloadOperationMix) : Result unit :=
  try_fold (λ _ '(name, value),
    ensure (in_range 1 MAX_WEIGHT value)
      ("workload.operationWeights." +:+ name +:+ " must be between 1 and " +:+ dec MAX_WEIGHT))
    tt (mix_fields m).

Definition total_weight (m : WorkloadOperationMix) : N :=
  (mix_put m + mix_overwrite m + mix_get m + mix_list m + mix_delete m + mix_multipart m)%N.

Definition operation_at (m : WorkloadOperationMix) (offset : N) : Result WorkloadOperation.t :=
  if decide (total_weight m = 0)%N then panicked else
  let slot := (offset `mod` total_weight m)%N in
  let cursor := mix_put m in
  if decide (slot < cursor)%N then ok WorkloadOperation.Put else
  let cursor := (cursor + mix_overwrite m)%N in
  if decide (slot < cursor)%N then ok WorkloadOperation.Overwrite else
  let cursor := (cursor + mix_get m)%N in
  if decide (slot < cursor)%N then ok WorkloadOperation.Get else
  let cursor := (cursor + mix_list m)%N in
  if decide (slot < cursor)%N then ok WorkloadOperation.List else
  let cursor := (cursor + mix_delete m)%N in
  if decide (slot < cursor)%N then ok WorkloadOperation.Delete else
  ok WorkloadOperation.Multipart.

(** ** The plan *)
Record WorkloadPlan := mkWorkloadPlan {
  wp_seed : N;
  wp_generator : string;
  wp_object_count : N;
  wp_concurrency : N;
  wp_operation_mix : WorkloadOperationMix;
  wp_total_payload_bytes : N;
  wp_size_distribution : list WorkloadSizeClass;
  wp_hotspot : option WorkloadHotspot;
  wp_sizes : list N;
}.
Definition GENERATOR : string := "splitmix64-v1".

(** [sizes.extend(repeat_n(class.size_bytes, class.object_count))] per class. *)
Definition expand_sizes (classes : list WorkloadSizeClass) : list N :=
  classes ≫= λ c, replicate (N.to_nat (sc_object_count c)) (sc_size_bytes c).

Definition seeded_unchecked (seed object_count concurrency : N) (mix : WorkloadOperationMix)
    (payload : option (list WorkloadPayloadClass)) (hotspot : option WorkloadHotspot)
    : Result WorkloadPlan :=
  let payload := default default_payload_distribution payload in
  size_distribution ← to_size_distribution payload object_count;
  sizes ← shuffle_sizes (expand_sizes size_distribution) seed;
  total_payload_bytes ← sum_u64 sizes;
  ok (mkWorkloadPlan seed GENERATOR object_count concurrency mix total_payload_bytes
        size_distribution hotspot sizes).

Definition seeded (seed object_count concurrency : N) : Result WorkloadPlan :=
  seeded_unchecked seed object_count concurrency default_operation_mix None None.

(** An [Option] field validated only when present. *)
Definition validate_option {A} (f : A → Result unit) (o : option A) : Result unit :=
  match o with Some a => f a | None => ok tt end.

Definition seeded_with_profile (seed object_count concurrency : N) (mix : WorkloadOperationMix)
    (payload : option (list WorkloadPayloadClass)) (hotspot : option WorkloadHotspot)
    : Result WorkloadPlan :=
  _ ← validate_operation_mix mix;
  _ ← validate_option validate_payload_distribution payload;
  _ ← validate_option validate_hotspot hotspot;
  seeded_unchecked seed object_count concurrency mix payload hotspot.

Definition seeded_with_mix (seed object_count concurrency : N) (mix : WorkloadOperationMix) :=
  seeded_with_profile seed object_count concurrency mix None None.

(** [self.sizes[index]]. *)
Definition size_at (p : WorkloadPlan) (index : N) : Result N :=
  expect (wp_sizes p !! N.to_nat index).

Definition MULTIPART_PART_SIZE_BYTES : N := 5 * 1024 * 1024.
Definition ABORTED_MULTIPART_FIXTURE_BYTES : N := 4 * 1024.
Definition RUSTFS_METADATA_RESERVE_BYTES_PER_ATTEMPT : N := 1024 * 1024.
Definition RUSTFS_MAX_ERASURE_EXPANSION : N := 2.
Definition S3_WORKLOAD_MUTATION_MAX_ATTEMPTS : N := 3.

Definition multipart_part_count_at (p : WorkloadPlan) (index : N) : Result N :=
  size ← size_at p index; ok (div_ceil (size `max` 1) MULTIPART_PART_SIZE_BYTES).

Definition existing_object_offset (p : WorkloadPlan) (offset existing_count : N) : Result N :=
  if decide (existing_count = 0)%N then panicked else
  match wp_hotspot p with
  | None => ok (offset `mod` existing_count)%N
  | Some hotspot =>
      let scaled :=
        (saturating_add64 (saturating_mul64 existing_count (hs_object_percent hotspot)) 99
           `div` 100)%N in
      let hotspot_count := (existing_count `min` (1 `max` scaled))%N in
      let '(v1, state) := next_u64 (splitmix_new
        (N.lxor (wp_seed p) (wrapping_mul64 offset 0xD1B54A32D192ED03))) in
      let '(v2, _) := next_u64 state in
      if decide (v1 `mod` 100 < hs_operation_percent hotspot ∨ hotspot_count = existing_count)%N
      then ok (v2 `mod` hotspot_count)%N
      else ok (hotspot_count + v2 `mod` (existing_count - hotspot_count))%N
  end.

(** The four totals of the bound's loop. *)
Record WriteTotals := mkWriteTotals {
  wt_payload_bytes : N;
  wt_requests : N;
  wt_recommit_bytes : N;
  wt_recommit_requests : N;
}.

(** What one operation of the mix adds. *)
Definition mixed_operation_cost (p : WorkloadPlan) (prefilled_count offset : N)
    (op : WorkloadOperation.t) : Result WriteTotals :=
  match op with
  | WorkloadOperation.Put =>
      size ← size_at p (prefilled_count + offset); ok (mkWriteTotals size 1 size 1)
  | WorkloadOperation.Overwrite =>
      _ ← ensure (bool_decide (0 < prefilled_count)%N)
            "finite mixed workload cannot overwrite without prefilled objects";
      existing ← existing_object_offset p offset prefilled_count;
      size ← size_at p existing; ok (mkWriteTotals size 1 size 1)
  | WorkloadOperation.Get | WorkloadOperation.List => ok (mkWriteTotals 0 0 0 0)
  | WorkloadOperation.Delete => ok (mkWriteTotals 0 1 0 0)
  | WorkloadOperation.Multipart =>
      size ← size_at p (prefilled_count + offset);
      let upload_parts := div_ceil (size `max` 1) MULTIPART_PART_SIZE_BYTES in
      requests ← context (checked_add64 upload_parts 4)
                   "finite mixed workload multipart request count overflowed";
      bytes ← context (checked_add64 size ABORTED_MULTIPART_FIXTURE_BYTES)
                "finite mixed workload multipart payload overflowed";
      ok (mkWriteTotals bytes requests size 1)
  end.

Definition mixed_write_step (p : WorkloadPlan) (prefilled_count : N)
    (t : WriteTotals) (offset : N) : Result WriteTotals :=
  op ← operation_at (wp_operation_mix p) offset;
  cost ← mixed_operation_cost p prefilled_count offset op;
  payload ← context (checked_add64 (wt_payload_bytes t) (wt_payload_bytes cost))
              "finite mixed workload write-byte bound overflowed";
  requests ← context (checked_add64 (wt_requests t) (wt_requests cost))
               "finite mixed workload request-count bound overflowed";
  recommit_bytes ← context (checked_add64 (wt_recommit_bytes t) (wt_recommit_bytes cost))
                     "finite mixed workload recommit-byte bound overflowed";
  recommits ← context (checked_add64 (wt_recommit_requests t) (wt_recommit_requests cost))
                "finite mixed workload recommit-count bound overflowed";
  ok (mkWriteTotals payload requests recommit_bytes recommits).

Definition mixed_write_upper_bound (p : WorkloadPlan) (prefilled_count mixed_count : N)
    : Result N :=
  _ ← ensure (match checked_add64 prefilled_count mixed_count with
              | Some count => bool_decide (count ≤ wp_object_count p)%N
              | None => false
              end)
        "finite mixed workload range exceeds workload object_count";
  t ← try_fold (mixed_write_step p prefilled_count) (mkWriteTotals 0 0 0 0)
        (range_N mixed_count);
  total ← context (checked_add64 (wt_payload_bytes t) (wt_recommit_bytes t))
            "finite mixed workload total payload bound overflowed";
  retried ← context (checked_mul64 total S3_WORKLOAD_MUTATION_MAX_ATTEMPTS)
              "finite mixed workload retry payload bound overflowed";
  requests ← context (checked_add64 (wt_requests t) (wt_recommit_requests t))
               "finite mixed workload total request bound overflowed";
  metadata ← context (checked_mul64 requests S3_WORKLOAD_MUTATION_MAX_ATTEMPTS ≫= λ count,
                        checked_mul64 count RUSTFS_METADATA_RESERVE_BYTES_PER_ATTEMPT)
               "finite mixed workload metadata bound overflowed";
  context (checked_add64 retried metadata ≫= λ bytes,
             checked_mul64 bytes RUSTFS_MAX_ERASURE_EXPANSION)
    "finite mixed workload erasure-expanded bound overflowed".

(** The fields a serialized plan carries; the shuffled sizes are recomputed. *)
Record SerializedWorkloadPlan := mkSerializedWorkloadPlan {
  raw_seed : N;
  raw_generator : string;
  raw_object_count : N;
  raw_concurrency : N;
  raw_operation_mix : WorkloadOperationMix;
  raw_total_payload_bytes : N;
  raw_size_distribution : list WorkloadSizeClass;
  raw_hotspot : option WorkloadHotspot;
}.

Definition add_class_objects (total : N) (c : WorkloadSizeClass) : Result N :=
  context (checked_add64 total (sc_object_count c))
    "workload size_distribution object_count overflowed".
Definition add_class_payload (total : N) (c : WorkloadSizeClass) : Result N :=
  _ ← ensure (bool_decide (sc_size_bytes c ≠ 0%N))
        "workload size class size_bytes must be positive";
  payload ← context (checked_mul64 (sc_size_bytes c) (sc_object_count c))
              "workload size_distribution payload overflowed";
  context (checked_add64 total payload) "workload size_distribution total payload overflowed".

Definition from_serialized (raw : SerializedWorkloadPlan) : Result WorkloadPlan :=
  _ ← ensure (bool_decide (raw_generator raw = GENERATOR))
        ("unsupported workload generator " +:+ raw_generator raw);
  _ ← ensure (in_range 1 (raw_object_count raw) (raw_concurrency raw))
        ("workload concurrency " +:+ dec (raw_concurrency raw)
         +:+ " must be between 1 and object_count " +:+ dec (raw_object_count raw));
  _ ← validate_operation_mix (raw_operation_mix raw);
  _ ← validate_option validate_hotspot (raw_hotspot raw);
  objects ← try_fold add_class_objects 0%N (raw_size_distribution raw);
  _ ← ensure (bool_decide (objects = raw_object_count raw))
        ("workload size_distribution object_count " +:+ dec objects
         +:+ " does not match object_count " +:+ dec (raw_object_count raw));
  payload ← try_fold add_class_payload 0%N (raw_size_distribution raw);
  _ ← ensure (bool_decide (payload = raw_total_payload_bytes raw))
        ("workload size_distribution payload " +:+ dec payload
         +:+ " does not match total_payload_bytes " +:+ dec (raw_total_payload_bytes raw));
  sizes ← shuffle_sizes (expand_sizes (raw_size_distribution raw)) (raw_seed raw);
  ok (mkWorkloadPlan (raw_seed raw) (raw_generator raw) (raw_object_count raw)
        (raw_concurrency raw) (raw_operation_mix raw) (raw_total_payload_bytes raw)
        (raw_size_distribution raw) (raw_hotspot raw) sizes).

(** ** Object keys *)
Module WriteProbeScope.
Inductive t := PostRecovery | NodeDown | SplitBrain.
Definition key_prefix (s : t) (run_id : string) : string :=
  match s with
  | PostRecovery => "fault-test-post-recovery/" +:+ run_id +:+ "/"
  | NodeDown => "fault-test-node-down/" +:+ run_id +:+ "/"
  | SplitBrain => "fault-test-split-brain/" +:+ run_id +:+ "/"
  end.
Definition key (s : t) (run_id : string) (index : N) : string :=
  key_prefix s run_id +:+ "object-" +:+ dec_pad 6 index.
End WriteProbeScope.

(** [ObjectSpec::key_prefix]. *)
Definition key_prefix (run_id : string) : string := "fault-test/" +:+ run_id +:+ "/".
Definition seeded_key (run_id : string) (index : N) : string :=
  key_prefix run_id +:+ "object-" +:+ dec_pad 6 index.
Definition post_recovery_key_prefix (run_id : string) : string :=
  WriteProbeScope.key_prefix WriteProbeScope.PostRecovery run_id.
Definition directory_marker_key (run_id : string) (index : N) : string :=
  key_prefix run_id +:+ "dir-" +:+ dec_pad 6 index +:+ "/".
