(* ===== verification/WorkloadFacts.v ===== *)
(** The workload generator is total on validated input: bodies have the
    requested size, the shuffle permutes, size classes account for every
    object, the operation mix is exact over a period, hotspot offsets are in
    range, the byte bound is the exact bound, and plans survive serialization. *)
From S2P Require Import Prelude Ordering RustText History Workload.
From stdpp Require Import options.

(** ** Seeded bodies *)
Lemma length_le_bytes n v : length (le_bytes n v) = n.
Proof. revert v. induction n as [|n IH]; intros v; simpl; [done|]. by rewrite IH. Qed.

Lemma le_bytes_range n v : Forall (λ b, (b < 256)%N) (le_bytes n v).
Proof.
  revert v. induction n as [|n IH]; intros v; simpl; constructor; [|apply IH].
  by apply N.mod_lt.
Qed.

Lemma length_fill_chunks chunks remaining state :
  length (fill_chunks chunks remaining state) = Nat.min (8 * chunks) remaining.
Proof.
  revert remaining state. induction chunks as [|n IH]; intros remaining state; [done|].
  cbn [fill_chunks]. destruct (next_u64 state) as [v state'].
  rewrite length_app, length_take, IH. unfold to_le_bytes. rewrite length_le_bytes. lia.
Qed.

Lemma fill_chunks_range chunks remaining state :
  Forall (λ b, (b < 256)%N) (fill_chunks chunks remaining state).
Proof.
  revert remaining state. induction chunks as [|n IH]; intros remaining state; [constructor|].
  cbn [fill_chunks]. destruct (next_u64 state) as [v state'].
  apply Forall_app. split; [|apply IH]. apply Forall_take, le_bytes_range.
Qed.

(** Filling fewer bytes yields a prefix of filling more. *)
Lemma fill_chunks_prefix c1 c2 r1 r2 state :
  c1 ≤ c2 → r1 ≤ r2 → r1 ≤ 8 * c1 →
  fill_chunks c1 r1 state `prefix_of` fill_chunks c2 r2 state.
Proof.
  revert c2 r1 r2 state. induction c1 as [|c1 IH]; intros c2 r1 r2 state Hc Hr H8.
  { apply prefix_nil. }
  destruct c2 as [|c2]; [lia|]. cbn [fill_chunks]. destruct (next_u64 state) as [v state'].
  destruct (decide (8 ≤ r1)) as [H|H].
  - rewrite !Nat.min_l by lia. apply prefix_app. apply IH; lia.
  - assert (fill_chunks c1 (r1 - 8) state' = []) as ->.
    { apply nil_length_inv. rewrite length_fill_chunks. lia. }
    rewrite app_nil_r. rewrite (Nat.min_r 8 r1) by lia.
    assert (to_le_bytes v = take (Nat.min 8 r2) (to_le_bytes v)
              ++ drop (Nat.min 8 r2) (to_le_bytes v)) as E by (by rewrite take_drop).
    transitivity (take (Nat.min 8 r2) (to_le_bytes v)).
    + replace (take r1 (to_le_bytes v)) with (take r1 (take (Nat.min 8 r2) (to_le_bytes v))).
      { apply prefix_take. }
      rewrite take_take. f_equal. lia.
    + by apply prefix_app_r.
Qed.

Lemma seeded_bytes_length seed index size : len (seeded_bytes seed index size) = size.
Proof.
  unfold len, seeded_bytes. rewrite length_fill_chunks.
  pose proof (Nat.div_mod_eq (N.to_nat size + 7) 8).
  pose proof (Nat.mod_upper_bound (N.to_nat size + 7) 8). lia.
Qed.

(** seeded_bytes returns exactly the requested number of bytes, each below 256, and
    a shorter body of the same seed and index is a prefix of a longer one, so ranged
    slices can be regenerated. *)
Lemma seeded_bytes_deterministic_stream seed index size1 size2 :
  (size1 ≤ size2)%N →
  len (seeded_bytes seed index size1) = size1 ∧
  Forall (λ b, (b < 256)%N) (seeded_bytes seed index size1) ∧
  seeded_bytes seed index size1 `prefix_of` seeded_bytes seed index size2.
Proof.
  intros H. split_and!; [apply seeded_bytes_length|apply fill_chunks_range|].
  unfold seeded_bytes.
  pose proof (Nat.div_mod_eq (N.to_nat size1 + 7) 8).
  pose proof (Nat.mod_upper_bound (N.to_nat size1 + 7) 8).
  apply fill_chunks_prefix; [|lia|lia]. apply Nat.Div0.div_le_mono. lia.
Qed.

(** ** The shuffle *)
Lemma vec_swap_perm {A} (l : list A) i j :
  i < length l → j < length l → ∃ l', vec_swap l i j = ok l' ∧ l' ≡ₚ l.
Proof.
  intros Hi Hj. unfold vec_swap.
  destruct (lookup_lt_is_Some_2 l i Hi) as [x Hx].
  destruct (lookup_lt_is_Some_2 l j Hj) as [y Hy]. rewrite Hx, Hy. simpl.
  eexists. split; [done|].
  by apply Permutation_insert_swap.
Qed.

Lemma shuffle_loop_perm count sizes state :
  count < length sizes ∨ count = 0 →
  ∃ sizes', shuffle_loop count sizes state = ok sizes' ∧ sizes' ≡ₚ sizes.
Proof.
  revert sizes state. induction count as [|count IH]; intros sizes state Hc; [by eexists|].
  cbn [shuffle_loop]. destruct (next_u64 state) as [v state'].
  assert (v `mod` (N.of_nat (S count) + 1) < N.of_nat (S count) + 1)%N by (apply N.mod_lt; lia).
  destruct (vec_swap_perm sizes (S count) (N.to_nat (v `mod` (N.of_nat (S count) + 1))))
    as (sizes1 & -> & Hp); [lia..|]. simpl.
  destruct (IH sizes1 state') as (sizes2 & -> & Hp2).
  { rewrite Hp. lia. }
  exists sizes2. split; [done|]. by rewrite Hp2.
Qed.

Lemma shuffle_sizes_perm sizes seed :
  ∃ sizes', shuffle_sizes sizes seed = ok sizes' ∧ sizes' ≡ₚ sizes.
Proof. apply shuffle_loop_perm. lia. Qed.

(** [shuffle_sizes] stays in range and permutes the sizes, for every seed. *)
Lemma shuffle_sizes_permutes sizes seed :
  ∃ sizes', shuffle_sizes sizes seed = ok sizes' ∧ sizes' ≡ₚ sizes.
Proof. apply shuffle_sizes_perm. Qed.

(** ** Size classes *)
Lemma saturating_share total oc w :
  (saturating_mul64 oc w `div` total * total ≤ oc * w)%N.
Proof.
  unfold saturating_mul64. rewrite N.mul_comm.
  etransitivity; [apply N.Div0.mul_div_le|]. apply N.le_min_l.
Qed.

Lemma distribute_cons total oc assigned c c' classes :
  (0 < total)%N →
  distribute total oc assigned (c :: c' :: classes) =
  let count := (saturating_mul64 oc (pc_weight c) `div` total)%N in
  rest ← distribute total oc (saturating_add64 assigned count) (c' :: classes);
  ok (mkWorkloadSizeClass (pc_size_bytes c) count :: rest).
Proof. intros H. cbv zeta. cbn [distribute]. by destruct (decide (total = 0)%N); [lia|]. Qed.

(** Shares assigned so far, plus what the remaining weights may take, stay
    within the object count; so the last class receives exactly the rest. *)
Lemma distribute_total total oc assigned classes result :
  (0 < total)%N → (oc ≤ u64_max)%N → classes ≠ [] →
  (assigned * total + oc * sum_N (pc_weight <$> classes) ≤ oc * total)%N →
  distribute total oc assigned classes = ok result →
  (assigned + sum_N (sc_object_count <$> result))%N = oc.
Proof.
  intros Ht Hoc. revert assigned result.
  induction classes as [|c classes IH]; intros assigned result Hne Hinv Hres; [done|].
  revert Hres. destruct classes as [|c' classes].
  - intros H. simpl in H, Hinv |- *. injection H as <-. simpl. nia.
  - rewrite distribute_cons by done. cbv zeta.
    set (count := (saturating_mul64 oc (pc_weight c) `div` total)%N).
    intros (rest & Hrest & [= <-])%bind_ok.
    rewrite fmap_cons in Hinv. change (sum_N (pc_weight c :: ?l)) with (pc_weight c + sum_N l)%N in Hinv.
    assert (count * total ≤ oc * pc_weight c)%N as Hcount by apply saturating_share.
    assert (assigned + count ≤ oc)%N as Hsat.
    { apply (N.mul_le_mono_pos_r _ _ total); [done|]. nia. }
    assert (saturating_add64 assigned count = assigned + count)%N as Esat.
    { unfold saturating_add64. lia. }
    rewrite Esat in Hrest. apply IH in Hrest; [|done|nia].
    rewrite fmap_cons. change (sum_N (?x :: ?l)) with (x + sum_N l)%N. simpl. lia.
Qed.

Lemma try_fold_unit_ok {A} (f : A → Result unit) l u :
  try_fold (λ _ x, f x) tt l = ok u ↔ Forall (λ x, f x = ok tt) l.
Proof.
  destruct u. induction l as [|x l IH]; simpl; [split; [constructor|done]|].
  rewrite bind_unit_ok, IH, Forall_cons. done.
Qed.

Lemma in_range_true lo hi x : in_range lo hi x = true ↔ (lo ≤ x ≤ hi)%N.
Proof. unfold in_range. by rewrite bool_decide_eq_true. Qed.

Lemma validate_payload_distribution_ok classes u :
  validate_payload_distribution classes = ok u ↔
  classes ≠ [] ∧ (len classes ≤ MAX_CLASSES)%N ∧
  Forall (λ c, (1 ≤ pc_size_bytes c ≤ MAX_SIZE_BYTES)%N ∧ (1 ≤ pc_weight c ≤ MAX_WEIGHT)%N) classes.
Proof.
  unfold validate_payload_distribution.
  rewrite !bind_ensure_ok, !bool_decide_eq_true, try_fold_unit_ok.
  unfold validate_payload_class. setoid_rewrite bind_ensure_ok. setoid_rewrite ensure_ok.
  by setoid_rewrite in_range_true.
Qed.

Lemma default_payload_distribution_ok :
  validate_payload_distribution default_payload_distribution = ok tt.
Proof. reflexivity. Qed.

Lemma distribute_shape total oc assigned classes :
  (0 < total)%N →
  ∃ result, distribute total oc assigned classes = ok result ∧
    sc_size_bytes <$> result = pc_size_bytes <$> classes.
Proof.
  intros Ht. revert assigned. induction classes as [|c classes IH]; intros assigned; [by eexists|].
  destruct classes as [|c' classes]; [by eexists|].
  rewrite distribute_cons by done. cbv zeta.
  edestruct IH as (rest & -> & Hrest). simpl in *. eexists. split; [done|]. simpl. by f_equal.
Qed.

Lemma sum_N_pos l : l ≠ [] → Forall (λ x, (1 ≤ x)%N) l → (0 < sum_N l)%N.
Proof. destruct 2; [done|]. simpl. lia. Qed.

Lemma size_distribution_complete classes oc :
  validate_payload_distribution classes = ok tt → (oc ≤ u64_max)%N →
  ∃ result, to_size_distribution classes oc = ok result ∧
    sum_N (sc_object_count <$> result) = oc ∧
    sc_size_bytes <$> result = pc_size_bytes <$> classes.
Proof.
  intros (Hne & _ & Hall)%validate_payload_distribution_ok Hoc. unfold to_size_distribution.
  set (total := sum_N (pc_weight <$> classes)).
  assert (0 < total)%N as Ht.
  { apply sum_N_pos; [by intros ?%fmap_nil_inv|]. apply Forall_fmap.
    eapply Forall_impl; [exact Hall|]. simpl. lia. }
  destruct (distribute_shape total oc 0 classes Ht) as (result & Hr & Hsz).
  exists result. split_and!; [done| |done].
  apply (distribute_total total oc 0) in Hr; [|done..|]; lia.
Qed.

(** On a validated payload distribution to_size_distribution does not divide by
    zero, keeps the class sizes in order, and its class counts add up to exactly the
    requested number of objects. *)
Lemma to_size_distribution_accounts_for_every_object classes oc :
  validate_payload_distribution classes = ok tt → (oc ≤ u64_max)%N →
  ∃ result, to_size_distribution classes oc = ok result ∧
    sum_N (sc_object_count <$> result) = oc ∧
    sc_size_bytes <$> result = pc_size_bytes <$> classes.
Proof. apply size_distribution_complete. Qed.

(** ** The operation mix *)
Lemma validate_operation_mix_ok m u :
  validate_operation_mix m = ok u ↔ Forall (λ w, (1 ≤ w ≤ MAX_WEIGHT)%N) (mix_fields m).*2.
Proof.
  destruct u. unfold validate_operation_mix, mix_fields. simpl.
  rewrite !bind_ensure_ok. rewrite !Forall_cons, Forall_nil, !in_range_true. naive_solver.
Qed.

Definition mix_weight (m : WorkloadOperationMix) (op : WorkloadOperation.t) : N :=
  match op with
  | WorkloadOperation.Put => mix_put m
  | WorkloadOperation.Overwrite => mix_overwrite m
  | WorkloadOperation.Get => mix_get m
  | WorkloadOperation.List => mix_list m
  | WorkloadOperation.Delete => mix_delete m
  | WorkloadOperation.Multipart => mix_multipart m
  end.

(** The first slot of an operation in a period. *)
Definition mix_start (m : WorkloadOperationMix) (op : WorkloadOperation.t) : N :=
  match op with
  | WorkloadOperation.Put => 0
  | WorkloadOperation.Overwrite => mix_put m
  | WorkloadOperation.Get => mix_put m + mix_overwrite m
  | WorkloadOperation.List => mix_put m + mix_overwrite m + mix_get m
  | WorkloadOperation.Delete => mix_put m + mix_overwrite m + mix_get m + mix_list m
  | WorkloadOperation.Multipart =>
      mix_put m + mix_overwrite m + mix_get m + mix_list m + mix_delete m
  end%N.

Lemma operation_at_slot m k slot op :
  (slot < total_weight m)%N →
  operation_at m (k * total_weight m + slot) = ok op ↔
  (mix_start m op ≤ slot < mix_start m op + mix_weight m op)%N.
Proof.
  intros Hs. unfold operation_at. rewrite decide_False by lia.
  rewrite N.add_comm, N.Div0.mod_add, N.mod_small by done.
  unfold total_weight in Hs.
  repeat case_decide; destruct op; simpl; split; intros; simplify_eq; try lia; done.
Qed.

Lemma operation_at_total m offset :
  (0 < total_weight m)%N → ∃ op, operation_at m offset = ok op.
Proof.
  intros H. unfold operation_at. rewrite decide_False by lia. repeat case_decide; eauto.
Qed.

Lemma elem_of_range_N n x : x ∈ range_N n ↔ (x < n)%N.
Proof.
  unfold range_N. rewrite list_elem_of_fmap. setoid_rewrite elem_of_seq. split.
  - intros (y & -> & ?). lia.
  - intros. exists (N.to_nat x). lia.
Qed.
Lemma NoDup_range_N n : NoDup (range_N n).
Proof. apply NoDup_fmap_2; [intros ???; lia|apply NoDup_seq]. Qed.
Lemma len_range_N n : len (range_N n) = n.
Proof. unfold len, range_N. rewrite length_fmap, length_seq. lia. Qed.

Lemma filter_interval_length (P : N → Prop) `{!∀ x, Decision (P x)} lo w n :
  (lo + w ≤ n)%N → (∀ x, (x < n)%N → P x ↔ (lo ≤ x < lo + w)%N) →
  len (filter P (range_N n)) = w.
Proof.
  intros Hle HP. transitivity (len (N.add lo <$> range_N w)).
  - unfold len. f_equal. apply Permutation_length. apply NoDup_Permutation.
    + apply NoDup_filter, NoDup_range_N.
    + apply NoDup_fmap_2; [intros ???; lia|apply NoDup_range_N].
    + intros x. rewrite list_elem_of_filter, list_elem_of_fmap, elem_of_range_N. split.
      * intros [Hx Hn]. apply HP in Hx; [|done]. exists (x - lo)%N.
        rewrite elem_of_range_N. lia.
      * intros (y & -> & Hy%elem_of_range_N). rewrite HP; lia.
  - unfold len. rewrite length_fmap. apply len_range_N.
Qed.

Global Instance operation_result_eq_dec (r : Result WorkloadOperation.t) op :
  Decision (r = ok op).
Proof. destruct r as [op'|e|]; [destruct (decide (op' = op))| |]; (left; congruence) || (right; congruence). Defined.

(** In every full period of the operation mix, operation_at schedules each
    operation exactly as often as its weight. *)
Lemma operation_at_period_exact m k op :
  len (filter (λ slot, operation_at m (k * total_weight m + slot) = ok op)
         (range_N (total_weight m))) = mix_weight m op.
Proof.
  apply (filter_interval_length _ (mix_start m op)).
  - unfold total_weight. destruct op; simpl; lia.
  - intros slot Hs. by apply operation_at_slot.
Qed.

(** ** Hotspot offsets *)
Lemma existing_object_offset_ok p offset count :
  (0 < count)%N → ∃ i, existing_object_offset p offset count = ok i ∧ (i < count)%N.
Proof.
  intros Hc. unfold existing_object_offset. rewrite decide_False by lia.
  destruct (wp_hotspot p) as [h|].
  2:{ eexists. split; [done|]. apply N.mod_lt. lia. }
  set (hc := (count `min` (1 `max` _))%N). assert (1 ≤ hc ≤ count)%N as Hhc by lia.
  clearbody hc. destruct (next_u64 _) as [v1 st]. destruct (next_u64 st) as [v2 st'].
  case_decide as Hd.
  - eexists. split; [done|]. pose proof (N.mod_lt v2 hc). lia.
  - eexists. split; [done|]. apply Decidable.not_or in Hd as [_ Hd].
    pose proof (N.mod_lt v2 (count - hc)). lia.
Qed.

(** ** Plans *)
Record plan_wf (p : WorkloadPlan) : Prop := {
  wf_sizes : len (wp_sizes p) = wp_object_count p;
  wf_bounded : Forall (λ s, (1 ≤ s ≤ MAX_SIZE_BYTES)%N) (wp_sizes p);
  wf_mix : validate_operation_mix (wp_operation_mix p) = ok tt;
}.

Lemma sum_N_replicate n x : sum_N (replicate n x) = (N.of_nat n * x)%N.
Proof. induction n as [|n IH]; [done|]. rewrite replicate_S, sum_N_cons, IH. lia. Qed.

Lemma len_expand_sizes classes :
  len (expand_sizes classes) = sum_N (sc_object_count <$> classes).
Proof.
  unfold expand_sizes. induction classes as [|c classes IH]; [done|].
  rewrite bind_cons, len_app, IH, fmap_cons, sum_N_cons.
  unfold len. rewrite length_replicate. lia.
Qed.
Lemma sum_expand_sizes classes :
  sum_N (expand_sizes classes) = sum_N ((λ c, sc_size_bytes c * sc_object_count c)%N <$> classes).
Proof.
  unfold expand_sizes. induction classes as [|c classes IH]; [done|].
  rewrite bind_cons, sum_N_app, IH, sum_N_replicate, fmap_cons, sum_N_cons. lia.
Qed.
Lemma expand_sizes_Forall (P : N → Prop) classes :
  Forall P (sc_size_bytes <$> classes) → Forall P (expand_sizes classes).
Proof.
  unfold expand_sizes. induction classes as [|c classes IH]; simpl; [constructor|].
  intros [Hc Hall]%Forall_cons. apply Forall_app. split; [|auto].
  by apply Forall_replicate.
Qed.

(** What [seeded_unchecked] builds from a validated distribution. *)
Lemma seeded_unchecked_spec seed oc conc mix payload hotspot :
  validate_option validate_payload_distribution payload = ok tt → (oc ≤ u64_max)%N →
  ∃ classes sizes,
    seeded_unchecked seed oc conc mix payload hotspot =
      (total ← sum_u64 sizes;
       ok (mkWorkloadPlan seed GENERATOR oc conc mix total classes hotspot sizes)) ∧
    shuffle_sizes (expand_sizes classes) seed = ok sizes ∧ sizes ≡ₚ expand_sizes classes ∧
    sum_N (sc_object_count <$> classes) = oc ∧
    Forall (λ s, (1 ≤ s ≤ MAX_SIZE_BYTES)%N) (sc_size_bytes <$> classes).
Proof.
  intros Hp Hoc. unfold seeded_unchecked.
  set (pd := default default_payload_distribution payload).
  assert (validate_payload_distribution pd = ok tt) as Hpd by by destruct payload.
  destruct (size_distribution_complete pd oc Hpd Hoc) as (classes & -> & Hsum & Hsz).
  destruct (shuffle_sizes_perm (expand_sizes classes) seed) as (sizes & Hs & Hperm).
  exists classes, sizes. simpl. rewrite Hs. split_and!; try done.
  rewrite Hsz. apply validate_payload_distribution_ok in Hpd as (_ & _ & Hall).
  apply Forall_fmap. eapply Forall_impl; [exact Hall|]. simpl. naive_solver.
Qed.

Lemma seeded_with_profile_spec seed oc conc mix payload hotspot p :
  (oc ≤ u64_max)%N → seeded_with_profile seed oc conc mix payload hotspot = ok p →
  validate_operation_mix mix = ok tt ∧ validate_option validate_hotspot hotspot = ok tt ∧
  ∃ classes sizes,
    p = mkWorkloadPlan seed GENERATOR oc conc mix (sum_N sizes) classes hotspot sizes ∧
    shuffle_sizes (expand_sizes classes) seed = ok sizes ∧ sizes ≡ₚ expand_sizes classes ∧
    sum_N (sc_object_count <$> classes) = oc ∧
    Forall (λ s, (1 ≤ s ≤ MAX_SIZE_BYTES)%N) (sc_size_bytes <$> classes).
Proof.
  intros Hoc. unfold seeded_with_profile. rewrite !bind_unit_ok.
  intros (Hm & Hp & Hh & Hs). split_and!; [done..|].
  destruct (seeded_unchecked_spec seed oc conc mix payload hotspot Hp Hoc)
    as (classes & sizes & E & ?). rewrite E in Hs.
  apply bind_ok in Hs as (total & ->%sum_u64_ok & [= <-]). eauto.
Qed.

(** The type invariant of plans. *)
Lemma seeded_with_profile_wf seed oc conc mix payload hotspot p :
  (oc ≤ u64_max)%N → seeded_with_profile seed oc conc mix payload hotspot = ok p → plan_wf p.
Proof.
  intros Hoc H. apply seeded_with_profile_spec in H
    as (Hm & Hh & classes & sizes & -> & Hs & Hperm & Hsum & Hall); [|done].
  split; simpl; [|by rewrite Hperm; apply expand_sizes_Forall|done].
  unfold len. rewrite Hperm. by rewrite <-Hsum, <-len_expand_sizes.
Qed.

Lemma try_fold_add_objects classes acc :
  (acc + sum_N (sc_object_count <$> classes) ≤ u64_max)%N →
  try_fold add_class_objects acc classes = ok (acc + sum_N (sc_object_count <$> classes))%N.
Proof.
  revert acc. induction classes as [|c classes IH]; intros acc Hb; [simpl; f_equal; lia|].
  rewrite fmap_cons, sum_N_cons in *. cbn [try_fold].
  assert (add_class_objects acc c = ok (acc + sc_object_count c)%N) as ->.
  { unfold add_class_objects, checked_add64. by rewrite decide_True by lia. }
  cbn. rewrite IH by lia. f_equal. lia.
Qed.

Lemma try_fold_add_payload classes acc :
  Forall (λ s, (1 ≤ s)%N) (sc_size_bytes <$> classes) →
  (acc + sum_N ((λ c, sc_size_bytes c * sc_object_count c)%N <$> classes) ≤ u64_max)%N →
  try_fold add_class_payload acc classes =
    ok (acc + sum_N ((λ c, sc_size_bytes c * sc_object_count c)%N <$> classes))%N.
Proof.
  revert acc. induction classes as [|c classes IH]; intros acc Hall Hb; [simpl; f_equal; lia|].
  rewrite fmap_cons, sum_N_cons in *.
  apply Forall_cons in Hall as [Hc Hall]. cbn [try_fold].
  assert (add_class_payload acc c = ok (acc + sc_size_bytes c * sc_object_count c)%N) as ->.
  { unfold add_class_payload, checked_mul64, checked_add64.
    rewrite bool_decide_eq_true_2, decide_True by lia. cbn. by rewrite decide_True by lia. }
  cbn. rewrite IH by (done || lia). f_equal. lia.
Qed.

(** The serialized form of a plan ([derive(Serialize)] minus the sizes, which
    deserialization ignores). *)
Definition serialize_plan (p : WorkloadPlan) : SerializedWorkloadPlan :=
  mkSerializedWorkloadPlan (wp_seed p) (wp_generator p) (wp_object_count p)
    (wp_concurrency p) (wp_operation_mix p) (wp_total_payload_bytes p)
    (wp_size_distribution p) (wp_hotspot p).

Lemma sum_payload_bound classes :
  Forall (λ s, (1 ≤ s ≤ MAX_SIZE_BYTES)%N) (sc_size_bytes <$> classes) →
  (sum_N ((λ c, sc_size_bytes c * sc_object_count c) <$> classes)
   ≤ MAX_SIZE_BYTES * sum_N (sc_object_count <$> classes))%N.
Proof.
  induction classes as [|c classes IH]; [simpl; lia|].
  rewrite !fmap_cons, !sum_N_cons. intros [Hc Hall]%Forall_cons. specialize (IH Hall). nia.
Qed.

(** Validated settings whose payload fits the byte counter give a plan. *)
Lemma seeded_with_profile_total seed oc conc mix payload hotspot :
  validate_operation_mix mix = ok tt →
  validate_option validate_payload_distribution payload = ok tt →
  validate_option validate_hotspot hotspot = ok tt → (oc * MAX_SIZE_BYTES ≤ u64_max)%N →
  is_Some (match seeded_with_profile seed oc conc mix payload hotspot with
           | ok p => Some p | _ => None end).
Proof.
  intros Hm Hp Hh Hoc. unfold seeded_with_profile. rewrite Hm, Hp, Hh. run_result.
  destruct (seeded_unchecked_spec seed oc conc mix payload hotspot Hp)
    as (classes & sizes & -> & _ & Hperm & Hsum & Hall); [unfold MAX_SIZE_BYTES in Hoc; lia|].
  pose proof (sum_payload_bound classes Hall) as Hbound.
  unfold sum_u64. rewrite sum_u64_from; [by eexists|].
  rewrite (sum_N_perm _ _ Hperm), sum_expand_sizes. lia.
Qed.

Lemma serialized_plan_parses seed oc conc mix payload hotspot p :
  seeded_with_profile seed oc conc mix payload hotspot = ok p →
  (1 ≤ conc ≤ oc)%N → (oc * MAX_SIZE_BYTES ≤ u64_max)%N →
  from_serialized (serialize_plan p) = ok p.
Proof.
  intros H Hconc Hoc.
  apply seeded_with_profile_spec in H
    as (Hm & Hh & classes & sizes & -> & Hs & Hperm & Hsum & Hall);
    [|unfold MAX_SIZE_BYTES in Hoc; lia].
  assert (sum_N sizes = sum_N ((λ c, sc_size_bytes c * sc_object_count c)%N <$> classes)) as Hpay.
  { by rewrite (sum_N_perm _ _ Hperm), sum_expand_sizes. }
  pose proof (sum_payload_bound classes Hall) as Hbound.
  assert (Forall (λ s, (1 ≤ s)%N) (sc_size_bytes <$> classes)) as Hpos.
  { eapply Forall_impl; [exact Hall|]. simpl. lia. }
  unfold from_serialized, serialize_plan. simpl.
  assert (in_range 1 oc conc = true) as -> by by apply in_range_true.
  rewrite Hm, Hh. simpl. rewrite try_fold_add_objects by (rewrite Hsum; unfold MAX_SIZE_BYTES in *; lia).
  simpl. rewrite Hsum, bool_decide_eq_true_2 by lia. simpl.
  rewrite try_fold_add_payload by (done || (rewrite N.add_0_l; lia)). simpl.
  rewrite bool_decide_eq_true_2 by (rewrite Hpay; lia). simpl. by rewrite Hs.
Qed.

(** C39. Validated settings whose payload fits 64 bits always give a well-formed plan
    whose byte total is the sum of its sizes, and deserializing the serialized plan
    rebuilds exactly that plan, shuffled sizes included. *)
Theorem plan_serialization_roundtrip seed oc conc mix payload hotspot :
  validate_operation_mix mix = ok tt →
  validate_option validate_payload_distribution payload = ok tt →
  validate_option validate_hotspot hotspot = ok tt →
  (1 ≤ conc ≤ oc)%N → (oc * MAX_SIZE_BYTES ≤ u64_max)%N →
  ∃ p, seeded_with_profile seed oc conc mix payload hotspot = ok p ∧ plan_wf p ∧
    wp_total_payload_bytes p = sum_N (wp_sizes p) ∧
    from_serialized (serialize_plan p) = ok p.
Proof.
  intros Hm Hp Hh Hconc Hoc.
  destruct (seeded_with_profile_total seed oc conc mix payload hotspot Hm Hp Hh Hoc) as [p Hs].
  destruct (seeded_with_profile seed oc conc mix payload hotspot) as [p'| |] eqn:E; simplify_eq.
  assert (oc ≤ u64_max)%N as Hoc' by (unfold MAX_SIZE_BYTES in Hoc; lia).
  exists p. split_and!; [done|by eapply seeded_with_profile_wf| |by eapply serialized_plan_parses].
  by apply seeded_with_profile_spec in E as (_ & _ & classes & sizes & -> & _).
Qed.

(** ** The byte bound

    The same loop in unbounded arithmetic, and the bound it yields: twice the
    bytes and metadata of every attempt of every original and recommitted
    write. *)
Definition totals_add (t c : WriteTotals) : WriteTotals :=
  mkWriteTotals (wt_payload_bytes t + wt_payload_bytes c) (wt_requests t + wt_requests c)
    (wt_recommit_bytes t + wt_recommit_bytes c)
    (wt_recommit_requests t + wt_recommit_requests c).
Definition mixed_totals_step (p : WorkloadPlan) (prefilled : N) (t : WriteTotals) (offset : N)
    : Result WriteTotals :=
  op ← operation_at (wp_operation_mix p) offset;
  cost ← mixed_operation_cost p prefilled offset op;
  ok (totals_add t cost).
Definition mixed_totals (p : WorkloadPlan) (prefilled mixed : N) : Result WriteTotals :=
  try_fold (mixed_totals_step p prefilled) (mkWriteTotals 0 0 0 0) (range_N mixed).
Definition expanded_bytes (t : WriteTotals) : N :=
  (2 * (3 * (wt_payload_bytes t + wt_recommit_bytes t)
        + 3 * (1024 * 1024) * (wt_requests t + wt_recommit_requests t)))%N.

Definition totals_le (t u : WriteTotals) : Prop :=
  (wt_payload_bytes t ≤ wt_payload_bytes u ∧ wt_requests t ≤ wt_requests u ∧
   wt_recommit_bytes t ≤ wt_recommit_bytes u ∧
   wt_recommit_requests t ≤ wt_recommit_requests u)%N.
Definition totals_fit (t : WriteTotals) : Prop :=
  totals_le t (mkWriteTotals u64_max u64_max u64_max u64_max).

Lemma mixed_totals_mono p prefilled t l u :
  try_fold (mixed_totals_step p prefilled) t l = ok u → totals_le t u.
Proof.
  revert t. induction l as [|o l IH]; intros t; simpl.
  - intros [= <-]. unfold totals_le. lia.
  - unfold mixed_totals_step at 1. intros (t1 & H & Hl)%bind_ok.
    apply bind_ok in H as (op & _ & H). apply bind_ok in H as (cost & _ & [= <-]).
    apply IH in Hl. unfold totals_le, totals_add in *; simpl in *. lia.
Qed.

Lemma mixed_write_step_checked p prefilled t o op cost :
  operation_at (wp_operation_mix p) o = ok op →
  mixed_operation_cost p prefilled o op = ok cost →
  (totals_fit (totals_add t cost) ∧ mixed_write_step p prefilled t o = ok (totals_add t cost))
  ∨ (¬ totals_fit (totals_add t cost) ∧ ∃ e, mixed_write_step p prefilled t o = err e).
Proof.
  intros Hop Hcost. unfold mixed_write_step. rewrite Hop. run_result. rewrite Hcost. run_result.
  unfold totals_fit, totals_le, totals_add, checked_add64. simpl.
  destruct (decide (wt_payload_bytes t + _ ≤ _)%N); run_result; [|right; split; [lia|by eexists]].
  destruct (decide (wt_requests t + _ ≤ _)%N); run_result; [|right; split; [lia|by eexists]].
  destruct (decide (wt_recommit_bytes t + _ ≤ _)%N); run_result; [|right; split; [lia|by eexists]].
  destruct (decide (wt_recommit_requests t + _ ≤ _)%N); run_result; [|right; split; [lia|by eexists]].
  by left.
Qed.

Lemma mixed_write_loop_checked p prefilled t l u :
  try_fold (mixed_totals_step p prefilled) t l = ok u → totals_fit t →
  (totals_fit u ∧ try_fold (mixed_write_step p prefilled) t l = ok u)
  ∨ (¬ totals_fit u ∧ ∃ e, try_fold (mixed_write_step p prefilled) t l = err e).
Proof.
  revert t. induction l as [|o l IH]; intros t.
  { intros [= <-]. by left. }
  cbn [try_fold]. intros (t1 & H & Hl)%bind_ok Hfit. unfold mixed_totals_step in H.
  apply bind_ok in H as (op & Hop & H). apply bind_ok in H as (cost & Hcost & [= <-]).
  destruct (mixed_write_step_checked p prefilled t o op cost Hop Hcost) as [[Hf ->]|[Hnf [e ->]]].
  - run_result. by apply IH.
  - right. split; [|by eexists]. apply mixed_totals_mono in Hl. intros Hu. apply Hnf.
    unfold totals_fit, totals_le in *; simpl in *. lia.
Qed.

Lemma size_at_ok p index :
  plan_wf p → (index < wp_object_count p)%N →
  ∃ s, size_at p index = ok s ∧ (1 ≤ s ≤ MAX_SIZE_BYTES)%N.
Proof.
  intros [Hl Hb _] Hi. unfold size_at. unfold len in Hl.
  destruct (lookup_lt_is_Some_2 (wp_sizes p) (N.to_nat index)) as [s Hs]; [lia|].
  rewrite Hs. exists s. split; [done|]. rewrite Forall_forall in Hb. apply Hb.
  apply list_elem_of_lookup. eauto.
Qed.

Lemma plan_wf_weight p : plan_wf p → (0 < total_weight (wp_operation_mix p))%N.
Proof.
  intros [_ _ Hm]. apply validate_operation_mix_ok in Hm. unfold mix_fields in Hm.
  simpl in Hm. rewrite !Forall_cons in Hm. unfold total_weight. lia.
Qed.

Lemma mixed_operation_cost_ok p prefilled o op :
  plan_wf p → (0 < prefilled)%N → (prefilled + o < wp_object_count p)%N →
  ∃ cost, mixed_operation_cost p prefilled o op = ok cost.
Proof.
  intros Hwf Hp Ho. unfold mixed_operation_cost.
  destruct (size_at_ok p (prefilled + o) Hwf Ho) as (s & Hs & Hb). unfold MAX_SIZE_BYTES in Hb.
  destruct op; try (rewrite Hs; run_result); try by eexists.
  - rewrite bool_decide_eq_true_2 by done. run_result.
    destruct (existing_object_offset_ok p o prefilled Hp) as (i & -> & Hi). run_result.
    destruct (size_at_ok p i Hwf) as (s' & -> & _); [lia|]. by eexists.
  - assert (div_ceil (s `max` 1) MULTIPART_PART_SIZE_BYTES ≤ s `max` 1)%N as Hd.
    { unfold div_ceil. apply N.Div0.div_le_upper_bound. unfold MULTIPART_PART_SIZE_BYTES. lia. }
    unfold checked_add64, u64_max, ABORTED_MULTIPART_FIXTURE_BYTES.
    rewrite !decide_True by lia. by eexists.
Qed.

Lemma mixed_totals_ok p prefilled mixed :
  plan_wf p → (0 < prefilled)%N → (prefilled + mixed ≤ wp_object_count p)%N →
  ∃ t, mixed_totals p prefilled mixed = ok t.
Proof.
  intros Hwf Hp Hm. unfold mixed_totals.
  assert (Forall (λ o, (prefilled + o < wp_object_count p)%N) (range_N mixed)) as Hall.
  { apply Forall_forall. intros o Ho%elem_of_range_N. lia. }
  generalize (mkWriteTotals 0 0 0 0). induction Hall as [|o l Ho _ IH]; intros t; [by eexists|].
  destruct (operation_at_total (wp_operation_mix p) o) as [op Hop]; [by apply plan_wf_weight|].
  destruct (mixed_operation_cost_ok p prefilled o op Hwf Hp Ho) as [cost Hcost].
  cbn [try_fold]. assert (mixed_totals_step p prefilled t o = ok (totals_add t cost)) as ->.
  { unfold mixed_totals_step. rewrite Hop. run_result. by rewrite Hcost. }
  run_result. apply IH.
Qed.

(** The closing arithmetic of the bound: it never panics, and it succeeds with
    the expanded bytes of the totals exactly when those fit in a [u64]. *)
Lemma mixed_expansion_checked t r :
  r = (total ← context (checked_add64 (wt_payload_bytes t) (wt_recommit_bytes t))
         "finite mixed workload total payload bound overflowed";
       retried ← context (checked_mul64 total S3_WORKLOAD_MUTATION_MAX_ATTEMPTS)
         "finite mixed workload retry payload bound overflowed";
       requests ← context (checked_add64 (wt_requests t) (wt_recommit_requests t))
         "finite mixed workload total request bound overflowed";
       metadata ← context (checked_mul64 requests S3_WORKLOAD_MUTATION_MAX_ATTEMPTS ≫= λ count,
                             checked_mul64 count RUSTFS_METADATA_RESERVE_BYTES_PER_ATTEMPT)
         "finite mixed workload metadata bound overflowed";
       context (checked_add64 retried metadata ≫= λ bytes,
                  checked_mul64 bytes RUSTFS_MAX_ERASURE_EXPANSION)
         "finite mixed workload erasure-expanded bound overflowed") →
  r ≠ panicked ∧
  ∀ b, r = ok b ↔ b = expanded_bytes t ∧ (expanded_bytes t ≤ u64_max)%N.
Proof.
  intros ->. split.
  { apply bind_context_not_panicked. intros total.
    do 3 (apply bind_context_not_panicked; intros ?). by destruct (_ ≫= _). }
  intros b. unfold expanded_bytes. split.
  - intros (total & [-> _]%checked_add64_Some & H)%bind_context_ok.
    apply bind_context_ok in H as (retried & [-> _]%checked_mul64_Some & H).
    apply bind_context_ok in H as (requests & [-> _]%checked_add64_Some & H).
    apply bind_context_ok in H as (metadata & Hm & H).
    apply bind_Some in Hm as (count & [-> _]%checked_mul64_Some & [-> _]%checked_mul64_Some).
    apply context_ok, bind_Some in H as (bytes & [-> _]%checked_add64_Some & [-> Hb]%checked_mul64_Some).
    unfold S3_WORKLOAD_MUTATION_MAX_ATTEMPTS, RUSTFS_METADATA_RESERVE_BYTES_PER_ATTEMPT,
      RUSTFS_MAX_ERASURE_EXPANSION in *. lia.
  - intros [-> Hle].
    unfold S3_WORKLOAD_MUTATION_MAX_ATTEMPTS, RUSTFS_METADATA_RESERVE_BYTES_PER_ATTEMPT,
      RUSTFS_MAX_ERASURE_EXPANSION.
    apply bind_context_ok. eexists. split; [apply checked_add64_Some; split; [done|lia]|].
    apply bind_context_ok. eexists. split; [apply checked_mul64_Some; split; [done|lia]|].
    apply bind_context_ok. eexists. split; [apply checked_add64_Some; split; [done|lia]|].
    apply bind_context_ok. eexists. split.
    { apply bind_Some. eexists. split; apply checked_mul64_Some; (split; [done|lia]). }
    apply context_ok, bind_Some. eexists. split; [apply checked_add64_Some; split; [done|lia]|].
    apply checked_mul64_Some. split; lia.
Qed.

(** ** The bound, operation by operation *)

(** The operation the mix schedules at an offset: the weights are laid out one after
    the other and repeated. *)
Definition scheduled (m : WorkloadOperationMix) (offset : N) (op : WorkloadOperation.t) : Prop :=
  let period := (mix_put m + mix_overwrite m + mix_get m + mix_list m + mix_delete m + mix_multipart m)%N in
  let slot := (offset `mod` period)%N in
  (mix_start m op ≤ slot < mix_start m op + mix_weight m op)%N.
(** The bytes and the requests of one operation with those of its recommit: an object
    is written and later written again; a multipart upload has a request for each part
    of five mebibytes and four more, beside an aborted upload of four kibibytes. *)
Inductive writes (p : WorkloadPlan) (prefilled offset : N) : WorkloadOperation.t → N → N → Prop :=
| put_writes size :
    wp_sizes p !! N.to_nat (prefilled + offset) = Some size →
    writes p prefilled offset WorkloadOperation.Put (size + size) 2
| overwrite_writes existing size :
    existing_object_offset p offset prefilled = ok existing →
    wp_sizes p !! N.to_nat existing = Some size →
    writes p prefilled offset WorkloadOperation.Overwrite (size + size) 2
| get_writes : writes p prefilled offset WorkloadOperation.Get 0 0
| list_writes : writes p prefilled offset WorkloadOperation.List 0 0
| delete_writes : writes p prefilled offset WorkloadOperation.Delete 0 1
| multipart_writes size parts :
    wp_sizes p !! N.to_nat (prefilled + offset) = Some size →
    (size ≤ parts * (5 * 1024 * 1024) < size + 5 * 1024 * 1024)%N →
    writes p prefilled offset WorkloadOperation.Multipart (size + 4096 + size) (parts + 4 + 1).
(** The operations of the workload, in order, and what each of them writes. *)
Definition workload_writes (p : WorkloadPlan) (prefilled mixed : N) (costs : list (N * N)) : Prop :=
  Forall2 (λ offset cost, ∃ op, scheduled (wp_operation_mix p) offset op ∧ writes p prefilled offset op cost.1 cost.2)
    (range_N mixed) costs.
(** Each is tried three times and keeps a mebibyte of metadata for every request; the
    erasure coding doubles it all. *)
Definition storage_needed (costs : list (N * N)) : N :=
  (2 * (3 * sum_N costs.*1 + 3 * sum_N costs.*2 * (1024 * 1024)))%N.

Lemma scheduled_operation m o op :
  (0 < total_weight m)%N → operation_at m o = ok op → scheduled m o op.
Proof.
  intros Hw Hop. unfold scheduled. fold (total_weight m).
  apply (operation_at_slot m (o `div` total_weight m)); [apply N.mod_lt; lia|].
  rewrite N.mul_comm, <-N.Div0.div_mod. done.
Qed.
Lemma size_at_lookup p i s : size_at p i = ok s ↔ wp_sizes p !! N.to_nat i = Some s.
Proof. apply expect_ok. Qed.
Lemma part_count_bounds s : (1 ≤ s)%N →
  (s ≤ div_ceil (s `max` 1) (5 * 1024 * 1024) * (5 * 1024 * 1024) < s + 5 * 1024 * 1024)%N.
Proof.
  intros Hs. replace (s `max` 1)%N with s by lia. unfold div_ceil. set (b := (5 * 1024 * 1024)%N).
  pose proof (N.Div0.div_mod (s + b - 1) b). assert (b ≠ 0)%N as Hb by done.
  pose proof (N.mod_lt (s + b - 1) b Hb). assert (1 < b)%N by done. clearbody b.
  generalize dependent ((s + b - 1) `div` b)%N. generalize dependent ((s + b - 1) `mod` b)%N. intros r Hr q Hq.
  rewrite (N.mul_comm q b). lia.
Qed.
Lemma operation_writes p prefilled o op cost :
  plan_wf p → mixed_operation_cost p prefilled o op = ok cost →
  writes p prefilled o op (wt_payload_bytes cost + wt_recommit_bytes cost) (wt_requests cost + wt_recommit_requests cost).
Proof.
  intros [_ Hb _] Hcost. unfold mixed_operation_cost in Hcost. destruct op.
  - apply bind_ok in Hcost as (s & Hs%size_at_lookup & [= <-]). by constructor.
  - apply bind_ensure_ok in Hcost as [_ (i & Hi & (s & Hs%size_at_lookup & [= <-])%bind_ok)%bind_ok].
    by econstructor.
  - injection Hcost as <-. constructor.
  - injection Hcost as <-. constructor.
  - injection Hcost as <-. constructor.
  - apply bind_ok in Hcost as (s & Hs%size_at_lookup & Hcost).
    apply bind_context_ok in Hcost as (requests & [-> _]%checked_add64_Some & Hcost).
    apply bind_context_ok in Hcost as (bytes & [-> _]%checked_add64_Some & [= <-]). cbn.
    constructor; [done|]. apply part_count_bounds.
    rewrite Forall_forall in Hb. by apply list_elem_of_lookup_2, (Hb s) in Hs as [].
Qed.
Lemma totals_writes p prefilled t l u :
  plan_wf p → try_fold (mixed_totals_step p prefilled) t l = ok u →
  ∃ costs, Forall2 (λ offset cost, ∃ op, scheduled (wp_operation_mix p) offset op ∧
                      writes p prefilled offset op cost.1 cost.2) l costs ∧
    (wt_payload_bytes u + wt_recommit_bytes u = wt_payload_bytes t + wt_recommit_bytes t + sum_N costs.*1)%N ∧
    (wt_requests u + wt_recommit_requests u = wt_requests t + wt_recommit_requests t + sum_N costs.*2)%N.
Proof.
  intros Hwf. revert t. induction l as [|o l IH]; intros t.
  { intros [= <-]. exists []. split; [constructor|]. cbn. lia. }
  cbn [try_fold]. intros (t1 & H & Hl)%bind_ok. unfold mixed_totals_step in H.
  apply bind_ok in H as (op & Hop & (cost & Hcost & [= <-])%bind_ok).
  apply IH in Hl as (costs & HF & Hbytes & Hreqs).
  exists ((wt_payload_bytes cost + wt_recommit_bytes cost, wt_requests cost + wt_recommit_requests cost)%N :: costs).
  split.
  - constructor; [|done]. exists op. split; [by apply scheduled_operation; [apply plan_wf_weight|]|].
    by apply operation_writes.
  - cbn [fmap list_fmap]. rewrite !sum_N_cons. cbn in *. lia.
Qed.

(** C40. For a well-formed plan and a mixed workload within its objects, with at least
    one prefilled object, mixed_write_upper_bound never panics, and it returns a bound
    exactly when the storage the workload needs fits 64 bits, in which case it is that
    storage: for every offset the operation its slot of the weights schedules, a PUT or
    an overwrite with the bytes and the request of the object twice, a DELETE with one
    request, a multipart upload with a request per part of 5 MiB and four more, 4 KiB
    for the aborted fixture and one recommit, every request and byte three times, a MiB
    of metadata per request, and everything doubled by erasure coding. *)
Theorem mixed_write_upper_bound_exact p prefilled mixed :
  plan_wf p → (0 < prefilled)%N → (prefilled + mixed ≤ wp_object_count p ≤ u64_max)%N →
  ∃ costs, workload_writes p prefilled mixed costs ∧
    mixed_write_upper_bound p prefilled mixed ≠ panicked ∧
    ∀ b, mixed_write_upper_bound p prefilled mixed = ok b ↔
         b = storage_needed costs ∧ (storage_needed costs ≤ u64_max)%N.
Proof.
  intros Hwf Hp Hm. destruct (mixed_totals_ok p prefilled mixed Hwf Hp) as [t Ht]; [lia|].
  destruct (totals_writes _ _ _ _ _ Hwf Ht) as (costs & Hcosts & Hbytes & Hreqs).
  exists costs. split; [done|].
  assert (storage_needed costs = expanded_bytes t) as ->
    by (unfold storage_needed, expanded_bytes; cbn [wt_payload_bytes wt_recommit_bytes wt_requests wt_recommit_requests] in *; lia).
  unfold mixed_write_upper_bound.
  rewrite (proj2 (checked_add64_Some prefilled mixed _)) by (split; [done|lia]).
  rewrite bool_decide_eq_true_2 by lia. run_result.
  destruct (mixed_write_loop_checked _ _ _ _ _ Ht) as [[Hf ->]|[Hnf [e ->]]].
  { unfold totals_fit, totals_le; simpl. lia. }
  - run_result. by apply mixed_expansion_checked.
  - split; [done|]. intros b. split; [done|]. intros [_ Hle]. exfalso. apply Hnf.
    unfold totals_fit, totals_le, expanded_bytes in *; simpl in *. lia.
Qed.
