(* ===== verification/Quorum.v ===== *)
(** The quorum model of an erasure set ([src/fault/quorum.rs]): how many shards a
    read and a write need, which volumes a fault may take away to reach a
    boundary, and the validators of the evidence that binds a fault to the
    volumes of a running set. *)
From S2P Require Import Prelude Ordering RustText.
From stdpp Require Import options.

Definition RUNTIME_TOPOLOGY_MAX_AGE_MS : N := 5000.
Definition MAX_ERASURE_SET_SHARDS : N := 16.

(** ** Machine integers *)
Definition u32_max : N := 2 ^ 32 - 1.
Definition i32_max : N := 2 ^ 31 - 1.
Definition checked_add32 (a b : N) : option N := if decide (a + b ≤ u32_max)%N then Some (a + b)%N else None.
Definition checked_mul32 (a b : N) : option N := if decide (a * b ≤ u32_max)%N then Some (a * b)%N else None.
Definition checked_sub (a b : N) : option N := if decide (b ≤ a)%N then Some (a - b)%N else None.
(** [a - b] and [a + b] on [u32]. *)
Definition sub_u32 (a b : N) : Result N := expect (checked_sub a b).
Definition add_u32 (a b : N) : Result N := expect (checked_add32 a b).
(** [u32::try_from(..)?] and [i32::try_from(..)?]. *)
Definition try_from_max (max n : N) : Result N :=
  if decide (n ≤ max)%N then ok n else err "out of range integral type conversion attempted".

Definition require_fresh_runtime_observation (observed_at_ms fault_apply_at_ms : N) : Result unit :=
  _ ← ensure (bool_decide (0 < observed_at_ms)%N && bool_decide (observed_at_ms ≤ fault_apply_at_ms)%N)
        "runtime topology observation must precede fault application";
  age_ms ← sub_u64 fault_apply_at_ms observed_at_ms;
  ensure (bool_decide (age_ms ≤ RUNTIME_TOPOLOGY_MAX_AGE_MS)%N)
    ("runtime topology observation is " +:+ dec age_ms +:+ "ms old at fault application; maximum is "
     +:+ dec RUNTIME_TOPOLOGY_MAX_AGE_MS +:+ "ms").

(** ** Classes *)
Module QuorumMutationClass.
Inductive t := PutObject | MultipartComplete | DeleteMarker.
Global Instance eq_dec : EqDecision t.
Proof. solve_decision. Defined.
End QuorumMutationClass.
Module PersistedVersionClass.
Inductive t := DataObject | DeleteMarker | ZeroLengthObject.
End PersistedVersionClass.
Module QuorumCaseClass.
Inductive t := Payload | Metadata.
Global Instance eq_dec : EqDecision t.
Proof. solve_decision. Defined.
End QuorumCaseClass.

(** ** Requirements *)
Record QuorumRequirements := mkQuorumRequirements {
  qr_total_shards : N;
  qr_data_shards : N;
  qr_parity_shards : N;
  qr_read_quorum : N;
  qr_write_quorum : N;
  qr_read_tolerance : N;
  qr_write_tolerance : N;
}.
Global Instance QuorumRequirements_eq_dec : EqDecision QuorumRequirements.
Proof. solve_decision. Defined.

Definition from_geometry (total_shards parity_shards : N) : Result QuorumRequirements :=
  data_shards ← sub_u32 total_shards parity_shards;
  let read_quorum := data_shards in
  write_quorum ← (if bool_decide (data_shards = parity_shards) then add_u32 data_shards 1
                  else ok data_shards);
  read_tolerance ← sub_u32 total_shards read_quorum;
  write_tolerance ← sub_u32 total_shards write_quorum;
  ok (mkQuorumRequirements total_shards data_shards parity_shards read_quorum write_quorum
        read_tolerance write_tolerance).
Definition ensure_set_size (total_shards : N) : Result unit :=
  ensure (bool_decide (2 ≤ total_shards)%N && bool_decide (total_shards ≤ MAX_ERASURE_SET_SHARDS)%N)
    ("erasure set must contain between 2 and " +:+ dec MAX_ERASURE_SET_SHARDS +:+ " shards").
Definition payload (total_shards payload_parity_shards : N) : Result QuorumRequirements :=
  _ ← ensure_set_size total_shards;
  _ ← ensure (bool_decide (payload_parity_shards ≤ total_shards / 2)%N)
        ("payload parity " +:+ dec payload_parity_shards +:+ " exceeds half of " +:+ dec total_shards
         +:+ " shards");
  from_geometry total_shards payload_parity_shards.
Definition metadata (total_shards : N) : Result QuorumRequirements :=
  _ ← ensure_set_size total_shards;
  from_geometry total_shards (total_shards / 2).
Definition for_mutation (total_shards payload_parity_shards : N) (class : QuorumMutationClass.t)
    : Result QuorumRequirements :=
  match class with
  | QuorumMutationClass.PutObject | QuorumMutationClass.MultipartComplete =>
      payload total_shards payload_parity_shards
  | QuorumMutationClass.DeleteMarker => metadata total_shards
  end.
Definition for_persisted_version (total_shards payload_parity_shards : N)
    (class : PersistedVersionClass.t) : Result QuorumRequirements :=
  match class with
  | PersistedVersionClass.DataObject => payload total_shards payload_parity_shards
  | PersistedVersionClass.DeleteMarker | PersistedVersionClass.ZeroLengthObject =>
      metadata total_shards
  end.
Definition validate_requirements (q : QuorumRequirements) : Result unit :=
  expected ← payload (qr_total_shards q) (qr_parity_shards q);
  ensure (bool_decide (q = expected)) "quorum requirements do not match the shard geometry".

(** ** Shapes *)
Record ErasureSetShape := mkErasureSetShape {
  es_pool_index : N;
  es_set_index : N;
  es_server_count : N;
  es_volumes_per_server : N;
  es_total_shards : N;
  es_payload_data_shards : N;
  es_payload_parity_shards : N;
}.
Global Instance ErasureSetShape_eq_dec : EqDecision ErasureSetShape.
Proof. solve_decision. Defined.

Definition payload_quorum (shape : ErasureSetShape) : Result QuorumRequirements :=
  for_mutation (es_total_shards shape) (es_payload_parity_shards shape) QuorumMutationClass.PutObject.
Definition validate_shape (shape : ErasureSetShape) : Result unit :=
  _ ← ensure (bool_decide (0 < es_server_count shape)%N) "server_count must be positive";
  _ ← ensure (bool_decide (0 < es_volumes_per_server shape)%N) "volumes_per_server must be positive";
  _ ← ensure (bool_decide (checked_mul32 (es_server_count shape) (es_volumes_per_server shape)
                           = Some (es_total_shards shape)))
        "server_count * volumes_per_server must equal total_shards";
  quorum ← payload_quorum shape;
  _ ← ensure (bool_decide (qr_data_shards quorum = es_payload_data_shards shape))
        "payload_data_shards does not match the quorum model";
  ensure (bool_decide (qr_parity_shards quorum = es_payload_parity_shards shape))
    "payload_parity_shards does not match the quorum model".

Definition from_runtime_single_set (server_count volumes_per_server : N)
    (total_sets drives_per_set : list N) (payload_parity_shards : N) : Result ErasureSetShape :=
  drives ← match total_sets, drives_per_set with
           | [sets], [drives] => _ ← ensure (bool_decide (sets = 1%N))
               "runtime topology must report exactly one pool containing one erasure set"; ok drives
           | _, _ => err "runtime topology must report exactly one pool containing one erasure set"
           end;
  tenant_shards ← context (checked_mul64 server_count volumes_per_server)
    "runtime topology shard count overflow";
  _ ← ensure (bool_decide (drives = tenant_shards))
        ("runtime drives-per-set " +:+ dec drives +:+ " does not match tenant server/volume width "
         +:+ dec tenant_shards);
  total_shards ← try_from_max u32_max drives;
  payload_parity_shards ← try_from_max u32_max payload_parity_shards;
  payload_data_shards ← context (checked_sub total_shards payload_parity_shards)
    ("runtime payload parity " +:+ dec payload_parity_shards +:+ " exceeds " +:+ dec total_shards
     +:+ " shards");
  server_count ← try_from_max u32_max server_count;
  volumes_per_server ← try_from_max u32_max volumes_per_server;
  let shape := mkErasureSetShape 0 0 server_count volumes_per_server total_shards
                 payload_data_shards payload_parity_shards in
  _ ← validate_shape shape;
  ok shape.

Definition require_removed_shard_boundary (shape : ErasureSetShape) (removed_shards : N)
    : Result unit :=
  remaining_shards ← context (checked_sub (es_total_shards shape) removed_shards)
    "partition removes more shards than the set contains";
  quorum ← payload_quorum shape;
  ensure (bool_decide (qr_read_quorum quorum ≤ remaining_shards)%N
          && bool_decide (remaining_shards < qr_write_quorum quorum)%N)
    ("partition leaves " +:+ dec remaining_shards
     +:+ " shards; the intended boundary requires at least " +:+ dec (qr_read_quorum quorum)
     +:+ " for reads but fewer than " +:+ dec (qr_write_quorum quorum) +:+ " for writes").
Definition require_server_partition_boundary (shape : ErasureSetShape) (target_servers : N)
    : Result unit :=
  _ ← ensure (bool_decide (0 < target_servers)%N && bool_decide (target_servers < es_server_count shape)%N)
        "partition target count must be smaller than the server count";
  removed_shards ← context (checked_mul32 target_servers (es_volumes_per_server shape))
    "partition shard count overflow";
  require_removed_shard_boundary shape removed_shards.
Definition require_volume_availability_boundary (shape : ErasureSetShape) (unavailable_volumes : N)
    : Result unit :=
  _ ← validate_shape shape;
  _ ← ensure (bool_decide (0 < unavailable_volumes)%N)
        "availability boundary must remove at least one volume";
  remaining_shards ← context (checked_sub (es_total_shards shape) unavailable_volumes)
    "availability boundary removes more volumes than the set contains";
  payload ← payload_quorum shape;
  metadata ← for_mutation (es_total_shards shape) (es_payload_parity_shards shape)
               QuorumMutationClass.DeleteMarker;
  ensure (bool_decide (qr_read_quorum payload ≤ remaining_shards)%N
          && bool_decide (qr_write_quorum payload ≤ remaining_shards)%N
          && bool_decide (qr_write_quorum metadata ≤ remaining_shards)%N)
    ("removing " +:+ dec unavailable_volumes +:+ " volume(s) leaves " +:+ dec remaining_shards
     +:+ " shards, below the read/write availability boundary (payload read "
     +:+ dec (qr_read_quorum payload) +:+ ", payload write " +:+ dec (qr_write_quorum payload)
     +:+ ", metadata write " +:+ dec (qr_write_quorum metadata) +:+ ")").

(** ** Volume boundaries *)
Definition requirements (class : QuorumCaseClass.t) (shape : ErasureSetShape)
    : Result QuorumRequirements :=
  match class with
  | QuorumCaseClass.Payload => payload_quorum shape
  | QuorumCaseClass.Metadata =>
      for_persisted_version (es_total_shards shape) (es_payload_parity_shards shape)
        PersistedVersionClass.DeleteMarker
  end.

Record QuorumVolumeBoundary := mkQuorumVolumeBoundary {
  qb_class : QuorumCaseClass.t;
  qb_beyond_read_tolerance : bool;
}.
Definition target_count (boundary : QuorumVolumeBoundary) (shape : ErasureSetShape) : Result N :=
  requirements ← requirements (qb_class boundary) shape;
  target_count ← context (checked_add32 (qr_read_tolerance requirements)
                            (if qb_beyond_read_tolerance boundary then 1 else 0)%N)
    "quorum volume target count overflow";
  _ ← ensure (bool_decide (0 < target_count)%N && bool_decide (target_count < es_total_shards shape)%N)
        ("quorum volume target count " +:+ dec target_count +:+ " must leave at least one shard online");
  ok target_count.
Definition unavailable_mutations (boundary : QuorumVolumeBoundary) (shape : ErasureSetShape)
    : Result (list QuorumMutationClass.t) :=
  _ ← validate_shape shape;
  targets ← target_count boundary shape;
  remaining_shards ← sub_u32 (es_total_shards shape) targets;
  try_fold (λ unavailable mutation,
    requirements ← for_mutation (es_total_shards shape) (es_payload_parity_shards shape) mutation;
    ok (if bool_decide (remaining_shards < qr_write_quorum requirements)%N
        then unavailable ++ [mutation] else unavailable))
    [] [QuorumMutationClass.PutObject; QuorumMutationClass.DeleteMarker;
        QuorumMutationClass.MultipartComplete].

(** ** Health and membership *)
Record ErasureSetHealth := mkErasureSetHealth {
  eh_online_shards : N;
  eh_offline_shards : N;
  eh_unknown_shards : N;
}.
Definition require_all_online (health : ErasureSetHealth) (total_shards : N) : Result unit :=
  observed_shards ← context (count ← checked_add32 (eh_online_shards health) (eh_offline_shards health);
                             checked_add32 count (eh_unknown_shards health))
    "runtime drive-health count overflow";
  _ ← ensure (bool_decide (observed_shards = total_shards))
        ("runtime drive health covers " +:+ dec observed_shards +:+ " shards, expected "
         +:+ dec total_shards);
  ensure (bool_decide (eh_online_shards health = total_shards)
          && bool_decide (eh_offline_shards health = 0%N)
          && bool_decide (eh_unknown_shards health = 0%N))
    ("runtime erasure set must be fully online before injection: online="
     +:+ dec (eh_online_shards health) +:+ " offline=" +:+ dec (eh_offline_shards health)
     +:+ " unknown=" +:+ dec (eh_unknown_shards health) +:+ " total=" +:+ dec total_shards).
Definition health_from_runtime (total_shards online_shards offline_shards unknown_shards : N)
    : Result ErasureSetHealth :=
  online ← try_from_max u32_max online_shards;
  offline ← try_from_max u32_max offline_shards;
  unknown ← try_from_max u32_max unknown_shards;
  let health := mkErasureSetHealth online offline unknown in
  _ ← require_all_online health total_shards;
  ok health.

Record ErasureSetMember := mkErasureSetMember {
  em_pod_name : string;
  em_server_endpoint : string;
  em_shard_ids : list string;
}.
Definition ErasureSetMembership := list ErasureSetMember.

(** [!value.trim().is_empty()] of all values, and their set as large as the list. *)
Definition unique_nonempty (values : list string) : bool :=
  bool_decide (size (to_set values) = length values)
  && forallb (λ value, negb (trim_is_empty value)) values.

Definition shard_step (shard_ids : gset string) (shard_id : string) : Result (gset string) :=
  _ ← ensure (negb (trim_is_empty shard_id) && bool_decide (shard_id ∉ shard_ids))
        "erasure-set membership contains an empty or duplicate shard id";
  ok ({[shard_id]} ∪ shard_ids).
Definition member_step (shape : ErasureSetShape) (shard_ids : gset string) (member : ErasureSetMember)
    : Result (gset string) :=
  _ ← ensure (bool_decide (len (em_shard_ids member) = es_volumes_per_server shape))
        ("Pod " +:+ str_debug (em_pod_name member) +:+ " owns " +:+ dec (len (em_shard_ids member))
         +:+ " runtime shards, expected " +:+ dec (es_volumes_per_server shape));
  try_fold shard_step shard_ids (em_shard_ids member).
Definition validate_membership (members : ErasureSetMembership) (shape : ErasureSetShape)
    : Result unit :=
  _ ← ensure (bool_decide (len members = es_server_count shape))
        "erasure-set membership server count does not match the runtime shape";
  _ ← ensure (unique_nonempty (em_pod_name <$> members))
        "erasure-set membership requires unique non-empty Pod names";
  _ ← ensure (unique_nonempty (em_server_endpoint <$> members))
        "erasure-set membership requires unique non-empty server endpoints";
  shard_ids ← try_fold (member_step shape) ∅ members;
  ensure (bool_decide (N.of_nat (size shard_ids) = es_total_shards shape))
    "erasure-set membership shard count does not match the runtime shape".
Definition membership_from_runtime (shape : ErasureSetShape) (members : list ErasureSetMember)
    : Result ErasureSetMembership :=
  let members := sort_by_key em_pod_name members in
  _ ← validate_membership members shape;
  ok members.

Definition require_selected_boundary (members : ErasureSetMembership) (shape : ErasureSetShape)
    (selected_pods : gset string) : Result unit :=
  _ ← validate_membership members shape;
  _ ← ensure (negb (bool_decide (selected_pods = ∅))) "selected Pod set must not be empty";
  _ ← ensure (bool_decide (selected_pods ⊆ to_set (em_pod_name <$> members)))
        "selected Pod set contains a server outside the runtime erasure set";
  removed_shards ← try_fold (λ count member,
      shards ← try_from_max u32_max (len (em_shard_ids member));
      context (checked_add32 count shards) "selected shard count overflow") 0%N
    (filter (λ member, em_pod_name member ∈ selected_pods) members);
  require_removed_shard_boundary shape removed_shards.

(** ** Volume targets *)
Record QuorumVolumeBinding := mkQuorumVolumeBinding {
  qv_pod_name : string;
  qv_pod_uid : string;
  qv_container_id : string;
  qv_mount_path : string;
  qv_persistent_volume_claim : string;
  qv_persistent_volume : string;
  qv_drive_uuid : string;
  qv_pool_index : N;
  qv_set_index : N;
}.
Record QuorumVolumeTargetProof := mkQuorumVolumeTargetProof {
  qt_boundary : QuorumVolumeBoundary;
  qt_requirements : QuorumRequirements;
  qt_target_count : N;
  qt_candidates : list QuorumVolumeBinding;
}.

(** [collect] into a [BTreeMap]: the last value of a key stays. *)
Definition collect_map {V} (entries : list (string * V)) : gmap string V :=
  foldl (λ m e, <[e.1 := e.2]> m) ∅ entries.
Definition members_by_pod (members : ErasureSetMembership) : gmap string ErasureSetMember :=
  collect_map ((λ m, (em_pod_name m, m)) <$> members).

Definition unique (values : list string) (label : string) : Result unit :=
  ensure (unique_nonempty values) ("volume quorum proof requires unique non-empty " +:+ label).
Definition validate_binding (shape : ErasureSetShape) (members : ErasureSetMembership)
    (binding : QuorumVolumeBinding) : Result unit :=
  _ ← ensure (bool_decide (qv_pool_index binding = es_pool_index shape)
              && bool_decide (qv_set_index binding = es_set_index shape)
              && negb (trim_is_empty (qv_mount_path binding)))
        ("volume quorum binding for Pod " +:+ str_debug (qv_pod_name binding)
         +:+ " is outside the proven set or has no mount");
  member ← context (members_by_pod members !! qv_pod_name binding)
    ("volume quorum binding Pod " +:+ str_debug (qv_pod_name binding)
     +:+ " is absent from runtime membership");
  ensure (bool_decide (em_shard_ids member = [qv_drive_uuid binding]))
    ("volume quorum binding for Pod " +:+ str_debug (qv_pod_name binding)
     +:+ " does not identify its sole runtime drive UUID").
Definition validate_target (proof : QuorumVolumeTargetProof) (shape : ErasureSetShape)
    (members : ErasureSetMembership) : Result unit :=
  _ ← validate_shape shape;
  _ ← validate_membership members shape;
  _ ← ensure (bool_decide (es_volumes_per_server shape = 1%N)
              && bool_decide (es_server_count shape = es_total_shards shape))
        "volume quorum proof requires exactly one RustFS volume per server";
  expected ← requirements (qb_class (qt_boundary proof)) shape;
  _ ← ensure (bool_decide (qt_requirements proof = expected))
        "volume quorum requirements do not match the typed runtime geometry";
  targets ← target_count (qt_boundary proof) shape;
  _ ← ensure (bool_decide (qt_target_count proof = targets))
        "volume quorum target count does not match the runtime geometry";
  _ ← ensure (bool_decide (len (qt_candidates proof) = es_total_shards shape))
        "volume quorum proof must bind every shard candidate";
  _ ← unique (qv_pod_name <$> qt_candidates proof) "Pod names";
  _ ← unique (qv_pod_uid <$> qt_candidates proof) "Pod UIDs";
  _ ← unique (qv_container_id <$> qt_candidates proof) "container IDs";
  _ ← unique (qv_persistent_volume_claim <$> qt_candidates proof) "PVC names";
  _ ← unique (qv_persistent_volume <$> qt_candidates proof) "PV names";
  _ ← unique (qv_drive_uuid <$> qt_candidates proof) "drive UUIDs";
  try_fold (λ _ binding, validate_binding shape members binding) tt (qt_candidates proof).
Definition target_from_runtime (shape : ErasureSetShape) (members : ErasureSetMembership)
    (boundary : QuorumVolumeBoundary) (candidates : list QuorumVolumeBinding)
    : Result QuorumVolumeTargetProof :=
  let candidates := sort_by_key qv_pod_name candidates in
  required ← requirements (qb_class boundary) shape;
  targets ← target_count boundary shape;
  let proof := mkQuorumVolumeTargetProof boundary required targets candidates in
  _ ← validate_target proof shape members;
  ok proof.

(** ** Health during the fault *)
Record QuorumDriveHealth := mkQuorumDriveHealth {
  qd_pod_name : string;
  qd_server_endpoint : string;
  qd_drive_uuid : string;
  qd_state : string;
  qd_pool_index : Z;
  qd_set_index : Z;
}.
Record QuorumHealthObservation := mkQuorumHealthObservation {
  qo_started_at_ms : N;
  qo_completed_at_ms : N;
  qo_deployment_id : string;
  qo_shape : ErasureSetShape;
  qo_drives : list QuorumDriveHealth;
}.
Definition drive_step (observed : gmap string QuorumDriveHealth) (drive : QuorumDriveHealth)
    : Result (gmap string QuorumDriveHealth) :=
  _ ← ensure (negb (trim_is_empty (qd_pod_name drive)) && negb (trim_is_empty (qd_server_endpoint drive))
              && negb (trim_is_empty (qd_drive_uuid drive)) && negb (trim_is_empty (qd_state drive))
              && bool_decide (observed !! qd_pod_name drive = None))
        "quorum health observation contains an empty or duplicate drive identity";
  ok (<[qd_pod_name drive := drive]> observed).
(** The conversions are only reached when what precedes them holds. *)
Definition same_drive (shape : ErasureSetShape) (member : ErasureSetMember)
    (candidate : QuorumVolumeBinding) (drive : QuorumDriveHealth) : Result bool :=
  if bool_decide (em_shard_ids member = [qv_drive_uuid candidate])
     && bool_decide (qd_server_endpoint drive = em_server_endpoint member)
     && bool_decide (qd_drive_uuid drive = qv_drive_uuid candidate)
  then
    pool_index ← try_from_max i32_max (es_pool_index shape);
    if bool_decide (qd_pool_index drive = Z.of_N pool_index)
    then set_index ← try_from_max i32_max (es_set_index shape);
         ok (bool_decide (qd_set_index drive = Z.of_N set_index))
    else ok false
  else ok false.
Definition check_drive (shape : ErasureSetShape) (members : gmap string ErasureSetMember)
    (observed : gmap string QuorumDriveHealth) (selected_pods : gset string)
    (e : string * QuorumVolumeBinding) : Result unit :=
  let '(pod_name, candidate) := e in
  member ← context (members !! pod_name)
    ("quorum health candidate Pod " +:+ str_debug pod_name +:+ " has no membership row");
  drive ← context (observed !! pod_name)
    ("quorum health observation omitted Pod " +:+ str_debug pod_name);
  same ← same_drive shape member candidate drive;
  _ ← ensure same ("quorum health observation identity for Pod " +:+ str_debug pod_name +:+ " changed");
  if bool_decide (pod_name ∈ selected_pods) then ok tt
  else ensure (bool_decide (qd_state drive = "ok"))
         ("non-target quorum drive " +:+ str_debug (qd_drive_uuid drive) +:+ " for Pod "
          +:+ str_debug pod_name +:+ " is not healthy: " +:+ str_debug (qd_state drive)).
Definition validate_health (o : QuorumHealthObservation) (deployment_id : string)
    (shape : ErasureSetShape) (members : ErasureSetMembership) (target : QuorumVolumeTargetProof)
    (selected_pods : gset string) : Result unit :=
  _ ← ensure (bool_decide (0 < qo_started_at_ms o)%N
              && bool_decide (qo_started_at_ms o ≤ qo_completed_at_ms o)%N)
        "quorum health observation has an invalid request interval";
  _ ← ensure (negb (trim_is_empty deployment_id) && bool_decide (qo_deployment_id o = deployment_id))
        "quorum health observation deployment identity changed";
  _ ← ensure (bool_decide (qo_shape o = shape)) "quorum health observation erasure geometry changed";
  _ ← validate_target target shape members;
  _ ← ensure (bool_decide (N.of_nat (size selected_pods) = qt_target_count target)
              && forallb (λ pod, bool_decide (pod ∈ qv_pod_name <$> qt_candidates target))
                   (set_elems selected_pods))
        "quorum health observation selected Pods do not match the exact target boundary";
  let candidates := collect_map ((λ c, (qv_pod_name c, c)) <$> qt_candidates target) in
  let members := members_by_pod members in
  observed ← try_fold drive_step ∅ (qo_drives o);
  _ ← ensure (bool_decide (size observed = size candidates))
        "quorum health observation does not cover every proven drive candidate";
  try_fold (λ _ e, check_drive shape members observed selected_pods e) tt (map_entries candidates).
Definition require_within (o : QuorumHealthObservation) (window_start_ms window_end_ms : N)
    : Result unit :=
  ensure (bool_decide (window_start_ms ≤ window_end_ms)%N
          && bool_decide (window_start_ms ≤ qo_started_at_ms o)%N
          && bool_decide (qo_completed_at_ms o ≤ window_end_ms)%N)
    "quorum health observation is outside its bounded fault window".

(** ** Two volumes of one Pod *)
Definition ascii_alphanumeric (c : ascii) : bool :=
  let n := N_of_ascii c in
  bool_decide (48 ≤ n ∧ n ≤ 57)%N || bool_decide (65 ≤ n ∧ n ≤ 90)%N || bool_decide (97 ≤ n ∧ n ≤ 122)%N.
Definition validate_rustfs_volume_path (value : string) : Result unit :=
  _ ← ensure (starts_with "/" value && negb (bool_decide (value = "/")))
        "RUSTFS_FAULT_TEST_RUSTFS_VOLUME_PATH must be an absolute non-root path";
  _ ← ensure (forallb (λ c, negb (bool_decide (c = "010"%char)) && negb (bool_decide (c = "013"%char)))
                (String.list_ascii_of_string value))
        "RUSTFS_FAULT_TEST_RUSTFS_VOLUME_PATH must not contain newlines";
  ensure (forallb (λ c, ascii_alphanumeric c || bool_decide (c ∈ String.list_ascii_of_string "/._-"))
            (String.list_ascii_of_string value))
    "RUSTFS_FAULT_TEST_RUSTFS_VOLUME_PATH must contain only ASCII letters, digits, '/', '.', '_', or '-'".

Definition assess_same_pod_two_volume_geometry (volumes_per_server distinct_data_mounts_on_pod : N)
    (shared_erasure_set : option bool) : Result unit :=
  _ ← ensure (bool_decide (2 ≤ volumes_per_server)%N)
        ("same-pod two-volume fault fail-closed: tenant volumesPerServer is "
         +:+ dec volumes_per_server +:+ "; two volumes on one Pod are impossible");
  _ ← ensure (bool_decide (2 ≤ distinct_data_mounts_on_pod)%N)
        ("same-pod two-volume fault fail-closed: selected Pod exposes "
         +:+ dec distinct_data_mounts_on_pod +:+ " data mounts");
  match shared_erasure_set with
  | Some true => ok tt
  | Some false =>
      err "same-pod two-volume fault fail-closed: the two volumes are not in one erasure set"
  | None => err ("same-pod two-volume fault fail-closed: drive-to-volume binding cannot prove the two "
                 +:+ "mounts share an erasure set")
  end.

(** The array of two bindings is a pair. *)
Record SamePodVolumeTargetProof := mkSamePodVolumeTargetProof {
  sp_bindings : QuorumVolumeBinding * QuorumVolumeBinding;
  sp_runtime_drive_paths : gmap string string;
}.
Definition validate_same_pod_binding (shape : ErasureSetShape) (member : ErasureSetMember)
    (runtime_drive_paths : gmap string string) (binding : QuorumVolumeBinding) : Result unit :=
  _ ← ensure (bool_decide (qv_pool_index binding = es_pool_index shape)
              && bool_decide (qv_set_index binding = es_set_index shape)
              && bool_decide (qv_drive_uuid binding ∈ em_shard_ids member)
              && bool_decide (runtime_drive_paths !! qv_drive_uuid binding = Some (qv_mount_path binding))
              && bool_decide (qv_pod_uid binding ≠ "") && bool_decide (qv_container_id binding ≠ "")
              && bool_decide (qv_persistent_volume_claim binding ≠ "")
              && bool_decide (qv_persistent_volume binding ≠ ""))
        "same-Pod volume binding does not match its authenticated runtime drive path/set";
  validate_rustfs_volume_path (qv_mount_path binding).
Definition validate_same_pod (proof : SamePodVolumeTargetProof) (shape : ErasureSetShape)
    (members : ErasureSetMembership) : Result unit :=
  _ ← validate_shape shape;
  _ ← validate_membership members shape;
  _ ← require_volume_availability_boundary shape 2;
  _ ← assess_same_pod_two_volume_geometry (es_volumes_per_server shape) 2 (Some true);
  let '(first, second) := sp_bindings proof in
  _ ← ensure (bool_decide (qv_pod_name first = qv_pod_name second)
              && bool_decide (qv_pod_uid first = qv_pod_uid second)
              && bool_decide (qv_container_id first = qv_container_id second)
              && bool_decide (qv_mount_path first ≠ qv_mount_path second)
              && bool_decide (qv_persistent_volume_claim first ≠ qv_persistent_volume_claim second)
              && bool_decide (qv_persistent_volume first ≠ qv_persistent_volume second)
              && bool_decide (qv_drive_uuid first ≠ qv_drive_uuid second))
        "same-Pod EIO must bind two distinct volumes on one Pod/container generation";
  member ← context (head (filter (λ m, em_pod_name m = qv_pod_name first) members))
    "same-Pod volume target is absent from runtime membership";
  _ ← ensure (bool_decide (size (sp_runtime_drive_paths proof) = 2))
        "same-Pod proof must name exactly two runtime drive paths";
  try_fold (λ _ binding, validate_same_pod_binding shape member (sp_runtime_drive_paths proof) binding)
    tt [first; second].
