(* ===== verification/QuorumFacts.v ===== *)
(** What the quorum model promises: quorums overlap and tolerances are exact, the
    volume and partition boundaries leave reads and take writes exactly as they
    claim, and validated health observations leave the shards a boundary needs. *)
From S2P Require Import Prelude Ordering RustText Quorum.
From stdpp Require Import options.

(** ** The arithmetic *)

(** The requirements of [p] parity shards out of [t]. *)
Definition quorum_of (t p : N) : QuorumRequirements :=
  let data := (t - p)%N in
  let write := (if decide (data = p) then data + 1 else data)%N in
  mkQuorumRequirements t data p data write p (t - write).
Definition geometry (t p : N) : Prop := (2 ≤ t ∧ t ≤ MAX_ERASURE_SET_SHARDS ∧ p ≤ t / 2)%N.

Lemma half_twice t : (2 * (t / 2) ≤ t)%N.
Proof. apply N.Div0.mul_div_le. Qed.
Lemma half_meta t : (t < 2 * (t / 2) + 2)%N.
Proof.
  pose proof (N.mul_succ_div_gt t 2). rewrite N.mul_succ_r in *. auto.
Qed.

Lemma u32_max_eq : u32_max = 4294967295%N.
Proof. reflexivity. Qed.
Lemma checked_sub_le a b : (b ≤ a)%N → checked_sub a b = Some (a - b)%N.
Proof. intros. unfold checked_sub. by rewrite decide_True. Qed.
Lemma checked_sub_Some a b c : checked_sub a b = Some c ↔ (b ≤ a ∧ c = a - b)%N.
Proof. unfold checked_sub. case_decide; naive_solver. Qed.
Lemma checked_add32_Some a b c : checked_add32 a b = Some c ↔ (c = a + b ∧ a + b ≤ u32_max)%N.
Proof. unfold checked_add32. case_decide; naive_solver. Qed.
Lemma checked_mul32_Some a b c : checked_mul32 a b = Some c ↔ (c = a * b ∧ a * b ≤ u32_max)%N.
Proof. unfold checked_mul32. case_decide; naive_solver. Qed.

Lemma from_geometry_ok t p : geometry t p → from_geometry t p = ok (quorum_of t p).
Proof.
  intros (H2 & H16 & Hp). unfold MAX_ERASURE_SET_SHARDS in H16. pose proof (half_twice t) as Hh.
  unfold from_geometry, sub_u32, quorum_of. rewrite (checked_sub_le t p) by lia. run_result.
  assert ((if bool_decide ((t - p)%N = p) then add_u32 (t - p) 1 else ok (t - p)%N)
    = ok (if decide ((t - p)%N = p) then t - p + 1 else t - p)%N) as ->.
  { case_bool_decide; [rewrite decide_True by done|by rewrite decide_False].
    unfold add_u32. rewrite (proj2 (checked_add32_Some (t - p) 1 (t - p + 1))); [done|]. rewrite u32_max_eq. lia. }
  run_result. rewrite (checked_sub_le t (t - p)) by lia. run_result.
  rewrite checked_sub_le by (case_decide; lia). run_result.
  assert (t - (t - p) = p)%N as -> by lia. done.
Qed.

Lemma payload_ok t p q : payload t p = ok q ↔ geometry t p ∧ q = quorum_of t p.
Proof.
  unfold payload, ensure_set_size. rewrite !bind_ensure_ok, andb_true_iff, !bool_decide_eq_true. split.
  - intros ([H1 H2] & H3 & H). rewrite from_geometry_ok in H by done. by injection H as <-.
  - intros [(H1 & H2 & H3) ->]. split_and!; try done. by apply from_geometry_ok.
Qed.
Lemma metadata_ok t q : metadata t = ok q ↔ geometry t (t / 2) ∧ q = quorum_of t (t / 2).
Proof.
  unfold metadata, ensure_set_size. rewrite !bind_ensure_ok, andb_true_iff, !bool_decide_eq_true. split.
  - intros ([H1 H2] & H). assert (geometry t (t / 2)) as Hg by (unfold geometry; lia).
    rewrite from_geometry_ok in H by done. by injection H as <-.
  - intros [Hg ->]. pose proof Hg as (H1 & H2 & _). split; [done|]. by apply from_geometry_ok.
Qed.

(** The parity an operation of the class is written with. *)
Definition mutation_parity (t p : N) (class : QuorumMutationClass.t) : N :=
  match class with QuorumMutationClass.DeleteMarker => t / 2 | _ => p end%N.
Definition case_parity (shape : ErasureSetShape) (class : QuorumCaseClass.t) : N :=
  match class with
  | QuorumCaseClass.Payload => es_payload_parity_shards shape
  | QuorumCaseClass.Metadata => es_total_shards shape / 2
  end%N.

Lemma for_mutation_ok t p class q :
  for_mutation t p class = ok q ↔
  geometry t (mutation_parity t p class) ∧ q = quorum_of t (mutation_parity t p class).
Proof. destruct class; first [apply payload_ok|apply metadata_ok]. Qed.
Lemma requirements_ok class shape q :
  requirements class shape = ok q ↔
  geometry (es_total_shards shape) (case_parity shape class) ∧
  q = quorum_of (es_total_shards shape) (case_parity shape class).
Proof. destruct class; first [apply payload_ok|apply metadata_ok]. Qed.

Lemma quorum_bounds t p : geometry t p →
  let q := quorum_of t p in
  (t < 2 * qr_write_quorum q ∧ t < qr_read_quorum q + qr_write_quorum q ∧
   0 < qr_read_quorum q ∧ qr_read_quorum q ≤ qr_write_quorum q ∧ qr_write_quorum q ≤ t ∧
   qr_read_tolerance q + qr_read_quorum q = t ∧ qr_write_tolerance q + qr_write_quorum q = t)%N.
Proof.
  intros (H2 & _ & Hp) q. pose proof (half_twice t). subst q. unfold quorum_of. simpl. case_decide; lia.
Qed.

(** ** Quorums *)
Lemma size_difference_subset (F S : gset string) : F ⊆ S → size (S ∖ F) = size S - size F.
Proof. intros. rewrite size_difference by done. done. Qed.
Lemma sets_overlap (S A B : gset string) :
  A ⊆ S → B ⊆ S → size S < size A + size B → A ∩ B ≠ ∅.
Proof.
  intros HA HB Hs He. assert (A ## B) as Hd by set_solver.
  pose proof (size_union _ _ Hd). assert (size (A ∪ B) ≤ size S); [|lia].
  apply subseteq_size. set_solver.
Qed.

(** For every mutation class and every geometry the model accepts, any two write
    quorums of a set share a shard, so do any read quorum and any write quorum, and the
    tolerances are exact: a quorum survives the loss of a set of shards if and only if
    at most that many are lost. *)
Theorem quorums_overlap t p class q (shards : gset string) :
  for_mutation t p class = ok q → N.of_nat (size shards) = t →
  (∀ W W', W ⊆ shards → W' ⊆ shards → (qr_write_quorum q ≤ N.of_nat (size W))%N →
     (qr_write_quorum q ≤ N.of_nat (size W'))%N → W ∩ W' ≠ ∅) ∧
  (∀ R W, R ⊆ shards → W ⊆ shards → (qr_read_quorum q ≤ N.of_nat (size R))%N →
     (qr_write_quorum q ≤ N.of_nat (size W))%N → R ∩ W ≠ ∅) ∧
  (∀ F, F ⊆ shards →
     ((N.of_nat (size F) ≤ qr_read_tolerance q)%N ↔ (qr_read_quorum q ≤ N.of_nat (size (shards ∖ F)))%N) ∧
     ((N.of_nat (size F) ≤ qr_write_tolerance q)%N ↔ (qr_write_quorum q ≤ N.of_nat (size (shards ∖ F)))%N)).
Proof.
  intros [Hg ->]%for_mutation_ok Ht. pose proof (quorum_bounds _ _ Hg) as Hb. cbn zeta in Hb.
  split_and!.
  - intros W W' H1 H2 H3 H4. apply (sets_overlap shards); [done..|]. lia.
  - intros R W H1 H2 H3 H4. apply (sets_overlap shards); [done..|]. lia.
  - intros F HF. pose proof (subseteq_size _ _ HF). rewrite size_difference_subset by done. lia.
Qed.

(** ** Shapes and volume boundaries *)
Record valid_shape (shape : ErasureSetShape) : Prop := {
  vs_servers : (0 < es_server_count shape)%N;
  vs_volumes : (0 < es_volumes_per_server shape)%N;
  vs_product : (es_server_count shape * es_volumes_per_server shape = es_total_shards shape)%N;
  vs_geometry : geometry (es_total_shards shape) (es_payload_parity_shards shape);
  vs_data : (es_payload_data_shards shape = es_total_shards shape - es_payload_parity_shards shape)%N;
}.

Lemma payload_quorum_ok shape q :
  payload_quorum shape = ok q ↔ geometry (es_total_shards shape) (es_payload_parity_shards shape) ∧
    q = quorum_of (es_total_shards shape) (es_payload_parity_shards shape).
Proof. apply payload_ok. Qed.
Lemma validate_shape_ok shape : validate_shape shape = ok tt ↔ valid_shape shape.
Proof.
  unfold validate_shape. rewrite !bind_ensure_ok, bind_ok, !bool_decide_eq_true, checked_mul32_Some. split.
  - intros (H1 & H2 & [H3 _] & q & [Hg ->]%payload_quorum_ok & H). apply bind_ensure_ok in H as [H4%bool_decide_eq_true _].
    by split.
  - intros [H1 H2 H3 Hg Hd]. split_and!; [done..| |].
    + pose proof Hg as (_ & H16 & _). unfold MAX_ERASURE_SET_SHARDS in H16. rewrite H3, u32_max_eq. lia.
    + eexists. split; [by apply payload_quorum_ok|]. rewrite bind_ensure_ok, ensure_ok, !bool_decide_eq_true. done.
Qed.

Lemma case_geometry shape class :
  valid_shape shape → geometry (es_total_shards shape) (case_parity shape class).
Proof. intros [_ _ _ Hg _]. destruct class; [done|]. destruct Hg as (H1 & H2 & _). unfold geometry. simpl. lia. Qed.
Lemma mutation_geometry shape class :
  valid_shape shape →
  geometry (es_total_shards shape) (mutation_parity (es_total_shards shape) (es_payload_parity_shards shape) class).
Proof. intros [_ _ _ Hg _]. destruct class; try done. destruct Hg as (H1 & H2 & _). unfold geometry. simpl. lia. Qed.

(** How many volumes a boundary takes away. *)
Definition boundary_targets (shape : ErasureSetShape) (b : QuorumVolumeBoundary) : N :=
  case_parity shape (qb_class b) + (if qb_beyond_read_tolerance b then 1 else 0).

Lemma target_count_ok b shape n :
  valid_shape shape →
  target_count b shape = ok n ↔
  n = boundary_targets shape b ∧ (0 < n)%N ∧ (n < es_total_shards shape)%N.
Proof.
  intros Hv. pose proof (case_geometry shape (qb_class b) Hv) as Hg. unfold target_count, boundary_targets.
  rewrite (proj2 (requirements_ok _ _ _) (conj Hg eq_refl)). run_result. rewrite bind_context_ok.
  assert (checked_add32 (qr_read_tolerance (quorum_of (es_total_shards shape) (case_parity shape (qb_class b))))
    (if qb_beyond_read_tolerance b then 1 else 0)
    = Some (case_parity shape (qb_class b) + (if qb_beyond_read_tolerance b then 1 else 0))%N) as ->.
  { apply checked_add32_Some. split; [done|]. destruct Hg as (_ & H16 & Hp). unfold MAX_ERASURE_SET_SHARDS in H16.
    pose proof (half_twice (es_total_shards shape)). rewrite u32_max_eq. simpl. case_match; lia. }
  setoid_rewrite bind_ensure_ok. split.
  - intros (a & [= <-] & [H1%bool_decide_eq_true H2%bool_decide_eq_true]%andb_true_iff & [= <-]). done.
  - intros (-> & H1 & H2). eexists. split; [done|]. by rewrite andb_true_iff, !bool_decide_eq_true.
Qed.

(** The three mutations are judged one by one. *)
Lemma unavailable_mutations_fold shape remaining :
  valid_shape shape → ∃ l,
  try_fold (λ unavailable mutation,
    requirements ← for_mutation (es_total_shards shape) (es_payload_parity_shards shape) mutation;
    ok (if bool_decide (remaining < qr_write_quorum requirements)%N
        then unavailable ++ [mutation] else unavailable))
    [] [QuorumMutationClass.PutObject; QuorumMutationClass.DeleteMarker;
        QuorumMutationClass.MultipartComplete] = ok l ∧
  ∀ m q, for_mutation (es_total_shards shape) (es_payload_parity_shards shape) m = ok q →
    m ∈ l ↔ (remaining < qr_write_quorum q)%N.
Proof.
  intros Hv. assert (∀ m, for_mutation (es_total_shards shape) (es_payload_parity_shards shape) m
    = ok (quorum_of (es_total_shards shape) (mutation_parity (es_total_shards shape) (es_payload_parity_shards shape) m)))
    as Hm by (intros; apply for_mutation_ok; split; [by apply mutation_geometry|done]).
  cbn [try_fold]. rewrite !Hm. run_result. eexists. split; [done|].
  intros m q. rewrite Hm. intros [= <-]. destruct m; repeat case_bool_decide; simpl in *; set_solver.
Qed.

(** The mutation whose versions a case reads back. *)
Definition case_mutation (class : QuorumCaseClass.t) : QuorumMutationClass.t :=
  match class with
  | QuorumCaseClass.Payload => QuorumMutationClass.PutObject
  | QuorumCaseClass.Metadata => QuorumMutationClass.DeleteMarker
  end.

(** C36. On a valid shape a volume boundary takes away some but not all shards and
    leaves exactly the read quorum of its class, or one shard less when it is beyond the
    tolerance; unavailable_mutations then returns without a panic exactly the mutations
    whose write quorum is no longer met, among them the class's own mutation when the
    boundary is beyond the tolerance. *)
Theorem volume_boundary_exact b shape n :
  validate_shape shape = ok tt → target_count b shape = ok n →
  let remaining := (es_total_shards shape - n)%N in
  ∃ q l, requirements (qb_class b) shape = ok q ∧ unavailable_mutations b shape = ok l ∧
    (0 < n ∧ n < es_total_shards shape)%N ∧
    (remaining + (if qb_beyond_read_tolerance b then 1 else 0) = qr_read_quorum q)%N ∧
    (∀ m qm, for_mutation (es_total_shards shape) (es_payload_parity_shards shape) m = ok qm →
       m ∈ l ↔ (remaining < qr_write_quorum qm)%N) ∧
    (qb_beyond_read_tolerance b = true → case_mutation (qb_class b) ∈ l).
Proof.
  intros Hv%validate_shape_ok Hn remaining. pose proof (case_geometry shape (qb_class b) Hv) as Hg.
  pose proof Hn as (Hn1 & H1 & H2)%target_count_ok; [|done].
  destruct (unavailable_mutations_fold shape remaining Hv) as (l & Hl & Hlm).
  eexists _, l. split; [by apply requirements_ok|].
  pose proof (quorum_bounds _ _ Hg) as Hb. cbn zeta in Hb.
  assert (remaining + (if qb_beyond_read_tolerance b then 1 else 0)
    = qr_read_quorum (quorum_of (es_total_shards shape) (case_parity shape (qb_class b))))%N as Hrem.
  { subst remaining. rewrite Hn1 in *. unfold boundary_targets in *. cbn [qr_read_quorum qr_read_tolerance quorum_of] in *.
    case_match; lia. }
  split_and!; try done.
  - unfold unavailable_mutations. rewrite (proj2 (validate_shape_ok shape) Hv). run_result. rewrite Hn. run_result.
    unfold sub_u32. rewrite checked_sub_le by lia. exact Hl.
  - intros Hbeyond. rewrite Hbeyond in Hrem.
    destruct (for_mutation (es_total_shards shape) (es_payload_parity_shards shape) (case_mutation (qb_class b)))
      as [qm|e|] eqn:Hm.
    + apply (Hlm _ qm Hm). apply for_mutation_ok in Hm as [_ ->].
      assert (mutation_parity (es_total_shards shape) (es_payload_parity_shards shape) (case_mutation (qb_class b))
        = case_parity shape (qb_class b)) as -> by (by destruct (qb_class b)). lia.
    + rewrite (proj2 (for_mutation_ok _ _ _ _) (conj (mutation_geometry shape _ Hv) eq_refl)) in Hm. done.
    + rewrite (proj2 (for_mutation_ok _ _ _ _) (conj (mutation_geometry shape _ Hv) eq_refl)) in Hm. done.
Qed.

(** ** Partitions *)
Lemma unique_nonempty_NoDup values : unique_nonempty values = true → NoDup values.
Proof. unfold unique_nonempty. rewrite andb_true_iff, bool_decide_eq_true, to_set_size. tauto. Qed.

Record valid_members (members : ErasureSetMembership) (shape : ErasureSetShape) : Prop := {
  vm_count : len members = es_server_count shape;
  vm_pods : NoDup (em_pod_name <$> members);
  vm_shards : ∀ m, m ∈ members → len (em_shard_ids m) = es_volumes_per_server shape;
}.
Lemma validate_membership_valid members shape :
  validate_membership members shape = ok tt → valid_members members shape.
Proof.
  unfold validate_membership. intros [H1%bool_decide_eq_true H]%bind_ensure_ok.
  apply bind_ensure_ok in H as [H2 H]. apply bind_ensure_ok in H as [_ H]. apply bind_ok in H as (ids & Hf & _).
  split; [done|by apply unique_nonempty_NoDup|]. intros m Hm.
  destruct (try_fold_elem _ _ _ _ _ Hm Hf) as (_ & _ & s1 & s2 & _ & Hs & _).
  by apply bind_ensure_ok in Hs as [?%bool_decide_eq_true _].
Qed.

Lemma selected_count (members : ErasureSetMembership) (selected : gset string) :
  NoDup (em_pod_name <$> members) → selected ⊆ to_set (em_pod_name <$> members) →
  length (filter (λ m, em_pod_name m ∈ selected) members) = size selected.
Proof.
  intros Hp Hsub. assert (selected = to_set (em_pod_name <$> filter (λ m, em_pod_name m ∈ selected) members)) as Heq.
  { apply set_eq. intros pod. rewrite elem_of_to_set, list_elem_of_fmap. split.
    - intros Hpod. pose proof (Hsub _ Hpod) as Hin. rewrite elem_of_to_set, list_elem_of_fmap in Hin.
      destruct Hin as (m & -> & Hm). exists m. by rewrite list_elem_of_filter.
    - by intros (m & -> & [? _]%list_elem_of_filter). }
  rewrite (f_equal size Heq), (proj2 (to_set_size _)), length_fmap; [done|].
  eapply sublist_NoDup; [exact Hp|]. apply fmap_sublist, sublist_filter.
Qed.

Lemma removed_fold v (l : list ErasureSetMember) c :
  (∀ m, m ∈ l → len (em_shard_ids m) = v) → (c + v * len l ≤ u32_max)%N →
  try_fold (λ count member,
      shards ← try_from_max u32_max (len (em_shard_ids member));
      context (checked_add32 count shards) "selected shard count overflow") c l = ok (c + v * len l)%N.
Proof.
  revert c. induction l as [|m l IH]; intros c Hl Hb.
  { simpl. f_equal. unfold len. simpl. lia. }
  assert (len (m :: l) = len l + 1)%N as Hlen by (unfold len; simpl; lia). rewrite Hlen in *.
  assert (try_from_max u32_max v = ok v) as Hfit by (unfold try_from_max; by rewrite decide_True by nia).
  cbn [try_fold]. rewrite (Hl m) by left. rewrite Hfit. run_result.
  rewrite (proj2 (checked_add32_Some c v (c + v))) by (split; [done|nia]). run_result.
  rewrite IH; [f_equal; lia|intros; apply Hl; by right|lia].
Qed.

(** A number of removed shards is at the boundary only when it is half of an
    evenly split set. *)
Lemma removed_boundary_iff shape removed :
  valid_shape shape →
  require_removed_shard_boundary shape removed = ok tt ↔
  (removed = es_payload_parity_shards shape ∧ 2 * removed = es_total_shards shape)%N.
Proof.
  intros [_ _ _ Hg _]. pose proof (quorum_bounds _ _ Hg) as Hb. cbn zeta in Hb.
  unfold require_removed_shard_boundary. rewrite bind_context_ok. setoid_rewrite checked_sub_Some.
  rewrite (proj2 (payload_quorum_ok _ _) (conj Hg eq_refl)). run_result.
  setoid_rewrite ensure_ok. setoid_rewrite andb_true_iff. setoid_rewrite bool_decide_eq_true.
  destruct Hg as (H2 & H16 & Hp). pose proof (half_twice (es_total_shards shape)).
  unfold quorum_of. cbn [qr_read_quorum qr_write_quorum]. split.
  - intros (rem & [Hle ->] & Hr & Hw). case_decide; lia.
  - intros [-> Ht]. eexists. split; [split; [lia|done]|]. case_decide; lia.
Qed.

Lemma selected_at_most (members : ErasureSetMembership) shape selected :
  valid_members members shape → selected ⊆ to_set (em_pod_name <$> members) →
  (N.of_nat (size selected) ≤ es_server_count shape)%N.
Proof.
  intros [Hc Hp _] Hsub%subseteq_size. rewrite (proj2 (to_set_size _) Hp), length_fmap in Hsub.
  rewrite <-Hc. unfold len. lia.
Qed.
Lemma shape_small shape : valid_shape shape → (es_total_shards shape ≤ 16)%N.
Proof. by intros [_ _ _ (_ & ? & _) _]. Qed.

(** The boundary in terms of the selected servers. *)
Definition at_half (shape : ErasureSetShape) (servers : N) : Prop :=
  (servers * es_volumes_per_server shape = es_payload_parity_shards shape ∧
   2 * es_payload_parity_shards shape = es_total_shards shape)%N.

Lemma selected_at_half members shape selected :
  valid_shape shape → validate_membership members shape = ok tt →
  require_selected_boundary members shape selected = ok tt ↔
  selected ≠ ∅ ∧ selected ⊆ to_set (em_pod_name <$> members) ∧ at_half shape (N.of_nat (size selected)).
Proof.
  intros Hv Hm. pose proof (validate_membership_valid _ _ Hm) as Hvm. pose proof Hvm as [_ Hp Hs].
  pose proof (shape_small _ Hv) as H16. pose proof (vs_product _ Hv) as V3.
  unfold require_selected_boundary, at_half. rewrite Hm. run_result.
  rewrite !bind_ensure_ok, negb_true_iff, bool_decide_eq_false, bool_decide_eq_true.
  apply and_iff_compat_l.
  assert (selected ⊆ to_set (em_pod_name <$> members) →
    try_fold (λ count member,
      shards ← try_from_max u32_max (len (em_shard_ids member));
      context (checked_add32 count shards) "selected shard count overflow") 0%N
      (filter (λ member, em_pod_name member ∈ selected) members)
    = ok (es_volumes_per_server shape * N.of_nat (size selected))%N) as Hfold.
  { intros Hsub. pose proof (selected_at_most _ _ _ Hvm Hsub).
    rewrite <-(selected_count members selected Hp Hsub).
    rewrite (removed_fold (es_volumes_per_server shape)); [f_equal; unfold len; lia| |].
    - intros m [_ Hin]%list_elem_of_filter. by apply Hs.
    - unfold len. rewrite (selected_count members selected Hp Hsub), u32_max_eq. nia. }
  split.
  - intros [Hsub H]. rewrite Hfold in H by done. cbn [mbind Result_bind] in H.
    apply removed_boundary_iff in H; [|done]. split; [done|]. lia.
  - intros (Hsub & H1 & H2). split; [done|]. rewrite Hfold by done. cbn [mbind Result_bind].
    apply removed_boundary_iff; [done|]. lia.
Qed.

(** For a validated membership, checking a selection of Pods shard by shard agrees
    with the arithmetic check of the number of servers, and the intended boundary is met
    only when the set is split evenly and the selection holds exactly half of its
    shards. *)
Theorem selected_boundary_iff members shape selected :
  validate_shape shape = ok tt → validate_membership members shape = ok tt →
  (require_selected_boundary members shape selected = ok tt ↔
   selected ⊆ to_set (em_pod_name <$> members) ∧
   require_server_partition_boundary shape (N.of_nat (size selected)) = ok tt) ∧
  (require_selected_boundary members shape selected = ok tt → at_half shape (N.of_nat (size selected))).
Proof.
  intros Hv%validate_shape_ok Hm. pose proof (shape_small _ Hv) as H16. pose proof Hv as [V1 V2 V3 _ _].
  rewrite (selected_at_half members shape selected Hv Hm). split; [|tauto].
  unfold require_server_partition_boundary, at_half.
  rewrite bind_ensure_ok, bind_context_ok, andb_true_iff, !bool_decide_eq_true.
  setoid_rewrite checked_mul32_Some. split.
  - intros (Hne & Hsub & H1 & H2). split; [done|].
    pose proof (selected_at_most _ _ _ (validate_membership_valid _ _ Hm) Hsub).
    assert (size selected ≠ 0) as Hz by (rewrite size_empty_iff; set_solver).
    split; [split; nia|]. eexists. split; [split; [done|rewrite u32_max_eq; nia]|].
    apply removed_boundary_iff; [done|]. lia.
  - intros (Hsub & [H1 H2] & removed & [-> _] & H). apply removed_boundary_iff in H; [|done].
    split_and!; [|done|lia|lia]. intros ->. rewrite size_empty in H1. lia.
Qed.

(** ** Health during the fault *)
Lemma collect_map_lookup {A} (f : A → string) (l : list A) k x :
  NoDup (f <$> l) → collect_map ((λ x, (f x, x)) <$> l) !! k = Some x ↔ x ∈ l ∧ f x = k.
Proof.
  unfold collect_map. induction l as [|y l IH] using rev_ind; intros Hnd.
  { simpl. rewrite lookup_empty, elem_of_nil. naive_solver. }
  rewrite !fmap_app, foldl_app, elem_of_app, list_elem_of_singleton in *. simpl in *.
  apply NoDup_app in Hnd as (Hnd & Hd & _). rewrite lookup_insert_Some, IH by done. split.
  - naive_solver.
  - intros [[Hx| ->] <-]; [|by left]. right. split; [|done]. intros Heq. apply (Hd (f x)).
    + apply list_elem_of_fmap. eauto.
    + rewrite <-Heq. by left.
Qed.

Lemma collect_map_size {A} (f : A → string) (l : list A) :
  NoDup (f <$> l) → size (collect_map ((λ x, (f x, x)) <$> l)) = length l.
Proof.
  intros Hnd. rewrite <-size_dom, <-(length_fmap f), <-(proj2 (to_set_size (f <$> l)) Hnd). f_equal.
  apply set_eq. intros k. rewrite elem_of_dom, elem_of_to_set, list_elem_of_fmap. unfold is_Some.
  setoid_rewrite (collect_map_lookup f); [|done]. naive_solver.
Qed.

Record valid_target (proof : QuorumVolumeTargetProof) (shape : ErasureSetShape)
    (members : ErasureSetMembership) : Prop := {
  vt_shape : valid_shape shape;
  vt_members : valid_members members shape;
  vt_servers : es_server_count shape = es_total_shards shape;
  vt_requirements : requirements (qb_class (qt_boundary proof)) shape = ok (qt_requirements proof);
  vt_count : target_count (qt_boundary proof) shape = ok (qt_target_count proof);
  vt_candidates : len (qt_candidates proof) = es_total_shards shape;
  vt_pods : NoDup (qv_pod_name <$> qt_candidates proof);
  vt_bound : ∀ c, c ∈ qt_candidates proof → ∃ m, m ∈ members ∧ em_pod_name m = qv_pod_name c ∧
    em_shard_ids m = [qv_drive_uuid c];
}.
Lemma validate_target_valid proof shape members :
  validate_target proof shape members = ok tt → valid_target proof shape members.
Proof.
  unfold validate_target, unique. intros [Hs%validate_shape_ok H]%bind_unit_ok.
  apply bind_unit_ok in H as [Hm%validate_membership_valid H].
  apply bind_ensure_ok in H as [[_ Hsv%bool_decide_eq_true]%andb_true_iff H].
  apply bind_ok in H as (q & Hq & H). apply bind_ensure_ok in H as [<-%bool_decide_eq_true H].
  apply bind_ok in H as (n & Hn & H). apply bind_ensure_ok in H as [<-%bool_decide_eq_true H].
  apply bind_ensure_ok in H as [Hc%bool_decide_eq_true H].
  apply bind_ensure_ok in H as [Hpods%unique_nonempty_NoDup H]. do 5 apply bind_ensure_ok in H as [_ H].
  split; try done. intros c Hin. destruct (try_fold_elem _ _ _ _ _ Hin H) as (_ & _ & s1 & s2 & _ & Hb & _).
  unfold validate_binding in Hb. apply bind_ensure_ok in Hb as [_ Hb].
  apply bind_context_ok in Hb as (m & Hmem & Hid). apply ensure_ok, bool_decide_eq_true in Hid.
  apply (collect_map_lookup em_pod_name) in Hmem as [Hm1 Hm2]; [|apply Hm]. by exists m.
Qed.

Lemma drives_collected drives observed :
  try_fold drive_step ∅ drives = ok observed →
  size observed = length drives ∧ ∀ pod d, observed !! pod = Some d → d ∈ drives ∧ qd_pod_name d = pod.
Proof.
  apply (try_fold_invariant _ (λ l (o : gmap string QuorumDriveHealth),
    size o = length l ∧ ∀ pod d, o !! pod = Some d → d ∈ l ∧ qd_pod_name d = pod)).
  { split; [done|]. intros pod d. by rewrite lookup_empty. }
  intros l d o o' [Hs Ho] [Hc [= <-]]%bind_ensure_ok.
  rewrite !andb_true_iff, bool_decide_eq_true in Hc. destruct Hc as [_ Hn]. split.
  - rewrite map_size_insert_None, Hs, length_app by done. simpl. lia.
  - intros pod d' [[<- <-]|[_ Hd]]%lookup_insert_Some; rewrite elem_of_app, list_elem_of_singleton; [by auto|].
    destruct (Ho _ _ Hd). auto.
Qed.

(** Every Pod of the set is a candidate. *)
Lemma candidates_cover proof shape members m :
  valid_target proof shape members → m ∈ members →
  ∃ c, c ∈ qt_candidates proof ∧ qv_pod_name c = em_pod_name m ∧ em_shard_ids m = [qv_drive_uuid c].
Proof.
  intros [_ [Hc Hp _] Hsv _ _ Hn Hpods Hb] Hm.
  assert (to_set (qv_pod_name <$> qt_candidates proof) = to_set (em_pod_name <$> members)) as Heq.
  { apply set_subseteq_size_eq.
    - intros pod. rewrite !elem_of_to_set, !list_elem_of_fmap. intros (c & -> & Hin).
      destruct (Hb c Hin) as (x & Hx & Hpod & _). eauto.
    - rewrite !(proj2 (to_set_size _)), !length_fmap by done. unfold len in *. lia. }
  assert (em_pod_name m ∈ to_set (qv_pod_name <$> qt_candidates proof)) as Hin.
  { rewrite Heq, elem_of_to_set. by apply list_elem_of_fmap_2. }
  rewrite elem_of_to_set, list_elem_of_fmap in Hin. destruct Hin as (c & Hpod & Hin). exists c.
  split_and!; [done..|]. destruct (Hb c Hin) as (x & Hx & Hxp & Hxs).
  assert (x = m) as ->; [|done].
  apply list_elem_of_lookup in Hx as [i Hi], Hm as [j Hj].
  assert (i = j) as ->; [|congruence].
  eapply (NoDup_lookup _ _ _ (em_pod_name m) Hp); rewrite list_lookup_fmap, ?Hi, ?Hj; simpl; congruence.
Qed.

Lemma check_drive_ok shape members observed selected pod candidate :
  check_drive shape members observed selected (pod, candidate) = ok tt →
  ∃ d, observed !! pod = Some d ∧ qd_drive_uuid d = qv_drive_uuid candidate ∧
    (pod ∉ selected → qd_state d = "ok").
Proof.
  unfold check_drive. intros (m & _ & H)%bind_context_ok. apply bind_context_ok in H as (d & Hd & H).
  apply bind_ok in H as (same & Hsame & H). apply bind_ensure_ok in H as [-> H]. exists d. split; [done|].
  split.
  - unfold same_drive in Hsame. destruct (_ && _ && _) eqn:Hc in Hsame; [|done].
    rewrite !andb_true_iff, !bool_decide_eq_true in Hc. tauto.
  - intros Hn. rewrite bool_decide_eq_false_2 in H by done. by apply ensure_ok, bool_decide_eq_true in H.
Qed.

(** The drives of the Pods outside the selection are healthy, so at least as many
    drives are healthy as there are such Pods. *)
Lemma healthy_drives (drives : list QuorumDriveHealth) (pods selected : gset string) :
  selected ⊆ pods →
  (∀ pod, pod ∈ pods → pod ∉ selected → ∃ d, d ∈ drives ∧ qd_pod_name d = pod ∧ qd_state d = "ok") →
  size pods - size selected ≤ length (filter (λ d, qd_state d = "ok") drives).
Proof.
  intros Hsub Hok. rewrite <-size_difference_subset by done.
  assert (pods ∖ selected ⊆ to_set (qd_pod_name <$> filter (λ d, qd_state d = "ok") drives)) as Hin.
  { intros pod [Hp Hs]%elem_of_difference. destruct (Hok pod Hp Hs) as (d & Hd & <- & Hst).
    apply elem_of_to_set, list_elem_of_fmap. exists d. by rewrite list_elem_of_filter. }
  apply subseteq_size in Hin. etrans; [exact Hin|]. rewrite <-(length_fmap qd_pod_name). apply to_set_size_le.
Qed.

(** A validated health observation covers every drive of the set once, selects
    exactly as many Pods of the membership as the boundary takes away, and every drive
    outside the selection is healthy; when the boundary is within the tolerance, at
    least a read quorum of drives is healthy. *)
Theorem health_observation_leaves_quorum o deployment_id shape members target selected :
  validate_health o deployment_id shape members target selected = ok tt →
  let healthy := filter (λ d, qd_state d = "ok") (qo_drives o) in
  len (qo_drives o) = es_total_shards shape ∧
  N.of_nat (size selected) = qt_target_count target ∧ selected ⊆ to_set (em_pod_name <$> members) ∧
  (∀ m, m ∈ members → ∃ d, d ∈ qo_drives o ∧ qd_pod_name d = em_pod_name m ∧
     em_shard_ids m = [qd_drive_uuid d] ∧ (em_pod_name m ∉ selected → qd_state d = "ok")) ∧
  (es_total_shards shape ≤ len healthy + qt_target_count target)%N ∧
  (qb_beyond_read_tolerance (qt_boundary target) = false →
   (qr_read_quorum (qt_requirements target) ≤ len healthy)%N).
Proof.
  intros H healthy. unfold validate_health in H. do 3 apply bind_ensure_ok in H as [_ H].
  apply bind_unit_ok in H as [Ht%validate_target_valid H].
  apply bind_ensure_ok in H as [[Hsel%bool_decide_eq_true Hall]%andb_true_iff H].
  apply bind_ok in H as (observed & Hobs & H). apply drives_collected in Hobs as [Hsize Hdrives].
  apply bind_ensure_ok in H as [Hcover%bool_decide_eq_true H].
  pose proof Ht as [Hv [Hc Hp _] Hsv Hreq Hcount Hn Hpods Hb].
  assert (∀ m, m ∈ members → ∃ d, d ∈ qo_drives o ∧ qd_pod_name d = em_pod_name m ∧
    em_shard_ids m = [qd_drive_uuid d] ∧ (em_pod_name m ∉ selected → qd_state d = "ok")) as Hdrive.
  { intros m Hm. destruct (candidates_cover _ _ _ m Ht Hm) as (c & Hin & Hpod & Hid).
    assert ((em_pod_name m, c) ∈ map_entries (collect_map ((λ c, (qv_pod_name c, c)) <$> qt_candidates target))) as He.
    { apply elem_of_map_entries, (collect_map_lookup qv_pod_name); done. }
    destruct (try_fold_elem _ _ _ _ _ He H) as (_ & _ & [] & [] & _ & Hd & _).
    apply check_drive_ok in Hd as (d & Hd & Hu & Hok). destruct (Hdrives _ _ Hd). exists d.
    by rewrite Hu. }
  assert (selected ⊆ to_set (em_pod_name <$> members)) as Hsub.
  { intros pod Hpod. rewrite forallb_forall in Hall. specialize (Hall pod).
    rewrite bool_decide_eq_true in Hall. rewrite elem_of_to_set, list_elem_of_fmap.
    assert (pod ∈ qv_pod_name <$> qt_candidates target) as (c & -> & Hin)%list_elem_of_fmap.
    { apply Hall, list_elem_of_In. by apply elem_of_set_elems. }
    destruct (Hb c Hin) as (m & Hm & Hmp & _). eauto. }
  assert (es_total_shards shape ≤ len healthy + qt_target_count target)%N as Hhealthy.
  { pose proof (healthy_drives (qo_drives o) (to_set (em_pod_name <$> members)) selected Hsub) as Hh.
    fold healthy in Hh. rewrite (proj2 (to_set_size _) Hp), length_fmap in Hh.
    rewrite <-Hsel, <-Hsv, <-Hc. unfold len. assert (length members - size selected ≤ length healthy); [|lia].
    apply Hh. intros pod Hpod Hns. rewrite elem_of_to_set, list_elem_of_fmap in Hpod.
    destruct Hpod as (m & -> & Hm). destruct (Hdrive m Hm) as (d & ? & ? & _ & Hok). eauto. }
  assert (len (qo_drives o) = es_total_shards shape) as Hlen.
  { rewrite <-Hn. unfold len. by rewrite <-Hsize, Hcover, (collect_map_size qv_pod_name). }
  split_and!; try done. intros Hbeyond.
  apply target_count_ok in Hcount as (Hcnt & H1 & H2); [|done]. unfold boundary_targets in Hcnt.
  rewrite Hbeyond in Hcnt. apply requirements_ok in Hreq as [Hg ->].
  pose proof (quorum_bounds _ _ Hg) as Hq. cbn zeta in Hq. cbn [qr_read_quorum qr_read_tolerance quorum_of] in *. lia.
Qed.

(** Taking away the two volumes of a validated same-Pod proof leaves every mutation
    its quorums. *)
Lemma same_pod_leaves_quorums proof shape members :
  validate_same_pod proof shape members = ok tt →
  let '(first, second) := sp_bindings proof in
  qv_drive_uuid first ≠ qv_drive_uuid second ∧
  (∃ m, m ∈ members ∧ qv_drive_uuid first ∈ em_shard_ids m ∧ qv_drive_uuid second ∈ em_shard_ids m) ∧
  ∀ class q, for_mutation (es_total_shards shape) (es_payload_parity_shards shape) class = ok q →
    (qr_read_quorum q + 2 ≤ es_total_shards shape ∧ qr_write_quorum q + 2 ≤ es_total_shards shape)%N.
Proof.
  unfold validate_same_pod. intros [_ H]%bind_unit_ok. apply bind_unit_ok in H as [_ H].
  apply bind_unit_ok in H as [Havail H]. apply bind_unit_ok in H as [_ H].
  destruct (sp_bindings proof) as [first second]. apply bind_ensure_ok in H as [Hd H].
  rewrite !andb_true_iff, !bool_decide_eq_true in Hd. apply bind_context_ok in H as (m & Hm & H).
  apply bind_ensure_ok in H as [_ H]. split; [tauto|]. split.
  - exists m. assert (m ∈ filter (λ m, em_pod_name m = qv_pod_name first) members) as Hin.
    { apply head_Some_elem_of in Hm. done. }
    apply list_elem_of_filter in Hin as [_ Hin]. split; [done|].
    assert (∀ b, b ∈ [first; second] → qv_drive_uuid b ∈ em_shard_ids m) as Hb; [|split; apply Hb; set_solver].
    intros b Hbin. destruct (try_fold_elem _ _ _ _ _ Hbin H) as (_ & _ & s1 & s2 & _ & Hs & _).
    apply bind_ensure_ok in Hs as [Hs _]. rewrite !andb_true_iff, !bool_decide_eq_true in Hs. tauto.
  - unfold require_volume_availability_boundary in Havail.
    apply bind_unit_ok in Havail as [Hv%validate_shape_ok Ha]. apply bind_ensure_ok in Ha as [_ Ha].
    apply bind_context_ok in Ha as (rem & [Hle ->]%checked_sub_Some & Ha). apply bind_ok in Ha as (pq & Hpq & Ha).
    apply bind_ok in Ha as (mq & Hmq & Ha). apply ensure_ok in Ha.
    rewrite !andb_true_iff, !bool_decide_eq_true in Ha. intros class q Hq.
    pose proof Hq as [Hg Heq]%for_mutation_ok. pose proof (quorum_bounds _ _ Hg) as Hb. cbn zeta in Hb.
    rewrite <-Heq in Hb. unfold payload_quorum in Hpq.
    assert (q = pq ∨ q = mq) as [->| ->]; [|lia..].
    destruct class; [left|left|right]; simpl in *; congruence.
Qed.
