(* ===== verification/ObjectModel.v ===== *)
(** The checker's object model ([src/fault/checker.rs]): what a recorded
    history commits, deletes and leaves ambiguous per key, and the budgeted
    index of write attempts that may explain an uncommitted version. *)
From S2P Require Import Prelude Ordering RustText History.
From stdpp Require Import options.

(** ** Data *)
Record ExpectedObject := mkExpectedObject { eo_sha256 : string; eo_size_bytes : N }.
Global Instance ExpectedObject_eq_dec : EqDecision ExpectedObject.
Proof. solve_decision. Defined.
Global Instance ExpectedObject_countable : Countable ExpectedObject.
Proof.
  apply (inj_countable' (λ o, (eo_sha256 o, eo_size_bytes o))
           (λ p, mkExpectedObject p.1 p.2)).
  by intros [].
Defined.

Record SupersedingMutation := mkSupersedingMutation {
  sm_id : string;
  sm_kind : OperationKind.t;
  sm_started_at_ms : N;
}.
Global Instance SupersedingMutation_eq_dec : EqDecision SupersedingMutation.
Proof. solve_decision. Defined.

Record AmbiguousWriteAttempt := mkAmbiguousWriteAttempt {
  aw_id : string;
  aw_kind : OperationKind.t;
  aw_outcome : OperationOutcome.t;
  aw_object : ExpectedObject;
  aw_payload_ref : option PayloadRef;
  aw_started_at_ms : N;
  aw_ended_at_ms : N;
  aw_ended_sequence : option N;
  aw_superseded_by : option SupersedingMutation;
}.
Global Instance AmbiguousWriteAttempt_eq_dec : EqDecision AmbiguousWriteAttempt.
Proof. solve_decision. Defined.
Global Instance AmbiguousWriteAttempt_eta : Eta AmbiguousWriteAttempt := λ a,
  mkAmbiguousWriteAttempt (aw_id a) (aw_kind a) (aw_outcome a) (aw_object a)
    (aw_payload_ref a) (aw_started_at_ms a) (aw_ended_at_ms a) (aw_ended_sequence a)
    (aw_superseded_by a).

Record VersionWriteSource := mkVersionWriteSource {
  vws_attempt : AmbiguousWriteAttempt;
  vws_remaining_versions : N;
  vws_may_be_latest : bool;
}.
Global Instance VersionWriteSource_eta : Eta VersionWriteSource := λ s,
  mkVersionWriteSource (vws_attempt s) (vws_remaining_versions s) (vws_may_be_latest s).

Record ObjectModel := mkObjectModel {
  om_live : gmap string ExpectedObject;
  om_deleted : gset string;
  om_unknown_writes : gmap string (list AmbiguousWriteAttempt);
  om_version_write_sources : gmap string (list VersionWriteSource);
  om_ambiguous_delete_pending : gset string;
  om_ambiguous_delete_lineage_pending : gset string;
  om_failed_writes : gmap string (gset string);
  om_committed_writes : N;
}.
Global Instance ObjectModel_eta : Eta ObjectModel := λ m,
  mkObjectModel (om_live m) (om_deleted m) (om_unknown_writes m)
    (om_version_write_sources m) (om_ambiguous_delete_pending m)
    (om_ambiguous_delete_lineage_pending m) (om_failed_writes m) (om_committed_writes m).
Definition empty_model : ObjectModel := mkObjectModel ∅ ∅ ∅ ∅ ∅ ∅ ∅ 0.

(** [map.entry(key).or_default().push(x)]. *)
Definition push_entry {A} (key : string) (x : A) (m : gmap string (list A))
    : gmap string (list A) :=
  <[key := default [] (m !! key) ++ [x]]> m.

(** ** Reading a record *)
Definition record_object (r : OperationRecord) : option (string * ExpectedObject) :=
  key ← op_key r;
  sha256 ← op_value_sha256 r;
  size ← op_size_bytes r;
  Some (key, mkExpectedObject sha256 size).

Definition mutation_attempts (r : OperationRecord) : N := default 1%N (op_mutation_attempts r).

Definition version_write_source_budget (r : OperationRecord) : N :=
  let max_attempts := mutation_attempts r in
  match op_kind r, op_outcome r with
  | OperationKind.Put, OperationOutcome.Ok => max_attempts - 1
  | OperationKind.Put, (OperationOutcome.Timeout | OperationOutcome.Unknown) => max_attempts
  | OperationKind.Put, OperationOutcome.Failed => max_attempts - 1
  | OperationKind.CompleteMultipartUpload,
      (OperationOutcome.Timeout | OperationOutcome.Unknown) => max_attempts `min` 1
  | OperationKind.CompleteMultipartUpload,
      (OperationOutcome.Failed | OperationOutcome.NotFound) =>
      if bool_decide (1 < max_attempts)%N then 1 else 0
  | _, _ => 0
  end%N.

Definition completion_precedes_start (ended_sequence : option N) (ended_at_ms : N)
    (started_sequence : option N) (started_at_ms : N) : bool :=
  match ended_sequence, started_sequence with
  | Some ended, Some started => bool_decide (ended < started)%N
  | _, _ => bool_decide (ended_at_ms < started_at_ms)%N
  end.

Definition operation_completed_before_started (completed following : OperationRecord) : bool :=
  completion_precedes_start (op_ended_sequence completed) (op_ended_at_ms completed)
    (op_started_sequence following) (op_started_at_ms following).

(** The attempt a record becomes when its effect is ambiguous. *)
Definition attempt_of (r : OperationRecord) (object : ExpectedObject) : AmbiguousWriteAttempt :=
  mkAmbiguousWriteAttempt (op_id r) (op_kind r) (op_outcome r) object (op_payload_ref r)
    (op_started_at_ms r) (op_ended_at_ms r) (op_ended_sequence r) None.

(** ** Superseding *)
Definition superseding_of (r : OperationRecord) : SupersedingMutation :=
  mkSupersedingMutation (op_id r) (op_kind r) (op_started_at_ms r).

(** The loop body shared by [mark_superseded_attempts] and
    [mark_superseded_version_sources]. *)
Definition mark_attempt (superseding : OperationRecord) (a : AmbiguousWriteAttempt)
    : AmbiguousWriteAttempt :=
  if bool_decide (aw_superseded_by a = None)
     && completion_precedes_start (aw_ended_sequence a) (aw_ended_at_ms a)
          (op_started_sequence superseding) (op_started_at_ms superseding)
  then a <| aw_superseded_by := Some (superseding_of superseding) |>
  else a.

Definition mark_superseded_attempts (superseding : OperationRecord) (key : string)
    (attempts_by_key : gmap string (list AmbiguousWriteAttempt))
    : gmap string (list AmbiguousWriteAttempt) :=
  alter (fmap (mark_attempt superseding)) key attempts_by_key.

Definition mark_superseded_ambiguous_writes (m : ObjectModel) (key : string)
    (superseding : OperationRecord) : ObjectModel :=
  m <| om_unknown_writes ::= mark_superseded_attempts superseding key |>.

Definition mark_source (superseding : OperationRecord) (s : VersionWriteSource)
    : VersionWriteSource :=
  s <| vws_attempt ::= mark_attempt superseding |>.

Definition mark_superseded_version_sources (m : ObjectModel) (key : string)
    (superseding : OperationRecord) : ObjectModel :=
  m <| om_version_write_sources ::= alter (fmap (mark_source superseding)) key |>.

(** ** Building the model *)
Definition may_be_latest (o : OperationOutcome.t) : bool :=
  match o with
  | OperationOutcome.Timeout | OperationOutcome.Unknown
  | OperationOutcome.Failed | OperationOutcome.NotFound => true
  | OperationOutcome.Ok => false
  end.

Definition record_version_write_source (m : ObjectModel) (r : OperationRecord) : ObjectModel :=
  let remaining := version_write_source_budget r in
  if bool_decide (remaining = 0%N) then m else
  match record_object r with
  | None => m
  | Some (key, object) =>
      m <| om_version_write_sources ::=
        push_entry key (mkVersionWriteSource (attempt_of r object) remaining
                          (may_be_latest (op_outcome r))) |>
  end.

(** [Put | CompleteMultipartUpload] with outcome [Ok]. *)
Definition apply_committed_write (m : ObjectModel) (r : OperationRecord) : ObjectModel :=
  let m :=
    match record_object r with
    | None => m
    | Some (key, object) =>
        let m := mark_superseded_ambiguous_writes m key r in
        let m := mark_superseded_version_sources m key r in
        m <| om_committed_writes ::= N.succ |>
          <| om_deleted ::= λ s, s ∖ {[key]} |>
          <| om_ambiguous_delete_pending ::= λ s, s ∖ {[key]} |>
          <| om_ambiguous_delete_lineage_pending ::= λ s, s ∖ {[key]} |>
          <| om_live ::= <[key := object]> |>
    end in
  record_version_write_source m r.

(** [Put | CompleteMultipartUpload] with outcome [Timeout | Unknown]. *)
Definition apply_ambiguous_write (m : ObjectModel) (r : OperationRecord) : ObjectModel :=
  let m :=
    match record_object r with
    | None => m
    | Some (key, object) => m <| om_unknown_writes ::= push_entry key (attempt_of r object) |>
    end in
  record_version_write_source m r.

(** [Put | CompleteMultipartUpload] with outcome [Failed | NotFound]. *)
Definition apply_failed_write (m : ObjectModel) (r : OperationRecord) : ObjectModel :=
  if bool_decide (version_write_source_budget r = 0%N) then m else
  let m :=
    match record_object r with
    | None => m
    | Some (key, object) =>
        let m :=
          if bool_decide (op_kind r = OperationKind.CompleteMultipartUpload)
             || bool_decide (is_Some (om_live m !! key)) || bool_decide (key ∈ om_deleted m)
          then m <| om_unknown_writes ::= push_entry key (attempt_of r object) |>
          else m in
        match op_outcome r, op_value_sha256 r with
        | OperationOutcome.Failed, Some sha256 =>
            m <| om_failed_writes ::= λ f, <[key := default ∅ (f !! key) ∪ {[sha256]}]> f |>
        | _, _ => m
        end
    end in
  record_version_write_source m r.

(** [Delete] with outcome [Ok]. *)
Definition apply_committed_delete (m : ObjectModel) (r : OperationRecord) : ObjectModel :=
  match op_key r with
  | None => m
  | Some key =>
      let m := mark_superseded_ambiguous_writes m key r in
      let m := mark_superseded_version_sources m key r in
      m <| om_ambiguous_delete_pending ::= λ s, s ∖ {[key]} |>
        <| om_ambiguous_delete_lineage_pending ::= λ s, s ∖ {[key]} |>
        <| om_live ::= delete key |>
        <| om_deleted ::= λ s, s ∪ {[key]} |>
  end.

(** A [Delete] that may have taken effect. *)
Definition apply_ambiguous_delete (m : ObjectModel) (r : OperationRecord) : ObjectModel :=
  match op_key r with
  | None => m
  | Some key =>
      let live := bool_decide (is_Some (om_live m !! key)) in
      let m := if live then m <| om_ambiguous_delete_pending ::= λ s, s ∪ {[key]} |> else m in
      if live || bool_decide (key ∈ om_deleted m)
      then m <| om_ambiguous_delete_lineage_pending ::= λ s, s ∪ {[key]} |>
      else m
  end.

Definition never_sent (r : OperationRecord) : bool :=
  bool_decide (op_mutation_attempts r = Some 0%N) &&
  match op_kind r with
  | OperationKind.Put | OperationKind.Delete | OperationKind.CompleteMultipartUpload => true
  | _ => false
  end.

Definition apply_record_to_model (m : ObjectModel) (r : OperationRecord) : ObjectModel :=
  if never_sent r then m else
  match op_kind r with
  | OperationKind.Put | OperationKind.CompleteMultipartUpload =>
      match op_outcome r with
      | OperationOutcome.Ok => apply_committed_write m r
      | OperationOutcome.Timeout | OperationOutcome.Unknown => apply_ambiguous_write m r
      | OperationOutcome.Failed | OperationOutcome.NotFound => apply_failed_write m r
      end
  | OperationKind.Delete =>
      match op_outcome r with
      | OperationOutcome.Ok => apply_committed_delete m r
      | OperationOutcome.Timeout | OperationOutcome.Unknown => apply_ambiguous_delete m r
      | OperationOutcome.Failed =>
          if bool_decide (1 < mutation_attempts r)%N then apply_ambiguous_delete m r else m
      | OperationOutcome.NotFound => m
      end
  | _ => m
  end.

Definition object_model (records : list OperationRecord) : ObjectModel :=
  foldl apply_record_to_model empty_model records.

(** ** The source index *)
Record VersionWriteSourceBucket := mkBucket {
  vwb_sources : list VersionWriteSource;
  vwb_active : list nat;
  vwb_inactive : list nat;
  vwb_all : list nat;
}.
Global Instance VersionWriteSourceBucket_eta : Eta VersionWriteSourceBucket := λ b,
  mkBucket (vwb_sources b) (vwb_active b) (vwb_inactive b) (vwb_all b).
Definition VersionWriteSourceIndex : Type :=
  gmap (string * ExpectedObject) VersionWriteSourceBucket.
Definition empty_bucket : VersionWriteSourceBucket := mkBucket [] [] [] [].

Record VersionWriteMatch := mkVersionWriteMatch {
  vwm_attempt : AmbiguousWriteAttempt;
  vwm_active : bool;
}.

(** [source.may_be_latest && source.attempt.superseded_by.is_none()]. *)
Definition source_active (s : VersionWriteSource) : bool :=
  vws_may_be_latest s && bool_decide (aw_superseded_by (vws_attempt s) = None).

Definition bucket_push (s : VersionWriteSource) (b : VersionWriteSourceBucket)
    : VersionWriteSourceBucket :=
  let i := length (vwb_sources b) in
  mkBucket (vwb_sources b ++ [s])
    (if source_active s then vwb_active b ++ [i] else vwb_active b)
    (if source_active s then vwb_inactive b else vwb_inactive b ++ [i])
    (vwb_all b ++ [i]).

Definition index_push (key : string) (index : VersionWriteSourceIndex) (s : VersionWriteSource)
    : VersionWriteSourceIndex :=
  let k := (key, aw_object (vws_attempt s)) in
  <[k := bucket_push s (default empty_bucket (index !! k))]> index.

Definition from_sources (sources : gmap string (list VersionWriteSource))
    : VersionWriteSourceIndex :=
  foldl (λ index e, foldl (index_push e.1) index e.2) ∅ (map_entries sources).

(** [while let Some(index) = indices.last()]: the vector read from its end. *)
Fixpoint next_available_go (rev_indices : list nat) (sources : list VersionWriteSource)
    : Result (option nat * list nat) :=
  match rev_indices with
  | [] => ok (None, [])
  | i :: rest =>
      s ← expect (sources !! i);
      if bool_decide (0 < vws_remaining_versions s)%N then ok (Some i, rev_indices)
      else next_available_go rest sources
  end.
(** The index found, and the vector after the pops. *)
Definition next_available_source (indices : list nat) (sources : list VersionWriteSource)
    : Result (option nat * list nat) :=
  p ← next_available_go (rev indices) sources;
  ok (p.1, rev p.2).

(** The selection of [take] in a bucket. *)
Definition bucket_select (b : VersionWriteSourceBucket) (is_latest : bool)
    : Result (option nat * VersionWriteSourceBucket) :=
  if is_latest then
    p ← next_available_source (vwb_active b) (vwb_sources b);
    ok (p.1, b <| vwb_active := p.2 |>)
  else
    p ← next_available_source (vwb_inactive b) (vwb_sources b);
    let b := b <| vwb_inactive := p.2 |> in
    match p.1 with
    | Some i => ok (Some i, b)
    | None =>
        q ← next_available_source (vwb_all b) (vwb_sources b);
        ok (q.1, b <| vwb_all := q.2 |>)
    end.

(** [source.remaining_versions -= 1], a panic at zero. *)
Definition consume_version (s : VersionWriteSource) : Result VersionWriteSource :=
  if bool_decide (vws_remaining_versions s = 0%N) then panicked
  else ok (s <| vws_remaining_versions ::= N.pred |>).

Definition take_source (index : VersionWriteSourceIndex) (key : string)
    (actual : ExpectedObject) (is_latest : bool)
    : Result (option VersionWriteMatch * VersionWriteSourceIndex) :=
  match index !! (key, actual) with
  | None => ok (None, index)
  | Some b =>
      p ← bucket_select b is_latest;
      let b := p.2 in
      match p.1 with
      | None => ok (None, <[(key, actual) := b]> index)
      | Some i =>
          s ← expect (vwb_sources b !! i);
          s' ← consume_version s;
          ok (Some (mkVersionWriteMatch (vws_attempt s') (source_active s')),
              <[(key, actual) := b <| vwb_sources ::= <[i := s']> |>]> index)
      end
  end.
