(* ===== verification/ObjectModelFacts.v ===== *)
(** What the object model of a history means: the committed state per key is
    the last committed mutation's, pending deletes are exactly the ambiguous
    ones after it, an ambiguous write is superseded by the first committed
    mutation that starts after it completed, and the source index refines a
    flat list of budgeted attempts. *)
From S2P Require Import Prelude Ordering RustText History ObjectModel.
From stdpp Require Import options.

(** ** The committed state *)

(** The effect a record commits on a key: a value, or its absence. *)
Definition committed_effect (r : OperationRecord) : option (string * option ExpectedObject) :=
  if never_sent r then None else
  match op_outcome r, op_kind r with
  | OperationOutcome.Ok, (OperationKind.Put | OperationKind.CompleteMultipartUpload) =>
      p ← record_object r; Some (p.1, Some p.2)
  | OperationOutcome.Ok, OperationKind.Delete => key ← op_key r; Some (key, None)
  | _, _ => None
  end.
Definition effect_on (key : string) (r : OperationRecord) : option (option ExpectedObject) :=
  p ← committed_effect r; if decide (p.1 = key) then Some p.2 else None.

(** The last committed effect of a history on a key. *)
Definition last_committed (key : string) (records : list OperationRecord)
    : option (option ExpectedObject) :=
  last (omap (effect_on key) records).

(** The key a record may have deleted without a committed answer. *)
Definition ambiguous_delete_of (r : OperationRecord) : option string :=
  if never_sent r then None else
  match op_kind r, op_outcome r with
  | OperationKind.Delete, (OperationOutcome.Timeout | OperationOutcome.Unknown) => op_key r
  | OperationKind.Delete, OperationOutcome.Failed =>
      if bool_decide (1 < mutation_attempts r)%N then op_key r else None
  | _, _ => None
  end.

Lemma object_model_snoc rs r :
  object_model (rs ++ [r]) = apply_record_to_model (object_model rs) r.
Proof. unfold object_model. by rewrite foldl_app. Qed.

(** Recording a write source changes nothing else of the model. *)
Create Rewrite HintDb model_fields.
Lemma source_live m r : om_live (record_version_write_source m r) = om_live m.
Proof. unfold record_version_write_source. repeat case_match; done. Qed.
Lemma source_deleted m r : om_deleted (record_version_write_source m r) = om_deleted m.
Proof. unfold record_version_write_source. repeat case_match; done. Qed.
Lemma source_unknown m r :
  om_unknown_writes (record_version_write_source m r) = om_unknown_writes m.
Proof. unfold record_version_write_source. repeat case_match; done. Qed.
Lemma source_delete_pending m r :
  om_ambiguous_delete_pending (record_version_write_source m r) = om_ambiguous_delete_pending m.
Proof. unfold record_version_write_source. repeat case_match; done. Qed.
Lemma source_lineage_pending m r :
  om_ambiguous_delete_lineage_pending (record_version_write_source m r)
  = om_ambiguous_delete_lineage_pending m.
Proof. unfold record_version_write_source. repeat case_match; done. Qed.
Lemma source_committed m r :
  om_committed_writes (record_version_write_source m r) = om_committed_writes m.
Proof. unfold record_version_write_source. repeat case_match; done. Qed.
#[export] Hint Rewrite source_live source_deleted source_unknown source_delete_pending
  source_lineage_pending source_committed : model_fields.

(** Splits the branches of the record handler and of a specification of it. *)
Ltac cases_of_record r :=
  destruct (never_sent r) eqn:?; [|destruct (op_kind r) eqn:?, (op_outcome r) eqn:?].
Ltac model_field m r :=
  unfold apply_record_to_model, committed_effect, ambiguous_delete_of, apply_committed_write,
    apply_ambiguous_write, apply_failed_write, apply_committed_delete, apply_ambiguous_delete;
  cases_of_record r; try done;
  destruct (record_object r) as [[??]|] eqn:?; destruct (op_key r) eqn:?;
  repeat case_match; simplify_eq/=; autorewrite with model_fields; try done.

Lemma apply_record_live m r :
  om_live (apply_record_to_model m r) =
  match committed_effect r with
  | Some (key, Some object) => <[key := object]> (om_live m)
  | Some (key, None) => delete key (om_live m)
  | None => om_live m
  end.
Proof. model_field m r. Qed.

Lemma apply_record_deleted m r :
  om_deleted (apply_record_to_model m r) =
  match committed_effect r with
  | Some (key, Some _) => om_deleted m ∖ {[key]}
  | Some (key, None) => om_deleted m ∪ {[key]}
  | None => om_deleted m
  end.
Proof. model_field m r. Qed.

Lemma apply_record_committed m r :
  om_committed_writes (apply_record_to_model m r) =
  match committed_effect r with
  | Some (_, Some _) => N.succ (om_committed_writes m)
  | _ => om_committed_writes m
  end.
Proof. model_field m r. Qed.

Lemma apply_record_delete_pending m r :
  om_ambiguous_delete_pending (apply_record_to_model m r) =
  match committed_effect r, ambiguous_delete_of r with
  | Some (key, _), _ => om_ambiguous_delete_pending m ∖ {[key]}
  | None, Some key =>
      if bool_decide (is_Some (om_live m !! key))
      then om_ambiguous_delete_pending m ∪ {[key]} else om_ambiguous_delete_pending m
  | None, None => om_ambiguous_delete_pending m
  end.
Proof. model_field m r. Qed.

Lemma apply_record_lineage_pending m r :
  om_ambiguous_delete_lineage_pending (apply_record_to_model m r) =
  match committed_effect r, ambiguous_delete_of r with
  | Some (key, _), _ => om_ambiguous_delete_lineage_pending m ∖ {[key]}
  | None, Some key =>
      if bool_decide (is_Some (om_live m !! key)) || bool_decide (key ∈ om_deleted m)
      then om_ambiguous_delete_lineage_pending m ∪ {[key]}
      else om_ambiguous_delete_lineage_pending m
  | None, None => om_ambiguous_delete_lineage_pending m
  end.
Proof. model_field m r. Qed.

Lemma last_committed_snoc key rs r :
  last_committed key (rs ++ [r]) =
  match effect_on key r with Some e => Some e | None => last_committed key rs end.
Proof.
  unfold last_committed. rewrite omap_app, last_app. simpl.
  by destruct (effect_on key r).
Qed.

(** How one record moves the last committed effect. *)
Lemma effect_on_cases key r :
  (committed_effect r = None ∧ effect_on key r = None) ∨
  (∃ k e, committed_effect r = Some (k, e) ∧ k ≠ key ∧ effect_on key r = None) ∨
  (∃ e, committed_effect r = Some (key, e) ∧ effect_on key r = Some e).
Proof.
  unfold effect_on. destruct (committed_effect r) as [[k e]|]; simpl; [|auto].
  case_decide; subst; eauto 10.
Qed.

Lemma model_live rs key : om_live (object_model rs) !! key = mjoin (last_committed key rs).
Proof.
  induction rs as [|r rs IH] using rev_ind; [done|].
  rewrite object_model_snoc, apply_record_live, last_committed_snoc.
  destruct (effect_on_cases key r) as [[-> ->]|[(k & e & -> & ? & ->)|(e & -> & ->)]]; [done|..].
  - destruct e; by simplify_map_eq.
  - destruct e; by simplify_map_eq.
Qed.

Lemma model_deleted rs key :
  key ∈ om_deleted (object_model rs) ↔ last_committed key rs = Some None.
Proof.
  induction rs as [|r rs IH] using rev_ind; [done|].
  rewrite object_model_snoc, apply_record_deleted, last_committed_snoc.
  destruct (effect_on_cases key r) as [[-> ->]|[(k & e & -> & ? & ->)|(e & -> & ->)]]; [done|..].
  - destruct e; set_solver.
  - destruct e; set_solver.
Qed.

Definition commits_write (r : OperationRecord) : bool :=
  match committed_effect r with Some (_, Some _) => true | _ => false end.

Lemma model_committed_writes rs :
  om_committed_writes (object_model rs) = len (filter commits_write rs).
Proof.
  induction rs as [|r rs IH] using rev_ind; [done|].
  rewrite object_model_snoc, apply_record_committed, filter_app, len_app, IH.
  assert (len (filter commits_write [r]) = if commits_write r then 1%N else 0%N) as ->.
  { rewrite filter_cons. by destruct (commits_write r). }
  destruct (commits_write r) eqn:E; unfold commits_write in E;
    destruct (committed_effect r) as [[k [o|]]|]; simplify_eq; lia.
Qed.

(** C29. The live value, the deleted mark and the committed-write count of object_model
    are exactly those of the last committed mutation of the key in the history: a write
    makes its value live, a delete removes it, anything else changes nothing. *)
Theorem committed_state_is_last_mutation rs key :
  om_live (object_model rs) !! key = mjoin (last_committed key rs) ∧
  (key ∈ om_deleted (object_model rs) ↔ last_committed key rs = Some None) ∧
  om_committed_writes (object_model rs) = len (filter commits_write rs).
Proof. auto using model_live, model_deleted, model_committed_writes. Qed.

(** An ambiguous delete of [key], issued when the committed state satisfied
    [P], that no committed mutation of [key] has followed. *)
Definition delete_pending_since (P : option (option ExpectedObject) → Prop) (key : string)
    (rs : list OperationRecord) : Prop :=
  ∃ pre r post, rs = pre ++ r :: post ∧ ambiguous_delete_of r = Some key ∧
    P (last_committed key pre) ∧ Forall (λ x, effect_on key x = None) post.

Lemma delete_pending_snoc P key rs r :
  delete_pending_since P key (rs ++ [r]) ↔
  (effect_on key r = None ∧ delete_pending_since P key rs) ∨
  (ambiguous_delete_of r = Some key ∧ P (last_committed key rs)).
Proof.
  unfold delete_pending_since. split.
  - intros (pre & x & post & Heq & Hd & HP & Hpost).
    destruct post as [|y post _] using rev_ind.
    { apply app_inj_tail in Heq as [-> ->]. by right. }
    rewrite app_comm_cons, app_assoc in Heq. apply app_inj_tail in Heq as [-> ->].
    apply Forall_app in Hpost as [Hpost [Hy _]%Forall_cons]. left. split; [done|].
    by exists pre, x, post.
  - intros [[He (pre & x & post & -> & Hd & HP & Hpost)]|[Hd HP]].
    + exists pre, x, (post ++ [r]). rewrite <-app_assoc. repeat split; try done.
      apply Forall_app. by repeat constructor.
    + by exists rs, r, [].
Qed.

Lemma ambiguous_delete_not_committed r key :
  ambiguous_delete_of r = Some key → committed_effect r = None.
Proof.
  unfold ambiguous_delete_of, committed_effect.
  destruct (never_sent r); [done|]. by destruct (op_kind r), (op_outcome r).
Qed.

(** The pending sets follow one recurrence; [Q] decides whether the delete of
    a key counts in the current model. *)
Lemma pending_set_characterised (P : option (option ExpectedObject) → Prop)
    (pending : ObjectModel → gset string) (Q : ObjectModel → string → bool) :
  pending empty_model = ∅ →
  (∀ m r, pending (apply_record_to_model m r) =
     match committed_effect r, ambiguous_delete_of r with
     | Some (key, _), _ => pending m ∖ {[key]}
     | None, Some key => if Q m key then pending m ∪ {[key]} else pending m
     | None, None => pending m
     end) →
  (∀ rs key, Q (object_model rs) key = true ↔ P (last_committed key rs)) →
  ∀ rs key, key ∈ pending (object_model rs) ↔ delete_pending_since P key rs.
Proof.
  intros H0 Hstep HQ rs key. induction rs as [|r rs IH] using rev_ind.
  { unfold object_model; simpl. rewrite H0. split; [set_solver|].
    intros (pre & x & post & Heq & _). by destruct pre. }
  rewrite object_model_snoc, Hstep, delete_pending_snoc, <-IH, <-HQ.
  destruct (effect_on_cases key r) as [[Hc ->]|[(k & e & Hc & ? & ->)|(e & Hc & ->)]]; rewrite Hc.
  - destruct (ambiguous_delete_of r) as [k|]; [|naive_solver].
    destruct (decide (k = key)) as [->|]; destruct (Q _ _) eqn:HQk; set_solver.
  - assert (ambiguous_delete_of r ≠ Some key)
      by (intros Hd%ambiguous_delete_not_committed; congruence). set_solver.
  - assert (ambiguous_delete_of r ≠ Some key)
      by (intros Hd%ambiguous_delete_not_committed; congruence). set_solver.
Qed.

(** A key is pending an ambiguous delete in object_model exactly when an ambiguous
    DELETE of it follows its last committed mutation: a committed write for the current-
    object set, any committed mutation for the lineage set. *)
Theorem pending_deletes_characterised rs key :
  (key ∈ om_ambiguous_delete_pending (object_model rs) ↔
     delete_pending_since (λ s, ∃ o, s = Some (Some o)) key rs) ∧
  (key ∈ om_ambiguous_delete_lineage_pending (object_model rs) ↔
     delete_pending_since is_Some key rs).
Proof.
  split.
  - revert rs key. apply (pending_set_characterised _ _
      (λ m key, bool_decide (is_Some (om_live m !! key)))); [done|apply apply_record_delete_pending|].
    intros rs key. rewrite bool_decide_eq_true, model_live.
    destruct (last_committed key rs) as [[o|]|]; simpl; split; naive_solver.
  - revert rs key. apply (pending_set_characterised _ _
      (λ m key, bool_decide (is_Some (om_live m !! key)) || bool_decide (key ∈ om_deleted m)));
      [done|apply apply_record_lineage_pending|].
    intros rs key. rewrite orb_true_iff, !bool_decide_eq_true, model_live, model_deleted.
    destruct (last_committed key rs) as [[o|]|]; simpl; split; naive_solver.
Qed.

(** ** Ambiguous writes *)

(** The attempt a record leaves ambiguous on a key, given whether the history
    before it committed something there. *)
Definition ambiguous_attempt_of (known : string → bool) (r : OperationRecord)
    : option (string * AmbiguousWriteAttempt) :=
  if never_sent r then None else
  match op_kind r with
  | OperationKind.Put | OperationKind.CompleteMultipartUpload =>
      match op_outcome r with
      | OperationOutcome.Timeout | OperationOutcome.Unknown =>
          p ← record_object r; Some (p.1, attempt_of r p.2)
      | OperationOutcome.Failed | OperationOutcome.NotFound =>
          p ← record_object r;
          if bool_decide (version_write_source_budget r ≠ 0%N) &&
             (bool_decide (op_kind r = OperationKind.CompleteMultipartUpload) || known p.1)
          then Some (p.1, attempt_of r p.2) else None
      | OperationOutcome.Ok => None
      end
  | _ => None
  end.
Definition ambiguous_attempt_on (key : string) (pre : list OperationRecord)
    (r : OperationRecord) : option AmbiguousWriteAttempt :=
  p ← ambiguous_attempt_of (λ k, bool_decide (is_Some (last_committed k pre))) r;
  if decide (p.1 = key) then Some p.2 else None.

(** The first committed mutation of [key] that starts after the attempt ended. *)
Definition supersedes (key : string) (a : AmbiguousWriteAttempt) (r : OperationRecord) : bool :=
  bool_decide (is_Some (effect_on key r)) &&
  completion_precedes_start (aw_ended_sequence a) (aw_ended_at_ms a)
    (op_started_sequence r) (op_started_at_ms r).
Definition superseder (key : string) (a : AmbiguousWriteAttempt) (post : list OperationRecord)
    : option SupersedingMutation :=
  superseding_of <$> head (filter (supersedes key a) post).

(** Every attempt of the history on [key], in order, with its superseder. *)
Fixpoint attempts_on (key : string) (pre rs : list OperationRecord)
    : list AmbiguousWriteAttempt :=
  match rs with
  | [] => []
  | r :: post =>
      option_list ((λ a, a <| aw_superseded_by := superseder key a post |>)
                     <$> ambiguous_attempt_on key pre r)
      ++ attempts_on key (pre ++ [r]) post
  end.

Lemma apply_record_unknown m r :
  om_unknown_writes (apply_record_to_model m r) =
  match committed_effect r,
        ambiguous_attempt_of (λ k, bool_decide (is_Some (om_live m !! k))
                                   || bool_decide (k ∈ om_deleted m)) r with
  | Some (key, _), _ => mark_superseded_attempts r key (om_unknown_writes m)
  | None, Some (key, a) => push_entry key a (om_unknown_writes m)
  | None, None => om_unknown_writes m
  end.
Proof.
  unfold ambiguous_attempt_of. model_field m r.
  all: repeat case_bool_decide; simplify_eq/=; try done.
  all: rewrite ?orb_true_r, ?orb_false_r in *; simplify_eq/=; autorewrite with model_fields; done.
Qed.

Lemma ambiguous_attempt_not_superseded key pre r a :
  ambiguous_attempt_on key pre r = Some a → aw_superseded_by a = None.
Proof.
  unfold ambiguous_attempt_on. intros ([k a'] & H & Ha)%bind_Some. simpl in Ha.
  case_decide; [|done]. injection Ha as <-. revert H. unfold ambiguous_attempt_of.
  destruct (record_object r) as [[k' o]|]; repeat case_match; simpl; try done.
  all: try (case_match; try done); by intros [= _ <-].
Qed.

Lemma mark_attempt_superseder key a post r :
  is_Some (effect_on key r) →
  mark_attempt r (a <| aw_superseded_by := superseder key a post |>)
  = a <| aw_superseded_by := superseder key a (post ++ [r]) |>.
Proof.
  intros He. unfold mark_attempt, superseder. rewrite filter_app, head_app. simpl.
  destruct (head (filter (supersedes key a) post)) as [x|]; simpl; [done|].
  rewrite filter_cons, filter_nil. unfold supersedes.
  rewrite (bool_decide_eq_true_2 _ He). simpl. by destruct (completion_precedes_start _ _ _ _).
Qed.

Lemma superseder_other key a post r :
  effect_on key r = None → superseder key a (post ++ [r]) = superseder key a post.
Proof.
  intros He. unfold superseder. rewrite filter_app, filter_cons, filter_nil.
  assert (supersedes key a r = false) as -> by (unfold supersedes; by rewrite He).
  simpl. by rewrite app_nil_r.
Qed.

Lemma attempts_on_snoc key pre rs r :
  attempts_on key pre (rs ++ [r]) =
  match effect_on key r with
  | Some _ => mark_attempt r <$> attempts_on key pre rs
  | None => attempts_on key pre rs
  end
  ++ option_list (ambiguous_attempt_on key (pre ++ rs) r).
Proof.
  revert pre. induction rs as [|x rs IH]; intros pre; simpl.
  { rewrite !app_nil_r. destruct (ambiguous_attempt_on key pre r) as [a|] eqn:Ha; simpl;
      [|by destruct (effect_on key r)].
    apply ambiguous_attempt_not_superseded in Ha.
    assert (a <| aw_superseded_by := superseder key a [] |> = a) as ->.
    { destruct a. simpl in *. by subst. }
    by destruct (effect_on key r). }
  rewrite IH, <-!app_assoc. simpl. rewrite !app_assoc. f_equal.
  destruct (effect_on key r) as [e|] eqn:He.
  - rewrite fmap_app. f_equal. destruct (ambiguous_attempt_on key pre x) as [a|]; [|done]. simpl.
    by rewrite (mark_attempt_superseder key a rs r) by (by rewrite He).
  - f_equal. destruct (ambiguous_attempt_on key pre x) as [a|]; [|done]. simpl.
    by rewrite superseder_other.
Qed.

Lemma known_in_model rs key :
  bool_decide (is_Some (om_live (object_model rs) !! key))
  || bool_decide (key ∈ om_deleted (object_model rs))
  = bool_decide (is_Some (last_committed key rs)).
Proof.
  apply eq_bool_prop_intro. rewrite orb_True, !bool_decide_spec, model_live, model_deleted.
  destruct (last_committed key rs) as [[o|]|]; simpl; split; naive_solver.
Qed.

Lemma ambiguous_attempt_of_ext f g r :
  (∀ k, f k = g k) → ambiguous_attempt_of f r = ambiguous_attempt_of g r.
Proof.
  intros Hfg. unfold ambiguous_attempt_of.
  destruct (record_object r) as [[k o]|]; simpl; [by rewrite Hfg|done].
Qed.

Lemma attempt_not_committed f r p :
  ambiguous_attempt_of f r = Some p → committed_effect r = None.
Proof.
  unfold ambiguous_attempt_of, committed_effect.
  destruct (never_sent r); [done|]. by destruct (op_kind r), (op_outcome r).
Qed.

Lemma model_unknown_writes rs key :
  default [] (om_unknown_writes (object_model rs) !! key) = attempts_on key [] rs.
Proof.
  induction rs as [|r rs IH] using rev_ind; [done|].
  rewrite object_model_snoc, attempts_on_snoc, apply_record_unknown, <-IH, app_nil_l.
  rewrite (ambiguous_attempt_of_ext _ _ r (known_in_model rs)). unfold ambiguous_attempt_on.
  destruct (ambiguous_attempt_of _ r) as [[k a]|] eqn:Ha.
  - rewrite (attempt_not_committed _ _ _ Ha). simpl.
    destruct (effect_on_cases key r) as [[Hc ->]|[(k' & e & Hc & ?)|(e & Hc & _)]];
      rewrite (attempt_not_committed _ _ _ Ha) in Hc; try done.
    unfold push_entry. case_decide; subst.
    + by rewrite lookup_insert_eq.
    + by rewrite lookup_insert_ne, app_nil_r by done.
  - simpl. rewrite app_nil_r. unfold mark_superseded_attempts.
    destruct (effect_on_cases key r) as [[-> ->]|[(k' & e & -> & ? & ->)|(e & -> & ->)]].
    + done.
    + by rewrite lookup_alter_ne by done.
    + rewrite lookup_alter_eq. by destruct (om_unknown_writes _ !! key).
Qed.

(** A key with ambiguous writes has at least one. *)
Lemma model_unknown_nonempty rs key l : om_unknown_writes (object_model rs) !! key = Some l → l ≠ [].
Proof.
  revert l. induction rs as [|r rs IH] using rev_ind; intros l; [done|].
  rewrite object_model_snoc, apply_record_unknown. unfold mark_superseded_attempts, push_entry.
  destruct (committed_effect r) as [[k e]|].
  - rewrite lookup_alter_Some. intros [(-> & l' & Hl & ->)|[_ Hl]]; [|by eapply IH].
    intros ?%fmap_nil_inv. by eapply IH.
  - destruct (ambiguous_attempt_of _ r) as [[k a]|]; [|by eapply IH].
    rewrite lookup_insert_Some. intros [[-> <-]|[_ Hl]]; [by destruct (default _ _)|by eapply IH].
Qed.

(** The ambiguous attempts object_model keeps for a key are the ambiguous writes of
    the history in order, each marked as superseded by the first later committed
    mutation of the key that started after the attempt completed. *)
Theorem ambiguous_writes_superseded_exactly rs key :
  default [] (om_unknown_writes (object_model rs) !! key) = attempts_on key [] rs.
Proof. apply model_unknown_writes. Qed.
