(* ===== verification/SourceIndexFacts.v ===== *)
(** The budgeted source index of the checker refines a flat list of write
    attempts per key and value: each [take] picks the most recent eligible
    attempt with budget left, never panics, and no value is explained more
    often than the attempts that could have written it. *)
From S2P Require Import Prelude Ordering RustText History ObjectModel.
From stdpp Require Import options.

(** ** The specification: flat lists, searched from the end *)
Definition available (s : VersionWriteSource) : bool :=
  bool_decide (0 < vws_remaining_versions s)%N.

(** The positions of a class of sources, in order. *)
Definition positions (C : VersionWriteSource → bool) (l : list VersionWriteSource) : list nat :=
  filter (λ i, from_option C false (l !! i)) (seq 0 (length l)).
Definition available_at (l : list VersionWriteSource) (i : nat) : bool :=
  from_option available false (l !! i).
Definition pick (C : VersionWriteSource → bool) (l : list VersionWriteSource) : option nat :=
  last (filter (available_at l) (positions C l)).

Definition inactive (s : VersionWriteSource) : bool := negb (source_active s).
Definition any_source (s : VersionWriteSource) : bool := true.
Definition spec_select (l : list VersionWriteSource) (is_latest : bool) : option nat :=
  if is_latest then pick source_active l
  else match pick inactive l with Some i => Some i | None => pick any_source l end.

Definition spend (s : VersionWriteSource) : VersionWriteSource :=
  s <| vws_remaining_versions ::= N.pred |>.
Definition SourceLists : Type := gmap (string * ExpectedObject) (list VersionWriteSource).
Definition spec_take (lists : SourceLists) (key : string) (actual : ExpectedObject)
    (is_latest : bool) : option VersionWriteMatch * SourceLists :=
  match lists !! (key, actual) with
  | None => (None, lists)
  | Some l =>
      match spec_select l is_latest ≫= (λ i, s ← l !! i; Some (i, s)) with
      | None => (None, lists)
      | Some (i, s) =>
          (Some (mkVersionWriteMatch (vws_attempt s) (source_active s)),
           <[(key, actual) := alter spend i l]> lists)
      end
  end.

(** ** One vector of indices *)
Definition class_repr (C : VersionWriteSource → bool) (l : list VersionWriteSource)
    (indices : list nat) : Prop :=
  ∃ spent, positions C l = indices ++ spent ∧ Forall (λ i, available_at l i = false) spent.

Lemma elem_of_positions C l i : i ∈ positions C l → is_Some (l !! i).
Proof.
  unfold positions. rewrite list_elem_of_filter. intros [_ [_ Hi]%elem_of_seq].
  apply lookup_lt_is_Some. lia.
Qed.

Lemma next_available_refines C l indices :
  class_repr C l indices →
  ∃ indices', next_available_source indices l = ok (pick C l, indices') ∧
    class_repr C l indices'.
Proof.
  unfold next_available_source. induction indices as [|i indices IH] using rev_ind.
  - intros (spent & Hp & Hs). exists []. split; [|by exists spent]. simpl.
    unfold pick. rewrite Hp. simpl. by rewrite filter_all_false.
  - intros (spent & Hp & Hs). rewrite rev_unit. simpl.
    destruct (elem_of_positions C l i) as [s Hi]; [rewrite Hp; set_solver|].
    rewrite Hi. run_result. case_bool_decide as Ha.
    + exists (indices ++ [i]). run_result. simpl. rewrite rev_involutive. split; [|by exists spent].
      unfold pick. rewrite Hp, !filter_app, (filter_all_false _ spent), app_nil_r by done.
      assert (available_at l i = true) as Hav
        by (unfold available_at, available; rewrite Hi; by apply bool_decide_eq_true_2).
      rewrite filter_cons, filter_nil, Hav. simpl. by rewrite last_snoc.
    + apply IH. exists (i :: spent). rewrite Hp, <-app_assoc. split; [done|].
      constructor; [|done]. unfold available_at. rewrite Hi. simpl. unfold available.
      by rewrite bool_decide_eq_false_2.
Qed.

(** Spending a version changes no class and revives nothing. *)
Lemma positions_alter (C : VersionWriteSource → bool) l i :
  (∀ s, C (spend s) = C s) → positions C (alter spend i l) = positions C l.
Proof.
  intros HC. unfold positions. rewrite length_alter. apply list_filter_iff. intros j.
  destruct (decide (i = j)) as [->|].
  - rewrite list_lookup_alter_eq. destruct (l !! j); simpl; [by rewrite HC|done].
  - by rewrite list_lookup_alter_ne.
Qed.

Lemma spent_alter l i j : available_at l j = false → available_at (alter spend i l) j = false.
Proof.
  unfold available_at, available. destruct (decide (i = j)) as [->|].
  - rewrite list_lookup_alter_eq. destruct (l !! j) as [s|]; simpl; [|done].
    rewrite !bool_decide_eq_false. lia.
  - by rewrite list_lookup_alter_ne.
Qed.

Lemma class_repr_alter (C : VersionWriteSource → bool) l indices i :
  (∀ s, C (spend s) = C s) →
  class_repr C l indices → class_repr C (alter spend i l) indices.
Proof.
  intros HC (spent & Hp & Hs). exists spent. rewrite positions_alter by done. split; [done|].
  eapply Forall_impl; [done|]. intros j. apply spent_alter.
Qed.

Lemma positions_snoc C l s :
  positions C (l ++ [s]) = positions C l ++ (if C s then [length l] else []).
Proof.
  unfold positions. rewrite length_app, seq_app, filter_app. simpl. f_equal.
  - apply filter_ext_in. intros j [_ Hj]%elem_of_seq.
    by rewrite lookup_app_l by lia.
  - rewrite filter_cons, filter_nil, list_lookup_middle by done. simpl. by destruct (C s).
Qed.

(** ** Buckets *)
Record bucket_repr (b : VersionWriteSourceBucket) : Prop := {
  repr_active : class_repr source_active (vwb_sources b) (vwb_active b);
  repr_inactive : class_repr inactive (vwb_sources b) (vwb_inactive b);
  repr_all : class_repr any_source (vwb_sources b) (vwb_all b);
}.

(** Before any [take] the vectors list their classes exactly. *)
Record bucket_exact (b : VersionWriteSourceBucket) : Prop := {
  exact_active : vwb_active b = positions source_active (vwb_sources b);
  exact_inactive : vwb_inactive b = positions inactive (vwb_sources b);
  exact_all : vwb_all b = positions any_source (vwb_sources b);
}.
Lemma bucket_exact_repr b : bucket_exact b → bucket_repr b.
Proof.
  intros [Ha Hi Hl]. split; exists []; rewrite app_nil_r; by split.
Qed.
Lemma bucket_push_exact b s : bucket_exact b → bucket_exact (bucket_push s b).
Proof.
  intros [Ha Hi Hl]. split; unfold bucket_push; simpl; rewrite positions_snoc.
  - rewrite Ha. destruct (source_active s); [done|by rewrite app_nil_r].
  - rewrite Hi. change (inactive s) with (negb (source_active s)). destruct (source_active s); simpl; [|done].
    by rewrite app_nil_r.
  - by rewrite Hl.
Qed.

Lemma bucket_select_refines b is_latest :
  bucket_repr b →
  ∃ b', bucket_select b is_latest = ok (spec_select (vwb_sources b) is_latest, b') ∧
    bucket_repr b' ∧ vwb_sources b' = vwb_sources b.
Proof.
  intros [Ha Hi Hl]. unfold bucket_select, spec_select. destruct is_latest.
  - destruct (next_available_refines _ _ _ Ha) as (ix & -> & Hix). run_result.
    eexists. split; [done|]. by split.
  - destruct (next_available_refines _ _ _ Hi) as (ix & -> & Hix). run_result. simpl.
    destruct (pick inactive (vwb_sources b)) as [i|].
    { eexists. split; [done|]. by split. }
    destruct (next_available_refines _ _ _ Hl) as (jx & -> & Hjx). run_result.
    eexists. split; [done|]. by split.
Qed.

Lemma pick_available C l i :
  pick C l = Some i → ∃ s, l !! i = Some s ∧ (0 < vws_remaining_versions s)%N ∧ C s = true.
Proof.
  unfold pick. intros H%last_Some_elem_of. apply list_elem_of_filter in H as [Ha Hp].
  unfold positions in Hp. apply list_elem_of_filter in Hp as [HC _].
  unfold available_at, available in Ha. destruct (l !! i) as [s|]; simpl in *; [|done].
  apply bool_decide_spec in Ha. exists s. repeat split; [done|]. by apply Is_true_true.
Qed.

Lemma select_available l is_latest i :
  spec_select l is_latest = Some i →
  ∃ s, l !! i = Some s ∧ (0 < vws_remaining_versions s)%N.
Proof.
  unfold spec_select. intros H.
  assert (∃ C, pick C l = Some i) as [C HC].
  { destruct is_latest; [by eexists|]. destruct (pick inactive l) eqn:?; simplify_eq; by eexists. }
  apply pick_available in HC as (s & ? & ? & _). by exists s.
Qed.

(** ** The index *)
Definition index_repr (index : VersionWriteSourceIndex) : Prop :=
  map_Forall (λ _ b, bucket_repr b) index.

Lemma alter_as_insert {A} (f : A → A) i (l : list A) x :
  l !! i = Some x → alter f i l = <[i := f x]> l.
Proof.
  intros Hx. apply list_eq. intros j. destruct (decide (i = j)) as [->|].
  - rewrite list_lookup_alter_eq, Hx, list_lookup_insert_eq; [done|].
    by eapply lookup_lt_Some.
  - by rewrite list_lookup_alter_ne, list_lookup_insert_ne.
Qed.

Lemma bucket_spend_repr b i s :
  bucket_repr b → vwb_sources b !! i = Some s →
  let b' := b <| vwb_sources ::= <[i := s <| vws_remaining_versions ::= N.pred |>]> |> in
  bucket_repr b' ∧ vwb_sources b' = alter spend i (vwb_sources b).
Proof.
  intros [Ha Hi Hl] Hs b'.
  assert (vwb_sources b' = alter spend i (vwb_sources b)) as Hb'
    by (symmetry; apply (alter_as_insert spend _ _ _ Hs)).
  split; [|done]. split; rewrite Hb'; by apply class_repr_alter.
Qed.

Lemma take_source_refines index key actual is_latest :
  index_repr index →
  ∃ index', take_source index key actual is_latest
      = ok ((spec_take (vwb_sources <$> index) key actual is_latest).1, index') ∧
    index_repr index' ∧
    vwb_sources <$> index' = (spec_take (vwb_sources <$> index) key actual is_latest).2.
Proof.
  intros Hrepr. unfold take_source, spec_take.
  unfold VersionWriteSourceIndex, SourceLists in *. rewrite lookup_fmap.
  destruct (index !! (key, actual)) as [b|] eqn:Hb; simpl; [|by exists index].
  destruct (bucket_select_refines b is_latest (Hrepr _ _ Hb)) as (b' & -> & Hb' & Hsrc).
  run_result. simpl. destruct (spec_select (vwb_sources b) is_latest) as [i|] eqn:Hsel; simpl.
  - destruct (select_available _ _ _ Hsel) as (s & Hs & Hrem). rewrite Hsrc, Hs. run_result. simpl.
    unfold consume_version. rewrite bool_decide_eq_false_2 by lia. run_result.
    destruct (bucket_spend_repr b' i s Hb') as [Hr Hl]; [by rewrite Hsrc|].
    eexists. split; [done|]. split; [by apply map_Forall_insert_2|].
    by rewrite fmap_insert, Hl, Hsrc.
  - eexists. split; [done|]. split; [by apply map_Forall_insert_2|].
    rewrite fmap_insert, Hsrc. apply insert_id. by rewrite lookup_fmap, Hb.
Qed.

(** ** Building the index *)
Definition written (o : ExpectedObject) (l : list VersionWriteSource) : list VersionWriteSource :=
  filter (λ s, aw_object (vws_attempt s) = o) l.
Definition sources_at (index : VersionWriteSourceIndex) (key : string) (o : ExpectedObject)
    : list VersionWriteSource :=
  from_option vwb_sources [] (index !! (key, o)).

Lemma index_push_exact key index s :
  map_Forall (λ _ b, bucket_exact b) index →
  map_Forall (λ _ b, bucket_exact b) (index_push key index s).
Proof.
  intros H. apply map_Forall_insert_2; [|done]. apply bucket_push_exact.
  destruct (index !! _) eqn:E; simpl; [by apply (H _ _ E)|by split].
Qed.

Lemma index_push_sources key index s key' o :
  sources_at (index_push key index s) key' o =
  sources_at index key' o ++ (if decide (key = key') then written o [s] else []).
Proof.
  unfold sources_at, index_push, written. unfold VersionWriteSourceIndex in *.
  rewrite filter_cons, filter_nil.
  destruct (decide ((key, aw_object (vws_attempt s)) = (key', o))) as [[= -> ->]|Hne].
  - rewrite lookup_insert_eq. simpl. rewrite !decide_True by done.
    by destruct (index !! (key', o)).
  - rewrite lookup_insert_ne by done. repeat case_decide; subst; rewrite ?app_nil_r; congruence.
Qed.

Lemma index_pushes key l index key' o :
  map_Forall (λ _ b, bucket_exact b) index →
  map_Forall (λ _ b, bucket_exact b) (foldl (index_push key) index l) ∧
  sources_at (foldl (index_push key) index l) key' o =
  sources_at index key' o ++ (if decide (key = key') then written o l else []).
Proof.
  revert index. induction l as [|s l IH]; intros index H; simpl.
  { split; [done|]. case_decide; by rewrite app_nil_r. }
  destruct (IH (index_push key index s)) as [H1 H2]; [by apply index_push_exact|].
  split; [done|]. rewrite H2, index_push_sources, <-app_assoc. f_equal.
  case_decide; [|done]. unfold written. by rewrite <-filter_app.
Qed.

Lemma index_entries (es : list (string * list VersionWriteSource)) index key o :
  map_Forall (λ _ b, bucket_exact b) index →
  let index' := foldl (λ index e, foldl (index_push e.1) index e.2) index es in
  map_Forall (λ _ b, bucket_exact b) index' ∧
  sources_at index' key o =
  sources_at index key o ++
  (es ≫= λ e, if decide (e.1 = key) then written o e.2 else []).
Proof.
  revert index. induction es as [|e es IH]; intros index H.
  { simpl. by rewrite app_nil_r. }
  cbn [foldl].
  destruct (index_pushes e.1 e.2 index key o H) as [H1 H2].
  destruct (IH _ H1) as [H3 H4]. split; [done|]. by rewrite H4, H2, bind_cons, <-app_assoc.
Qed.

Lemma bind_one_key {A B} (es : list (string * A)) (f : A → list B) key :
  NoDup es.*1 →
  (∀ a, (key, a) ∈ es → (es ≫= λ e, if decide (e.1 = key) then f e.2 else []) = f a) ∧
  (key ∉ es.*1 → (es ≫= λ e, if decide (e.1 = key) then f e.2 else []) = []).
Proof.
  induction es as [|[k a] es IH]; [by split; [intros ? []%not_elem_of_nil|]|].
  rewrite bind_cons, fmap_cons, NoDup_cons; cbn [fst snd]. intros [Hk Hd]. destruct (IH Hd) as [IH1 IH2]. case_decide; subst; split.
  - intros a' [[= <-]|Hin]%elem_of_cons; [by rewrite IH2, app_nil_r|].
    destruct Hk. apply list_elem_of_fmap. by exists (key, a').
  - set_solver.
  - intros a' [[= -> <-]|Hin]%elem_of_cons; [done|]. by apply IH1.
  - rewrite not_elem_of_cons. intros [_ Hn]. by apply IH2.
Qed.

Lemma from_sources_exact sources key o :
  index_repr (from_sources sources) ∧
  sources_at (from_sources sources) key o = written o (default [] (sources !! key)).
Proof.
  destruct (index_entries (map_entries sources) ∅ key o) as [H1 H2]; [apply map_Forall_empty|].
  split.
  - intros k b Hb. apply bucket_exact_repr. by apply (H1 _ _ Hb).
  - unfold from_sources. rewrite H2.
    change (sources_at ∅ key o) with (@nil VersionWriteSource). rewrite app_nil_l.
    destruct (bind_one_key (map_entries sources) (written o) key) as [Hin Hout];
      [apply map_entries_keys_NoDup|].
    destruct (sources !! key) as [l|] eqn:Hl; simpl.
    + apply Hin. by apply elem_of_map_entries.
    + apply Hout. intros ([k l] & -> & Hk)%list_elem_of_fmap.
      apply elem_of_map_entries in Hk. simpl in *. congruence.
Qed.

(** ** Sequences of requests *)
Record TakeRequest := mkTakeRequest {
  tr_key : string;
  tr_actual : ExpectedObject;
  tr_is_latest : bool;
}.
Fixpoint take_all (index : VersionWriteSourceIndex) (reqs : list TakeRequest)
    : Result (list (option VersionWriteMatch) * VersionWriteSourceIndex) :=
  match reqs with
  | [] => ok ([], index)
  | q :: reqs =>
      p ← take_source index (tr_key q) (tr_actual q) (tr_is_latest q);
      r ← take_all p.2 reqs;
      ok (p.1 :: r.1, r.2)
  end.
Fixpoint spec_take_all (lists : SourceLists) (reqs : list TakeRequest)
    : list (option VersionWriteMatch) :=
  match reqs with
  | [] => []
  | q :: reqs =>
      let p := spec_take lists (tr_key q) (tr_actual q) (tr_is_latest q) in
      p.1 :: spec_take_all p.2 reqs
  end.

Lemma take_all_refines index reqs :
  index_repr index →
  ∃ index', take_all index reqs = ok (spec_take_all (vwb_sources <$> index) reqs, index').
Proof.
  revert index. induction reqs as [|q reqs IH]; intros index H; simpl; [by eexists|].
  destruct (take_source_refines index (tr_key q) (tr_actual q) (tr_is_latest q) H)
    as (index' & -> & H' & Heq). run_result. simpl.
  destruct (IH index' H') as (index'' & ->). run_result. rewrite <-Heq. by eexists.
Qed.

(** C30. VersionWriteSourceIndex, with its lazily popped index vectors, refines flat
    lists of write attempts searched from the end: building it groups the attempts by
    key and value, and every sequence of takes succeeds without a panic with the answers
    of the lists. *)
Theorem source_index_refines_lists sources reqs :
  let lists : SourceLists := vwb_sources <$> from_sources sources in
  (∀ key o, default [] (lists !! (key, o)) = written o (default [] (sources !! key))) ∧
  ∃ index', take_all (from_sources sources) reqs = ok (spec_take_all lists reqs, index').
Proof.
  split.
  - intros key o. destruct (from_sources_exact sources key o) as [_ <-].
    unfold sources_at, VersionWriteSourceIndex, SourceLists. rewrite lookup_fmap.
    by destruct (_ !! (key, o)).
  - apply take_all_refines. by destruct (from_sources_exact sources "" (mkExpectedObject "" 0)).
Qed.

(** ** Budgets *)
Definition budget (l : list VersionWriteSource) : N := sum_N (vws_remaining_versions <$> l).
Definition budget_at (lists : SourceLists) (key : string) (o : ExpectedObject) : N :=
  budget (default [] (lists !! (key, o))).
(** How many requests for a key and value were matched. *)
Fixpoint matched (key : string) (o : ExpectedObject) (reqs : list TakeRequest)
    (ms : list (option VersionWriteMatch)) : N :=
  match reqs, ms with
  | q :: reqs, m :: ms =>
      (if decide (is_Some m ∧ tr_key q = key ∧ tr_actual q = o) then 1 else 0)
      + matched key o reqs ms
  | _, _ => 0
  end%N.

Lemma budget_alter l i s :
  l !! i = Some s → (0 < vws_remaining_versions s)%N →
  (budget (alter spend i l) + 1)%N = budget l.
Proof.
  unfold budget. revert i. induction l as [|x l IH]; intros [|i] H Hs; try done.
  - injection H as <-. change (alter spend 0 (x :: l)) with (spend x :: l).
    rewrite !fmap_cons, !sum_N_cons. unfold spend. simpl. lia.
  - change (alter spend (S i) (x :: l)) with (x :: alter spend i l).
    rewrite !fmap_cons, !sum_N_cons. rewrite <-(IH i H Hs). lia.
Qed.

Lemma spec_take_budget lists q key o :
  let p := spec_take lists (tr_key q) (tr_actual q) (tr_is_latest q) in
  ((if decide (is_Some p.1 ∧ tr_key q = key ∧ tr_actual q = o) then 1 else 0)
   + budget_at p.2 key o)%N = budget_at lists key o.
Proof.
  intros p. subst p. unfold spec_take.
  destruct (lists !! (tr_key q, tr_actual q)) as [l|] eqn:Hl; cbn [fst snd].
  2:{ rewrite decide_False by (by intros [[] _]). done. }
  destruct (spec_select l (tr_is_latest q)) as [i|] eqn:Hi; cbn [mbind option_bind fst snd].
  2:{ rewrite decide_False by (by intros [[] _]). done. }
  destruct (select_available _ _ _ Hi) as (s & Hs & Hr). rewrite Hs. cbn [mbind option_bind fst snd].
  unfold budget_at, SourceLists in *. case_decide as Hd.
  - destruct Hd as (_ & <- & <-). rewrite lookup_insert_eq, Hl. cbn [from_option].
    unfold default, id. cbn [from_option]. pose proof (budget_alter l i s Hs Hr). lia.
  - rewrite lookup_insert_ne; [done|]. intros [= <- <-]. by destruct Hd.
Qed.

Lemma spec_take_all_budget lists reqs key o :
  (matched key o reqs (spec_take_all lists reqs) ≤ budget_at lists key o)%N.
Proof.
  revert lists. induction reqs as [|q reqs IH]; intros lists; simpl; [lia|].
  rewrite <-(spec_take_budget lists q key o). simpl.
  specialize (IH (spec_take lists (tr_key q) (tr_actual q) (tr_is_latest q)).2). lia.
Qed.

Lemma spec_takes_within_budget sources reqs key o :
  (matched key o reqs (spec_take_all (vwb_sources <$> from_sources sources) reqs)
   ≤ budget (written o (default [] (sources !! key))))%N.
Proof.
  destruct (from_sources_exact sources key o) as [_ <-].
  etrans; [apply spec_take_all_budget|]. unfold budget_at, sources_at, VersionWriteSourceIndex.
  unfold SourceLists. rewrite lookup_fmap. by destruct (_ !! (key, o)).
Qed.

(** Over any sequence of takes, the source index matches a key and value at most as
    often as the attempts that wrote that value to that key have version budget in
    total. *)
Theorem source_index_respects_budget sources reqs :
  ∃ ms index', take_all (from_sources sources) reqs = ok (ms, index') ∧
    ∀ key o, (matched key o reqs ms ≤ budget (written o (default [] (sources !! key))))%N.
Proof.
  destruct (take_all_refines (from_sources sources) reqs) as (index' & H).
  { by destruct (from_sources_exact sources "" (mkExpectedObject "" 0)). }
  eexists _, _. split; [exact H|]. intros key o. apply spec_takes_within_budget.
Qed.
