(* ===== verification/Attempts.v ===== *)
(** Matching observed bodies and values against expected objects and ambiguous
    attempts, and the evidence messages built from them
    ([src/fault/checker.rs]). [sha256_hex] stands for the SHA-256 of the [sha2]
    crate, printed in hexadecimal. *)
From S2P Require Import Prelude Ordering RustText History ObjectModel.
From stdpp Require Import options.

(** [GetObjectResult] of [src/fault/workload.rs]. *)
Record GetObjectResult := mkGetObjectResult {
  get_outcome : OperationOutcome.t;
  get_http_status : option N;
  get_error : option string;
  get_body : option (list N);
}.

(** ** Labels *)
Definition ambiguous_write_attempt_label (a : AmbiguousWriteAttempt) : string :=
  let label :=
    aw_id a +:+ " " +:+ OperationKind.debug (aw_kind a) +:+ " "
    +:+ OperationOutcome.debug (aw_outcome a) +:+ " " +:+ eo_sha256 (aw_object a)
    +:+ " (" +:+ dec (eo_size_bytes (aw_object a)) +:+ " bytes)" in
  match aw_superseded_by a with
  | None => label
  | Some s =>
      label +:+ " superseded_by=" +:+ sm_id s +:+ " " +:+ OperationKind.debug (sm_kind s)
      +:+ " started_at_ms=" +:+ dec (sm_started_at_ms s)
  end.

Definition ambiguous_write_attempt_summary (attempts : list AmbiguousWriteAttempt) : string :=
  match attempts with
  | [] => "none"
  | _ => join ", " (ambiguous_write_attempt_label <$> attempts)
  end.

(** ["committed {} ({} bytes)"], or the absence of a committed object. *)
Definition committed_label (expected : option ExpectedObject) : string :=
  match expected with
  | Some e => "committed " +:+ eo_sha256 e +:+ " (" +:+ dec (eo_size_bytes e) +:+ " bytes)"
  | None => "no committed object"
  end.

Definition ambiguous_write_materialized_from_object_message (key : string)
    (a : AmbiguousWriteAttempt) (actual : ExpectedObject) : string :=
  key +:+ ": " +:+ ambiguous_write_attempt_label a +:+ " materialized as "
  +:+ eo_sha256 actual +:+ " (" +:+ dec (eo_size_bytes actual) +:+ " bytes)".

Definition ambiguous_version_materialized_from_object_message (key version_id : string)
    (a : AmbiguousWriteAttempt) (actual : ExpectedObject) : string :=
  key +:+ "@" +:+ version_id +:+ ": " +:+ ambiguous_write_attempt_label a
  +:+ " materialized as version " +:+ eo_sha256 actual +:+ " ("
  +:+ dec (eo_size_bytes actual) +:+ " bytes)".

Definition unknown_write_value_conflict_from_object_message (key : string)
    (expected : option ExpectedObject) (attempts : list AmbiguousWriteAttempt)
    (actual : ExpectedObject) : string :=
  key +:+ ": observed " +:+ eo_sha256 actual +:+ " (" +:+ dec (eo_size_bytes actual)
  +:+ " bytes), expected " +:+ committed_label expected +:+ " or ambiguous attempts ["
  +:+ ambiguous_write_attempt_summary attempts +:+ "]".

Definition superseded_ambiguous_object_conflict_message (key : string)
    (expected : option ExpectedObject) (a : AmbiguousWriteAttempt)
    (actual : ExpectedObject) : string :=
  key +:+ ": observed " +:+ eo_sha256 actual +:+ " (" +:+ dec (eo_size_bytes actual)
  +:+ " bytes) from superseded ambiguous attempt [" +:+ ambiguous_write_attempt_label a
  +:+ "], expected " +:+ committed_label expected.

(** ** Matching recorded values *)
Definition pending (a : AmbiguousWriteAttempt) : bool := bool_decide (aw_superseded_by a = None).

(** [iter().rev().filter(f).find(p)]. *)
Definition rev_find (f p : AmbiguousWriteAttempt → bool) (attempts : list AmbiguousWriteAttempt)
    : option AmbiguousWriteAttempt :=
  head (filter p (filter f (reverse attempts))).

Definition matching_active_ambiguous_object (attempts : list AmbiguousWriteAttempt)
    (actual : ExpectedObject) : option AmbiguousWriteAttempt :=
  rev_find pending (λ a, bool_decide (aw_object a = actual)) attempts.
Definition matching_superseded_ambiguous_object (attempts : list AmbiguousWriteAttempt)
    (actual : ExpectedObject) : option AmbiguousWriteAttempt :=
  rev_find (λ a, negb (pending a)) (λ a, bool_decide (aw_object a = actual)) attempts.

(** ** Matching bodies *)
Section bodies.
Context (sha256_hex : list N → string).

Definition observed_object (body : list N) : ExpectedObject :=
  mkExpectedObject (sha256_hex body) (len body).

Definition object_matches (expected : ExpectedObject) (body : list N) : bool :=
  bool_decide (len body = eo_size_bytes expected)
  && bool_decide (sha256_hex body = eo_sha256 expected).

Definition committed_get_matches (expected : ExpectedObject) (get : GetObjectResult) : bool :=
  bool_decide (get_outcome get = OperationOutcome.Ok)
  && from_option (object_matches expected) false (get_body get).

Definition matching_active_ambiguous_write (attempts : list AmbiguousWriteAttempt)
    (body : list N) : option AmbiguousWriteAttempt :=
  rev_find pending (λ a, object_matches (aw_object a) body) attempts.
Definition matching_superseded_ambiguous_write (attempts : list AmbiguousWriteAttempt)
    (body : list N) : option AmbiguousWriteAttempt :=
  rev_find (λ a, negb (pending a)) (λ a, object_matches (aw_object a) body) attempts.

Definition hash_mismatch_message (key : string) (expected : ExpectedObject) (body : list N)
    : string :=
  key +:+ ": expected " +:+ eo_sha256 expected +:+ " (" +:+ dec (eo_size_bytes expected)
  +:+ " bytes), got " +:+ sha256_hex body +:+ " (" +:+ dec (len body) +:+ " bytes)".

Definition ambiguous_write_materialized_message (key : string) (a : AmbiguousWriteAttempt)
    (body : list N) : string :=
  key +:+ ": " +:+ ambiguous_write_attempt_label a +:+ " materialized as "
  +:+ sha256_hex body +:+ " (" +:+ dec (len body) +:+ " bytes)".

Definition ambiguous_version_materialized_message (key version_id : string)
    (a : AmbiguousWriteAttempt) (body : list N) : string :=
  ambiguous_version_materialized_from_object_message key version_id a
    (mkExpectedObject (sha256_hex body) (len body)).

Definition unknown_write_value_conflict_message (key : string)
    (expected : option ExpectedObject) (attempts : list AmbiguousWriteAttempt)
    (body : list N) : string :=
  key +:+ ": observed " +:+ sha256_hex body +:+ " (" +:+ dec (len body)
  +:+ " bytes), expected " +:+ committed_label expected +:+ " or ambiguous attempts ["
  +:+ ambiguous_write_attempt_summary attempts +:+ "]".

Definition superseded_ambiguous_write_conflict_message (key : string)
    (expected : option ExpectedObject) (a : AmbiguousWriteAttempt) (body : list N) : string :=
  key +:+ ": observed " +:+ sha256_hex body +:+ " (" +:+ dec (len body)
  +:+ " bytes) from superseded ambiguous attempt [" +:+ ambiguous_write_attempt_label a
  +:+ "], expected " +:+ committed_label expected.
End bodies.

(** ** Lemmas *)
Lemma rev_find_Some f p l a :
  rev_find f p l = Some a → a ∈ l ∧ f a = true ∧ p a = true.
Proof.
  unfold rev_find. intros H%head_Some_elem_of. apply list_elem_of_filter in H as [Hp H].
  apply list_elem_of_filter in H as [Hf H]. rewrite elem_of_reverse in H.
  split; [done|]. split; by apply Is_true_true.
Qed.

Lemma rev_find_None f p l :
  rev_find f p l = None ↔ ∀ a, a ∈ l → f a = true → p a = false.
Proof.
  unfold rev_find. rewrite head_None. split.
  - intros H a Ha Hf. destruct (p a) eqn:Hp; [|done].
    assert (a ∈ filter p (filter f (reverse l))) as Hin; [|rewrite H in Hin; by apply elem_of_nil in Hin].
    rewrite !list_elem_of_filter, elem_of_reverse. by rewrite Hp, Hf.
  - intros H. apply filter_all_false, Forall_forall. intros a.
    rewrite list_elem_of_filter, elem_of_reverse. intros [Hf Ha]. apply H; [done|].
    by apply Is_true_true.
Qed.

Lemma object_matches_iff sha expected body :
  object_matches sha expected body = true ↔ observed_object sha body = expected.
Proof.
  unfold object_matches, observed_object. rewrite andb_true_iff, !bool_decide_eq_true.
  destruct expected; simpl. split; [intros [-> ->]; done|by intros [= <- <-]].
Qed.
