(* ===== verification/ReadAnomalies.v ===== *)
(** The checker's replay of the successful reads of a history
    ([src/fault/checker.rs]): a GET is compared with the values a client could
    legally observe when it ran, whole objects and byte ranges alike. *)
From S2P Require Import Prelude Ordering RustText History Workload ObjectModel Attempts.
From stdpp Require Import options.

(** ** Values stably live when a read started *)
Record StableLiveObject := mkStableLiveObject {
  slo_object : ExpectedObject;
  slo_payload_ref : option PayloadRef;
}.

(** Every record carries both recorder sequences. *)
Definition use_recorder_sequences (records : list OperationRecord) : bool :=
  forallb (λ r, bool_decide (is_Some (op_started_sequence r))
                && bool_decide (is_Some (op_ended_sequence r))) records.
Definition start_time (sequences : bool) (r : OperationRecord) : N :=
  if sequences then default 0%N (op_started_sequence r) else op_started_at_ms r.
Definition end_time (sequences : bool) (r : OperationRecord) : N :=
  if sequences then default 0%N (op_ended_sequence r) else op_ended_at_ms r.

(** [iter().enumerate()]. *)
Definition enumerate {A} (l : list A) : list (nat * A) := imap pair l.

Definition is_current_read (r : OperationRecord) : bool :=
  bool_decide (op_kind r = OperationKind.Get)
  && bool_decide (op_outcome r = OperationOutcome.Ok)
  && bool_decide (op_version_id r = None).
Definition current_read (e : nat * OperationRecord) : option (nat * OperationRecord * string) :=
  if is_current_read e.2 then key ← op_key e.2; Some (e, key) else None.

Definition is_committed_mutation (r : OperationRecord) : bool :=
  bool_decide (op_outcome r = OperationOutcome.Ok) &&
  match op_kind r with
  | OperationKind.Put | OperationKind.CompleteMultipartUpload | OperationKind.Delete => true
  | _ => false
  end.

Definition apply_stable (live : gmap string StableLiveObject) (r : OperationRecord)
    : gmap string StableLiveObject :=
  match op_kind r with
  | OperationKind.Put | OperationKind.CompleteMultipartUpload =>
      match record_object r with
      | Some (key, object) => <[key := mkStableLiveObject object (op_payload_ref r)]> live
      | None => live
      end
  | OperationKind.Delete =>
      match op_key r with Some key => delete key live | None => live end
  | _ => live
  end.

(** Applies the mutations that completed before [read] started, in order. *)
Fixpoint advance_stable (read : OperationRecord) (live : gmap string StableLiveObject)
    (mutations : list OperationRecord) : gmap string StableLiveObject * list OperationRecord :=
  match mutations with
  | [] => (live, [])
  | m :: rest =>
      if operation_completed_before_started m read
      then advance_stable read (apply_stable live m) rest
      else (live, mutations)
  end.

Definition stable_read_step
    (st : gmap string StableLiveObject * list OperationRecord * gmap nat StableLiveObject)
    (e : nat * OperationRecord * string) :=
  let '(live, mutations, stable) := st in
  let '(index, read, key) := e in
  let '(live, mutations) := advance_stable read live mutations in
  (live, mutations,
   match live !! key with Some expected => <[index := expected]> stable | None => stable end).

Definition sorted_reads (records : list OperationRecord) : list (nat * OperationRecord * string) :=
  let sequences := use_recorder_sequences records in
  sort_by_key (λ e : nat * OperationRecord * string, (start_time sequences e.1.2, e.1.1))
    (omap current_read (enumerate records)).
Definition sorted_commits (records : list OperationRecord) : list OperationRecord :=
  let sequences := use_recorder_sequences records in
  sort_by_key (end_time sequences) (filter is_committed_mutation records).

Definition stable_live_objects_at_read_starts (records : list OperationRecord)
    : gmap nat StableLiveObject :=
  (foldl stable_read_step (∅, sorted_commits records, ∅) (sorted_reads records)).2.

(** ** Committed write windows *)
Record CommittedWriteWindow := mkCommittedWriteWindow {
  cww_object : ExpectedObject;
  cww_ended_at_ms : N;
  cww_ended_sequence : option N;
  cww_payload_ref : option PayloadRef;
}.
Record CommittedWriteHistory := mkCommittedWriteHistory {
  cwh_windows : list CommittedWriteWindow;
  cwh_prior_latest_completion_by_object : gmap ExpectedObject (option N * N);
}.
Definition empty_history : CommittedWriteHistory := mkCommittedWriteHistory [] ∅.

Definition later_completion (completion : option N * N) (previous : CommittedWriteWindow)
    : option N * N :=
  let later :=
    match completion.1, cww_ended_sequence previous with
    | Some current, Some previous => bool_decide (current < previous)%N
    | _, _ => bool_decide (completion.2 < cww_ended_at_ms previous)%N
    end in
  if later then (cww_ended_sequence previous, cww_ended_at_ms previous) else completion.

Definition history_push (h : CommittedWriteHistory) (window : CommittedWriteWindow)
    : CommittedWriteHistory :=
  let prior := cwh_prior_latest_completion_by_object h in
  mkCommittedWriteHistory (cwh_windows h ++ [window])
    match last (cwh_windows h) with
    | None => prior
    | Some previous =>
        let o := cww_object previous in
        match prior !! o with
        | Some completion => <[o := later_completion completion previous]> prior
        | None => <[o := (cww_ended_sequence previous, cww_ended_at_ms previous)]> prior
        end
    end.

(** [slice.split_last()]. *)
Definition split_last {A} (l : list A) : option (A * list A) :=
  x ← last l; Some (x, take (length l - 1) l).

Definition window_completed_before (w : CommittedWriteWindow) (get : OperationRecord) : bool :=
  completion_precedes_start (cww_ended_sequence w) (cww_ended_at_ms w)
    (op_started_sequence get) (op_started_at_ms get).

Definition concurrent_committed_read (h : CommittedWriteHistory) (get : OperationRecord)
    (actual : ExpectedObject) : bool :=
  match split_last (cwh_windows h) with
  | None => false
  | Some (latest, prior) =>
      let matches w := bool_decide (eo_sha256 (cww_object w) = eo_sha256 actual)
                       && bool_decide (eo_size_bytes (cww_object w) = eo_size_bytes actual) in
      if match cwh_prior_latest_completion_by_object h !! actual with
         | Some (ended_sequence, ended_at_ms) =>
             negb (completion_precedes_start ended_sequence ended_at_ms
                     (op_started_sequence get) (op_started_at_ms get))
         | None => false
         end
      then true
      else if negb (window_completed_before latest get)
      then match last prior with Some previous => matches previous | None => false end
      else false
  end.

(** ** Ranged reads *)
Record ReadAnomalies := mkReadAnomalies {
  ra_corrupted_reads : list string;
  ra_visible_deleted_objects : list string;
  ra_unknown_writes_materialized : list string;
  ra_unknown_write_value_conflicts : list string;
}.
Global Instance ReadAnomalies_eta : Eta ReadAnomalies := λ a,
  mkReadAnomalies (ra_corrupted_reads a) (ra_visible_deleted_objects a)
    (ra_unknown_writes_materialized a) (ra_unknown_write_value_conflicts a).
Definition no_anomalies : ReadAnomalies := mkReadAnomalies [] [] [] [].

(** [range.offset + range.length - 1]. *)
Definition range_last (r : ByteRange) : Result N :=
  e ← add_u64 (range_offset r) (range_length r); sub_u64 e 1.

(** Per-key model state a ranged GET is verified against. *)
Record RangedReadState := mkRangedReadState {
  rrs_history : list CommittedWriteWindow;
  rrs_ambiguous : list AmbiguousWriteAttempt;
  rrs_stable_at_start : option StableLiveObject;
  rrs_live_object : option ExpectedObject;
}.

(** The bodies a committed read could observe. *)
Definition ranged_candidates (record : OperationRecord) (state : RangedReadState)
    : list (option PayloadRef * N) :=
  let slice w := (cww_payload_ref w, eo_size_bytes (cww_object w)) in
  match split_last (rrs_history state) with
  | None => []
  | Some (latest, prior) =>
      slice latest
      :: (slice <$> filter (λ w, negb (window_completed_before w record)) prior)
      ++ (if negb (window_completed_before latest record)
          then slice <$> option_list (last prior) else [])
  end
  ++ option_list ((λ s, (slo_payload_ref s, eo_size_bytes (slo_object s)))
                    <$> rrs_stable_at_start state).

Section slices.
Context (sha256_hex : list N → string).

Definition regenerated_slice_sha (payload_ref : option PayloadRef) (size_bytes : N)
    (range : ByteRange) : Result (option string) :=
  match payload_ref with
  | None => ok None
  | Some payload_ref =>
      if bool_decide (size_bytes ≤ range_offset range)%N
         || bool_decide (range_length range = 0%N) then ok None else
      e ← add_u64 (range_offset range) (range_length range);
      if bool_decide (size_bytes < e)%N then ok None else
      let body := seeded_bytes (payload_seed payload_ref) (payload_index payload_ref) size_bytes in
      ok (Some (sha256_hex (take (N.to_nat (e - range_offset range))
                              (drop (N.to_nat (range_offset range)) body))))
  end.

(** The loop over the candidates: [None] when one matches (an early return),
    otherwise whether some candidate could not be regenerated. *)
Fixpoint scan_candidates (actual_sha : string) (range : ByteRange)
    (candidates : list (option PayloadRef * N)) (unverifiable : bool) : Result (option bool) :=
  match candidates with
  | [] => ok (Some unverifiable)
  | (payload_ref, size) :: rest =>
      expected ← regenerated_slice_sha payload_ref size range;
      match expected with
      | Some expected =>
          if bool_decide (expected = actual_sha) then ok None
          else scan_candidates actual_sha range rest unverifiable
      | None => scan_candidates actual_sha range rest true
      end
  end.

(** [ambiguous_spans_range], [pending_match] and [superseded_match]. *)
Record AmbiguousScan := mkAmbiguousScan {
  as_spans_range : bool;
  as_pending_match : option AmbiguousWriteAttempt;
  as_superseded_match : option AmbiguousWriteAttempt;
}.
Definition scan_ambiguous_step (actual_sha : string) (range : ByteRange) (st : AmbiguousScan)
    (a : AmbiguousWriteAttempt) : Result AmbiguousScan :=
  expected ← regenerated_slice_sha (aw_payload_ref a) (eo_size_bytes (aw_object a)) range;
  match expected with
  | Some expected =>
      ok (if bool_decide (expected = actual_sha) then
            if pending a
            then mkAmbiguousScan (as_spans_range st) (Some a) (as_superseded_match st)
            else mkAmbiguousScan (as_spans_range st) (as_pending_match st) (Some a)
          else st)
  | None =>
      e ← add_u64 (range_offset range) (range_length range);
      ok (if bool_decide (e ≤ eo_size_bytes (aw_object a))%N
          then mkAmbiguousScan true (as_pending_match st) (as_superseded_match st) else st)
  end.

(** The verdict once no committed slice matched. *)
Definition ranged_verdict (key : string) (range : ByteRange) (actual : ExpectedObject)
    (state : RangedReadState) (no_candidates unverifiable : bool) (scan : AmbiguousScan)
    (anomalies : ReadAnomalies) : Result ReadAnomalies :=
  match as_pending_match scan, as_superseded_match scan with
  | Some a, _ =>
      ok (anomalies <| ra_unknown_writes_materialized ::=
            λ l, l ++ [ambiguous_write_materialized_from_object_message key a actual] |>)
  | None, Some a =>
      ok (anomalies
          <| ra_unknown_writes_materialized ::=
               λ l, l ++ [ambiguous_write_materialized_from_object_message key a actual] |>
          <| ra_unknown_write_value_conflicts ::=
               λ l, l ++ [superseded_ambiguous_object_conflict_message key
                            (rrs_live_object state) a actual] |>)
  | None, None =>
      if unverifiable || as_spans_range scan then ok anomalies else
      if bool_decide (rrs_ambiguous state ≠ []) then
        last_byte ← range_last range;
        ok (anomalies <| ra_unknown_write_value_conflicts ::=
              λ l, l ++ [key +:+ ": ranged GET bytes=" +:+ dec (range_offset range) +:+ "-"
                         +:+ dec last_byte +:+ " returned slice sha " +:+ eo_sha256 actual
                         +:+ " matching no committed value while ambiguous writes exist"] |>)
      else if no_candidates then
        ok (if bool_decide (rrs_live_object state = None)
            then anomalies <| ra_visible_deleted_objects ::=
                   λ l, l ++ [key +:+ ": successful ranged GET had no committed live value"] |>
            else anomalies)
      else
        last_byte ← range_last range;
        ok (anomalies <| ra_corrupted_reads ::=
              λ l, l ++ [key +:+ ": ranged GET bytes=" +:+ dec (range_offset range) +:+ "-"
                         +:+ dec last_byte +:+ " returned slice sha " +:+ eo_sha256 actual
                         +:+ " matching no committed value"] |>)
  end.

Definition verify_ranged_get (key : string) (range : ByteRange) (record : OperationRecord)
    (state : RangedReadState) (anomalies : ReadAnomalies) : Result ReadAnomalies :=
  let actual_sha := default "" (op_value_sha256 record) in
  let actual_len := default 0%N (op_size_bytes record) in
  if bool_decide (actual_len ≠ range_length range) then
    last_byte ← range_last range;
    ok (anomalies <| ra_corrupted_reads ::=
          λ l, l ++ [key +:+ ": ranged GET bytes=" +:+ dec (range_offset range) +:+ "-"
                     +:+ dec last_byte +:+ " returned " +:+ dec actual_len
                     +:+ " bytes instead of " +:+ dec (range_length range)] |>)
  else
    let candidates := ranged_candidates record state in
    found ← scan_candidates actual_sha range candidates false;
    match found with
    | None => ok anomalies
    | Some unverifiable =>
        scan ← try_fold (scan_ambiguous_step actual_sha range) (mkAmbiguousScan false None None)
                 (rrs_ambiguous state);
        ranged_verdict key range (mkExpectedObject actual_sha actual_len) state
          (bool_decide (candidates = [])) unverifiable scan anomalies
    end.

(** ** The replay *)
Record ReplayState := mkReplayState {
  rp_live : gmap string ExpectedObject;
  rp_committed_history : gmap string CommittedWriteHistory;
  rp_ambiguous_writes : gmap string (list AmbiguousWriteAttempt);
  rp_anomalies : ReadAnomalies;
}.
Global Instance ReplayState_eta : Eta ReplayState := λ s,
  mkReplayState (rp_live s) (rp_committed_history s) (rp_ambiguous_writes s) (rp_anomalies s).
Definition initial_replay : ReplayState := mkReplayState ∅ ∅ ∅ no_anomalies.

Definition window_of (r : OperationRecord) (object : ExpectedObject) : CommittedWriteWindow :=
  mkCommittedWriteWindow object (op_ended_at_ms r) (op_ended_sequence r) (op_payload_ref r).

Definition value_mismatch_message (key : string) (expected actual : ExpectedObject) : string :=
  key +:+ ": expected " +:+ eo_sha256 expected +:+ " (" +:+ dec (eo_size_bytes expected)
  +:+ " bytes), got " +:+ eo_sha256 actual +:+ " (" +:+ dec (eo_size_bytes actual) +:+ " bytes)".

(** The comparison of a whole-object GET that did not return the value stably
    live at its start. *)
Definition classify_whole_read (st : ReplayState) (key : string) (record : OperationRecord)
    (actual : ExpectedObject) (stable_expected : option StableLiveObject)
    : Result ReadAnomalies :=
  let anomalies := rp_anomalies st in
  let attempts := default [] (rp_ambiguous_writes st !! key) in
  let live := rp_live st !! key in
  if bool_decide (live = Some actual) then ok anomalies else
  match matching_active_ambiguous_object attempts actual,
        matching_superseded_ambiguous_object attempts actual with
  | Some a, _ =>
      ok (anomalies <| ra_unknown_writes_materialized ::=
            λ l, l ++ [ambiguous_write_materialized_from_object_message key a actual] |>)
  | None, Some a =>
      ok (anomalies
          <| ra_unknown_writes_materialized ::=
               λ l, l ++ [ambiguous_write_materialized_from_object_message key a actual] |>
          <| ra_unknown_write_value_conflicts ::=
               λ l, l ++ [superseded_ambiguous_object_conflict_message key live a actual] |>)
  | None, None =>
      match live with
      | Some expected =>
          if bool_decide (attempts ≠ []) then
            ok (anomalies <| ra_unknown_write_value_conflicts ::=
                  λ l, l ++ [unknown_write_value_conflict_from_object_message key
                               (Some expected) attempts actual] |>)
          else
            h ← expect (rp_committed_history st !! key);
            ok (if concurrent_committed_read h record actual then anomalies
                else anomalies <| ra_corrupted_reads ::=
                       λ l, l ++ [value_mismatch_message key expected actual] |>)
      | None =>
          if bool_decide (attempts ≠ []) then
            ok (anomalies <| ra_unknown_write_value_conflicts ::=
                  λ l, l ++ [unknown_write_value_conflict_from_object_message key None
                               attempts actual] |>)
          else
            ok match stable_expected with
               | Some expected =>
                   anomalies <| ra_corrupted_reads ::=
                     λ l, l ++ [value_mismatch_message key (slo_object expected) actual] |>
               | None =>
                   anomalies <| ra_visible_deleted_objects ::=
                     λ l, l ++ [key +:+ ": successful GET had no committed live value"] |>
               end
      end
  end.

(** The [Get] arm with outcome [Ok]. *)
Definition replay_get (stable_expected : option StableLiveObject) (st : ReplayState)
    (record : OperationRecord) : Result ReadAnomalies :=
  let anomalies := rp_anomalies st in
  match op_version_id record, op_key record with
  | Some _, _ | None, None => ok anomalies
  | None, Some key =>
      match op_range record with
      | Some range =>
          verify_ranged_get key range record
            (mkRangedReadState (from_option cwh_windows [] (rp_committed_history st !! key))
               (default [] (rp_ambiguous_writes st !! key)) stable_expected (rp_live st !! key))
            anomalies
      | None =>
          let actual := mkExpectedObject (default "" (op_value_sha256 record))
                          (default 0%N (op_size_bytes record)) in
          if bool_decide (slo_object <$> stable_expected = Some actual) then ok anomalies
          else classify_whole_read st key record actual stable_expected
      end
  end.

Definition replay_commit (st : ReplayState) (record : OperationRecord) : ReplayState :=
  match record_object record with
  | None => st
  | Some (key, object) =>
      st <| rp_ambiguous_writes ::= mark_superseded_attempts record key |>
         <| rp_committed_history ::= λ h,
              <[key := history_push (default empty_history (h !! key)) (window_of record object)]> h |>
         <| rp_live ::= <[key := object]> |>
  end.

Definition replay_ambiguous (st : ReplayState) (record : OperationRecord) : ReplayState :=
  match record_object record with
  | None => st
  | Some (key, object) =>
      st <| rp_ambiguous_writes ::= push_entry key (attempt_of record object) |>
  end.

Definition replay_delete (st : ReplayState) (record : OperationRecord) : ReplayState :=
  match op_key record with
  | None => st
  | Some key =>
      st <| rp_ambiguous_writes ::= mark_superseded_attempts record key |>
         <| rp_committed_history ::= delete key |>
         <| rp_live ::= delete key |>
  end.

Definition replay_step (stable : gmap nat StableLiveObject) (st : ReplayState)
    (e : nat * OperationRecord) : Result ReplayState :=
  let record := e.2 in
  match op_kind record, op_outcome record with
  | (OperationKind.Put | OperationKind.CompleteMultipartUpload), OperationOutcome.Ok =>
      ok (replay_commit st record)
  | (OperationKind.Put | OperationKind.CompleteMultipartUpload),
      (OperationOutcome.Timeout | OperationOutcome.Unknown) => ok (replay_ambiguous st record)
  | OperationKind.Delete, OperationOutcome.Ok => ok (replay_delete st record)
  | OperationKind.Get, OperationOutcome.Ok =>
      a ← replay_get (stable !! e.1) st record; ok (st <| rp_anomalies := a |>)
  | _, _ => ok st
  end.

Definition successful_read_anomalies (records : list OperationRecord) : Result ReadAnomalies :=
  let stable := stable_live_objects_at_read_starts records in
  st ← try_fold (replay_step stable) initial_replay (enumerate records);
  ok (rp_anomalies st).
End slices.
