(* ===== verification/ReadSweepFacts.v ===== *)
(** The single sweep that computes the values stably live at every read start
    equals a scan of the whole history per read. *)
From S2P Require Import Prelude Ordering RustText History ObjectModel Attempts.
From S2P Require Import ReadAnomalies.
From stdpp Require Import options.
Local Arguments start_time : simpl never.
Local Arguments end_time : simpl never.

(** ** Cutting a sorted list at a time *)
Section cut.
Context {A : Type} (time : A → N).

Definition before (t : N) (x : A) : bool := bool_decide (time x < t)%N.

Lemma filter_before_all t l :
  Forall (λ x, (t ≤ time x)%N) l → filter (before t) l = [].
Proof using Type.
  intros H. apply filter_all_false. eapply Forall_impl; [exact H|]. intros x Hx; simpl in Hx.
  apply bool_decide_eq_false_2. lia.
Qed.

Lemma filter_not_before_all t l :
  Forall (λ x, (t ≤ time x)%N) l → filter (λ x, negb (before t x)) l = l.
Proof using Type.
  induction 1 as [|x l Hx _ IH]; [done|]. rewrite filter_cons.
  assert (before t x = false) as -> by (apply bool_decide_eq_false_2; lia).
  simpl. by rewrite IH.
Qed.

Lemma filter_before_split t0 t l :
  StronglySorted (key_le time) l → (t0 ≤ t)%N →
  filter (before t) l =
  filter (before t0) l ++ filter (before t) (filter (λ x, negb (before t0 x)) l) ∧
  filter (λ x, negb (before t x)) l =
  filter (λ x, negb (before t x)) (filter (λ x, negb (before t0 x)) l).
Proof using Type.
  intros Hs Ht. induction Hs as [|x l Hs IH Hx]; [done|]. destruct IH as [IH1 IH2].
  rewrite !filter_cons. destruct (before t0 x) eqn:H0; simpl.
  - assert (before t x = true) as ->.
    { unfold before in *. apply bool_decide_eq_true in H0. apply bool_decide_eq_true. lia. }
    simpl. by rewrite IH1.
  - assert (Forall (λ y, (t0 ≤ time y)%N) (x :: l)) as Hall.
    { unfold before in H0. apply bool_decide_eq_false in H0. constructor; [lia|].
      eapply Forall_impl; [exact Hx|]. unfold key_le, ord_le. simpl. intros y ?. lia. }
    apply Forall_cons in Hall as [_ Hall].
    rewrite (filter_before_all t0 l Hall), (filter_not_before_all t0 l Hall). simpl.
    by rewrite !filter_cons.
Qed.
End cut.

(** ** The mutation cursor *)
Lemma completed_iff_before records m read :
  use_recorder_sequences records = true → m ∈ records → read ∈ records →
  operation_completed_before_started m read
  = before (end_time true) (start_time true read) m.
Proof.
  unfold use_recorder_sequences. rewrite forallb_forall. intros H Hm Hr.
  apply list_elem_of_In in Hm, Hr. apply H in Hm. apply H in Hr.
  rewrite andb_true_iff, !bool_decide_eq_true in Hm, Hr.
  destruct Hm as [_ [em Hem]], Hr as [[sr Hsr] _].
  unfold operation_completed_before_started, completion_precedes_start, before, end_time, start_time.
  by rewrite Hem, Hsr.
Qed.

Lemma advance_stable_sorted read live muts :
  StronglySorted (key_le (end_time true)) muts →
  Forall (λ m, operation_completed_before_started m read
               = before (end_time true) (start_time true read) m) muts →
  advance_stable read live muts =
  (foldl apply_stable live (filter (before (end_time true) (start_time true read)) muts),
   filter (λ m, negb (before (end_time true) (start_time true read) m)) muts).
Proof.
  intros Hs. revert live. induction Hs as [|m muts Hs IH Hm]; intros live; [done|].
  intros [Hc Hall]%Forall_cons. simpl. rewrite Hc, !filter_cons.
  destruct (before _ _ m) eqn:Hb; simpl; [by apply IH|].
  assert (Forall (λ y, (start_time true read ≤ end_time true y)%N) muts) as Hlate.
  { unfold before in Hb. apply bool_decide_eq_false in Hb. eapply Forall_impl; [exact Hm|].
    intros y Hy. change (end_time true m ≤ end_time true y)%N in Hy. lia. }
  by rewrite filter_before_all, filter_not_before_all.
Qed.

(** ** The sweep *)
Section sweep.
Context (records : list OperationRecord) (Hseq : use_recorder_sequences records = true).

Definition commits_before (t : N) : list OperationRecord :=
  filter (before (end_time true) t) (sorted_commits records).
(** The value of [key] a read starting at [t] finds committed. *)
Definition live_before (t : N) : gmap string StableLiveObject :=
  foldl apply_stable ∅ (commits_before t).

Lemma commits_sorted : StronglySorted (key_le (end_time true)) (sorted_commits records).
Proof using Hseq.
  unfold sorted_commits. rewrite Hseq. apply sort_by_sorted; apply _.
Qed.

Lemma commit_in_records m : m ∈ sorted_commits records → m ∈ records.
Proof using Type.
  unfold sorted_commits, sort_by_key. rewrite elem_of_sort_by, list_elem_of_filter. by intros [_ ?].
Qed.

(** The cursor stands at time [t]. *)
Definition cursor_at (t : N) (live : gmap string StableLiveObject) (rest : list OperationRecord)
    : Prop :=
  live = live_before t ∧
  rest = filter (λ m, negb (before (end_time true) t m)) (sorted_commits records).

Lemma cursor_start : cursor_at 0 ∅ (sorted_commits records).
Proof using Type.
  unfold cursor_at, live_before, commits_before.
  assert (Forall (λ m, (0 ≤ end_time true m)%N) (sorted_commits records)) as H
    by (apply Forall_true; intros; lia).
  by rewrite filter_before_all, filter_not_before_all.
Qed.

Lemma cursor_advance t live rest read :
  read ∈ records → (t ≤ start_time true read)%N → cursor_at t live rest →
  let p := advance_stable read live rest in cursor_at (start_time true read) p.1 p.2.
Proof using Hseq.
  intros Hr Ht [-> ->]. rewrite advance_stable_sorted; cbn [fst snd].
  - destruct (filter_before_split (end_time true) t (start_time true read) _ commits_sorted Ht)
      as [H1 H2].
    split; [|done]. unfold live_before, commits_before. rewrite H1, foldl_app. done.
  - apply StronglySorted_filter, commits_sorted.
  - apply Forall_forall. intros m [_ Hm]%list_elem_of_filter.
    apply (completed_iff_before records); [done| |done]. by apply commit_in_records.
Qed.

(** What a processed read leaves in the table. *)
Definition read_entry (e : nat * OperationRecord * string) : option (nat * StableLiveObject) :=
  s ← live_before (start_time true e.1.2) !! e.2; Some (e.1.1, s).

Lemma sweep_reads reads t live rest stable :
  cursor_at t live rest →
  Forall (λ e, e.1.2 ∈ records ∧ (t ≤ start_time true e.1.2)%N) reads →
  StronglySorted (λ a b, (start_time true a.1.2 ≤ start_time true b.1.2)%N) reads →
  (foldl stable_read_step (live, rest, stable) reads).2 =
  foldl (λ tab p, <[p.1 := p.2]> tab) stable (omap read_entry reads).
Proof using Hseq.
  revert t live rest stable. induction reads as [|[[i read] key] reads IH];
    intros t live rest stable Hc Hall Hs; [done|].
  apply Forall_cons in Hall as [[Hr Ht] Hall]. inversion Hs as [|?? Hs' Hle]; subst.
  pose proof (cursor_advance t live rest read Hr Ht Hc) as Hc'. simpl in *.
  destruct (advance_stable read live rest) as [live' rest']. simpl in Hc'.
  assert (Forall (λ e, e.1.2 ∈ records ∧ (start_time true read ≤ start_time true e.1.2)%N) reads)
    as Hall'.
  { rewrite Forall_forall in *. intros e He. split; [by apply Hall|by apply Hle]. }
  destruct Hc' as [-> ->]. unfold read_entry at 1; simpl.
  destruct (live_before (start_time true read) !! key) as [s|] eqn:Hl; simpl;
    apply (IH (start_time true read)); by try split.
Qed.
End sweep.

(** ** The table *)
Lemma elem_of_enumerate {A} (l : list A) i x : (i, x) ∈ enumerate l ↔ l !! i = Some x.
Proof.
  unfold enumerate. rewrite elem_of_lookup_imap. split; [|eauto].
  by intros (j & y & [= -> ->] & ?).
Qed.

Lemma lookup_table {A} (ps : list (nat * A)) i s :
  (∀ a b, (i, a) ∈ ps → (i, b) ∈ ps → a = b) →
  foldl (λ tab p, <[p.1 := p.2]> tab) (∅ : gmap nat A) ps !! i = Some s ↔ (i, s) ∈ ps.
Proof.
  induction ps as [|[j a] ps IH] using rev_ind; intros Hf.
  { simpl. rewrite lookup_empty, elem_of_nil. by split. }
  rewrite foldl_app, elem_of_app, list_elem_of_singleton. simpl.
  destruct (decide (i = j)) as [->|].
  - rewrite lookup_insert_eq. split; [intros [= <-]; auto|].
    intros Hs. f_equal. apply Hf; set_solver.
  - rewrite lookup_insert_ne, IH by set_solver. naive_solver.
Qed.

Lemma elem_of_sorted_reads records i read key :
  (i, read, key) ∈ sorted_reads records ↔
  records !! i = Some read ∧ is_current_read read = true ∧ op_key read = Some key.
Proof.
  unfold sorted_reads, sort_by_key. rewrite elem_of_sort_by, list_elem_of_omap. split.
  - intros ([j r] & Hin%elem_of_enumerate & Hr). unfold current_read in Hr. simpl in Hr.
    destruct (is_current_read r) eqn:?; [|done].
    apply bind_Some in Hr as (k & ? & [= <- <- <-]). done.
  - intros (Hi & Hr & Hk). exists (i, read). split; [by apply elem_of_enumerate|].
    unfold current_read. simpl. by rewrite Hr, Hk.
Qed.

(** The values a read could find committed when it started, by scanning every
    committed mutation of the history. *)
Definition live_at_start (records : list OperationRecord) (read : OperationRecord)
    : gmap string StableLiveObject :=
  foldl apply_stable ∅
    (filter (λ m, operation_completed_before_started m read) (sorted_commits records)).

Lemma live_before_start records read :
  use_recorder_sequences records = true → read ∈ records →
  live_before records (start_time true read) = live_at_start records read.
Proof.
  intros Hseq Hr. unfold live_before, live_at_start, commits_before. f_equal.
  apply filter_ext_in. intros m Hm. symmetry. apply (completed_iff_before records); [done| |done].
  by apply commit_in_records.
Qed.

Lemma stable_reads_scan records i :
  use_recorder_sequences records = true →
  stable_live_objects_at_read_starts records !! i =
  (read ← records !! i; key ← (if is_current_read read then op_key read else None);
   live_at_start records read !! key).
Proof.
  intros Hseq. unfold stable_live_objects_at_read_starts.
  rewrite (sweep_reads records Hseq (sorted_reads records) 0); cycle 1.
  { apply cursor_start. }
  { apply Forall_forall. intros [[j r] k] (Hj & _)%elem_of_sorted_reads. simpl.
    split; [by eapply list_elem_of_lookup_2|lia]. }
  { eapply StronglySorted_weaken; [|apply (sort_by_sorted (key_le _)); apply _].
    intros [[j r] k] [[j' r'] k'] [H _]. simpl in *. rewrite Hseq in H. exact H. }
  assert (∀ s, (i, s) ∈ omap (read_entry records) (sorted_reads records) ↔
    ∃ read key, records !! i = Some read ∧ is_current_read read = true ∧ op_key read = Some key ∧
      live_at_start records read !! key = Some s) as Hent.
  { intros s. rewrite list_elem_of_omap. split.
    - intros ([[j r] k] & (Hj & Hr & Hk)%elem_of_sorted_reads & He).
      unfold read_entry in He. simpl in He. apply bind_Some in He as (s' & Hs & [= <- <-]).
      rewrite live_before_start in Hs by (done || by eapply list_elem_of_lookup_2). eauto 10.
    - intros (r & k & Hi & Hr & Hk & Hs). exists (i, r, k). rewrite elem_of_sorted_reads.
      split; [done|]. unfold read_entry. simpl.
      rewrite live_before_start by (done || by eapply list_elem_of_lookup_2). by rewrite Hs. }
  apply option_eq. intros s. rewrite lookup_table, Hent.
  - split.
    + intros (r & k & -> & Hr & Hk & Hs). simpl. rewrite Hr. by rewrite Hk.
    + intros (r & -> & (k & Hk & Hs)%bind_Some)%bind_Some.
      destruct (is_current_read r) eqn:Hr; [|done]. by exists r, k.
  - intros a b Ha%Hent Hb%Hent. destruct Ha as (?&?&?&?&?&?), Hb as (?&?&?&?&?&?). congruence.
Qed.

(** C31. On a history whose records all have recorder sequences, the single merge sweep
    of stable_live_objects_at_read_starts over reads and mutations computes, for every
    read, the value obtained by replaying all committed mutations that completed before
    that read started. *)
Theorem stable_reads_equal_per_read_scan records i :
  use_recorder_sequences records = true →
  stable_live_objects_at_read_starts records !! i =
  (read ← records !! i; key ← (if is_current_read read then op_key read else None);
   live_at_start records read !! key).
Proof. apply stable_reads_scan. Qed.
