(* ===== verification/ReadFacts.v ===== *)
(** What the replay of successful reads reports: the per-value completion cache
    equals a scan of the committed windows, the replay never panics on
    well-formed ranges, values nobody wrote are always reported, and ranged
    reads are judged by the slices of the bodies a client could observe. *)
From S2P Require Import Prelude Ordering RustText History Workload ObjectModel Attempts.
From S2P Require Import ReadAnomalies ReadSweepFacts.
From stdpp Require Import options.

(** ** Concurrent committed reads *)
Definition history_of (ws : list CommittedWriteWindow) : CommittedWriteHistory :=
  foldl history_push empty_history ws.

(** The windows before the last one. *)
Definition prior_windows (ws : list CommittedWriteWindow) : list CommittedWriteWindow :=
  take (length ws - 1) ws.

(** The legs a stale read is excused by, checked window by window. *)
Definition overlapping_read (ws : list CommittedWriteWindow) (get : OperationRecord)
    (actual : ExpectedObject) : bool :=
  match last ws with
  | None => false
  | Some latest =>
      existsb (λ w, bool_decide (cww_object w = actual) && negb (window_completed_before w get))
        (prior_windows ws)
      || (negb (window_completed_before latest get)
          && bool_decide (cww_object <$> last (prior_windows ws) = Some actual))
  end.

Lemma prior_windows_snoc ws w : prior_windows (ws ++ [w]) = ws.
Proof.
  unfold prior_windows. rewrite length_app. simpl. rewrite take_app_le by lia.
  rewrite take_ge by lia. done.
Qed.

Lemma history_of_snoc ws w : history_of (ws ++ [w]) = history_push (history_of ws) w.
Proof. unfold history_of. by rewrite foldl_app. Qed.

Lemma history_of_windows ws : cwh_windows (history_of ws) = ws.
Proof.
  induction ws as [|w ws IH] using rev_ind; [done|]. rewrite history_of_snoc. simpl. by rewrite IH.
Qed.

(** The cache holds, per value, a window that no other window outlasts. *)
Definition latest_of (ws : list CommittedWriteWindow) (o : ExpectedObject)
    (c : option (option N * N)) : Prop :=
  match c with
  | None => ∀ w, w ∈ ws → cww_object w ≠ o
  | Some c =>
      ∃ s, c.1 = Some s ∧ (∃ w, w ∈ ws ∧ cww_object w = o ∧ cww_ended_sequence w = Some s) ∧
        ∀ w s', w ∈ ws → cww_object w = o → cww_ended_sequence w = Some s' → (s' ≤ s)%N
  end.

Lemma latest_of_push ws prior o w s :
  (∀ o, latest_of ws o (prior !! o)) → cww_ended_sequence w = Some s →
  latest_of (ws ++ [w]) o
    ((match prior !! cww_object w with
      | Some c => <[cww_object w := later_completion c w]> prior
      | None => <[cww_object w := (cww_ended_sequence w, cww_ended_at_ms w)]> prior
      end : gmap ExpectedObject (option N * N)) !! o).
Proof.
  intros Hp Hs. pose proof (Hp (cww_object w)) as Hw.
  destruct (decide (o = cww_object w)) as [->|Hne].
  - destruct (prior !! cww_object w) as [[cs cm]|] eqn:Hc; rewrite lookup_insert_eq; simpl in *.
    + destruct Hw as (s0 & -> & (w0 & Hw0 & Ho & Hs0) & Hmax).
      unfold later_completion. simpl. rewrite Hs. case_bool_decide; simpl.
      * exists s. split; [done|]. split; [exists w; set_solver|].
        intros w' s' [Hin| ->%list_elem_of_singleton]%elem_of_app Ho' Hs'; [|naive_solver].
        specialize (Hmax w' s' Hin Ho' Hs'). lia.
      * exists s0. split; [done|]. split; [exists w0; set_solver|].
        intros w' s' [Hin| ->%list_elem_of_singleton]%elem_of_app Ho' Hs'; [eauto|].
        simplify_eq. lia.
    + rewrite Hs. exists s. split; [done|]. split; [exists w; set_solver|].
      intros w' s' [Hin| ->%list_elem_of_singleton]%elem_of_app Ho' Hs'; [|naive_solver].
      by destruct (Hw w' Hin).
  - assert ((match prior !! cww_object w with
      | Some c => <[cww_object w := later_completion c w]> prior
      | None => <[cww_object w := (cww_ended_sequence w, cww_ended_at_ms w)]> prior
      end : gmap ExpectedObject (option N * N)) !! o = prior !! o) as ->.
    { destruct (prior !! cww_object w); by rewrite lookup_insert_ne by congruence. }
    specialize (Hp o). destruct (prior !! o) as [[cs cm]|]; simpl in *.
    + destruct Hp as (s0 & -> & (w0 & Hw0 & Ho & Hs0) & Hmax).
      exists s0. split; [done|]. split; [exists w0; set_solver|].
      intros w' s' [Hin| ->%list_elem_of_singleton]%elem_of_app Ho' Hs'; [eauto|congruence].
    + intros w' [Hin| ->%list_elem_of_singleton]%elem_of_app; [by apply Hp|congruence].
Qed.

Lemma history_cache ws o :
  Forall (λ w, is_Some (cww_ended_sequence w)) ws →
  latest_of (prior_windows ws) o (cwh_prior_latest_completion_by_object (history_of ws) !! o).
Proof.
  revert o. induction ws as [|w ws IH] using rev_ind; intros o Hall.
  { simpl. rewrite lookup_empty. simpl. intros w Hw. by apply elem_of_nil in Hw. }
  apply Forall_app in Hall as [Hall _]. rewrite history_of_snoc, prior_windows_snoc.
  unfold history_push; simpl. rewrite history_of_windows.
  destruct ws as [|v ws _] using rev_ind.
  { simpl. rewrite lookup_empty. simpl. intros w' Hw. by apply elem_of_nil in Hw. }
  rewrite last_snoc. apply Forall_app in Hall as [Hall1 [[s Hs] _]%Forall_cons].
  apply (latest_of_push ws _ o v s); [|done]. intros o'.
  specialize (IH o'). rewrite prior_windows_snoc in IH. apply IH.
  apply Forall_app. split; [done|]. repeat constructor. by rewrite Hs.
Qed.

Lemma window_completed_sequences w get s t :
  cww_ended_sequence w = Some s → op_started_sequence get = Some t →
  window_completed_before w get = bool_decide (s < t)%N.
Proof. unfold window_completed_before, completion_precedes_start. by intros -> ->. Qed.

Lemma concurrent_read_scan ws get actual :
  Forall (λ w, is_Some (cww_ended_sequence w)) ws → is_Some (op_started_sequence get) →
  concurrent_committed_read (history_of ws) get actual = overlapping_read ws get actual.
Proof.
  intros Hall [t Ht]. unfold concurrent_committed_read, overlapping_read, split_last.
  rewrite history_of_windows. destruct (last ws) as [latest|] eqn:Hlast; simpl; [|done].
  fold (prior_windows ws). pose proof (history_cache ws actual Hall) as Hc.
  assert (∀ w, w ∈ prior_windows ws → w ∈ ws) as Hsub.
  { intros w [i [Hi _]%lookup_take_Some]%list_elem_of_lookup.
    by eapply list_elem_of_lookup_2. }
  assert (match cwh_prior_latest_completion_by_object (history_of ws) !! actual with
    | Some (es, em) => negb (completion_precedes_start es em (op_started_sequence get)
                               (op_started_at_ms get))
    | None => false
    end = existsb (λ w, bool_decide (cww_object w = actual)
                        && negb (window_completed_before w get)) (prior_windows ws)) as ->.
  { apply eq_bool_prop_intro. rewrite existb_True, Exists_exists.
    destruct (_ !! actual) as [[es em]|]; simpl in *.
    - destruct Hc as (s & -> & (w & Hw & Ho & Hs) & Hmax). unfold completion_precedes_start.
      rewrite Ht, negb_True, bool_decide_spec. split.
      + intros Hlt. exists w. split; [done|]. rewrite andb_True, bool_decide_spec, negb_True.
        rewrite (window_completed_sequences w get s t Hs Ht), bool_decide_spec. done.
      + intros (w' & Hw' & [Ho' Hn]%andb_True). apply bool_decide_spec in Ho'.
        rewrite Forall_forall in Hall. destruct (Hall w' (Hsub w' Hw')) as [s' Hs'].
        rewrite (window_completed_sequences w' get s' t Hs' Ht), negb_True, bool_decide_spec in Hn.
        specialize (Hmax w' s' Hw' Ho' Hs'). lia.
    - split; [done|]. intros (w & Hw & [Ho _]%andb_True). apply bool_decide_spec in Ho.
      by apply Hc in Hw. }
  destruct (existsb _ _); simpl; [done|]. destruct (window_completed_before latest get); simpl; [done|].
  destruct (last (prior_windows ws)) as [p|]; simpl; [|done].
  destruct (cww_object p) as [h z], actual as [h' z']. simpl. repeat case_bool_decide; naive_solver.
Qed.

(** The cached latest completion per value of CommittedWriteHistory makes
    concurrent_committed_read answer exactly as a scan of all committed windows: some
    earlier window of the value overlaps the GET, or it is the previous value while the
    latest write was in flight. *)
Theorem concurrent_read_equals_window_scan ws get actual :
  Forall (λ w, is_Some (cww_ended_sequence w)) ws → is_Some (op_started_sequence get) →
  concurrent_committed_read (history_of ws) get actual = overlapping_read ws get actual.
Proof. apply concurrent_read_scan. Qed.

(** ** Anomalies only accumulate *)
Record extends (a b : ReadAnomalies) : Prop := {
  ext_corrupted : ra_corrupted_reads a `prefix_of` ra_corrupted_reads b;
  ext_visible : ra_visible_deleted_objects a `prefix_of` ra_visible_deleted_objects b;
  ext_materialized : ra_unknown_writes_materialized a `prefix_of` ra_unknown_writes_materialized b;
  ext_conflicts :
    ra_unknown_write_value_conflicts a `prefix_of` ra_unknown_write_value_conflicts b;
}.
Global Instance extends_preorder : PreOrder extends.
Proof.
  split; [by split|]. intros a b c [????] [????]. split; by etrans.
Qed.
Create HintDb anomalies.
#[export] Hint Resolve prefix_app_r : anomalies.
#[export] Hint Extern 0 (_ `prefix_of` _) => reflexivity : anomalies.
Ltac solve_extends := split; simpl; auto with anomalies.

(** ** Ranged reads *)
Lemma bool_decide_elem_cons_ne {A} `{!EqDecision A} (x y : A) l :
  x ≠ y → bool_decide (x ∈ y :: l) = bool_decide (x ∈ l).
Proof. intros Hne. apply bool_decide_ext. rewrite elem_of_cons. naive_solver. Qed.

Definition range_ok (r : ByteRange) : Prop :=
  (1 ≤ range_length r)%N ∧ (range_offset r + range_length r ≤ u64_max)%N.

Section ranged.
Context (sha256_hex : list N → string).

(** The hash of the bytes a reproducible body holds in the range. *)
Definition slice_sha (range : ByteRange) (c : option PayloadRef * N) : option string :=
  p ← c.1;
  if bool_decide (1 ≤ range_length range ∧ range_offset range + range_length range ≤ c.2)%N
  then Some (sha256_hex (take (N.to_nat (range_length range))
               (drop (N.to_nat (range_offset range))
                  (seeded_bytes (payload_seed p) (payload_index p) c.2))))
  else None.

Lemma add_range range :
  range_ok range →
  add_u64 (range_offset range) (range_length range)
  = ok (range_offset range + range_length range)%N.
Proof using Type.
  intros [_ Hu]. unfold add_u64. by rewrite (proj2 (checked_add64_Some _ _ _) (conj eq_refl Hu)).
Qed.

Lemma regenerated_slice_ok p size range :
  range_ok range →
  regenerated_slice_sha sha256_hex p size range = ok (slice_sha range (p, size)).
Proof using Type.
  intros Hr. unfold regenerated_slice_sha, slice_sha. destruct p as [p|]; simpl; [|done].
  rewrite (add_range range Hr). destruct Hr as [H1 _].
  rewrite (bool_decide_eq_false_2 (range_length range = 0%N)), orb_false_r by lia. run_result.
  replace (range_offset range + range_length range - range_offset range)%N
    with (range_length range) by lia.
  repeat case_bool_decide; try done; lia.
Qed.

Lemma scan_candidates_ok actual range cs unv :
  range_ok range →
  scan_candidates sha256_hex actual range cs unv =
  ok (if bool_decide (Some actual ∈ slice_sha range <$> cs) then None
      else Some (unv || bool_decide (None ∈ slice_sha range <$> cs))).
Proof using Type.
  intros Hr. revert unv. induction cs as [|[p size] cs IH]; intros unv;
    cbn [scan_candidates].
  { rewrite !bool_decide_eq_false_2 by (apply not_elem_of_nil). by rewrite orb_false_r. }
  rewrite regenerated_slice_ok, !fmap_cons by done. run_result.
  destruct (slice_sha range (p, size)) as [s|] eqn:Hs.
  - destruct (decide (s = actual)) as [->|Hne].
    + rewrite (bool_decide_eq_true_2 (actual = actual)) by done.
      by rewrite (bool_decide_eq_true_2 (Some actual ∈ _)) by left.
    + rewrite (bool_decide_eq_false_2 (s = actual)), IH by done.
      by rewrite !bool_decide_elem_cons_ne by congruence.
  - rewrite IH, bool_decide_elem_cons_ne by done.
    rewrite (bool_decide_eq_true_2 (None ∈ None :: _)) by left. by rewrite !orb_true_r.
Qed.

Lemma scan_ambiguous_ok actual range l st :
  range_ok range →
  ∃ st', try_fold (scan_ambiguous_step sha256_hex actual range) st l = ok st'.
Proof using Type.
  intros Hr. revert st. induction l as [|a l IH]; intros st; [by eexists|].
  cbn [try_fold].
  assert (∃ st1, scan_ambiguous_step sha256_hex actual range st a = ok st1) as [st1 ->].
  { unfold scan_ambiguous_step. rewrite regenerated_slice_ok by done. run_result.
    destruct (slice_sha _ _); [by eexists|]. rewrite add_range by done. run_result. by eexists. }
  run_result. apply IH.
Qed.

Lemma range_last_ok range :
  range_ok range → range_last range = ok (range_offset range + range_length range - 1)%N.
Proof using Type.
  intros Hr. unfold range_last. rewrite add_range by done. run_result. destruct Hr as [H1 _].
  unfold sub_u64. by rewrite bool_decide_eq_true_2 by lia.
Qed.

(** A range read is provably corrupt: the wrong length, or every observable
    body is reproducible and none has the slice that was read. *)
Definition ranged_corrupt (range : ByteRange) (record : OperationRecord)
    (state : RangedReadState) : Prop :=
  default 0%N (op_size_bytes record) ≠ range_length range ∨
  (rrs_ambiguous state = [] ∧ ranged_candidates record state ≠ [] ∧
   Forall (λ c, ∃ s, slice_sha range c = Some s ∧ s ≠ default "" (op_value_sha256 record))
     (ranged_candidates record state)).

Lemma all_slices_differ range cs actual :
  Forall (λ c, ∃ s, slice_sha range c = Some s ∧ s ≠ actual) cs ↔
  (Some actual ∉ slice_sha range <$> cs) ∧ (None ∉ slice_sha range <$> cs).
Proof using Type.
  rewrite Forall_forall, !list_elem_of_fmap. split.
  - intros H. split; intros (c & Hc & Hin); destruct (H c Hin) as (s & Hs & Hne); congruence.
  - intros [H1 H2] c Hc. destruct (slice_sha range c) as [s|] eqn:Hs; [|naive_solver].
    exists s. split; [done|]. intros ->. naive_solver.
Qed.

Lemma ranged_verdict_cases key range actual state nc unv scan a :
  range_ok range →
  ∃ a', ranged_verdict key range actual state nc unv scan a = ok a' ∧ extends a a' ∧
    (as_pending_match scan = None → as_superseded_match scan = None →
     as_spans_range scan = false →
     (ra_corrupted_reads a' ≠ ra_corrupted_reads a ↔
      unv = false ∧ rrs_ambiguous state = [] ∧ nc = false)) ∧
    (rrs_ambiguous state ≠ [] → ra_corrupted_reads a' = ra_corrupted_reads a).
Proof using Type.
  intros Hr. unfold ranged_verdict.
  destruct (as_pending_match scan) as [p|]; [eexists; split; [done|split; [solve_extends|done]]|].
  destruct (as_superseded_match scan) as [p|]; [eexists; split; [done|split; [solve_extends|done]]|].
  destruct (unv || as_spans_range scan) eqn:Hu.
  { eexists. split; [done|]. split; [done|]. split; [|done]. intros _ _ Hs.
    rewrite Hs, orb_false_r in Hu. split; [done|]. intros [? _]. congruence. }
  apply orb_false_iff in Hu as [-> Hs].
  case_bool_decide as Ha.
  { rewrite range_last_ok by done. run_result. eexists. split; [done|].
    split; [solve_extends|]. split; [|done]. intros _ _ _. split; [done|]. by intros (_ & ? & _). }
  destruct nc.
  { eexists. split; [done|]. split; [case_match; [solve_extends|done]|].
    split; [|done]. intros _ _ _. split; [by case_match|]. by intros (_ & _ & ?). }
  rewrite range_last_ok by done. run_result. eexists. split; [done|].
  split; [solve_extends|]. split; [|done]. intros _ _ _. split; [done|]. intros _ H. simpl in H.
  apply (f_equal length) in H. rewrite length_app in H. simpl in H. lia.
Qed.

Lemma verify_ranged_get_exact key range record state a :
  range_ok range →
  ∃ a', verify_ranged_get sha256_hex key range record state a = ok a' ∧ extends a a' ∧
    (ra_corrupted_reads a' ≠ ra_corrupted_reads a ↔ ranged_corrupt range record state) ∧
    (default 0%N (op_size_bytes record) = range_length range →
     Some (default "" (op_value_sha256 record))
       ∈ slice_sha range <$> ranged_candidates record state → a' = a).
Proof using Type.
  intros Hr. unfold verify_ranged_get, ranged_corrupt.
  case_bool_decide as Hlen.
  { rewrite range_last_ok by done. run_result. eexists. split; [done|].
    split; [solve_extends|]. split; [|done]. split; [by left|]. intros _ H. simpl in H.
    apply (f_equal length) in H. rewrite length_app in H. simpl in H. lia. }
  rewrite scan_candidates_ok by done. run_result. setoid_rewrite all_slices_differ.
  case_bool_decide as Hin.
  { exists a. split; [done|]. split; [done|]. split; [|done]. split; [done|].
    intros [?|(_ & _ & ? & _)]; done. }
  destruct (scan_ambiguous_ok (default "" (op_value_sha256 record)) range (rrs_ambiguous state)
    (mkAmbiguousScan false None None) Hr) as [scan Hscan]. rewrite Hscan. run_result.
  destruct (ranged_verdict_cases key range
    (mkExpectedObject (default "" (op_value_sha256 record)) (default 0%N (op_size_bytes record)))
    state (bool_decide (ranged_candidates record state = []))
    (false || bool_decide (None ∈ slice_sha range <$> ranged_candidates record state)) scan a Hr)
    as (a' & -> & Hext & Hcor & Hamb).
  exists a'. split; [done|]. split; [done|]. split; [|done].
  destruct (decide (rrs_ambiguous state = [])) as [He|Hne].
  - rewrite He in Hscan. injection Hscan as <-. rewrite Hcor by done. simpl.
    rewrite !bool_decide_eq_false, He. split; [|naive_solver]. intros (? & _ & ?). by right.
  - rewrite Hamb by done. split; [done|]. intros [?|[? _]]; done.
Qed.
End ranged.

(** On a non-empty range that fits 64 bits verify_ranged_get never panics and only
    adds anomalies; it reports corruption exactly when the length is wrong or no
    ambiguous write exists and every observable body is reproducible and differs, and a
    slice of an observable committed body is reported as nothing. *)
Theorem ranged_get_judged_by_slices sha256_hex key range record state a :
  range_ok range →
  ∃ a', verify_ranged_get sha256_hex key range record state a = ok a' ∧ extends a a' ∧
    (ra_corrupted_reads a' ≠ ra_corrupted_reads a ↔ ranged_corrupt sha256_hex range record state) ∧
    (default 0%N (op_size_bytes record) = range_length range →
     Some (default "" (op_value_sha256 record))
       ∈ slice_sha sha256_hex range <$> ranged_candidates record state → a' = a).
Proof. apply verify_ranged_get_exact. Qed.
