(* ===== verification/ReplayFacts.v ===== *)
(** The replay as a whole: it never panics on histories with well-formed
    ranges, it reports every whole-object read of a value nobody wrote, and it
    reports nothing on histories whose reads return committed values. *)
From S2P Require Import Prelude Ordering RustText History Workload ObjectModel.
From S2P Require Import ObjectModelFacts Attempts ReadAnomalies ReadSweepFacts.
From S2P Require Import ReadFacts.
From stdpp Require Import options.

Section replay.
Context (sha256_hex : list N → string).

(** A write attempt that may have stored [object] under [key]. *)
Definition writes_value (key : string) (object : ExpectedObject) (r : OperationRecord) : Prop :=
  (op_kind r = OperationKind.Put ∨ op_kind r = OperationKind.CompleteMultipartUpload) ∧
  (op_outcome r = OperationOutcome.Ok ∨ op_outcome r = OperationOutcome.Timeout ∨
   op_outcome r = OperationOutcome.Unknown) ∧
  record_object r = Some (key, object).
Definition written_in (records : list OperationRecord) (key : string) (object : ExpectedObject)
    : Prop := ∃ r, r ∈ records ∧ writes_value key object r.

Global Instance writes_value_dec key object r : Decision (writes_value key object r).
Proof using Type. unfold writes_value. apply _. Defined.
Global Instance written_in_dec records key object : Decision (written_in records key object).
Proof using Type.
  refine (cast_if (decide (Exists (writes_value key object) records)));
    unfold written_in; by rewrite <-Exists_exists.
Defined.

Definition ranges_ok (records : list OperationRecord) : Prop :=
  Forall (λ r, match op_range r with Some range => range_ok range | None => True end) records.

(** ** The state invariant *)
Record replay_inv (seen : list OperationRecord) (st : ReplayState) : Prop := {
  inv_live : ∀ key o, rp_live st !! key = Some o →
    is_Some (rp_committed_history st !! key) ∧ written_in seen key o;
  inv_windows : ∀ key h, rp_committed_history st !! key = Some h →
    ∃ ws, h = history_of ws ∧ ∀ w, w ∈ ws → written_in seen key (cww_object w);
  inv_attempts : ∀ key l a, rp_ambiguous_writes st !! key = Some l → a ∈ l →
    written_in seen key (aw_object a);
}.

Lemma written_in_app seen r key o : written_in seen key o → written_in (seen ++ [r]) key o.
Proof using Type. intros (x & ? & ?). exists x. set_solver. Qed.
Lemma written_in_last seen r key o : writes_value key o r → written_in (seen ++ [r]) key o.
Proof using Type. intros ?. exists r. set_solver. Qed.

Lemma inv_app seen r st : replay_inv seen st → replay_inv (seen ++ [r]) st.
Proof using Type.
  intros [H1 H2 H3]. split.
  - intros key o Hl. destruct (H1 key o Hl). auto using written_in_app.
  - intros key h Hh. destruct (H2 key h Hh) as (ws & -> & Hw).
    exists ws. auto using written_in_app.
  - eauto using written_in_app.
Qed.

Lemma mark_attempt_object r a : aw_object (mark_attempt r a) = aw_object a.
Proof using Type. unfold mark_attempt. by case_match. Qed.

Lemma inv_mark seen r key st :
  replay_inv seen st →
  replay_inv seen (st <| rp_ambiguous_writes ::= mark_superseded_attempts r key |>).
Proof using Type.
  intros [H1 H2 H3]. split; simpl; [done|done|]. intros k l a Hl Ha.
  unfold mark_superseded_attempts in Hl. destruct (decide (key = k)) as [->|].
  - rewrite lookup_alter_eq in Hl. apply fmap_Some in Hl as (l' & Hl & ->).
    apply list_elem_of_fmap in Ha as (b & -> & Hb). rewrite mark_attempt_object. eauto.
  - rewrite lookup_alter_ne in Hl by done. eauto.
Qed.

Lemma inv_commit seen r st :
  replay_inv seen st →
  (op_kind r = OperationKind.Put ∨ op_kind r = OperationKind.CompleteMultipartUpload) →
  op_outcome r = OperationOutcome.Ok → replay_inv (seen ++ [r]) (replay_commit st r).
Proof using Type.
  intros Hinv Hk Ho. unfold replay_commit.
  destruct (record_object r) as [[key o]|] eqn:Hr; [|by apply inv_app].
  assert (writes_value key o r) as Hw by (unfold writes_value; auto).
  apply (inv_mark _ r key), (inv_app _ r) in Hinv.
  destruct Hinv as [H1 H2 H3]. split; simpl in *; [| |done].
  - intros k v Hv. destruct (decide (key = k)) as [->|].
    + rewrite lookup_insert_eq in Hv. injection Hv as <-. rewrite lookup_insert_eq.
      split; [by eexists|by apply written_in_last].
    + rewrite lookup_insert_ne in Hv by done. rewrite lookup_insert_ne by done. by apply H1.
  - intros k h Hh. destruct (decide (key = k)) as [->|].
    + rewrite lookup_insert_eq in Hh. injection Hh as <-.
      destruct (rp_committed_history st !! k) as [h|] eqn:Hold; simpl.
      * destruct (H2 k h Hold) as (ws & -> & Hws). exists (ws ++ [window_of r o]).
        rewrite history_of_snoc. split; [done|].
        intros w [?| ->%list_elem_of_singleton]%elem_of_app; [by apply Hws|by apply written_in_last].
      * exists [window_of r o]. split; [done|]. intros w ->%list_elem_of_singleton.
        by apply written_in_last.
    + rewrite lookup_insert_ne in Hh by done. by apply H2.
Qed.

Lemma inv_ambiguous seen r st :
  replay_inv seen st →
  (op_kind r = OperationKind.Put ∨ op_kind r = OperationKind.CompleteMultipartUpload) →
  (op_outcome r = OperationOutcome.Timeout ∨ op_outcome r = OperationOutcome.Unknown) →
  replay_inv (seen ++ [r]) (replay_ambiguous st r).
Proof using Type.
  intros Hinv Hk Ho. unfold replay_ambiguous. apply (inv_app _ r) in Hinv.
  destruct (record_object r) as [[key o]|] eqn:Hr; [|done].
  assert (writes_value key o r) as Hw by (unfold writes_value; naive_solver).
  destruct Hinv as [H1 H2 H3]. split; simpl; [done|done|]. unfold push_entry. intros k l a Hl Ha.
  destruct (decide (key = k)) as [->|]; [|rewrite lookup_insert_ne in Hl by done; eauto].
  rewrite lookup_insert_eq in Hl. injection Hl as <-.
  apply elem_of_app in Ha as [Ha| ->%list_elem_of_singleton]; [|by apply written_in_last].
  destruct (rp_ambiguous_writes st !! k) eqn:Hold; [eauto|by apply elem_of_nil in Ha].
Qed.

Lemma inv_delete seen r st :
  replay_inv seen st → replay_inv (seen ++ [r]) (replay_delete st r).
Proof using Type.
  intros Hinv. unfold replay_delete. apply (inv_app _ r) in Hinv.
  destruct (op_key r) as [key|]; [|done]. apply (inv_mark _ r key) in Hinv.
  destruct Hinv as [H1 H2 H3]. split; simpl in *; [| |done].
  - intros k o [? ?]%lookup_delete_Some. rewrite lookup_delete_ne by done. by apply H1.
  - intros k h [? ?]%lookup_delete_Some. by apply H2.
Qed.

(** ** One read *)

(** A message about [key] in one of the lists that fail the run. *)
Definition reported (key : string) (a : ReadAnomalies) : Prop :=
  ∃ msg, msg ∈ ra_corrupted_reads a ++ ra_visible_deleted_objects a
               ++ ra_unknown_write_value_conflicts a ∧
    starts_with (key +:+ ": ") msg = true.

Lemma reported_extends key a b : extends a b → reported key a → reported key b.
Proof using Type.
  intros [[l1 H1] [l2 H2] _ [l4 H4]] (msg & Hin & Hs). exists msg. split; [|done].
  rewrite H1, H2, H4. set_solver.
Qed.

Lemma starts_with_key key rest : starts_with (key +:+ ": ") (key +:+ ": " +:+ rest) = true.
Proof using Type. apply starts_with_spec. exists rest. by rewrite append_assoc. Qed.

Lemma cache_from_window ws o c :
  cwh_prior_latest_completion_by_object (history_of ws) !! o = Some c →
  ∃ w, w ∈ ws ∧ cww_object w = o.
Proof using Type.
  revert c. induction ws as [|w ws IH] using rev_ind; intros c.
  { simpl. by rewrite lookup_empty. }
  rewrite history_of_snoc. simpl. rewrite history_of_windows.
  assert (∀ c, cwh_prior_latest_completion_by_object (history_of ws) !! o = Some c →
    ∃ x, x ∈ ws ++ [w] ∧ cww_object x = o) as Hold.
  { intros c' Hc'. destruct (IH c' Hc') as (x & ? & ?). exists x. set_solver. }
  destruct (last ws) as [p|] eqn:Hp; [|by apply Hold].
  apply last_Some_elem_of in Hp. intros Hc.
  destruct (decide (cww_object p = o)) as [<-|]; [exists p; set_solver|].
  destruct (_ !! cww_object p); rewrite lookup_insert_ne in Hc by done; by apply Hold in Hc.
Qed.

Lemma concurrent_read_unwritten ws get actual :
  (∀ w, w ∈ ws → cww_object w ≠ actual) →
  concurrent_committed_read (history_of ws) get actual = false.
Proof using Type.
  intros Hne. unfold concurrent_committed_read, split_last. rewrite history_of_windows.
  destruct (last ws) as [latest|]; simpl; [|done].
  destruct (_ !! actual) as [c|] eqn:Hc.
  { apply cache_from_window in Hc as (w & Hw & Ho). by apply Hne in Hw. }
  destruct (window_completed_before latest get); simpl; [done|].
  destruct (last (take _ _)) as [p|] eqn:Hp; [|done].
  apply last_Some_elem_of in Hp. apply list_elem_of_lookup in Hp as [i [Hi _]%lookup_take_Some].
  apply list_elem_of_lookup_2, Hne in Hi.
  destruct (cww_object p) as [h z], actual as [h' z']. simpl.
  apply andb_false_iff. rewrite !bool_decide_eq_false.
  destruct (decide (h = h')), (decide (z = z')); subst; auto.
Qed.

Lemma classify_whole_read_ok seen st key r actual stable_expected :
  replay_inv seen st →
  ∃ a', classify_whole_read st key r actual stable_expected = ok a' ∧
    extends (rp_anomalies st) a' ∧
    (¬ written_in seen key actual → reported key a').
Proof using Type.
  intros [H1 H2 H3]. unfold classify_whole_read.
  case_bool_decide as Hlive.
  { eexists. split; [done|]. split; [done|]. intros Hn. destruct (H1 _ _ Hlive). done. }
  destruct (matching_active_ambiguous_object _ actual) as [a|] eqn:Ha.
  { eexists. split; [done|]. split; [solve_extends|]. intros Hn. destruct Hn.
    apply rev_find_Some in Ha as (Hin & _ & <-%bool_decide_eq_true).
    destruct (rp_ambiguous_writes st !! key) as [l|] eqn:Hl; simpl in Hin;
      [by eapply H3|by apply elem_of_nil in Hin]. }
  destruct (matching_superseded_ambiguous_object _ actual) as [a|] eqn:Hs.
  { eexists. split; [done|]. split; [solve_extends|]. intros Hn. destruct Hn.
    apply rev_find_Some in Hs as (Hin & _ & <-%bool_decide_eq_true).
    destruct (rp_ambiguous_writes st !! key) as [l|] eqn:Hl; simpl in Hin;
      [by eapply H3|by apply elem_of_nil in Hin]. }
  destruct (rp_live st !! key) as [expected|] eqn:Hl.
  - case_bool_decide as Hatt.
    { eexists. split; [done|]. split; [solve_extends|]. intros _.
      eexists. split; [simpl; rewrite !elem_of_app; do 3 right; left|]. apply starts_with_key. }
    destruct (H1 _ _ Hl) as [[h Hh] _]. rewrite Hh. run_result.
    destruct (H2 _ _ Hh) as (ws & -> & Hws).
    destruct (concurrent_committed_read _ r actual) eqn:Hc.
    { eexists. split; [done|]. split; [done|]. intros Hn. exfalso.
      rewrite concurrent_read_unwritten in Hc; [done|]. intros w Hw <-. destruct Hn. by apply Hws. }
    eexists. split; [done|]. split; [solve_extends|]. intros _.
    eexists. split; [simpl; rewrite !elem_of_app; left; right; left|]. apply starts_with_key.
  - case_bool_decide as Hatt.
    { eexists. split; [done|]. split; [solve_extends|]. intros _.
      eexists. split; [simpl; rewrite !elem_of_app; do 3 right; left|]. apply starts_with_key. }
    destruct stable_expected.
    + eexists. split; [done|]. split; [solve_extends|]. intros _.
      eexists. split; [simpl; rewrite !elem_of_app; left; right; left|]. apply starts_with_key.
    + eexists. split; [done|]. split; [solve_extends|]. intros _.
      eexists. split; [simpl; rewrite !elem_of_app; right; left; right; left|]. apply starts_with_key.
Qed.

(** What a whole-object read returned. *)
Definition observed (r : OperationRecord) : ExpectedObject :=
  mkExpectedObject (default "" (op_value_sha256 r)) (default 0%N (op_size_bytes r)).
Definition whole_read (r : OperationRecord) (key : string) : Prop :=
  is_current_read r = true ∧ op_key r = Some key ∧ op_range r = None.

Lemma replay_step_ok seen stable st i r :
  replay_inv seen st →
  match op_range r with Some range => range_ok range | None => True end →
  ∃ st', replay_step sha256_hex stable st (i, r) = ok st' ∧ replay_inv (seen ++ [r]) st' ∧
    extends (rp_anomalies st) (rp_anomalies st') ∧
    (∀ key, whole_read r key → ¬ written_in seen key (observed r) →
       (slo_object <$> stable !! i) ≠ Some (observed r) → reported key (rp_anomalies st')).
Proof using Type.
  intros Hinv Hrange. unfold replay_step. simpl.
  assert (op_kind r ≠ OperationKind.Get ∨ op_outcome r ≠ OperationOutcome.Ok →
    ∀ key, ¬ whole_read r key) as Hno.
  { intros Hk key (Hr & _). unfold is_current_read in Hr.
    rewrite !andb_true_iff, !bool_decide_eq_true in Hr. naive_solver. }
  destruct (op_kind r) eqn:Hkind, (op_outcome r) eqn:Hout;
    try (eexists; split; [done|]; split; [by apply inv_app|]; split; [done|];
         intros key Hw; destruct (Hno ltac:(auto) key Hw)).
  all: try (eexists; split; [done|]; split; [by apply inv_commit; auto|]; split;
    [unfold replay_commit; by repeat case_match|]; intros key Hw; destruct (Hno ltac:(auto) key Hw)).
  all: try (eexists; split; [done|]; split; [by apply inv_ambiguous; auto|]; split;
    [unfold replay_ambiguous; by repeat case_match|]; intros key Hw; destruct (Hno ltac:(auto) key Hw)).
  all: try (eexists; split; [done|]; split; [by apply inv_delete|]; split;
    [unfold replay_delete; by repeat case_match|]; intros key Hw; destruct (Hno ltac:(auto) key Hw)).
  assert (∃ a', replay_get sha256_hex (stable !! i) st r = ok a' ∧ extends (rp_anomalies st) a' ∧
    (∀ key, whole_read r key → ¬ written_in seen key (observed r) →
       (slo_object <$> stable !! i) ≠ Some (observed r) → reported key a')) as (a' & -> & He & Hr).
  { unfold replay_get. destruct (op_version_id r) eqn:Hv.
    { eexists. split; [done|]. split; [done|]. intros key (Hc & _). unfold is_current_read in Hc.
      rewrite Hv, !andb_true_iff, !bool_decide_eq_true in Hc. naive_solver. }
    destruct (op_key r) as [key|] eqn:Hkey.
    2:{ eexists. split; [done|]. split; [done|]. intros key (_ & ? & _). congruence. }
    destruct (op_range r) as [range|] eqn:Hrg.
    { destruct (verify_ranged_get_exact sha256_hex key range r
        (mkRangedReadState (from_option cwh_windows [] (rp_committed_history st !! key))
           (default [] (rp_ambiguous_writes st !! key)) (stable !! i) (rp_live st !! key))
        (rp_anomalies st) Hrange) as (a' & -> & ? & _).
      eexists. split; [done|]. split; [done|]. intros k (_ & _ & ?). congruence. }
    change (mkExpectedObject (default "" (op_value_sha256 r)) (default 0%N (op_size_bytes r)))
      with (observed r).
    case_bool_decide as Hst.
    { eexists. split; [done|]. split; [done|]. done. }
    destruct (classify_whole_read_ok seen st key r (observed r) (stable !! i) Hinv)
      as (a' & -> & ? & Hrep).
    eexists. split; [done|]. split; [done|]. intros k (_ & Hk & _) Hn _. simplify_eq. auto. }
  run_result. eexists. split; [done|]. split; [|done].
  apply inv_app. destruct Hinv. by split.
Qed.

(** ** The whole history *)
Lemma enumerate_snoc {A} (l : list A) x : enumerate (l ++ [x]) = enumerate l ++ [(length l, x)].
Proof using Type. unfold enumerate. rewrite imap_app. simpl. by rewrite Nat.add_0_r. Qed.

Lemma written_in_mono seen more key o : written_in seen key o → written_in (seen ++ more) key o.
Proof using Type. intros (x & ? & ?). exists x. set_solver. Qed.

Lemma replay_all stable l :
  ranges_ok l →
  ∃ st, try_fold (replay_step sha256_hex stable) initial_replay (enumerate l) = ok st ∧
    replay_inv l st ∧
    ∀ i r key, l !! i = Some r → whole_read r key → ¬ written_in l key (observed r) →
      (slo_object <$> stable !! i) ≠ Some (observed r) → reported key (rp_anomalies st).
Proof using Type.
  induction l as [|r l IH] using rev_ind; intros Hr.
  { eexists. split; [done|]. split; [|intros i r key Hi; by rewrite lookup_nil in Hi].
    split; simpl; intros *; by rewrite lookup_empty. }
  apply Forall_app in Hr as [Hl [Hr _]%Forall_cons].
  destruct (IH Hl) as (st & Hst & Hinv & Hrep).
  destruct (replay_step_ok l stable st (length l) r Hinv Hr) as (st' & Hst' & Hinv' & Hext & Hrep').
  exists st'. split; [|split; [done|]].
  - rewrite enumerate_snoc, try_fold_app, Hst. run_result. cbn [try_fold]. by rewrite Hst'.
  - intros i x key Hi Hw Hn Hs. apply lookup_app_Some in Hi as [Hi|[Hge Hi]].
    + apply (reported_extends _ _ _ Hext). apply (Hrep i x); [done|done| |done].
      intros ?. apply Hn. by apply written_in_mono.
    + apply list_lookup_singleton_Some in Hi as [Hi <-].
      apply Hrep'; [done| |by replace (length l) with i by lia].
      intros ?. apply Hn. by apply written_in_mono.
Qed.

(** The values of the sweep were written. *)
Definition stable_written (records : list OperationRecord) (live : gmap string StableLiveObject)
    : Prop := ∀ key s, live !! key = Some s → written_in records key (slo_object s).

Lemma apply_stable_written records live m :
  m ∈ records → is_committed_mutation m = true →
  stable_written records live → stable_written records (apply_stable live m).
Proof using Type.
  intros Hm Hc Hl key s. unfold is_committed_mutation in Hc.
  apply andb_true_iff in Hc as [Ho%bool_decide_eq_true _]. unfold apply_stable.
  assert (op_kind m = OperationKind.Put ∨ op_kind m = OperationKind.CompleteMultipartUpload →
    match record_object m with
    | Some (key, object) => <[key:=mkStableLiveObject object (op_payload_ref m)]> live
    | None => live end !! key = Some s → written_in records key (slo_object s)) as Hw.
  { intros Hk. destruct (record_object m) as [[k o]|] eqn:Hr; [|apply Hl].
    intros [[<- <-]|[_ ?]]%lookup_insert_Some; [|by apply Hl].
    exists m. split; [done|]. unfold writes_value; simpl. auto. }
  destruct (op_kind m); try apply Hl; auto.
  destruct (op_key m); [|apply Hl]. intros [_ ?]%lookup_delete_Some. by apply Hl.
Qed.

Lemma advance_stable_written records read live muts :
  Forall (λ m, m ∈ records ∧ is_committed_mutation m = true) muts → stable_written records live →
  let p := advance_stable read live muts in
  stable_written records p.1 ∧ Forall (λ m, m ∈ records ∧ is_committed_mutation m = true) p.2.
Proof using Type.
  revert live. induction muts as [|m muts IH]; intros live Hall Hl; [done|]. simpl.
  case_match; [|done]. apply Forall_cons in Hall as [[Hm Hc] Hall].
  apply IH; [done|by apply apply_stable_written].
Qed.

Lemma stable_reads_written records i s r key :
  stable_live_objects_at_read_starts records !! i = Some s →
  records !! i = Some r → op_key r = Some key → written_in records key (slo_object s).
Proof using Type.
  unfold stable_live_objects_at_read_starts. intros Hs Hr Hk.
  assert (∀ reads st, (∀ e, e ∈ reads → records !! e.1.1 = Some e.1.2 ∧ op_key e.1.2 = Some e.2) →
    Forall (λ m, m ∈ records ∧ is_committed_mutation m = true) st.1.2 →
    stable_written records st.1.1 →
    (∀ s, st.2 !! i = Some s → written_in records key (slo_object s)) →
    ∀ s, (foldl stable_read_step st reads).2 !! i = Some s → written_in records key (slo_object s))
    as Hloop.
  { induction reads as [|[[j rd] k] reads IH]; intros [[live muts] tab] He Hm Hl Ht; [done|].
    simpl in *. destruct (advance_stable_written records rd live muts Hm Hl) as [Hl' Hm'].
    destruct (advance_stable rd live muts) as [live' muts']; simpl in *.
    apply IH; simpl; [intros e ?; apply He; set_solver|done|done|].
    destruct (live' !! k) as [v|] eqn:Hv; [|done].
    intros v' [[-> <-]|[_ ?]]%lookup_insert_Some; [|by apply Ht].
    destruct (He (i, rd, k)) as [Hi Hk']; [left|]. simpl in *. simplify_eq. by apply Hl'. }
  apply (Hloop _ _) in Hs; simpl; try done.
  - intros [[j rd] k] (? & _ & ?)%elem_of_sorted_reads. done.
  - apply Forall_forall. intros m. unfold sorted_commits, sort_by_key.
    rewrite elem_of_sort_by, list_elem_of_filter. intros [?%Is_true_true ?]. done.
Qed.

Lemma unwritten_read_reported records i r key :
  ranges_ok records → records !! i = Some r → whole_read r key →
  ¬ written_in records key (observed r) →
  ∃ a, successful_read_anomalies sha256_hex records = ok a ∧ reported key a.
Proof using Type.
  intros Hr Hi Hw Hn. unfold successful_read_anomalies.
  destruct (replay_all (stable_live_objects_at_read_starts records) records Hr)
    as (st & -> & _ & Hrep). run_result. eexists. split; [done|].
  apply (Hrep i r); [done..|].
  intros (s & Hs & Heq)%fmap_Some. apply Hn. rewrite Heq. destruct Hw as (_ & Hk & _).
  by eapply stable_reads_written.
Qed.
End replay.

(** A successful whole-object GET that returned a value no committed or ambiguous
    write of the history wrote to its key is always reported by
    successful_read_anomalies, as a corrupted read, a value conflict or a visible
    deleted object of that key. *)
Theorem unwritten_value_is_reported sha256_hex records i r key :
  ranges_ok records → records !! i = Some r → whole_read r key →
  ¬ written_in records key (observed r) →
  ∃ a, successful_read_anomalies sha256_hex records = ok a ∧ reported key a.
Proof. apply unwritten_read_reported. Qed.

(** ** No false alarms *)
Lemma replay_live_is_model sha256_hex stable l st :
  Forall (λ r, op_mutation_attempts r ≠ Some 0%N) l →
  try_fold (replay_step sha256_hex stable) initial_replay (enumerate l) = ok st →
  rp_live st = om_live (object_model l).
Proof.
  revert st. induction l as [|r l IH] using rev_ind; intros st Hall; [by intros [= <-]|].
  apply Forall_app in Hall as [Hall [Hr _]%Forall_cons].
  rewrite enumerate_snoc, try_fold_app, object_model_snoc, apply_record_live.
  intros (st0 & H0 & H1)%bind_ok. specialize (IH st0 Hall H0). cbn [try_fold] in H1.
  apply bind_ok in H1 as (st1 & H1 & [= <-]). rewrite <-IH.
  assert (never_sent r = false) as Hns.
  { unfold never_sent. by rewrite bool_decide_eq_false_2. }
  unfold replay_step in H1. simpl in H1. unfold committed_effect. rewrite Hns.
  destruct (op_kind r), (op_outcome r); try (by injection H1 as <-).
  all: try (apply bind_ok in H1 as (a & _ & [= <-]); done).
  all: injection H1 as <-; unfold replay_commit, replay_ambiguous, replay_delete.
  all: try (by destruct (record_object r) as [[k o]|]). all: by destruct (op_key r).
Qed.

Lemma clean_step sha256_hex stable st i r :
  rp_anomalies st = no_anomalies →
  (is_current_read r = true → ∃ key, whole_read r key ∧
     (rp_live st !! key = Some (observed r) ∨ (slo_object <$> stable !! i) = Some (observed r))) →
  ∃ st', replay_step sha256_hex stable st (i, r) = ok st' ∧ rp_anomalies st' = no_anomalies.
Proof.
  intros Ha Hread. unfold replay_step. simpl.
  destruct (op_kind r) eqn:Hk, (op_outcome r) eqn:Ho; try (eexists; split; [done|]);
    unfold replay_commit, replay_ambiguous, replay_delete; repeat case_match; try done.
  assert (replay_get sha256_hex (stable !! i) st r = ok no_anomalies) as ->; [|by eexists].
  unfold replay_get. rewrite Ha. destruct (op_version_id r) eqn:Hv; [done|].
  destruct Hread as (key & (_ & -> & ->) & Hval).
  { unfold is_current_read. by rewrite Hk, Ho, Hv. }
  fold (observed r). case_bool_decide as Hs; [done|]. destruct Hval as [Hval|]; [|done].
  unfold classify_whole_read. rewrite bool_decide_eq_true_2 by done. by rewrite Ha.
Qed.

(** Every successful current read returns the value committed when it was
    recorded, or the one stably live when it started. *)
Definition reads_committed_values (records : list OperationRecord) : Prop :=
  ∀ i r, records !! i = Some r → is_current_read r = true → ∃ key, whole_read r key ∧
    (om_live (object_model (take i records)) !! key = Some (observed r) ∨
     slo_object <$> stable_live_objects_at_read_starts records !! i = Some (observed r)).

(** When every successful GET of a history is a whole-object read of the value
    stably live when it started or of the latest committed value,
    successful_read_anomalies reports nothing. *)
Theorem committed_reads_raise_no_anomaly sha256_hex records :
  Forall (λ r, op_mutation_attempts r ≠ Some 0%N) records → reads_committed_values records →
  successful_read_anomalies sha256_hex records = ok no_anomalies.
Proof.
  intros Hall Hreads. unfold successful_read_anomalies.
  set (stable := stable_live_objects_at_read_starts records) in *.
  assert (∀ n, ∃ st, try_fold (replay_step sha256_hex stable) initial_replay
    (enumerate (take n records)) = ok st ∧ rp_anomalies st = no_anomalies) as Hpre.
  { induction n as [|n (st & Hst & Ha)]; [by eexists|].
    destruct (records !! n) as [r|] eqn:Hn.
    2:{ apply lookup_ge_None in Hn. exists st. rewrite take_ge in * by lia. done. }
    destruct (clean_step sha256_hex stable st n r Ha) as (st' & Hst' & Ha').
    { intros Hc. destruct (Hreads n r Hn Hc) as (key & Hw & Hv). exists key. split; [done|].
      by rewrite (replay_live_is_model _ _ _ _ (Forall_take _ _ _ Hall) Hst). }
    exists st'. split; [|done]. rewrite (take_S_r _ _ _ Hn), enumerate_snoc, try_fold_app, Hst.
    run_result. cbn [try_fold]. rewrite length_take, Nat.min_l, Hst'; [done|].
    apply lookup_lt_Some in Hn. lia. }
  destruct (Hpre (length records)) as (st & Hst & Ha). rewrite firstn_all in Hst.
  rewrite Hst. run_result. by rewrite Ha.
Qed.
