(* ===== verification/ListHistory.v ===== *)
(** The replay of the LIST operations of a history ([list_history_warnings] of
    [src/fault/checker.rs]): each listing is compared with the keys whose last
    mutation completed before it started. *)
From S2P Require Import Prelude Ordering RustText History ObjectModel Attempts.
From S2P Require Import ReadAnomalies.
From stdpp Require Import options.

Definition MAX_WARNING_SAMPLES : N := 50.

Record WarningSummary := mkWarningSummary {
  ws_total_count : N;
  ws_samples : list string;
}.
Definition no_warnings : WarningSummary := mkWarningSummary 0 [].
Definition push_warning (w : WarningSummary) (warning : string) : WarningSummary :=
  mkWarningSummary (ws_total_count w + 1)
    (if bool_decide (len (ws_samples w) < MAX_WARNING_SAMPLES)%N
     then ws_samples w ++ [warning] else ws_samples w).
Definition push_warnings (w : WarningSummary) (l : list string) : WarningSummary :=
  foldl push_warning w l.

(** [iter().take_while(p)]. *)
Fixpoint take_while {A} (p : A → bool) (l : list A) : list A :=
  match l with
  | [] => []
  | x :: l => if p x then x :: take_while p l else []
  end.

(** [set.range(prefix..).take_while(|key| key.starts_with(prefix))] over the
    sorted keys of a map or set. *)
Definition keys_with_prefix (prefix : string) (sorted_keys : list string) : list string :=
  take_while (starts_with prefix) (filter (λ k, ord_le prefix k) sorted_keys).

Definition is_successful_list (r : OperationRecord) : bool :=
  bool_decide (op_kind r = OperationKind.List) && bool_decide (op_outcome r = OperationOutcome.Ok).

Definition sorted_mutations (records : list OperationRecord) : list (nat * OperationRecord) :=
  let sequences := use_recorder_sequences records in
  sort_by_key (λ e : nat * OperationRecord, (end_time sequences e.2, e.1))
    (filter (λ e, is_mutation_kind (op_kind e.2)) (enumerate records)).
Definition sorted_lists (records : list OperationRecord) : list (nat * OperationRecord) :=
  let sequences := use_recorder_sequences records in
  sort_by_key (λ e : nat * OperationRecord, (start_time sequences e.2, e.1))
    (filter (λ e, is_successful_list e.2) (enumerate records)).

Fixpoint advance_model (record : OperationRecord) (stable : ObjectModel)
    (mutations : list (nat * OperationRecord)) : ObjectModel * list (nat * OperationRecord) :=
  match mutations with
  | [] => (stable, [])
  | m :: rest =>
      if operation_completed_before_started m.2 record
      then advance_model record (apply_record_to_model stable m.2) rest
      else (stable, mutations)
  end.

(** The warnings of one listing; [None] when the record has no prefix. *)
Definition list_warnings_of (stable : ObjectModel) (record : OperationRecord)
    : option WarningSummary :=
  match op_key record with
  | None => None
  | Some prefix =>
      match op_listed_keys record with
      | None =>
          Some (push_warning no_warnings ("LIST " +:+ op_id record +:+ " did not record returned keys"))
      | Some listed_keys =>
          let listed := to_set listed_keys in
          let missing :=
            filter (λ k, k ∉ listed) (keys_with_prefix prefix (map_keys (om_live stable))) in
          let ghosts :=
            filter (λ k, k ∈ listed) (keys_with_prefix prefix (set_elems (om_deleted stable))) in
          let w := push_warnings no_warnings
            ((λ key, "LIST " +:+ op_id record +:+ " prefix " +:+ prefix
                     +:+ " did not include stable live key " +:+ key) <$> missing) in
          Some (push_warnings w
            ((λ key, "LIST " +:+ op_id record +:+ " prefix " +:+ prefix
                     +:+ " included stable deleted key " +:+ key) <$> ghosts))
      end
  end.

Definition list_step
    (st : ObjectModel * list (nat * OperationRecord) * list (nat * WarningSummary))
    (e : nat * OperationRecord) :=
  let '(stable, mutations, warnings_by_record) := st in
  let '(stable, mutations) := advance_model e.2 stable mutations in
  (stable, mutations,
   match list_warnings_of stable e.2 with
   | Some w => warnings_by_record ++ [(e.1, w)]
   | None => warnings_by_record
   end).

Definition merge_warnings (w : WarningSummary) (e : nat * WarningSummary) : WarningSummary :=
  let remaining := N.to_nat (MAX_WARNING_SAMPLES - len (ws_samples w)) in
  mkWarningSummary (ws_total_count w + ws_total_count e.2)
    (ws_samples w ++ take remaining (ws_samples e.2)).

Definition list_history_warnings (records : list OperationRecord) : WarningSummary :=
  let st := foldl list_step (empty_model, sorted_mutations records, []) (sorted_lists records) in
  let w := foldl merge_warnings no_warnings (sort_by_key fst st.2) in
  mkWarningSummary (ws_total_count w) (sort (ws_samples w)).
