(* ===== verification/ListHistoryFacts.v ===== *)
(** The LIST replay reports exactly the keys each listing should not have
    missed or shown, whatever the order of the records, within a bounded
    sample; the ordered range scan is the filter by prefix. *)
From S2P Require Import Prelude Ordering RustText History ObjectModel Attempts.
From S2P Require Import ReadAnomalies ListHistory ReadSweepFacts.
From stdpp Require Import options.
Local Arguments start_time : simpl never.
Local Arguments end_time : simpl never.

(** ** The range scan *)
Lemma prefix_le p r : ord_le p (p +:+ r).
Proof.
  unfold ord_le; simpl. unfold String.le. apply Is_true_true. unfold String.leb.
  induction p as [|c p IH]; [by destruct r|]. rewrite append_cons. simpl.
  assert (Ascii.compare c c = Eq) as ->; [|done].
  unfold Ascii.compare. apply N.compare_refl.
Qed.

Lemma prefix_between p a r : ord_le p a → ord_le a (p +:+ r) → starts_with p a = true.
Proof.
  unfold ord_le; simpl. unfold String.le. rewrite !Is_true_true. unfold String.leb.
  intros H1 H2. apply starts_with_spec. revert a H1 H2.
  induction p as [|c p IH]; intros a H1 H2; [by exists a|].
  destruct a as [|d a]; [done|]. rewrite append_cons in H2. simpl in *.
  assert (c = d) as ->.
  { unfold Ascii.compare in *. rewrite (N.compare_antisym (N_of_ascii c)) in H2.
    destruct (N.compare_spec (N_of_ascii c) (N_of_ascii d)) as [H|H|H]; try done.
    apply (f_equal ascii_of_N) in H. by rewrite !ascii_N_embedding in H. }
  assert (Ascii.compare d d = Eq) as Hd by (unfold Ascii.compare; apply N.compare_refl).
  rewrite Hd in *. destruct (IH a H1 H2) as [r' ->]. by exists r'.
Qed.

Lemma starts_with_ge p k : starts_with p k = true → ord_le p k.
Proof. intros [r ->]%starts_with_spec. apply prefix_le. Qed.

Lemma prefix_scan prefix keys :
  StronglySorted ord_le keys →
  keys_with_prefix prefix keys = filter (starts_with prefix) keys.
Proof.
  unfold keys_with_prefix. induction 1 as [|k keys Hs IH Hk]; [done|].
  rewrite !filter_cons. destruct (starts_with prefix k) eqn:Hp.
  - rewrite decide_True by (by apply starts_with_ge). cbn [take_while]. rewrite Hp, IH. done.
  - case_decide as Hle; [|by rewrite IH]. cbn [take_while]. rewrite Hp. symmetry. apply filter_all_false.
    apply Forall_forall. intros k' Hk'. apply not_true_is_false. intros [r ->]%starts_with_spec.
    rewrite Forall_forall in Hk. specialize (Hk _ Hk').
    rewrite (prefix_between prefix k r) in Hp; done.
Qed.

(** ** Counting warnings *)
Lemma push_warnings_count w l :
  ws_total_count (push_warnings w l) = (ws_total_count w + len l)%N ∧
  len (ws_samples (push_warnings w l)) =
  (len (ws_samples w) + (MAX_WARNING_SAMPLES - len (ws_samples w)) `min` len l)%N.
Proof.
  assert (len (@nil string) = 0%N) as Hnil by done.
  unfold push_warnings. revert w. induction l as [|x l IH]; intros w.
  { rewrite Hnil. simpl. lia. }
  cbn [foldl]. destruct (IH (push_warning w x)) as [-> ->]. rewrite len_cons.
  unfold push_warning; simpl. case_bool_decide.
  - rewrite len_app, len_cons, Hnil. lia.
  - lia.
Qed.

(** The keys a listing should have shown, and those it should not have. *)
Definition missed_keys (stable : ObjectModel) (prefix : string) (listed : list string)
    : list string :=
  filter (λ k, starts_with prefix k = true ∧ k ∉ listed) (map_keys (om_live stable)).
Definition ghost_keys (stable : ObjectModel) (prefix : string) (listed : list string)
    : list string :=
  filter (λ k, starts_with prefix k = true ∧ k ∈ listed) (set_elems (om_deleted stable)).
Definition expected_warnings (stable : ObjectModel) (record : OperationRecord) : N :=
  match op_key record, op_listed_keys record with
  | None, _ => 0
  | Some _, None => 1
  | Some prefix, Some listed =>
      len (missed_keys stable prefix listed) + len (ghost_keys stable prefix listed)
  end%N.

Lemma filter_prefix_filter (P : string → Prop) (Q : string → Prop) `{!∀ k, Decision (P k)}
    `{!∀ k, Decision (Q k)} prefix keys :
  StronglySorted ord_le keys → (∀ k, P k ↔ Q k) →
  filter P (keys_with_prefix prefix keys) = filter (λ k, starts_with prefix k = true ∧ Q k) keys.
Proof.
  intros Hs HPQ. rewrite prefix_scan by done. rewrite list_filter_filter. apply list_filter_iff.
  intros k. rewrite HPQ, Is_true_true. naive_solver.
Qed.

Lemma list_warnings_count stable record :
  from_option ws_total_count 0%N (list_warnings_of stable record)
  = expected_warnings stable record ∧
  match list_warnings_of stable record with
  | Some w => len (ws_samples w) = (MAX_WARNING_SAMPLES `min` ws_total_count w)%N
  | None => True
  end.
Proof.
  unfold list_warnings_of, expected_warnings. destruct (op_key record) as [prefix|]; [|done].
  destruct (op_listed_keys record) as [listed|]; [|done]. cbn [from_option].
  rewrite (filter_prefix_filter _ (λ k, k ∉ listed)); cycle 1.
  { apply set_elems_sorted. }
  { intros k. by rewrite elem_of_to_set. }
  rewrite (filter_prefix_filter _ (λ k, k ∈ listed)); cycle 1.
  { apply set_elems_sorted. }
  { intros k. by rewrite elem_of_to_set. }
  fold (missed_keys stable prefix listed). fold (ghost_keys stable prefix listed).
  match goal with |- context [push_warnings (push_warnings no_warnings ?a) ?b] =>
    destruct (push_warnings_count no_warnings a) as [H1 H2];
    destruct (push_warnings_count (push_warnings no_warnings a) b) as [H3 H4] end.
  rewrite H4, H3, H2, H1. unfold len in *. rewrite !length_fmap. simpl. lia.
Qed.

(** ** The sweep *)
Definition mutation_time (e : nat * OperationRecord) : N := end_time true e.2.

Lemma advance_model_sorted record stable muts :
  StronglySorted (key_le mutation_time) muts →
  Forall (λ e, operation_completed_before_started e.2 record
               = before mutation_time (start_time true record) e) muts →
  advance_model record stable muts =
  (foldl apply_record_to_model stable
     (filter (before mutation_time (start_time true record)) muts).*2,
   filter (λ e, negb (before mutation_time (start_time true record) e)) muts).
Proof.
  intros Hs. revert stable. induction Hs as [|m muts Hs IH Hm]; intros stable; [done|].
  intros [Hc Hall]%Forall_cons. simpl. rewrite Hc, !filter_cons.
  destruct (before _ _ m) eqn:Hb; simpl; [by apply IH|].
  assert (Forall (λ y, (start_time true record ≤ mutation_time y)%N) muts) as Hlate.
  { unfold before in Hb. apply bool_decide_eq_false in Hb. eapply Forall_impl; [exact Hm|].
    intros y Hy. change (mutation_time m ≤ mutation_time y)%N in Hy. lia. }
  by rewrite filter_before_all, filter_not_before_all.
Qed.

(** The model of the mutations that completed before [record] started. *)
Definition model_at_start (records : list OperationRecord) (record : OperationRecord)
    : ObjectModel :=
  object_model
    (filter (λ m, operation_completed_before_started m record) (sorted_mutations records).*2).

Section list_sweep.
Context (records : list OperationRecord) (Hseq : use_recorder_sequences records = true).

Lemma sorted_mutations_time : StronglySorted (key_le mutation_time) (sorted_mutations records).
Proof using Hseq.
  unfold sorted_mutations. rewrite Hseq.
  eapply StronglySorted_weaken; [|apply (sort_by_sorted (key_le _)); apply _].
  intros [i m] [j n] [H _]. exact H.
Qed.

Lemma mutation_in_records e : e ∈ sorted_mutations records → e.2 ∈ records.
Proof using Type.
  unfold sorted_mutations, sort_by_key. rewrite elem_of_sort_by, list_elem_of_filter.
  destruct e as [i r]. intros [_ Hi%elem_of_enumerate]. simpl. by eapply list_elem_of_lookup_2.
Qed.

Lemma list_in_records i r : (i, r) ∈ sorted_lists records → r ∈ records.
Proof using Type.
  unfold sorted_lists, sort_by_key. rewrite elem_of_sort_by, list_elem_of_filter.
  intros [_ Hi%elem_of_enumerate]. by eapply list_elem_of_lookup_2.
Qed.

Lemma completed_mutation e r :
  e ∈ sorted_mutations records → r ∈ records →
  operation_completed_before_started e.2 r = before mutation_time (start_time true r) e.
Proof using Hseq.
  intros He Hr. apply (completed_iff_before records); [done| |done]. by apply mutation_in_records.
Qed.

Definition model_cursor (t : N) (stable : ObjectModel) (rest : list (nat * OperationRecord))
    : Prop :=
  stable = object_model (filter (before mutation_time t) (sorted_mutations records)).*2 ∧
  rest = filter (λ e, negb (before mutation_time t e)) (sorted_mutations records).

Lemma model_cursor_start : model_cursor 0 empty_model (sorted_mutations records).
Proof using Type.
  assert (Forall (λ e, (0 ≤ mutation_time e)%N) (sorted_mutations records)) as H
    by (apply Forall_true; intros; lia).
  unfold model_cursor. by rewrite filter_before_all, filter_not_before_all.
Qed.

Lemma model_cursor_advance t stable rest r :
  r ∈ records → (t ≤ start_time true r)%N → model_cursor t stable rest →
  let p := advance_model r stable rest in model_cursor (start_time true r) p.1 p.2.
Proof using Hseq.
  intros Hr Ht [-> ->]. rewrite advance_model_sorted; cbn [fst snd].
  - destruct (filter_before_split mutation_time t (start_time true r) _ sorted_mutations_time Ht)
      as [H1 H2].
    split; [|done]. rewrite H1, fmap_app. unfold object_model. by rewrite foldl_app.
  - apply StronglySorted_filter, sorted_mutations_time.
  - apply Forall_forall. intros m [_ Hm]%list_elem_of_filter. by apply completed_mutation.
Qed.

Lemma model_cursor_at r stable rest :
  r ∈ records → model_cursor (start_time true r) stable rest → stable = model_at_start records r.
Proof using Hseq.
  intros Hr [-> _]. unfold model_at_start. f_equal.
  assert (∀ l, (∀ e, e ∈ l → e ∈ sorted_mutations records) →
    (filter (before mutation_time (start_time true r)) l).*2 =
    filter (λ m, operation_completed_before_started m r) l.*2) as H; [|by apply H].
  induction l as [|e l IH]; intros Hin; [done|]. rewrite fmap_cons, !filter_cons.
  rewrite <-(completed_mutation e r) by (done || apply Hin; left).
  specialize (IH (λ e' He', Hin e' (list_elem_of_further _ _ _ He'))).
  destruct (operation_completed_before_started e.2 r); [|exact IH].
  rewrite !decide_True, fmap_cons by done. by rewrite IH.
Qed.

Definition list_entry (e : nat * OperationRecord) : option (nat * WarningSummary) :=
  w ← list_warnings_of (model_at_start records e.2) e.2; Some (e.1, w).

Lemma sweep_lists lists t stable rest acc :
  model_cursor t stable rest →
  Forall (λ e, e.2 ∈ records ∧ (t ≤ start_time true e.2)%N) lists →
  StronglySorted (λ a b, (start_time true a.2 ≤ start_time true b.2)%N) lists →
  (foldl list_step (stable, rest, acc) lists).2 = acc ++ omap list_entry lists.
Proof using Hseq.
  revert t stable rest acc. induction lists as [|[i r] lists IH];
    intros t stable rest acc Hc Hall Hs; [by rewrite app_nil_r|].
  apply Forall_cons in Hall as [[Hr Ht] Hall]. inversion Hs as [|?? Hs' Hle]; subst.
  pose proof (model_cursor_advance t stable rest r Hr Ht Hc) as Hc'. simpl in *.
  destruct (advance_model r stable rest) as [stable' rest']. simpl in Hc'.
  assert (Forall (λ e, e.2 ∈ records ∧ (start_time true r ≤ start_time true e.2)%N) lists)
    as Hall'.
  { rewrite Forall_forall in *. intros e He. split; [by apply Hall|by apply Hle]. }
  rewrite (IH (start_time true r)) by done.
  rewrite (model_cursor_at r stable' rest' Hr Hc'). unfold list_entry at 2. simpl.
  destruct (list_warnings_of _ r); simpl; [|done]. by rewrite <-app_assoc.
Qed.

Lemma list_sweep_warnings :
  (foldl list_step (empty_model, sorted_mutations records, []) (sorted_lists records)).2
  = omap list_entry (sorted_lists records).
Proof using Hseq.
  rewrite (sweep_lists _ 0); [done|apply model_cursor_start| |].
  - apply Forall_forall. intros [i r] Hr%list_in_records. split; [done|lia].
  - unfold sorted_lists. rewrite Hseq.
    eapply StronglySorted_weaken; [|apply (sort_by_sorted (key_le _)); apply _].
    intros [i m] [j n] [H _]. exact H.
Qed.
End list_sweep.

(** ** Merging *)
Lemma merge_warnings_count ws w :
  Forall (λ e, len (ws_samples e.2) = (MAX_WARNING_SAMPLES `min` ws_total_count e.2)%N) ws →
  len (ws_samples w) = (MAX_WARNING_SAMPLES `min` ws_total_count w)%N →
  let w' := foldl merge_warnings w ws in
  ws_total_count w' = (ws_total_count w + sum_N ((λ e, ws_total_count e.2) <$> ws))%N ∧
  len (ws_samples w') = (MAX_WARNING_SAMPLES `min` ws_total_count w')%N.
Proof.
  intros Hall. revert w. induction Hall as [|[i v] ws Hv _ IH]; intros w Hw.
  { simpl. lia. }
  cbn [foldl]. rewrite fmap_cons, sum_N_cons.
  destruct (IH (merge_warnings w (i, v))) as [-> ->].
  { unfold merge_warnings. simpl. rewrite len_app. simpl in Hv.
    unfold len in *. rewrite length_take. lia. }
  unfold merge_warnings. simpl. lia.
Qed.

Lemma omap_counts records lists :
  sum_N ((λ e, ws_total_count e.2) <$> omap (list_entry records) lists) =
  sum_N ((λ e, expected_warnings (model_at_start records e.2) e.2) <$> lists).
Proof.
  induction lists as [|[i r] lists IH]; [done|]. rewrite fmap_cons, sum_N_cons, <-IH. simpl.
  unfold list_entry at 1. simpl.
  destruct (list_warnings_count (model_at_start records r) r) as [<- _].
  by destruct (list_warnings_of (model_at_start records r) r).
Qed.

Lemma filter_enumerate_records (P : OperationRecord → bool) (l : list OperationRecord) :
  (filter (λ e, P e.2) (enumerate l)).*2 = filter P l.
Proof.
  induction l as [|x l IH] using rev_ind; [done|].
  unfold enumerate in *. rewrite imap_app, !filter_app, fmap_app, IH. f_equal.
  simpl. rewrite !filter_cons, !filter_nil. simpl. by destruct (P x).
Qed.

(** C32. On a history with recorder sequences, list_history_warnings counts exactly, for
    each successful LIST, the keys under its prefix that were stably live but missing or
    stably deleted but listed when it started, and keeps as many samples as there are
    warnings up to 50. *)
Theorem list_history_counts_every_violation records :
  use_recorder_sequences records = true →
  let w := list_history_warnings records in
  ws_total_count w = sum_N ((λ r, expected_warnings (model_at_start records r) r)
                              <$> filter is_successful_list records) ∧
  len (ws_samples w) = (MAX_WARNING_SAMPLES `min` ws_total_count w)%N.
Proof.
  intros Hseq. unfold list_history_warnings. rewrite list_sweep_warnings by done. simpl.
  set (ws := omap (list_entry records) (sorted_lists records)).
  pose proof (sort_by_perm (key_le (fst (A:=nat) (B:=WarningSummary))) ws) as Hperm.
  destruct (merge_warnings_count (sort_by_key fst ws) no_warnings) as [Hc Hs]; [|done|].
  { apply Forall_forall. intros [i w]. unfold sort_by_key. rewrite elem_of_sort_by.
    intros ([j r] & _ & Hw)%list_elem_of_omap. unfold list_entry in Hw.
    apply bind_Some in Hw as (v & Hv & [= <- <-]). simpl in *.
    destruct (list_warnings_count (model_at_start records r) r) as [_ H]. by rewrite Hv in H. }
  assert (ws_total_count (foldl merge_warnings no_warnings (sort_by_key fst ws)) =
    sum_N ((λ r, expected_warnings (model_at_start records r) r)
      <$> filter is_successful_list records)) as Htot.
  { rewrite Hc. simpl. unfold sort_by_key.
    rewrite (sum_N_perm _ _ (fmap_Permutation (λ e, ws_total_count e.2) _ _ Hperm)).
    unfold ws. rewrite omap_counts. rewrite <-filter_enumerate_records, <-list_fmap_compose.
    apply sum_N_perm, fmap_Permutation. apply sort_by_perm. }
  split; [done|]. unfold len in *. unfold sort. by rewrite sort_by_perm.
Qed.
