(* ===== verification/Lineage.v ===== *)
(** Version lineage ([src/fault/checker.rs]): the versions and delete markers a
    history commits, and what a ListObjectVersions response says about them. *)
From S2P Require Import Prelude Ordering RustText History ObjectModel Attempts.
From S2P Require Import ListHistory.
From stdpp Require Import options.

(** ** Data *)
(** [ObjectVersionEntry] of [src/fault/workload.rs]. *)
Record ObjectVersionEntry := mkObjectVersionEntry {
  ove_key : string;
  ove_version_id : option string;
  ove_is_latest : bool;
  ove_is_delete_marker : bool;
}.
Global Instance ObjectVersionEntry_eq_dec : EqDecision ObjectVersionEntry.
Proof. solve_decision. Defined.

Global Instance ListedVersionEntry_countable : Countable ListedVersionEntry.
Proof.
  apply (inj_countable'
    (λ e, (lve_key e, lve_version_id e, lve_is_latest e, lve_is_delete_marker e))
    (λ '(k, v, l, d), mkListedVersionEntry k v l d)).
  by intros [].
Defined.

Record CommittedVersion := mkCommittedVersion {
  cv_key : string;
  cv_version_id : string;
  cv_sha256 : string;
  cv_size_bytes : N;
  cv_kind : OperationKind.t;
}.
Record CommittedDeleteMarker := mkCommittedDeleteMarker {
  cdm_key : string;
  cdm_version_id : string;
}.
Record VersionLineage := mkVersionLineage {
  vl_versions : list CommittedVersion;
  vl_delete_markers : list CommittedDeleteMarker;
  vl_missing_version_id_count : N;
  vl_missing_version_id_samples : list string;
  vl_delete_marker_lineage_incomplete : list string;
  vl_multipart_upload_lineage_incomplete : list string;
}.
Global Instance VersionLineage_eta : Eta VersionLineage := λ l,
  mkVersionLineage (vl_versions l) (vl_delete_markers l) (vl_missing_version_id_count l)
    (vl_missing_version_id_samples l) (vl_delete_marker_lineage_incomplete l)
    (vl_multipart_upload_lineage_incomplete l).
Definition empty_lineage : VersionLineage := mkVersionLineage [] [] 0 [] [] [].

(** ** Committed lineage *)
Definition is_committed_write (r : OperationRecord) : bool :=
  is_write_kind (op_kind r) && bool_decide (op_outcome r = OperationOutcome.Ok).
(** A successful DELETE without a version id. *)
Definition is_plain_delete (r : OperationRecord) : bool :=
  bool_decide (op_kind r = OperationKind.Delete)
  && bool_decide (op_outcome r = OperationOutcome.Ok)
  && bool_decide (op_request_version_id r = None).
Definition is_committed_delete (r : OperationRecord) : bool :=
  is_plain_delete r && bool_decide (op_is_delete_marker r ≠ Some false).

(** [if samples.len() < MAX_WARNING_SAMPLES { samples.push(message) }]. *)
Definition push_sample (message : string) (samples : list string) : list string :=
  if bool_decide (len samples < MAX_WARNING_SAMPLES)%N then samples ++ [message] else samples.

Definition missing_version_id (lineage : VersionLineage) (r : OperationRecord) (key : string)
    : VersionLineage :=
  let message := op_id r +:+ ": committed " +:+ OperationKind.debug (op_kind r)
                 +:+ " response omitted x-amz-version-id for " +:+ key in
  if is_committed_write r then
    let lineage := lineage <| vl_missing_version_id_count ::= N.succ |>
                           <| vl_missing_version_id_samples ::= push_sample message |> in
    if bool_decide (op_kind r = OperationKind.CompleteMultipartUpload)
    then lineage <| vl_multipart_upload_lineage_incomplete ::= push_sample message |>
    else lineage
  else lineage <| vl_delete_marker_lineage_incomplete ::= push_sample message |>.

Definition lineage_step (lineage : VersionLineage) (r : OperationRecord) : VersionLineage :=
  let lineage :=
    if is_plain_delete r && bool_decide (op_is_delete_marker r = Some false)
    then lineage <| vl_delete_marker_lineage_incomplete ::= λ l,
           l ++ [default "<unknown>" (op_key r)
                 +:+ ": successful unversioned DELETE did not confirm delete-marker creation"] |>
    else lineage in
  if negb (is_committed_write r) && negb (is_committed_delete r) then lineage else
  match op_key r with
  | None => lineage
  | Some key =>
      match op_version_id r with
      | Some version_id =>
          if is_committed_write r then
            match record_object r with
            | None => lineage
            | Some (_, expected) =>
                lineage <| vl_versions ::= λ l,
                  l ++ [mkCommittedVersion key version_id (eo_sha256 expected)
                          (eo_size_bytes expected) (op_kind r)] |>
            end
          else if is_committed_delete r then
            lineage <| vl_delete_markers ::= λ l, l ++ [mkCommittedDeleteMarker key version_id] |>
          else lineage
      | None => missing_version_id lineage r key
      end
  end.

Definition committed_version_lineage (records : list OperationRecord) : VersionLineage :=
  foldl lineage_step empty_lineage records.

(** ** The expected listing *)
Definition lists_version (r : OperationRecord) : bool :=
  bool_decide (op_outcome r = OperationOutcome.Ok) &&
  (is_write_kind (op_kind r)
   || (bool_decide (op_kind r = OperationKind.Delete)
       && bool_decide (op_request_version_id r = None)
       && bool_decide (op_is_delete_marker r ≠ Some false))).

Definition is_immutable_id (id : string) : bool := bool_decide (id ≠ "") && bool_decide (id ≠ "null").

(** The key, version id and marker flag a record lists. *)
Definition listed_identity (r : OperationRecord) : option (string * string * bool) :=
  if lists_version r then
    key ← op_key r; version_id ← op_version_id r;
    if is_immutable_id version_id
    then Some (key, version_id, bool_decide (op_kind r = OperationKind.Delete)) else None
  else None.

Definition checker_expected_version_listing (records : list OperationRecord)
    : gset ListedVersionEntry :=
  let versions := omap listed_identity records in
  let latest_by_key : gmap string (string * bool) :=
    foldl (λ m '(key, version_id, marker), <[key := (version_id, marker)]> m) ∅ versions in
  to_set ((λ '(key, version_id, marker),
             mkListedVersionEntry key (Some version_id)
               (bool_decide (latest_by_key !! key = Some (version_id, marker))) marker)
          <$> versions).

(** ** Listed entries *)
(** [trait ListedVersionIdentity]. *)
Class ListedVersionIdentity (T : Type) := {
  identity_key : T → string;
  identity_version_id : T → option string;
  identity_is_delete_marker : T → bool;
}.
Global Instance ObjectVersionEntry_identity : ListedVersionIdentity ObjectVersionEntry := {|
  identity_key := ove_key;
  identity_version_id := ove_version_id;
  identity_is_delete_marker := ove_is_delete_marker;
|}.
Global Instance ListedVersionEntry_identity : ListedVersionIdentity ListedVersionEntry := {|
  identity_key := lve_key;
  identity_version_id := lve_version_id;
  identity_is_delete_marker := lve_is_delete_marker;
|}.

(** Delete markers a DELETE may have left beyond its committed one. *)
Definition retry_delete_markers (r : OperationRecord) : N :=
  let max_attempts := mutation_attempts r in
  match op_outcome r with
  | OperationOutcome.Ok => max_attempts - 1
  | OperationOutcome.Timeout | OperationOutcome.Unknown => max_attempts
  | OperationOutcome.Failed => max_attempts - 1
  | OperationOutcome.NotFound => 0
  end%N.
Definition retry_delete_budget (records : list OperationRecord) : gmap string N :=
  foldl (λ budget r,
    if bool_decide (op_kind r = OperationKind.Delete)
       && bool_decide (op_request_version_id r = None)
    then match op_key r with
         | Some key => <[key := (default 0 (budget !! key) + retry_delete_markers r)%N]> budget
         | None => budget
         end
    else budget) ∅ records.

Definition marker_identities (markers : list CommittedDeleteMarker) : gset (string * string) :=
  to_set ((λ m, (cdm_key m, cdm_version_id m)) <$> markers).

Record ConflictState := mkConflictState {
  cs_used_retry_deletes : gmap string N;
  cs_seen_identities : gset (string * string);
  cs_conflicts : list string;
}.
Global Instance ConflictState_eta : Eta ConflictState := λ s,
  mkConflictState (cs_used_retry_deletes s) (cs_seen_identities s) (cs_conflicts s).

Definition conflict_step {T} `{!ListedVersionIdentity T} (markers : gset (string * string))
    (budget : gmap string N) (st : ConflictState) (entry : T) : ConflictState :=
  let key := identity_key entry in
  let add msg := st <| cs_conflicts ::= λ l, l ++ [msg] |> in
  match identity_version_id entry with
  | None => add (key +:+ ": ListObjectVersions entry has no immutable version identity")
  | Some version_id =>
      if negb (is_immutable_id version_id) then
        add (key +:+ ": ListObjectVersions entry has no immutable version identity")
      else if bool_decide ((key, version_id) ∈ cs_seen_identities st) then
        add (key +:+ "@" +:+ version_id
             +:+ ": ListObjectVersions returned a duplicate immutable version identity")
      else
        let st := st <| cs_seen_identities ::= λ s, {[(key, version_id)]} ∪ s |> in
        if negb (identity_is_delete_marker entry)
           || bool_decide ((key, version_id) ∈ markers) then st
        else
          let used := default 0%N (cs_used_retry_deletes st !! key) in
          if bool_decide (used < default 0 (budget !! key))%N
          then st <| cs_used_retry_deletes ::= <[key := (used + 1)%N]> |>
          else st <| cs_used_retry_deletes ::= <[key := used]> |>
                  <| cs_conflicts ::= λ l,
                       l ++ [key +:+ "@" +:+ version_id
                             +:+ ": delete marker has no committed or ambiguous DELETE source"] |>
  end.

Definition listed_version_lineage_conflicts {T} `{!ListedVersionIdentity T}
    (records : list OperationRecord) (lineage : VersionLineage) (entries : list T)
    : list string :=
  let markers := marker_identities (vl_delete_markers lineage) in
  cs_conflicts (foldl (conflict_step markers (retry_delete_budget records))
                  (mkConflictState ∅ ∅ []) entries).

(** The identities of the listed entries with a version id. *)
Definition listed_identities (delete_markers : bool) (entries : list ObjectVersionEntry)
    : gset (string * string) :=
  to_set (omap (λ e, version_id ← ove_version_id e; Some (ove_key e, version_id))
            (filter (λ e, ove_is_delete_marker e = delete_markers) entries)).

Definition version_reference (v : CommittedVersion) : string :=
  cv_key v +:+ "@" +:+ cv_version_id v.

Definition missing_committed_version_entries (committed : list CommittedVersion)
    (entries : list ObjectVersionEntry) : list string * list string :=
  let present := listed_identities false entries in
  let missing := filter (λ v, (cv_key v, cv_version_id v) ∉ present) committed in
  ((λ v, version_reference v +:+ ": committed version missing from ListObjectVersions")
     <$> missing,
   (λ v, version_reference v +:+ ": committed multipart completion missing from ListObjectVersions")
     <$> filter (λ v, cv_kind v = OperationKind.CompleteMultipartUpload) missing).

Definition missing_committed_delete_markers (committed : list CommittedDeleteMarker)
    (entries : list ObjectVersionEntry) : list string :=
  let present := listed_identities true entries in
  (λ m, cdm_key m +:+ "@" +:+ cdm_version_id m
        +:+ ": committed delete marker missing from ListObjectVersions")
    <$> filter (λ m, (cdm_key m, cdm_version_id m) ∉ present) committed.

(** The unique latest entry per key, and the keys with several. *)
Definition latest_step (st : gmap string ObjectVersionEntry * gset string)
    (entry : ObjectVersionEntry) : gmap string ObjectVersionEntry * gset string :=
  let key := ove_key entry in
  if negb (ove_is_latest entry) || bool_decide (key ∈ st.2) then st
  else match st.1 !! key with
       | Some _ => (delete key st.1, {[key]} ∪ st.2)
       | None => (<[key := entry]> st.1, st.2)
       end.
Definition latest_version_entries (entries : list ObjectVersionEntry)
    : gmap string ObjectVersionEntry * list string :=
  let st := foldl latest_step (∅, ∅) entries in
  (st.1, (λ key, key +:+ ": ListObjectVersions returned multiple latest entries")
           <$> set_elems st.2).

Definition novel_ambiguous_delete_marker (key : string) (is_delete_marker : bool)
    (version_id : option string) (committed_delete_markers : list (string * string)) : bool :=
  match version_id with
  | None => false
  | Some version_id =>
      is_immutable_id version_id && is_delete_marker
      && negb (bool_decide ((key, version_id) ∈ committed_delete_markers))
  end.

(** ** Uncommitted versions *)
Record AmbiguousVersionCandidate := mkAmbiguousVersionCandidate {
  avc_key : string;
  avc_version_id : string;
  avc_is_latest : bool;
  avc_attempt_summary : string;
}.
Record MaterializedAmbiguousVersion := mkMaterializedAmbiguousVersion {
  mav_key : string;
  mav_version_id : string;
  mav_evidence : string;
  mav_active : bool;
}.

Definition uncommitted_version_missing_id_message (key attempt_summary : string) : string :=
  key +:+ ": uncommitted non-delete version from ListObjectVersions did not include a version id; ambiguous attempts ["
  +:+ attempt_summary +:+ "]".
Definition uncommitted_version_unverified_message (candidate : AmbiguousVersionCandidate)
    (get : GetObjectResult) : string :=
  avc_key candidate +:+ "@" +:+ avc_version_id candidate
  +:+ ": uncommitted version could not be verified; outcome="
  +:+ OperationOutcome.debug (get_outcome get)
  +:+ " status=" +:+ option_debug dec (get_http_status get)
  +:+ " error=" +:+ option_debug str_debug (get_error get)
  +:+ "; ambiguous attempts [" +:+ avc_attempt_summary candidate +:+ "]".
Definition uncommitted_version_value_conflict_message (sha256_hex : list N → string)
    (candidate : AmbiguousVersionCandidate) (body : list N) : string :=
  avc_key candidate +:+ "@" +:+ avc_version_id candidate +:+ ": observed uncommitted version "
  +:+ sha256_hex body +:+ " (" +:+ dec (len body)
  +:+ " bytes), but it matched no ambiguous attempt [" +:+ avc_attempt_summary candidate +:+ "]".

Definition attempt_summary_of (m : ObjectModel) (key : string) : string :=
  match om_version_write_sources m !! key with
  | Some sources => ambiguous_write_attempt_summary (vws_attempt <$> sources)
  | None => ""
  end.

Definition ambiguous_version_candidates (m : ObjectModel) (lineage : VersionLineage)
    (entries : list ObjectVersionEntry) : list AmbiguousVersionCandidate * list string :=
  let committed : gset (string * string) :=
    to_set ((λ v, (cv_key v, cv_version_id v)) <$> vl_versions lineage) in
  foldl (λ st entry,
    let summary := attempt_summary_of m (ove_key entry) in
    match ove_version_id entry with
    | None => (st.1, st.2 ++ [uncommitted_version_missing_id_message (ove_key entry) summary])
    | Some version_id =>
        if bool_decide ((ove_key entry, version_id) ∈ committed) then st
        else (st.1 ++ [mkAmbiguousVersionCandidate (ove_key entry) version_id
                         (ove_is_latest entry) summary], st.2)
    end) ([], []) (filter (λ e, ove_is_delete_marker e = false) entries).

(** [materialized], [conflicts] and the write sources left. *)
Record MaterializedState := mkMaterializedState {
  ms_materialized : list MaterializedAmbiguousVersion;
  ms_conflicts : list string;
  ms_sources : VersionWriteSourceIndex;
}.
Definition evaluate_ambiguous_version_get (sha256_hex : list N → string)
    (st : MaterializedState) (candidate : AmbiguousVersionCandidate) (get : GetObjectResult)
    : Result MaterializedState :=
  let conflict msg :=
    mkMaterializedState (ms_materialized st) (ms_conflicts st ++ [msg]) (ms_sources st) in
  match get_body get, get_outcome get with
  | Some body, OperationOutcome.Ok =>
      p ← take_source (ms_sources st) (avc_key candidate)
            (mkExpectedObject (sha256_hex body) (len body)) (avc_is_latest candidate);
      match p.1 with
      | Some source =>
          ok (mkMaterializedState
                (ms_materialized st ++
                 [mkMaterializedAmbiguousVersion (avc_key candidate) (avc_version_id candidate)
                    (ambiguous_version_materialized_message sha256_hex (avc_key candidate)
                       (avc_version_id candidate) (vwm_attempt source) body)
                    (vwm_active source)])
                (ms_conflicts st) p.2)
      | None =>
          ok (mkMaterializedState (ms_materialized st)
                (ms_conflicts st ++
                 [uncommitted_version_value_conflict_message sha256_hex candidate body]) p.2)
      end
  | _, _ => ok (conflict (uncommitted_version_unverified_message candidate get))
  end.

(** The order in which the observations are evaluated. *)
Definition candidate_order (o : AmbiguousVersionCandidate * GetObjectResult)
    : string * (bool * string) :=
  (avc_key o.1, (negb (avc_is_latest o.1), avc_version_id o.1)).

(** [materialized_ambiguous_versions] once the versioned GETs, completed in any
    order, have returned [observations]. *)
Definition materialized_ambiguous_versions (sha256_hex : list N → string) (m : ObjectModel)
    (conflicts : list string) (observations : list (AmbiguousVersionCandidate * GetObjectResult))
    : Result (list MaterializedAmbiguousVersion * list string) :=
  st ← try_fold (λ st o, evaluate_ambiguous_version_get sha256_hex st o.1 o.2)
         (mkMaterializedState [] conflicts (from_sources (om_version_write_sources m)))
         (sort_by_key candidate_order observations);
  ok (ms_materialized st, ms_conflicts st).
