(* ===== verification/LineageFacts.v ===== *)
(** The version listing checks: the latest entry of a key is the only one
    marked latest, listing conflicts are absent exactly when the entries have
    distinct immutable identities and the surplus delete markers fit the
    retries, and uncommitted versions are matched within budget whatever order
    their reads completed in. *)
From S2P Require Import Prelude Ordering RustText History ObjectModel SourceIndexFacts.
From S2P Require Import Attempts ListHistory Lineage.
From stdpp Require Import options.

(** ** Latest entries *)
Definition latest_of_key (key : string) (entries : list ObjectVersionEntry)
    : list ObjectVersionEntry :=
  filter (λ e, ove_is_latest e = true ∧ ove_key e = key) entries.

Lemma latest_of_key_snoc key entries e :
  latest_of_key key (entries ++ [e]) =
  latest_of_key key entries
  ++ (if decide (ove_is_latest e = true ∧ ove_key e = key) then [e] else []).
Proof. unfold latest_of_key. rewrite filter_app, filter_cons, filter_nil. done. Qed.

Lemma latest_state entries key :
  let st := foldl latest_step (∅, ∅) entries in
  st.1 !! key = match latest_of_key key entries with [e] => Some e | _ => None end ∧
  (key ∈ st.2 ↔ 2 ≤ length (latest_of_key key entries)).
Proof.
  induction entries as [|e entries IH] using rev_ind; [simpl; split; [done|set_solver by lia]|].
  rewrite foldl_app, latest_of_key_snoc. cbn [foldl].
  set (st := foldl latest_step (∅, ∅) entries) in *. simpl in IH. destruct IH as [IH1 IH2].
  unfold latest_step. destruct (ove_is_latest e) eqn:Hl; cbn [negb orb].
  2:{ rewrite decide_False by (by intros []). by rewrite app_nil_r. }
  destruct (decide (ove_key e = key)) as [<-|Hne].
  - rewrite decide_True by done. rewrite length_app. case_bool_decide as Hd.
    + apply IH2 in Hd as Hlen. rewrite IH1.
      destruct (latest_of_key _ entries) as [|a [|b l]]; simpl in *; try lia.
      split; [done|]. split; [lia|done].
    + destruct (latest_of_key (ove_key e) entries) as [|a [|b l]] eqn:E; simpl in *.
      * rewrite IH1. simpl. rewrite lookup_insert_eq. split; [done|]. split; [done|lia].
      * rewrite IH1. simpl. rewrite lookup_delete_eq. split; [done|].
        split; [lia|]. intros _. set_solver.
      * destruct Hd. apply IH2. lia.
  - rewrite decide_False by naive_solver. rewrite app_nil_r, <-IH1, <-IH2.
    case_bool_decide; [done|]. destruct (st.1 !! ove_key e); cbn [fst snd].
    + rewrite lookup_delete_ne by done. split; [done|set_solver].
    + by rewrite lookup_insert_ne by done.
Qed.

(** latest_version_entries maps a key to an entry exactly when that entry is the
    only one of the key marked latest, and reports a conflict for a key exactly when two
    or more of its entries are marked latest. *)
Lemma latest_version_entries_unique entries key :
  let p := latest_version_entries entries in
  p.1 !! key = match latest_of_key key entries with [e] => Some e | _ => None end ∧
  ((key +:+ ": ListObjectVersions returned multiple latest entries")%string ∈ p.2 ↔
   2 ≤ length (latest_of_key key entries)).
Proof.
  unfold latest_version_entries. simpl. destruct (latest_state entries key) as [H1 H2].
  split; [done|]. rewrite <-H2, list_elem_of_fmap. setoid_rewrite elem_of_set_elems. split.
  - intros (k & Heq & Hk). apply append_inj_r in Heq. by subst.
  - intros Hk. by exists key.
Qed.

(** ** Listing conflicts *)
Section conflicts.
Context {T : Type} `{!ListedVersionIdentity T}.
Context (markers : gset (string * string)) (budget : gmap string N).

(** The immutable identity of an entry. *)
Definition entry_identity (e : T) : option (string * string) :=
  version_id ← identity_version_id e;
  if is_immutable_id version_id then Some (identity_key e, version_id) else None.
(** A delete marker no committed DELETE accounts for. *)
Definition surplus_marker (key : string) (e : T) : bool :=
  bool_decide (identity_key e = key) && identity_is_delete_marker e
  && match entry_identity e with Some id => bool_decide (id ∉ markers) | None => false end.
Definition surplus (key : string) (entries : list T) : N :=
  len (filter (surplus_marker key) entries).

Record conflict_free (entries : list T) : Prop := {
  cf_identified : Forall (λ e, is_Some (entry_identity e)) entries;
  cf_distinct : NoDup (entry_identity <$> entries);
  cf_budget : ∀ key, (surplus key entries ≤ default 0 (budget !! key))%N;
}.

Lemma conflict_step_keeps st e :
  cs_conflicts (conflict_step markers budget st e) = [] → cs_conflicts st = [].
Proof using Type.
  unfold conflict_step. repeat case_match; simpl; try done; by intros [? _]%app_nil.
Qed.

Lemma conflicts_nil_prefix entries st :
  cs_conflicts (foldl (conflict_step markers budget) st entries) = [] → cs_conflicts st = [].
Proof using Type.
  revert st. induction entries as [|e entries IH]; intros st; [done|].
  intros H%IH. by eapply conflict_step_keeps.
Qed.

(** The loop state after entries without a conflict. *)
Definition conflict_state (entries : list T) (st : ConflictState) : Prop :=
  cs_conflicts st = [] ∧
  (∀ id, id ∈ cs_seen_identities st ↔ Some id ∈ entry_identity <$> entries) ∧
  (∀ key, default 0%N (cs_used_retry_deletes st !! key) = surplus key entries).

Lemma surplus_snoc key entries e :
  surplus key (entries ++ [e]) =
  (surplus key entries + if surplus_marker key e then 1 else 0)%N.
Proof using Type.
  unfold surplus. rewrite filter_app, len_app, filter_cons, filter_nil.
  by destruct (surplus_marker key e).
Qed.

Lemma conflict_step_spec entries st e :
  conflict_state entries st →
  (cs_conflicts (conflict_step markers budget st e) = [] ↔
   ∃ id, entry_identity e = Some id ∧ (Some id ∉ entry_identity <$> entries) ∧
     ∀ key, surplus_marker key e = true → (surplus key entries < default 0 (budget !! key))%N) ∧
  (cs_conflicts (conflict_step markers budget st e) = [] →
   conflict_state (entries ++ [e]) (conflict_step markers budget st e)).
Proof using Type.
  intros (Hc & Hseen & Hused). unfold conflict_step.
  assert (∀ msg, cs_conflicts st ++ [msg] ≠ []) as Hadd by (intros msg H; by apply app_nil in H as [_ ?]).
  destruct (identity_version_id e) as [v|] eqn:Hv.
  2:{ simpl. split; [|by intros ?%Hadd]. split; [by intros ?%Hadd|].
      intros (id & Hid & _). unfold entry_identity in Hid. by rewrite Hv in Hid. }
  destruct (is_immutable_id v) eqn:Him; simpl.
  2:{ split; [|by intros ?%Hadd]. split; [by intros ?%Hadd|].
      intros (id & Hid & _). unfold entry_identity in Hid. rewrite Hv in Hid. simpl in Hid.
      by rewrite Him in Hid. }
  assert (entry_identity e = Some (identity_key e, v)) as Hid
    by (unfold entry_identity; rewrite Hv; simpl; by rewrite Him).
  rewrite Hid. case_bool_decide as Hin.
  { simpl. split; [|by intros ?%Hadd]. split; [by intros ?%Hadd|].
    intros (id & [= <-] & Hn & _). by apply Hseen in Hin. }
  assert (∀ id, id ∈ {[(identity_key e, v)]} ∪ cs_seen_identities st ↔
    Some id ∈ entry_identity <$> entries ++ [e]) as Hseen'.
  { intros id. rewrite fmap_app, elem_of_app, elem_of_union, elem_of_singleton, Hseen. simpl.
    rewrite Hid, list_elem_of_singleton. naive_solver. }
  assert (Some (identity_key e, v) ∉ entry_identity <$> entries) as Hnew
    by (by rewrite <-Hseen).
  destruct (negb (identity_is_delete_marker e) || bool_decide ((identity_key e, v) ∈ markers)) eqn:Hm.
  - assert (∀ key, surplus_marker key e = false) as Hs.
    { intros key. unfold surplus_marker. rewrite Hid. apply orb_true_iff in Hm as [Hm|Hm].
      - apply negb_true_iff in Hm. rewrite Hm. by rewrite andb_false_r.
      - apply bool_decide_eq_true in Hm. rewrite (bool_decide_eq_false_2 (_ ∉ markers)) by auto.
        by rewrite andb_false_r. }
    simpl. split.
    + split; [|done]. intros _. eexists. split; [done|]. split; [done|].
      intros key. by rewrite Hs.
    + intros _. split; [done|]. split; [done|]. intros key. simpl.
      rewrite Hused, surplus_snoc, Hs. lia.
  - apply orb_false_iff in Hm as [Hm1%negb_false_iff Hm2%bool_decide_eq_false].
    assert (∀ key, surplus_marker key e = bool_decide (identity_key e = key)) as Hs.
    { intros key. unfold surplus_marker. rewrite Hid, Hm1, (bool_decide_eq_true_2 (_ ∉ markers)) by done.
      by rewrite !andb_true_r. }
    simpl. rewrite Hused. case_bool_decide as Hlt; simpl.
    + split.
      * split; [|done]. intros _. eexists. split; [done|]. split; [done|].
        intros key. rewrite Hs, bool_decide_eq_true. by intros <-.
      * intros _. split; [done|]. split; [done|]. intros key. simpl. rewrite surplus_snoc, Hs.
        destruct (decide (identity_key e = key)) as [<-|].
        -- rewrite lookup_insert_eq. simpl. by rewrite bool_decide_eq_true_2.
        -- rewrite lookup_insert_ne, Hused, bool_decide_eq_false_2 by done. lia.
    + split; [|by intros ?%Hadd]. split; [by intros ?%Hadd|].
      intros (id & _ & _ & Hb). specialize (Hb (identity_key e)).
      rewrite Hs, bool_decide_eq_true in Hb. by specialize (Hb eq_refl).
Qed.

Lemma conflict_free_snoc entries e :
  conflict_free (entries ++ [e]) ↔
  conflict_free entries ∧
  ∃ id, entry_identity e = Some id ∧ (Some id ∉ entry_identity <$> entries) ∧
    ∀ key, surplus_marker key e = true → (surplus key entries < default 0 (budget !! key))%N.
Proof using Type.
  split.
  - intros [H1 H2 H3]. apply Forall_app in H1 as [H1 [[id Hid] _]%Forall_cons].
    rewrite fmap_app in H2. apply NoDup_app in H2 as (H2 & Hd & _). simpl in Hd.
    rewrite Hid in Hd. split; [split; [done|done|]|].
    + intros key. specialize (H3 key). rewrite surplus_snoc in H3. lia.
    + exists id. split; [done|]. split.
      * intros Hin. apply (Hd _ Hin). left.
      * intros key Hs. specialize (H3 key). rewrite surplus_snoc, Hs in H3. lia.
  - intros [[H1 H2 H3] (id & Hid & Hn & Hb)]. split.
    + apply Forall_app. split; [done|]. repeat constructor. by rewrite Hid.
    + rewrite fmap_app. apply NoDup_app. split; [done|]. simpl. rewrite Hid. split.
      * intros x Hx ->%list_elem_of_singleton. done.
      * apply NoDup_singleton.
    + intros key. rewrite surplus_snoc. specialize (H3 key). specialize (Hb key).
      destruct (surplus_marker key e); [specialize (Hb eq_refl)|]; lia.
Qed.

Lemma conflicts_nil_iff entries :
  let st := foldl (conflict_step markers budget) (mkConflictState ∅ ∅ []) entries in
  (cs_conflicts st = [] ↔ conflict_free entries) ∧
  (cs_conflicts st = [] → conflict_state entries st).
Proof using Type.
  induction entries as [|e entries [IH1 IH2]] using rev_ind.
  { simpl. split.
    - split; [|done]. intros _. split; [constructor|constructor|]. intros key. unfold surplus, len; simpl. lia.
    - intros _. split; [done|]. split; [set_solver|]. intros key. simpl. by rewrite lookup_empty. }
  rewrite foldl_app. cbn [foldl]. rewrite conflict_free_snoc.
  set (st := foldl (conflict_step markers budget) (mkConflictState ∅ ∅ []) entries) in *.
  split.
  - split.
    + intros H. pose proof (conflict_step_keeps _ _ H) as Hst.
      destruct (conflict_step_spec entries st e (IH2 Hst)) as [Hs _].
      split; [by apply IH1|]. by apply Hs.
    + intros [Hcf He]. apply IH1 in Hcf as Hst.
      destruct (conflict_step_spec entries st e (IH2 Hst)) as [Hs _]. by apply Hs.
  - intros H. pose proof (conflict_step_keeps _ _ H) as Hst.
    destruct (conflict_step_spec entries st e (IH2 Hst)) as [_ Hs]. by apply Hs.
Qed.
End conflicts.

(** listed_version_lineage_conflicts is empty exactly when every listed entry has
    an immutable version id, no identity is listed twice, and per key the delete markers
    that no committed DELETE explains are at most the markers its retried or ambiguous
    DELETEs may have left. *)
Theorem listing_conflict_free_iff {T} `{!ListedVersionIdentity T} records lineage
    (entries : list T) :
  listed_version_lineage_conflicts records lineage entries = [] ↔
  conflict_free (marker_identities (vl_delete_markers lineage)) (retry_delete_budget records)
    entries.
Proof. apply conflicts_nil_iff. Qed.

(** ** The lineage of the records *)

(** A write the store acknowledged with a version id. *)
Definition creates_data_version (r : OperationRecord) (key version_id sha256 : string) (size : N) : Prop :=
  (op_kind r = OperationKind.Put ∨ op_kind r = OperationKind.CompleteMultipartUpload) ∧
  op_outcome r = OperationOutcome.Ok ∧ op_key r = Some key ∧ op_version_id r = Some version_id ∧
  op_value_sha256 r = Some sha256 ∧ op_size_bytes r = Some size.
(** A DELETE without a version id the store acknowledged with a version id, and not as
    a plain removal. *)
Definition creates_marker (key version_id : string) (r : OperationRecord) : Prop :=
  op_kind r = OperationKind.Delete ∧ op_outcome r = OperationOutcome.Ok ∧ op_request_version_id r = None ∧
  op_is_delete_marker r ≠ Some false ∧ op_key r = Some key ∧ op_version_id r = Some version_id.
Global Instance creates_marker_dec key version_id r : Decision (creates_marker key version_id r).
Proof. unfold creates_marker. apply _. Defined.

Lemma committed_write_iff r : is_committed_write r = true ↔
  (op_kind r = OperationKind.Put ∨ op_kind r = OperationKind.CompleteMultipartUpload) ∧ op_outcome r = OperationOutcome.Ok.
Proof.
  unfold is_committed_write. rewrite andb_true_iff, bool_decide_eq_true. destruct (op_kind r); simpl; naive_solver.
Qed.
Lemma committed_delete_iff r : is_committed_delete r = true ↔
  op_kind r = OperationKind.Delete ∧ op_outcome r = OperationOutcome.Ok ∧ op_request_version_id r = None ∧
  op_is_delete_marker r ≠ Some false.
Proof. unfold is_committed_delete, is_plain_delete. rewrite !andb_true_iff, !bool_decide_eq_true. tauto. Qed.

Lemma lineage_step_versions l r v :
  v ∈ vl_versions (lineage_step l r) ↔
  v ∈ vl_versions l ∨ (creates_data_version r (cv_key v) (cv_version_id v) (cv_sha256 v) (cv_size_bytes v)
                       ∧ cv_kind v = op_kind r).
Proof.
  unfold lineage_step. set (l1 := if is_plain_delete r && _ then _ else l).
  assert (vl_versions l1 = vl_versions l) as <- by (subst l1; by case_match).
  assert (creates_data_version r (cv_key v) (cv_version_id v) (cv_sha256 v) (cv_size_bytes v) ↔
    is_committed_write r = true ∧ op_key r = Some (cv_key v) ∧ op_version_id r = Some (cv_version_id v) ∧
    op_value_sha256 r = Some (cv_sha256 v) ∧ op_size_bytes r = Some (cv_size_bytes v)) as ->
    by (rewrite committed_write_iff; unfold creates_data_version; tauto).
  unfold record_object. destruct (is_committed_write r); simpl.
  - destruct (op_key r) as [key|]; [|naive_solver]. destruct (op_version_id r) as [id|].
    + destruct (op_value_sha256 r), (op_size_bytes r), v; simpl;
        rewrite ?elem_of_app, ?list_elem_of_singleton; naive_solver.
    + unfold missing_version_id. repeat case_match; simpl; naive_solver.
  - destruct (is_committed_delete r); simpl; [|naive_solver].
    unfold missing_version_id. repeat case_match; simpl; naive_solver.
Qed.
Lemma lineage_step_markers l r d :
  d ∈ vl_delete_markers (lineage_step l r) ↔
  d ∈ vl_delete_markers l ∨ creates_marker (cdm_key d) (cdm_version_id d) r.
Proof.
  unfold lineage_step. set (l1 := if is_plain_delete r && _ then _ else l).
  assert (vl_delete_markers l1 = vl_delete_markers l) as <- by (subst l1; by case_match).
  assert (creates_marker (cdm_key d) (cdm_version_id d) r ↔ is_committed_delete r = true ∧
    op_key r = Some (cdm_key d) ∧ op_version_id r = Some (cdm_version_id d)) as ->
    by (rewrite committed_delete_iff; unfold creates_marker; tauto).
  destruct (is_committed_write r) eqn:Hw.
  { assert (is_committed_delete r = false) as ->.
    { apply not_true_is_false. rewrite committed_delete_iff. apply committed_write_iff in Hw as [[Hw|Hw] _];
        intros [Hk _]; congruence. }
    simpl. unfold missing_version_id. repeat case_match; simpl; naive_solver. }
  destruct (is_committed_delete r); simpl; [|naive_solver].
  destruct (op_key r) as [key|]; [|naive_solver]. destruct (op_version_id r) as [id|].
  - destruct d. simpl. rewrite elem_of_app, list_elem_of_singleton. naive_solver.
  - unfold missing_version_id. repeat case_match; simpl; naive_solver.
Qed.
(** The committed lineage is what the records of acknowledged mutations say. *)
Lemma lineage_versions_iff records v :
  v ∈ vl_versions (committed_version_lineage records) ↔
  ∃ r, r ∈ records ∧ creates_data_version r (cv_key v) (cv_version_id v) (cv_sha256 v) (cv_size_bytes v)
    ∧ cv_kind v = op_kind r.
Proof.
  unfold committed_version_lineage. induction records as [|r records IH] using rev_ind; [simpl; set_solver|].
  rewrite foldl_app. cbn [foldl]. rewrite lineage_step_versions, IH.
  setoid_rewrite elem_of_app. setoid_rewrite list_elem_of_singleton. naive_solver.
Qed.
Lemma lineage_markers_iff records d :
  d ∈ vl_delete_markers (committed_version_lineage records) ↔
  Exists (creates_marker (cdm_key d) (cdm_version_id d)) records.
Proof.
  unfold committed_version_lineage. induction records as [|r records IH] using rev_ind.
  { simpl. rewrite Exists_nil. set_solver. }
  rewrite foldl_app. cbn [foldl]. rewrite lineage_step_markers, IH, Exists_app, Exists_cons, Exists_nil. tauto.
Qed.

(** The markers a DELETE may have left beyond the one it reports: one per further
    transmission, and one for the last if its answer is unknown. *)
Definition extra_markers (r : OperationRecord) : N :=
  match op_outcome r with
  | OperationOutcome.Ok | OperationOutcome.Failed => default 1 (op_mutation_attempts r) - 1
  | OperationOutcome.Timeout | OperationOutcome.Unknown => default 1 (op_mutation_attempts r)
  | OperationOutcome.NotFound => 0
  end%N.
Definition plain_delete_of (key : string) (r : OperationRecord) : Prop :=
  op_kind r = OperationKind.Delete ∧ op_request_version_id r = None ∧ op_key r = Some key.
Global Instance plain_delete_of_dec key r : Decision (plain_delete_of key r).
Proof. unfold plain_delete_of. apply _. Defined.
Definition marker_allowance (records : list OperationRecord) (key : string) : N :=
  foldr (λ r n, (extra_markers r + n)%N) 0%N (filter (plain_delete_of key) records).
Lemma marker_allowance_snoc records r key :
  marker_allowance (records ++ [r]) key
  = (marker_allowance records key + if decide (plain_delete_of key r) then extra_markers r else 0)%N.
Proof.
  unfold marker_allowance. rewrite filter_app, foldr_app, filter_cons, filter_nil.
  assert (∀ l n, foldr (λ r n, (extra_markers r + n)%N) n l = (foldr (λ r n, (extra_markers r + n)%N) 0 l + n)%N) as Hf.
  { induction l as [|x l IH]; intros n; simpl; [done|]. rewrite IH. lia. }
  case_decide; simpl; rewrite Hf; lia.
Qed.
Lemma retry_budget_allowance records key :
  default 0%N (retry_delete_budget records !! key) = marker_allowance records key.
Proof.
  unfold retry_delete_budget. induction records as [|r records IH] using rev_ind; [done|].
  rewrite foldl_app, marker_allowance_snoc, <-IH. cbn [foldl].
  set (budget := foldl _ _ records). clearbody budget. clear IH.
  assert (retry_delete_markers r = extra_markers r) as -> by (unfold retry_delete_markers, extra_markers, mutation_attempts; by destruct (op_outcome r)).
  case_bool_decide as Hk; simpl; [|rewrite decide_False by (unfold plain_delete_of; tauto); lia].
  case_bool_decide as Hv; simpl; [|rewrite decide_False by (unfold plain_delete_of; tauto); lia].
  destruct (op_key r) as [k|] eqn:Ekey; [|rewrite decide_False by (unfold plain_delete_of; naive_solver); lia].
  destruct (decide (k = key)) as [->|Hne].
  - rewrite lookup_insert_eq, decide_True by done. done.
  - rewrite lookup_insert_ne, decide_False by (unfold plain_delete_of; naive_solver). lia.
Qed.

(** A listing of versions with immutable, distinct identities, in which the delete
    markers of a key that no acknowledged DELETE created are within its allowance. *)
Definition unexplained_marker (records : list OperationRecord) (key : string) (e : ObjectVersionEntry) : Prop :=
  ove_key e = key ∧ ove_is_delete_marker e = true ∧
  ¬ Exists (creates_marker key (default "" (ove_version_id e))) records.
Global Instance unexplained_marker_dec records key e : Decision (unexplained_marker records key e).
Proof. unfold unexplained_marker. apply _. Defined.
Record listing_sound (records : list OperationRecord) (entries : list ObjectVersionEntry) : Prop := {
  ls_immutable : ∀ e, e ∈ entries → ∃ id, ove_version_id e = Some id ∧ id ≠ "" ∧ id ≠ "null";
  ls_identities : NoDup ((λ e, (ove_key e, ove_version_id e)) <$> entries);
  ls_latest : NoDup (ove_key <$> filter (λ e, ove_is_latest e = true) entries);
  ls_markers : ∀ key, (len (filter (unexplained_marker records key) entries) ≤ marker_allowance records key)%N;
}.
Lemma no_duplicate_latest entries :
  (latest_version_entries entries).2 = [] → NoDup (ove_key <$> filter (λ e, ove_is_latest e = true) entries).
Proof.
  intros Hl. assert (∀ key, length (latest_of_key key entries) ≤ 1) as H1.
  { intros key. destruct (latest_version_entries_unique entries key) as [_ Hk]. rewrite Hl, elem_of_nil in Hk. lia. }
  clear Hl. induction entries as [|e entries IH]; [constructor|]. rewrite filter_cons.
  assert (∀ key, length (latest_of_key key entries) ≤ 1) as H2.
  { intros key. specialize (H1 key). unfold latest_of_key in *. rewrite filter_cons in H1. case_decide; simpl in H1; lia. }
  case_decide as He; [|by apply IH]. simpl. constructor; [|by apply IH].
  intros (e' & Hk & [He' Hin]%list_elem_of_filter)%list_elem_of_fmap. specialize (H1 (ove_key e)).
  unfold latest_of_key in H1. rewrite filter_cons, decide_True in H1 by done. simpl in H1.
  assert (e' ∈ filter (λ e0, ove_is_latest e0 = true ∧ ove_key e0 = ove_key e) entries) as Hm
    by (by apply list_elem_of_filter).
  destruct (filter _ entries); [by apply elem_of_nil in Hm|simpl in H1; lia].
Qed.
Lemma filter_ext_iff {A} (P Q : A → Prop) `{∀ x, Decision (P x), ∀ x, Decision (Q x)} (l : list A) :
  (∀ x, x ∈ l → P x ↔ Q x) → filter P l = filter Q l.
Proof.
  induction l as [|x l IH]; intros Hl; [done|]. rewrite !filter_cons.
  rewrite (decide_ext (P x) (Q x)) by (apply Hl; left). rewrite IH; [done|]. intros y Hy. apply Hl. by right.
Qed.
Lemma listing_checks_sound records entries :
  listed_version_lineage_conflicts records (committed_version_lineage records) entries = [] →
  (latest_version_entries entries).2 = [] → listing_sound records entries.
Proof.
  intros [Hid Hnd Hb]%listing_conflict_free_iff Hl%no_duplicate_latest.
  assert (∀ e, e ∈ entries → ∃ id, ove_version_id e = Some id ∧ id ≠ "" ∧ id ≠ "null" ∧
    entry_identity e = Some (ove_key e, id)) as Hi.
  { intros e He. rewrite Forall_forall in Hid. destruct (Hid e He) as [x Hx]. unfold entry_identity in *.
    simpl in *. destruct (ove_version_id e) as [id|]; [|done]. simpl in *. exists id.
    destruct (is_immutable_id id) eqn:Him; [|done]. unfold is_immutable_id in Him.
    apply andb_true_iff in Him as [?%bool_decide_eq_true ?%bool_decide_eq_true]. by split_and!. }
  split; [naive_solver| |done|].
  - clear -Hi Hnd. induction entries as [|e entries IH]; [constructor|]. simpl in *.
    apply NoDup_cons in Hnd as [Hn Hnd]. constructor; [|apply IH; [done|]; intros; apply Hi; by right].
    intros (e' & Heq & He')%list_elem_of_fmap. injection Heq as Hk Hv.
    destruct (Hi e ltac:(by left)) as (id & Hid & _ & _ & Hei).
    destruct (Hi e' ltac:(by right)) as (id' & Hid' & _ & _ & Hei'). apply Hn. apply list_elem_of_fmap. exists e'.
    split; [|done]. rewrite Hei, Hei'. congruence.
  - intros key. rewrite <-retry_budget_allowance. etrans; [|apply Hb]. unfold surplus.
    erewrite filter_ext_iff; [done|]. intros e He. destruct (Hi e He) as (id & Hv & _ & _ & Hei).
    unfold surplus_marker, unexplained_marker. rewrite Hei, Hv, Is_true_true, !andb_true_iff, !bool_decide_eq_true. simpl.
    unfold marker_identities. rewrite elem_of_to_set, list_elem_of_fmap.
    split; [intros (<- & ? & Hn); split; [done|]; intros (d & [= Hk Hd] & Hin%lineage_markers_iff); apply Hn; by rewrite Hk, Hd|].
    intros [[<- ?] Hn]. split_and!; [done..|]. intros Hex. apply Hn. exists (mkCommittedDeleteMarker (ove_key e) id).
    split; [done|]. by apply lineage_markers_iff.
Qed.

(** ** Uncommitted versions *)
(** How many requests were matched. *)
Definition successes (matches : list (option VersionWriteMatch)) : nat := length (omap id matches).
Global Arguments successes : simpl never.
Lemma successes_Some m ms : successes (Some m :: ms) = S (successes ms).
Proof. done. Qed.
Lemma successes_None ms : successes (None :: ms) = successes ms.
Proof. done. Qed.

Section uncommitted.
Context (sha256_hex : list N → string).

(** The source request an observation makes, if its version was read. *)
Definition request_of (o : AmbiguousVersionCandidate * GetObjectResult) : option TakeRequest :=
  match get_body o.2, get_outcome o.2 with
  | Some body, OperationOutcome.Ok =>
      Some (mkTakeRequest (avc_key o.1) (observed_object sha256_hex body) (avc_is_latest o.1))
  | _, _ => None
  end.

Lemma omap_request_cons o obs q :
  request_of o = Some q → omap request_of (o :: obs) = q :: omap request_of obs.
Proof using Type. intros Hq. simpl. by rewrite Hq. Qed.

Lemma materialize_loop obs st :
  index_repr (ms_sources st) →
  ∃ st' matches index', try_fold (λ st o, evaluate_ambiguous_version_get sha256_hex st o.1 o.2) st obs
      = ok st' ∧
    take_all (ms_sources st) (omap request_of obs) = ok (matches, index') ∧
    length (ms_materialized st') = length (ms_materialized st) + successes matches ∧
    length (ms_materialized st') + length (ms_conflicts st')
      = length (ms_materialized st) + length (ms_conflicts st) + length obs ∧
    ms_conflicts st `prefix_of` ms_conflicts st'.
Proof using Type.
  revert st. induction obs as [|[c g] obs IH]; intros st Hr.
  { exists st, [], (ms_sources st). simpl. change (successes []) with 0. repeat split; try done; lia. }
  cbn [try_fold]. cbn [fst snd].
  assert (∀ msg, request_of (c, g) = None →
    evaluate_ambiguous_version_get sha256_hex st c g
      = ok (mkMaterializedState (ms_materialized st) (ms_conflicts st ++ [msg]) (ms_sources st)) →
    ∃ st' matches index',
      evaluate_ambiguous_version_get sha256_hex st c g ≫= (λ s',
        try_fold (λ st o, evaluate_ambiguous_version_get sha256_hex st o.1 o.2) s' obs) = ok st' ∧
      take_all (ms_sources st) (omap request_of ((c, g) :: obs)) = ok (matches, index') ∧
      length (ms_materialized st') = length (ms_materialized st) + successes matches ∧
      length (ms_materialized st') + length (ms_conflicts st')
        = length (ms_materialized st) + length (ms_conflicts st) + S (length obs) ∧
      ms_conflicts st `prefix_of` ms_conflicts st') as Hconf.
  { intros msg Hreq ->. run_result.
    destruct (IH (mkMaterializedState (ms_materialized st) (ms_conflicts st ++ [msg]) (ms_sources st)) Hr)
      as (st' & ms & ix & H1 & H2 & H3 & H4 & H5).
    exists st', ms, ix. simpl in *. rewrite Hreq. rewrite length_app in H4. simpl in H4.
    repeat split; try done; [lia|]. etrans; [|exact H5]. by apply prefix_app_r. }
  destruct (get_body g) as [body|] eqn:Hb.
  2:{ eapply Hconf; [unfold request_of; simpl; by rewrite Hb|].
      unfold evaluate_ambiguous_version_get. by rewrite Hb. }
  destruct (get_outcome g) eqn:Ho.
  2-5: eapply Hconf; [unfold request_of; simpl; by rewrite Hb, Ho|];
       unfold evaluate_ambiguous_version_get; by rewrite Hb, Ho.
  clear Hconf. unfold evaluate_ambiguous_version_get. rewrite Hb, Ho.
  destruct (take_source_refines (ms_sources st) (avc_key c) (observed_object sha256_hex body)
    (avc_is_latest c) Hr) as (ix & Htake & Hr' & _).
  set (r := (spec_take (vwb_sources <$> ms_sources st) (avc_key c)
    (observed_object sha256_hex body) (avc_is_latest c)).1) in *.
  change (mkExpectedObject (sha256_hex body) (len body)) with (observed_object sha256_hex body).
  assert (request_of (c, g) = Some (mkTakeRequest (avc_key c) (observed_object sha256_hex body)
    (avc_is_latest c))) as Hreq by (unfold request_of; simpl; by rewrite Hb, Ho).
  rewrite Htake. run_result. cbn [fst snd]. destruct r as [m|]; run_result.
  - match goal with |- context [try_fold _ ?s obs] =>
      destruct (IH s Hr') as (st' & ms & ix' & H1 & H2 & H3 & H4 & H5) end.
    exists st', (Some m :: ms), ix'. rewrite (omap_request_cons _ _ _ Hreq). cbn [take_all tr_key
      tr_actual tr_is_latest]. rewrite Htake. run_result. cbn [fst snd]. cbn [ms_sources] in H2.
    rewrite H2. run_result. simpl in *. rewrite length_app in *. simpl in *.
    rewrite ?successes_Some. repeat split; try done; lia.
  - match goal with |- context [try_fold _ ?s obs] =>
      destruct (IH s Hr') as (st' & ms & ix' & H1 & H2 & H3 & H4 & H5) end.
    exists st', (None :: ms), ix'. rewrite (omap_request_cons _ _ _ Hreq). cbn [take_all tr_key
      tr_actual tr_is_latest]. rewrite Htake. run_result. cbn [fst snd]. cbn [ms_sources] in H2.
    rewrite H2. run_result. simpl in *. rewrite length_app in *. simpl in *.
    rewrite ?successes_None. repeat split; try done; [lia|]. etrans; [|exact H5].
    by apply prefix_app_r.
Qed.
End uncommitted.

(** materialized_ambiguous_versions never panics, classifies every observed
    uncommitted version as materialized or conflicting, explains a value of a key at
    most as often as its write attempts allow, and gives the same result in whatever
    order the concurrent reads completed. *)
Theorem uncommitted_versions_within_budget sha256_hex m conflicts obs :
  let reqs := omap (request_of sha256_hex) (sort_by_key candidate_order obs) in
  ∃ ms cs matches index',
    materialized_ambiguous_versions sha256_hex m conflicts obs = ok (ms, cs) ∧
    take_all (from_sources (om_version_write_sources m)) reqs = ok (matches, index') ∧
    length ms = successes matches ∧
    length ms + length cs = length obs + length conflicts ∧
    (∀ key o, matched key o reqs matches
              ≤ budget (written o (default [] (om_version_write_sources m !! key))))%N ∧
    (∀ obs', NoDup (candidate_order <$> obs) → obs' ≡ₚ obs →
       materialized_ambiguous_versions sha256_hex m conflicts obs' = ok (ms, cs)).
Proof.
  intros reqs. subst reqs. unfold materialized_ambiguous_versions.
  assert (index_repr (from_sources (om_version_write_sources m))) as Hr
    by (by destruct (from_sources_exact (om_version_write_sources m) "" (mkExpectedObject "" 0))).
  destruct (materialize_loop sha256_hex (sort_by_key candidate_order obs)
    (mkMaterializedState [] conflicts (from_sources (om_version_write_sources m))) Hr)
    as (st' & matches & ix & H1 & H2 & H3 & H4 & _).
  exists (ms_materialized st'), (ms_conflicts st'), matches, ix. simpl in *.
  assert (length (sort_by_key candidate_order obs) = length obs) as Hlen
    by (unfold sort_by_key; by rewrite sort_by_perm).
  rewrite H1. run_result. split; [done|]. split; [done|]. split; [done|]. split; [lia|]. split.
  - intros key o. destruct (take_all_refines _ (omap (request_of sha256_hex)
      (sort_by_key candidate_order obs)) Hr) as [ix' Ht]. rewrite Ht in H2. injection H2 as <- _. apply spec_takes_within_budget.
  - intros obs' Hnd Hp. rewrite <-(sort_by_key_unique _ _ _ Hnd (symmetry Hp)). by rewrite H1.
Qed.
