(* ===== verification/Client.v ===== *)
(** The S3 client of the workload ([S3WorkloadClient] and [ObjectSpec] of
    [src/fault/workload.rs]): every call begins an operation with the recorder,
    sends its requests through the AWS SDK and finishes the operation with what
    came back.

    A call is a program ([Prog]) over three effects: [Begin] and [Finish] of the
    shared recorder, and [Send] of a request. [Finish] hands back the record, or the
    error of writing it to the history. The SDK is outside the repository:
    a program is given the reply to each of its requests. A reply is the output
    of the operation, an [SdkError], or the expiry of the request's timeout,
    which a deadline that has passed also causes. *)
From S2P Require Import Prelude Ordering RustText History Workload Attempts Lineage.
From stdpp Require Import options.

(** ** Prepared objects *)
Record ObjectSpec := mkObjectSpec {
  os_key : string;
  os_size_bytes : N;
  os_sha256 : string;
  os_seed : N;
  os_index : N;
}.
Record PreparedObject := mkPreparedObject {
  po_spec : ObjectSpec;
  po_body : list N;
}.

Section objects.
Context (sha256_hex : list N → string).

Definition prepare_write_probe (scope : WriteProbeScope.t) (run_id : string)
    (index size_bytes seed : N) : PreparedObject :=
  let body := seeded_bytes seed index size_bytes in
  mkPreparedObject (mkObjectSpec (WriteProbeScope.key scope run_id index) size_bytes
                      (sha256_hex body) seed index) body.
Definition prepare_post_recovery (run_id : string) (index size_bytes seed : N) : PreparedObject :=
  prepare_write_probe WriteProbeScope.PostRecovery run_id index size_bytes seed.
Definition prepare_seeded (run_id : string) (index size_bytes seed : N) : PreparedObject :=
  let body := seeded_bytes seed index size_bytes in
  mkPreparedObject (mkObjectSpec (seeded_key run_id index) size_bytes (sha256_hex body) seed index)
    body.
Definition prepare_directory_marker (run_id : string) (index seed : N) : PreparedObject :=
  mkPreparedObject (mkObjectSpec (directory_marker_key run_id index) 0 (sha256_hex []) seed index)
    [].
(** The [debug_assert_eq!] is a panic. *)
Definition prepare (spec : ObjectSpec) : Result PreparedObject :=
  let body := seeded_bytes (os_seed spec) (os_index spec) (os_size_bytes spec) in
  if bool_decide (sha256_hex body = os_sha256 spec) then ok (mkPreparedObject spec body)
  else panicked.
Definition prepare_overwrite (spec : ObjectSpec) (variant : N) : PreparedObject :=
  let seed := N.lxor (os_seed spec) (wrapping_mul64 variant 0x9E3779B97F4A7C15) in
  let body := seeded_bytes seed (os_index spec) (os_size_bytes spec) in
  mkPreparedObject (mkObjectSpec (os_key spec) (os_size_bytes spec) (sha256_hex body) seed
                      (os_index spec)) body.
Definition matches_body (spec : ObjectSpec) (body : list N) : bool :=
  bool_decide (len body = os_size_bytes spec) && bool_decide (sha256_hex body = os_sha256 spec).
End objects.

(** ** The SDK *)

(** The errors of [aws_sdk_s3::error::SdkError]; the last constructor stands for
    the variants the enum does not list. *)
Inductive SdkErrorKind :=
| TimeoutError
| DispatchFailure
| ResponseError (status : N)
| ServiceError (status : N)
| ConstructionFailure
| OtherError.
(** [{error}], and the identifiers in the headers of its raw response, if any. *)
Record SdkError := mkSdkError {
  sdk_kind : SdkErrorKind;
  sdk_text : string;
  sdk_request_id : option string;
  sdk_extended_request_id : option string;
}.

(** A request under a timeout. *)
Inductive Sent (E R : Type) :=
| Replied (r : R)
| Refused (e : E)
| Elapsed.
Arguments Replied {E R} r.
Arguments Refused {E R} e.
Arguments Elapsed {E R}.

Definition classify_sdk_error (e : SdkError) : OperationOutcome.t :=
  match sdk_kind e with
  | TimeoutError => OperationOutcome.Timeout
  | DispatchFailure | ResponseError _ => OperationOutcome.Unknown
  | ServiceError status =>
      if bool_decide (status = 404%N) then OperationOutcome.NotFound else OperationOutcome.Failed
  | ConstructionFailure => OperationOutcome.Failed
  | OtherError => OperationOutcome.Unknown
  end.
Definition sdk_error_status (e : SdkError) : option N :=
  match sdk_kind e with
  | ServiceError status | ResponseError status => Some status
  | _ => None
  end.
(** [error.raw_response().is_some()]. *)
Definition has_raw_response (e : SdkError) : bool :=
  match sdk_kind e with ServiceError _ | ResponseError _ => true | _ => false end.

(** The outputs the client reads. *)
Record DeleteObjectOutput := mkDeleteObjectOutput {
  doo_version_id : option string;
  doo_delete_marker : option bool;
  doo_request_id : option string;
  doo_extended_request_id : option string;
}.
(** The keys of the [contents] of a page, each of which may be absent. *)
Record ListPage := mkListPage {
  lp_contents : list (option string);
  lp_is_truncated : option bool;
  lp_next_token : option string;
}.
(** A version or a delete marker of a page. *)
Record SdkVersion := mkSdkVersion {
  sv_key : option string;
  sv_version_id : option string;
  sv_is_latest : option bool;
}.
Record ListVersionsPage := mkListVersionsPage {
  lvp_versions : list SdkVersion;
  lvp_delete_markers : list SdkVersion;
  lvp_is_truncated : option bool;
  lvp_next_key_marker : option string;
  lvp_next_version_id_marker : option string;
}.
Record CompletedPart := mkCompletedPart {
  cp_part_number : N;
  cp_e_tag : string;
}.
Inductive AbortBound := Mutation | Cleanup.

(** The requests, indexed by their reply. The reply to a counted mutation comes
    with the number of times the SDK transmitted it ([MutationAttempts]). *)
Inductive Request : Type → Type :=
| CreateBucket : Request (Sent SdkError unit)
| PutBucketVersioning : Request (Sent SdkError unit)
| PutObject (key : string) (body : list N) : Request (N * Sent SdkError (option string))
| GetObject (key : string) (version_id range : option string) : Request (Sent SdkError unit)
| CollectBody : Request (Sent string (list N))
| DeleteObject (key : string) : Request (N * Sent SdkError DeleteObjectOutput)
| CreateMultipartUpload (key : string) : Request (Sent SdkError (option string))
| UploadPart (key upload_id : string) (part_number : N) (body : list N)
    : Request (Sent SdkError (option string))
| CompleteMultipartUpload (key upload_id : string) (parts : list CompletedPart)
    : Request (N * Sent SdkError (option string))
| AbortMultipartUpload (key upload_id : string) (bound : AbortBound) : Request (Sent SdkError unit)
| HeadObject (key : string) : Request (Sent SdkError unit)
| ListObjectsV2 (prefix : string) (continuation_token : option string)
    : Request (Sent SdkError ListPage)
| ListObjectVersions (prefix : string) (key_marker version_id_marker : option string)
    : Request (Sent SdkError ListVersionsPage).

(** ** Programs *)
Inductive Prog (A : Type) : Type :=
| Ret (a : Result A)
| Begin (kind : OperationKind.t) (key value_sha256 : option string) (size_bytes : option N)
    (k : OperationRecord → Prog A)
| Send (R : Type) (request : Request R) (k : R → Prog A)
| Finish (r : OperationRecord) (outcome : OperationOutcome.t) (http_status : option N)
    (error : option string) (k : Result OperationRecord → Prog A)
(** A listing that never comes to its last page. *)
| Diverge.
Arguments Ret {A} a.
Arguments Begin {A} kind key value_sha256 size_bytes k.
Arguments Send {A} R request k.
Arguments Finish {A} r outcome http_status error k.
Arguments Diverge {A}.

Fixpoint prog_bind {A B} (p : Prog A) (f : A → Prog B) : Prog B :=
  match p with
  | Ret (ok a) => f a
  | Ret (err e) => Ret (err e)
  | Ret panicked => Ret panicked
  | Begin kind key sha size k => Begin kind key sha size (λ r, prog_bind (k r) f)
  | Send R request k => Send R request (λ reply, prog_bind (k reply) f)
  | Finish r o s e k => Finish r o s e (λ written, prog_bind (k written) f)
  | Diverge => Diverge
  end.
Global Instance Prog_ret : MRet Prog := λ A a, Ret (ok a).
Global Instance Prog_bind : MBind Prog := λ A B f p, prog_bind p f.

Definition begin_op (kind : OperationKind.t) (key value_sha256 : option string)
    (size_bytes : option N) : Prog OperationRecord :=
  Begin kind key value_sha256 size_bytes mret.
Definition send {R} (request : Request R) : Prog R := Send R request mret.
Definition finish_op (r : OperationRecord) (outcome : OperationOutcome.t) (http_status : option N)
    (error : option string) : Prog OperationRecord :=
  Finish r outcome http_status error Ret.

(** The arms every operation shares: an SDK error, and a timeout. *)
Definition finish_refused (what : string) (r : OperationRecord) (e : SdkError)
    : Prog OperationRecord :=
  finish_op r (classify_sdk_error e) (sdk_error_status e)
    (Some (what +:+ " failed: " +:+ sdk_text e)).
Definition finish_timed_out (what : string) (r : OperationRecord) : Prog OperationRecord :=
  finish_op r OperationOutcome.Timeout None (Some (what +:+ " timed out")).

(** ** The client *)
Record S3WorkloadClient := mkS3WorkloadClient {
  s3_mutation_deadline : option N;
  s3_mutation_max_attempts : N;
}.
Record RecordedGetObjectResult := mkRecordedGetObjectResult {
  rg_operation_id : string;
  rg_result : GetObjectResult;
}.
Record VerifiedWriteResult := mkVerifiedWriteResult {
  vw_write_operation_id : string;
  vw_write_outcome : OperationOutcome.t;
  vw_verify_get_outcome : option OperationOutcome.t;
  vw_verified : bool;
}.
Record StagedMultipartUpload := mkStagedMultipartUpload {
  sm_spec : ObjectSpec;
  sm_upload_id : string;
  sm_completed_parts : list CompletedPart;
}.

Section client.
Context (sha256_hex : list N → string).

(** *** Buckets *)
Definition bucket_request (kind : OperationKind.t) (what : string)
    (request : Request (Sent SdkError unit)) : Prog OperationOutcome.t :=
  r ← begin_op kind None None None;
  result ← send request;
  match result with
  | Replied _ => _ ← finish_op r OperationOutcome.Ok (Some 200%N) None; mret OperationOutcome.Ok
  | Refused e => _ ← finish_refused what r e; mret (classify_sdk_error e)
  | Elapsed => _ ← finish_timed_out what r; mret OperationOutcome.Timeout
  end.
Definition create_bucket : Prog OperationOutcome.t :=
  bucket_request OperationKind.CreateBucket "create bucket" CreateBucket.
Definition enable_bucket_versioning : Prog OperationOutcome.t :=
  bucket_request OperationKind.PutBucketVersioning "put bucket versioning" PutBucketVersioning.

(** *** PUT *)
Definition put_object_record (c : S3WorkloadClient) (object : PreparedObject)
    : Prog OperationRecord :=
  let spec := po_spec object in
  r ← begin_op OperationKind.Put (Some (os_key spec)) (Some (os_sha256 spec))
        (Some (os_size_bytes spec));
  let r := r <| op_mutation_max_attempts := Some (s3_mutation_max_attempts c) |>
             <| op_payload_ref := Some (mkPayloadRef (os_seed spec) (os_index spec)) |> in
  reply ← send (PutObject (os_key spec) (po_body object));
  let r := r <| op_mutation_attempts := Some reply.1 |> in
  match reply.2 with
  | Replied version_id =>
      finish_op (r <| op_version_id := version_id |>) OperationOutcome.Ok (Some 200%N) None
  | Refused e => finish_refused "put object" r e
  | Elapsed => finish_timed_out "put object" r
  end.
Definition put_object (c : S3WorkloadClient) (object : PreparedObject) : Prog OperationOutcome.t :=
  r ← put_object_record c object; mret (op_outcome r).

(** *** GET *)
Definition get_object_result_inner (key : string) (version_id : option string)
    (read_purpose : option ReadPurpose.t) : Prog RecordedGetObjectResult :=
  r ← begin_op OperationKind.Get (Some key) None None;
  let operation_id := op_id r in
  let r := r <| op_version_id := version_id |> <| op_read_purpose := read_purpose |> in
  let returns outcome status error body :=
    mret (mkRecordedGetObjectResult operation_id (mkGetObjectResult outcome status error body)) in
  response ← send (GetObject key version_id None);
  match response with
  | Refused e =>
      _ ← finish_refused "get object" r e;
      returns (classify_sdk_error e) (sdk_error_status e)
        (Some ("get object failed: " +:+ sdk_text e)) None
  | Elapsed =>
      _ ← finish_timed_out "get object" r;
      returns OperationOutcome.Timeout None (Some "get object timed out") None
  | Replied _ =>
      body ← send CollectBody;
      match body with
      | Replied bytes =>
          let r := r <| op_value_sha256 := Some (sha256_hex bytes) |>
                     <| op_size_bytes := Some (len bytes) |> in
          _ ← finish_op r OperationOutcome.Ok (Some 200%N) None;
          returns OperationOutcome.Ok (Some 200%N) None (Some bytes)
      | Refused text =>
          let error := "get body read failed: " +:+ text in
          _ ← finish_op r OperationOutcome.Unknown (Some 200%N) (Some error);
          returns OperationOutcome.Unknown (Some 200%N) (Some error) None
      | Elapsed =>
          let error := "get body read timed out" in
          _ ← finish_op r OperationOutcome.Timeout (Some 200%N) (Some error);
          returns OperationOutcome.Timeout (Some 200%N) (Some error) None
      end
  end.
Definition get_object_result (key : string) : Prog GetObjectResult :=
  g ← get_object_result_inner key None None; mret (rg_result g).
Definition get_object (key : string) : Prog (option (list N)) :=
  g ← get_object_result key; mret (get_body g).
Definition get_cohort_probe_result (key : string) : Prog GetObjectResult :=
  g ← get_object_result_inner key None (Some ReadPurpose.CohortProbe); mret (rg_result g).
Definition get_object_recorded_result (key : string) : Prog RecordedGetObjectResult :=
  get_object_result_inner key None None.
Definition get_object_version_result (key version_id : string) : Prog GetObjectResult :=
  g ← get_object_result_inner key (Some version_id) None; mret (rg_result g).
Definition get_object_version_recorded_result (key version_id : string)
    : Prog RecordedGetObjectResult :=
  get_object_result_inner key (Some version_id) None.
Definition verify_mutation_result (mutation : OperationRecord) : Prog GetObjectResult :=
  key ← Ret (context (op_key mutation) "mutation has no key");
  g ← get_object_result_inner key None
        (Some (ReadPurpose.MutationVerification (op_id mutation)));
  mret (rg_result g).

Definition get_object_range_result (key : string) (range : ByteRange) : Prog GetObjectResult :=
  r ← begin_op OperationKind.Get (Some key) None None;
  let r := r <| op_range := Some range |> in
  last ← Ret (past ← add_u64 (range_offset range) (range_length range); sub_u64 past 1);
  response ← send (GetObject key None
                     (Some ("bytes=" +:+ dec (range_offset range) +:+ "-" +:+ dec last)));
  match response with
  | Refused e =>
      _ ← finish_refused "ranged get" r e;
      mret (mkGetObjectResult (classify_sdk_error e) (sdk_error_status e)
              (Some ("ranged get failed: " +:+ sdk_text e)) None)
  | Elapsed =>
      _ ← finish_timed_out "ranged get" r;
      mret (mkGetObjectResult OperationOutcome.Timeout None (Some "ranged get timed out") None)
  | Replied _ =>
      body ← send CollectBody;
      match body with
      | Replied bytes =>
          let r := r <| op_value_sha256 := Some (sha256_hex bytes) |>
                     <| op_size_bytes := Some (len bytes) |> in
          if negb (bool_decide (len bytes = range_length range)) then
            let error := "ranged get returned " +:+ dec (len bytes) +:+ " bytes for a "
                         +:+ dec (range_length range) +:+ "-byte range request" in
            _ ← finish_op r OperationOutcome.Failed (Some 206%N) (Some error);
            mret (mkGetObjectResult OperationOutcome.Failed (Some 206%N) (Some error) (Some bytes))
          else
            _ ← finish_op r OperationOutcome.Ok (Some 206%N) None;
            mret (mkGetObjectResult OperationOutcome.Ok (Some 206%N) None (Some bytes))
      | Refused text =>
          let error := "ranged get body read failed: " +:+ text in
          _ ← finish_op r OperationOutcome.Unknown (Some 206%N) (Some error);
          mret (mkGetObjectResult OperationOutcome.Unknown (Some 206%N) (Some error) None)
      | Elapsed =>
          let error := "ranged get body read timed out" in
          _ ← finish_op r OperationOutcome.Timeout (Some 206%N) (Some error);
          mret (mkGetObjectResult OperationOutcome.Timeout (Some 206%N) (Some error) None)
      end
  end.

Definition put_and_verify_object (c : S3WorkloadClient) (object : PreparedObject)
    : Prog VerifiedWriteResult :=
  w ← put_object_record c object;
  if negb (bool_decide (op_outcome w = OperationOutcome.Ok)) then
    mret (mkVerifiedWriteResult (op_id w) (op_outcome w) None false)
  else
    get ← verify_mutation_result w;
    mret (mkVerifiedWriteResult (op_id w) (op_outcome w) (Some (get_outcome get))
            (from_option (matches_body sha256_hex (po_spec object)) false (get_body get))).

(** *** DELETE *)
Definition delete_object_record (c : S3WorkloadClient) (key : string) : Prog OperationRecord :=
  r ← begin_op OperationKind.Delete (Some key) None None;
  let r := r <| op_mutation_max_attempts := Some (s3_mutation_max_attempts c) |> in
  reply ← send (DeleteObject key);
  let r := r <| op_mutation_attempts := Some reply.1 |> in
  match reply.2 with
  | Replied output =>
      finish_op (r <| op_version_id := doo_version_id output |>
                   <| op_is_delete_marker := doo_delete_marker output |>
                   <| op_request_id := doo_request_id output |>
                   <| op_extended_request_id := doo_extended_request_id output |>)
        OperationOutcome.Ok (Some 204%N) None
  | Refused e =>
      let r := if has_raw_response e
               then r <| op_request_id := sdk_request_id e |>
                      <| op_extended_request_id := sdk_extended_request_id e |>
               else r in
      finish_refused "delete object" r e
  | Elapsed => finish_timed_out "delete object" r
  end.
Definition delete_object (c : S3WorkloadClient) (key : string) : Prog OperationOutcome.t :=
  r ← delete_object_record c key; mret (op_outcome r).
Definition delete_marker_record (c : S3WorkloadClient) (key : string)
    : Prog (option OperationRecord) :=
  r ← delete_object_record c key;
  if bool_decide (op_outcome r = OperationOutcome.Ok)
     && bool_decide (op_is_delete_marker r ≠ Some true)
  then mret None else mret (Some r).
Definition delete_and_verify_absent (c : S3WorkloadClient) (key : string)
    : Prog (OperationOutcome.t * option OperationOutcome.t) :=
  outcome ← delete_object c key;
  if negb (bool_decide (outcome = OperationOutcome.Ok)) then mret (outcome, None) else
  get ← get_object_result key;
  mret (outcome, Some (get_outcome get)).

(** *** Multipart uploads *)
Definition create_multipart_upload (key : string) : Prog (option string) :=
  r ← begin_op OperationKind.CreateMultipartUpload (Some key) None None;
  result ← send (CreateMultipartUpload key);
  match result with
  | Replied (Some upload_id) =>
      _ ← finish_op r OperationOutcome.Ok (Some 200%N) None; mret (Some upload_id)
  | Replied None =>
      _ ← finish_op r OperationOutcome.Unknown (Some 200%N)
            (Some "create multipart upload omitted upload_id");
      mret None
  | Refused e => _ ← finish_refused "create multipart upload" r e; mret None
  | Elapsed => _ ← finish_timed_out "create multipart upload" r; mret None
  end.

Definition upload_part (key upload_id : string) (part_number : N) (body : list N)
    : Prog (option CompletedPart) :=
  r ← begin_op OperationKind.UploadPart (Some key) (Some (sha256_hex body)) (Some (len body));
  result ← send (UploadPart key upload_id part_number body);
  let what := "upload part " +:+ dec part_number in
  match result with
  | Replied (Some e_tag) =>
      _ ← finish_op r OperationOutcome.Ok (Some 200%N) None;
      mret (Some (mkCompletedPart part_number e_tag))
  | Replied None =>
      _ ← finish_op r OperationOutcome.Unknown (Some 200%N) (Some (what +:+ " omitted ETag"));
      mret None
  | Refused e => _ ← finish_refused what r e; mret None
  | Elapsed => _ ← finish_timed_out what r; mret None
  end.

Definition abort_multipart_upload (key upload_id : string) (bound : AbortBound)
    : Prog OperationOutcome.t :=
  r ← begin_op OperationKind.AbortMultipartUpload (Some key) None None;
  result ← send (AbortMultipartUpload key upload_id bound);
  match result with
  | Replied _ => _ ← finish_op r OperationOutcome.Ok (Some 204%N) None; mret OperationOutcome.Ok
  | Refused e => _ ← finish_refused "abort multipart upload" r e; mret (classify_sdk_error e)
  | Elapsed => _ ← finish_timed_out "abort multipart upload" r; mret OperationOutcome.Timeout
  end.

Definition abort_staged_multipart_object (staged : StagedMultipartUpload) : Prog unit :=
  let key := os_key (sm_spec staged) in
  outcome ← abort_multipart_upload key (sm_upload_id staged) Cleanup;
  Ret (ensure (bool_decide (outcome = OperationOutcome.Ok)
               || bool_decide (outcome = OperationOutcome.NotFound))
         ("multipart cleanup for key " +:+ key +:+ " upload " +:+ sm_upload_id staged
          +:+ " ended with " +:+ OperationOutcome.debug outcome)).

(** [slice.chunks(size)]; every chunk takes at least one element of the fuel. *)
Fixpoint chunks_go (fuel size : nat) (l : list N) : list (list N) :=
  match fuel, l with
  | S fuel, _ :: _ => take size l :: chunks_go fuel size (drop size l)
  | _, _ => []
  end.
Definition chunks (size : nat) (l : list N) : list (list N) := chunks_go (length l) size l.

(** The parts uploaded, and whether all of them were. *)
Fixpoint upload_parts (key upload_id : string) (index : nat) (parts : list (list N))
    (completed : list CompletedPart) : Prog (list CompletedPart * bool) :=
  match parts with
  | [] => mret (completed, true)
  | chunk :: parts =>
      part ← upload_part key upload_id (N.of_nat index + 1) chunk;
      match part with
      | Some part => upload_parts key upload_id (S index) parts (completed ++ [part])
      | None => mret (completed, false)
      end
  end.

(** The cancellation guard acts only when the future is dropped. The cleanup after
    a recorder that failed to write is left out: such a failure ends the run of
    a program. *)
Definition try_stage_multipart_object (object : PreparedObject)
    : Prog (option StagedMultipartUpload) :=
  let spec := po_spec object in
  created ← create_multipart_upload (os_key spec);
  match created with
  | None => mret None
  | Some upload_id =>
      p ← upload_parts (os_key spec) upload_id 0
            (chunks (N.to_nat MULTIPART_PART_SIZE_BYTES) (po_body object)) [];
      let staged := mkStagedMultipartUpload spec upload_id p.1 in
      if negb p.2 then _ ← abort_staged_multipart_object staged; mret None
      else mret (Some staged)
  end.
Definition stage_multipart_object (object : PreparedObject) : Prog StagedMultipartUpload :=
  staged ← try_stage_multipart_object object;
  Ret (context staged "multipart upload could not be staged before fault activation").

Definition complete_staged_multipart_object_record (c : S3WorkloadClient)
    (staged : StagedMultipartUpload) : Prog OperationRecord :=
  let spec := sm_spec staged in
  r ← begin_op OperationKind.CompleteMultipartUpload (Some (os_key spec)) (Some (os_sha256 spec))
        (Some (os_size_bytes spec));
  let r := r <| op_mutation_max_attempts := Some (s3_mutation_max_attempts c) |> in
  reply ← send (CompleteMultipartUpload (os_key spec) (sm_upload_id staged)
                  (sm_completed_parts staged));
  let r := r <| op_mutation_attempts := Some reply.1 |> in
  match reply.2 with
  | Replied version_id =>
      finish_op (r <| op_version_id := version_id |>) OperationOutcome.Ok (Some 200%N) None
  | Refused e => finish_refused "complete multipart upload" r e
  | Elapsed => finish_timed_out "complete multipart upload" r
  end.

Definition complete_multipart_object_record (c : S3WorkloadClient) (object : PreparedObject)
    : Prog (option OperationRecord) :=
  staged ← try_stage_multipart_object object;
  match staged with
  | None => mret None
  | Some staged =>
      r ← complete_staged_multipart_object_record c staged;
      if bool_decide (is_Some (s3_mutation_deadline c))
         && negb (bool_decide (op_outcome r = OperationOutcome.Ok))
      then _ ← abort_staged_multipart_object staged; mret (Some r)
      else mret (Some r)
  end.
Definition complete_multipart_object (c : S3WorkloadClient) (object : PreparedObject)
    : Prog OperationOutcome.t :=
  r ← complete_multipart_object_record c object;
  mret (from_option op_outcome OperationOutcome.Unknown r).
Definition abort_multipart_object (object : PreparedObject) : Prog OperationOutcome.t :=
  let key := os_key (po_spec object) in
  created ← create_multipart_upload key;
  match created with
  | None => mret OperationOutcome.Unknown
  | Some upload_id => abort_multipart_upload key upload_id Mutation
  end.

(** *** HEAD and listings *)
Definition head_object (key : string) : Prog OperationOutcome.t :=
  r ← begin_op OperationKind.Head (Some key) None None;
  result ← send (HeadObject key);
  match result with
  | Replied _ => _ ← finish_op r OperationOutcome.Ok (Some 200%N) None; mret OperationOutcome.Ok
  | Refused e => _ ← finish_refused "head object" r e; mret (classify_sdk_error e)
  | Elapsed => _ ← finish_timed_out "head object" r; mret OperationOutcome.Timeout
  end.

(** The paging loop; the fuel bounds the pages a server hands out. *)
Fixpoint list_pages (pages : nat) (r : OperationRecord) (prefix : string) (token : option string)
    (keys : list string) : Prog (option (list string)) :=
  match pages with
  | 0 => Diverge
  | S pages =>
      response ← send (ListObjectsV2 prefix token);
      match response with
      | Refused e => _ ← finish_refused "list prefix" r e; mret None
      | Elapsed => _ ← finish_timed_out "list prefix" r; mret None
      | Replied page =>
          let keys := keys ++ omap id (lp_contents page) in
          if negb (default false (lp_is_truncated page)) then
            let r := r <| op_size_bytes := Some (len keys) |> <| op_listed_keys := Some keys |> in
            _ ← finish_op r OperationOutcome.Ok (Some 200%N) None;
            mret (Some keys)
          else
            match lp_next_token page with
            | None =>
                _ ← finish_op r OperationOutcome.Unknown (Some 200%N)
                      (Some "truncated LIST response omitted continuation token");
                mret None
            | Some token => list_pages pages r prefix (Some token) keys
            end
      end
  end.
Definition list_prefix (pages : nat) (prefix : string) : Prog (option (list string)) :=
  r ← begin_op OperationKind.List (Some prefix) None None;
  list_pages pages r prefix None [].

Definition version_entry (is_delete_marker : bool) (v : SdkVersion) : option ObjectVersionEntry :=
  key ← sv_key v;
  Some (mkObjectVersionEntry key (sv_version_id v) (default false (sv_is_latest v))
          is_delete_marker).
Definition listed_entry (e : ObjectVersionEntry) : ListedVersionEntry :=
  mkListedVersionEntry (ove_key e) (ove_version_id e) (ove_is_latest e) (ove_is_delete_marker e).
Fixpoint version_pages (pages : nat) (r : OperationRecord) (prefix : string)
    (key_marker version_id_marker : option string) (entries : list ObjectVersionEntry)
    : Prog (option (list ObjectVersionEntry)) :=
  match pages with
  | 0 => Diverge
  | S pages =>
      response ← send (ListObjectVersions prefix key_marker version_id_marker);
      match response with
      | Refused e => _ ← finish_refused "list object versions" r e; mret None
      | Elapsed => _ ← finish_timed_out "list object versions" r; mret None
      | Replied page =>
          let entries := entries ++ omap (version_entry false) (lvp_versions page)
                           ++ omap (version_entry true) (lvp_delete_markers page) in
          if negb (default false (lvp_is_truncated page)) then
            let r := r <| op_size_bytes := Some (len entries) |>
                       <| op_listed_versions := Some (listed_entry <$> entries) |> in
            _ ← finish_op r OperationOutcome.Ok (Some 200%N) None;
            mret (Some entries)
          else
            match lvp_next_key_marker page, lvp_next_version_id_marker page with
            | None, None =>
                _ ← finish_op r OperationOutcome.Unknown (Some 200%N)
                      (Some "truncated ListObjectVersions response omitted markers");
                mret None
            | next_key, next_version =>
                version_pages pages r prefix next_key next_version entries
            end
      end
  end.
Definition list_object_versions (pages : nat) (prefix : string)
    : Prog (option (list ObjectVersionEntry)) :=
  r ← begin_op OperationKind.ListVersions (Some prefix) None None;
  version_pages pages r prefix None None [].
End client.
