(* ===== verification/ClientRuns.v ===== *)
(** Clients on many tasks sharing one recorder: the interleavings of their
    calls, and the discipline every call of [S3WorkloadClient] keeps. *)
From S2P Require Import Prelude Ordering RustText History HistoryFacts RecorderFacts.
From S2P Require Import Workload Attempts Lineage Client.
From stdpp Require Import options.

(** ** What the SDK promises *)

(** A counted mutation is transmitted at most as often as the retry policy
    allows, and an answer means that it was transmitted. *)
Definition counted {X} (c : S3WorkloadClient) (reply : N * Sent SdkError X) : Prop :=
  (reply.1 ≤ s3_mutation_max_attempts c)%N ∧
  (∀ x, reply.2 = Replied x → (0 < reply.1)%N).
Definition reply_ok (c : S3WorkloadClient) {R} (request : Request R) : R → Prop :=
  match request in Request R return R → Prop with
  | PutObject _ _ => counted c
  | DeleteObject _ => counted c
  | CompleteMultipartUpload _ _ _ => counted c
  | _ => λ _, True
  end.

(** ** Disciplined programs *)

(** A record as [begin] hands it out. *)
Definition begun (bucket : string) (kind : OperationKind.t) (key sha : option string)
    (size : option N) (r : OperationRecord) : Prop :=
  op_kind r = kind ∧ op_bucket r = bucket ∧ op_key r = key ∧ op_value_sha256 r = sha ∧
  op_size_bytes r = size ∧ op_version_id r = None ∧ op_read_purpose r = None ∧ op_range r = None ∧
  op_mutation_attempts r = None ∧ op_mutation_max_attempts r = None ∧
  trim_is_empty (op_id r) = false ∧ op_request_version_id r = None.
(** The record [finish] returns for [r]. *)
Definition finished (r : OperationRecord) (outcome : OperationOutcome.t) (status : option N)
    (error : option string) (r' : OperationRecord) : Prop :=
  client_edit r r' ∧ op_outcome r' = outcome ∧ op_http_status r' = status ∧
  op_value_sha256 r' = op_value_sha256 r ∧ op_size_bytes r' = op_size_bytes r ∧
  op_version_id r' = op_version_id r ∧ op_listed_keys r' = op_listed_keys r ∧
  op_listed_versions r' = op_listed_versions r ∧ op_read_purpose r' = op_read_purpose r ∧
  op_range r' = op_range r ∧ op_mutation_attempts r' = op_mutation_attempts r ∧
  op_mutation_max_attempts r' = op_mutation_max_attempts r ∧
  op_is_delete_marker r' = op_is_delete_marker r ∧ op_payload_ref r' = op_payload_ref r ∧
  op_request_version_id r' = op_request_version_id r ∧
  (is_Some (op_error r') ↔ is_Some error).

Lemma begin_begun st kind bucket key sha size now r st' :
  begin st kind bucket key sha size now = ok (r, st') → begun bucket kind key sha size r.
Proof.
  unfold begin. intros (? & _ & (? & _ & [= <- _])%bind_ok)%bind_ok. repeat split.
Qed.
Lemma finish_finished st r o s e now write r' st' :
  finish st r o s e now write = ok (ok r', st') → finished r o s e r'.
Proof.
  unfold finish. intros (? & _ & H)%bind_ok. destruct (write _); [done|]. injection H as <- _.
  repeat split; simpl; by rewrite ?fmap_is_Some.
Qed.
(** Finishing never panics but for the width of the counter. *)
Lemma finish_answers st r o s e now write res st' :
  finish st r o s e now write = ok (res, st') → (∃ r', res = ok r') ∨ ∃ msg, res = err msg.
Proof. unfold finish. intros (? & _ & H)%bind_ok. destruct (write _); injection H as <- _; eauto. Qed.

(** The weakest precondition of a program: it begins one operation at a time,
    edits only what a client may edit, finishes the operation with a record the
    validators accept, whether or not it can be written, and when it returns a value, [Q] holds of the records it
    finished and of the value. [held] is the operation in flight, [trace] what
    was finished before. *)
Fixpoint wp {A} (c : S3WorkloadClient) (bucket : string) (trace : list OperationRecord)
    (held : option OperationRecord) (p : Prog A) (Q : list OperationRecord → A → Prop) : Prop :=
  match p with
  | Ret (ok a) => held = None ∧ Q trace a
  | Ret (err _) => held = None
  | Ret panicked => True
  | Begin kind key sha size k =>
      held = None ∧ ∀ r, begun bucket kind key sha size r → wp c bucket trace (Some r) (k r) Q
  | Send R request k => ∀ reply, reply_ok c request reply → wp c bucket trace held (k reply) Q
  | Finish r o s e k =>
      (∃ h, held = Some h ∧ client_edit h r) ∧
      op_bucket r = bucket ∧ valid_read_purpose r ∧
      (∀ r', finished r o s e r' → valid_mutation_attempts r') ∧
      (∀ r', finished r o s e r' → wp c bucket (trace ++ [r']) None (k (ok r')) Q) ∧
      ∀ msg, wp c bucket trace None (k (err msg)) Q
  | Diverge => True
  end.

Lemma wp_bind {A B} c bucket trace held (p : Prog A) (f : A → Prog B) Q :
  wp c bucket trace held p (λ trace a, wp c bucket trace None (f a) Q) →
  wp c bucket trace held (p ≫= f) Q.
Proof.
  unfold mbind, Prog_bind. revert trace held.
  induction p as [[a|e|]|kind key sha size k IH|R req k IH|r o s e k IH|]; intros trace held Hp;
    simpl in *; try done.
  - by destruct Hp as [-> Hp].
  - destruct Hp as [-> Hp]. split; [done|]. intros r Hr. by apply IH, Hp.
  - intros reply Hreply. by apply IH, Hp.
  - destruct Hp as (Hh & Hb & Hpur & Hatt & Hp & He). split_and!; [done..| |].
    + intros r' Hr'. by apply IH, Hp.
    + intros msg. by apply IH, He.
Qed.
Lemma wp_mono {A} c bucket trace held (p : Prog A) (Q Q' : list OperationRecord → A → Prop) :
  (∀ trace a, Q trace a → Q' trace a) →
  wp c bucket trace held p Q → wp c bucket trace held p Q'.
Proof.
  intros HQ. revert trace held.
  induction p as [[a|e|]|kind key sha size k IH|R req k IH|r o s e k IH|]; intros trace held Hp;
    simpl in *; try done.
  - destruct Hp. auto.
  - destruct Hp as [-> Hp]. split; [done|]. intros r Hr. by apply IH, Hp.
  - intros reply Hreply. by apply IH, Hp.
  - destruct Hp as (Hh & Hb & Hpur & Hatt & Hp & He). split_and!; [done..| |].
    + intros r' Hr'. by apply IH, Hp.
    + intros msg. by apply IH, He.
Qed.

(** A record without attempts or purpose is always acceptable. *)
Lemma plain_attempts r o s e r' :
  op_mutation_attempts r = None → finished r o s e r' → valid_mutation_attempts r'.
Proof.
  intros Hr (_ & _ & _ & _ & _ & _ & _ & _ & _ & _ & Ha & _) a. by rewrite Ha, Hr.
Qed.
Lemma counted_attempts c n r o s e r' :
  op_mutation_attempts r = Some n → is_mutation_kind (op_kind r) = true →
  op_mutation_max_attempts r = Some (s3_mutation_max_attempts c) →
  (n ≤ s3_mutation_max_attempts c)%N → ((0 < n)%N ∨ o ≠ OperationOutcome.Ok) →
  finished r o s e r' → valid_mutation_attempts r'.
Proof.
  intros Ha Hk Hm Hle Ho ((_ & _ & _ & Hkind & _) & Hout & _ & _ & _ & _ & _ & _ & _ & _ & Ha' & Hm' & _) a.
  rewrite Ha', Ha. intros [= <-]. rewrite Hkind, Hm', Hm, Hout. naive_solver.
Qed.
Lemma classify_not_ok e : classify_sdk_error e ≠ OperationOutcome.Ok.
Proof. unfold classify_sdk_error. destruct (sdk_kind e); try done. by case_bool_decide. Qed.

Lemma plain_purpose r : op_read_purpose r = None → valid_read_purpose r.
Proof. unfold valid_read_purpose. by intros ->. Qed.

(** ** The rules of the three effects *)
Section rules.
Context (c : S3WorkloadClient) (bucket : string).

Lemma wp_begin {A} trace kind key sha size (f : OperationRecord → Prog A) Q :
  (∀ r, begun bucket kind key sha size r → wp c bucket trace (Some r) (f r) Q) →
  wp c bucket trace None (begin_op kind key sha size ≫= f) Q.
Proof using Type. intros H. split; [done|]. exact H. Qed.
Lemma wp_send {A R} trace held (request : Request R) (f : R → Prog A) Q :
  (∀ reply, reply_ok c request reply → wp c bucket trace held (f reply) Q) →
  wp c bucket trace held (send request ≫= f) Q.
Proof using Type. intros H. exact H. Qed.
Lemma wp_finish_op trace h r o s e (Q : list OperationRecord → OperationRecord → Prop) :
  client_edit h r → op_bucket r = bucket → valid_read_purpose r →
  (∀ r', finished r o s e r' → valid_mutation_attempts r') →
  (∀ r', finished r o s e r' → Q (trace ++ [r']) r') →
  wp c bucket trace (Some h) (finish_op r o s e) Q.
Proof using Type. intros ?????. split_and!; [by exists h|done..| |done]. split; auto. Qed.
Lemma wp_mret {A} trace (a : A) (Q : list OperationRecord → A → Prop) :
  Q trace a → wp c bucket trace None (mret a) Q.
Proof using Type. done. Qed.
End rules.

(** ** What every call records and returns *)
Ltac begun r :=
  apply wp_begin;
  intros r (Hkind & Hbucket & Hkey & Hsha & Hsize & Hversion & Hpurpose & Hrange & Hattempts &
    Hmaximum & Hid & Hrequest).
(** Closes a finished operation whose attempts are established by [tac]; what
    is left is the postcondition. *)
Ltac finished_by tac :=
  unfold finish_refused, finish_timed_out; try apply wp_bind;
  apply wp_finish_op;
    [by repeat split|done|try (by apply plain_purpose)|tac|
     let r' := fresh "r'" in let Hr := fresh "Hr" in
     intros r' Hr; try apply wp_mret].
Ltac finish_plain := finished_by ltac:(intros ? Hfin; by eapply plain_attempts; [|exact Hfin]).
Ltac finish_counted c n :=
  finished_by ltac:(
    intros ? Hfin; eapply (counted_attempts c n); [| | | | |exact Hfin];
      [done|simpl; match goal with H : op_kind _ = _ |- _ => by rewrite H end|done|eassumption
      |first [right; apply classify_not_ok|by right|left; by eauto]]).

Section calls.
Context (sha256_hex : list N → string) (c : S3WorkloadClient) (bucket : string).
(** The call finishes the records of a trace for which [Q] holds. *)
Definition records {A} (p : Prog A) (Q : list OperationRecord → A → Prop) : Prop :=
  ∀ trace, wp c bucket trace None p (λ trace' a, ∃ recorded, trace' = trace ++ recorded ∧ Q recorded a).

Lemma records_ret {A} (a : Result A) (Q : list OperationRecord → A → Prop) :
  (∀ x, a = ok x → Q [] x) → records (Ret a) Q.
Proof using Type.
  intros H trace. destruct a; simpl; [|done..]. split; [done|]. exists []. rewrite app_nil_r. auto.
Qed.
Lemma records_bind {A B} (p : Prog A) (f : A → Prog B) Q Q' :
  records p Q → (∀ rs a, Q rs a → records (f a) (λ rs' b, Q' (rs ++ rs') b)) → records (p ≫= f) Q'.
Proof using Type.
  intros Hp Hf trace. apply wp_bind. eapply wp_mono; [|apply Hp]. simpl.
  intros trace1 a (rs & -> & HQ). eapply wp_mono; [|by apply (Hf rs)]. simpl.
  intros trace2 b (rs' & -> & HQ'). exists (rs ++ rs'). by rewrite (assoc_L (++)).
Qed.
Lemma records_mono {A} (p : Prog A) (Q Q' : list OperationRecord → A → Prop) :
  (∀ rs a, Q rs a → Q' rs a) → records p Q → records p Q'.
Proof using Type.
  intros HQ Hp trace. eapply wp_mono; [|apply Hp]. intros ? ? (rs & -> & ?). eauto.
Qed.
Definition one (P : OperationRecord → Prop) (rs : list OperationRecord) : Prop :=
  ∃ r, rs = [r] ∧ P r.

Ltac recorded := eexists; split; [reflexivity|].

Lemma bucket_request_records kind what request :
  records (bucket_request kind what request) (λ rs o, one (λ r, op_kind r = kind ∧ op_outcome r = o) rs).
Proof using Type.
  intros trace. begun r. apply wp_send. intros [[]|e|] _; finish_plain; recorded; recorded;
    destruct Hr as ((_ & _ & _ & -> & _) & -> & _); done.
Qed.

(** The record of a GET agrees with the result the caller sees. *)
Record recorded_get (key : string) (version_id : option string) (purpose : option ReadPurpose.t)
    (g : GetObjectResult) (r : OperationRecord) : Prop := {
  rec_kind : op_kind r = OperationKind.Get;
  rec_key : op_key r = Some key;
  rec_version : op_version_id r = version_id;
  rec_purpose : op_read_purpose r = purpose;
  rec_range : op_range r = None;
  rec_outcome : op_outcome r = get_outcome g;
  rec_status : op_http_status r = get_http_status g;
  rec_sha256 : op_value_sha256 r = sha256_hex <$> get_body g;
  rec_size : op_size_bytes r = len <$> get_body g;
  rec_error : is_Some (op_error r) ↔ is_Some (get_error g);
  rec_ok : get_outcome g = OperationOutcome.Ok ↔ is_Some (get_body g);
  rec_200 : get_outcome g = OperationOutcome.Ok → get_http_status g = Some 200%N;
  rec_404 : get_outcome g = OperationOutcome.NotFound → get_http_status g = Some 404%N;
}.

Lemma classify_not_found e :
  classify_sdk_error e = OperationOutcome.NotFound → sdk_error_status e = Some 404%N.
Proof using Type.
  unfold classify_sdk_error, sdk_error_status. destruct (sdk_kind e); try done.
  by case_bool_decide as Hs; [rewrite Hs|].
Qed.

Definition purpose_ok (version_id : option string) (purpose : option ReadPurpose.t) : Prop :=
  (purpose = None ∨ version_id = None) ∧
  ∀ id, purpose = Some (ReadPurpose.MutationVerification id) → trim_is_empty id = false.

Lemma get_records key version_id purpose :
  purpose_ok version_id purpose →
  records (get_object_result_inner sha256_hex key version_id purpose) (λ rs g,
    one (λ r, op_id r = rg_operation_id g ∧
              recorded_get key version_id purpose (rg_result g) r) rs).
Proof using Type.
  intros [Hpur Hver] trace. begun r.
  assert (∀ r', op_kind r' = op_kind r → op_range r' = op_range r → op_version_id r' = version_id →
    op_read_purpose r' = purpose → valid_read_purpose r') as Hvalid.
  { intros r' H1 H2 H3 H4. unfold valid_read_purpose. rewrite H4. destruct purpose as [p|]; [|done].
    rewrite H1, H2, H3, Hkind, Hrange. destruct Hpur as [?| ->]; [done|]. naive_solver. }
  apply wp_send. intros [[]|e|] _; [apply wp_send; intros [body|text|] _|..]; finish_plain;
    (try by apply Hvalid); recorded; recorded;
    destruct Hr as ((Ei & _ & _ & Ek & _ & Eky & _) & Eo & Es & Ev & Ez & Evi & _ & _ & Ep & Er &
      _ & _ & _ & _ & _ & Ee); (split; [exact Ei|]); split; cbn [rg_result get_outcome get_http_status
      get_body get_error fmap option_fmap option_map];
      first [done|by rewrite ?Ek, ?Eky, ?Ev, ?Ez, ?Er|by rewrite is_Some_alt|split; naive_solver
      |by intros ?%classify_not_ok|apply classify_not_found
      |by split; [intros ?%classify_not_ok|intros [? ?]]].
Qed.

(** The record of a listing holds what the caller gets, and nothing else is
    recorded as a completed listing. *)
Definition recorded_listing {X} (kind : OperationKind.t) (prefix : string) (listed : option X)
    (field : OperationRecord → option X) (r : OperationRecord) : Prop :=
  op_kind r = kind ∧ op_key r = Some prefix ∧ op_version_id r = None ∧
  match listed with
  | Some l => op_outcome r = OperationOutcome.Ok ∧ op_http_status r = Some 200%N ∧
              field r = Some l
  | None => op_outcome r ≠ OperationOutcome.Ok
  end.

Ltac close_listing Hr :=
  recorded; recorded;
  destruct Hr as ((_ & _ & _ & Ek & _ & Eky & _) & Eo & Es & _ & _ & Ev & El & Elv & _);
  unfold recorded_listing; simpl; rewrite Ek, Eky, Ev, Eo, ?Es, ?El, ?Elv; split_and!;
    auto using classify_not_ok; done.

Lemma list_records pages prefix :
  records (list_prefix pages prefix) (λ rs keys,
    one (recorded_listing OperationKind.List prefix keys op_listed_keys) rs).
Proof using Type.
  intros trace. begun r. generalize (@None string) (@nil string).
  induction pages as [|pages IH]; intros token keys; [done|].
  apply wp_send. intros [page|e|] _; [|finish_plain; close_listing Hr..].
  destruct (negb _); [finish_plain; close_listing Hr|].
  destruct (lp_next_token page); [apply IH|finish_plain; close_listing Hr].
Qed.
Lemma list_versions_records pages prefix :
  records (list_object_versions pages prefix) (λ rs entries,
    one (recorded_listing OperationKind.ListVersions prefix (option_map (map listed_entry) entries)
           op_listed_versions) rs).
Proof using Type.
  intros trace. begun r. generalize (@None string) at 1.
  generalize (@None string) (@nil ObjectVersionEntry).
  induction pages as [|pages IH]; intros version entries key; [done|].
  apply wp_send. intros [page|e|] _; [|finish_plain; close_listing Hr..].
  destruct (negb _); [finish_plain; close_listing Hr|].
  destruct (lvp_next_key_marker page), (lvp_next_version_id_marker page); try apply IH.
  finish_plain; close_listing Hr.
Qed.

(** ** Every call is disciplined *)

(** A mutation that was finished: it names no version, and it was transmitted at
    most as often as the client may, at least once when it was acknowledged. *)
Definition recorded_mutation (kind : OperationKind.t) (key : string) (r : OperationRecord) : Prop :=
  op_kind r = kind ∧ op_key r = Some key ∧ trim_is_empty (op_id r) = false ∧
  op_request_version_id r = None ∧
  ∃ n, op_mutation_attempts r = Some n ∧ (n ≤ s3_mutation_max_attempts c)%N ∧
    (op_outcome r = OperationOutcome.Ok → (0 < n)%N).
(** The record of a write names the value it wrote. *)
Definition recorded_value (kind : OperationKind.t) (spec : ObjectSpec) (r : OperationRecord) : Prop :=
  recorded_mutation kind (os_key spec) r ∧
  op_value_sha256 r = Some (os_sha256 spec) ∧ op_size_bytes r = Some (os_size_bytes spec).
(** The value of a PUT can be regenerated from its record. *)
Definition recorded_write (object : PreparedObject) (r : OperationRecord) : Prop :=
  recorded_value OperationKind.Put (po_spec object) r ∧
  op_payload_ref r = Some (mkPayloadRef (os_seed (po_spec object)) (os_index (po_spec object))).

Ltac close_mutation Hr :=
  recorded; recorded;
  destruct Hr as ((Ei & _ & _ & Ek & _ & Eky & _) & Eo & _ & Ev & Ez & _ & _ & _ & _ & _ & Ea & _ & _ & Epr & Erq & _);
  unfold recorded_write, recorded_value, recorded_mutation;
  rewrite ?Ei, ?Ek, ?Eky, ?Ev, ?Ez, ?Epr, ?Erq, ?Eo, ?Ea; simpl; split_and?; try done;
  eexists; split_and!; [done..|]; first [by eauto|by intros ?%classify_not_ok|done].

Lemma put_records object :
  records (put_object_record c object) (λ rs r', one (λ r, r' = r ∧ recorded_write object r) rs).
Proof using Type.
  intros trace. begun r. apply wp_send. intros [n [v|e|]] [Hle Hpos]; cbn [fst snd] in *;
    finish_counted c n; close_mutation Hr.
Qed.
Lemma delete_records key :
  records (delete_object_record c key) (λ rs r',
    one (λ r, r' = r ∧ recorded_mutation OperationKind.Delete key r) rs).
Proof using Type.
  intros trace. begun r. apply wp_send. intros [n [v|e|]] [Hle Hpos]; cbn [fst snd] in *;
    [|destruct (has_raw_response e)|]; finish_counted c n; close_mutation Hr.
Qed.
Lemma complete_staged_records staged :
  records (complete_staged_multipart_object_record c staged) (λ rs r',
    one (λ r, r' = r ∧ recorded_value OperationKind.CompleteMultipartUpload (sm_spec staged) r) rs).
Proof using Type.
  intros trace. begun r. apply wp_send. intros [n [v|e|]] [Hle Hpos]; cbn [fst snd] in *;
    finish_counted c n; close_mutation Hr.
Qed.

(** The other calls only have to be disciplined. *)
Definition behaves {A} (p : Prog A) : Prop := records p (λ _ _, True).
Lemma records_behaves {A} (p : Prog A) Q : records p Q → behaves p.
Proof using Type. by apply records_mono. Qed.
Lemma behaves_ret {A} (a : Result A) : behaves (Ret a).
Proof using Type. by apply records_ret. Qed.
Lemma behaves_bind {A B} (p : Prog A) (f : A → Prog B) :
  behaves p → (∀ a, behaves (f a)) → behaves (p ≫= f).
Proof using Type. intros Hp Hf. eapply records_bind; [exact Hp|]. intros rs a _. apply Hf. Qed.
Lemma behaves_after {A B} (p : Prog A) (f : A → Prog B) Q :
  records p Q → (∀ rs a, Q rs a → behaves (f a)) → behaves (p ≫= f).
Proof using Type. intros Hp Hf. eapply records_bind; [exact Hp|]. intros rs a HQ. by eapply Hf. Qed.

Ltac plain_call := finish_plain; by recorded.
Lemma range_behaves key range : behaves (get_object_range_result sha256_hex key range).
Proof using Type.
  intros trace. begun r. set (end_of := add_u64 _ _ ≫= _).
  assert ((∃ n, end_of = ok n) ∨ end_of = panicked) as [[n ->]| ->]; [| |done].
  { unfold end_of, add_u64, sub_u64. destruct (checked_add64 _ _); [|by right]. simpl.
    case_bool_decide; eauto. }
  apply wp_send. intros [[]|e|] _; [apply wp_send; intros [body|text|] _|..];
    [case_bool_decide|..]; plain_call.
Qed.
Lemma head_behaves key : behaves (head_object key).
Proof using Type. intros trace. begun r. apply wp_send. intros [[]|e|] _; plain_call. Qed.

(** Calls that create, fill and abort uploads commit nothing. *)
Definition commits_nothing (rs : list OperationRecord) : Prop :=
  Forall (λ r, is_mutation_kind (op_kind r) = false) rs.
Definition auxiliary {A} (p : Prog A) (Q : A → Prop) : Prop :=
  records p (λ rs a, commits_nothing rs ∧ Q a).
Lemma auxiliary_behaves {A} (p : Prog A) Q : auxiliary p Q → behaves p.
Proof using Type. apply records_behaves. Qed.
Lemma auxiliary_ret {A} (a : Result A) (Q : A → Prop) : (∀ x, a = ok x → Q x) → auxiliary (Ret a) Q.
Proof using Type. intros H. apply records_ret. split; [constructor|auto]. Qed.
Lemma auxiliary_bind {A B} (p : Prog A) (f : A → Prog B) Q Q' :
  auxiliary p Q → (∀ a, Q a → auxiliary (f a) Q') → auxiliary (p ≫= f) Q'.
Proof using Type.
  intros Hp Hf. eapply records_bind; [exact Hp|]. intros rs a [Hrs Ha].
  eapply records_mono; [|by apply Hf]. intros rs' b [? ?]. split; [by apply Forall_app|done].
Qed.

Ltac auxiliary_call :=
  finish_plain; recorded; split; [|done]; constructor; [|constructor];
  match goal with H : finished _ _ _ _ _ |- _ => destruct H as ((_ & _ & _ & -> & _) & _) end;
  match goal with H : op_kind _ = _ |- _ => by rewrite H end.
Lemma create_multipart_auxiliary key : auxiliary (create_multipart_upload key) (λ _, True).
Proof using Type. intros trace. begun r. apply wp_send. intros [[id|]|e|] _; auxiliary_call. Qed.
Lemma upload_part_auxiliary key upload_id n body :
  auxiliary (upload_part sha256_hex key upload_id n body) (λ _, True).
Proof using Type. intros trace. begun r. apply wp_send. intros [[tag|]|e|] _; auxiliary_call. Qed.
Lemma abort_multipart_auxiliary key upload_id bound :
  auxiliary (abort_multipart_upload key upload_id bound) (λ _, True).
Proof using Type. intros trace. begun r. apply wp_send. intros [[]|e|] _; auxiliary_call. Qed.
Lemma abort_staged_auxiliary staged : auxiliary (abort_staged_multipart_object staged) (λ _, True).
Proof using Type.
  eapply auxiliary_bind; [apply abort_multipart_auxiliary|intros outcome _; by apply auxiliary_ret].
Qed.
Lemma upload_parts_auxiliary key upload_id index parts completed :
  auxiliary (upload_parts sha256_hex key upload_id index parts completed) (λ _, True).
Proof using Type.
  revert index completed. induction parts as [|chunk parts IH]; intros index completed;
    [by apply auxiliary_ret|].
  eapply auxiliary_bind; [apply upload_part_auxiliary|].
  intros [part|] _; [apply IH|by apply auxiliary_ret].
Qed.
(** What was staged is what was to be staged. *)
Lemma try_stage_auxiliary object :
  auxiliary (try_stage_multipart_object sha256_hex object) (λ staged,
    from_option (λ s, sm_spec s = po_spec object) True staged).
Proof using Type.
  eapply auxiliary_bind; [apply create_multipart_auxiliary|].
  intros [id|] _; [|by apply auxiliary_ret; intros ? [= <-]].
  eapply auxiliary_bind; [apply upload_parts_auxiliary|].
  intros [parts []] _; cbn [fst snd negb]; [by apply auxiliary_ret; intros ? [= <-]|].
  eapply auxiliary_bind; [apply abort_staged_auxiliary|].
  intros _ _. by apply auxiliary_ret; intros ? [= <-].
Qed.
Lemma try_stage_behaves object : behaves (try_stage_multipart_object sha256_hex object).
Proof using Type. eapply auxiliary_behaves, try_stage_auxiliary. Qed.
Lemma abort_staged_behaves staged : behaves (abort_staged_multipart_object staged).
Proof using Type. eapply auxiliary_behaves, abort_staged_auxiliary. Qed.
Lemma complete_multipart_behaves object :
  behaves (complete_multipart_object_record sha256_hex c object).
Proof using Type.
  apply behaves_bind; [apply try_stage_behaves|]. intros [staged|]; [|apply behaves_ret].
  apply behaves_bind; [eapply records_behaves, complete_staged_records|].
  intros r. case_match; [|apply behaves_ret].
  apply behaves_bind; [apply abort_staged_behaves|]. intros _. apply behaves_ret.
Qed.
Lemma plain_get_behaves key version_id :
  behaves (get_object_result_inner sha256_hex key version_id None).
Proof using Type. eapply records_behaves, get_records. by split; [left|]. Qed.
Lemma put_verify_behaves object : behaves (put_and_verify_object sha256_hex c object).
Proof using Type.
  eapply behaves_after; [apply put_records|]. intros rs w (r & _ & <- & (((_ & Hk & Hid & _) & _) & _)).
  case_match; [apply behaves_ret|]. apply behaves_bind; [|intros; apply behaves_ret].
  apply behaves_bind; [apply behaves_ret|]. intros key.
  apply behaves_bind; [|intros; apply behaves_ret].
  eapply records_behaves, get_records. split; [by right|]. by intros id [= <-].
Qed.

(** The calls the workload, the checker and the probes make. *)
Inductive client_call : ∀ A, Prog A → Prop :=
| call_create_bucket : client_call _ create_bucket
| call_enable_versioning : client_call _ enable_bucket_versioning
| call_put object : client_call _ (put_object_record c object)
| call_put_verify object : client_call _ (put_and_verify_object sha256_hex c object)
| call_get key : client_call _ (get_object_result sha256_hex key)
| call_probe key : client_call _ (get_cohort_probe_result sha256_hex key)
| call_get_recorded key : client_call _ (get_object_recorded_result sha256_hex key)
| call_get_version key version_id :
    client_call _ (get_object_version_result sha256_hex key version_id)
| call_get_version_recorded key version_id :
    client_call _ (get_object_version_recorded_result sha256_hex key version_id)
| call_range key range : client_call _ (get_object_range_result sha256_hex key range)
| call_delete key : client_call _ (delete_object_record c key)
| call_delete_marker key : client_call _ (delete_marker_record c key)
| call_delete_verify key : client_call _ (delete_and_verify_absent sha256_hex c key)
| call_multipart object : client_call _ (complete_multipart_object_record sha256_hex c object)
| call_stage object : client_call _ (stage_multipart_object sha256_hex object)
| call_complete_staged staged : client_call _ (complete_staged_multipart_object_record c staged)
| call_abort_staged staged : client_call _ (abort_staged_multipart_object staged)
| call_abort object : client_call _ (abort_multipart_object object)
| call_head key : client_call _ (head_object key)
| call_list pages prefix : client_call _ (list_prefix pages prefix)
| call_list_versions pages prefix : client_call _ (list_object_versions pages prefix).

Lemma client_call_behaves A (p : Prog A) : client_call A p → behaves p.
Proof using Type.
  intros []; try by (eapply records_behaves; first [apply bucket_request_records|apply put_records
    |apply delete_records|apply complete_staged_records|apply list_records|apply list_versions_records]).
  - apply put_verify_behaves.
  - apply behaves_bind; [apply plain_get_behaves|intros; apply behaves_ret].
  - apply behaves_bind; [|intros; apply behaves_ret]. eapply records_behaves, get_records. by split; [right|].
  - apply plain_get_behaves.
  - apply behaves_bind; [apply plain_get_behaves|intros; apply behaves_ret].
  - apply plain_get_behaves.
  - apply range_behaves.
  - apply behaves_bind; [eapply records_behaves, delete_records|]. intros r. case_match; apply behaves_ret.
  - apply behaves_bind.
    + apply behaves_bind; [eapply records_behaves, delete_records|intros; apply behaves_ret].
    + intros o. case_match; [apply behaves_ret|]. apply behaves_bind; [|intros; apply behaves_ret].
      apply behaves_bind; [apply plain_get_behaves|intros; apply behaves_ret].
  - apply complete_multipart_behaves.
  - apply behaves_bind; [apply try_stage_behaves|intros; apply behaves_ret].
  - apply abort_staged_behaves.
  - apply behaves_bind; [eapply auxiliary_behaves, create_multipart_auxiliary|].
    intros [id|]; [eapply auxiliary_behaves, abort_multipart_auxiliary|apply behaves_ret].
  - apply head_behaves.
Qed.
End calls.
