(* ===== verification/ClientFacts.v ===== *)
(** Clients and recorder together: the history of any interleaving of client
    calls validates, and a read leaves exactly one record, which agrees with
    what the caller got. *)
From S2P Require Import Prelude Ordering RustText History HistoryFacts RecorderFacts.
From S2P Require Import Workload Attempts Lineage Client ClientRuns.
From stdpp Require Import options.

(** ** Concurrent clients *)

(** A task: what is left of its call, and the operation it has in flight. *)
Record Task := mkTask {
  task_held : option OperationRecord;
  task_prog : Prog unit;
}.

Section system.
Context (sha256_hex : list N → string) (c : S3WorkloadClient) (bucket : string).
Context (write : OperationRecord → option string).

Inductive client_step : RecorderState * list Task → RecorderState * list Task → Prop :=
| task_spawns st ts A (p : Prog A) :
    client_call sha256_hex c A p →
    client_step (st, ts) (st, mkTask None (p ≫= λ _, mret tt) :: ts)
| task_begins st l1 l2 kind key sha size k now r st' :
    begin st kind bucket key sha size now = ok (r, st') →
    client_step (st, l1 ++ mkTask None (Begin kind key sha size k) :: l2)
                (st', mkTask (Some r) (k r) :: l1 ++ l2)
| task_sends st l1 l2 held R (request : Request R) k reply :
    reply_ok c request reply →
    client_step (st, l1 ++ mkTask held (Send R request k) :: l2)
                (st, l1 ++ mkTask held (k reply) :: l2)
| task_finishes st l1 l2 h r o s e k now written st' :
    finish st r o s e now write = ok (written, st') →
    client_step (st, l1 ++ mkTask (Some h) (Finish r o s e k) :: l2)
                (st', l1 ++ mkTask None (k written) :: l2)
| task_returns st l1 l2 a :
    client_step (st, l1 ++ mkTask None (Ret a) :: l2) (st, l1 ++ l2)
| fault_activates st ts now : client_step (st, ts) (mark_fault_active_at st now, ts)
| fault_ends st ts now : client_step (st, ts) (mark_fault_ended_now st now, ts)
| cohort_changes st ts d : client_step (st, ts) (set_durability_cohort st d, ts)
| secrets_added st ts secrets st' :
    redact_secrets st secrets = ok st' → client_step (st, ts) (st', ts).

(** The task keeps the discipline from here on. *)
Definition task_ok (t : Task) : Prop := wp c bucket [] (task_held t) (task_prog t) (λ _ _, True).
(** A record as the validators want it, whatever it is compared with. *)
Definition record_ok (r : OperationRecord) : Prop :=
  op_bucket r = bucket ∧ valid_read_purpose r ∧ valid_mutation_attempts r.

Record system_ok (scenario run_id : string) (s : RecorderState * list Task) : Prop := {
  so_recorder : rtc (recorder_step write) (create scenario run_id, []) (s.1, omap task_held s.2);
  so_tasks : Forall task_ok s.2;
  so_records : Forall record_ok (rs_records s.1);
}.

Lemma wp_trace_irrelevant {A} trace trace' held (p : Prog A) :
  wp c bucket trace held p (λ _ _, True) → wp c bucket trace' held p (λ _ _, True).
Proof using Type.
  revert trace trace' held.
  induction p as [[a|e|]|kind key sha size k IH|R req k IH|r o s e k IH|]; intros trace trace' held Hp;
    simpl in *; try done.
  - destruct Hp as [-> Hp]. split; [done|]. intros r Hr. by eapply IH, Hp.
  - intros reply Hreply. by eapply IH, Hp.
  - destruct Hp as (Hh & Hb & Hpur & Hatt & Hp & He). split_and!; [done..| |].
    + intros r' Hr'. by eapply IH, Hp.
    + intros msg. by eapply IH, He.
Qed.

Lemma finished_record_ok st r o s e now r' st' h :
  client_edit h r → op_bucket r = bucket → valid_read_purpose r →
  (∀ x, finished r o s e x → valid_mutation_attempts x) →
  finish st r o s e now write = ok (ok r', st') → record_ok r'.
Proof using Type.
  intros _ Hb Hp Ha Hf%finish_finished. split_and!; [|..|by apply Ha].
  - by destruct Hf as ((_ & _ & _ & _ & -> & _) & _).
  - destruct Hf as ((_ & _ & _ & Hk & _) & _ & _ & _ & _ & Hv & _ & _ & Hpu & Hr & _).
    unfold valid_read_purpose in *. by rewrite Hpu, Hk, Hr, Hv.
Qed.

Lemma finish_records st r o s e now written st' :
  finish st r o s e now write = ok (written, st') →
  rs_records st' = rs_records st ++ (match written with ok r' => [r'] | _ => [] end).
Proof using Type.
  unfold finish. intros (? & _ & H)%bind_ok. destruct (write _); injection H as <- <-; [by rewrite app_nil_r|done].
Qed.
Lemma begin_records st kind key sha size now r st' :
  begin st kind bucket key sha size now = ok (r, st') → rs_records st' = rs_records st.
Proof using Type. unfold begin. by intros (? & _ & (? & _ & [= _ <-])%bind_ok)%bind_ok. Qed.

(** A step of the clients is at most a step of the recorder. *)
Lemma client_step_ok scenario run_id s s' :
  client_step s s' → system_ok scenario run_id s → system_ok scenario run_id s'.
Proof using Type.
  intros Hstep [Hrec Htasks Hrecs].
  destruct Hstep as [st ts A p Hp|st l1 l2 kind key sha size k now r st' Hb|st l1 l2 held R req k reply Hr
    |st l1 l2 h r o se e k now written st' Hf|st l1 l2 a|st ts now|st ts now|st ts d|st ts secrets st' Hs];
    simpl in *.
  - split; [done| |done]. constructor; [|done].
    apply wp_bind. eapply wp_mono; [|by apply (client_call_behaves _ _ bucket _ _ Hp)]. done.
  - apply Forall_app in Htasks as [H1 [[_ Ht] H2]%Forall_cons]. rewrite omap_app in Hrec. simpl in Hrec.
    split; simpl.
    + rewrite omap_app. eapply rtc_r; [exact Hrec|]. by eapply step_begin.
    + constructor; [by eapply Ht, begin_begun|by apply Forall_app].
    + by rewrite (begin_records _ _ _ _ _ _ _ _ Hb).
  - apply Forall_app in Htasks as [H1 [Ht H2]%Forall_cons]. rewrite omap_app in Hrec. simpl in Hrec.
    split; simpl; [by rewrite omap_app| |done]. apply Forall_app. split; [done|].
    constructor; [by apply Ht|done].
  - apply Forall_app in Htasks as [H1 [Ht H2]%Forall_cons].
    destruct Ht as ((h' & [= <-] & Hedit) & Hb & Hp & Ha & Ht & He). rewrite omap_app in Hrec. simpl in Hrec.
    split; simpl.
    + rewrite omap_app. eapply rtc_r; [exact Hrec|]. by eapply step_finish.
    + apply Forall_app. split; [done|]. constructor; [|done].
      destruct (finish_answers _ _ _ _ _ _ _ _ _ Hf) as [[r' ->]|[msg ->]]; [|apply He].
      eapply wp_trace_irrelevant. by eapply Ht, finish_finished.
    + rewrite (finish_records _ _ _ _ _ _ _ _ Hf). apply Forall_app. split; [done|].
      destruct written as [r'|msg|]; constructor; [|done]. by eapply finished_record_ok.
  - apply Forall_app in Htasks as [H1 [Ht H2]%Forall_cons]. rewrite omap_app in Hrec. simpl in Hrec.
    split; simpl; [by rewrite omap_app|by apply Forall_app|done].
  - split; simpl; [|done..]. eapply rtc_r; [exact Hrec|constructor].
  - split; simpl; [|done..]. eapply rtc_r; [exact Hrec|constructor].
  - split; simpl; [|done..]. eapply rtc_r; [exact Hrec|constructor].
  - split; simpl; [|done|].
    + eapply rtc_r; [exact Hrec|by eapply step_redact].
    + unfold redact_secrets in Hs. apply bind_ensure_ok in Hs as [_ [= <-]]. done.
Qed.

Lemma client_reachable_ok scenario run_id s :
  rtc client_step (create scenario run_id, []) s → system_ok scenario run_id s.
Proof using Type.
  revert s. apply (rtc_ind_r (system_ok scenario run_id)).
  - split; simpl; [apply rtc_refl|constructor|constructor].
  - intros s s' _ Hstep IH. by eapply client_step_ok.
Qed.
End system.

(** C38. Under every interleaving of the client's calls by concurrent tasks, with the
    recorder's fault-window calls, any replies of the store and any failures to write a
    record to the history file, once all calls have returned the recorded history passes
    validate_partial_history_scope_and_order, and if every record could be written it
    passes validate_history_scope_and_order, provided the store never reuses an
    immutable version identity and the tasks serialize the mutations of a key; bucket,
    read purposes and attempt counts are right by construction. *)
Theorem client_history_valid sha256_hex c bucket write scenario run_id st :
  rtc (client_step sha256_hex c bucket write) (create scenario run_id, []) (st, []) →
  identities_unique (rs_records st) →
  (∀ earlier x rest s, rs_records st = earlier ++ x :: rest →
     op_started_sequence x = Some s → follows_key_mutations earlier x s) →
  validate_partial_history_scope_and_order (rs_records st) scenario run_id bucket = ok tt ∧
  ((∀ r, write r = None) → validate_history_scope_and_order (rs_records st) scenario run_id bucket = ok tt).
Proof.
  intros [Hrec _ Hok]%client_reachable_ok Hi Hm.
  assert (disciplined bucket (rs_records st)) as Hdis.
  { rewrite Forall_forall in Hok. split; [..|done]; try done; apply Forall_forall; intros r Hr;
      by destruct (Hok r Hr) as (? & ? & ?). }
  split; [|intros Hw]; by eapply recorder_history_valid.
Qed.

(** ** One client *)

(** The replies of a server to the numbered requests of a run. *)
Definition Server := ∀ R, nat → Request R → R.

(** A call run to its end on a recorder nobody else uses; the events of the run
    are numbered, and the clock is read once per event. *)
Fixpoint run_prog {A} (bucket : string) (server : Server) (clock : nat → N)
    (write : OperationRecord → option string) (n : nat)
    (st : RecorderState) (p : Prog A) : Result (A * RecorderState) :=
  match p with
  | Ret (ok a) => ok (a, st)
  | Ret (err e) => err e
  | Ret panicked | Diverge => panicked
  | Begin kind key sha size k =>
      b ← begin st kind bucket key sha size (clock n);
      run_prog bucket server clock write (S n) b.2 (k b.1)
  | Send R request k => run_prog bucket server clock write (S n) st (k (server R n request))
  | Finish r o s e k =>
      f ← finish st r o s e (clock n) write;
      run_prog bucket server clock write (S n) f.2 (k f.1)
  end.

Section run.
Context (c : S3WorkloadClient) (bucket : string) (server : Server) (clock : nat → N).
Context (write : OperationRecord → option string).
Context (Hserver : ∀ R n (request : Request R), reply_ok c request (server R n request)).

Lemma run_wp {A} n st trace held (p : Prog A) Q a st' :
  wp c bucket trace held p Q → run_prog bucket server clock write n st p = ok (a, st') →
  ∃ rs, rs_records st' = rs_records st ++ rs ∧ Q (trace ++ rs) a.
Proof using Hserver.
  revert n st trace held.
  induction p as [[x|e|]|kind key sha size k IH|R req k IH|r o s e k IH|]; intros n st trace held Hp;
    simpl in *; try done.
  - intros [= <- <-]. exists []. rewrite !app_nil_r. by destruct Hp.
  - intros ([r st1] & Hb & H)%bind_ok. destruct Hp as [_ Hp].
    destruct (IH _ _ _ _ _ (Hp r (begin_begun _ _ _ _ _ _ _ _ _ Hb)) H) as (rs & Hrs & HQ).
    exists rs. by rewrite Hrs, <-(begin_records _ _ _ _ _ _ _ _ _ Hb).
  - intros H. eapply IH; [by apply Hp|exact H].
  - intros ([written st1] & Hf & H)%bind_ok. destruct Hp as (_ & _ & _ & _ & Hp & He). simpl in H.
    pose proof (finish_records _ _ _ _ _ _ _ _ _ Hf) as Hst1.
    destruct (finish_answers _ _ _ _ _ _ _ _ _ Hf) as [[r' ->]|[msg ->]].
    + destruct (IH _ _ _ _ _ (Hp r' (finish_finished _ _ _ _ _ _ _ _ _ Hf)) H) as (rs & Hrs & HQ).
      exists (r' :: rs). rewrite Hrs, Hst1, <-!(assoc_L (++)). split; [done|]. by rewrite <-(assoc_L (++)) in HQ.
    + destruct (IH _ _ _ _ _ (He msg) H) as (rs & Hrs & HQ). exists rs. by rewrite Hrs, Hst1, app_nil_r.
Qed.

Lemma run_records {A} n st (p : Prog A) Q a st' :
  records c bucket p Q → run_prog bucket server clock write n st p = ok (a, st') →
  ∃ rs, rs_records st' = rs_records st ++ rs ∧ Q rs a.
Proof using Hserver.
  intros Hp H. destruct (run_wp _ _ [] _ _ _ _ _ (Hp []) H) as (rs & Hrs & rs' & Hrs' & HQ).
  simpl in Hrs'. subst rs'. eauto.
Qed.

(** A recorder with counters left for one more operation. *)
Definition roomy (st : RecorderState) : Prop :=
  (rs_next_id st < u64_max)%N ∧ (rs_next_event_sequence st + 1 < u64_max)%N.

Lemma begin_roomy st kind key sha size now :
  roomy st → ∃ r st', begin st kind bucket key sha size now = ok (r, st') ∧
    (rs_next_event_sequence st' < u64_max)%N.
Proof using Type.
  intros [H1 H2]. unfold begin.
  assert (add_u64 (rs_next_id st) 1 = ok (rs_next_id st + 1)%N) as -> by (apply add_u64_ok; lia).
  assert (add_u64 (rs_next_event_sequence st) 1 = ok (rs_next_event_sequence st + 1)%N) as ->
    by (apply add_u64_ok; lia).
  eexists _, _. split; [reflexivity|]. simpl. lia.
Qed.
Context (Hwrite : ∀ r, write r = None).
Lemma finish_roomy st r o s e now :
  (rs_next_event_sequence st < u64_max)%N → ∃ r' st', finish st r o s e now write = ok (ok r', st').
Proof using Hwrite.
  clear Hserver. intros H. unfold finish.
  assert (add_u64 (rs_next_event_sequence st) 1 = ok (rs_next_event_sequence st + 1)%N) as ->
    by (apply add_u64_ok; lia).
  cbn. rewrite Hwrite. by eexists _, _.
Qed.

Ltac run_begin Hroom :=
  unfold get_object_result, get_object_version_result; cbn;
  let r := fresh "r" in let st1 := fresh "st1" in
  match goal with |- context [begin ?st ?kind _ ?key ?sha ?size ?now] =>
    destruct (begin_roomy st kind key sha size now Hroom) as (r & st1 & -> & ?)
  end; cbn.
Ltac run_finish :=
  cbn; match goal with |- context [finish ?st ?r ?o ?s ?e ?now _] =>
    let r' := fresh "r'" in let st' := fresh "st'" in
    destruct (finish_roomy st r o s e now) as (r' & st' & ->); [done|]
  end; cbn; by eexists _, _.

Lemma get_returns sha256_hex n st key version_id purpose :
  roomy st → ∃ g st', run_prog bucket server clock write n st
    (g ← get_object_result_inner sha256_hex key version_id purpose; mret (rg_result g)) = ok (g, st').
Proof using Hwrite.
  clear Hserver. intros Hroom. run_begin Hroom. destruct (server _ _ _) as [[]|e|]; cbn; [|run_finish..].
  destruct (server _ _ _) as [body|text|]; cbn; run_finish.
Qed.

(** The reply ends a listing: an error, or a page that is not followed. *)
Definition ends_listing (reply : Sent SdkError ListPage) : bool :=
  match reply with
  | Replied page => negb (default false (lp_is_truncated page)) || bool_decide (lp_next_token page = None)
  | _ => true
  end.
Definition ends_versions (reply : Sent SdkError ListVersionsPage) : bool :=
  match reply with
  | Replied page =>
      negb (default false (lvp_is_truncated page))
      || bool_decide (lvp_next_key_marker page = None)
         && bool_decide (lvp_next_version_id_marker page = None)
  | _ => true
  end.

Lemma list_returns n st pages prefix i :
  roomy st → i < pages → (∀ token, ends_listing (server _ (S n + i) (ListObjectsV2 prefix token)) = true) →
  ∃ keys st', run_prog bucket server clock write n st (list_prefix pages prefix) = ok (keys, st').
Proof using Hwrite.
  clear Hserver. intros Hroom Hi Hend. run_begin Hroom.
  generalize (@None string) (@nil string). revert n pages Hi Hend.
  induction i as [|i IH]; intros n [|pages] Hi Hend token keys; try lia; cbn.
  - specialize (Hend token). replace (S n + 0) with (S n) in Hend by lia.
    destruct (server _ _ _) as [page|e|]; cbn; [|run_finish..]. cbn in Hend.
    destruct (lp_is_truncated page) as [[]|]; cbn in *; [|run_finish..]. apply bool_decide_eq_true in Hend as ->. run_finish.
  - destruct (server _ _ _) as [page|e|]; cbn; [|run_finish..].
    destruct (lp_is_truncated page) as [[]|]; cbn in *; [|run_finish..]. destruct (lp_next_token page); [|run_finish].
    apply IH; [lia|]. intros token'. specialize (Hend token'). by rewrite <-Nat.add_succ_comm in Hend.
Qed.
Lemma list_versions_returns n st pages prefix i :
  roomy st → i < pages →
  (∀ key version, ends_versions (server _ (S n + i) (ListObjectVersions prefix key version)) = true) →
  ∃ entries st', run_prog bucket server clock write n st (list_object_versions pages prefix) = ok (entries, st').
Proof using Hwrite.
  clear Hserver. intros Hroom Hi Hend. run_begin Hroom. generalize (@None string) at 1.
  generalize (@None string) (@nil ObjectVersionEntry). revert n pages Hi Hend.
  induction i as [|i IH]; intros n [|pages] Hi Hend version entries key; try lia; cbn.
  - specialize (Hend key version). replace (S n + 0) with (S n) in Hend by lia.
    destruct (server _ _ _) as [page|e|]; cbn; [|run_finish..]. cbn in Hend.
    destruct (lvp_is_truncated page) as [[]|]; cbn in *; [|run_finish..].
    apply andb_true_iff in Hend as [H1%bool_decide_eq_true H2%bool_decide_eq_true]. rewrite H1, H2. run_finish.
  - assert (∀ k v, ends_versions (server _ (S (S n) + i) (ListObjectVersions prefix k v)) = true) as Hend'.
    { intros k v. specialize (Hend k v). by rewrite <-Nat.add_succ_comm in Hend. }
    destruct (server _ _ _) as [page|e|]; cbn; [|run_finish..].
    destruct (lvp_is_truncated page) as [[]|]; cbn in *; [|run_finish..].
    destruct (lvp_next_key_marker page), (lvp_next_version_id_marker page);
      try (apply IH; [lia|done]). run_finish.
Qed.
End run.

Lemma plain_get_records sha256_hex c bucket key version_id :
  records c bucket (g ← get_object_result_inner sha256_hex key version_id None; mret (rg_result g))
    (λ rs g, one (recorded_get sha256_hex key version_id None g) rs).
Proof.
  eapply records_bind; [apply get_records; by split; [left|]|].
  intros rs g' (r & -> & _ & Hr). apply records_ret. intros x [= <-]. by exists r.
Qed.

(** When its records can be written, a GET, a LIST that reaches its last page and a
    ListObjectVersions that does always return and leave exactly one record, which agrees with what the caller got:
    outcome, status, digest and size of the body, the listed keys or versions; Ok comes
    with a body and status 200, NotFound with 404. *)
Theorem reads_are_recorded sha256_hex c bucket server clock write n st :
  (∀ R n (request : Request R), reply_ok c request (server R n request)) → (∀ r, write r = None) → roomy st →
  (∀ key version_id, ∃ g st' r,
     run_prog bucket server clock write n st
       (g ← get_object_result_inner sha256_hex key version_id None; mret (rg_result g)) = ok (g, st') ∧
     rs_records st' = rs_records st ++ [r] ∧ recorded_get sha256_hex key version_id None g r) ∧
  (∀ prefix pages i, i < pages →
     (∀ token, ends_listing (server _ (S n + i) (ListObjectsV2 prefix token)) = true) →
     ∃ keys st' r, run_prog bucket server clock write n st (list_prefix pages prefix) = ok (keys, st') ∧
       rs_records st' = rs_records st ++ [r] ∧
       recorded_listing OperationKind.List prefix keys op_listed_keys r) ∧
  (∀ prefix pages i, i < pages →
     (∀ key version, ends_versions (server _ (S n + i) (ListObjectVersions prefix key version)) = true) →
     ∃ entries st' r,
       run_prog bucket server clock write n st (list_object_versions pages prefix) = ok (entries, st') ∧
       rs_records st' = rs_records st ++ [r] ∧
       recorded_listing OperationKind.ListVersions prefix (option_map (map listed_entry) entries)
         op_listed_versions r).
Proof.
  intros Hs Hwrite Hroom. split_and!.
  - intros key version_id. destruct (get_returns bucket server clock write Hwrite sha256_hex n st key version_id None Hroom)
      as (g & st' & Hrun). exists g, st'.
    destruct (run_records c bucket server clock write Hs n st _ _ _ _
      (plain_get_records sha256_hex c bucket key version_id) Hrun) as (rs & Hrs & r & -> & Hr). by exists r.
  - intros prefix pages i Hi Hend. destruct (list_returns bucket server clock write Hwrite n st pages prefix i Hroom Hi Hend)
      as (keys & st' & Hrun). exists keys, st'.
    destruct (run_records c bucket server clock write Hs n st _ _ _ _ (list_records c bucket pages prefix) Hrun)
      as (rs & Hrs & r & -> & Hr). by exists r.
  - intros prefix pages i Hi Hend.
    destruct (list_versions_returns bucket server clock write Hwrite n st pages prefix i Hroom Hi Hend)
      as (entries & st' & Hrun). exists entries, st'.
    destruct (run_records c bucket server clock write Hs n st _ _ _ _ (list_versions_records c bucket pages prefix) Hrun)
      as (rs & Hrs & r & -> & Hr). by exists r.
Qed.
