(* ===== verification/ReadFailure.v ===== *)
(** Evidence of a failed committed read ([src/fault/checker/read_failure.rs]
    and [read_failure_message], [is_recovery_tail_read_failure] of
    [src/fault/checker.rs]): structured records, and the text of older reports
    parsed back. *)
From S2P Require Import Prelude Ordering RustText History.
From stdpp Require Import options.

Inductive CommittedReadFailure :=
| Observed (key : string) (outcome : OperationOutcome.t) (http_status : option N)
    (error : option string) (unexpected_body_bytes : option N)
| Legacy (message : string).
Global Instance CommittedReadFailure_eq_dec : EqDecision CommittedReadFailure.
Proof. solve_decision. Defined.

Record ReadFailureEvidence := mkReadFailureEvidence {
  rfe_key : string;
  rfe_outcome : OperationOutcome.t;
  rfe_http_status : option N;
  rfe_error : option string;
}.

Definition READ_FAILURE_MARKER : string := ": outcome=".
Definition UNEXPECTED_BODY_MARKER : string := ": unexpected body for ".

Definition parse_outcome (s : string) : option OperationOutcome.t :=
  if decide (s = "Ok") then Some OperationOutcome.Ok
  else if decide (s = "NotFound") then Some OperationOutcome.NotFound
  else if decide (s = "Failed") then Some OperationOutcome.Failed
  else if decide (s = "Timeout") then Some OperationOutcome.Timeout
  else if decide (s = "Unknown") then Some OperationOutcome.Unknown
  else None.

(** [s.split_once(' ').map_or((s, ""), _)]. *)
Definition split_field (s : string) : string * string := default (s, "") (split_once " " s).

Definition parse_status (remaining : string) : option (option N * string) :=
  match strip_prefix "status=" remaining with
  | Some status_and_remaining =>
      let '(status, rest) := split_field status_and_remaining in
      n ← parse_u16 status; Some (Some n, rest)
  | None => Some (None, remaining)
  end.

Definition parse_error (remaining : string) : option (option string) :=
  if decide (remaining = "") then Some None else
  error ← strip_prefix "error=" remaining;
  Some (if decide (error = "") then None else Some error).

Definition parse_legacy_read_failure (message : string) : option ReadFailureEvidence :=
  if negb (bool_decide (match_count READ_FAILURE_MARKER message = 1))
     || contains UNEXPECTED_BODY_MARKER message then None else
  '(key, fields) ← split_once READ_FAILURE_MARKER message;
  if decide (key = "") then None else
  let '(outcome, remaining) := split_field fields in
  outcome ← parse_outcome outcome;
  '(http_status, remaining) ← parse_status remaining;
  error ← parse_error remaining;
  Some (mkReadFailureEvidence key outcome http_status error).

Definition legacy_read_failure_key (message : string) : option string :=
  match parse_legacy_read_failure message with
  | Some parsed => Some (rfe_key parsed)
  | None =>
      if negb (bool_decide (match_count UNEXPECTED_BODY_MARKER message = 1))
         || contains READ_FAILURE_MARKER message then None else
      '(key, detail) ← split_once UNEXPECTED_BODY_MARKER message;
      if bool_decide (key ≠ "")
         && existsb (λ outcome, starts_with outcome detail)
              ["Ok"; "NotFound"; "Failed"; "Timeout"; "Unknown"]
         && ends_with " bytes)" detail
      then Some key else None
  end.

(** [CommittedReadFailure::key]. *)
Definition failure_key (f : CommittedReadFailure) : option string :=
  match f with
  | Observed key _ _ _ _ => if decide (key = "") then None else Some key
  | Legacy message => legacy_read_failure_key message
  end.

(** [CommittedReadFailure::evidence]. *)
Definition failure_evidence (f : CommittedReadFailure) : option ReadFailureEvidence :=
  match f with
  | Observed key outcome http_status error None =>
      if decide (key = "") then None
      else Some (mkReadFailureEvidence key outcome http_status error)
  | Observed _ _ _ _ (Some _) => None
  | Legacy message => parse_legacy_read_failure message
  end.

(** The fields after the marker. *)
Definition failure_fields (outcome : OperationOutcome.t) (http_status : option N)
    (error : option string) : string :=
  OperationOutcome.debug outcome
  +:+ from_option (λ status, " status=" +:+ dec status) "" http_status
  +:+ from_option (λ error, " error=" +:+ str_debug error) "" error.
Definition read_failure_message (key : string) (outcome : OperationOutcome.t)
    (http_status : option N) (error : option string) : string :=
  key +:+ READ_FAILURE_MARKER +:+ failure_fields outcome http_status error.

Definition is_recovery_tail_read_failure (outcome : OperationOutcome.t)
    (http_status : option N) (error : option string) : bool :=
  match outcome with
  | OperationOutcome.Timeout | OperationOutcome.Unknown =>
      match error with
      | None => false
      | Some error =>
          let error := to_ascii_lowercase error in
          match http_status with
          | Some 200%N =>
              contains "body read timed out" error || contains "body read timeout" error
              || contains "streaming error" error
          | Some _ => false
          | None => contains "get object timed out" error || contains "request timed out" error
          end
      end
  | _ => false
  end.

(** ** The legacy text round trip *)
Lemma match_count_skip pat a b :
  match_count_go pat (a +:+ b) (String.length a) = match_count pat b.
Proof.
  unfold match_count. induction a as [|c a IH]; [by destruct b|]. exact IH.
Qed.

Lemma match_count_first pat a b :
  pat ≠ "" → (∀ c a', a = c +:+ a' → a' ≠ "" → starts_with pat (a' +:+ pat +:+ b) = false) →
  match_count pat (a +:+ pat +:+ b) = S (match_count pat b).
Proof.
  intros Hp. unfold match_count at 1. induction a as [|c a IH]; intros H.
  - rewrite append_nil_l. destruct pat as [|p pat]; [done|].
    assert (starts_with (String p pat) (String p pat +:+ b) = true) as Hs
      by (apply starts_with_spec; eauto).
    rewrite append_cons in *. simpl. rewrite Hs. f_equal. simpl. rewrite Nat.sub_0_r.
    apply match_count_skip.
  - pose proof (H "" (String c a) eq_refl ltac:(done)) as H0. rewrite append_cons in H0 |- *.
    cbn [match_count_go]. rewrite H0. apply IH. intros c' a' -> Hne. by apply (H (String c c')).
Qed.

Lemma match_count_zero pat s : contains pat s = false → match_count pat s = 0.
Proof.
  unfold match_count. induction s as [|c s IH]; simpl; [done|].
  intros [-> H]%orb_false_iff. auto.
Qed.

(** No occurrence of a text that begins with [c] begins inside a text without [c]. *)
Lemma no_early_match c pat a rest :
  contains (String c "") a = false →
  ∀ b a', a = b +:+ a' → a' ≠ "" → starts_with (String c pat) (a' +:+ rest) = false.
Proof.
  intros Hc b a' -> Hne. destruct a' as [|d a']; [done|]. apply not_true_is_false.
  intros [r Hr]%starts_with_spec. rewrite !append_cons in Hr. injection Hr as -> _.
  apply not_true_iff_false in Hc. apply Hc. apply contains_spec.
  exists b, a'. by rewrite append_cons, append_nil_l.
Qed.

Lemma split_field_app a b :
  contains " " a = false → split_field (a +:+ " " +:+ b) = (a, b).
Proof.
  intros Ha. unfold split_field. rewrite split_once_first; [done|].
  intros c a' Heq Hne. by eapply no_early_match.
Qed.
Lemma split_field_end a : contains " " a = false → split_field a = (a, "").
Proof.
  intros Ha. unfold split_field. destruct (split_once " " a) eqn:E; [|done].
  assert (is_Some (split_once " " a)) as H%split_once_Some by (by rewrite E). congruence.
Qed.

Lemma digits_no_space acc s n : digits_value acc s = Some n → contains " " s = false.
Proof.
  revert acc. induction s as [|c s IH]; intros acc; simpl; [done|].
  intros (d & Hd & H)%bind_Some. apply orb_false_iff. split; [|by eapply IH].
  apply not_true_is_false. intros [r Hr]%starts_with_spec.
  rewrite append_cons, append_nil_l in Hr. by injection Hr as -> _.
Qed.

Lemma dec_not_empty n : dec n ≠ "".
Proof.
  intros H. pose proof (digits_value_dec n) as Hd. rewrite H in Hd. injection Hd as <-.
  by vm_compute in H.
Qed.

Lemma parse_u16_dec n : (n < 2 ^ 16)%N → parse_u16 (dec n) = Some n.
Proof.
  intros Hn. pose proof (digits_value_dec n) as Hd. pose proof (dec_not_empty n) as He.
  unfold parse_u16. destruct (dec n) as [|c s] eqn:E; [done|].
  assert (match String c s with String "+" s' => s' | _ => String c s end%char = String c s) as ->.
  { destruct (decide (c = "+"%char)) as [->|Hc]; [by simpl in Hd|].
    by destruct c as [[][][][][][][][]]. }
  rewrite Hd. simpl. by rewrite decide_True.
Qed.

Lemma outcome_no_space o : contains " " (OperationOutcome.debug o) = false.
Proof. by destruct o. Qed.
Lemma parse_outcome_debug o : parse_outcome (OperationOutcome.debug o) = Some o.
Proof. by destruct o. Qed.

Lemma parse_error_debug e : parse_error ("error=" +:+ str_debug e) = Some (Some (str_debug e)).
Proof.
  unfold parse_error. rewrite decide_False by done. rewrite strip_prefix_app. done.
Qed.

Lemma parse_fields outcome status error :
  match status with Some n => (n < 2 ^ 16)%N | None => True end →
  let '(o, remaining) := split_field (failure_fields outcome status error) in
  o = OperationOutcome.debug outcome ∧
  ∃ rest, parse_status remaining = Some (status, rest) ∧
    parse_error rest = Some (str_debug <$> error).
Proof.
  intros Hs. unfold failure_fields.
  pose proof (outcome_no_space outcome) as Ho.
  destruct status as [n|], error as [e|]; simpl from_option.
  - change (" status=" +:+ dec n) with (" " +:+ "status=" +:+ dec n).
    change (" error=" +:+ str_debug e) with (" " +:+ "error=" +:+ str_debug e).
    rewrite !append_assoc, split_field_app by done. split; [done|]. unfold parse_status.
    rewrite strip_prefix_app, split_field_app by (eapply digits_no_space, digits_value_dec).
    rewrite parse_u16_dec by done. eexists. split; [done|]. apply parse_error_debug.
  - change (" status=" +:+ dec n) with (" " +:+ "status=" +:+ dec n).
    rewrite append_nil_r, split_field_app by done. split; [done|]. unfold parse_status.
    rewrite strip_prefix_app, split_field_end by (eapply digits_no_space, digits_value_dec).
    rewrite parse_u16_dec by done. by eexists.
  - change (" error=" +:+ str_debug e) with (" " +:+ "error=" +:+ str_debug e).
    rewrite append_nil_l, split_field_app by done. split; [done|].
    eexists. split; [done|]. apply parse_error_debug.
  - rewrite !append_nil_r, split_field_end by done. split; [done|]. by eexists.
Qed.

(** The text of a read failure parses back to the key, outcome, status and quoted
    error it was built from, when the key and the fields contain no marker of their own.
    *)
Theorem legacy_read_failure_roundtrip key outcome status error :
  key ≠ "" → contains ":" key = false →
  match status with Some n => (n < 2 ^ 16)%N | None => True end →
  contains READ_FAILURE_MARKER (failure_fields outcome status error) = false →
  contains UNEXPECTED_BODY_MARKER (read_failure_message key outcome status error) = false →
  failure_evidence (Legacy (read_failure_message key outcome status error))
  = Some (mkReadFailureEvidence key outcome status (str_debug <$> error)).
Proof.
  intros Hne Hkey Hs Hf Hu. simpl. unfold parse_legacy_read_failure. rewrite Hu.
  unfold read_failure_message.
  assert (∀ c a', key = c +:+ a' → a' ≠ "" → starts_with READ_FAILURE_MARKER
    (a' +:+ READ_FAILURE_MARKER +:+ failure_fields outcome status error) = false) as Hfirst
    by (by apply no_early_match).
  rewrite match_count_first, match_count_zero by done. simpl.
  rewrite split_once_first by done. simpl. rewrite decide_False by done.
  pose proof (parse_fields outcome status error Hs) as Hp.
  destruct (split_field (failure_fields outcome status error)) as [o remaining].
  destruct Hp as (-> & rest & Hst & Herr).
  rewrite parse_outcome_debug. simpl. rewrite Hst. simpl. by rewrite Herr.
Qed.
