(* ===== verification/Report.v ===== *)
(** The checker's report and its audit ([src/fault/checker.rs]): the fields the
    final checks fill, and the predicate a run must satisfy. *)
From S2P Require Import Prelude Ordering RustText History Workload ObjectModel Attempts.
From S2P Require Import ListHistory Lineage ReadFailure.
From stdpp Require Import options.

(** ** Audit *)
Record CheckerOperationAudit := mkCheckerOperationAudit {
  coa_operation_id : string;
  coa_kind : OperationKind.t;
  coa_key : option string;
  coa_version_id : option string;
  coa_request_version_id : option string;
  coa_is_delete_marker : option bool;
  coa_observed_sha256 : option string;
  coa_size_bytes : option N;
  coa_listed_keys : option (list string);
  coa_listed_versions : option (list ListedVersionEntry);
  coa_started_sequence : option N;
  coa_ended_sequence : option N;
  coa_outcome : OperationOutcome.t;
  coa_http_status : option N;
  coa_error : option string;
}.
Record CheckerDataVersionAudit := mkCheckerDataVersionAudit {
  cda_key : string;
  cda_version_id : string;
  cda_expected_sha256 : string;
  cda_observed_sha256 : option string;
  cda_outcome : OperationOutcome.t;
  cda_http_status : option N;
}.
Record CheckerDeleteMarkerAudit := mkCheckerDeleteMarkerAudit {
  cdma_key : string;
  cdma_version_id : string;
  cdma_visible : bool;
}.
Record CheckerAudit := mkCheckerAudit {
  ca_bucket : string;
  ca_started_at_ms : N;
  ca_completed_at_ms : N;
  ca_history_prefix_record_count : N;
  ca_history_prefix_sha256 : string;
  ca_history_suffix_record_count : N;
  ca_history_suffix_sha256 : string;
  ca_suffix_operations : list CheckerOperationAudit;
  ca_data_version_checks : list CheckerDataVersionAudit;
  ca_delete_marker_checks : list CheckerDeleteMarkerAudit;
  ca_list_object_versions_completed : option bool;
}.

(** ** Report *)
Record CheckerReport := mkCheckerReport {
  cr_scenario : string;
  cr_run_id : string;
  cr_committed_puts : N;
  cr_expected_live_objects : N;
  cr_verified_live_objects : N;
  cr_missing_committed_objects : list string;
  cr_unavailable_committed_objects : list CommittedReadFailure;
  cr_unknown_committed_read_failures : list CommittedReadFailure;
  cr_hash_mismatches : list string;
  cr_successful_corrupted_reads : list string;
  cr_unexpected_visible_deleted_objects : list string;
  cr_unknown_writes_materialized : list string;
  cr_unknown_writes_preserved_committed : list string;
  cr_unknown_write_value_conflicts : list string;
  cr_list_history_warning_count : N;
  cr_final_list_warning_count : N;
  cr_list_history_warnings : list string;
  cr_list_warnings : list string;
  cr_final_listed_objects : option N;
  cr_versioning_expected : bool;
  cr_expected_committed_versions : N;
  cr_verified_committed_versions : N;
  cr_committed_writes_missing_version_id_count : N;
  cr_committed_writes_missing_version_id : list string;
  cr_missing_committed_versions : list string;
  cr_unavailable_committed_versions : list string;
  cr_version_hash_mismatches : list string;
  cr_missing_committed_delete_markers : list string;
  cr_resurrected_deleted_objects : list string;
  cr_listed_keys_unreadable : list string;
  cr_unexpected_listed_objects : list string;
  cr_failed_writes_materialized : list string;
  cr_delete_marker_lineage_incomplete : list string;
  cr_multipart_upload_lineage_incomplete : list string;
  cr_tolerated_ambiguous_deletes : list string;
  cr_operation_cohorts : gmap string N;
  cr_fault_window_relations : gmap string N;
  cr_audit : option CheckerAudit;
  cr_tenant_recovered : bool;
  cr_passed : bool;
}.
Global Instance CheckerReport_eta : Eta CheckerReport := λ r,
  mkCheckerReport (cr_scenario r) (cr_run_id r) (cr_committed_puts r)
    (cr_expected_live_objects r) (cr_verified_live_objects r) (cr_missing_committed_objects r)
    (cr_unavailable_committed_objects r) (cr_unknown_committed_read_failures r)
    (cr_hash_mismatches r) (cr_successful_corrupted_reads r)
    (cr_unexpected_visible_deleted_objects r) (cr_unknown_writes_materialized r)
    (cr_unknown_writes_preserved_committed r) (cr_unknown_write_value_conflicts r)
    (cr_list_history_warning_count r) (cr_final_list_warning_count r)
    (cr_list_history_warnings r) (cr_list_warnings r) (cr_final_listed_objects r)
    (cr_versioning_expected r) (cr_expected_committed_versions r)
    (cr_verified_committed_versions r) (cr_committed_writes_missing_version_id_count r)
    (cr_committed_writes_missing_version_id r) (cr_missing_committed_versions r)
    (cr_unavailable_committed_versions r) (cr_version_hash_mismatches r)
    (cr_missing_committed_delete_markers r) (cr_resurrected_deleted_objects r)
    (cr_listed_keys_unreadable r) (cr_unexpected_listed_objects r)
    (cr_failed_writes_materialized r) (cr_delete_marker_lineage_incomplete r)
    (cr_multipart_upload_lineage_incomplete r) (cr_tolerated_ambiguous_deletes r)
    (cr_operation_cohorts r) (cr_fault_window_relations r) (cr_audit r)
    (cr_tenant_recovered r) (cr_passed r).

Definition is_empty {A} (l : list A) : bool := match l with [] => true | _ => false end.
Lemma is_empty_true {A} (l : list A) : is_empty l = true ↔ l = [].
Proof. by destruct l. Qed.

(** ** The proof of tolerated deletes in the audit *)
Record ToleratedScan := mkToleratedScan {
  ts_current_gets : gmap string (OperationOutcome.t * option N);
  ts_final_listed_keys : option (gset string);
  ts_latest_versions : gmap string (N * bool * option string);
  ts_list_operations : N;
  ts_version_list_operations : N;
  ts_duplicate_current_get : bool;
}.
Global Instance ToleratedScan_eta : Eta ToleratedScan := λ s,
  mkToleratedScan (ts_current_gets s) (ts_final_listed_keys s) (ts_latest_versions s)
    (ts_list_operations s) (ts_version_list_operations s) (ts_duplicate_current_get s).
Definition empty_scan : ToleratedScan := mkToleratedScan ∅ None ∅ 0 0 false.

Definition count_latest (m : gmap string (N * bool * option string)) (v : ListedVersionEntry)
    : gmap string (N * bool * option string) :=
  if lve_is_latest v then
    let count := match m !! lve_key v with Some (n, _, _) => n | None => 0%N end in
    <[lve_key v := ((count + 1)%N, lve_is_delete_marker v, lve_version_id v)]> m
  else m.

Definition tolerated_scan_step (prefix : string) (s : ToleratedScan) (op : CheckerOperationAudit)
    : ToleratedScan :=
  let complete := bool_decide (coa_outcome op = OperationOutcome.Ok)
                  && bool_decide (coa_http_status op = Some 200%N) in
  match coa_kind op with
  | OperationKind.Get =>
      match coa_version_id op, coa_key op with
      | None, Some key =>
          let duplicate := bool_decide (is_Some (ts_current_gets s !! key)) in
          s <| ts_current_gets ::= <[key := (coa_outcome op, coa_http_status op)]> |>
            <| ts_duplicate_current_get ::= λ d, d || duplicate |>
      | _, _ => s
      end
  | OperationKind.List =>
      if bool_decide (coa_key op = Some prefix) then
        let s := s <| ts_list_operations ::= N.succ |> in
        match coa_listed_keys op with
        | Some keys =>
            if complete then s <| ts_final_listed_keys := Some (to_set keys) |> else s
        | None => s
        end
      else s
  | OperationKind.ListVersions =>
      if bool_decide (coa_key op = Some prefix) then
        let s := s <| ts_version_list_operations ::= N.succ |> in
        match coa_listed_versions op with
        | Some versions =>
            if complete then s <| ts_latest_versions ::= λ m, foldl count_latest m versions |>
            else s
        | None => s
        end
      else s
  | _ => s
  end.

Definition audit_marker_identities (audit : CheckerAudit) : list (string * string) :=
  (λ m, (cdma_key m, cdma_version_id m)) <$> ca_delete_marker_checks audit.

Definition tolerated_key_proved (versioning : bool) (markers : list (string * string))
    (s : ToleratedScan) (listed : gset string) (key : string) : bool :=
  bool_decide (ts_current_gets s !! key = Some (OperationOutcome.NotFound, Some 404%N))
  && bool_decide (key ∉ listed)
  && (negb versioning ||
      match ts_latest_versions s !! key with
      | Some (count, is_delete_marker, version_id) =>
          bool_decide (count = 1%N)
          && novel_ambiguous_delete_marker key is_delete_marker version_id markers
      | None => false
      end).

Definition tolerated_ambiguous_deletes_have_audit_proof (r : CheckerReport) : bool :=
  if is_empty (cr_tolerated_ambiguous_deletes r) then true else
  match cr_audit r with
  | None => false
  | Some audit =>
      let prefix := key_prefix (cr_run_id r) in
      let s := foldl (tolerated_scan_step prefix) empty_scan (ca_suffix_operations audit) in
      if ts_duplicate_current_get s || negb (bool_decide (ts_list_operations s = 1%N)) then false
      else
        match ts_final_listed_keys s with
        | None => false
        | Some listed =>
            if cr_versioning_expected r
               && negb (bool_decide (ts_version_list_operations s = 1%N)) then false
            else
              forallb (tolerated_key_proved (cr_versioning_expected r)
                         (audit_marker_identities audit) s listed)
                (cr_tolerated_ambiguous_deletes r)
        end
  end.

(** ** Success *)
Definition success_predicate (r : CheckerReport) : bool :=
  let tolerated := to_set (cr_tolerated_ambiguous_deletes r) in
  cr_tenant_recovered r
  && bool_decide (size tolerated = length (cr_tolerated_ambiguous_deletes r))
  && bool_decide (checked_add64 (cr_verified_live_objects r) (N.of_nat (size tolerated))
                  = Some (cr_expected_live_objects r))
  && tolerated_ambiguous_deletes_have_audit_proof r
  && is_empty (cr_missing_committed_objects r)
  && is_empty (cr_unavailable_committed_objects r)
  && is_empty (cr_unknown_committed_read_failures r)
  && is_empty (cr_hash_mismatches r)
  && is_empty (cr_successful_corrupted_reads r)
  && is_empty (cr_unexpected_visible_deleted_objects r)
  && is_empty (cr_unknown_write_value_conflicts r)
  && bool_decide (cr_final_list_warning_count r = 0%N)
  && is_empty (cr_list_warnings r)
  && bool_decide (cr_committed_writes_missing_version_id_count r = 0%N)
  && is_empty (cr_committed_writes_missing_version_id r)
  && bool_decide (cr_expected_committed_versions r = cr_verified_committed_versions r)
  && is_empty (cr_missing_committed_versions r)
  && is_empty (cr_unavailable_committed_versions r)
  && is_empty (cr_version_hash_mismatches r)
  && is_empty (cr_missing_committed_delete_markers r)
  && is_empty (cr_resurrected_deleted_objects r)
  && is_empty (cr_listed_keys_unreadable r)
  && is_empty (cr_unexpected_listed_objects r)
  && is_empty (cr_delete_marker_lineage_incomplete r)
  && is_empty (cr_multipart_upload_lineage_incomplete r).

(** [CheckerReport::require_success]; the report's JSON is only rendered for
    the error. *)
Definition require_success (to_string_pretty : CheckerReport → Result string) (r : CheckerReport)
    : Result unit :=
  if cr_passed r && success_predicate r then ok tt else
  text ← to_string_pretty r;
  err ("fault checker failed for scenario " +:+ cr_scenario r +:+ " run " +:+ cr_run_id r
       +:+ ": " +:+ text).

Definition checker_operation_audits (records : list OperationRecord)
    : list CheckerOperationAudit :=
  (λ r, mkCheckerOperationAudit (op_id r) (op_kind r) (op_key r) (op_version_id r)
          (op_request_version_id r) (op_is_delete_marker r) (op_value_sha256 r)
          (op_size_bytes r) (op_listed_keys r) (op_listed_versions r)
          (op_started_sequence r) (op_ended_sequence r) (op_outcome r) (op_http_status r)
          (op_error r)) <$> records.
