(* ===== verification/Evaluate.v ===== *)
(** The evaluation of the checker's final reads and listings into its report
    ([src/fault/checker.rs]). *)
From S2P Require Import Prelude Ordering RustText History ObjectModel Attempts.
From S2P Require Import ListHistory Lineage ReadFailure Report.
From stdpp Require Import options.

(** ** Counts of the history *)
Definition count_names (names : list string) : gmap string N :=
  foldl (λ counts name, <[name := (default 0 (counts !! name) + 1)%N]> counts) ∅ names.
Definition operation_cohort_counts (records : list OperationRecord) : gmap string N :=
  count_names (DurabilityCohort.as_str <$> omap op_durability_cohort records).
Definition fault_window_relation_counts (records : list OperationRecord) : gmap string N :=
  count_names (FaultWindowRelation.as_str <$> omap op_fault_window_relation records).

Section evaluate.
Context (sha256_hex : list N → string).

(** ** Current objects *)
Definition record_preserved_committed (r : CheckerReport) (key : string)
    (expected : option ExpectedObject) (attempts : list AmbiguousWriteAttempt) (body : list N)
    : CheckerReport :=
  match expected with
  | None => r
  | Some expected =>
      if is_empty attempts then r else
      if negb (bool_decide (sha256_hex body = eo_sha256 expected))
         || negb (bool_decide (len body = eo_size_bytes expected)) then
        r <| cr_unknown_write_value_conflicts ::= λ l,
               l ++ [unknown_write_value_conflict_message sha256_hex key (Some expected)
                       attempts body] |>
      else if existsb (λ a, negb (bool_decide (aw_object a = expected))) attempts then
        r <| cr_unknown_writes_preserved_committed ::= λ l,
               l ++ [key +:+ ": observed committed " +:+ eo_sha256 expected +:+ " ("
                     +:+ dec (eo_size_bytes expected) +:+ " bytes) after ambiguous attempts ["
                     +:+ ambiguous_write_attempt_summary attempts +:+ "]"] |>
      else r
  end.

(** The arm of a body returned with outcome [Ok]. *)
Definition evaluate_final_body (r : CheckerReport) (key : string)
    (expected : option ExpectedObject) (ambiguous_writes : list AmbiguousWriteAttempt)
    (body : list N) : CheckerReport :=
  if from_option (λ e, object_matches sha256_hex e body) false expected then
    record_preserved_committed (r <| cr_verified_live_objects ::= N.succ |>) key expected
      ambiguous_writes body
  else
    match matching_active_ambiguous_write sha256_hex ambiguous_writes body with
    | Some attempt =>
        let r := if bool_decide (is_Some expected)
                 then r <| cr_verified_live_objects ::= N.succ |> else r in
        r <| cr_unknown_writes_materialized ::= λ l,
               l ++ [ambiguous_write_materialized_message sha256_hex key attempt body] |>
    | None =>
        match matching_superseded_ambiguous_write sha256_hex ambiguous_writes body with
        | Some attempt =>
            r <| cr_unknown_writes_materialized ::= λ l,
                   l ++ [ambiguous_write_materialized_message sha256_hex key attempt body] |>
              <| cr_unknown_write_value_conflicts ::= λ l,
                   l ++ [superseded_ambiguous_write_conflict_message sha256_hex key expected
                           attempt body] |>
        | None =>
            if negb (is_empty ambiguous_writes) then
              r <| cr_unknown_write_value_conflicts ::= λ l,
                     l ++ [unknown_write_value_conflict_message sha256_hex key expected
                             ambiguous_writes body] |>
            else
              match expected with
              | Some expected =>
                  r <| cr_hash_mismatches ::= λ l,
                         l ++ [hash_mismatch_message sha256_hex key expected body] |>
              | None => r
              end
        end
    end.

Definition evaluate_final_get (r : CheckerReport) (key : string)
    (expected : option ExpectedObject) (ambiguous_writes : list AmbiguousWriteAttempt)
    (get : GetObjectResult) : CheckerReport :=
  let failure body_len :=
    Observed key (get_outcome get) (get_http_status get) (get_error get) body_len in
  match get_outcome get, get_body get with
  | OperationOutcome.Ok, Some body => evaluate_final_body r key expected ambiguous_writes body
  | outcome, body =>
      match expected with
      | None => r
      | Some _ =>
          match outcome, body with
          | OperationOutcome.NotFound, None =>
              r <| cr_missing_committed_objects ::= λ l, l ++ [key] |>
          | (OperationOutcome.Failed | OperationOutcome.Timeout), None =>
              r <| cr_unavailable_committed_objects ::= λ l, l ++ [failure None] |>
          | (OperationOutcome.Unknown | OperationOutcome.Ok), None =>
              r <| cr_unknown_committed_read_failures ::= λ l, l ++ [failure None] |>
          | _, Some body =>
              r <| cr_unknown_committed_read_failures ::= λ l, l ++ [failure (Some (len body))] |>
          end
      end
  end.

Definition evaluate_deleted_reread (key : string) (get : GetObjectResult) : option string :=
  match get_outcome get, get_body get with
  | OperationOutcome.Ok, Some body =>
      Some (key +:+ ": committed delete resurrected on GET (" +:+ dec (len body) +:+ " bytes)")
  | _, _ => None
  end.

(** ** Committed versions *)
Definition evaluate_committed_version_get (r : CheckerReport) (version : CommittedVersion)
    (get : GetObjectResult) : CheckerReport :=
  let reference := version_reference version in
  match get_outcome get, get_body get with
  | OperationOutcome.Ok, Some body =>
      if negb (bool_decide (sha256_hex body = cv_sha256 version))
         || negb (bool_decide (len body = cv_size_bytes version)) then
        r <| cr_version_hash_mismatches ::= λ l,
               l ++ [reference +:+ ": expected " +:+ cv_sha256 version +:+ " ("
                     +:+ dec (cv_size_bytes version) +:+ " bytes), got " +:+ sha256_hex body
                     +:+ " (" +:+ dec (len body) +:+ " bytes)"] |>
      else r <| cr_verified_committed_versions ::= N.succ |>
  | OperationOutcome.NotFound, None =>
      let r := r <| cr_missing_committed_versions ::= λ l, l ++ [reference] |> in
      if bool_decide (cv_kind version = OperationKind.CompleteMultipartUpload) then
        r <| cr_multipart_upload_lineage_incomplete ::= λ l,
               l ++ [reference +:+ ": committed multipart completion version is missing"] |>
      else r
  | outcome, body =>
      let error :=
        match get_error get with
        | Some error => Some error
        | None => match body with Some _ => Some "unexpected body" | None => None end
        end in
      r <| cr_unavailable_committed_versions ::= λ l,
             l ++ [read_failure_message reference outcome (get_http_status get) error] |>
  end.

Definition checker_data_version_audit (version : CommittedVersion) (get : GetObjectResult)
    : CheckerDataVersionAudit :=
  mkCheckerDataVersionAudit (cv_key version) (cv_version_id version) (cv_sha256 version)
    (sha256_hex <$> get_body get) (get_outcome get) (get_http_status get).

(** ** Listed keys no write explains *)
Definition evaluate_unexplained_listed_key (r : CheckerReport) (m : ObjectModel) (key : string)
    (get : GetObjectResult) : CheckerReport :=
  match get_outcome get, get_body get with
  | OperationOutcome.Ok, Some body =>
      let observed := sha256_hex body in
      match om_failed_writes m !! key with
      | Some attempted =>
          if bool_decide (observed ∈ attempted)
          then r <| cr_failed_writes_materialized ::= λ l, l ++ [key] |>
          else r <| cr_unexpected_listed_objects ::= λ l,
                      l ++ [key +:+ ": readable bytes sha256=" +:+ observed +:+ " size="
                            +:+ dec (len body) +:+ " match no failed write attempt "
                            +:+ set_debug (set_elems attempted)] |>
      | None => r <| cr_unexpected_listed_objects ::= λ l, l ++ [key] |>
      end
  | outcome, _ =>
      r <| cr_listed_keys_unreadable ::= λ l,
             l ++ [key +:+ ": " +:+ OperationOutcome.debug outcome
                   +:+ from_option (λ status, " http_status=" +:+ dec status) ""
                         (get_http_status get)] |>
  end.
End evaluate.

Definition checker_delete_marker_audits (committed : list CommittedDeleteMarker)
    (entries : option (list ObjectVersionEntry)) : list CheckerDeleteMarkerAudit :=
  let visible := listed_identities true (default [] entries) in
  (λ m, mkCheckerDeleteMarkerAudit (cdm_key m) (cdm_version_id m)
          (bool_decide ((cdm_key m, cdm_version_id m) ∈ visible))) <$> committed.

(** ** Latest versions *)
Definition committed_identities (markers : list CommittedDeleteMarker) : list (string * string) :=
  (λ m, (cdm_key m, cdm_version_id m)) <$> markers.
Definition active_identities (materialized : list MaterializedAmbiguousVersion)
    : gset (string * string) :=
  to_set ((λ v, (mav_key v, mav_version_id v)) <$> filter (λ v, mav_active v = true) materialized).
Definition is_active_ambiguous (active : gset (string * string)) (key : string)
    (entry : ObjectVersionEntry) : bool :=
  negb (ove_is_delete_marker entry)
  && from_option (λ version_id, bool_decide ((key, version_id) ∈ active)) false
       (ove_version_id entry).
Definition same_version (actual : ObjectVersionEntry) (expected : ListedVersionEntry) : bool :=
  bool_decide (ove_version_id actual = lve_version_id expected)
  && Bool.eqb (ove_is_delete_marker actual) (lve_is_delete_marker expected).

(** The message a key of [expected] deserves, if any. *)
Definition expected_latest_issue (m : ObjectModel) (actual : gmap string ObjectVersionEntry)
    (active : gset (string * string)) (committed : list (string * string))
    (e : string * ListedVersionEntry) : option string :=
  let '(key, expected_entry) := e in
  if bool_decide (key ∈ om_ambiguous_delete_lineage_pending m) then
    match actual !! key with
    | Some entry =>
        if same_version entry expected_entry || is_active_ambiguous active key entry
           || novel_ambiguous_delete_marker key (ove_is_delete_marker entry)
                (ove_version_id entry) committed
        then None
        else Some (key +:+ ": latest version " +:+ option_debug str_debug (ove_version_id entry)
                   +:+ " does not match its committed, ambiguous write, or ambiguous DELETE lineage")
    | None =>
        Some (key +:+ ": ListObjectVersions has no unique latest entry after an ambiguous DELETE")
    end
  else
    match actual !! key with
    | Some entry =>
        if same_version entry expected_entry || is_active_ambiguous active key entry then None
        else Some (key +:+ ": latest version " +:+ option_debug str_debug (ove_version_id entry)
                   +:+ " deleteMarker=" +:+ bool_display (ove_is_delete_marker entry)
                   +:+ " does not match expected "
                   +:+ option_debug str_debug (lve_version_id expected_entry)
                   +:+ " deleteMarker=" +:+ bool_display (lve_is_delete_marker expected_entry))
    | None => Some (key +:+ ": ListObjectVersions has no unique latest entry")
    end.

Definition unexpected_latest_issue (m : ObjectModel) (expected : gmap string ListedVersionEntry)
    (active : gset (string * string)) (e : string * ObjectVersionEntry) : option string :=
  let '(key, entry) := e in
  if bool_decide (expected !! key = None)
     && bool_decide (key ∉ om_ambiguous_delete_lineage_pending m)
     && negb (is_active_ambiguous active key entry)
  then Some (key +:+ ": ListObjectVersions returned an unexpected latest entry")
  else None.

Definition evaluate_latest_version_lineage (r : CheckerReport) (m : ObjectModel)
    (expected : gmap string ListedVersionEntry) (actual : gmap string ObjectVersionEntry)
    (materialized : list MaterializedAmbiguousVersion)
    (committed_delete_markers : list CommittedDeleteMarker) : CheckerReport :=
  let active := active_identities materialized in
  let committed := committed_identities committed_delete_markers in
  r <| cr_delete_marker_lineage_incomplete ::= λ l,
         l ++ omap (expected_latest_issue m actual active committed) (map_entries expected)
           ++ omap (unexpected_latest_issue m expected active) (map_entries actual) |>.

(** ** Ambiguous deletes *)
Record AmbiguousDeleteFinalObservations := mkAmbiguousDeleteFinalObservations {
  ado_absent_on_get : gset string;
  ado_present_on_get : gset string;
  ado_listed_keys : option (gset string);
  ado_actual_latest : option (gmap string ObjectVersionEntry);
  ado_expected_latest : option (gmap string ListedVersionEntry);
  ado_committed_delete_markers : option (list CommittedDeleteMarker);
  ado_expect_versioning : bool;
}.

Definition is_novel (o : AmbiguousDeleteFinalObservations) (key : string)
    (entry : ObjectVersionEntry) : bool :=
  novel_ambiguous_delete_marker key (ove_is_delete_marker entry) (ove_version_id entry)
    (committed_identities (default [] (ado_committed_delete_markers o))).

(** The key answered 404. *)
Definition finalize_absent (r : CheckerReport) (o : AmbiguousDeleteFinalObservations)
    (key : string) : CheckerReport :=
  let latest := ado_actual_latest o ≫= λ l, l !! key in
  let list_proves_absence :=
    match ado_listed_keys o with Some listed => bool_decide (key ∉ listed) | None => false end in
  let version_proves_delete :=
    negb (ado_expect_versioning o) || from_option (is_novel o key) false latest in
  if list_proves_absence && version_proves_delete then
    r <| cr_tolerated_ambiguous_deletes ::= λ l, l ++ [key] |>
  else if ado_expect_versioning o then
    match latest with
    | None =>
        r <| cr_delete_marker_lineage_incomplete ::= λ l,
               l ++ [key +:+ ": GET returned 404 after ambiguous delete but ListObjectVersions has no latest entry"] |>
    | Some entry =>
        if negb (ove_is_delete_marker entry) then
          r <| cr_missing_committed_objects ::= λ l, l ++ [key] |>
        else if negb (is_novel o key entry) then
          r <| cr_delete_marker_lineage_incomplete ::= λ l,
                 l ++ [key +:+ ": GET returned 404 after ambiguous delete but the latest delete marker has no novel version identity"] |>
        else r
    end
  else r.

(** The key still answered with its committed body. *)
Definition finalize_present (r : CheckerReport) (o : AmbiguousDeleteFinalObservations)
    (key : string) : CheckerReport :=
  match ado_actual_latest o ≫= λ l, l !! key with
  | None =>
      r <| cr_delete_marker_lineage_incomplete ::= λ l,
             l ++ [key +:+ ": ambiguous delete did not materialize but ListObjectVersions has no latest data entry"] |>
  | Some entry =>
      if ove_is_delete_marker entry then
        r <| cr_unexpected_visible_deleted_objects ::= λ l,
               l ++ [key +:+ ": GET returned the committed body after ambiguous delete but ListObjectVersions reports a delete marker latest"] |>
      else if match ado_expected_latest o ≫= λ l, l !! key with
              | None => true
              | Some expected =>
                  negb (bool_decide (ove_version_id entry = lve_version_id expected))
                  || lve_is_delete_marker expected
              end
      then r <| cr_delete_marker_lineage_incomplete ::= λ l,
                  l ++ [key +:+ ": ambiguous delete did not materialize but latest data version identity drifted"] |>
      else r
  end.

Definition finalize_ambiguous_delete (o : AmbiguousDeleteFinalObservations) (r : CheckerReport)
    (key : string) : CheckerReport :=
  if bool_decide (key ∈ ado_absent_on_get o) then finalize_absent r o key
  else if negb (bool_decide (key ∈ ado_present_on_get o)) || negb (ado_expect_versioning o)
  then r
  else finalize_present r o key.

Definition finalize_ambiguous_delete_observations (r : CheckerReport) (m : ObjectModel)
    (o : AmbiguousDeleteFinalObservations) : CheckerReport :=
  foldl (finalize_ambiguous_delete o) r (set_elems (om_ambiguous_delete_pending m)).

(** ** The final listing *)
Definition evaluate_final_list_keys (m : ObjectModel) (ambiguous_delete_absent : gset string)
    (materialized_ambiguous_write_keys listed : gset string) (prefix : string)
    (warnings : WarningSummary) : WarningSummary :=
  let warnings := push_warnings warnings
    ((λ key, "LIST prefix " +:+ prefix +:+ " did not include expected live key " +:+ key)
       <$> filter (λ key, (key ∉ listed) ∧ (key ∉ ambiguous_delete_absent)) (map_keys (om_live m))) in
  let warnings := push_warnings warnings
    ((λ key, "GET reported ambiguous-delete key " +:+ key +:+ " absent but LIST prefix "
             +:+ prefix +:+ " still included it")
       <$> filter (λ key, key ∈ listed) (set_elems ambiguous_delete_absent)) in
  push_warnings warnings
    ((λ key, "LIST prefix " +:+ prefix +:+ " included deleted key " +:+ key)
       <$> filter (λ key, (key ∈ listed) ∧ (key ∉ materialized_ambiguous_write_keys))
             (set_elems (om_deleted m))).

Definition unexplained_listed_keys (m : ObjectModel) (listed : gset string) : list string :=
  filter (λ key, om_live m !! key = None ∧ om_unknown_writes m !! key = None
                 ∧ key ∉ om_deleted m) (set_elems listed).

Definition record_version_list_unavailable (warnings : WarningSummary) (prefix : string)
    : WarningSummary :=
  push_warning warnings ("ListObjectVersions prefix " +:+ prefix +:+ " did not complete").

Definition sort_dedup (values : list string) : list string := dedup (sort values).

Lemma sort_dedup_nil l : sort_dedup l = [] ↔ l = [].
Proof. unfold sort_dedup. by rewrite dedup_nil, sort_nil. Qed.
