(* ===== verification/Checker.v ===== *)
(** The post-recovery checker ([check_s3_history] of [src/fault/checker.rs]):
    every live, ambiguous and deleted key of the recorded history is read back,
    committed versions and listings are compared with the history, and the
    outcome is one report.

    The S3 client and the recorder are the [CheckerEnv] interface: the answers
    to the requests the checker makes, the order in which the concurrent
    requests of a phase complete ([buffer_unordered]), the records the client
    appends while the checker runs, the clock and the JSON encoder. *)
From S2P Require Import Prelude Ordering RustText History Workload ObjectModel Attempts.
From S2P Require Import ReadAnomalies ListHistory Lineage ReadFailure Report Evaluate.
From stdpp Require Import options.

Class CheckerEnv := {
  env_bucket : string;
  env_get_object : string → Result GetObjectResult;
  env_get_object_version : string → string → Result GetObjectResult;
  env_list_object_versions : string → Result (option (list ObjectVersionEntry));
  env_list_prefix : string → Result (option (list string));
  (** The completion order of a batch of concurrent requests. *)
  env_completed : ∀ A : Type, list A → list A;
  env_suffix : list OperationRecord;
  env_started_at_ms : N;
  env_completed_at_ms : N;
  env_sha256_hex : list N → string;
  env_to_json : list OperationRecord → Result (list N);
}.

Definition checker_history_records_sha256 `{CheckerEnv} (records : list OperationRecord)
    : Result string :=
  json ← env_to_json records; ok (env_sha256_hex json).

(** ** Expected keys *)
Definition checker_expected_current_get_keys (records : list OperationRecord) : gset string :=
  let m := object_model records in
  dom (om_live m) ∪ dom (om_unknown_writes m)
  ∪ to_set (filter (λ key, om_unknown_writes m !! key = None) (set_elems (om_deleted m))).
Definition checker_expected_live_keys (records : list OperationRecord) : gset string :=
  dom (om_live (object_model records)).

(** A [BTreeSet<ListedVersionEntry>] in its derived order. *)
Definition listed_elems (s : gset ListedVersionEntry) : list ListedVersionEntry :=
  sort_by_key (λ e, (lve_key e, (lve_version_id e, (lve_is_latest e, lve_is_delete_marker e))))
    (elements s).
Definition expected_latest_versions (records : list OperationRecord)
    : gmap string ListedVersionEntry :=
  foldl (λ m e, <[lve_key e := e]> m) ∅
    (filter (λ e, lve_is_latest e = true) (listed_elems (checker_expected_version_listing records))).

(** ** The initial report *)
Definition initial_report (scenario run_id : string) (records : list OperationRecord)
    (m : ObjectModel) (anomalies : ReadAnomalies) (tenant_recovered expect_versioning : bool)
    : CheckerReport :=
  let warnings := list_history_warnings records in
  mkCheckerReport scenario run_id (om_committed_writes m) (N.of_nat (size (om_live m))) 0 [] [] [] []
    (ra_corrupted_reads anomalies) (ra_visible_deleted_objects anomalies)
    (ra_unknown_writes_materialized anomalies) [] (ra_unknown_write_value_conflicts anomalies)
    (ws_total_count warnings) 0 (ws_samples warnings) [] None expect_versioning 0 0 0 [] [] [] []
    [] [] [] [] [] [] [] [] (operation_cohort_counts records)
    (fault_window_relation_counts records) None tenant_recovered false.

(** ** The final GETs *)
Record FinalGets := mkFinalGets {
  fg_report : CheckerReport;
  fg_delete_absent : gset string;
  fg_delete_present : gset string;
  fg_write_absent : gset string;
  fg_materialized : gset string;
}.
Global Instance FinalGets_eta : Eta FinalGets := λ s,
  mkFinalGets (fg_report s) (fg_delete_absent s) (fg_delete_present s) (fg_write_absent s)
    (fg_materialized s).

Definition final_get_step (sha256_hex : list N → string) (m : ObjectModel) (st : FinalGets)
    (key : string) (get : GetObjectResult) : FinalGets :=
  let expected := om_live m !! key in
  let unknown_writes := default [] (om_unknown_writes m !! key) in
  let got_body p := bool_decide (get_outcome get = OperationOutcome.Ok)
                    && from_option p false (get_body get) in
  let st :=
    if got_body (λ body, bool_decide (is_Some
         (matching_active_ambiguous_write sha256_hex unknown_writes body)))
    then st <| fg_materialized ::= λ s, {[key]} ∪ s |> else st in
  if bool_decide (is_Some expected) && bool_decide (get_outcome get = OperationOutcome.NotFound)
     && bool_decide (key ∈ om_ambiguous_delete_pending m)
  then st <| fg_delete_absent ::= λ s, {[key]} ∪ s |>
  else
    let st :=
      if from_option (λ e, got_body (object_matches sha256_hex e)) false expected
         && is_empty unknown_writes && bool_decide (key ∈ om_ambiguous_delete_pending m)
      then st <| fg_delete_present ::= λ s, {[key]} ∪ s |> else st in
    let st :=
      if bool_decide (expected = None)
         && bool_decide (get_outcome get = OperationOutcome.NotFound)
      then st <| fg_write_absent ::= λ s, {[key]} ∪ s |> else st in
    st <| fg_report ::= λ r, evaluate_final_get sha256_hex r key expected unknown_writes get |>.

Definition final_keys (m : ObjectModel) : list string :=
  set_elems (dom (om_live m) ∪ dom (om_unknown_writes m)).
Definition final_gets `{CheckerEnv} (m : ObjectModel) (r : CheckerReport) : Result FinalGets :=
  try_fold (λ st key, get ← env_get_object key; ok (final_get_step env_sha256_hex m st key get))
    (mkFinalGets r ∅ ∅ ∅ ∅) (env_completed _ (final_keys m)).

(** ** Deleted keys *)
Definition deleted_probe_keys (m : ObjectModel) : list string :=
  filter (λ key, om_unknown_writes m !! key = None) (set_elems (om_deleted m)).
Definition deleted_gets `{CheckerEnv} (m : ObjectModel) (r : CheckerReport)
    : Result CheckerReport :=
  try_fold (λ r key,
    get ← env_get_object key;
    ok match evaluate_deleted_reread key get with
       | Some message => r <| cr_resurrected_deleted_objects ::= λ l, l ++ [message] |>
       | None => r
       end) r (env_completed _ (deleted_probe_keys m)).

(** ** Versions *)
Record VersionChecks := mkVersionChecks {
  vc_report : CheckerReport;
  vc_data_version_checks : list CheckerDataVersionAudit;
  vc_delete_marker_checks : list CheckerDeleteMarkerAudit;
  vc_list_completed : option bool;
  vc_latest_by_key : option (gmap string ObjectVersionEntry);
  vc_warnings : WarningSummary;
}.

Definition version_gets `{CheckerEnv} (lineage : VersionLineage) (r : CheckerReport)
    : Result (CheckerReport * list CheckerDataVersionAudit) :=
  try_fold (λ st version,
    get ← env_get_object_version (cv_key version) (cv_version_id version);
    ok (evaluate_committed_version_get env_sha256_hex st.1 version get,
        st.2 ++ [checker_data_version_audit env_sha256_hex version get]))
    (r, []) (env_completed _ (vl_versions lineage)).

Definition candidate_gets `{CheckerEnv} (candidates : list AmbiguousVersionCandidate)
    : Result (list (AmbiguousVersionCandidate * GetObjectResult)) :=
  try_fold (λ obs c,
    get ← env_get_object_version (avc_key c) (avc_version_id c); ok (obs ++ [(c, get)]))
    [] (env_completed _ candidates).

(** The arm of a complete ListObjectVersions response. *)
Definition version_listing `{CheckerEnv} (records : list OperationRecord) (m : ObjectModel)
    (lineage : VersionLineage) (entries : list ObjectVersionEntry) (r : CheckerReport)
    : Result CheckerReport :=
  let '(latest_entries, latest_conflicts) := latest_version_entries entries in
  let r := r <| cr_delete_marker_lineage_incomplete ::= λ l,
                  l ++ latest_conflicts ++ listed_version_lineage_conflicts records lineage entries |> in
  let '(missing_versions, multipart_lineage) :=
    missing_committed_version_entries (vl_versions lineage) entries in
  let r := r <| cr_missing_committed_versions ::= λ l, l ++ missing_versions |>
             <| cr_multipart_upload_lineage_incomplete ::= λ l, l ++ multipart_lineage |>
             <| cr_missing_committed_delete_markers :=
                  missing_committed_delete_markers (vl_delete_markers lineage) entries |> in
  let '(candidates, conflicts) := ambiguous_version_candidates m lineage entries in
  observations ← candidate_gets candidates;
  p ← materialized_ambiguous_versions env_sha256_hex m conflicts observations;
  let r := evaluate_latest_version_lineage r m (expected_latest_versions records) latest_entries
             p.1 (vl_delete_markers lineage) in
  ok (r <| cr_unknown_writes_materialized ::= λ l, l ++ (mav_evidence <$> p.1) |>
        <| cr_unknown_write_value_conflicts ::= λ l, l ++ p.2 |>).

Definition version_checks `{CheckerEnv} (prefix : string) (records : list OperationRecord)
    (m : ObjectModel) (lineage : VersionLineage) (r : CheckerReport) : Result VersionChecks :=
  let r := r <| cr_expected_committed_versions := len (vl_versions lineage) |>
             <| cr_committed_writes_missing_version_id_count := vl_missing_version_id_count lineage |>
             <| cr_committed_writes_missing_version_id := vl_missing_version_id_samples lineage |>
             <| cr_delete_marker_lineage_incomplete ::= λ l,
                  l ++ vl_delete_marker_lineage_incomplete lineage |>
             <| cr_multipart_upload_lineage_incomplete ::= λ l,
                  l ++ vl_multipart_upload_lineage_incomplete lineage |> in
  p ← version_gets lineage r;
  listing ← env_list_object_versions prefix;
  match listing with
  | Some entries =>
      r ← version_listing records m lineage entries p.1;
      ok (mkVersionChecks r p.2
            (checker_delete_marker_audits (vl_delete_markers lineage) (Some entries)) (Some true)
            (Some (latest_version_entries entries).1) no_warnings)
  | None =>
      ok (mkVersionChecks p.1 p.2
            (checker_delete_marker_audits (vl_delete_markers lineage) None) (Some false) None
            (record_version_list_unavailable no_warnings prefix))
  end.

(** ** The final listing *)
Record ListChecks := mkListChecks {
  lc_report : CheckerReport;
  lc_listed_keys : option (gset string);
  lc_warnings : WarningSummary;
}.
Definition list_checks `{CheckerEnv} (prefix : string) (m : ObjectModel) (gets : FinalGets)
    (warnings : WarningSummary) (r : CheckerReport) : Result ListChecks :=
  listing ← env_list_prefix prefix;
  match listing with
  | Some keys =>
      let r := r <| cr_final_listed_objects := Some (len keys) |> in
      let listed := to_set keys in
      let warnings := evaluate_final_list_keys m (fg_delete_absent gets) (fg_materialized gets)
                        listed prefix warnings in
      let r := r <| cr_listed_keys_unreadable ::= λ l,
                      l ++ ((λ key, key +:+ ": NotFound (ambiguous write listed but absent on GET)")
                              <$> set_elems (fg_write_absent gets ∩ listed)) |> in
      r ← try_fold (λ r key,
            get ← env_get_object key;
            ok (evaluate_unexplained_listed_key env_sha256_hex r m key get))
          r (env_completed _ (unexplained_listed_keys m listed));
      ok (mkListChecks r (Some listed) warnings)
  | None =>
      ok (mkListChecks r None
            (push_warning warnings ("LIST prefix " +:+ prefix +:+ " did not complete")))
  end.

(** ** Canonical order of the report *)
Definition failure_sort_key (f : CommittedReadFailure) : option string := failure_key f.
Definition canonicalize (r : CheckerReport) : CheckerReport :=
  r <| cr_missing_committed_objects ::= sort |>
    <| cr_unavailable_committed_objects ::= sort_by_key failure_sort_key |>
    <| cr_unknown_committed_read_failures ::= sort_by_key failure_sort_key |>
    <| cr_hash_mismatches ::= sort |>
    <| cr_unknown_writes_materialized ::= sort_dedup |>
    <| cr_unknown_writes_preserved_committed ::= sort_dedup |>
    <| cr_unknown_write_value_conflicts ::= sort_dedup |>
    <| cr_unexpected_visible_deleted_objects ::= sort |>
    <| cr_list_history_warnings ::= sort |>
    <| cr_list_warnings ::= sort |>
    <| cr_committed_writes_missing_version_id ::= sort |>
    <| cr_missing_committed_versions ::= sort |>
    <| cr_unavailable_committed_versions ::= sort |>
    <| cr_version_hash_mismatches ::= sort |>
    <| cr_missing_committed_delete_markers ::= sort |>
    <| cr_resurrected_deleted_objects ::= sort_dedup |>
    <| cr_listed_keys_unreadable ::= sort_dedup |>
    <| cr_unexpected_listed_objects ::= sort_dedup |>
    <| cr_failed_writes_materialized ::= sort_dedup |>
    <| cr_delete_marker_lineage_incomplete ::= sort_dedup |>
    <| cr_multipart_upload_lineage_incomplete ::= sort_dedup |>
    <| cr_tolerated_ambiguous_deletes ::= sort |>.

(** ** The whole check *)

(** The report before the audit: every read and listing evaluated, in canonical
    order, with the version checks of the audit. *)
Definition checked_report `{CheckerEnv} (scenario run_id : string)
    (records : list OperationRecord) (tenant_recovered expect_versioning : bool)
    : Result (CheckerReport * list CheckerDataVersionAudit * list CheckerDeleteMarkerAudit
              * option bool) :=
  let m := object_model records in
  anomalies ← successful_read_anomalies env_sha256_hex records;
  let prefix := key_prefix run_id in
  gets ← final_gets m (initial_report scenario run_id records m anomalies tenant_recovered
                         expect_versioning);
  r ← deleted_gets m (fg_report gets);
  versions ← (if expect_versioning
              then version_checks prefix records m (committed_version_lineage records) r
              else ok (mkVersionChecks r [] [] None None no_warnings));
  lists ← list_checks prefix m gets (vc_warnings versions) (vc_report versions);
  let r := lc_report lists in
  let r := r <| cr_final_list_warning_count := ws_total_count (lc_warnings lists) |>
             <| cr_list_warnings := ws_samples (lc_warnings lists) |> in
  let r := finalize_ambiguous_delete_observations r m
             (mkAmbiguousDeleteFinalObservations (fg_delete_absent gets) (fg_delete_present gets)
                (lc_listed_keys lists) (vc_latest_by_key versions)
                (if expect_versioning then Some (expected_latest_versions records) else None)
                (if expect_versioning
                 then Some (vl_delete_markers (committed_version_lineage records)) else None)
                expect_versioning) in
  ok (canonicalize r,
      sort_by_key (λ c, (cda_key c, cda_version_id c)) (vc_data_version_checks versions),
      sort_by_key (λ c, (cdma_key c, cdma_version_id c)) (vc_delete_marker_checks versions),
      vc_list_completed versions).

Definition check_s3_history `{CheckerEnv} (scenario run_id : string)
    (initial_records : list OperationRecord) (tenant_recovered expect_versioning : bool)
    : Result CheckerReport :=
  _ ← validate_history_scope_and_order initial_records scenario run_id env_bucket;
  history_prefix_sha256 ← checker_history_records_sha256 initial_records;
  checked ← checked_report scenario run_id initial_records tenant_recovered expect_versioning;
  let '(r, data_version_checks, delete_marker_checks, list_completed) := checked in
  let checker_records := initial_records ++ env_suffix in
  _ ← validate_history_scope_and_order checker_records scenario run_id env_bucket;
  let checker_suffix := env_suffix in
  _ ← validate_history_phase_boundary initial_records checker_suffix "workload/checker";
  history_suffix_sha256 ← checker_history_records_sha256 checker_suffix;
  let r := r <| cr_audit := Some (mkCheckerAudit env_bucket env_started_at_ms env_completed_at_ms
                  (len initial_records) history_prefix_sha256 (len checker_suffix)
                  history_suffix_sha256 (checker_operation_audits checker_suffix)
                  data_version_checks delete_marker_checks list_completed) |> in
  ok (r <| cr_passed := success_predicate r |>).
