(* ===== verification/CheckerFacts.v ===== *)
(** What a passing check establishes: every live key read back as committed or
    as an ambiguous write that may have landed, ambiguous deletes proved by the
    listing, no deleted key resurrected, every listed key explained, every
    committed version intact. *)
From S2P Require Import Prelude Ordering RustText History Workload ObjectModel ObjectModelFacts Attempts.
From S2P Require Import ReadSweepFacts ReadFacts ReplayFacts.
From S2P Require Import ReadAnomalies ListHistory ListHistoryFacts Lineage LineageFacts ReadFailure.
From S2P Require Import Report Evaluate Checker.
From stdpp Require Import options.

(** ** Failing evidence only accumulates *)

(** No failing evidence in the report so far. *)
Record clean (r : CheckerReport) : Prop := {
  cl_missing : cr_missing_committed_objects r = [];
  cl_unavailable : cr_unavailable_committed_objects r = [];
  cl_unknown : cr_unknown_committed_read_failures r = [];
  cl_hash : cr_hash_mismatches r = [];
  cl_conflicts : cr_unknown_write_value_conflicts r = [];
  cl_missing_versions : cr_missing_committed_versions r = [];
  cl_unavailable_versions : cr_unavailable_committed_versions r = [];
  cl_version_hash : cr_version_hash_mismatches r = [];
  cl_resurrected : cr_resurrected_deleted_objects r = [];
  cl_unreadable : cr_listed_keys_unreadable r = [];
  cl_unexpected : cr_unexpected_listed_objects r = [];
  cl_lineage : cr_delete_marker_lineage_incomplete r = [];
  cl_corrupted : cr_successful_corrupted_reads r = [];
  cl_visible : cr_unexpected_visible_deleted_objects r = [];
}.

Lemma app_nil_left {A} (l k : list A) : l ++ k = [] → l = [].
Proof. by destruct l. Qed.

(** [clean] of an extended report gives [clean] of the original. *)
Ltac clean_mono :=
  let H := fresh in
  intros H; destruct H; split; simpl in *; 
    first [assumption | eapply app_nil_left; first [eassumption | eapply app_nil_left; eassumption]].

Lemma final_body_clean sha r key expected attempts body :
  clean (evaluate_final_body sha r key expected attempts body) → clean r.
Proof.
  unfold evaluate_final_body, record_preserved_committed.
  destruct expected as [e|]; simpl; repeat case_match; clean_mono.
Qed.

Lemma final_get_clean sha r key expected attempts get :
  clean (evaluate_final_get sha r key expected attempts get) → clean r.
Proof.
  unfold evaluate_final_get.
  destruct (get_outcome get), (get_body get); try (by apply final_body_clean);
    destruct expected; try done; clean_mono.
Qed.

Lemma version_get_clean sha r v get : clean (evaluate_committed_version_get sha r v get) → clean r.
Proof. unfold evaluate_committed_version_get. repeat case_match; clean_mono. Qed.

Lemma unexplained_clean sha r m key get :
  clean (evaluate_unexplained_listed_key sha r m key get) → clean r.
Proof. unfold evaluate_unexplained_listed_key. repeat case_match; clean_mono. Qed.

Lemma finalize_clean r m o : clean (finalize_ambiguous_delete_observations r m o) → clean r.
Proof.
  unfold finalize_ambiguous_delete_observations. generalize (set_elems (om_ambiguous_delete_pending m)).
  intros l. revert r. induction l as [|key l IH]; intros r; [done|]. simpl. intros H%IH. revert H.
  unfold finalize_ambiguous_delete, finalize_absent, finalize_present. repeat case_match; clean_mono.
Qed.

Lemma sort_by_key_nil {A K} `{!RustOrd K} (key : A → K) (l : list A) : sort_by_key key l = [] → l = [].
Proof.
  intros H. unfold sort_by_key in H. apply Permutation_nil_r.
  by rewrite <-(sort_by_perm (key_le key) l), H.
Qed.

Lemma canonicalize_clean r : clean (canonicalize r) → clean r.
Proof.
  intros []. split; simpl in *;
    first [assumption | by apply sort_nil | by apply sort_dedup_nil | by eapply sort_by_key_nil].
Qed.

Lemma success_clean r : success_predicate r = true → clean r.
Proof.
  unfold success_predicate. rewrite !andb_true_iff, !is_empty_true. intros H.
  destruct_and! H. by split.
Qed.

(** ** Live keys *)
(** The body a successful GET returned. *)
Definition body_of (get : GetObjectResult) : option (list N) :=
  match get_outcome get with OperationOutcome.Ok => get_body get | _ => None end.

Lemma evaluate_final_get_good sha r key expected attempts get :
  clean (evaluate_final_get sha r key (Some expected) attempts get) →
  ∃ body, body_of get = Some body ∧
    (observed_object sha body = expected ∨
     ∃ a, a ∈ attempts ∧ pending a = true ∧ aw_object a = observed_object sha body).
Proof.
  unfold evaluate_final_get, body_of.
  destruct (get_outcome get), (get_body get) as [body|]; intros [].
  all: try (simpl in *; by match goal with H : ?l ++ [_] = [] |- _ => apply app_nil in H as [_ ?] end).
  exists body. split; [done|]. unfold evaluate_final_body in *. simpl in *.
  destruct (object_matches sha expected body) eqn:Hm; [left; by apply object_matches_iff|].
  destruct (matching_active_ambiguous_write sha attempts body) as [a|] eqn:Ha.
  { right. apply rev_find_Some in Ha as (Hin & Hp & Ho%object_matches_iff). by exists a. }
  destruct (matching_superseded_ambiguous_write sha attempts body) as [a|]; simpl in *.
  { by apply app_nil in cl_conflicts0 as [_ ?]. }
  destruct attempts; simpl in *.
  - by apply app_nil in cl_hash0 as [_ ?].
  - by apply app_nil in cl_conflicts0 as [_ ?].
Qed.

Lemma final_get_step_report sha m st key get :
  clean (fg_report (final_get_step sha m st key get)) → clean (fg_report st).
Proof.
  unfold final_get_step. repeat case_match; simpl; try done; apply final_get_clean.
Qed.
Lemma final_get_step_absent sha m st key get k :
  k ∈ fg_delete_absent st → k ∈ fg_delete_absent (final_get_step sha m st key get).
Proof. unfold final_get_step. repeat case_match; simpl; set_solver. Qed.

Lemma final_get_step_settles sha m st key get expected :
  om_live m !! key = Some expected →
  clean (fg_report (final_get_step sha m st key get)) →
  (get_outcome get = OperationOutcome.NotFound ∧ key ∈ om_ambiguous_delete_pending m ∧
   key ∈ fg_delete_absent (final_get_step sha m st key get)) ∨
  ∃ body, body_of get = Some body ∧
    (observed_object sha body = expected ∨
     ∃ a, a ∈ default [] (om_unknown_writes m !! key) ∧ pending a = true ∧
       aw_object a = observed_object sha body).
Proof.
  intros Hl. unfold final_get_step. rewrite Hl. rewrite (bool_decide_eq_true_2 (is_Some _)) by done.
  destruct (bool_decide (get_outcome get = OperationOutcome.NotFound)
            && bool_decide (key ∈ om_ambiguous_delete_pending m)) eqn:Hd.
  - apply andb_true_iff in Hd as [Hn%bool_decide_eq_true Hp%bool_decide_eq_true].
    rewrite bool_decide_eq_true_2, bool_decide_eq_true_2 by done. simpl. intros _. left.
    split; [done|]. split; [done|]. set_solver.
  - rewrite <-andb_assoc, Hd. simpl. intros Hc. right.
    repeat case_match; simpl in Hc; by apply evaluate_final_get_good in Hc.
Qed.

Lemma finalize_warning_count o r l :
  cr_final_list_warning_count (foldl (finalize_ambiguous_delete o) r l)
  = cr_final_list_warning_count r.
Proof.
  revert r. induction l as [|key l IH]; intros r; [done|]. simpl. rewrite IH.
  unfold finalize_ambiguous_delete, finalize_absent, finalize_present. by repeat case_match.
Qed.

Lemma finalize_markers o r l :
  cr_missing_committed_delete_markers (foldl (finalize_ambiguous_delete o) r l)
  = cr_missing_committed_delete_markers r.
Proof.
  revert r. induction l as [|key l IH]; intros r; [done|]. simpl. rewrite IH.
  unfold finalize_ambiguous_delete, finalize_absent, finalize_present. by repeat case_match.
Qed.

Section passing.
Context `{Henv : CheckerEnv}.
(** [buffer_unordered] yields every item once, in some order. *)
Context (Hcompleted : ∀ A (l : list A), env_completed A l ≡ₚ l).

(** The key answers with its committed value, or with a write whose outcome
    was ambiguous and that no committed mutation superseded. *)
Definition reads_back (m : ObjectModel) (key : string) (expected : ExpectedObject) : Prop :=
  ∃ get body, env_get_object key = ok get ∧ body_of get = Some body ∧
    (observed_object env_sha256_hex body = expected ∨
     ∃ a, a ∈ default [] (om_unknown_writes m !! key) ∧ pending a = true ∧
       aw_object a = observed_object env_sha256_hex body).
(** The key answers 404 and its last delete was ambiguous. *)
Definition ambiguously_absent (m : ObjectModel) (key : string) : Prop :=
  key ∈ om_ambiguous_delete_pending m ∧
  ∃ get, env_get_object key = ok get ∧ get_outcome get = OperationOutcome.NotFound.

Lemma final_gets_settle m r gets key expected :
  final_gets m r = ok gets → clean (fg_report gets) → om_live m !! key = Some expected →
  reads_back m key expected ∨ (ambiguously_absent m key ∧ key ∈ fg_delete_absent gets).
Proof using Hcompleted.
  unfold final_gets. intros Hf Hc Hl.
  assert (key ∈ env_completed _ (final_keys m)) as Hin.
  { rewrite Hcompleted. unfold final_keys. rewrite elem_of_set_elems. apply elem_of_union_l.
    by eapply elem_of_dom_2. }
  destruct (try_fold_elem _ _ _ _ _ Hin Hf) as (l1 & l2 & s1 & s2 & _ & H2 & H3).
  apply bind_ok in H2 as (get & Hget & [= <-]).
  assert (clean (fg_report (final_get_step env_sha256_hex m s1 key get))) as Hc'.
  { eapply (try_fold_backward _ (λ s, clean (fg_report s))); [|exact H3|exact Hc].
    intros s x s' (g & _ & [= <-])%bind_ok. apply final_get_step_report. }
  destruct (final_get_step_settles _ _ _ _ _ _ Hl Hc') as [(Hn & Hp & Ha)|(body & Hb & Hv)].
  - right. split; [split; [done|by exists get]|].
    eapply (try_fold_forward _ (λ s, key ∈ fg_delete_absent s)); [|exact H3|exact Ha].
    intros s x s' (g & _ & [= <-])%bind_ok. apply final_get_step_absent.
  - left. exists get, body. done.
Qed.

(** The answer for a key that only ambiguous writes touched. *)
Definition ambiguous_write_settled (m : ObjectModel) (key : string) (get : GetObjectResult) : Prop :=
  ∀ body, body_of get = Some body →
    default [] (om_unknown_writes m !! key) = [] ∨
    ∃ a, a ∈ default [] (om_unknown_writes m !! key) ∧ pending a = true ∧
      aw_object a = observed_object env_sha256_hex body.

Lemma evaluate_final_get_unknown r m key get :
  clean (evaluate_final_get env_sha256_hex r key None (default [] (om_unknown_writes m !! key)) get) →
  ambiguous_write_settled m key get.
Proof using Type.
  clear Hcompleted. intros Hc body. unfold body_of.
  destruct (get_outcome get) eqn:Ho; try done. intros Hb.
  unfold evaluate_final_get in Hc. rewrite Ho, Hb in Hc. unfold evaluate_final_body in Hc. simpl in Hc.
  destruct (matching_active_ambiguous_write _ _ body) as [a|] eqn:Ha.
  { right. apply rev_find_Some in Ha as (Hin & Hp & Hm%object_matches_iff). by exists a. }
  destruct (matching_superseded_ambiguous_write _ _ body) as [a|]; destruct Hc; simpl in *.
  { by apply app_nil in cl_conflicts0 as [_ ?]. }
  destruct (default [] _); [by left|]. by apply app_nil in cl_conflicts0 as [_ ?].
Qed.

Lemma final_get_step_write_absent m st key get k :
  k ∈ fg_write_absent st → k ∈ fg_write_absent (final_get_step env_sha256_hex m st key get).
Proof using Type. clear. unfold final_get_step. repeat case_match; simpl; set_solver. Qed.

Lemma final_get_step_unknown m st key get :
  om_live m !! key = None →
  clean (fg_report (final_get_step env_sha256_hex m st key get)) →
  ambiguous_write_settled m key get ∧
  (get_outcome get = OperationOutcome.NotFound →
   key ∈ fg_write_absent (final_get_step env_sha256_hex m st key get)).
Proof using Type.
  clear Hcompleted. intros Hl. unfold final_get_step. rewrite Hl.
  rewrite (bool_decide_eq_false_2 (is_Some None)) by (intros [? ?]; done).
  rewrite (bool_decide_eq_true_2 (None = None)) by done. simpl. intros Hc. split.
  - repeat case_match; simpl in Hc; by eapply evaluate_final_get_unknown.
  - intros Hn. rewrite (bool_decide_eq_true_2 _ Hn). repeat case_match; simpl; set_solver.
Qed.

Lemma final_gets_unknown m r gets key :
  final_gets m r = ok gets → clean (fg_report gets) →
  om_live m !! key = None → is_Some (om_unknown_writes m !! key) →
  ∃ get, env_get_object key = ok get ∧ ambiguous_write_settled m key get ∧
    (get_outcome get = OperationOutcome.NotFound → key ∈ fg_write_absent gets).
Proof using Hcompleted.
  unfold final_gets. intros Hf Hc Hl Hu.
  assert (key ∈ env_completed _ (final_keys m)) as Hin.
  { rewrite Hcompleted. unfold final_keys. rewrite elem_of_set_elems. apply elem_of_union_r.
    by apply elem_of_dom. }
  destruct (try_fold_elem _ _ _ _ _ Hin Hf) as (l1 & l2 & s1 & s2 & _ & H2 & H3).
  apply bind_ok in H2 as (get & Hget & [= <-]). exists get. split; [done|].
  destruct (final_get_step_unknown m s1 key get Hl) as [Hs Hn].
  { eapply (try_fold_backward _ (λ s, clean (fg_report s))); [|exact H3|exact Hc].
    intros s x s' (g & _ & [= <-])%bind_ok. apply final_get_step_report. }
  split; [done|]. intros Hnf.
  eapply (try_fold_forward _ (λ s, key ∈ fg_write_absent s)); [|exact H3|by apply Hn].
  intros s x s' (g & _ & [= <-])%bind_ok. apply final_get_step_write_absent.
Qed.

Lemma final_gets_absent m r gets key :
  final_gets m r = ok gets → key ∈ fg_delete_absent gets → ambiguously_absent m key.
Proof using Type.
  clear Hcompleted. unfold final_gets. intros Hf. revert key.
  eapply (try_fold_forward _ (λ s, ∀ key, key ∈ fg_delete_absent s → ambiguously_absent m key));
    [|exact Hf|simpl; set_solver].
  intros s k s' (get & Hget & [= <-])%bind_ok Hs key. unfold final_get_step.
  destruct (bool_decide (is_Some (om_live m !! k))
    && bool_decide (get_outcome get = OperationOutcome.NotFound)
    && bool_decide (k ∈ om_ambiguous_delete_pending m)) eqn:Hd.
  - rewrite !andb_true_iff, !bool_decide_eq_true in Hd. destruct Hd as [[_ Hn] Hp].
    assert (ambiguously_absent m k) as Hk by (split; [done|by exists get]).
    case_match; simpl; intros [->%elem_of_singleton|?]%elem_of_union; auto.
  - repeat case_match; simpl; auto.
Qed.

(** An ambiguous write that nothing superseded is what the key now holds. *)
Definition ambiguous_write_landed (m : ObjectModel) (key : string) : Prop :=
  ∃ get body a, env_get_object key = ok get ∧ body_of get = Some body ∧
    a ∈ default [] (om_unknown_writes m !! key) ∧ pending a = true ∧
    aw_object a = observed_object env_sha256_hex body.

Lemma final_gets_materialized m r gets key :
  final_gets m r = ok gets → key ∈ fg_materialized gets → ambiguous_write_landed m key.
Proof using Type.
  clear Hcompleted. unfold final_gets. intros Hf. revert key.
  eapply (try_fold_forward _ (λ s, ∀ key, key ∈ fg_materialized s → ambiguous_write_landed m key));
    [|exact Hf|simpl; set_solver].
  intros s k s' (get & Hget & [= <-])%bind_ok Hs key. unfold final_get_step.
  destruct (bool_decide (get_outcome get = OperationOutcome.Ok) && from_option _ false _) eqn:Hd.
  - apply andb_true_iff in Hd as [Ho%bool_decide_eq_true Hb].
    destruct (get_body get) as [body|] eqn:Hbody; [|done].
    apply bool_decide_eq_true in Hb as [a Ha].
    apply rev_find_Some in Ha as (Hin & Hp & Hobj%object_matches_iff).
    assert (ambiguous_write_landed m k) as Hk.
    { exists get, body, a. unfold body_of. by rewrite Ho. }
    repeat case_match; simpl; intros [->%elem_of_singleton|?]%elem_of_union; auto.
  - repeat case_match; simpl; auto.
Qed.

(** ** The other phases *)
Lemma deleted_gets_clean m r r' :
  deleted_gets m r = ok r' → clean r' →
  clean r ∧
  ∀ key, key ∈ om_deleted m → om_unknown_writes m !! key = None →
    ∃ get, env_get_object key = ok get ∧ body_of get = None.
Proof using Hcompleted.
  unfold deleted_gets. intros Hf Hc.
  assert (∀ r key r', (get ← env_get_object key;
    ok match evaluate_deleted_reread key get with
       | Some message => r <| cr_resurrected_deleted_objects ::= λ l, l ++ [message] |>
       | None => r
       end) = ok r' → clean r' →
    clean r ∧ ∃ get, env_get_object key = ok get ∧ body_of get = None) as Hstep.
  { intros s key s' (get & Hget & [= <-])%bind_ok. unfold evaluate_deleted_reread, body_of.
    destruct (get_outcome get) eqn:Ho; [destruct (get_body get) eqn:Hb|..]; intros Hs.
    1:{ destruct Hs. simpl in *. by apply app_nil in cl_resurrected0 as [_ ?]. }
    all: split; [done|]; exists get; by rewrite Ho, ?Hb. }
  split.
  - eapply (try_fold_backward _ clean); [|exact Hf|exact Hc].
    intros s x s' Hs Hs'. by destruct (Hstep _ _ _ Hs Hs').
  - intros key Hd Hu. assert (key ∈ env_completed _ (deleted_probe_keys m)) as Hin.
    { rewrite Hcompleted. apply list_elem_of_filter. by rewrite elem_of_set_elems. }
    destruct (try_fold_elem _ _ _ _ _ Hin Hf) as (l1 & l2 & s1 & s2 & _ & H2 & H3).
    apply (Hstep _ _ _ H2). eapply (try_fold_backward _ clean); [|exact H3|exact Hc].
    intros s x s' Hs Hs'. by destruct (Hstep _ _ _ Hs Hs').
Qed.

(** A committed version reads back with its hash and size. *)
Definition version_intact (v : CommittedVersion) : Prop :=
  ∃ get body, env_get_object_version (cv_key v) (cv_version_id v) = ok get ∧
    body_of get = Some body ∧
    observed_object env_sha256_hex body = mkExpectedObject (cv_sha256 v) (cv_size_bytes v).

Lemma version_get_good sha r v get :
  clean (evaluate_committed_version_get sha r v get) →
  ∃ body, body_of get = Some body ∧
    observed_object sha body = mkExpectedObject (cv_sha256 v) (cv_size_bytes v).
Proof using Type.
  clear Hcompleted Henv. unfold evaluate_committed_version_get, body_of.
  destruct (get_outcome get), (get_body get) as [body|]; intros Hc.
  all: try (destruct Hc; simpl in *; repeat case_match; simpl in *;
    by match goal with H : ?l ++ [_] = [] |- _ => apply app_nil in H as [_ ?] end).
  exists body. split; [done|].
  destruct (decide (sha body = cv_sha256 v)) as [Hs|Hs], (decide (len body = cv_size_bytes v)) as [Hl|Hl].
  { unfold observed_object. by rewrite Hs, Hl. }
  all: exfalso; destruct Hc as [_ _ _ _ _ _ _ Hh _ _ _ _ _ _];
    rewrite ?(bool_decide_eq_true_2 _ Hs), ?(bool_decide_eq_false_2 _ Hs),
      ?(bool_decide_eq_true_2 _ Hl), ?(bool_decide_eq_false_2 _ Hl) in Hh; simpl in Hh;
    by apply app_nil in Hh as [_ ?].
Qed.

Lemma version_gets_clean lineage r p :
  version_gets lineage r = ok p → clean p.1 →
  clean r ∧ ∀ v, v ∈ vl_versions lineage → version_intact v.
Proof using Hcompleted.
  unfold version_gets. intros Hf Hc.
  assert (∀ (s s' : CheckerReport * list CheckerDataVersionAudit) v,
    (get ← env_get_object_version (cv_key v) (cv_version_id v);
     ok (evaluate_committed_version_get env_sha256_hex s.1 v get,
         s.2 ++ [checker_data_version_audit env_sha256_hex v get])) = ok s' →
    clean s'.1 → clean s.1 ∧ version_intact v) as Hstep.
  { intros s s' v (get & Hget & [= <-])%bind_ok Hs. simpl in Hs.
    split; [by eapply version_get_clean|].
    apply version_get_good in Hs as (body & Hb & Ho). by exists get, body. }
  split.
  - eapply (try_fold_backward _ (λ s, clean s.1)) with (s := (r, [])); [|exact Hf|exact Hc].
    intros s x s' Hs Hs'. by destruct (Hstep _ _ _ Hs Hs').
  - intros v Hv. assert (v ∈ env_completed _ (vl_versions lineage)) as Hin by (by rewrite Hcompleted).
    destruct (try_fold_elem _ _ _ _ _ Hin Hf) as (l1 & l2 & s1 & s2 & _ & H2 & H3).
    apply (Hstep _ _ _ H2).
    eapply (try_fold_backward _ (λ s, clean s.1)); [|exact H3|exact Hc].
    intros s x s' Hs Hs'. by destruct (Hstep _ _ _ Hs Hs').
Qed.

(** A complete version listing that the check accepted. *)
Record version_listing_good (records : list OperationRecord) (lineage : VersionLineage)
    (entries : list ObjectVersionEntry) : Prop := {
  vg_versions : (missing_committed_version_entries (vl_versions lineage) entries).1 = [];
  vg_markers : missing_committed_delete_markers (vl_delete_markers lineage) entries = [];
  vg_latest : (latest_version_entries entries).2 = [];
  vg_conflicts : listed_version_lineage_conflicts records lineage entries = [];
}.

Lemma version_listing_clean records m lineage entries r r' :
  version_listing records m lineage entries r = ok r' → clean r' →
  clean r ∧ (cr_missing_committed_delete_markers r' = [] →
             version_listing_good records lineage entries).
Proof using Type.
  unfold version_listing. destruct (latest_version_entries entries) as [le lc] eqn:Elatest.
  destruct (missing_committed_version_entries _ _) as [mv ml] eqn:Emissing.
  destruct (ambiguous_version_candidates _ _ _) as [? ?].
  intros (obs & _ & (p & _ & [= <-])%bind_ok)%bind_ok Hc. clear Hcompleted. split.
  { revert Hc. clean_mono. }
  intros Hm. destruct Hc as [_ _ _ _ _ Hmv _ _ _ _ _ Hl _ _]. simpl in *.
  apply app_nil in Hmv as [_ ->]. apply app_nil in Hl as [[_ [-> ?]%app_nil]%app_nil _].
  split; rewrite ?Emissing, ?Elatest; done.
Qed.

Lemma version_checks_clean prefix records m lineage r vc :
  version_checks prefix records m lineage r = ok vc → clean (vc_report vc) →
  clean r ∧ (∀ v, v ∈ vl_versions lineage → version_intact v) ∧
  (ws_total_count (vc_warnings vc) = 0%N → cr_missing_committed_delete_markers (vc_report vc) = [] →
   ∃ entries, env_list_object_versions prefix = ok (Some entries) ∧
     version_listing_good records lineage entries).
Proof using Hcompleted.
  unfold version_checks. intros (p & Hp & H)%bind_ok Hc.
  apply bind_ok in H as (listing & Hlist & H).
  assert (clean p.1 ∧ (ws_total_count (vc_warnings vc) = 0%N →
    cr_missing_committed_delete_markers (vc_report vc) = [] →
    ∃ entries, env_list_object_versions prefix = ok (Some entries) ∧
      version_listing_good records lineage entries)) as [Hc1 Hgood].
  { destruct listing as [entries|]; [|injection H as <-; by split].
    apply bind_ok in H as (r' & Hr' & [= <-]). simpl in Hc |- *.
    destruct (version_listing_clean _ _ _ _ _ _ Hr' Hc). split; eauto. }
  destruct (version_gets_clean _ _ _ Hp Hc1) as [Hc0 Hv]. split; [|done].
  revert Hc0. clear. clean_mono.
Qed.

(** A listed key holds the bytes of a write that was answered with a failure. *)
Definition failed_write_landed (m : ObjectModel) (key : string) : Prop :=
  ∃ get body attempted, env_get_object key = ok get ∧ body_of get = Some body ∧
    om_failed_writes m !! key = Some attempted ∧ env_sha256_hex body ∈ attempted.

Lemma unexplained_good r m key get :
  clean (evaluate_unexplained_listed_key env_sha256_hex r m key get) →
  ∃ body attempted, body_of get = Some body ∧ om_failed_writes m !! key = Some attempted ∧
    env_sha256_hex body ∈ attempted.
Proof using Type.
  clear Hcompleted. unfold evaluate_unexplained_listed_key, body_of.
  destruct (get_outcome get), (get_body get) as [body|]; intros [_ _ _ _ _ _ _ _ _ Hu He _ _ _];
    simpl in *; try (by apply app_nil in Hu as [_ ?]).
  destruct (om_failed_writes m !! key) as [attempted|] eqn:Hf; simpl in *.
  - case_bool_decide as Hin; simpl in *; [|by apply app_nil in He as [_ ?]].
    by exists body, attempted.
  - by apply app_nil in He as [_ ?].
Qed.

Lemma final_list_keys_silent m absent materialized listed prefix w :
  ws_total_count (evaluate_final_list_keys m absent materialized listed prefix w) = 0%N →
  ws_total_count w = 0%N ∧
  (∀ key, is_Some (om_live m !! key) → key ∈ listed ∨ key ∈ absent) ∧
  (∀ key, key ∈ absent → key ∉ listed) ∧
  (∀ key, key ∈ om_deleted m → key ∈ listed → key ∈ materialized).
Proof using Type.
  clear Hcompleted Henv. unfold evaluate_final_list_keys.
  rewrite !(λ w l, proj1 (push_warnings_count w l)). unfold len. rewrite !length_fmap. intros H.
  split; [lia|]. repeat split.
  - intros key Hk. assert (key ∉ filter (λ key, (key ∉ listed) ∧ (key ∉ absent)) (map_keys (om_live m)))
      as Hn by (intros Hin; rewrite (nil_length_inv (filter _ _)) in Hin by lia; by apply elem_of_nil in Hin).
    rewrite list_elem_of_filter, elem_of_map_keys in Hn.
    destruct (decide (key ∈ listed)), (decide (key ∈ absent)); naive_solver.
  - intros key Ha Hk. assert (key ∉ filter (λ key, key ∈ listed) (set_elems absent)) as Hn
      by (intros Hin; rewrite (nil_length_inv (filter _ _)) in Hin by lia; by apply elem_of_nil in Hin).
    rewrite list_elem_of_filter, elem_of_set_elems in Hn. naive_solver.
  - intros key Hd Hk.
    assert (key ∉ filter (λ key, (key ∈ listed) ∧ (key ∉ materialized)) (set_elems (om_deleted m)))
      as Hn by (intros Hin; rewrite (nil_length_inv (filter _ _)) in Hin by lia; by apply elem_of_nil in Hin).
    rewrite list_elem_of_filter, elem_of_set_elems in Hn.
    destruct (decide (key ∈ materialized)); naive_solver.
Qed.

(** What the final listing establishes. *)
Record listing_proves (m : ObjectModel) (gets : FinalGets) (keys : list string) : Prop := {
  lp_live : ∀ key, is_Some (om_live m !! key) → key ∈ keys ∨ key ∈ fg_delete_absent gets;
  lp_absent : ∀ key, key ∈ fg_delete_absent gets → key ∉ keys;
  lp_deleted : ∀ key, key ∈ om_deleted m → key ∈ keys → key ∈ fg_materialized gets;
  lp_write_absent : ∀ key, key ∈ fg_write_absent gets → key ∉ keys;
  lp_explained : ∀ key, key ∈ keys →
    is_Some (om_live m !! key) ∨ is_Some (om_unknown_writes m !! key) ∨ key ∈ om_deleted m ∨
    failed_write_landed m key;
}.

Lemma list_checks_clean prefix m gets w r lc :
  list_checks prefix m gets w r = ok lc → clean (lc_report lc) →
  ws_total_count (lc_warnings lc) = 0%N →
  clean r ∧ ws_total_count w = 0%N ∧
  ∃ keys, env_list_prefix prefix = ok (Some keys) ∧ listing_proves m gets keys.
Proof using Hcompleted.
  unfold list_checks. intros (listing & Hlist & H)%bind_ok Hc Hw.
  destruct listing as [keys|].
  2:{ injection H as <-. simpl in Hw. lia. }
  apply bind_ok in H as (r' & Hr' & [= <-]). simpl in Hc, Hw.
  apply final_list_keys_silent in Hw as (Hw0 & H1 & H2 & H3).
  assert (∀ r key r', (get ← env_get_object key;
     ok (evaluate_unexplained_listed_key env_sha256_hex r m key get)) = ok r' → clean r' →
     clean r ∧ failed_write_landed m key) as Hstep.
  { intros s key s' (get & Hget & [= <-])%bind_ok Hs. split; [by eapply unexplained_clean|].
    apply unexplained_good in Hs as (body & att & ? & ? & ?). by exists get, body, att. }
  split.
  - assert (∀ l, clean (r <| cr_final_listed_objects := Some (len keys) |>
      <| cr_listed_keys_unreadable ::= λ l', l' ++ l |>) → clean r) as Hr by (clear; intros l; clean_mono).
    eapply Hr. eapply (try_fold_backward _ clean); [|exact Hr'|exact Hc].
    intros s x s' Hs Hs'. by destruct (Hstep _ _ _ Hs Hs').
  - split; [done|]. exists keys. split; [done|]. split.
    + intros key Hk. rewrite <-elem_of_to_set. by apply H1.
    + intros key Hk. rewrite <-elem_of_to_set. by apply H2.
    + intros key Hk. rewrite <-elem_of_to_set. by apply H3.
    + assert (clean (r <| cr_final_listed_objects := Some (len keys) |>
        <| cr_listed_keys_unreadable ::= λ l,
             l ++ ((λ key, key +:+ ": NotFound (ambiguous write listed but absent on GET)")
                     <$> set_elems (fg_write_absent gets ∩ to_set keys)) |>)) as Hc0.
      { eapply (try_fold_backward _ clean); [|exact Hr'|exact Hc].
        intros s x s' Hs Hs'. by destruct (Hstep _ _ _ Hs Hs'). }
      intros key Ha Hk. destruct Hc0 as [_ _ _ _ _ _ _ _ _ Hun _ _ _ _]. simpl in Hun.
      apply app_nil in Hun as [_ Hun%fmap_nil_inv].
      apply (not_elem_of_nil key). rewrite <-Hun, elem_of_set_elems, elem_of_intersection, elem_of_to_set.
      done.
    + intros key Hk.
      destruct (decide (om_live m !! key = None)) as [Hl|?%not_eq_None_Some]; [|auto].
      destruct (decide (om_unknown_writes m !! key = None)) as [Hu|?%not_eq_None_Some]; [|auto].
      destruct (decide (key ∈ om_deleted m)) as [|Hd]; [auto|]. do 3 right.
      assert (key ∈ env_completed _ (unexplained_listed_keys m (to_set keys))) as Hin.
      { rewrite Hcompleted. apply list_elem_of_filter. rewrite elem_of_set_elems, elem_of_to_set. done. }
      destruct (try_fold_elem _ _ _ _ _ Hin Hr') as (l1 & l2 & s1 & s2 & _ & E2 & E3).
      apply (Hstep _ _ _ E2). eapply (try_fold_backward _ clean); [|exact E3|exact Hc].
      intros s x s' Hs Hs'. by destruct (Hstep _ _ _ Hs Hs').
Qed.

(** The listing leaves the missing delete markers alone. *)
Lemma list_checks_markers prefix m gets w r lc :
  list_checks prefix m gets w r = ok lc →
  cr_missing_committed_delete_markers (lc_report lc) = cr_missing_committed_delete_markers r.
Proof using Type.
  unfold list_checks. intros (listing & _ & H)%bind_ok. destruct listing as [keys|].
  - apply bind_ok in H as (r' & Hr' & [= <-]). simpl. clear Hcompleted.
    eapply (try_fold_forward _ (λ s, cr_missing_committed_delete_markers s
      = cr_missing_committed_delete_markers r)); [|exact Hr'|done].
    intros s key s' (get & _ & [= <-])%bind_ok <-.
    unfold evaluate_unexplained_listed_key. by repeat case_match.
  - by injection H as <-.
Qed.

Lemma final_gets_clean m r gets : final_gets m r = ok gets → clean (fg_report gets) → clean r.
Proof using Type.
  unfold final_gets. intros Hf. clear Hcompleted.
  eapply (try_fold_backward _ (λ s, clean (fg_report s))) with (s := mkFinalGets r ∅ ∅ ∅ ∅); [|done].
  intros s key s' (get & _ & [= <-])%bind_ok. apply final_get_step_report.
Qed.

(** The entry a version listing shows for an identity. *)
Definition lists_entry (entries : list ObjectVersionEntry) (key version_id : string)
    (is_delete_marker : bool) : Prop :=
  ∃ e, e ∈ entries ∧ ove_key e = key ∧ ove_version_id e = Some version_id ∧
    ove_is_delete_marker e = is_delete_marker.

Lemma elem_of_listed_identities marker entries key version_id :
  (key, version_id) ∈ listed_identities marker entries ↔ lists_entry entries key version_id marker.
Proof using Type.
  clear. unfold listed_identities. rewrite elem_of_to_set, list_elem_of_omap. split.
  - intros (e & [Hd He]%list_elem_of_filter & (v & Hv & [= <- <-])%bind_Some). by exists e.
  - intros (e & He & <- & Hv & Hd). exists e. rewrite list_elem_of_filter, Hv. done.
Qed.

Lemma fmap_filter_nil {A B} (f : A → B) (P : A → Prop) `{∀ x, Decision (P x)} l x :
  f <$> filter P l = [] → x ∈ l → ¬ P x.
Proof using Type.
  clear. intros H0%fmap_nil_inv Hx HP. apply (not_elem_of_nil x). rewrite <-H0.
  by apply list_elem_of_filter.
Qed.

Lemma version_listing_lists records lineage entries :
  version_listing_good records lineage entries →
  (∀ v, v ∈ vl_versions lineage → lists_entry entries (cv_key v) (cv_version_id v) false) ∧
  (∀ d, d ∈ vl_delete_markers lineage → lists_entry entries (cdm_key d) (cdm_version_id d) true).
Proof using Type.
  intros [Hv Hm _ _]. split.
  - intros v Hin. apply elem_of_listed_identities, dec_stable. by eapply fmap_filter_nil in Hv.
  - intros d Hin. apply elem_of_listed_identities, dec_stable. by eapply fmap_filter_nil in Hm.
Qed.

(** ** A report without findings *)

(** What the store answered when the check found nothing to report. *)
Definition store_answers (run_id : string) (records : list OperationRecord) (versioning : bool)
    : Prop :=
  let m := object_model records in
  ∃ gets keys,
    (∀ key expected, om_live m !! key = Some expected →
       reads_back m key expected ∨ (ambiguously_absent m key ∧ key ∈ fg_delete_absent gets)) ∧
    (∀ key, key ∈ fg_delete_absent gets → ambiguously_absent m key) ∧
    (∀ key, key ∈ fg_materialized gets → ambiguous_write_landed m key) ∧
    (∀ key, key ∈ om_deleted m → om_unknown_writes m !! key = None →
       ∃ get, env_get_object key = ok get ∧ body_of get = None) ∧
    env_list_prefix (key_prefix run_id) = ok (Some keys) ∧ listing_proves m gets keys ∧
    (versioning = true →
       (∀ v, v ∈ vl_versions (committed_version_lineage records) → version_intact v) ∧
       ∃ entries, env_list_object_versions (key_prefix run_id) = ok (Some entries) ∧
         version_listing_good records (committed_version_lineage records) entries) ∧
    (∃ a, successful_read_anomalies env_sha256_hex records = ok a ∧
       ra_corrupted_reads a = [] ∧ ra_visible_deleted_objects a = [] ∧
       ra_unknown_write_value_conflicts a = []) ∧
    (∀ key, om_live m !! key = None → is_Some (om_unknown_writes m !! key) →
       ∃ get, env_get_object key = ok get ∧ ambiguous_write_settled m key get ∧
         (get_outcome get = OperationOutcome.NotFound → key ∈ fg_write_absent gets)).

(** The findings that decide a check, all absent. *)
Definition no_findings (r : CheckerReport) : Prop :=
  clean r ∧ cr_final_list_warning_count r = 0%N ∧ cr_missing_committed_delete_markers r = [].

Lemma success_no_findings r : success_predicate r = true → no_findings r.
Proof using Type.
  clear. intros Hp. split; [by apply success_clean|]. unfold success_predicate in Hp.
  rewrite !andb_true_iff, !is_empty_true in Hp. destruct_and! Hp.
  match goal with H : bool_decide (cr_final_list_warning_count _ = _) = true |- _ =>
    apply bool_decide_eq_true in H end. done.
Qed.

Lemma check_clean_inv scenario run_id records tenant versioning r :
  check_s3_history scenario run_id records tenant versioning = ok r → no_findings r →
  store_answers run_id records versioning.
Proof using Hcompleted.
  intros H (Hc & Hwarn & Hmarkers). unfold store_answers. set (m := object_model records).
  unfold check_s3_history in H.
  apply bind_ok in H as ([] & _ & H). apply bind_ok in H as (psha & _ & H).
  apply bind_ok in H as ([[[rep dvc] dmc] lcomp] & Hrep & H).
  apply bind_ok in H as ([] & _ & H). apply bind_ok in H as ([] & _ & H).
  apply bind_ok in H as (ssha & _ & H). injection H as <-. simpl in Hwarn, Hmarkers.
  assert (clean rep) as Hclean by (revert Hc; clear; clean_mono). clear Hc.
  unfold checked_report in Hrep. fold m in Hrep.
  apply bind_ok in Hrep as (anomalies & Hanomalies & H). apply bind_ok in H as (gets & Hgets & H).
  apply bind_ok in H as (r1 & Hdel & H). apply bind_ok in H as (vc & Hvc & H).
  apply bind_ok in H as (lc & Hlc & [= <- <- <- <-]).
  apply canonicalize_clean, finalize_clean in Hclean.
  assert (clean (lc_report lc)) as Hclean2 by (revert Hclean; clear; clean_mono).
  assert (ws_total_count (lc_warnings lc) = 0%N) as Hw.
  { rewrite <-Hwarn. symmetry. unfold finalize_ambiguous_delete_observations.
    exact (finalize_warning_count _ _ _). }
  assert (cr_missing_committed_delete_markers (vc_report vc) = []) as Hmk.
  { apply (proj1 (sort_nil _)) in Hmarkers.
    rewrite <-(list_checks_markers _ _ _ _ _ _ Hlc), <-Hmarkers. symmetry.
    exact (finalize_markers _ _ _). }
  destruct (list_checks_clean _ _ _ _ _ _ Hlc Hclean2 Hw) as (Hcv & Hw0 & keys & Hkeys & Hproves).
  assert (clean r1 ∧ (versioning = true →
    (∀ v, v ∈ vl_versions (committed_version_lineage records) → version_intact v) ∧
    ∃ entries, env_list_object_versions (key_prefix run_id) = ok (Some entries) ∧
      version_listing_good records (committed_version_lineage records) entries)) as [Hc1 Hver].
  { destruct versioning; [|injection Hvc as <-; by split].
    destruct (version_checks_clean _ _ _ _ _ _ Hvc Hcv) as (? & ? & Hg). split; [done|]. eauto. }
  destruct (deleted_gets_clean _ _ _ Hdel Hc1) as [Hc0 Hdeleted].
  pose proof (final_gets_clean _ _ _ Hgets Hc0) as Hinit.
  exists gets, keys. split; [|split; [|split; [|split; [done|split; [done|split; [done|split; [done|split]]]]]]].
  - intros key expected. by eapply final_gets_settle.
  - intros key. by eapply final_gets_absent.
  - intros key. by eapply final_gets_materialized.
  - exists anomalies. by destruct Hinit.
  - intros key. by eapply final_gets_unknown.
Qed.

(** ** A passing report *)
Lemma check_passed_findings scenario run_id records tenant versioning r :
  check_s3_history scenario run_id records tenant versioning = ok r → cr_passed r = true →
  no_findings r.
Proof using Type.
  clear. intros H Hp. unfold check_s3_history in H.
  apply bind_ok in H as ([] & _ & H). apply bind_ok in H as (psha & _ & H).
  apply bind_ok in H as ([[[rep dvc] dmc] lcomp] & Hrep & H).
  apply bind_ok in H as ([] & _ & H). apply bind_ok in H as ([] & _ & H).
  apply bind_ok in H as (ssha & _ & H). injection H as <-.
  match type of Hp with cr_passed (?x <| cr_passed := _ |>) = _ =>
    change (success_predicate x = true) in Hp end.
  apply success_no_findings in Hp as (Hc & ? & ?). split; [|done]. revert Hc. clear. clean_mono.
Qed.

Lemma check_passed_inv scenario run_id records tenant versioning r :
  check_s3_history scenario run_id records tenant versioning = ok r → cr_passed r = true →
  store_answers run_id records versioning.
Proof using Hcompleted.
  intros H Hp. eapply check_clean_inv; [exact H|]. by eapply check_passed_findings.
Qed.
End passing.

(** C1. If check_s3_history returns a passing report, then for every key the history
    leaves live either a GET returned its committed bytes or those of an ambiguous write
    that may still have landed and the final LIST shows the key, or the key had a
    pending ambiguous DELETE, its GET answered 404 and the final LIST omits it. *)
Theorem passed_check_accounts_for_live_keys `{CheckerEnv} scenario run_id records tenant
    versioning r :
  (∀ A (l : list A), env_completed A l ≡ₚ l) →
  check_s3_history scenario run_id records tenant versioning = ok r → cr_passed r = true →
  let m := object_model records in
  ∃ keys, env_list_prefix (key_prefix run_id) = ok (Some keys) ∧
    ∀ key expected, om_live m !! key = Some expected →
      (reads_back m key expected ∧ key ∈ keys) ∨ (ambiguously_absent m key ∧ key ∉ keys).
Proof.
  intros Hc Hr Hp m. destruct (check_passed_inv Hc _ _ _ _ _ _ Hr Hp)
    as (gets & keys & Hlive & Habs & _ & _ & Hkeys & [H1 H2 _ _ _] & _).
  exists keys. split; [done|]. intros key expected Hl.
  destruct (H1 key) as [Hk|Hab]; [by exists expected| |right; by auto].
  destruct (Hlive key expected Hl) as [Hb|[Ha Hin]]; [by left|right; by auto].
Qed.

(** C2. If check_s3_history returns a passing report, a body read from a key whose last
    committed mutation is a DELETE is that of an ambiguous write of the key that no
    later commit superseded, and every key of the final LIST is live, or has ambiguous
    writes, or holds bytes that a failed write attempted; a deleted key is listed only
    when an ambiguous write landed on it. *)
Theorem passed_check_explains_every_listed_key `{CheckerEnv} scenario run_id records tenant
    versioning r :
  (∀ A (l : list A), env_completed A l ≡ₚ l) →
  check_s3_history scenario run_id records tenant versioning = ok r → cr_passed r = true →
  let m := object_model records in
  (∀ key, key ∈ om_deleted m →
     ∃ get, env_get_object key = ok get ∧ ∀ body, body_of get = Some body →
       ∃ a, a ∈ default [] (om_unknown_writes m !! key) ∧ aw_superseded_by a = None ∧
         aw_object a = observed_object env_sha256_hex body) ∧
  ∃ keys, env_list_prefix (key_prefix run_id) = ok (Some keys) ∧
    ∀ key, key ∈ keys →
      (key ∈ om_deleted m → ambiguous_write_landed m key) ∧
      (is_Some (om_live m !! key) ∨ is_Some (om_unknown_writes m !! key) ∨
       failed_write_landed m key).
Proof.
  intros Hc Hr Hp m. destruct (check_passed_inv Hc _ _ _ _ _ _ Hr Hp)
    as (gets & keys & _ & _ & Hmat & Hdel & Hkeys & [_ _ H3 _ H4] & _ & _ & Hun).
  split.
  - intros key Hd. destruct (om_unknown_writes m !! key) as [l|] eqn:Hu.
    + assert (om_live m !! key = None) as Hl by (subst m; rewrite model_live; by apply model_deleted in Hd as ->).
      destruct (Hun key Hl (mk_is_Some _ _ Hu)) as (get & Hget & Hs & _). exists get. split; [done|].
      intros body Hb. destruct (Hs body Hb) as [Hn|(a & Ha & Hpend%bool_decide_eq_true & Ho)].
      * unfold m in Hu, Hn. rewrite Hu in Hn. by apply model_unknown_nonempty in Hu.
      * exists a. unfold m in Hu, Ha. by rewrite Hu in Ha.
    + destruct (Hdel key Hd Hu) as (get & Hget & Hb). exists get. split; [done|]. by rewrite Hb.
  - exists keys. split; [done|]. intros key Hk.
    split; [by auto|]. destruct (H4 key Hk) as [?|[?|[Hd|?]]]; auto. right. left.
    destruct (Hmat key (H3 key Hd Hk)) as (get & body & a & _ & _ & Ha & _).
    subst m. destruct (om_unknown_writes _ !! key); [done|by apply elem_of_nil in Ha].
Qed.

(** C3. If check_s3_history with versioning expected returns a passing report,
    ListObjectVersions answered; every PUT and every multipart completion the history
    records as acknowledged with a version id, a digest and a size is listed under its
    key and was read back by its id with that digest and size; every DELETE acknowledged
    with a version id is listed as a delete marker; and the listing is sound: every
    entry has an immutable version id, no identity is listed twice, at most one entry of
    a key is latest, and the delete markers of a key that no acknowledged DELETE created
    are no more than its DELETE transmissions whose answer nobody saw. *)
Theorem passed_check_verifies_every_version `{CheckerEnv} scenario run_id records tenant r :
  (∀ A (l : list A), env_completed A l ≡ₚ l) →
  check_s3_history scenario run_id records tenant true = ok r → cr_passed r = true →
  ∃ entries, env_list_object_versions (key_prefix run_id) = ok (Some entries) ∧
    (∀ w key version_id sha256 size, w ∈ records → creates_data_version w key version_id sha256 size →
       lists_entry entries key version_id false ∧
       ∃ get body, env_get_object_version key version_id = ok get ∧ body_of get = Some body ∧
         env_sha256_hex body = sha256 ∧ len body = size) ∧
    (∀ d key version_id, d ∈ records → creates_marker key version_id d →
       lists_entry entries key version_id true) ∧
    listing_sound records entries.
Proof.
  intros Hc Hr Hp. destruct (check_passed_inv Hc _ _ _ _ _ _ Hr Hp)
    as (gets & keys & _ & _ & _ & _ & _ & _ & Hv & _).
  destruct (Hv eq_refl) as (Hintact & entries & Hlist & Hgood). exists entries.
  destruct (version_listing_lists _ _ _ Hgood) as [Hlv Hld]. split; [done|]. split_and!.
  - intros w key id sha size Hw Hcr.
    assert (mkCommittedVersion key id sha size (op_kind w) ∈ vl_versions (committed_version_lineage records)) as Hin
      by (apply lineage_versions_iff; by exists w).
    split; [by apply Hlv in Hin|]. apply Hintact in Hin as (get & body & Hget & Hb & [= Hs Hz]).
    by exists get, body.
  - intros d key id Hd Hm. apply (Hld (mkCommittedDeleteMarker key id)), lineage_markers_iff, Exists_exists. eauto.
  - destruct Hgood. by apply listing_checks_sound.
Qed.

(** C4. If check_s3_history returns a passing report, every successful whole-object GET
    of the history returned a value that some committed or ambiguous write of the
    history wrote to its key, provided the recorded ranges are non-empty and fit 64
    bits. *)
Theorem passed_check_read_only_written_values `{CheckerEnv} scenario run_id records tenant
    versioning r i get key :
  (∀ A (l : list A), env_completed A l ≡ₚ l) → ranges_ok records →
  check_s3_history scenario run_id records tenant versioning = ok r → cr_passed r = true →
  records !! i = Some get → whole_read get key → written_in records key (observed get).
Proof.
  intros Hc Hrange Hr Hp Hi Hw. destruct (check_passed_inv Hc _ _ _ _ _ _ Hr Hp)
    as (gets & keys & _ & _ & _ & _ & _ & _ & _ & (a & Ha & H1 & H2 & H3) & _).
  destruct (decide (written_in records key (observed get))) as [|Hn]; [done|].
  destruct (unwritten_read_reported env_sha256_hex records i get key Hrange Hi Hw Hn) as (a' & Ha' & Hrep).
  rewrite Ha in Ha'. injection Ha' as <-. destruct Hrep as (msg & Hmsg & _).
  rewrite H1, H2, H3 in Hmsg. by apply elem_of_nil in Hmsg.
Qed.
