(* ===== verification/LegalityFacts.v ===== *)
(** The check of an unversioned bucket decides the legality of the store: it
    returns a report, and the report passes exactly when the recorded reads are
    clean and the store answers as some outcome of the ambiguous operations
    allows. Nothing legal is rejected and nothing illegal accepted. *)
From S2P Require Import Prelude Ordering RustText History Workload ObjectModel.
From S2P Require Import ObjectModelFacts Attempts ReadAnomalies ReadSweepFacts ReadFacts.
From S2P Require Import ReplayFacts ListHistory ListHistoryFacts Lineage ReadFailure Report.
From S2P Require Import Evaluate Checker CheckerFacts.
From stdpp Require Import options.

(** ** Reports without a finding *)

(** Every list and count [success_predicate] inspects is empty. *)
Record spotless (r : CheckerReport) : Prop := {
  sp_clean : clean r;
  sp_tolerated : cr_tolerated_ambiguous_deletes r = [];
  sp_warning_count : cr_final_list_warning_count r = 0%N;
  sp_list_warnings : cr_list_warnings r = [];
  sp_missing_id_count : cr_committed_writes_missing_version_id_count r = 0%N;
  sp_missing_id : cr_committed_writes_missing_version_id r = [];
  sp_versions : cr_expected_committed_versions r = cr_verified_committed_versions r;
  sp_markers : cr_missing_committed_delete_markers r = [];
  sp_multipart : cr_multipart_upload_lineage_incomplete r = [];
}.

(** What no step of the unversioned check changes. *)
Definition same_scope (r0 r : CheckerReport) : Prop :=
  cr_expected_live_objects r = cr_expected_live_objects r0 ∧
  cr_tenant_recovered r = cr_tenant_recovered r0.

Lemma spotless_success r :
  spotless r → cr_verified_live_objects r = cr_expected_live_objects r →
  (cr_expected_live_objects r ≤ u64_max)%N → success_predicate r = cr_tenant_recovered r.
Proof.
  intros [[] Ht ??????? ] Hver Hmax. apply eq_true_iff_eq. split.
  { unfold success_predicate. rewrite !andb_true_iff. tauto. }
  intros Hten. unfold success_predicate.
  assert (tolerated_ambiguous_deletes_have_audit_proof r = true) as ->.
  { unfold tolerated_ambiguous_deletes_have_audit_proof. by rewrite Ht. }
  rewrite !andb_true_iff, !is_empty_true, Ht. split_and!; try done;
    apply bool_decide_eq_true; try done.
  rewrite Hver. change (N.of_nat (size (to_set (K:=string) []))) with 0%N.
  apply checked_add64_Some. rewrite N.add_0_r. done.
Qed.

(** The first updates of the listing. *)
Ltac spotless_open := intros [[] ????????]; repeat split; simpl; rewrite ?app_nil_r; done.
Ltac spotless_step := intros [[] ????????]; repeat split; simpl; done.

Lemma canonicalize_spotless r : spotless r → spotless (canonicalize r).
Proof.
  intros [[] ????????]. repeat split; simpl;
    repeat match goal with H : _ r = [] |- _ => rewrite H; clear H end; done.
Qed.

Section legality.
Context `{Henv : CheckerEnv}.
Context (Hcompleted : ∀ A (l : list A), env_completed A l ≡ₚ l).

(** ** Legal stores *)

(** The answers some outcome of the ambiguous operations explains; [keys] is the
    final listing. *)
Record legal_store (m : ObjectModel) (prefix : string) (keys : list string) : Prop := {
  ls_listing : env_list_prefix prefix = ok (Some keys);
  ls_live : ∀ key expected, om_live m !! key = Some expected →
    reads_back m key expected ∧ key ∈ keys;
  ls_unknown : ∀ key, om_live m !! key = None → is_Some (om_unknown_writes m !! key) →
    ∃ get, env_get_object key = ok get ∧ ambiguous_write_settled m key get ∧
      (get_outcome get = OperationOutcome.NotFound → key ∉ keys);
  ls_deleted : ∀ key, key ∈ om_deleted m → om_unknown_writes m !! key = None →
    ∃ get, env_get_object key = ok get ∧ body_of get = None;
  ls_listed : ∀ key, key ∈ keys →
    (key ∈ om_deleted m → ambiguous_write_landed m key) ∧
    (is_Some (om_live m !! key) ∨ is_Some (om_unknown_writes m !! key) ∨
     failed_write_landed m key);
}.

(** The recorded reads raised no finding. *)
Definition reads_clean (records : list OperationRecord) : Prop :=
  ∃ a, successful_read_anomalies env_sha256_hex records = ok a ∧
    ra_corrupted_reads a = [] ∧ ra_visible_deleted_objects a = [] ∧
    ra_unknown_write_value_conflicts a = [].

(** The harness side of the check succeeds: the recorded histories validate,
    serialize, and every request is answered, by whatever outcome. *)
Record check_completes (scenario run_id : string) (records : list OperationRecord) : Prop := {
  cc_history : validate_history_scope_and_order records scenario run_id env_bucket = ok tt;
  cc_suffix :
    validate_history_scope_and_order (records ++ env_suffix) scenario run_id env_bucket = ok tt;
  cc_boundary : validate_history_phase_boundary records env_suffix "workload/checker" = ok tt;
  cc_json : ∀ l, ∃ s, checker_history_records_sha256 l = ok s;
  cc_get : ∀ key, ∃ get, env_get_object key = ok get;
  cc_list : ∃ listing, env_list_prefix (key_prefix run_id) = ok listing;
  cc_ranges : ranges_ok records;
}.

(** ** The check returns *)
Lemma final_gets_total m r :
  (∀ key, ∃ get, env_get_object key = ok get) → ∃ gets, final_gets m r = ok gets.
Proof using Type.
  intros Hget. unfold final_gets. apply try_fold_total. intros s key.
  destruct (Hget key) as [get ->]. by eexists.
Qed.
Lemma deleted_gets_total m r :
  (∀ key, ∃ get, env_get_object key = ok get) → ∃ r', deleted_gets m r = ok r'.
Proof using Type.
  intros Hget. unfold deleted_gets. apply try_fold_total. intros s key.
  destruct (Hget key) as [get ->]. by eexists.
Qed.
Lemma list_checks_total prefix m gets w r :
  (∀ key, ∃ get, env_get_object key = ok get) → (∃ listing, env_list_prefix prefix = ok listing) →
  ∃ lc, list_checks prefix m gets w r = ok lc.
Proof using Type.
  intros Hget [listing Hl]. unfold list_checks. rewrite Hl. run_result.
  destruct listing as [keys|]; [|by eexists].
  match goal with |- ∃ lc, try_fold ?f ?s ?l ≫= _ = _ => destruct (try_fold_total f s l) as [r' Hr] end.
  { intros s key. destruct (Hget key) as [get ->]. by eexists. }
  rewrite Hr. by eexists.
Qed.

Lemma unversioned_check_returns scenario run_id records tenant :
  check_completes scenario run_id records →
  ∃ r, check_s3_history scenario run_id records tenant false = ok r.
Proof using Type.
  intros [H1 H2 H3 Hj Hget Hlist Hranges]. unfold check_s3_history. rewrite H1. run_result.
  destruct (Hj records) as [psha Hpsha]. rewrite Hpsha. run_result.
  assert (∃ p, checked_report scenario run_id records tenant false = ok p) as [[[[rep d1] d2] lc] ->].
  { unfold checked_report, successful_read_anomalies.
    destruct (replay_all env_sha256_hex (stable_live_objects_at_read_starts records) records Hranges)
      as (st & -> & _). run_result.
    edestruct (final_gets_total (object_model records)) as [gets Hgets]; [done|]. rewrite Hgets. run_result.
    edestruct (deleted_gets_total (object_model records)) as [r1 Hr1]; [done|]. rewrite Hr1. run_result.
    edestruct list_checks_total as [lc Hlc]; [done|done|]. rewrite Hlc. by eexists. }
  run_result. rewrite H2. run_result. rewrite H3. run_result.
  destruct (Hj env_suffix) as [ssha ->]. by eexists.
Qed.

(** ** Legal answers leave the report spotless *)
Definition counts (b : bool) : N := if b then 1 else 0.

(** The step from [r] to [r'] adds no finding and verifies [n] live objects. *)
Definition harmless (n : N) (r r' : CheckerReport) : Prop :=
  (spotless r → spotless r') ∧ same_scope r r' ∧
  cr_verified_live_objects r' = (cr_verified_live_objects r + n)%N.

Lemma active_match sha attempts body a :
  a ∈ attempts → pending a = true → aw_object a = observed_object sha body →
  is_Some (matching_active_ambiguous_write sha attempts body).
Proof using Type.
  clear. intros Hin Hp Ho.
  destruct (matching_active_ambiguous_write sha attempts body) eqn:Hm; [by eexists|].
  pose proof (proj1 (rev_find_None _ _ _) Hm a Hin Hp) as Hf. simpl in Hf.
  assert (object_matches sha (aw_object a) body = true) as Ht by (by apply object_matches_iff).
  congruence.
Qed.

Lemma final_body_harmless sha r key expected attempts body :
  expected = Some (observed_object sha body) ∨
  (∃ a, a ∈ attempts ∧ pending a = true ∧ aw_object a = observed_object sha body) ∨
  (expected = None ∧ attempts = []) →
  harmless (counts (bool_decide (is_Some expected))) r
    (evaluate_final_body sha r key expected attempts body).
Proof using Type.
  clear. intros Hex. unfold evaluate_final_body.
  destruct (from_option (λ e, object_matches sha e body) false expected) eqn:Hm.
  { destruct expected as [e|]; [|done]. simpl in Hm. apply object_matches_iff in Hm as <-.
    unfold record_preserved_committed. rewrite bool_decide_eq_true_2 by by eexists.
    rewrite !bool_decide_eq_true_2 by done. simpl.
    repeat case_match; (split; [spotless_step|split; [done|simpl; lia]]). }
  destruct Hex as [->|[(a & Hin & Hp & Ho)|[-> ->]]].
  - simpl in Hm. exfalso. revert Hm. apply not_false_iff_true. by apply object_matches_iff.
  - destruct (active_match sha attempts body a Hin Hp Ho) as [a' ->].
    destruct (bool_decide (is_Some expected)); simpl;
      (split; [spotless_step|split; [done|simpl; lia]]).
  - simpl. split; [done|]. split; [done|]. simpl. lia.
Qed.

Lemma body_of_Some get body :
  body_of get = Some body ↔ get_outcome get = OperationOutcome.Ok ∧ get_body get = Some body.
Proof using Type. clear. unfold body_of. destruct (get_outcome get); naive_solver. Qed.

(** A legal answer for a key of the final GETs. *)
Definition legal_answer (m : ObjectModel) (key : string) (get : GetObjectResult) : Prop :=
  match om_live m !! key with
  | Some expected =>
      ∃ body, body_of get = Some body ∧
        (observed_object env_sha256_hex body = expected ∨
         ∃ a, a ∈ default [] (om_unknown_writes m !! key) ∧ pending a = true ∧
           aw_object a = observed_object env_sha256_hex body)
  | None => ambiguous_write_settled m key get
  end.

Lemma final_get_harmless m r key get :
  legal_answer m key get →
  harmless (counts (bool_decide (is_Some (om_live m !! key)))) r
    (evaluate_final_get env_sha256_hex r key (om_live m !! key)
       (default [] (om_unknown_writes m !! key)) get).
Proof using Type.
  unfold legal_answer. intros Hl. destruct (body_of get) as [body|] eqn:Hb.
  - pose proof (proj1 (body_of_Some get body) Hb) as [Ho Hbody].
    unfold evaluate_final_get. rewrite Ho, Hbody. apply final_body_harmless.
    destruct (om_live m !! key) as [e|].
    + destruct Hl as (body' & [= <-] & [<-|?]); auto.
    + destruct (Hl body Hb); auto.
  - destruct (om_live m !! key) as [e|]; [by destruct Hl as (? & ? & _)|]. clear Hl Hcompleted.
    unfold evaluate_final_get, body_of in *.
    destruct (get_outcome get), (get_body get); try done;
      (split; [done|split; [done|simpl; lia]]).
Qed.

Lemma final_get_step_legal m st key get :
  legal_answer m key get →
  let st' := final_get_step env_sha256_hex m st key get in
  harmless (counts (bool_decide (is_Some (om_live m !! key)))) (fg_report st) (fg_report st') ∧
  fg_delete_absent st' = fg_delete_absent st ∧
  (∀ k, k ∈ fg_write_absent st' → k ∈ fg_write_absent st ∨
     (k = key ∧ om_live m !! k = None ∧ get_outcome get = OperationOutcome.NotFound)) ∧
  (∀ k, k ∈ fg_materialized st → k ∈ fg_materialized st') ∧
  (∀ body a, body_of get = Some body → a ∈ default [] (om_unknown_writes m !! key) →
     pending a = true → aw_object a = observed_object env_sha256_hex body →
     key ∈ fg_materialized st').
Proof using Type.
  clear Hcompleted. intros Hl st'. pose proof (final_get_harmless m (fg_report st) key get Hl) as Hh.
  assert (bool_decide (is_Some (om_live m !! key))
          && bool_decide (get_outcome get = OperationOutcome.NotFound)
          && bool_decide (key ∈ om_ambiguous_delete_pending m) = false) as Hnabs.
  { unfold legal_answer in Hl. destruct (om_live m !! key) as [e|]; [|done].
    destruct Hl as (body & [-> _]%body_of_Some & _). done. }
  assert (∀ body a, body_of get = Some body → a ∈ default [] (om_unknown_writes m !! key) →
    pending a = true → aw_object a = observed_object env_sha256_hex body →
    bool_decide (get_outcome get = OperationOutcome.Ok) && from_option (λ body, bool_decide (is_Some
       (matching_active_ambiguous_write env_sha256_hex (default [] (om_unknown_writes m !! key)) body)))
       false (get_body get) = true) as Hmat.
  { intros body a [-> ->]%body_of_Some Hin Hp Ho. simpl.
    by apply bool_decide_eq_true, (active_match _ _ _ a). }
  clear Hl. subst st'. unfold final_get_step. rewrite Hnabs. split_and!.
  - repeat case_match; exact Hh.
  - by repeat case_match.
  - intros k. destruct (bool_decide (om_live m !! key = None)
      && bool_decide (get_outcome get = OperationOutcome.NotFound)) eqn:Hw.
    + apply andb_true_iff in Hw as [H1%bool_decide_eq_true H2%bool_decide_eq_true].
      repeat case_match; simpl; rewrite elem_of_union, elem_of_singleton; naive_solver.
    + repeat case_match; simpl; auto.
  - intros k Hk. repeat case_match; simpl; set_solver.
  - intros body a Hb Hin Hp Ho. rewrite (Hmat body a Hb Hin Hp Ho). repeat case_match; simpl; set_solver.
Qed.

(** ** The final GETs of a legal store *)
Record legal_gets (m : ObjectModel) (r0 : CheckerReport) (probed : list string) (st : FinalGets)
    : Prop := {
  lg_harmless : harmless (len (filter (λ key, is_Some (om_live m !! key)) probed)) r0 (fg_report st);
  lg_absent : fg_delete_absent st = ∅;
  lg_write_absent : ∀ key, key ∈ fg_write_absent st → key ∈ probed ∧ om_live m !! key = None ∧
    ∃ get, env_get_object key = ok get ∧ get_outcome get = OperationOutcome.NotFound;
  lg_materialized : ∀ key, key ∈ probed → ambiguous_write_landed m key → key ∈ fg_materialized st;
}.

Lemma harmless_trans n1 n2 r1 r2 r3 :
  harmless n1 r1 r2 → harmless n2 r2 r3 → harmless (n1 + n2) r1 r3.
Proof using Type.
  clear. intros (S1 & [E1 T1] & V1) (S2 & [E2 T2] & V2).
  split; [auto|]. split; [split; congruence|]. lia.
Qed.

Lemma final_gets_legal m r gets :
  (∀ key, key ∈ final_keys m → ∃ get, env_get_object key = ok get ∧ legal_answer m key get) →
  final_gets m r = ok gets → legal_gets m r (env_completed _ (final_keys m)) gets.
Proof using Hcompleted.
  intros Hlegal Hf. unfold final_gets in Hf.
  eapply (try_fold_invariant_in _ (legal_gets m r)); [| |exact Hf].
  { split; simpl; try set_solver. split; [done|]. split; [done|]. symmetry. apply N.add_0_r. }
  intros probed key st st' Hin [Hh Ha Hw Hm] (get & Hget & [= <-])%bind_ok.
  rewrite Hcompleted in Hin. destruct (Hlegal key Hin) as (get' & Hget' & Hans).
  rewrite Hget in Hget'. injection Hget' as <-.
  destruct (final_get_step_legal m st key get Hans) as (Sh & Sa & Sw & Smono & Smat). split.
  - rewrite filter_app, len_app. eapply harmless_trans; [exact Hh|].
    assert (len (filter (λ k, is_Some (om_live m !! k)) [key])
            = counts (bool_decide (is_Some (om_live m !! key)))) as ->; [|exact Sh].
    rewrite filter_cons, filter_nil. unfold counts. destruct (decide _);
      [by rewrite bool_decide_eq_true_2|by rewrite bool_decide_eq_false_2].
  - by rewrite Sa.
  - intros k Hk. destruct (Sw k Hk) as [Hk'|(-> & Hl & Hn)].
    + destruct (Hw k Hk') as (? & ? & ?). split; [set_solver|done].
    + split; [set_solver|]. split; [done|]. by exists get.
  - intros k [Hk| ->%list_elem_of_singleton]%elem_of_app Hland; [by apply Smono, Hm|].
    destruct Hland as (g & body & a & Hg & Hb & Hina & Hp & Ho). rewrite Hget in Hg.
    injection Hg as <-. by eapply Smat.
Qed.

Lemma live_final_keys m :
  len (filter (λ key, is_Some (om_live m !! key)) (env_completed _ (final_keys m)))
  = N.of_nat (size (om_live m)).
Proof using Hcompleted.
  unfold len. f_equal. rewrite Hcompleted. unfold final_keys.
  rewrite <-size_dom, <-(set_elems_length (dom (om_live m))). apply Permutation_length, NoDup_Permutation.
  - apply NoDup_filter, set_elems_NoDup.
  - apply set_elems_NoDup.
  - intros key. rewrite list_elem_of_filter, !elem_of_set_elems, elem_of_union, !elem_of_dom. tauto.
Qed.

(** ** Deleted keys and the listing of a legal store *)
Lemma deleted_gets_legal m r r' :
  (∀ key, key ∈ om_deleted m → om_unknown_writes m !! key = None →
     ∃ get, env_get_object key = ok get ∧ body_of get = None) →
  deleted_gets m r = ok r' → r' = r.
Proof using Hcompleted.
  intros Hlegal Hf. unfold deleted_gets in Hf.
  eapply (try_fold_invariant_in _ (λ _ s, s = r)); [done| |exact Hf].
  intros probed key st st' Hin -> (get & Hget & [= <-])%bind_ok.
  rewrite Hcompleted in Hin. apply list_elem_of_filter in Hin as [Hu Hd%elem_of_set_elems].
  destruct (Hlegal key Hd Hu) as (g & Hg & Hb). rewrite Hget in Hg. injection Hg as <-.
  unfold evaluate_deleted_reread. unfold body_of in Hb.
  by destruct (get_outcome get), (get_body get).
Qed.

Lemma unexplained_harmless r m key get body attempted :
  body_of get = Some body → om_failed_writes m !! key = Some attempted →
  env_sha256_hex body ∈ attempted →
  harmless 0 r (evaluate_unexplained_listed_key env_sha256_hex r m key get).
Proof using Type.
  clear Hcompleted. intros [Ho Hb]%body_of_Some Hf Hin. unfold evaluate_unexplained_listed_key.
  rewrite Ho, Hb, Hf, bool_decide_eq_true_2 by done.
  split; [spotless_step|split; [done|simpl; lia]].
Qed.

Lemma final_list_keys_legal m gets keys prefix :
  (∀ key, is_Some (om_live m !! key) → key ∈ keys) → fg_delete_absent gets = ∅ →
  (∀ key, key ∈ om_deleted m → key ∈ keys → key ∈ fg_materialized gets) →
  evaluate_final_list_keys m (fg_delete_absent gets) (fg_materialized gets) (to_set keys) prefix
    no_warnings = no_warnings.
Proof using Type.
  clear. intros Hlive Ha Hdel. unfold evaluate_final_list_keys. rewrite Ha.
  assert (∀ {P : string → Prop} `{∀ x, Decision (P x)} l, (∀ x, x ∈ l → ¬ P x) → filter P l = [])
    as Hnil.
  { intros P ? l Hl. destruct (filter P l) as [|x k] eqn:E; [done|].
    assert (x ∈ filter P l) as [? ?]%list_elem_of_filter by (rewrite E; left). by destruct (Hl x). }
  rewrite (Hnil _ _ (map_keys (om_live m))).
  2:{ intros key Hk%elem_of_map_keys [Hn _]. apply Hn, elem_of_to_set. by apply Hlive. }
  rewrite (Hnil _ _ (set_elems (om_deleted m))); [done|].
  intros key Hk%elem_of_set_elems [Hl%elem_of_to_set Hn]. by apply Hn, Hdel.
Qed.

Lemma list_checks_legal prefix m gets r lc keys :
  legal_store m prefix keys →
  fg_delete_absent gets = ∅ → (∀ key, key ∈ fg_write_absent gets → key ∉ keys) →
  (∀ key, ambiguous_write_landed m key → key ∈ fg_materialized gets) →
  list_checks prefix m gets no_warnings r = ok lc →
  harmless 0 r (lc_report lc) ∧ lc_warnings lc = no_warnings.
Proof using Hcompleted.
  intros [Hlist Hlive _ _ Hlisted] Habs Hwabs Hmat H. unfold list_checks in H.
  rewrite Hlist in H. cbn [mbind Result_bind] in H. apply bind_ok in H as (r' & Hr' & [= <-]). simpl. split.
  2:{ apply final_list_keys_legal; [|done|].
      - intros key [e He]. by apply (Hlive key e).
      - intros key Hd Hk. by apply Hmat, Hlisted. }
  assert (set_elems (fg_write_absent gets ∩ to_set keys) = []) as Hnone.
  { apply elem_of_nil_inv. intros key [Ha Hk%elem_of_to_set]%elem_of_set_elems%elem_of_intersection.
    by eapply Hwabs. }
  rewrite Hnone in Hr'. eapply (try_fold_invariant_in _ (λ _ s, harmless 0 r s)); [| |exact Hr'].
  { split; [spotless_open|split; [done|simpl; lia]]. }
  intros probed key st st' Hin Hh (get & Hget & [= <-])%bind_ok.
  rewrite Hcompleted in Hin. apply list_elem_of_filter in Hin as [(Hl & Hu & Hd) Hk].
  rewrite elem_of_set_elems, elem_of_to_set in Hk. apply (harmless_trans 0 0 _ _ _ Hh).
  destruct (Hlisted key Hk) as [_ [[? ?]|[[? ?]|Hland]]]; [congruence..|].
  destruct Hland as (g & body & att & Hg & Hb & Hf & Ha). rewrite Hget in Hg. injection Hg as <-.
  by eapply unexplained_harmless.
Qed.

(** ** Both directions *)
Lemma legal_final_answers records prefix keys key :
  let m := object_model records in
  legal_store m prefix keys → key ∈ final_keys m →
  ∃ get, env_get_object key = ok get ∧ legal_answer m key get.
Proof using Type.
  intros m [_ Hlive Hun _ _] Hk. unfold final_keys in Hk.
  rewrite elem_of_set_elems, elem_of_union, !elem_of_dom in Hk. unfold legal_answer.
  destruct (om_live m !! key) as [e|] eqn:Hl.
  - destruct (Hlive key e Hl) as [(get & body & Hget & Hb & Hv) _]. exists get. split; [done|].
    by exists body.
  - destruct Hk as [[? ?]|Hk]; [done|]. destruct (Hun key Hl Hk) as (get & Hget & Hs & _). by exists get.
Qed.

Lemma initial_report_spotless scenario run_id records a tenant :
  ra_corrupted_reads a = [] → ra_visible_deleted_objects a = [] →
  ra_unknown_write_value_conflicts a = [] →
  spotless (initial_report scenario run_id records (object_model records) a tenant false).
Proof using Type. clear. intros H1 H2 H3. repeat split; done. Qed.

Lemma legal_store_passes scenario run_id records {tenant} r :
  let m := object_model records in
  om_ambiguous_delete_pending m = ∅ → (N.of_nat (size (om_live m)) ≤ u64_max)%N →
  reads_clean records → (∃ keys, legal_store m (key_prefix run_id) keys) →
  check_s3_history scenario run_id records tenant false = ok r → cr_passed r = tenant.
Proof using Hcompleted.
  intros m Hpend Hmax (a & Ha & Ha1 & Ha2 & Ha3) [keys Hlegal] H. unfold check_s3_history in H.
  apply bind_ok in H as ([] & _ & H). apply bind_ok in H as (psha & _ & H).
  apply bind_ok in H as ([[[rep dvc] dmc] lcomp] & Hrep & H).
  apply bind_ok in H as ([] & _ & H). apply bind_ok in H as ([] & _ & H).
  apply bind_ok in H as (ssha & _ & H). injection H as <-. cbn [cr_passed].
  unfold checked_report in Hrep. fold m in Hrep. rewrite Ha in Hrep.
  cbn [mbind Result_bind] in Hrep.
  apply bind_ok in Hrep as (gets & Hgets & H). apply bind_ok in H as (r1 & Hdel & H).
  cbn [mbind Result_bind] in H.
  apply bind_ok in H as (lc & Hlc & [= <- <- <- <-]).
  pose proof (final_gets_legal _ _ _ (λ key, legal_final_answers records _ _ key Hlegal) Hgets)
    as [Hg Hgabs Hgw Hgm].
  fold m in Hgw, Hgm. rewrite live_final_keys in Hg.
  apply deleted_gets_legal in Hdel as ->; [|apply Hlegal].
  assert (∀ key, key ∈ fg_write_absent gets → key ∉ keys) as Hwabs.
  { intros key Hk. destruct (Hgw key Hk) as (Hpr & Hl & get & Hget & Hn).
    rewrite Hcompleted in Hpr. unfold final_keys in Hpr.
    rewrite elem_of_set_elems, elem_of_union, !elem_of_dom, Hl in Hpr.
    destruct Hpr as [[? ?]|Hu]; [done|]. destruct Hlegal as [_ _ Hun _ _].
    destruct (Hun key Hl Hu) as (g & Hg' & _ & Hnk). rewrite Hget in Hg'. injection Hg' as <-. auto. }
  assert (∀ key, ambiguous_write_landed m key → key ∈ fg_materialized gets) as Hland.
  { intros key Hland. apply Hgm; [|done]. rewrite Hcompleted. unfold final_keys.
    rewrite elem_of_set_elems, elem_of_union. right. apply elem_of_dom.
    destruct Hland as (_ & _ & x & _ & _ & Hx & _).
    destruct (om_unknown_writes m !! key); [by eexists|by apply elem_of_nil in Hx]. }
  destruct (list_checks_legal _ _ _ _ _ _ Hlegal Hgabs Hwabs Hland Hlc) as [Hlh Hlw].
  simpl in Hlh. destruct (harmless_trans _ _ _ _ _ Hg Hlh) as (Hsp & [He Ht] & Hv).
  specialize (Hsp (initial_report_spotless _ _ _ _ _ Ha1 Ha2 Ha3)).
  unfold finalize_ambiguous_delete_observations. rewrite Hpend, Hlw. simpl foldl.
  etrans; [apply spotless_success|exact Ht].
  - apply canonicalize_spotless in Hsp. revert Hsp. clear. spotless_step.
  - change (cr_verified_live_objects (lc_report lc) = cr_expected_live_objects (lc_report lc)).
    rewrite He, Hv. subst m. unfold initial_report.
    cbn [cr_verified_live_objects cr_expected_live_objects]. lia.
  - change (cr_expected_live_objects (lc_report lc) ≤ u64_max)%N. by rewrite He.
Qed.

Lemma clean_store_legal scenario run_id records {tenant} r :
  let m := object_model records in
  om_ambiguous_delete_pending m = ∅ →
  check_s3_history scenario run_id records tenant false = ok r → no_findings r →
  reads_clean records ∧ ∃ keys, legal_store m (key_prefix run_id) keys.
Proof using Hcompleted.
  intros m Hpend Hr Hp. destruct (check_clean_inv Hcompleted _ _ _ _ _ _ Hr Hp)
    as (gets & keys & Hlive & Habs & Hmat & Hdel & Hkeys & [H1 H2 H3 H4 H5] & _ & Hreads & Hun).
  split; [exact Hreads|]. fold m in Hlive, Habs, Hmat, Hdel, H1, H2, H3, H4, H5, Hun.
  assert (∀ key, ¬ ambiguously_absent m key) as Hnone.
  { intros key [Hk _]. rewrite Hpend in Hk. set_solver. }
  exists keys. split; [done| | |done|].
  - intros key e He. split.
    + destruct (Hlive key e He) as [?|[? _]]; [done|]. by destruct (Hnone key).
    + destruct (H1 key) as [?|?%Habs]; [by eexists|done|]. by destruct (Hnone key).
  - intros key Hl Hu. destruct (Hun key Hl Hu) as (get & Hget & Hs & Hn).
    exists get. split; [done|]. split; [done|]. intros Hnf. by apply H4, Hn.
  - intros key Hk. split; [by auto|]. destruct (H5 key Hk) as [?|[?|[Hd|?]]]; auto. right. left.
    destruct (Hmat key (H3 key Hd Hk)) as (_ & _ & a & _ & _ & Ha & _).
    destruct (om_unknown_writes m !! key); [by eexists|by apply elem_of_nil in Ha].
Qed.
End legality.

(** C5. On an unversioned bucket without pending ambiguous deletes and with at most
    2^64-1 live keys, when the histories before and after the check validate and
    serialize, the recorded ranges are non-empty and fit 64 bits, and every request
    returns some outcome, check_s3_history returns a report, and it passes exactly when
    the tenant recovered, the recorded reads raised no anomaly and the store is legal:
    live keys read back and are listed; the GET of an unsettled key returns the bytes of
    an attempt that may still have landed, or no body at all (a 404, and then the key is
    not listed, or a failure, which the code accepts too); deleted keys have no body;
    and every listed key is explained. *)
Theorem unversioned_check_decides_legality `{CheckerEnv} scenario run_id records tenant :
  (∀ A (l : list A), env_completed A l ≡ₚ l) → check_completes scenario run_id records →
  let m := object_model records in
  om_ambiguous_delete_pending m = ∅ → (N.of_nat (size (om_live m)) ≤ u64_max)%N →
  ∃ r, check_s3_history scenario run_id records tenant false = ok r ∧
    (cr_passed r = true ↔
     tenant = true ∧ reads_clean records ∧ ∃ keys, legal_store m (key_prefix run_id) keys).
Proof.
  intros Hc Hcc m Hpend Hmax. destruct (unversioned_check_returns scenario run_id records tenant Hcc)
    as [r Hr]. exists r. split; [done|]. split.
  - intros Hp. destruct (clean_store_legal Hc _ _ _ _ Hpend Hr) as [Hreads Hlegal]; [by eapply check_passed_findings|].
    split; [|done]. rewrite <-Hp. symmetry. by eapply legal_store_passes.
  - intros (-> & ? & ?). by eapply legal_store_passes.
Qed.
