(* ===== verification/ReportAudit.v ===== *)
(** The audit of a checker report ([src/fault/checker.rs]): a report is bound to
    the history it was computed from, and the verdict of a passing report is
    derived again from the operations the checker recorded.

    The digests of [checker_history_records_sha256] and the SHA-256 of bodies
    come from the [CheckerEnv] interface. *)
From S2P Require Import Prelude Ordering RustText History Workload ObjectModel Attempts.
From S2P Require Import ReadAnomalies ListHistory Lineage ReadFailure Report Evaluate Checker.
From stdpp Require Import options.

Global Instance CheckerOperationAudit_eq_dec : EqDecision CheckerOperationAudit.
Proof. solve_decision. Defined.
Global Instance CheckerDataVersionAudit_eq_dec : EqDecision CheckerDataVersionAudit.
Proof. solve_decision. Defined.
Global Instance CheckerDeleteMarkerAudit_eq_dec : EqDecision CheckerDeleteMarkerAudit.
Proof. solve_decision. Defined.

(** ** The receipt *)
Definition is_checker_operation (r : OperationRecord) : bool :=
  match op_kind r with
  | OperationKind.Get | OperationKind.List | OperationKind.ListVersions => true
  | _ => false
  end.
Definition within_audit (report : CheckerReport) (audit : CheckerAudit) (r : OperationRecord)
    : bool :=
  bool_decide (op_scenario r = cr_scenario report)
  && bool_decide (op_run_id r = Some (cr_run_id report))
  && bool_decide (op_bucket r = ca_bucket audit)
  && bool_decide (ca_started_at_ms audit ≤ op_started_at_ms r)%N
  && bool_decide (op_ended_at_ms r ≤ ca_completed_at_ms audit)%N.

(** The history prefix and suffix the report is bound to. *)
Definition validate_checker_audit_receipt `{CheckerEnv} (report : CheckerReport)
    (history : list OperationRecord) : Result (list OperationRecord * list OperationRecord) :=
  audit ← context (cr_audit report) "checker report has no history-bound audit";
  _ ← ensure (bool_decide (ca_started_at_ms audit ≤ ca_completed_at_ms audit)%N)
        "checker audit timestamps are inverted";
  suffix_end ← context (checked_add64 (ca_history_prefix_record_count audit)
                          (ca_history_suffix_record_count audit))
                 "checker audit history bounds overflow";
  _ ← ensure (bool_decide (suffix_end ≤ len history)%N)
        "checker audit history bounds exceed history.jsonl";
  let upto := take (N.to_nat suffix_end) history in
  let prefix := take (N.to_nat (ca_history_prefix_record_count audit)) upto in
  let suffix := drop (N.to_nat (ca_history_prefix_record_count audit)) upto in
  _ ← validate_history_scope_and_order upto (cr_scenario report) (cr_run_id report)
        (ca_bucket audit);
  _ ← validate_history_phase_boundary prefix suffix "workload/checker";
  prefix_sha256 ← checker_history_records_sha256 prefix;
  _ ← ensure (bool_decide (prefix_sha256 = ca_history_prefix_sha256 audit))
        "checker audit prefix digest does not match history.jsonl";
  suffix_sha256 ← checker_history_records_sha256 suffix;
  _ ← ensure (bool_decide (suffix_sha256 = ca_history_suffix_sha256 audit))
        "checker audit suffix digest does not match history.jsonl";
  _ ← ensure (bool_decide (checker_operation_audits suffix = ca_suffix_operations audit))
        "checker audit operations do not match the authenticated history suffix";
  _ ← ensure (forallb (within_audit report audit) suffix)
        "checker audit suffix identity or timing does not match its report";
  _ ← ensure (forallb is_checker_operation suffix)
        "checker audit suffix contains a mutating or unrelated operation";
  ok (prefix, suffix).

(** ** The operations of the suffix *)

(** The requests of one kind for the prefix of the run. *)
Definition prefix_operations (kind : OperationKind.t) (prefix_key : string)
    (suffix : list OperationRecord) : list OperationRecord :=
  filter (λ r, op_kind r = kind ∧ op_key r = Some prefix_key) suffix.

(** An operation that completed with the given status. *)
Definition answered (r : OperationRecord) (outcome : OperationOutcome.t) (status : N) : bool :=
  bool_decide (op_outcome r = outcome) && bool_decide (op_http_status r = Some status).
Definition answered_200 (r : OperationRecord) : bool := answered r OperationOutcome.Ok 200.
Definition answered_404 (r : OperationRecord) : bool := answered r OperationOutcome.NotFound 404.

(** [ExpectedObject { sha256: ..context(..)?, size_bytes: ..context(..)? }]. *)
Definition observed_value (what : string) (r : OperationRecord) : Result ExpectedObject :=
  sha256 ← context (op_value_sha256 r) (what +:+ " has no body digest");
  size_bytes ← context (op_size_bytes r) (what +:+ " has no body size");
  ok (mkExpectedObject sha256 size_bytes).

Definition is_current_get (r : OperationRecord) : bool :=
  bool_decide (op_kind r = OperationKind.Get) && bool_decide (op_version_id r = None).
Definition current_get_step (gets : gmap string OperationRecord) (r : OperationRecord)
    : Result (gmap string OperationRecord) :=
  key ← context (op_key r) "checker current GET has no key";
  _ ← ensure (bool_decide (gets !! key = None))
        ("checker issued duplicate current GETs for " +:+ key);
  ok (<[key := r]> gets).
Definition collect_current_gets (suffix : list OperationRecord)
    : Result (gmap string OperationRecord) :=
  try_fold current_get_step ∅ (filter is_current_get suffix).

(** ** Current values *)

(** [materialized_unknown_keys] and [expected_materialization_evidence]. *)
Record CurrentEvidence := mkCurrentEvidence {
  ce_materialized : gset string;
  ce_evidence : gset string;
}.
Definition note_materialized (st : CurrentEvidence) (key : string) (a : AmbiguousWriteAttempt)
    (actual : ExpectedObject) : CurrentEvidence :=
  mkCurrentEvidence ({[key]} ∪ ce_materialized st)
    ({[ambiguous_write_materialized_from_object_message key a actual]} ∪ ce_evidence st).

(** One turn of the loop over the expected keys. *)
Definition authenticate_current_get (m : ObjectModel) (tolerated unexplained : gset string)
    (gets : gmap string OperationRecord) (st : CurrentEvidence) (key : string)
    : Result CurrentEvidence :=
  r ← context (gets !! key) "checker current GET coverage changed during validation";
  match om_live m !! key with
  | Some expected =>
      if bool_decide (key ∈ tolerated) then
        _ ← ensure (answered_404 r)
              ("tolerated ambiguous delete " +:+ key +:+ " is not authenticated by GET 404");
        ok st
      else if answered_200 r && bool_decide (op_value_sha256 r = Some (eo_sha256 expected))
              && bool_decide (op_size_bytes r = Some (eo_size_bytes expected))
      then ok st
      else
        actual ← observed_value "checker current GET" r;
        attempts ← context (om_unknown_writes m !! key)
          "checker current GET does not match the authenticated committed value";
        attempt ← context (matching_active_ambiguous_object attempts actual)
          ("checker current GET for " +:+ key
           +:+ " matches neither the authenticated committed value nor an active timeout-write attempt");
        _ ← ensure (answered_200 r)
              ("checker current GET for " +:+ key
               +:+ " did not successfully read the authenticated timeout-write value");
        ok (note_materialized st key attempt actual)
  | None =>
      match om_unknown_writes m !! key with
      | Some attempts =>
          if answered_200 r then
            actual ← observed_value "checker current GET" r;
            attempt ← context (matching_active_ambiguous_object attempts actual)
              ("checker current GET for " +:+ key +:+ " matches no active timeout-write attempt");
            ok (note_materialized st key attempt actual)
          else
            _ ← ensure (answered_404 r)
                  ("checker current GET for unresolved timeout-write key " +:+ key
                   +:+ " is neither an authenticated materialization nor 404");
            ok st
      | None =>
          if bool_decide (key ∈ unexplained) then
            _ ← ensure (answered_200 r
                        && match op_value_sha256 r, om_failed_writes m !! key with
                           | Some observed, Some attempted => bool_decide (observed ∈ attempted)
                           | _, _ => false
                           end)
                  ("checker tolerated failed-write key " +:+ key
                   +:+ " is not authenticated by a readable GET matching a failed attempt's payload");
            ok st
          else
            _ ← ensure (answered_404 r)
                  ("checker current GET materialized a key absent from the authenticated model: "
                   +:+ key);
            ok st
      end
  end.

(** The keys the final LIST of the suffix returned beyond [expected]. *)
Definition unexplained_listed (prefix_key : string) (expected : gset string)
    (suffix : list OperationRecord) : gset string :=
  to_set (filter (λ key, key ∉ expected)
            (mjoin (omap op_listed_keys (prefix_operations OperationKind.List prefix_key suffix)))).

(** ** Versions *)

(** What the loop over the listed versions collects. *)
Record ListedVersions := mkListedVersions {
  lv_data_versions : gset (string * string);
  lv_data_latest : gmap (string * string) bool;
  lv_delete_markers : gset (string * string);
  lv_actual_latest : gmap string ListedVersionEntry;
}.
Definition listed_version_step (st : ListedVersions) (entry : ListedVersionEntry)
    : Result ListedVersions :=
  let st :=
    match lve_version_id entry with
    | None => st
    | Some version_id =>
        let identity := (lve_key entry, version_id) in
        if lve_is_delete_marker entry then
          mkListedVersions (lv_data_versions st) (lv_data_latest st)
            ({[identity]} ∪ lv_delete_markers st) (lv_actual_latest st)
        else
          mkListedVersions ({[identity]} ∪ lv_data_versions st)
            (<[identity := lve_is_latest entry]> (lv_data_latest st)) (lv_delete_markers st)
            (lv_actual_latest st)
    end in
  if lve_is_latest entry then
    _ ← ensure (bool_decide (lv_actual_latest st !! lve_key entry = None))
          ("ListObjectVersions returned multiple latest entries for " +:+ lve_key entry);
    ok (mkListedVersions (lv_data_versions st) (lv_data_latest st) (lv_delete_markers st)
          (<[lve_key entry := entry]> (lv_actual_latest st)))
  else ok st.

Definition expected_latest_step (m : gmap string ListedVersionEntry) (entry : ListedVersionEntry)
    : Result (gmap string ListedVersionEntry) :=
  _ ← ensure (bool_decide (m !! lve_key entry = None))
        "authenticated history produced multiple expected latest entries";
  ok (<[lve_key entry := entry]> m).

Definition expected_version_step (m : gmap (string * string) CommittedVersion)
    (v : CommittedVersion) : Result (gmap (string * string) CommittedVersion) :=
  _ ← ensure (bool_decide (m !! (cv_key v, cv_version_id v) = None))
        ("authenticated history repeats committed version " +:+ version_reference v);
  ok (<[(cv_key v, cv_version_id v) := v]> m).

Definition is_version_get (r : OperationRecord) : bool :=
  bool_decide (op_kind r = OperationKind.Get) && bool_decide (op_version_id r ≠ None).
Definition version_get_step (gets : gmap (string * string) OperationRecord) (r : OperationRecord)
    : Result (gmap (string * string) OperationRecord) :=
  key ← context (op_key r) "version GET has no key";
  version_id ← expect (op_version_id r);
  _ ← ensure (bool_decide (gets !! (key, version_id) = None))
        ("checker issued duplicate GETs for " +:+ key +:+ "@" +:+ version_id);
  ok (<[(key, version_id) := r]> gets).

(** One committed version: its GET, its place in the listing and its audit. *)
Definition authenticate_committed_version (gets : gmap (string * string) OperationRecord)
    (listed : gset (string * string)) (audits : list CheckerDataVersionAudit)
    (e : string * string * CommittedVersion) : Result (list CheckerDataVersionAudit) :=
  let '(identity, expected) := e in
  r ← expect (gets !! identity);
  _ ← ensure (answered_200 r && bool_decide (op_value_sha256 r = Some (cv_sha256 expected))
              && bool_decide (op_size_bytes r = Some (cv_size_bytes expected)))
        ("checker version GET for " +:+ version_reference expected
         +:+ " does not match committed content");
  _ ← ensure (bool_decide ((cv_key expected, cv_version_id expected) ∈ listed))
        ("ListObjectVersions omitted committed version " +:+ version_reference expected);
  ok (audits ++ [mkCheckerDataVersionAudit (cv_key expected) (cv_version_id expected)
                   (cv_sha256 expected) (op_value_sha256 r) (op_outcome r) (op_http_status r)]).

(** One uncommitted version: it must consume a write attempt. *)
Record UncommittedVersions := mkUncommittedVersions {
  uv_active : gset (string * string);
  uv_evidence : gset string;
  uv_sources : VersionWriteSourceIndex;
}.
Definition authenticate_uncommitted_version (m : ObjectModel)
    (latest : gmap (string * string) bool) (reported : gset string) (st : UncommittedVersions)
    (e : string * string * OperationRecord) : Result UncommittedVersions :=
  let '(identity, r) := e in
  let reference := identity.1 +:+ "@" +:+ identity.2 in
  _ ← ensure (answered_200 r)
        ("checker ambiguous-version GET for " +:+ reference +:+ " did not succeed");
  actual ← observed_value "checker ambiguous-version GET" r;
  _ ← context (om_version_write_sources m !! identity.1)
        ("checker GET authenticated no retry-capable write for " +:+ reference);
  p ← take_source (uv_sources st) identity.1 actual (default false (latest !! identity));
  source ← context p.1
    ("checker uncommitted-version GET for " +:+ reference
     +:+ " exceeds its retry-capable write budget or matches no write");
  let evidence := ambiguous_version_materialized_from_object_message identity.1 identity.2
                    (vwm_attempt source) actual in
  _ ← ensure (bool_decide (evidence ∈ reported))
        "checker report omits authenticated retry-created version materialization";
  ok (mkUncommittedVersions
        (if vwm_active source then {[identity]} ∪ uv_active st else uv_active st)
        ({[evidence]} ∪ uv_evidence st) p.2).

Definition version_order (latest : gmap (string * string) bool)
    (e : string * string * OperationRecord) : string * (bool * string) :=
  (e.1.1, (negb (default false (latest !! e.1)), e.1.2)).

(** The latest entry of one expected key. *)
Definition authenticate_latest (m : ObjectModel) (tolerated : gset string)
    (committed : list (string * string)) (expected_latest actual_latest : gmap string ListedVersionEntry)
    (active : gset (string * string)) (key : string) : Result unit :=
  actual ← expect (actual_latest !! key);
  let novel := novel_ambiguous_delete_marker key (lve_is_delete_marker actual)
                 (lve_version_id actual) committed in
  let matches_committed :=
    match expected_latest !! key with
    | Some expected => bool_decide (lve_version_id actual = lve_version_id expected)
                       && Bool.eqb (lve_is_delete_marker actual) (lve_is_delete_marker expected)
    | None => false
    end in
  let matches_active_ambiguous :=
    negb (lve_is_delete_marker actual)
    && from_option (λ version_id, bool_decide ((key, version_id) ∈ active)) false
         (lve_version_id actual) in
  if bool_decide (key ∈ tolerated) then
    ensure novel ("tolerated ambiguous delete " +:+ key +:+ " is not a novel latest delete marker")
  else if bool_decide (key ∈ om_ambiguous_delete_lineage_pending m) then
    ensure (matches_committed || matches_active_ambiguous || novel)
      ("latest version for " +:+ key
       +:+ " does not match its committed, ambiguous write, or ambiguous DELETE lineage")
  else
    ensure (matches_committed || matches_active_ambiguous)
      ("latest version for " +:+ key +:+ " does not match authenticated history").

Definition authenticate_delete_marker (listed : gset (string * string))
    (audits : list CheckerDeleteMarkerAudit) (marker : CommittedDeleteMarker)
    : Result (list CheckerDeleteMarkerAudit) :=
  _ ← ensure (bool_decide ((cdm_key marker, cdm_version_id marker) ∈ listed))
        ("ListObjectVersions omitted committed delete marker " +:+ cdm_key marker +:+ "@"
         +:+ cdm_version_id marker);
  ok (audits ++ [mkCheckerDeleteMarkerAudit (cdm_key marker) (cdm_version_id marker) true]).

(** [v[0]] of a list of length one. *)
Definition the_only {A} (l : list A) (message : string) : Result A :=
  match l with [x] => ok x | _ => err message end.

Definition versioned_suffix_evidence (report : CheckerReport)
    (prefix suffix : list OperationRecord) (tolerated : gset string) (audit : CheckerAudit)
    (listed_versions : list ListedVersionEntry) : Result (gset string) :=
  listed ← try_fold listed_version_step (mkListedVersions ∅ ∅ ∅ ∅) listed_versions;
  let lineage := committed_version_lineage prefix in
  let m := object_model prefix in
  let conflicts := listed_version_lineage_conflicts prefix lineage listed_versions in
  _ ← ensure (bool_decide (vl_missing_version_id_count lineage = 0%N)
              && is_empty (vl_delete_marker_lineage_incomplete lineage)
              && is_empty (vl_multipart_upload_lineage_incomplete lineage)
              && is_empty conflicts)
        "authenticated versioned history has incomplete committed lineage";
  expected_latest ← try_fold expected_latest_step ∅
    (filter (λ e, lve_is_latest e = true) (listed_elems (checker_expected_version_listing prefix)));
  _ ← ensure (bool_decide (cr_expected_committed_versions report = len (vl_versions lineage))
              && bool_decide (cr_verified_committed_versions report = len (vl_versions lineage)))
        "checker committed-version counts do not match authenticated history";
  expected_version_gets ← try_fold expected_version_step ∅ (vl_versions lineage);
  actual_version_gets ← try_fold version_get_step ∅ (filter is_version_get suffix);
  _ ← ensure (bool_decide (dom actual_version_gets = lv_data_versions listed))
        "checker version GET coverage does not match ListObjectVersions data entries";
  _ ← ensure (bool_decide (dom expected_version_gets ⊆ dom actual_version_gets))
        "checker version GET coverage omits a committed version";
  data_version_audits ← try_fold
    (authenticate_committed_version actual_version_gets (lv_data_versions listed)) []
    (map_entries expected_version_gets);
  let uncommitted :=
    sort_by_key (version_order (lv_data_latest listed))
      (filter (λ e, expected_version_gets !! e.1 = None) (map_entries actual_version_gets)) in
  uv ← try_fold
    (authenticate_uncommitted_version m (lv_data_latest listed)
       (to_set (cr_unknown_writes_materialized report)))
    (mkUncommittedVersions ∅ ∅ (from_sources (om_version_write_sources m))) uncommitted;
  let expected_latest_keys : gset string :=
    dom expected_latest ∪ to_set ((elements (uv_active uv)).*1) in
  _ ← ensure (bool_decide (dom (lv_actual_latest listed) = expected_latest_keys))
        "ListObjectVersions latest-key set does not match authenticated history";
  _ ← try_fold (λ _ key,
        authenticate_latest m tolerated (committed_identities (vl_delete_markers lineage))
          expected_latest (lv_actual_latest listed) (uv_active uv) key) tt
        (set_elems expected_latest_keys);
  _ ← ensure (bool_decide (ca_data_version_checks audit
                = sort_by_key (λ c, (cda_key c, cda_version_id c)) data_version_audits))
        "checker data-version audit summary does not match authenticated history";
  marker_audits ← try_fold (authenticate_delete_marker (lv_delete_markers listed)) []
    (vl_delete_markers lineage);
  _ ← ensure (bool_decide (ca_delete_marker_checks audit
                = sort_by_key (λ c, (cdma_key c, cdma_version_id c)) marker_audits))
        "checker delete-marker audit summary does not match authenticated history";
  ok (uv_evidence uv).

Definition validate_versioned_checker_suffix (report : CheckerReport)
    (prefix suffix : list OperationRecord) (tolerated : gset string) (prefix_key : string)
    : Result (gset string) :=
  let version_lists := prefix_operations OperationKind.ListVersions prefix_key suffix in
  if negb (cr_versioning_expected report) then
    _ ← ensure (is_empty version_lists
                && match cr_audit report with
                   | Some audit => bool_decide (ca_list_object_versions_completed audit = None)
                                   && is_empty (ca_data_version_checks audit)
                                   && is_empty (ca_delete_marker_checks audit)
                   | None => false
                   end)
          "non-versioned checker contains versioned audit evidence";
    ok ∅
  else
    version_list ← the_only version_lists
      "versioned checker audit must contain exactly one ListObjectVersions operation";
    _ ← ensure (answered_200 version_list
                && match cr_audit report with
                   | Some audit => bool_decide (ca_list_object_versions_completed audit = Some true)
                   | None => false
                   end)
          "checker ListObjectVersions did not complete successfully";
    listed_versions ← context (op_listed_versions version_list)
      "checker ListObjectVersions has no captured entries";
    audit ← context (cr_audit report) "versioned checker has no audit";
    versioned_suffix_evidence report prefix suffix tolerated audit listed_versions.

(** ** The verdict of a passing report *)
Definition validate_successful_checker_observations `{CheckerEnv} (report : CheckerReport)
    (prefix suffix : list OperationRecord) : Result unit :=
  let m := object_model prefix in
  anomalies ← successful_read_anomalies env_sha256_hex prefix;
  _ ← ensure (is_empty (ra_corrupted_reads anomalies)
              && is_empty (ra_visible_deleted_objects anomalies)
              && is_empty (ra_unknown_write_value_conflicts anomalies))
        "authenticated history prefix contains a successful-read correctness anomaly";
  let warnings := list_history_warnings prefix in
  _ ← ensure (bool_decide (cr_list_history_warning_count report = ws_total_count warnings)
              && bool_decide (cr_list_history_warnings report = ws_samples warnings))
        "checker list-history warning summary does not match authenticated history";
  _ ← ensure (bool_decide (cr_committed_puts report = om_committed_writes m))
        "checker committed_puts does not match its authenticated history prefix";
  _ ← ensure (bool_decide (cr_expected_live_objects report = N.of_nat (size (om_live m))))
        "checker expected_live_objects does not match its authenticated history prefix";
  _ ← ensure (bool_decide (cr_operation_cohorts report = operation_cohort_counts prefix))
        "checker operation_cohorts do not match its authenticated history prefix";
  _ ← ensure (bool_decide (cr_fault_window_relations report = fault_window_relation_counts prefix))
        "checker fault_window_relations do not match its authenticated history prefix";
  let tolerated := to_set (cr_tolerated_ambiguous_deletes report) in
  _ ← ensure (bool_decide (size tolerated = length (cr_tolerated_ambiguous_deletes report))
              && forallb (λ key, bool_decide (key ∈ om_ambiguous_delete_pending m)
                                 && bool_decide (is_Some (om_live m !! key))) (set_elems tolerated))
        "checker tolerated ambiguous deletes are not derived from the authenticated model";
  let prefix_key := key_prefix (cr_run_id report) in
  let expected := checker_expected_current_get_keys prefix in
  let unexplained := unexplained_listed prefix_key expected suffix in
  let tolerated_failed_writes := to_set (cr_failed_writes_materialized report) in
  _ ← ensure (bool_decide (tolerated_failed_writes = unexplained)
              && forallb (λ key, bool_decide (is_Some (om_failed_writes m !! key)))
                   (set_elems tolerated_failed_writes))
        "checker tolerated failed-write keys do not match the unexplained keys its final LIST returned";
  let expected := expected ∪ unexplained in
  gets ← collect_current_gets suffix;
  _ ← ensure (bool_decide (dom gets = expected))
        "checker current GET coverage does not match its authenticated model";
  current ← try_fold (authenticate_current_get m tolerated unexplained gets)
              (mkCurrentEvidence ∅ ∅) (set_elems expected);
  verified ← add_u64 (cr_verified_live_objects report) (N.of_nat (size tolerated));
  _ ← ensure (bool_decide (verified = N.of_nat (size (om_live m))))
        "checker verified_live_objects does not match authenticated GET evidence";
  final_list ← the_only (prefix_operations OperationKind.List prefix_key suffix)
    "checker audit must contain exactly one final prefix LIST";
  _ ← ensure (answered_200 final_list) "checker final prefix LIST did not complete successfully";
  keys ← context (op_listed_keys final_list) "checker final prefix LIST has no captured keys";
  let listed := to_set keys in
  let expected_listed :=
    (dom (om_live m) ∖ tolerated) ∪ ce_materialized current ∪ tolerated_failed_writes in
  _ ← ensure (bool_decide (listed = expected_listed)
              && bool_decide (cr_final_listed_objects report = Some (N.of_nat (size listed))))
        "checker final LIST does not match its authenticated model";
  version_evidence ← validate_versioned_checker_suffix report prefix suffix tolerated prefix_key;
  let expected_materializations :=
    to_set (ra_unknown_writes_materialized anomalies) ∪ ce_evidence current ∪ version_evidence in
  let reported := to_set (cr_unknown_writes_materialized report) in
  ensure (bool_decide (size reported = length (cr_unknown_writes_materialized report))
          && bool_decide (reported = expected_materializations))
    "checker report timeout-write materialization evidence does not match authenticated GET history".

Definition validate_checker_audit_against_history `{CheckerEnv} (report : CheckerReport)
    (history : list OperationRecord) : Result unit :=
  p ← validate_checker_audit_receipt report history;
  validate_successful_checker_observations report p.1 p.2.
