(* ===== verification/AuditFacts.v ===== *)
(** What an accepted audit proves, for a report of any origin: the operations
    recorded in the history the report is bound to are themselves evidence that
    the store was legal. *)
From S2P Require Import Prelude Ordering RustText History HistoryFacts Workload ObjectModel Attempts.
From S2P Require Import ReadAnomalies ListHistory Lineage ReadFailure Report Evaluate Checker ReportAudit.
From stdpp Require Import options.

(** ** The receipt *)
Lemma receipt_inv `{Henv : CheckerEnv} report history prefix suffix :
  validate_checker_audit_receipt report history = ok (prefix, suffix) →
  ∃ audit rest, cr_audit report = Some audit ∧ history = prefix ++ suffix ++ rest ∧
    (len prefix = ca_history_prefix_record_count audit ∧ len suffix = ca_history_suffix_record_count audit) ∧
    validate_history_scope_and_order (prefix ++ suffix) (cr_scenario report) (cr_run_id report)
      (ca_bucket audit) = ok tt ∧
    validate_history_phase_boundary prefix suffix "workload/checker" = ok tt ∧
    checker_history_records_sha256 prefix = ok (ca_history_prefix_sha256 audit) ∧
    checker_history_records_sha256 suffix = ok (ca_history_suffix_sha256 audit) ∧
    (∀ r, r ∈ suffix → is_checker_operation r = true).
Proof.
  unfold validate_checker_audit_receipt.
  intros (audit & Ha & H)%bind_context_ok. apply bind_ensure_ok in H as [_ H].
  apply bind_context_ok in H as (stop & [-> Hb]%checked_add64_Some & H).
  apply bind_ensure_ok in H as [Hlen%bool_decide_eq_true H].
  set (n := N.to_nat (ca_history_prefix_record_count audit)) in *.
  set (upto := take _ history) in *.
  apply bind_unit_ok in H as [Hscope H]. apply bind_unit_ok in H as [Hphase H].
  apply bind_ok in H as (psha & Hpsha & [Hp%bool_decide_eq_true H]%bind_ensure_ok).
  apply bind_ok in H as (ssha & Hssha & [Hs%bool_decide_eq_true H]%bind_ensure_ok).
  apply bind_ensure_ok in H as [_ H]. apply bind_ensure_ok in H as [_ H].
  apply bind_ensure_ok in H as [Hops [= <- <-]]. subst psha ssha.
  exists audit, (drop (N.to_nat (ca_history_prefix_record_count audit
    + ca_history_suffix_record_count audit)) history).
  rewrite (assoc_L (++)), !take_drop. split_and!; [done|symmetry; apply take_drop| | |done..|].
  - unfold len, n, upto in *. rewrite !length_take. lia.
  - unfold len, n, upto in *. rewrite length_drop, !length_take. lia.
  - intros r Hr. by apply (proj1 (forallb_forall _ _) Hops), list_elem_of_In.
Qed.

Lemma receipt_ok `{Henv : CheckerEnv} report audit prefix suffix :
  cr_audit report = Some audit → (ca_started_at_ms audit ≤ ca_completed_at_ms audit)%N →
  ca_history_prefix_record_count audit = len prefix → ca_history_suffix_record_count audit = len suffix →
  validate_history_scope_and_order (prefix ++ suffix) (cr_scenario report) (cr_run_id report)
    (ca_bucket audit) = ok tt →
  validate_history_phase_boundary prefix suffix "workload/checker" = ok tt →
  checker_history_records_sha256 prefix = ok (ca_history_prefix_sha256 audit) →
  checker_history_records_sha256 suffix = ok (ca_history_suffix_sha256 audit) →
  checker_operation_audits suffix = ca_suffix_operations audit →
  (∀ r, r ∈ suffix → is_checker_operation r = true ∧ within_audit report audit r = true) →
  validate_checker_audit_receipt report (prefix ++ suffix) = ok (prefix, suffix).
Proof.
  intros Ha Ht Hp Hs Hscope Hphase Hpsha Hssha Hops Hsuf. unfold validate_checker_audit_receipt.
  assert (checked_add64 (len prefix) (len suffix) = Some (len (prefix ++ suffix))) as Hadd.
  { unfold validate_history_scope_and_order, validate_history_scope_and_order_mode in Hscope.
    apply bind_ensure_ok in Hscope as [_ H]. apply bind_unit_ok in H as [_ H].
    apply bind_context_ok in H as (n & [_ Hn]%checked_mul64_Some & _).
    apply checked_add64_Some. rewrite len_app in *. split; [done|]. lia. }
  assert (∀ p : OperationRecord → bool, (∀ r, r ∈ suffix → p r = true) → forallb p suffix = true) as Hall.
  { intros p Hr. apply forallb_forall. intros r Hin%list_elem_of_In. by apply Hr. }
  rewrite bind_context_ok. exists audit. split; [done|].
  rewrite bind_ensure_ok, bool_decide_eq_true. split; [done|]. rewrite Hp, Hs, bind_context_ok.
  exists (len (prefix ++ suffix)). split; [done|].
  rewrite bind_ensure_ok, bool_decide_eq_true. split; [lia|]. unfold len.
  rewrite !Nnat.Nat2N.id, (take_ge (prefix ++ suffix)), take_app_length, drop_app_length by lia.
  rewrite !bind_unit_ok. split; [done|]. split; [done|].
  rewrite bind_ok. eexists. split; [done|]. rewrite bind_ensure_ok, bool_decide_eq_true. split; [done|].
  rewrite bind_ok. eexists. split; [done|].
  rewrite !bind_ensure_ok, !bool_decide_eq_true, !Hall; [done|by apply Hsuf..].
Qed.

(** ** The collected GETs *)

(** The GET of the current value of a key in the suffix. *)
Definition current_get (suffix : list OperationRecord) (key : string) (r : OperationRecord) : Prop :=
  r ∈ suffix ∧ is_current_get r = true ∧ op_key r = Some key.

Lemma collect_current_gets_ok suffix gets key r :
  collect_current_gets suffix = ok gets → gets !! key = Some r ↔ current_get suffix key r.
Proof.
  intros Hc. assert (gets !! key = Some r ↔ r ∈ filter is_current_get suffix ∧ op_key r = Some key) as ->.
  { revert key r. eapply (try_fold_invariant _ (λ l (g : gmap string OperationRecord),
      ∀ key r, g !! key = Some r ↔ r ∈ l ∧ op_key r = Some key)); [| |exact Hc].
    { intros key r. rewrite lookup_empty, elem_of_nil. naive_solver. }
    intros l x g g' IH (k & Hk & [Hn%bool_decide_eq_true [= <-]]%bind_ensure_ok)%bind_context_ok key r.
    rewrite elem_of_app, list_elem_of_singleton. destruct (decide (k = key)) as [->|Hne].
    - rewrite lookup_insert_eq. split; [naive_solver|]. intros [[Hin| ->] Hr]; [|done].
      exfalso. apply eq_None_not_Some in Hn. apply Hn. exists r. by apply IH.
    - rewrite lookup_insert_ne by done. rewrite IH. naive_solver. }
  unfold current_get. rewrite list_elem_of_filter, Is_true_true. tauto.
Qed.

(** ** One current GET *)
Definition recorded_value (r : OperationRecord) : option ExpectedObject :=
  sha256 ← op_value_sha256 r; size_bytes ← op_size_bytes r; Some (mkExpectedObject sha256 size_bytes).

(** The record shows an ambiguous write that may still have landed. *)
Definition shows_attempt (m : ObjectModel) (key : string) (r : OperationRecord)
    (a : AmbiguousWriteAttempt) (actual : ExpectedObject) : Prop :=
  answered_200 r = true ∧ recorded_value r = Some actual ∧
  ∃ attempts, om_unknown_writes m !! key = Some attempts ∧
    matching_active_ambiguous_object attempts actual = Some a.

(** The record is an acceptable answer that needs no ambiguous write. *)
Definition plainly_answered (m : ObjectModel) (tolerated unexplained : gset string) (key : string)
    (r : OperationRecord) : Prop :=
  match om_live m !! key with
  | Some expected =>
      if bool_decide (key ∈ tolerated) then answered_404 r = true
      else answered_200 r = true ∧ recorded_value r = Some expected
  | None =>
      match om_unknown_writes m !! key with
      | Some _ => answered_404 r = true
      | None =>
          if bool_decide (key ∈ unexplained) then
            answered_200 r = true ∧
            ∃ observed attempted, op_value_sha256 r = Some observed ∧
              om_failed_writes m !! key = Some attempted ∧ observed ∈ attempted
          else answered_404 r = true
      end
  end.
(** An ambiguous write is only looked for where the committed value is not. *)
Definition needs_attempt (m : ObjectModel) (tolerated : gset string) (key : string)
    (r : OperationRecord) : Prop :=
  match om_live m !! key with
  | Some expected => key ∉ tolerated ∧ recorded_value r ≠ Some expected
  | None => True
  end.

Lemma recorded_value_Some r v :
  recorded_value r = Some v ↔
  op_value_sha256 r = Some (eo_sha256 v) ∧ op_size_bytes r = Some (eo_size_bytes v).
Proof.
  unfold recorded_value. destruct v as [sha size], (op_value_sha256 r), (op_size_bytes r); naive_solver.
Qed.
Lemma observed_value_ok what r v : observed_value what r = ok v ↔ recorded_value r = Some v.
Proof.
  unfold observed_value, recorded_value. destruct (op_value_sha256 r), (op_size_bytes r); naive_solver.
Qed.
Lemma answered_both r : answered_200 r = true → answered_404 r = true → False.
Proof.
  unfold answered_200, answered_404, answered. rewrite !andb_true_iff, !bool_decide_eq_true.
  intros [H1 _] [H2 _]. congruence.
Qed.

Lemma authenticate_current_get_ok m tolerated unexplained gets st key st' :
  authenticate_current_get m tolerated unexplained gets st key = ok st' ↔
  ∃ r, gets !! key = Some r ∧
    ((plainly_answered m tolerated unexplained key r ∧ st' = st) ∨
     (needs_attempt m tolerated key r ∧ ∃ a actual, shows_attempt m key r a actual ∧
        st' = note_materialized st key a actual)).
Proof.
  unfold authenticate_current_get. rewrite bind_context_ok. apply exist_proper. intros r.
  apply and_iff_compat_l. unfold plainly_answered, needs_attempt, shows_attempt.
  destruct (om_live m !! key) as [expected|] eqn:Hlive.
  - case_bool_decide as Ht.
    + rewrite bind_ensure_ok. split; [intros [? [= <-]]; by left|]. intros [[? ->]|[[? _] _]]; done.
    + destruct (answered_200 r && _ && _) eqn:Hc.
      * rewrite !andb_true_iff, !bool_decide_eq_true in Hc. destruct Hc as [[Hc H1] H2].
        assert (recorded_value r = Some expected) as Hv by (by apply recorded_value_Some).
        split; [intros [= <-]; by left|]. intros [[_ ->]|[[_ Hn] _]]; done.
      * assert (¬ (answered_200 r = true ∧ recorded_value r = Some expected)) as Hn.
        { intros [H1 [H2 H3]%recorded_value_Some]. rewrite H1, H2, H3 in Hc.
          rewrite !bool_decide_eq_true_2 in Hc by done. done. }
        rewrite bind_ok. setoid_rewrite observed_value_ok. setoid_rewrite bind_context_ok.
        setoid_rewrite bind_context_ok. setoid_rewrite bind_ensure_ok. split.
        -- intros (actual & Hv & attempts & Hu & a & Ha & H2 & [= <-]). right. split.
           ++ split; [done|]. rewrite Hv. intros [= ->]. tauto.
           ++ exists a, actual. eauto 10.
        -- intros [[? _]|[_ (a & actual & (H2 & Hv & attempts & Hu & Ha) & ->)]]; [done|].
           exists actual. split; [done|]. exists attempts. split; [done|]. exists a. done.
  - destruct (om_unknown_writes m !! key) as [attempts|] eqn:Hu.
    + destruct (answered_200 r) eqn:H2.
      * rewrite bind_ok. setoid_rewrite observed_value_ok. setoid_rewrite bind_context_ok. split.
        -- intros (actual & Hv & a & Ha & [= <-]). right. split; [done|]. eauto 10.
        -- intros [[H4 _]|[_ (a & actual & (_ & Hv & ? & [= <-] & Ha) & ->)]].
           ++ exfalso. by eapply answered_both.
           ++ exists actual. split; [done|]. by exists a.
      * rewrite bind_ensure_ok. split; [intros [? [= <-]]; by left|].
        by intros [[? ->]|[_ (? & ? & [? _] & _)]].
    + case_bool_decide as Hx; rewrite bind_ensure_ok.
      * rewrite andb_true_iff. split.
        -- intros [[H2 Hm] [= <-]]. left. split; [|done]. split; [done|].
           destruct (op_value_sha256 r) as [sha|], (om_failed_writes m !! key) as [att|]; try done.
           apply bool_decide_eq_true in Hm. eauto 10.
        -- intros [[(H2 & sha & att & -> & -> & Hin) ->]|[_ (? & ? & (_ & _ & ? & ? & _) & _)]]; [|done].
           by rewrite bool_decide_eq_true_2.
      * split; [intros [? [= <-]]; by left|].
        by intros [[? ->]|[_ (? & ? & (_ & _ & ? & ? & _) & _)]].
Qed.

(** ** All current GETs *)
Section current.
Context (m : ObjectModel) (tolerated unexplained : gset string).
Context (gets : gmap string OperationRecord).

Definition answered_by_attempt (key : string) (a : AmbiguousWriteAttempt) (actual : ExpectedObject)
    : Prop :=
  ∃ r, gets !! key = Some r ∧ needs_attempt m tolerated key r ∧ shows_attempt m key r a actual.
Definition answered_plainly (key : string) : Prop :=
  ∃ r, gets !! key = Some r ∧ plainly_answered m tolerated unexplained key r.

Lemma answers_exclusive key a actual :
  answered_plainly key → ¬ answered_by_attempt key a actual.
Proof using Type.
  intros (r & Hr & Hp) (r' & Hr' & Hn & (H2 & Hv & attempts & Hu & _)). simplify_eq.
  unfold plainly_answered, needs_attempt in *. destruct (om_live m !! key).
  - destruct Hn as [Ht Hn]. rewrite bool_decide_eq_false_2 in Hp by done. by destruct Hp.
  - rewrite Hu in Hp. by eapply answered_both.
Qed.
Lemma answered_by_attempt_unique key a a' actual actual' :
  answered_by_attempt key a actual → answered_by_attempt key a' actual' → a = a' ∧ actual = actual'.
Proof using Type.
  intros (r & Hr & _ & (_ & Hv & at1 & Hu & Ha)) (r' & Hr' & _ & (_ & Hv' & at2 & Hu' & Ha')).
  simplify_eq. done.
Qed.

Record current_evidence (keys : list string) (current : CurrentEvidence) : Prop := {
  cur_answers : ∀ key, key ∈ keys → answered_plainly key ∨ ∃ a actual, answered_by_attempt key a actual;
  cur_materialized : ∀ key, key ∈ ce_materialized current ↔
    key ∈ keys ∧ ∃ a actual, answered_by_attempt key a actual;
  cur_evidence : ∀ message, message ∈ ce_evidence current ↔
    ∃ key a actual, key ∈ keys ∧ answered_by_attempt key a actual ∧
      message = ambiguous_write_materialized_from_object_message key a actual;
}.

Lemma current_evidence_plain keys current key :
  current_evidence keys current → answered_plainly key → current_evidence (keys ++ [key]) current.
Proof using Type.
  intros [Ha Hm He] Hp. pose proof (answers_exclusive key) as Hx. split.
  - intros k [?| ->%list_elem_of_singleton]%elem_of_app; eauto.
  - intros k. rewrite Hm, elem_of_app, list_elem_of_singleton. naive_solver.
  - intros message. rewrite He. setoid_rewrite elem_of_app. setoid_rewrite list_elem_of_singleton.
    naive_solver.
Qed.
Lemma current_evidence_attempt keys current key a actual :
  current_evidence keys current → answered_by_attempt key a actual →
  current_evidence (keys ++ [key]) (note_materialized current key a actual).
Proof using Type.
  intros [Ha Hm He] Hp. split; simpl.
  - intros k [?| ->%list_elem_of_singleton]%elem_of_app; eauto.
  - intros k. rewrite elem_of_union, elem_of_singleton, Hm, elem_of_app, list_elem_of_singleton.
    naive_solver.
  - intros message. rewrite elem_of_union, elem_of_singleton, He. split.
    + intros [->|(k & a' & o & ? & ? & ?)]; [exists key, a, actual|exists k, a', o]; set_solver.
    + intros (k & a' & o & [Hk| ->%list_elem_of_singleton]%elem_of_app & Hby & ->); [right; eauto 10|].
      left. by destruct (answered_by_attempt_unique _ _ _ _ _ Hp Hby) as [-> ->].
Qed.

Lemma authenticate_all_ok keys current :
  try_fold (authenticate_current_get m tolerated unexplained gets) (mkCurrentEvidence ∅ ∅) keys
    = ok current → current_evidence keys current.
Proof using Type.
  apply (try_fold_invariant _ current_evidence).
  { split; simpl; set_solver. }
  intros l key st st' IH (r & Hr & [[Hp ->]|(Hn & a & actual & Hs & ->)])%authenticate_current_get_ok.
  - apply current_evidence_plain; [done|]. by exists r.
  - apply current_evidence_attempt; [done|]. by exists r.
Qed.
Lemma authenticate_all_total keys :
  (∀ key, key ∈ keys → answered_plainly key ∨ ∃ a actual, answered_by_attempt key a actual) →
  ∃ current, try_fold (authenticate_current_get m tolerated unexplained gets)
    (mkCurrentEvidence ∅ ∅) keys = ok current.
Proof using Type.
  generalize (mkCurrentEvidence ∅ ∅). induction keys as [|key keys IH]; intros st Hk; [by eexists|].
  assert (∃ st', authenticate_current_get m tolerated unexplained gets st key = ok st') as [st' Hst'].
  { setoid_rewrite authenticate_current_get_ok.
    destruct (Hk key) as [(r & Hr & Hp)|(a & actual & r & Hr & Hn & Hs)]; [left|eauto 10|].
    eexists _, r. split; [done|]. right. eauto 10. }
  cbn [try_fold]. rewrite Hst'. apply IH. intros k ?. apply Hk. by right.
Qed.
End current.

Lemma the_only_ok {A} (l : list A) message x : the_only l message = ok x ↔ l = [x].
Proof. destruct l as [|y [|z l]]; naive_solver. Qed.

Lemma elem_of_expected_gets records key :
  key ∈ checker_expected_current_get_keys records ↔
  let m := object_model records in
  is_Some (om_live m !! key) ∨ is_Some (om_unknown_writes m !! key) ∨
  (key ∈ om_deleted m ∧ om_unknown_writes m !! key = None).
Proof.
  unfold checker_expected_current_get_keys.
  rewrite !elem_of_union, !elem_of_dom, elem_of_to_set, list_elem_of_filter, elem_of_set_elems. naive_solver.
Qed.

(** ** What the recorded operations show *)
Record audited_store (m : ObjectModel) (prefix_key : string) (suffix : list OperationRecord)
    (tolerated keys : list string) : Prop := {
  as_listing : ∃ r, prefix_operations OperationKind.List prefix_key suffix = [r] ∧
    answered_200 r = true ∧ op_listed_keys r = Some keys;
  as_live : ∀ key expected, om_live m !! key = Some expected → ∃ r, current_get suffix key r ∧
    ((key ∈ tolerated ∧ key ∈ om_ambiguous_delete_pending m ∧ answered_404 r = true ∧ key ∉ keys) ∨
     (key ∈ keys ∧ answered_200 r = true ∧
      (recorded_value r = Some expected ∨ ∃ a actual, shows_attempt m key r a actual)));
  as_unknown : ∀ key, om_live m !! key = None → is_Some (om_unknown_writes m !! key) →
    ∃ r, current_get suffix key r ∧
      ((answered_404 r = true ∧ key ∉ keys) ∨ (key ∈ keys ∧ ∃ a actual, shows_attempt m key r a actual));
  as_deleted : ∀ key, key ∈ om_deleted m → om_live m !! key = None → om_unknown_writes m !! key = None →
    ∃ r, current_get suffix key r ∧ answered_404 r = true ∧ key ∉ keys;
  as_listed : ∀ key, key ∈ keys →
    is_Some (om_live m !! key) ∨ is_Some (om_unknown_writes m !! key) ∨
    ∃ r observed attempted, current_get suffix key r ∧ answered_200 r = true ∧
      op_value_sha256 r = Some observed ∧ om_failed_writes m !! key = Some attempted ∧
      observed ∈ attempted;
}.

(** ** The verdict of a passing report *)
Section observations.
Context `{Henv : CheckerEnv}.

(** The counters and summaries a report derives from the history alone. *)
Record header_matches (report : CheckerReport) (prefix : list OperationRecord) : Prop := {
  hm_list_count : cr_list_history_warning_count report = ws_total_count (list_history_warnings prefix);
  hm_list_samples : cr_list_history_warnings report = ws_samples (list_history_warnings prefix);
  hm_puts : cr_committed_puts report = om_committed_writes (object_model prefix);
  hm_live : cr_expected_live_objects report = N.of_nat (size (om_live (object_model prefix)));
  hm_cohorts : cr_operation_cohorts report = operation_cohort_counts prefix;
  hm_relations : cr_fault_window_relations report = fault_window_relation_counts prefix;
}.
Definition clean_reads (a : ReadAnomalies) : Prop :=
  ra_corrupted_reads a = [] ∧ ra_visible_deleted_objects a = [] ∧
  ra_unknown_write_value_conflicts a = [].

Record accepted (report : CheckerReport) (prefix suffix : list OperationRecord)
    (anomalies : ReadAnomalies) (gets : gmap string OperationRecord) (current : CurrentEvidence)
    (final_list : OperationRecord) (keys : list string) (versions : gset string) : Prop := {
  ac_anomalies : successful_read_anomalies env_sha256_hex prefix = ok anomalies ∧ clean_reads anomalies;
  ac_header : header_matches report prefix;
  ac_tolerated : NoDup (cr_tolerated_ambiguous_deletes report) ∧
    ∀ key, key ∈ cr_tolerated_ambiguous_deletes report →
      key ∈ om_ambiguous_delete_pending (object_model prefix) ∧
      is_Some (om_live (object_model prefix) !! key);
  ac_failed : to_set (cr_failed_writes_materialized report)
      = unexplained_listed (key_prefix (cr_run_id report)) (checker_expected_current_get_keys prefix) suffix ∧
    ∀ key, key ∈ cr_failed_writes_materialized report →
      is_Some (om_failed_writes (object_model prefix) !! key);
  ac_gets : collect_current_gets suffix = ok gets ∧
    dom gets = checker_expected_current_get_keys prefix
               ∪ to_set (cr_failed_writes_materialized report);
  ac_current : try_fold (authenticate_current_get (object_model prefix)
      (to_set (cr_tolerated_ambiguous_deletes report)) (to_set (cr_failed_writes_materialized report)) gets)
      (mkCurrentEvidence ∅ ∅) (set_elems (dom gets)) = ok current;
  ac_verified : add_u64 (cr_verified_live_objects report)
      (N.of_nat (size (to_set (cr_tolerated_ambiguous_deletes report))))
      = ok (N.of_nat (size (om_live (object_model prefix))));
  ac_list : prefix_operations OperationKind.List (key_prefix (cr_run_id report)) suffix = [final_list] ∧
    answered_200 final_list = true ∧ op_listed_keys final_list = Some keys;
  ac_listed : to_set keys = (dom (om_live (object_model prefix)) ∖ to_set (cr_tolerated_ambiguous_deletes report))
      ∪ ce_materialized current ∪ to_set (cr_failed_writes_materialized report) ∧
    cr_final_listed_objects report = Some (N.of_nat (size (to_set keys)));
  ac_versions : validate_versioned_checker_suffix report prefix suffix
      (to_set (cr_tolerated_ambiguous_deletes report)) (key_prefix (cr_run_id report)) = ok versions;
  ac_evidence : NoDup (cr_unknown_writes_materialized report) ∧
    to_set (cr_unknown_writes_materialized report)
      = to_set (ra_unknown_writes_materialized anomalies) ∪ ce_evidence current ∪ versions;
}.

Lemma forallb_set_elems (p : string → bool) (l : list string) :
  forallb p (set_elems (to_set l)) = true ↔ ∀ key, key ∈ l → p key = true.
Proof using Type.
  rewrite forallb_forall. split; intros H key Hk.
  - apply H, list_elem_of_In. by rewrite elem_of_set_elems, elem_of_to_set.
  - apply H. by rewrite <-elem_of_to_set, <-elem_of_set_elems, list_elem_of_In.
Qed.

Lemma observations_inv report prefix suffix :
  validate_successful_checker_observations report prefix suffix = ok tt →
  ∃ anomalies gets current final_list keys versions,
    accepted report prefix suffix anomalies gets current final_list keys versions.
Proof using Type.
  unfold validate_successful_checker_observations. intros (anomalies & Ha & H)%bind_ok.
  apply bind_ensure_ok in H as [Hclean H]. do 5 apply bind_ensure_ok in H as [? H].
  apply bind_ensure_ok in H as [[Ht1%bool_decide_eq_true Ht2]%andb_true_iff H].
  apply bind_ensure_ok in H as [[Hf1%bool_decide_eq_true Hf2]%andb_true_iff H].
  apply bind_ok in H as (gets & Hgets & [Hdom%bool_decide_eq_true H]%bind_ensure_ok).
  apply bind_ok in H as (current & Hcur & H).
  apply bind_ok in H as (verified & Hver & [->%bool_decide_eq_true H]%bind_ensure_ok).
  apply bind_ok in H as (final & Hfinal%the_only_ok & [H200 H]%bind_ensure_ok).
  apply bind_context_ok in H as (keys & Hkeys & [[Hl1%bool_decide_eq_true Hl2%bool_decide_eq_true]%andb_true_iff H]%bind_ensure_ok).
  apply bind_ok in H as (versions & Hv & H). rewrite ensure_ok, andb_true_iff, !bool_decide_eq_true in H.
  rewrite !andb_true_iff, !is_empty_true in Hclean.
  repeat match goal with H : _ && _ = true |- _ => apply andb_true_iff in H as [? ?] end.
  repeat match goal with H : bool_decide _ = true |- _ => apply bool_decide_eq_true in H end.
  exists anomalies, gets, current, final, keys, versions.
  rewrite <-Hf1 in Hdom, Hcur. rewrite <-Hdom in Hcur. rewrite to_set_size in Ht1, H.
  split; try done; try tauto.
  - unfold clean_reads. tauto.
  - split; [done|]. intros key Hk. pose proof (proj1 (forallb_set_elems _ _) Ht2 key Hk) as Hp.
    by rewrite andb_true_iff, !bool_decide_eq_true in Hp.
  - split; [done|]. intros key Hk. pose proof (proj1 (forallb_set_elems _ _) Hf2 key Hk) as Hp.
    by rewrite bool_decide_eq_true in Hp.
Qed.

Lemma accepted_ok report prefix suffix anomalies gets current final_list keys versions :
  accepted report prefix suffix anomalies gets current final_list keys versions →
  validate_successful_checker_observations report prefix suffix = ok tt.
Proof using Type.
  intros [[Ha (H1 & H2 & H3)] [] [Ht1 Ht2] [Hf1 Hf2] [Hg Hd] Hcur Hver (Hl & H200 & Hk) [Hl1 Hl2] Hv [He1 He2]].
  unfold validate_successful_checker_observations. rewrite Ha. run_result.
  rewrite bind_ensure_ok, H1, H2, H3. split; [done|].
  do 5 (rewrite bind_ensure_ok, ?andb_true_iff, ?bool_decide_eq_true; split; [done|]).
  rewrite bind_ensure_ok, andb_true_iff, bool_decide_eq_true, to_set_size. split.
  { split; [done|]. apply forallb_set_elems. intros key Hkey.
    rewrite andb_true_iff, !bool_decide_eq_true. by apply Ht2. }
  rewrite bind_ensure_ok, andb_true_iff, bool_decide_eq_true. split.
  { split; [done|]. apply forallb_set_elems. intros key Hkey. by apply bool_decide_eq_true, Hf2. }
  rewrite bind_ok. exists gets. split; [done|]. rewrite <-Hf1, <-Hd.
  rewrite bind_ensure_ok, bool_decide_eq_true. split; [done|].
  rewrite bind_ok. exists current. split; [done|]. rewrite bind_ok. eexists. split; [done|].
  rewrite bind_ensure_ok, bool_decide_eq_true. split; [done|].
  rewrite bind_ok. exists final_list. split; [by rewrite Hl|]. rewrite bind_ensure_ok. split; [done|].
  rewrite bind_context_ok. exists keys. split; [done|].
  rewrite bind_ensure_ok, andb_true_iff, !bool_decide_eq_true. split; [done|].
  rewrite bind_ok. exists versions. split; [done|].
  by rewrite ensure_ok, andb_true_iff, !bool_decide_eq_true, to_set_size.
Qed.

(** The consequences of [accepted] for the expected keys. *)
Section accepted.
Context (report : CheckerReport) (prefix suffix : list OperationRecord) (anomalies : ReadAnomalies).
Context (gets : gmap string OperationRecord) (current : CurrentEvidence) (final_list : OperationRecord).
Context (keys : list string) (versions : gset string).
Context (Hacc : accepted report prefix suffix anomalies gets current final_list keys versions).
Local Abbreviation m := (object_model prefix).
Local Abbreviation tol := (cr_tolerated_ambiguous_deletes report).
Local Abbreviation failed := (to_set (cr_failed_writes_materialized report)).

Lemma expected_not_failed key : key ∈ checker_expected_current_get_keys prefix → key ∉ failed.
Proof using Hacc.
  intros Hk. rewrite (proj1 (ac_failed _ _ _ _ _ _ _ _ _ Hacc)). unfold unexplained_listed.
  rewrite elem_of_to_set, list_elem_of_filter. tauto.
Qed.
Lemma expected_collected key : key ∈ checker_expected_current_get_keys prefix → key ∈ dom gets.
Proof using Hacc. rewrite (proj2 (ac_gets _ _ _ _ _ _ _ _ _ Hacc)). apply elem_of_union_l. Qed.
Lemma listed_iff key :
  key ∈ keys ↔ (is_Some (om_live m !! key) ∧ key ∉ tol)
    ∨ (key ∈ dom gets ∧ ∃ a actual, answered_by_attempt m (to_set tol) gets key a actual) ∨ key ∈ failed.
Proof using Hacc.
  destruct (authenticate_all_ok _ _ _ _ _ _ (ac_current _ _ _ _ _ _ _ _ _ Hacc)) as [_ Hmat _].
  rewrite <-(elem_of_to_set key keys), (proj1 (ac_listed _ _ _ _ _ _ _ _ _ Hacc)), !elem_of_union, Hmat,
    elem_of_difference, elem_of_dom, elem_of_to_set, elem_of_set_elems. tauto.
Qed.
Lemma answered_either key :
  key ∈ dom gets → ∃ r, current_get suffix key r ∧ gets !! key = Some r ∧
    (plainly_answered m (to_set tol) failed key r ∨
     ∃ a actual, needs_attempt m (to_set tol) key r ∧ shows_attempt m key r a actual).
Proof using Hacc.
  intros Hk. destruct (authenticate_all_ok _ _ _ _ _ _ (ac_current _ _ _ _ _ _ _ _ _ Hacc)) as [Hans _ _].
  destruct (proj1 (elem_of_dom _ _) Hk) as [r Hr]. exists r.
  split; [by apply (collect_current_gets_ok _ gets); [apply (ac_gets _ _ _ _ _ _ _ _ _ Hacc)|]|].
  split; [done|]. destruct (Hans key) as [(r' & Hr' & Hp)|(a & actual & r' & Hr' & Hn & Hs)];
    [by apply elem_of_set_elems|left|right; exists a, actual]; by simplify_eq.
Qed.
(** A key answered without an ambiguous write is listed only for another reason. *)
Lemma plain_not_listed key r :
  gets !! key = Some r → plainly_answered m (to_set tol) failed key r →
  key ∈ checker_expected_current_get_keys prefix → key ∈ keys → is_Some (om_live m !! key) ∧ key ∉ tol.
Proof using Hacc.
  intros Hr Hp Hk [?|[[_ (a & actual & Hby)]|Hf]]%listed_iff; [done| |].
  - exfalso. eapply answers_exclusive; [|exact Hby]. by exists r.
  - by destruct (expected_not_failed key).
Qed.
Lemma attempt_listed key r a actual :
  gets !! key = Some r → needs_attempt m (to_set tol) key r → shows_attempt m key r a actual → key ∈ keys.
Proof using Hacc.
  intros Hr Hn Hs. apply listed_iff. right. left. split; [by eapply elem_of_dom_2|].
  exists a, actual, r. done.
Qed.

Lemma accepted_audited : audited_store m (key_prefix (cr_run_id report)) suffix tol keys.
Proof using Hacc.
  split.
  - exists final_list. apply (ac_list _ _ _ _ _ _ _ _ _ Hacc).
  - intros key e He.
    assert (key ∈ checker_expected_current_get_keys prefix) as Hk
      by (apply elem_of_expected_gets; left; by eexists).
    destruct (answered_either key (expected_collected _ Hk)) as (r & Hcg & Hr & [Hp|(a & actual & Hn & Hs)]).
    + exists r. split; [done|]. pose proof (plain_not_listed key r Hr Hp Hk) as Hl. unfold plainly_answered in Hp.
      rewrite He in Hp. case_bool_decide as Ht; rewrite elem_of_to_set in Ht; [left|right].
      * split_and!; [done|by apply (ac_tolerated _ _ _ _ _ _ _ _ _ Hacc)|done|tauto].
      * destruct Hp. split_and!; [|done|by left]. apply listed_iff. left. split; [by eexists|done].
    + exists r. split; [done|]. right. pose proof Hs as (H2 & _).
      split_and!; [by eapply attempt_listed|done|]. right. by exists a, actual.
  - intros key Hl Hu.
    assert (key ∈ checker_expected_current_get_keys prefix) as Hk
      by (apply elem_of_expected_gets; by right; left).
    destruct (answered_either key (expected_collected _ Hk)) as (r & Hcg & Hr & [Hp|(a & actual & Hn & Hs)]).
    + exists r. split; [done|]. left. split.
      * unfold plainly_answered in Hp. rewrite Hl in Hp. destruct Hu as [? Hu]. by rewrite Hu in Hp.
      * intros [[? ?] _]%(plain_not_listed key r Hr Hp Hk). congruence.
    + exists r. split; [done|]. right. split; [by eapply attempt_listed|by exists a, actual].
  - intros key Hd Hl Hu.
    assert (key ∈ checker_expected_current_get_keys prefix) as Hk
      by (apply elem_of_expected_gets; by do 2 right).
    destruct (answered_either key (expected_collected _ Hk))
      as (r & Hcg & Hr & [Hp|(a & actual & _ & (_ & _ & ? & ? & _))]); [|congruence].
    exists r. split_and!; [done| |by intros [[? ?] _]%(plain_not_listed key r Hr Hp Hk); congruence].
    unfold plainly_answered in Hp. rewrite Hl, Hu, bool_decide_eq_false_2 in Hp; [done|].
    by apply expected_not_failed.
  - intros key [[? _]|[[_ (a & act & ? & _ & _ & _ & _ & ? & Hu & _)]|Hf]]%listed_iff; [by left| |].
    { right. left. rewrite Hu. by eexists. }
    destruct (om_live m !! key) eqn:Hl; [left; by eexists|].
    destruct (om_unknown_writes m !! key) eqn:Hu; [right; left; by eexists|]. right. right.
    assert (key ∈ dom gets) as Hk
      by (rewrite (proj2 (ac_gets _ _ _ _ _ _ _ _ _ Hacc)); by apply elem_of_union_r).
    destruct (answered_either key Hk) as (r & Hcg & Hr & [Hp|(a & actual & _ & (_ & _ & ? & ? & _))]); [|congruence].
    exists r. unfold plainly_answered in Hp. rewrite Hl, Hu, bool_decide_eq_true_2 in Hp by done.
    destruct Hp as (H2 & sha & att & ? & ? & ?). by exists sha, att.
Qed.
End accepted.
End observations.

(** C6. Whatever report it is given, an accepted audit proves the store legal from the
    recorded operations alone: the history begins with a prefix and a suffix of exactly
    the record counts the report says, which have its digests, the reads before the
    check were clean, every live key was answered by a recorded GET with its value or an
    ambiguous write and is listed (or is a tolerated pending delete), unsettled and
    deleted keys are answered and listed consistently, and every listed key is
    explained. *)
Theorem audit_proves_legal_store `{Henv : CheckerEnv} report history :
  validate_checker_audit_against_history report history = ok tt →
  ∃ audit prefix suffix rest keys anomalies,
    cr_audit report = Some audit ∧ history = prefix ++ suffix ++ rest ∧
    len prefix = ca_history_prefix_record_count audit ∧ len suffix = ca_history_suffix_record_count audit ∧
    checker_history_records_sha256 prefix = ok (ca_history_prefix_sha256 audit) ∧
    checker_history_records_sha256 suffix = ok (ca_history_suffix_sha256 audit) ∧
    successful_read_anomalies env_sha256_hex prefix = ok anomalies ∧ clean_reads anomalies ∧
    audited_store (object_model prefix) (key_prefix (cr_run_id report)) suffix
      (cr_tolerated_ambiguous_deletes report) keys.
Proof.
  unfold validate_checker_audit_against_history. intros ([prefix suffix] & Hrec & Hobs)%bind_ok.
  apply receipt_inv in Hrec as (audit & rest & Ha & Hh & [Hlp Hls] & _ & _ & Hp & Hs & _).
  apply observations_inv in Hobs as (anomalies & gets & current & final & keys & versions & Hacc).
  exists audit, prefix, suffix, rest, keys, anomalies. split_and!; try done; try apply (ac_anomalies _ _ _ _ _ _ _ _ _ Hacc).
  by eapply accepted_audited.
Qed.
