(* ===== verification/AuditVersionFacts.v ===== *)
(** What an accepted audit of a versioned bucket proves about the versions: the
    committed ones were read back by their id and are listed, and the others are
    within the budget of the writes that may have created them. *)
From S2P Require Import Prelude Ordering RustText History HistoryFacts Workload ObjectModel Attempts.
From S2P Require Import SourceIndexFacts ReadAnomalies ListHistory Lineage ReadFailure Report Evaluate.
From S2P Require Import Checker ReportAudit AuditFacts.
From stdpp Require Import options.

(** ** The loops over the listing and the GETs *)

(** The listing shows the identity, as a delete marker or as data. *)
Definition shows_version (entries : list ListedVersionEntry) (is_delete_marker : bool)
    (identity : string * string) : Prop :=
  ∃ e, e ∈ entries ∧ lve_key e = identity.1 ∧ lve_version_id e = Some identity.2 ∧
    lve_is_delete_marker e = is_delete_marker.

Record listed_versions_of (entries : list ListedVersionEntry) (l : ListedVersions) : Prop := {
  lo_data : ∀ i, i ∈ lv_data_versions l ↔ shows_version entries false i;
  lo_markers : ∀ i, i ∈ lv_delete_markers l ↔ shows_version entries true i;
  lo_latest_fresh : ∀ e, e ∈ entries → lve_is_latest e = true → is_Some (lv_actual_latest l !! lve_key e);
  lo_latest : NoDup (lve_key <$> filter (λ e, lve_is_latest e = true) entries);
}.

Lemma shows_version_snoc entries e b i :
  shows_version (entries ++ [e]) b i ↔
  shows_version entries b i ∨
    (lve_key e = i.1 ∧ lve_version_id e = Some i.2 ∧ lve_is_delete_marker e = b).
Proof.
  unfold shows_version. split.
  - intros (x & [Hx| ->%list_elem_of_singleton]%elem_of_app & H); [left; by exists x|by right].
  - intros [(x & Hx & H)|H]; [exists x|exists e]; rewrite elem_of_app, list_elem_of_singleton; auto.
Qed.

Lemma listed_versions_collected entries l :
  try_fold listed_version_step (mkListedVersions ∅ ∅ ∅ ∅) entries = ok l → listed_versions_of entries l.
Proof.
  apply (try_fold_invariant _ listed_versions_of).
  { split; simpl; [..|constructor]; try (intros i; split; [set_solver|by intros (? & ?%elem_of_nil & _)]).
    by intros ? ?%elem_of_nil. }
  intros seen e st st' [Hd Hm Hf Hl] H. unfold listed_version_step in H.
  set (st1 := match lve_version_id e with None => st | Some _ => _ end) in H.
  assert (lv_actual_latest st1 = lv_actual_latest st ∧
    (∀ i, i ∈ lv_data_versions st1 ↔ shows_version (seen ++ [e]) false i) ∧
    (∀ i, i ∈ lv_delete_markers st1 ↔ shows_version (seen ++ [e]) true i)) as (H1 & H2 & H3).
  { setoid_rewrite shows_version_snoc. setoid_rewrite <-Hd. setoid_rewrite <-Hm. clear H. subst st1.
    destruct (lve_version_id e) as [v|]; [|naive_solver].
    destruct (lve_is_delete_marker e); simpl; (split; [done|]); split; intros [k v'];
      rewrite ?elem_of_union, ?elem_of_singleton; naive_solver. }
  destruct (lve_is_latest e) eqn:He.
  - apply bind_ensure_ok in H as [Hn%bool_decide_eq_true [= <-]]. rewrite H1 in Hn.
    split; simpl; [done|done| |].
    + intros x [Hx| ->%list_elem_of_singleton]%elem_of_app Hxl; rewrite H1.
      * destruct (decide (lve_key e = lve_key x)) as [->|Hne]; [by rewrite lookup_insert_eq|].
        rewrite lookup_insert_ne by done. by apply Hf.
      * by rewrite lookup_insert_eq.
    + rewrite filter_app, filter_cons_True, filter_nil, fmap_app by done. apply NoDup_app. split; [done|].
      split; [|apply NoDup_singleton]. simpl.
      intros k (x & -> & [Hxl Hx]%list_elem_of_filter)%list_elem_of_fmap Hke%list_elem_of_singleton.
      destruct (Hf x Hx Hxl) as [? ?]. congruence.
  - injection H as <-. split; simpl; [done|done| |].
    + intros x [Hx| ->%list_elem_of_singleton]%elem_of_app Hxl; [rewrite H1; by apply Hf|congruence].
    + rewrite filter_app, filter_cons_False, filter_nil, app_nil_r by congruence. done.
Qed.

(** The GET of one version in the suffix. *)
Definition version_get (suffix : list OperationRecord) (i : string * string) (r : OperationRecord) : Prop :=
  r ∈ suffix ∧ is_version_get r = true ∧ op_key r = Some i.1 ∧ op_version_id r = Some i.2.

Lemma version_gets_collected suffix gets :
  try_fold version_get_step ∅ (filter is_version_get suffix) = ok gets →
  (map_to_list gets).*2 ≡ₚ filter is_version_get suffix ∧
  ∀ i r, gets !! i = Some r → op_key r = Some i.1 ∧ op_version_id r = Some i.2.
Proof.
  apply (try_fold_invariant _ (λ l (g : gmap (string * string) OperationRecord),
    (map_to_list g).*2 ≡ₚ l ∧ ∀ i r, g !! i = Some r → op_key r = Some i.1 ∧ op_version_id r = Some i.2)).
  { by rewrite map_to_list_empty. }
  intros l r g g' [Hp Hi] (k & Hk & H)%bind_context_ok. apply bind_ok in H as (v & Hv & H).
  apply bind_ensure_ok in H as [Hn%bool_decide_eq_true [= <-]]. split.
  - rewrite map_to_list_insert by done. simpl. rewrite Hp. apply Permutation_cons_append.
  - intros i x [[<- <-]|[_ Hx]]%lookup_insert_Some; [|by apply Hi]. simpl. split; [done|].
    unfold expect in Hv. by destruct (op_version_id r); simplify_eq/=.
Qed.

(** ** Committed versions *)
Lemma expected_versions_collected versions expected :
  try_fold expected_version_step ∅ versions = ok expected →
  ∀ i v, expected !! i = Some v ↔ v ∈ versions ∧ i = (cv_key v, cv_version_id v).
Proof.
  apply (try_fold_invariant _ (λ l (m : gmap (string * string) CommittedVersion),
    ∀ i v, m !! i = Some v ↔ v ∈ l ∧ i = (cv_key v, cv_version_id v))).
  { intros i v. rewrite lookup_empty, elem_of_nil. naive_solver. }
  intros l x m m' IH [Hn%bool_decide_eq_true [= <-]]%bind_ensure_ok i v.
  rewrite elem_of_app, list_elem_of_singleton, lookup_insert_Some. split.
  - intros [[<- <-]|[_ []%IH]]; auto.
  - intros [[Hv| ->] ->]; [|by left]. right. split; [|by apply IH].
    intros Heq. rewrite Heq in Hn. assert (is_Some (m !! (cv_key v, cv_version_id v))) as Hs
      by (exists v; by apply IH). rewrite Hn in Hs. by destruct Hs.
Qed.

(** The GET of a committed version returned its content. *)
Definition reads_version (v : CommittedVersion) (r : OperationRecord) : Prop :=
  answered_200 r = true ∧ op_value_sha256 r = Some (cv_sha256 v) ∧ op_size_bytes r = Some (cv_size_bytes v).

Lemma committed_authenticated gets listed audits entries audits' i v :
  try_fold (authenticate_committed_version gets listed) audits entries = ok audits' → (i, v) ∈ entries →
  (∃ r, gets !! i = Some r ∧ reads_version v r) ∧ (cv_key v, cv_version_id v) ∈ listed.
Proof.
  intros Hf Hin. destruct (try_fold_elem _ _ _ _ _ Hin Hf) as (_ & _ & s1 & s2 & _ & H & _).
  unfold authenticate_committed_version in H. apply bind_ok in H as (r & Hr & H).
  apply bind_ensure_ok in H as [Hc H]. apply bind_ensure_ok in H as [Hl%bool_decide_eq_true _].
  rewrite !andb_true_iff, !bool_decide_eq_true in Hc. split; [|done]. exists r.
  unfold expect in Hr. destruct (gets !! i); simplify_eq/=. split; [done|]. unfold reads_version. tauto.
Qed.
Lemma markers_authenticated listed audits markers audits' d :
  try_fold (authenticate_delete_marker listed) audits markers = ok audits' → d ∈ markers →
  (cdm_key d, cdm_version_id d) ∈ listed.
Proof.
  intros Hf Hin. destruct (try_fold_elem _ _ _ _ _ Hin Hf) as (_ & _ & s1 & s2 & _ & H & _).
  by apply bind_ensure_ok in H as [Hl%bool_decide_eq_true _].
Qed.

(** ** Uncommitted versions *)
Section uncommitted.
Context (m : ObjectModel) (latest : gmap (string * string) bool) (reported : gset string).

(** The entry is a GET of the key that returned the value. *)
Definition reads_value (key : string) (o : ExpectedObject) (e : string * string * OperationRecord) : Prop :=
  e.1.1 = key ∧ recorded_value e.2 = Some o.
#[local] Instance reads_value_dec key o e : Decision (reads_value key o e).
Proof. unfold reads_value. apply _. Defined.

Record uncommitted_ok (done : list (string * string * OperationRecord)) (st : UncommittedVersions) : Prop := {
  uo_repr : index_repr (uv_sources st);
  uo_budget : ∀ key o, (len (filter (reads_value key o) done) + budget_at (vwb_sources <$> uv_sources st) key o
    = budget_at (vwb_sources <$> from_sources (om_version_write_sources m)) key o)%N;
  uo_answers : ∀ e, e ∈ done → answered_200 e.2 = true ∧ is_Some (recorded_value e.2);
}.

Lemma uncommitted_authenticated done st :
  try_fold (authenticate_uncommitted_version m latest reported)
    (mkUncommittedVersions ∅ ∅ (from_sources (om_version_write_sources m))) done = ok st →
  uncommitted_ok done st.
Proof using Type.
  apply (try_fold_invariant _ uncommitted_ok).
  { split; simpl; [|done|by intros ? ?%elem_of_nil].
    by destruct (from_sources_exact (om_version_write_sources m) "" (mkExpectedObject "" 0)). }
  intros seen [i r] st1 st' [Hr Hb Ha] H. unfold authenticate_uncommitted_version in H.
  apply bind_ensure_ok in H as [H2 H]. apply bind_ok in H as (actual & Hv%observed_value_ok & H).
  apply bind_context_ok in H as (sources & _ & H). apply bind_ok in H as ([source index'] & Ht & H).
  apply bind_context_ok in H as (src & Hsrc & [_ [= <-]]%bind_ensure_ok).
  destruct (take_source_refines _ i.1 actual (default false (latest !! i)) Hr) as (ix & Ht' & Hr' & Heq).
  rewrite Ht' in Ht. injection Ht as Hs <-. simpl in Hsrc. rewrite Hsrc in Hs.
  split; simpl; [done| |].
  - intros key o. rewrite <-(Hb key o), Heq, filter_app, len_app, <-N.add_assoc. f_equal.
    rewrite <-(spec_take_budget (vwb_sources <$> uv_sources st1) (mkTakeRequest i.1 actual (default false (latest !! i))) key o).
    simpl. f_equal. rewrite Hs, filter_cons, filter_nil.
    destruct (decide (reads_value key o (i, r))) as [[H3 H4]|Hn].
    + simpl in H3, H4. rewrite decide_True; [done|]. split; [by eexists|]. split; [done|congruence].
    + rewrite decide_False; [done|]. intros (_ & H3 & H4). apply Hn. split; [done|]. simpl. congruence.
  - intros e [He| ->%list_elem_of_singleton]%elem_of_app; [by apply Ha|]. simpl. split; [done|by eexists].
Qed.
End uncommitted.

(** ** What the recorded operations show *)

(** A GET, by version id, of a version no committed write created, that returned
    the value. *)
Definition extra_version (lineage : VersionLineage) (key : string) (o : ExpectedObject)
    (r : OperationRecord) : Prop :=
  is_version_get r = true ∧ op_key r = Some key ∧ recorded_value r = Some o ∧
  Forall (λ v, ¬ (cv_key v = key ∧ op_version_id r = Some (cv_version_id v))) (vl_versions lineage).
Global Instance extra_version_dec lineage key o r : Decision (extra_version lineage key o r).
Proof. unfold extra_version. apply _. Defined.

Record audited_versions (prefix suffix : list OperationRecord) (prefix_key : string)
    (entries : list ListedVersionEntry) : Prop := {
  av_listing : ∃ r, prefix_operations OperationKind.ListVersions prefix_key suffix = [r] ∧
    answered_200 r = true ∧ op_listed_versions r = Some entries;
  av_committed : ∀ v, v ∈ vl_versions (committed_version_lineage prefix) →
    (∃ r, version_get suffix (cv_key v, cv_version_id v) r ∧ reads_version v r) ∧
    shows_version entries false (cv_key v, cv_version_id v);
  av_markers : ∀ d, d ∈ vl_delete_markers (committed_version_lineage prefix) →
    shows_version entries true (cdm_key d, cdm_version_id d);
  av_read : ∀ i, shows_version entries false i ↔ ∃ r, version_get suffix i r;
  av_answered : ∀ i r, version_get suffix i r → answered_200 r = true;
  av_budget : ∀ key o,
    (len (filter (extra_version (committed_version_lineage prefix) key o) suffix)
     ≤ budget (written o (default [] (om_version_write_sources (object_model prefix) !! key))))%N;
  av_latest : NoDup (lve_key <$> filter (λ e, lve_is_latest e = true) entries);
  av_conflicts : listed_version_lineage_conflicts prefix (committed_version_lineage prefix) entries = [];
}.

Lemma length_filter_fmap {A B} (P : A → Prop) (Q : B → Prop) `{∀ x, Decision (P x), ∀ x, Decision (Q x)}
    (f : A → B) (l : list A) :
  (∀ x, x ∈ l → P x ↔ Q (f x)) → length (filter P l) = length (filter Q (f <$> l)).
Proof.
  induction l as [|x l IH]; intros Hl; [done|]. rewrite fmap_cons, !filter_cons.
  rewrite (decide_ext (P x) (Q (f x))) by (apply Hl; left).
  specialize (IH (λ y Hy, Hl y (list_elem_of_further _ _ _ Hy))). destruct (decide (Q (f x))); simpl; congruence.
Qed.
Lemma budget_at_sources sources key o :
  budget_at (vwb_sources <$> from_sources sources) key o = budget (written o (default [] (sources !! key))).
Proof.
  destruct (from_sources_exact sources key o) as [_ <-].
  unfold budget_at, sources_at, VersionWriteSourceIndex. unfold SourceLists. rewrite lookup_fmap.
  by destruct (_ !! (key, o)).
Qed.

Section evidence.
Context (lineage : VersionLineage) (suffix : list OperationRecord).
Context (expected : gmap (string * string) CommittedVersion) (gets : gmap (string * string) OperationRecord).
Context (Hexpected : try_fold expected_version_step ∅ (vl_versions lineage) = ok expected).
Context (Hgets : try_fold version_get_step ∅ (filter is_version_get suffix) = ok gets).

Lemma version_get_iff i r : gets !! i = Some r ↔ version_get suffix i r.
Proof using Hgets.
  destruct (version_gets_collected _ _ Hgets) as [Hp Hi]. unfold version_get.
  assert (∀ x, x ∈ (map_to_list gets).*2 ↔ x ∈ filter is_version_get suffix) as Hin by (intros; by rewrite Hp).
  setoid_rewrite list_elem_of_filter in Hin. setoid_rewrite Is_true_true in Hin. split.
  - intros Hr. destruct (Hi i r Hr). destruct (proj1 (Hin r)); [|done].
    apply list_elem_of_fmap. exists (i, r). split; [done|]. by apply elem_of_map_to_list.
  - intros (Hr & Hg & Hk & Hv). assert (r ∈ (map_to_list gets).*2) as Hm by (by apply Hin).
    apply list_elem_of_fmap in Hm as ([j x] & -> & Hj%elem_of_map_to_list).
    destruct (Hi j x Hj) as [Hk' Hv']. simpl in *. assert (j = i) as ->; [|done].
    destruct i, j. simpl in *. congruence.
Qed.

(** The uncommitted entries of the map are the extra versions of the suffix. *)
Lemma extra_versions_counted key o uncommitted :
  uncommitted ≡ₚ filter (λ e, expected !! e.1 = None) (map_entries gets) →
  len (filter (reads_value key o) uncommitted) = len (filter (extra_version lineage key o) suffix).
Proof using Hexpected Hgets.
  intros Hu. destruct (version_gets_collected _ _ Hgets) as [Hp Hi]. unfold len. f_equal.
  transitivity (length (filter (extra_version lineage key o) (filter is_version_get suffix))).
  2:{ f_equal. rewrite list_filter_filter. apply list_filter_iff. intros r. unfold extra_version.
      rewrite Is_true_true. tauto. }
  rewrite Hu, <-Hp. unfold map_entries, sort_by_key. rewrite sort_by_perm, list_filter_filter.
  apply length_filter_fmap. intros [i r] Hir%elem_of_map_to_list.
  destruct (Hi i r Hir) as [Hk Hv]. simpl. unfold reads_value, extra_version, compose. simpl.
  assert (is_version_get r = true) as Hg by (by apply version_get_iff in Hir as (_ & ? & _)).
  rewrite Forall_forall, Hk, Hv, Hg. split.
  - intros [[<- Ho] Hn]. split_and!; [done..|]. intros v Hin [Hkey [= Hid]].
    assert (expected !! i = Some v) as Hs.
    { apply (expected_versions_collected _ _ Hexpected). split; [done|]. destruct i. simpl in *. congruence. }
    congruence.
  - intros (_ & [= <-] & Ho & Hall). split; [done|]. destruct (expected !! i) as [v|] eqn:E; [|done].
    apply (expected_versions_collected _ _ Hexpected) in E as [Hin ->]. by destruct (Hall v Hin).
Qed.
End evidence.

Lemma evidence_audited report prefix suffix tolerated audit entries versions :
  versioned_suffix_evidence report prefix suffix tolerated audit entries = ok versions →
  (∃ r, prefix_operations OperationKind.ListVersions (key_prefix (cr_run_id report)) suffix = [r] ∧
    answered_200 r = true ∧ op_listed_versions r = Some entries) →
  audited_versions prefix suffix (key_prefix (cr_run_id report)) entries.
Proof.
  set (lineage := committed_version_lineage prefix). unfold versioned_suffix_evidence. fold lineage.
  intros (listed & [Hdata Hmark _ Hlatest]%listed_versions_collected & H)%bind_ok Hlist.
  apply bind_ensure_ok in H as [Hc H]. rewrite !andb_true_iff, !is_empty_true in Hc. destruct Hc as [_ Hconf].
  apply bind_ok in H as (expected_latest & _ & H). apply bind_ensure_ok in H as [_ H].
  apply bind_ok in H as (expected & Hexp & H). apply bind_ok in H as (gets & Hgets & H).
  apply bind_ensure_ok in H as [Hdom%bool_decide_eq_true H]. apply bind_ensure_ok in H as [_ H].
  apply bind_ok in H as (audits & Haud & H). apply bind_ok in H as (uv & [_ Hbud Hans]%uncommitted_authenticated & H).
  apply bind_ensure_ok in H as [_ H]. apply bind_unit_ok in H as [_ H]. apply bind_ensure_ok in H as [_ H].
  apply bind_ok in H as (markers & Hm & _).
  pose proof (expected_versions_collected _ _ Hexp) as Hexp'. pose proof (version_get_iff suffix gets Hgets) as Hg.
  set (uncommitted := sort_by_key _ _) in *.
  assert (uncommitted ≡ₚ filter (λ e, expected !! e.1 = None) (map_entries gets)) as Hu
    by (unfold uncommitted, sort_by_key; apply sort_by_perm).
  assert (∀ v, v ∈ vl_versions lineage → (cv_key v, cv_version_id v, v) ∈ map_entries expected) as Hentry.
  { intros v Hv. apply elem_of_map_entries, Hexp'. done. }
  split; [done|..|exact Hlatest|exact Hconf].
  - intros v Hv. destruct (committed_authenticated _ _ _ _ _ _ _ Haud (Hentry v Hv)) as [(r & Hr & Hok) Hl].
    split; [exists r; by rewrite <-Hg|by apply Hdata].
  - intros d Hd. by apply Hmark, (markers_authenticated _ _ _ _ _ Hm).
  - intros i. rewrite <-Hdata, <-Hdom, elem_of_dom. unfold is_Some. by setoid_rewrite Hg.
  - intros i r Hr%Hg. destruct (expected !! i) as [v|] eqn:He.
    + destruct (committed_authenticated _ _ _ _ _ i v Haud) as [(r' & Hr' & Hok) _];
        [by apply elem_of_map_entries|]. simplify_eq. apply Hok.
    + apply (Hans (i, r)). rewrite Hu. apply list_elem_of_filter. split; [done|]. by apply elem_of_map_entries.
  - intros key o. fold lineage. rewrite <-(extra_versions_counted lineage suffix expected gets Hexp Hgets key o uncommitted Hu).
    rewrite <-budget_at_sources, <-(Hbud key o). apply N.le_add_r.
Qed.

(** C7. Whatever report it is given, an accepted audit of a versioned bucket proves from
    the recorded operations that every committed version was read by its id with its
    content and is listed, every committed delete marker is listed, every listed data
    version was read, at most one entry per key is latest, and for every key and value
    the versions no committed write created are within the version budget of the write
    attempts of that value. *)
Theorem audit_verifies_every_version `{Henv : CheckerEnv} report history :
  validate_checker_audit_against_history report history = ok tt → cr_versioning_expected report = true →
  ∃ audit prefix suffix rest entries,
    cr_audit report = Some audit ∧ history = prefix ++ suffix ++ rest ∧
    checker_history_records_sha256 prefix = ok (ca_history_prefix_sha256 audit) ∧
    checker_history_records_sha256 suffix = ok (ca_history_suffix_sha256 audit) ∧
    audited_versions prefix suffix (key_prefix (cr_run_id report)) entries.
Proof.
  unfold validate_checker_audit_against_history. intros ([prefix suffix] & Hrec & Hobs)%bind_ok Hv.
  apply receipt_inv in Hrec as (audit & rest & Ha & Hh & _ & _ & _ & Hp & Hs & _).
  apply observations_inv in Hobs as (an & gets & current & final & keys & versions & Hacc).
  pose proof (ac_versions _ _ _ _ _ _ _ _ _ Hacc) as Hver. unfold validate_versioned_checker_suffix in Hver.
  rewrite Hv in Hver. cbn [negb] in Hver. apply bind_ok in Hver as (l & Hl%the_only_ok & Hver).
  apply bind_ensure_ok in Hver as [[H2 _]%andb_true_iff Hver].
  apply bind_context_ok in Hver as (entries & He & Hver). apply bind_context_ok in Hver as (audit' & _ & Hver).
  exists audit, prefix, suffix, rest, entries. split_and!; try done.
  eapply evidence_audited; [exact Hver|]. by exists l.
Qed.
