(* ===== verification/Verdict.v ===== *)
(** The vocabulary of failures ([src/fault/verdict.rs]): the classification of a
    failed run, what it says about data and availability, who is responsible,
    and the failure summary that is written and validated. *)
From S2P Require Import Prelude Ordering RustText.
From stdpp Require Import options.

(** ** Data *)

Module RecoveryStabilityClassification.
Inductive t :=
| DataCorruption | CommittedObjectUnavailable | CommittedVersionMissing
| CommittedVersionUnavailable | VersionHashMismatch | DeleteMarkerMissing
| DeletedObjectResurrected | DeleteMarkerLineageIncomplete | VersionIdMissingOnCommittedWrite
| MultipartUploadLineageIncomplete | ListUnavailableOrUnknown | ListedKeyUnreadable
| UnexpectedListedObject | RecoveryTailReadLatency | AmbiguousWriteMaterialized | HarnessError.
Global Instance eq_dec : EqDecision t.
Proof. solve_decision. Defined.
End RecoveryStabilityClassification.

Module FailureVerdict.
Inductive t :=
| Failed.
Global Instance eq_dec : EqDecision t.
Proof. solve_decision. Defined.
End FailureVerdict.

Module FailureSeverity.
Inductive t :=
| Degraded | FailAvailability | FailCorrectness | Infra | NeedsInvestigation.
Global Instance eq_dec : EqDecision t.
Proof. solve_decision. Defined.
End FailureSeverity.

Module FailurePhase.
Inductive t :=
| Preflight | Setup | FaultInjection | Workload | Recovery | Checker | Cleanup | Runner.
Global Instance eq_dec : EqDecision t.
Proof. solve_decision. Defined.
End FailurePhase.

Module ResponsibilityDomain.
Inductive t :=
| Product | Harness | Environment | FaultBackend | Unknown.
Global Instance eq_dec : EqDecision t.
Proof. solve_decision. Defined.
End ResponsibilityDomain.

Module DataCorrectnessStatus.
Inductive t :=
| Passed | Failed | Unknown.
Global Instance eq_dec : EqDecision t.
Proof. solve_decision. Defined.
End DataCorrectnessStatus.

Module AvailabilityStatus.
Inductive t :=
| RecoveredAfterTailLatency | CommittedObjectUnavailable | CommittedVersionUnavailable
| ListUnavailableOrUnknown | ServiceDegraded | Unknown.
Global Instance eq_dec : EqDecision t.
Proof. solve_decision. Defined.
End AvailabilityStatus.

(** What a classification implies. *)
Record FailureClassificationDetails := mkFailureClassificationDetails {
  fcd_data_correctness : DataCorrectnessStatus.t;
  fcd_availability : AvailabilityStatus.t;
  fcd_data_loss : option bool;
  fcd_corruption : option bool;
  fcd_recovered_within_window : option bool;
}.

Module FailureClassification.
Inductive t :=
| RecoveryTailReadLatency | CommittedObjectUnavailable | CommittedVersionMissing
| CommittedVersionUnavailable | VersionHashMismatch | DeleteMarkerMissing
| DeletedObjectResurrected | DeleteMarkerLineageIncomplete | VersionIdMissingOnCommittedWrite
| MultipartUploadLineageIncomplete | ListUnavailableOrUnknown | ListedKeyUnreadable
| UnexpectedListedObject | DataCorruption | AmbiguousWriteMaterialized | QuorumViolation
| RecoveryHealthDegraded | PostRecoveryWriteFailed | AvailabilityRegression | HarnessError
| TestHarness | WorkloadExecutionError | ArtifactValidationFailed | CheckerExecutionError
| PreflightFailed | HealthGuardFailed | FaultBackendUnavailable | FaultNotActive
| FaultNotRecovered | Unknown | CheckerOrEnvironment | TestOrEnvironment
| EnvironmentOrFaultBackend | ProductOrEnvironment | EnvironmentOrWorkload | WorkloadOrProduct
| NoSignal | GracefulShutdownFailed.
Global Instance eq_dec : EqDecision t.
Proof. solve_decision. Defined.
Definition ALL : list t :=
  [RecoveryTailReadLatency; CommittedObjectUnavailable; CommittedVersionMissing;
   CommittedVersionUnavailable; VersionHashMismatch; DeleteMarkerMissing;
   DeletedObjectResurrected; DeleteMarkerLineageIncomplete; VersionIdMissingOnCommittedWrite;
   MultipartUploadLineageIncomplete; ListUnavailableOrUnknown; ListedKeyUnreadable;
   UnexpectedListedObject; DataCorruption; AmbiguousWriteMaterialized; QuorumViolation;
   RecoveryHealthDegraded; PostRecoveryWriteFailed; AvailabilityRegression; HarnessError;
   TestHarness; WorkloadExecutionError; ArtifactValidationFailed; CheckerExecutionError;
   PreflightFailed; HealthGuardFailed; FaultBackendUnavailable; FaultNotActive;
   FaultNotRecovered; Unknown; CheckerOrEnvironment; TestOrEnvironment;
   EnvironmentOrFaultBackend; ProductOrEnvironment; EnvironmentOrWorkload; WorkloadOrProduct;
   NoSignal; GracefulShutdownFailed].
Definition as_str (c : t) : string :=
  match c with
  | RecoveryTailReadLatency => "recovery_tail_read_latency"
  | CommittedObjectUnavailable => "committed_object_unavailable"
  | CommittedVersionMissing => "committed_version_missing"
  | CommittedVersionUnavailable => "committed_version_unavailable"
  | VersionHashMismatch => "version_hash_mismatch"
  | DeleteMarkerMissing => "delete_marker_missing"
  | DeletedObjectResurrected => "deleted_object_resurrected"
  | DeleteMarkerLineageIncomplete => "delete_marker_lineage_incomplete"
  | VersionIdMissingOnCommittedWrite => "version_id_missing_on_committed_write"
  | MultipartUploadLineageIncomplete => "multipart_upload_lineage_incomplete"
  | ListUnavailableOrUnknown => "list_unavailable_or_unknown"
  | ListedKeyUnreadable => "listed_key_unreadable"
  | UnexpectedListedObject => "unexpected_listed_object"
  | DataCorruption => "data_corruption"
  | AmbiguousWriteMaterialized => "ambiguous_write_materialized"
  | QuorumViolation => "quorum_violation"
  | RecoveryHealthDegraded => "recovery_health_degraded"
  | PostRecoveryWriteFailed => "post_recovery_write_failed"
  | AvailabilityRegression => "availability_regression"
  | HarnessError => "harness_error"
  | TestHarness => "test_harness"
  | WorkloadExecutionError => "workload_execution_error"
  | ArtifactValidationFailed => "artifact_validation_failed"
  | CheckerExecutionError => "checker_execution_error"
  | PreflightFailed => "preflight_failed"
  | HealthGuardFailed => "health_guard_failed"
  | FaultBackendUnavailable => "fault_backend_unavailable"
  | FaultNotActive => "fault_not_active"
  | FaultNotRecovered => "fault_not_recovered"
  | Unknown => "unknown"
  | CheckerOrEnvironment => "checker_or_environment"
  | TestOrEnvironment => "test_or_environment"
  | EnvironmentOrFaultBackend => "environment_or_fault_backend"
  | ProductOrEnvironment => "product_or_environment"
  | EnvironmentOrWorkload => "environment_or_workload"
  | WorkloadOrProduct => "workload_or_product"
  | NoSignal => "no_signal"
  | GracefulShutdownFailed => "graceful_shutdown_failed"
  end.
Definition from_name (name : string) : option t :=
  List.find (λ c, bool_decide (as_str c = name)) ALL.
Definition is_s3_model (c : t) : bool :=
  match c with
  | RecoveryTailReadLatency | CommittedObjectUnavailable | CommittedVersionMissing
  | CommittedVersionUnavailable | VersionHashMismatch | DeleteMarkerMissing
  | DeletedObjectResurrected | DeleteMarkerLineageIncomplete
  | VersionIdMissingOnCommittedWrite | MultipartUploadLineageIncomplete
  | ListUnavailableOrUnknown | ListedKeyUnreadable | UnexpectedListedObject | DataCorruption
  | AmbiguousWriteMaterialized => true
  | _ => false
  end.
Definition responsibility_domain (c : t) : ResponsibilityDomain.t :=
  match c with
  | RecoveryTailReadLatency | CommittedObjectUnavailable | CommittedVersionMissing
  | CommittedVersionUnavailable | VersionHashMismatch | DeleteMarkerMissing
  | DeletedObjectResurrected | DeleteMarkerLineageIncomplete
  | VersionIdMissingOnCommittedWrite | MultipartUploadLineageIncomplete
  | ListUnavailableOrUnknown | ListedKeyUnreadable | UnexpectedListedObject | DataCorruption
  | AmbiguousWriteMaterialized | QuorumViolation | RecoveryHealthDegraded
  | PostRecoveryWriteFailed | AvailabilityRegression | GracefulShutdownFailed =>
      ResponsibilityDomain.Product
  | HarnessError | TestHarness | WorkloadExecutionError | ArtifactValidationFailed
  | CheckerExecutionError => ResponsibilityDomain.Harness
  | PreflightFailed | HealthGuardFailed => ResponsibilityDomain.Environment
  | FaultBackendUnavailable | FaultNotActive | FaultNotRecovered =>
      ResponsibilityDomain.FaultBackend
  | Unknown | CheckerOrEnvironment | TestOrEnvironment | EnvironmentOrFaultBackend
  | ProductOrEnvironment | EnvironmentOrWorkload | WorkloadOrProduct | NoSignal =>
      ResponsibilityDomain.Unknown
  end.
Definition severity (c : t) : FailureSeverity.t :=
  match c with
  | RecoveryTailReadLatency => FailureSeverity.Degraded
  | CommittedObjectUnavailable | CommittedVersionUnavailable | ListUnavailableOrUnknown
  | RecoveryHealthDegraded | PostRecoveryWriteFailed | AvailabilityRegression
  | GracefulShutdownFailed => FailureSeverity.FailAvailability
  | CommittedVersionMissing | VersionHashMismatch | DeleteMarkerMissing
  | DeletedObjectResurrected | ListedKeyUnreadable | UnexpectedListedObject | DataCorruption
  | QuorumViolation => FailureSeverity.FailCorrectness
  | HarnessError | TestHarness | TestOrEnvironment | EnvironmentOrFaultBackend =>
      FailureSeverity.Infra
  | AmbiguousWriteMaterialized | DeleteMarkerLineageIncomplete
  | VersionIdMissingOnCommittedWrite | MultipartUploadLineageIncomplete
  | WorkloadExecutionError | ArtifactValidationFailed | CheckerExecutionError
  | PreflightFailed | HealthGuardFailed | FaultBackendUnavailable | FaultNotActive
  | FaultNotRecovered | Unknown | CheckerOrEnvironment | ProductOrEnvironment
  | EnvironmentOrWorkload | WorkloadOrProduct | NoSignal => FailureSeverity.NeedsInvestigation
  end.
(** [From<RecoveryStabilityClassification>]. *)
Definition from (c : RecoveryStabilityClassification.t) : t :=
  match c with
  | RecoveryStabilityClassification.DataCorruption => DataCorruption
  | RecoveryStabilityClassification.CommittedObjectUnavailable => CommittedObjectUnavailable
  | RecoveryStabilityClassification.CommittedVersionMissing => CommittedVersionMissing
  | RecoveryStabilityClassification.CommittedVersionUnavailable => CommittedVersionUnavailable
  | RecoveryStabilityClassification.VersionHashMismatch => VersionHashMismatch
  | RecoveryStabilityClassification.DeleteMarkerMissing => DeleteMarkerMissing
  | RecoveryStabilityClassification.DeletedObjectResurrected => DeletedObjectResurrected
  | RecoveryStabilityClassification.DeleteMarkerLineageIncomplete => DeleteMarkerLineageIncomplete
  | RecoveryStabilityClassification.VersionIdMissingOnCommittedWrite => VersionIdMissingOnCommittedWrite
  | RecoveryStabilityClassification.MultipartUploadLineageIncomplete => MultipartUploadLineageIncomplete
  | RecoveryStabilityClassification.ListUnavailableOrUnknown => ListUnavailableOrUnknown
  | RecoveryStabilityClassification.ListedKeyUnreadable => ListedKeyUnreadable
  | RecoveryStabilityClassification.UnexpectedListedObject => UnexpectedListedObject
  | RecoveryStabilityClassification.RecoveryTailReadLatency => RecoveryTailReadLatency
  | RecoveryStabilityClassification.AmbiguousWriteMaterialized => AmbiguousWriteMaterialized
  | RecoveryStabilityClassification.HarnessError => HarnessError
  end.
(** [FailureClassificationDetails::from_classification]. *)
Definition details_of (c : t) : FailureClassificationDetails :=
  match c with
  | RecoveryTailReadLatency =>
      mkFailureClassificationDetails DataCorrectnessStatus.Passed
        AvailabilityStatus.RecoveredAfterTailLatency (Some false) (Some false) (Some true)
  | CommittedObjectUnavailable =>
      mkFailureClassificationDetails DataCorrectnessStatus.Unknown
        AvailabilityStatus.CommittedObjectUnavailable None (Some false) (Some false)
  | CommittedVersionMissing =>
      mkFailureClassificationDetails DataCorrectnessStatus.Failed AvailabilityStatus.Unknown
        (Some true) (Some false) (Some false)
  | CommittedVersionUnavailable =>
      mkFailureClassificationDetails DataCorrectnessStatus.Unknown
        AvailabilityStatus.CommittedVersionUnavailable None (Some false) (Some false)
  | VersionHashMismatch | DeleteMarkerMissing | DeletedObjectResurrected | ListedKeyUnreadable
  | UnexpectedListedObject =>
      mkFailureClassificationDetails DataCorrectnessStatus.Failed AvailabilityStatus.Unknown
        (Some false) (Some true) None
  | RecoveryHealthDegraded | PostRecoveryWriteFailed | AvailabilityRegression
  | GracefulShutdownFailed =>
      mkFailureClassificationDetails DataCorrectnessStatus.Unknown
        AvailabilityStatus.ServiceDegraded None (Some false) (Some false)
  | DeleteMarkerLineageIncomplete | VersionIdMissingOnCommittedWrite
  | MultipartUploadLineageIncomplete =>
      mkFailureClassificationDetails DataCorrectnessStatus.Unknown
        AvailabilityStatus.Unknown None (Some false) None
  | ListUnavailableOrUnknown =>
      mkFailureClassificationDetails DataCorrectnessStatus.Unknown
        AvailabilityStatus.ListUnavailableOrUnknown None (Some false) (Some false)
  | QuorumViolation =>
      mkFailureClassificationDetails DataCorrectnessStatus.Failed AvailabilityStatus.Unknown
        None None None
  | DataCorruption =>
      mkFailureClassificationDetails DataCorrectnessStatus.Failed AvailabilityStatus.Unknown
        None (Some true) None
  | AmbiguousWriteMaterialized =>
      mkFailureClassificationDetails DataCorrectnessStatus.Unknown
        AvailabilityStatus.Unknown None (Some false) None
  | HarnessError | TestHarness | TestOrEnvironment | EnvironmentOrFaultBackend =>
      mkFailureClassificationDetails DataCorrectnessStatus.Unknown
        AvailabilityStatus.Unknown None None None
  | WorkloadExecutionError | ArtifactValidationFailed | CheckerExecutionError
  | PreflightFailed | HealthGuardFailed | FaultBackendUnavailable | FaultNotActive
  | FaultNotRecovered | Unknown | CheckerOrEnvironment | ProductOrEnvironment
  | EnvironmentOrWorkload | WorkloadOrProduct | NoSignal =>
      mkFailureClassificationDetails DataCorrectnessStatus.Unknown
        AvailabilityStatus.Unknown None None None
  end.
End FailureClassification.

(** [RecoveryStabilityClassification::as_str]. *)
Definition recovery_as_str (c : RecoveryStabilityClassification.t) : string :=
  FailureClassification.as_str (FailureClassification.from c).

Definition from_classification_evidence (evidence : string)
    : option RecoveryStabilityClassification.t :=
  if starts_with "missing_committed_version:" evidence
  then Some RecoveryStabilityClassification.CommittedVersionMissing else
  if starts_with "unavailable_committed_version:" evidence
  then Some RecoveryStabilityClassification.CommittedVersionUnavailable else
  if starts_with "version_hash_mismatch:" evidence
  then Some RecoveryStabilityClassification.VersionHashMismatch else
  if starts_with "missing_committed_delete_marker:" evidence
  then Some RecoveryStabilityClassification.DeleteMarkerMissing else
  if starts_with "resurrected_deleted_object:" evidence
  then Some RecoveryStabilityClassification.DeletedObjectResurrected else
  if starts_with "delete_marker_lineage_incomplete:" evidence
  then Some RecoveryStabilityClassification.DeleteMarkerLineageIncomplete else
  if starts_with "committed_write_missing_version_id:" evidence
     || starts_with "committed_writes_missing_version_id_count:" evidence
  then Some RecoveryStabilityClassification.VersionIdMissingOnCommittedWrite else
  if starts_with "multipart_upload_lineage_incomplete:" evidence
  then Some RecoveryStabilityClassification.MultipartUploadLineageIncomplete else
  if starts_with "listed_key_unreadable:" evidence
  then Some RecoveryStabilityClassification.ListedKeyUnreadable else
  if starts_with "unexpected_listed_object:" evidence
  then Some RecoveryStabilityClassification.UnexpectedListedObject else
  None.
Definition matches_classification_evidence (c : RecoveryStabilityClassification.t)
    (evidence : string) : bool :=
  bool_decide (from_classification_evidence evidence = Some c).

(** ** Projections *)
(** [FailureV2Projection]. *)
Record FailureV2Projection := mkFailureV2Projection {
  fp_s3_model_classification : option string;
  fp_run_failure_reason : option string;
  fp_responsibility_domain : ResponsibilityDomain.t;
}.
Definition projection_of (c : FailureClassification.t) : FailureV2Projection :=
  if FailureClassification.is_s3_model c
  then mkFailureV2Projection (Some (FailureClassification.as_str c)) None
         ResponsibilityDomain.Product
  else mkFailureV2Projection None (Some (FailureClassification.as_str c))
         (FailureClassification.responsibility_domain c).

(** [ResponsibilityDomain::from_classification]. *)
Definition domain_from_classification (classification : string) : ResponsibilityDomain.t :=
  default ResponsibilityDomain.Unknown
    (FailureClassification.responsibility_domain
       <$> FailureClassification.from_name classification).

(** ** Phases and their evidence *)
Definition one_of (s : string) (l : list string) : bool := bool_decide (s ∈ l).
(** [FailurePhase::from_stage]. *)
Definition from_stage (stage : string) : FailurePhase.t :=
  if one_of stage ["scenario"; "fault-backend-preflight"; "fault-backend-pre-cleanup"] then
       FailurePhase.Preflight else
  if one_of stage ["fixture-prepare"; "tenant-ready-before-fault"; "pod-stability-before-fault";
       "initial-s3-access"; "s3-endpoint"; "s3-client"; "bucket-create"; "prefill";
       "pod-identity-before-fault"] then FailurePhase.Setup else
  if one_of stage ["fault-apply"; "wait-active"; "fault-snapshot-active";
       "active-snapshot-failed"; "quorum-fault-activation"] then FailurePhase.FaultInjection
       else
  if one_of stage ["s3-access-under-fault"; "warp-workload"; "mixed-workload";
       "split-brain-s3-probe"; "post-warp-s3-access"; "post-warp-port-forward-failed";
       "fault-evidence"; "workload-no-fault-evidence"; "fault-still-active";
       "workload-outlived-fault"; "fault-snapshot-after-workload";
       "after-workload-snapshot-failed"] then FailurePhase.Workload else
  if one_of stage ["fault-delete"] then FailurePhase.Cleanup else
  if one_of stage ["tenant-recovery"; "pod-stability-after-recovery";
       "s3-access-after-recovery"; "recovery-health"; "recovery-evidence";
       "fault-recovery-recheck"; "post-recovery-write"; "split-brain-probe-recovery";
       "recommit-unconfirmed"] then FailurePhase.Recovery else
  if one_of stage ["availability-endpoint"; "availability-read-probe"; "availability"] then
       FailurePhase.Workload else
  if one_of stage ["checker-pre-recommit"; "checker-pre-recommit-verdict"; "checker-final";
       "checker-verdict"] then FailurePhase.Checker else
  if contains "preflight" stage then FailurePhase.Preflight else
  if starts_with "checker" stage || ends_with "-verdict" stage then FailurePhase.Checker else
  if contains "cleanup" stage || ends_with "-delete" stage then FailurePhase.Cleanup else
  FailurePhase.Runner.

Definition push_unique (refs : list string) (artifact : string) : list string :=
  if decide (artifact ∈ refs) then refs else refs ++ [artifact].
Definition push_all (refs artifacts : list string) : list string :=
  foldl push_unique refs artifacts.
Definition primary_evidence_refs_for (stage : string) (phase : FailurePhase.t) : list string :=
  let at_stage s := bool_decide (stage = s) in
  let refs :=
    match phase with
    | FailurePhase.Checker =>
        push_unique
          (if at_stage "checker-pre-recommit" then
             push_all [] ["recovery-stability-report.json"; "checker-pre-recommit-error.txt"]
           else if contains "pre-recommit" stage then
             push_all [] ["recovery-stability-report.json"; "checker-pre-recommit-report.json"]
           else if at_stage "checker-final" then push_all [] ["checker-final-error.txt"]
           else push_all [] ["checker-report.json"])
          "fault-evidence.json"
    | FailurePhase.Recovery =>
        if at_stage "split-brain-probe-recovery" then
          push_all [] ["network-split-brain.json"; "network-split-brain-recovery-history.jsonl";
                       "fault-evidence.json"]
        else if at_stage "recommit-unconfirmed" then push_all [] ["fault-evidence.json"]
        else if at_stage "recovery-health" then
          push_all [] ["recovery-health.json"; "fault-evidence.json"]
        else if at_stage "post-recovery-write" then
          push_all [] ["post-recovery-write-report.json"; "post-recovery-write-history.jsonl"]
        else []
    | FailurePhase.Workload =>
        if at_stage "split-brain-s3-probe" then
          push_all [] ["network-split-brain.json"; "network-split-brain-s3-history.jsonl";
                       "target-proof.json"]
        else if at_stage "availability-read-probe" || at_stage "availability" then
          push_all [] ["availability-report.json"; "workload-summary.json"]
        else []
    | FailurePhase.FaultInjection =>
        if at_stage "quorum-fault-activation" then
          push_all [] ["quorum-fault-activation.json"; "target-proof.json"]
        else []
    | FailurePhase.Preflight | FailurePhase.Setup | FailurePhase.Cleanup
    | FailurePhase.Runner => []
    end in
  take 5 (push_unique refs "run-events.jsonl").

(** ** Failure summaries *)
Definition FAILURE_SUMMARY_SCHEMA_VERSION : N := 2.
Record FailureSummary := mkFailureSummary {
  fs_schema_version : N;
  fs_scenario : string;
  fs_run_id : option string;
  fs_case_name : option string;
  fs_observed_at_ms : option N;
  fs_stage : string;
  fs_phase : option FailurePhase.t;
  fs_verdict : FailureVerdict.t;
  fs_severity : FailureSeverity.t;
  fs_classification : string;
  fs_s3_model_classification : option string;
  fs_run_failure_reason : option string;
  fs_responsibility_domain : option ResponsibilityDomain.t;
  fs_data_correctness : DataCorrectnessStatus.t;
  fs_availability : AvailabilityStatus.t;
  fs_primary_evidence_refs : list string;
  fs_evidence_classifications : list string;
  fs_final_list_warning_count : N;
  fs_list_warnings : list string;
  fs_data_loss : option bool;
  fs_corruption : option bool;
  fs_recovered_within_window : option bool;
  fs_recovered_within_seconds : option N;
  fs_message : string;
}.
Global Instance FailureSummary_eta : Eta FailureSummary := λ s,
  mkFailureSummary (fs_schema_version s) (fs_scenario s) (fs_run_id s) (fs_case_name s)
    (fs_observed_at_ms s) (fs_stage s) (fs_phase s) (fs_verdict s) (fs_severity s)
    (fs_classification s) (fs_s3_model_classification s) (fs_run_failure_reason s)
    (fs_responsibility_domain s) (fs_data_correctness s) (fs_availability s)
    (fs_primary_evidence_refs s) (fs_evidence_classifications s)
    (fs_final_list_warning_count s) (fs_list_warnings s) (fs_data_loss s)
    (fs_corruption s) (fs_recovered_within_window s) (fs_recovered_within_seconds s)
    (fs_message s).

Definition validate_classification_projection (s : FailureSummary) : Result unit :=
  c ← context (FailureClassification.from_name (fs_classification s))
        "failure-summary.json has an unknown classification";
  let details := FailureClassification.details_of c in
  ensure (bool_decide (fs_severity s = FailureClassification.severity c)
          && bool_decide (fs_data_correctness s = fcd_data_correctness details)
          && bool_decide (fs_availability s = fcd_availability details)
          && bool_decide (fs_data_loss s = fcd_data_loss details)
          && bool_decide (fs_corruption s = fcd_corruption details)
          && bool_decide (fs_recovered_within_window s = fcd_recovered_within_window details))
    ("failure-summary.json outcome fields contradict classification " +:+ fs_classification s).

(** [FailureSummary::from_classification]; [now_ms] is the wall clock. *)
Definition summary_of (now_ms : N) (scenario stage : string) (c : FailureClassification.t)
    (message : string) : FailureSummary :=
  let details := FailureClassification.details_of c in
  let phase := from_stage stage in
  let projection := projection_of c in
  mkFailureSummary FAILURE_SUMMARY_SCHEMA_VERSION scenario None None (Some now_ms) stage
    (Some phase) FailureVerdict.Failed (FailureClassification.severity c)
    (FailureClassification.as_str c) (fp_s3_model_classification projection)
    (fp_run_failure_reason projection) (Some (fp_responsibility_domain projection))
    (fcd_data_correctness details) (fcd_availability details)
    (primary_evidence_refs_for stage phase) [] 0 [] (fcd_data_loss details)
    (fcd_corruption details) (fcd_recovered_within_window details) None message.

(** [FailureSummary::new]. *)
Definition new_summary (now_ms : N) (scenario stage classification message : string)
    : Result FailureSummary :=
  c ← context (FailureClassification.from_name classification)
        ("failure classification " +:+ str_debug classification
         +:+ " is not in the writer allowlist");
  ok (summary_of now_ms scenario stage c message).

(** [FailureSummary::from_checker]. *)
Definition summary_from_checker (now_ms : N) (scenario stage : string)
    (classification : RecoveryStabilityClassification.t) (message : string) : FailureSummary :=
  let c := FailureClassification.from classification in
  summary_of now_ms scenario stage c message
    <| fs_evidence_classifications := [FailureClassification.as_str c] |>.

Definition with_run_id (run_id : string) (s : FailureSummary) : FailureSummary :=
  s <| fs_run_id := Some run_id |>.
Definition with_case_name (case_name : string) (s : FailureSummary) : FailureSummary :=
  match fs_case_name s with
  | None => s <| fs_case_name := Some case_name |>
  | Some _ => s
  end.
Definition with_recovered_within_seconds (seconds : option N) (s : FailureSummary)
    : FailureSummary :=
  s <| fs_recovered_within_seconds := seconds |>.
Definition with_evidence_classifications (classifications : list string) (s : FailureSummary)
    : FailureSummary :=
  s <| fs_evidence_classifications := dedup (sort classifications) |>.
Definition with_list_warnings (final_list_warning_count : N) (warnings : list string)
    (s : FailureSummary) : FailureSummary :=
  s <| fs_final_list_warning_count := final_list_warning_count |>
    <| fs_list_warnings := dedup (sort warnings) |>.
