(* ===== verification/VerdictFacts.v ===== *)
(** Facts about failure summaries: names and classifications correspond, every
    summary the harness writes passes its validator, a validated summary does
    not contradict itself, and the artifacts it refers to are few and distinct. *)
From S2P Require Import Prelude Ordering RustText Verdict.
From stdpp Require Import options.

(** ** Names *)
Lemma ALL_complete (c : FailureClassification.t) : c ∈ FailureClassification.ALL.
Proof. destruct c; vm_compute; repeat (left || right). Qed.

Lemma as_str_inj (c d : FailureClassification.t) :
  FailureClassification.as_str c = FailureClassification.as_str d → c = d.
Proof. destruct c, d; (reflexivity || discriminate). Qed.

Lemma from_name_spec name c :
  FailureClassification.from_name name = Some c ↔ name = FailureClassification.as_str c.
Proof.
  unfold FailureClassification.from_name. split.
  - intros [_ H%bool_decide_eq_true]%List.find_some. done.
  - intros ->. destruct (List.find _ _) as [d|] eqn:Hf.
    + apply List.find_some in Hf as [_ Hd%bool_decide_eq_true]. by apply as_str_inj in Hd as ->.
    + eapply List.find_none in Hf; [|apply list_elem_of_In, (ALL_complete c)].
      by rewrite bool_decide_eq_true_2 in Hf.
Qed.

Lemma from_inj c d : FailureClassification.from c = FailureClassification.from d → c = d.
Proof. destruct c, d; (reflexivity || discriminate). Qed.

Global Instance recovery_as_str_injective : Inj (=) (=) recovery_as_str.
Proof. intros k d H. by apply from_inj, as_str_inj. Qed.

(** ** Validated summaries *)

(** The fields a classification determines. *)
Definition outcome_fields (s : FailureSummary) :=
  (fs_severity s, fs_data_correctness s, fs_availability s, fs_data_loss s, fs_corruption s,
   fs_recovered_within_window s).

Lemma validate_projection_ok s :
  validate_classification_projection s = ok tt ↔
  ∃ c, fs_classification s = FailureClassification.as_str c ∧
    outcome_fields s = outcome_fields (summary_of 0 "" "" c "").
Proof.
  unfold validate_classification_projection. rewrite bind_context_ok. split.
  - intros (c & Hc%from_name_spec & H). exists c. split; [done|].
    rewrite ensure_ok, !andb_true_iff, !bool_decide_eq_true in H. unfold outcome_fields.
    simpl. destruct_and!. congruence.
  - intros (c & Hc & Hf). exists c. split; [by apply from_name_spec|].
    unfold outcome_fields in Hf. simpl in Hf. injection Hf as ??????.
    rewrite ensure_ok, !andb_true_iff, !bool_decide_eq_true. done.
Qed.

(** Summaries as the runner builds them: a constructor and any builder calls. *)
Inductive summary_written (c : FailureClassification.t) : FailureSummary → Prop :=
| written_new now scenario stage name message s :
    new_summary now scenario stage name message = ok s → name = FailureClassification.as_str c →
    summary_written c s
| written_checker now scenario stage k message :
    FailureClassification.from k = c → summary_written c (summary_from_checker now scenario stage k message)
| written_run_id run_id s : summary_written c s → summary_written c (with_run_id run_id s)
| written_case_name name s : summary_written c s → summary_written c (with_case_name name s)
| written_seconds seconds s : summary_written c s → summary_written c (with_recovered_within_seconds seconds s)
| written_evidence l s : summary_written c s → summary_written c (with_evidence_classifications l s)
| written_list_warnings n l s : summary_written c s → summary_written c (with_list_warnings n l s).

(** What no builder changes. *)
Definition stamped (c : FailureClassification.t) (s : FailureSummary) : Prop :=
  fs_classification s = FailureClassification.as_str c ∧
  outcome_fields s = outcome_fields (summary_of 0 "" "" c "") ∧
  fs_s3_model_classification s = fp_s3_model_classification (projection_of c) ∧
  fs_run_failure_reason s = fp_run_failure_reason (projection_of c) ∧
  fs_responsibility_domain s = Some (fp_responsibility_domain (projection_of c)) ∧
  fs_phase s = Some (from_stage (fs_stage s)).

Lemma written_stamped c s : summary_written c s → stamped c s.
Proof.
  induction 1 as [now scenario stage name message s Hnew Hname|now scenario stage k message Hk
    |run_id s _ IH|name s _ IH|seconds s _ IH|l s _ IH|n l s _ IH]; try done.
  - apply bind_context_ok in Hnew as (d & Hd%from_name_spec & [= <-]).
    rewrite Hname in Hd. by apply as_str_inj in Hd as ->.
  - by subst c.
  - unfold with_case_name. by destruct (fs_case_name _).
Qed.

Lemma projection_domain c :
  fp_responsibility_domain (projection_of c) = FailureClassification.responsibility_domain c.
Proof. by destruct c. Qed.

Lemma projection_exclusive c :
  (fp_s3_model_classification (projection_of c) = Some (FailureClassification.as_str c) ∧
   fp_run_failure_reason (projection_of c) = None) ∨
  (fp_s3_model_classification (projection_of c) = None ∧
   fp_run_failure_reason (projection_of c) = Some (FailureClassification.as_str c)).
Proof. unfold projection_of. destruct (FailureClassification.is_s3_model c); [left|right]; done. Qed.

(** The fields of a summary do not contradict each other. *)
Record coherent (s : FailureSummary) : Prop := {
  co_correctness : fs_severity s = FailureSeverity.FailCorrectness ↔
    fs_data_correctness s = DataCorrectnessStatus.Failed;
  co_availability : fs_severity s = FailureSeverity.FailAvailability ↔
    fs_availability s ≠ AvailabilityStatus.Unknown ∧
    fs_availability s ≠ AvailabilityStatus.RecoveredAfterTailLatency;
  co_degraded : fs_severity s = FailureSeverity.Degraded ↔
    fs_data_correctness s = DataCorrectnessStatus.Passed;
  co_damage : fs_data_loss s = Some true ∨ fs_corruption s = Some true →
    fs_severity s = FailureSeverity.FailCorrectness;
  co_recovered : fs_recovered_within_window s = Some true ↔
    fs_severity s = FailureSeverity.Degraded;
}.

Lemma validated_coherent s : validate_classification_projection s = ok tt → coherent s.
Proof.
  intros (c & _ & H)%validate_projection_ok. unfold outcome_fields in H.
  injection H as H1 H2 H3 H4 H5 H6. split; rewrite ?H1, ?H2, ?H3, ?H4, ?H5, ?H6;
    destruct c; simpl; intuition discriminate.
Qed.

(** C35. A failure summary built by FailureSummary::new or FailureSummary::from_checker
    and then extended by the with_ methods in any order passes
    validate_classification_projection, its classification parses back to the one it was
    built from, its responsibility domain is that classification's, and exactly one of
    its S3-model classification and its run failure reason is set. *)
Theorem written_summaries_validate c s :
  summary_written c s →
  validate_classification_projection s = ok tt ∧ coherent s ∧
  FailureClassification.from_name (fs_classification s) = Some c ∧
  fs_responsibility_domain s = Some (domain_from_classification (fs_classification s)) ∧
  ((fs_s3_model_classification s = Some (fs_classification s) ∧ fs_run_failure_reason s = None) ∨
   (fs_s3_model_classification s = None ∧ fs_run_failure_reason s = Some (fs_classification s))).
Proof.
  intros (Hc & Hf & Hm & Hr & Hd & _)%written_stamped.
  assert (validate_classification_projection s = ok tt) by (apply validate_projection_ok; eauto).
  split_and!; [done|by apply validated_coherent|by rewrite Hc; apply from_name_spec| |].
  - rewrite Hd, Hc, projection_domain. unfold domain_from_classification.
    by rewrite (proj2 (from_name_spec _ c) eq_refl).
  - rewrite Hm, Hr, Hc. apply projection_exclusive.
Qed.

(** ** Evidence references *)
(** The references before the run events: few, and never the run events. *)
Definition short_refs (refs : list string) : Prop :=
  NoDup refs ∧ length refs ≤ 4 ∧ "run-events.jsonl" ∉ refs.

Lemma short_refs_kept refs :
  short_refs refs →
  take 5 (push_unique refs "run-events.jsonl") = refs ++ ["run-events.jsonl"].
Proof.
  intros (_ & Hlen & Hin). unfold push_unique. rewrite decide_False by done.
  apply take_ge. rewrite length_app. simpl. lia.
Qed.

Lemma evidence_refs_shape stage phase :
  ∃ refs, short_refs refs ∧
    primary_evidence_refs_for stage phase = refs ++ ["run-events.jsonl"].
Proof.
  unfold primary_evidence_refs_for. cbv zeta.
  match goal with |- context [take 5 (push_unique ?r _)] => exists r; assert (short_refs r) as H end.
  { unfold short_refs. destruct phase;
      repeat match goal with |- context [if ?b then _ else _] => destruct b end;
      refine (bool_decide_unpack _ _); vm_compute; exact I. }
  split; [done|by apply short_refs_kept].
Qed.

Lemma evidence_refs_bounded stage phase :
  NoDup (primary_evidence_refs_for stage phase) ∧
  length (primary_evidence_refs_for stage phase) ≤ 5 ∧
  last (primary_evidence_refs_for stage phase) = Some "run-events.jsonl".
Proof.
  destruct (evidence_refs_shape stage phase) as (refs & (Hnd & Hlen & Hin) & ->). split_and!.
  - apply NoDup_app. split_and!; [done| |apply NoDup_singleton].
    by intros x Hx ->%list_elem_of_singleton.
  - rewrite length_app. simpl. lia.
  - apply last_snoc.
Qed.
