(* ===== verification/Recovery.v ===== *)
(** Recovery stability ([src/fault/checker.rs]): how a failed check is
    classified, the rereads that tell a slow recovery from a lost object, and
    the validators of the resulting report. *)
From S2P Require Import Prelude Ordering RustText History Workload ObjectModel Attempts.
From S2P Require Import ReadFailure Report Evaluate Verdict.
From stdpp Require Import options.
Import RecoveryStabilityClassification.

(** ** Report *)
Record RecoveryStabilityReport := mkRecoveryStabilityReport {
  rsr_scenario : option string;
  rsr_run_id : option string;
  rsr_immediate_passed : bool;
  rsr_reread_attempted_keys : list string;
  rsr_reread_recovered_keys : list string;
  rsr_still_unavailable_keys : list string;
  rsr_hash_mismatches : list string;
  rsr_data_corruption_evidence : list string;
  rsr_classification_evidence : list string;
  rsr_ambiguous_write_evidence : list string;
  rsr_final_list_warning_count : N;
  rsr_list_warnings : list string;
  rsr_harness_errors : list string;
  rsr_max_recovery_seconds : N;
  rsr_recovered_within_seconds : option N;
  rsr_classification : RecoveryStabilityClassification.t;
}.
Global Instance RecoveryStabilityReport_eta : Eta RecoveryStabilityReport := λ r,
  mkRecoveryStabilityReport (rsr_scenario r) (rsr_run_id r) (rsr_immediate_passed r)
    (rsr_reread_attempted_keys r) (rsr_reread_recovered_keys r) (rsr_still_unavailable_keys r)
    (rsr_hash_mismatches r) (rsr_data_corruption_evidence r) (rsr_classification_evidence r)
    (rsr_ambiguous_write_evidence r) (rsr_final_list_warning_count r) (rsr_list_warnings r)
    (rsr_harness_errors r) (rsr_max_recovery_seconds r) (rsr_recovered_within_seconds r)
    (rsr_classification r).

(** Durations are counted in nanoseconds; [DURATION_MAX] is [Duration::MAX]. *)
Definition SECOND : N := 1000000000.
Definition DURATION_MAX : N := u64_max * SECOND + 999999999.
Definition as_secs (d : N) : N := d `div` SECOND.
Definition saturating_double (d : N) : N := (2 * d) `min` DURATION_MAX.

(** [RecoveryStabilityReport::harness_error]. *)
Definition harness_error (message : string) (max_recovery : N) : RecoveryStabilityReport :=
  mkRecoveryStabilityReport None None false [] [] [] [] [] [] [] 0 [] [message]
    (as_secs max_recovery) None HarnessError.
Definition with_identity (scenario run_id : string) (r : RecoveryStabilityReport)
    : RecoveryStabilityReport :=
  r <| rsr_scenario := Some scenario |> <| rsr_run_id := Some run_id |>.

(** The classes a report gives evidence of, besides its own. *)
Definition is_nonempty {A} (l : list A) : bool := negb (is_empty l).
Definition evidence_classes (r : RecoveryStabilityReport) : list RecoveryStabilityClassification.t :=
  [rsr_classification r]
  ++ (if is_nonempty (rsr_hash_mismatches r) || is_nonempty (rsr_data_corruption_evidence r)
      then [DataCorruption] else [])
  ++ omap from_classification_evidence (rsr_classification_evidence r)
  ++ (if existsb (λ key, negb (starts_with "version:" key)) (rsr_still_unavailable_keys r)
      then [CommittedObjectUnavailable] else [])
  ++ (if bool_decide (rsr_classification r = ListUnavailableOrUnknown)
      then [ListUnavailableOrUnknown] else [])
  ++ (if is_nonempty (rsr_ambiguous_write_evidence r) then [AmbiguousWriteMaterialized] else [])
  ++ (if is_nonempty (rsr_reread_attempted_keys r)
         && bool_decide (rsr_reread_attempted_keys r = rsr_reread_recovered_keys r)
         && is_empty (rsr_still_unavailable_keys r) && is_empty (rsr_hash_mismatches r)
         && is_empty (rsr_classification_evidence r) && is_empty (rsr_harness_errors r)
      then [RecoveryTailReadLatency] else [])
  ++ (if is_nonempty (rsr_harness_errors r) then [HarnessError] else []).
(** [RecoveryStabilityReport::evidence_classifications]. *)
Definition evidence_classifications (r : RecoveryStabilityReport) : list string :=
  set_elems (to_set (recovery_as_str <$> evidence_classes r)).

(** ** Signals of a checker report *)
Definition final_list_content_corruption_warning (r : CheckerReport) (warning : string) : bool :=
  match split_once " did not include expected live key " warning with
  | Some (_, key) => negb (existsb (λ missing, bool_decide (missing = key))
                             (cr_missing_committed_objects r))
  | None =>
      contains "included deleted key" warning
      || contains "GET reported ambiguous-delete key" warning
         && contains "still included it" warning
  end.
Definition final_list_content_corruption_signal (r : CheckerReport) : bool :=
  existsb (final_list_content_corruption_warning r) (cr_list_warnings r).
Definition has_data_corruption_signal (r : CheckerReport) : bool :=
  is_nonempty (cr_hash_mismatches r) || is_nonempty (cr_successful_corrupted_reads r)
  || is_nonempty (cr_unknown_write_value_conflicts r) || final_list_content_corruption_signal r.
Definition has_committed_unavailable_signal (r : CheckerReport) : bool :=
  is_nonempty (cr_missing_committed_objects r)
  || is_nonempty (cr_unavailable_committed_objects r)
  || is_nonempty (cr_unknown_committed_read_failures r).
Definition has_list_unavailable_or_unknown_signal (r : CheckerReport) : bool :=
  bool_decide (0 < cr_final_list_warning_count r)%N
  && negb (final_list_content_corruption_signal r).

Definition classify_without_reread (r : CheckerReport) : RecoveryStabilityClassification.t :=
  if is_nonempty (cr_version_hash_mismatches r) then VersionHashMismatch
  else if is_nonempty (cr_missing_committed_delete_markers r) then DeleteMarkerMissing
  else if is_nonempty (cr_resurrected_deleted_objects r)
          || is_nonempty (cr_unexpected_visible_deleted_objects r) then DeletedObjectResurrected
  else if is_nonempty (cr_listed_keys_unreadable r) then ListedKeyUnreadable
  else if is_nonempty (cr_unexpected_listed_objects r) then UnexpectedListedObject
  else if is_nonempty (cr_missing_committed_versions r) then CommittedVersionMissing
  else if has_data_corruption_signal r then DataCorruption
  else if is_nonempty (cr_unavailable_committed_versions r) then CommittedVersionUnavailable
  else if has_committed_unavailable_signal r then CommittedObjectUnavailable
  else if has_list_unavailable_or_unknown_signal r then ListUnavailableOrUnknown
  else if is_nonempty (cr_delete_marker_lineage_incomplete r) then DeleteMarkerLineageIncomplete
  else if is_nonempty (cr_multipart_upload_lineage_incomplete r)
  then MultipartUploadLineageIncomplete
  else if bool_decide (0 < cr_committed_writes_missing_version_id_count r)%N
  then VersionIdMissingOnCommittedWrite
  else if is_nonempty (cr_unknown_writes_materialized r) then AmbiguousWriteMaterialized
  else HarnessError.
(** [CheckerReport::failure_classification]. *)
Definition failure_classification (r : CheckerReport) : RecoveryStabilityClassification.t :=
  classify_without_reread r.

(** ** Evidence of the immediate check *)
Definition tagged (tag : string) (items : list string) : list string :=
  (λ item, tag +:+ item) <$> items.

Definition immediate_data_corruption_evidence (r : CheckerReport) : list string :=
  let corruption_list_warnings :=
    tagged "final_list_warning: "
      (filter (λ item, final_list_content_corruption_warning r item = true)
         (cr_list_warnings r)) in
  let count := len corruption_list_warnings in
  sort (tagged "unknown_write_value_conflict: " (cr_unknown_write_value_conflicts r)
        ++ corruption_list_warnings
        ++ (if final_list_content_corruption_signal r
               && bool_decide (count < cr_final_list_warning_count r)%N
            then ["final_list_content_warning_count: " +:+ dec (cr_final_list_warning_count r)
                  +:+ " total, " +:+ dec count +:+ " sampled"]
            else [])).

Definition immediate_classification_evidence (r : CheckerReport) : list string :=
  let sampled := len (cr_committed_writes_missing_version_id r) in
  sort_dedup
    (tagged "version_hash_mismatch: " (cr_version_hash_mismatches r)
     ++ tagged "missing_committed_version: " (cr_missing_committed_versions r)
     ++ tagged "unavailable_committed_version: " (cr_unavailable_committed_versions r)
     ++ tagged "missing_committed_delete_marker: " (cr_missing_committed_delete_markers r)
     ++ tagged "resurrected_deleted_object: "
          (cr_resurrected_deleted_objects r ++ cr_unexpected_visible_deleted_objects r)
     ++ tagged "listed_key_unreadable: " (cr_listed_keys_unreadable r)
     ++ tagged "unexpected_listed_object: " (cr_unexpected_listed_objects r)
     ++ tagged "committed_write_missing_version_id: " (cr_committed_writes_missing_version_id r)
     ++ (if bool_decide (sampled < cr_committed_writes_missing_version_id_count r)%N
         then ["committed_writes_missing_version_id_count: "
               +:+ dec (cr_committed_writes_missing_version_id_count r) +:+ " total, "
               +:+ dec sampled +:+ " sampled"]
         else [])
     ++ tagged "delete_marker_lineage_incomplete: " (cr_delete_marker_lineage_incomplete r)
     ++ tagged "multipart_upload_lineage_incomplete: "
          (cr_multipart_upload_lineage_incomplete r)).

Definition immediate_ambiguous_write_evidence (r : CheckerReport) : list string :=
  sort (tagged "ambiguous_write_materialized: " (cr_unknown_writes_materialized r)).

(** [{:?}] of a [CommittedReadFailure]. *)
Definition failure_debug (f : CommittedReadFailure) : string :=
  match f with
  | Observed key outcome http_status error unexpected_body_bytes =>
      "Observed { key: " +:+ str_debug key +:+ ", outcome: " +:+ OperationOutcome.debug outcome
      +:+ ", http_status: " +:+ option_debug dec http_status
      +:+ ", error: " +:+ option_debug str_debug error
      +:+ ", unexpected_body_bytes: " +:+ option_debug dec unexpected_body_bytes +:+ " }"
  | Legacy message => "Legacy(" +:+ str_debug message +:+ ")"
  end.

(** The committed reads that failed, in the order the report keeps them. *)
Definition committed_read_failures (r : CheckerReport) : list CommittedReadFailure :=
  cr_unavailable_committed_objects r ++ cr_unknown_committed_read_failures r.

(** The key of a failure, seen for the first time; the keys seen with it. *)
Definition observe_failure_key (observed : gset string) (f : CommittedReadFailure)
    : Result (string * gset string) :=
  key ← context (failure_key f)
          ("checker report contains an ambiguous committed-read failure: " +:+ failure_debug f);
  _ ← ensure (bool_decide (key ∉ observed))
        ("checker report contains duplicate committed-read evidence for key " +:+ str_debug key);
  ok (key, {[key]} ∪ observed).

Definition still_unavailable_step (attempted : gset string) (st : gset string * gset string)
    (f : CommittedReadFailure) : Result (gset string * gset string) :=
  let '(keys, observed) := st in
  '(key, observed) ← observe_failure_key observed f;
  ok (if decide (key ∈ attempted) then keys else {[key]} ∪ keys, observed).

Definition immediate_still_unavailable_keys (r : CheckerReport)
    (reread_attempted_keys : list string) : Result (list string) :=
  let keys := to_set (cr_missing_committed_objects r) in
  _ ← ensure (bool_decide (size keys = length (cr_missing_committed_objects r)))
        "checker report contains duplicate missing committed-object keys";
  '(keys, _) ← try_fold (still_unavailable_step (to_set reread_attempted_keys)) (keys, keys)
                 (committed_read_failures r);
  ok (set_elems (keys ∪ to_set (tagged "version:" (cr_unavailable_committed_versions r)))).

Definition recovery_candidate_step (st : gset string * gset string) (f : CommittedReadFailure)
    : Result (gset string * gset string) :=
  let '(keys, observed) := st in
  '(_, observed) ← observe_failure_key observed f;
  parsed ← context (failure_evidence f)
             ("checker report contains an unparseable committed-read failure: "
              +:+ failure_debug f);
  ok (if is_recovery_tail_read_failure (rfe_outcome parsed) (rfe_http_status parsed)
           (rfe_error parsed)
      then {[rfe_key parsed]} ∪ keys else keys, observed).

Definition immediate_recovery_candidate_keys (r : CheckerReport) : Result (gset string) :=
  '(keys, _) ← try_fold recovery_candidate_step (∅, ∅) (committed_read_failures r);
  ok keys.

Definition immediate_recovery_tail_candidate_keys (r : CheckerReport) : option (gset string) :=
  match immediate_recovery_candidate_keys r with
  | ok candidates =>
      if decide (size candidates = length (cr_unavailable_committed_objects r)
                                   + length (cr_unknown_committed_read_failures r))
      then Some candidates else None
  | _ => None
  end.

(** ** Key sets of a recovery report *)
Definition has_non_availability_result (r : RecoveryStabilityReport) : bool :=
  is_nonempty (rsr_hash_mismatches r) || is_nonempty (rsr_data_corruption_evidence r)
  || is_nonempty (rsr_ambiguous_write_evidence r) || is_nonempty (rsr_harness_errors r).

Definition recovery_key_sets_are_consistent (r : RecoveryStabilityReport) : bool :=
  let attempted := to_set (rsr_reread_attempted_keys r) in
  let recovered := to_set (rsr_reread_recovered_keys r) in
  let still_unavailable := to_set (rsr_still_unavailable_keys r) in
  if bool_decide (size attempted ≠ length (rsr_reread_attempted_keys r))
     || bool_decide (size recovered ≠ length (rsr_reread_recovered_keys r))
     || bool_decide (size still_unavailable ≠ length (rsr_still_unavailable_keys r))
     || negb (bool_decide (recovered ⊆ attempted))
     || negb (bool_decide (recovered ## still_unavailable))
  then false
  else has_non_availability_result r
       || bool_decide (attempted ∖ recovered ⊆ still_unavailable).

(** ** Classification after the rereads *)
Definition immediate_failures_are_only_reread_candidates (immediate : CheckerReport)
    (recovery : RecoveryStabilityReport) : bool :=
  match immediate_recovery_tail_candidate_keys immediate with
  | None => false
  | Some candidate_keys =>
      let attempted_keys := to_set (rsr_reread_attempted_keys recovery) in
      let recovered_keys := to_set (rsr_reread_recovered_keys recovery) in
      cr_tenant_recovered immediate
      && is_empty (cr_missing_committed_objects immediate)
      && is_empty (cr_hash_mismatches immediate)
      && is_empty (cr_successful_corrupted_reads immediate)
      && is_empty (cr_unexpected_visible_deleted_objects immediate)
      && is_empty (cr_unknown_write_value_conflicts immediate)
      && bool_decide (cr_final_list_warning_count immediate = 0%N)
      && bool_decide (cr_committed_writes_missing_version_id_count immediate = 0%N)
      && is_empty (cr_missing_committed_versions immediate)
      && is_empty (cr_unavailable_committed_versions immediate)
      && is_empty (cr_version_hash_mismatches immediate)
      && is_empty (cr_missing_committed_delete_markers immediate)
      && is_empty (cr_resurrected_deleted_objects immediate)
      && is_empty (cr_listed_keys_unreadable immediate)
      && is_empty (cr_unexpected_listed_objects immediate)
      && is_empty (cr_delete_marker_lineage_incomplete immediate)
      && is_empty (cr_multipart_upload_lineage_incomplete immediate)
      && negb (bool_decide (candidate_keys = ∅))
      && recovery_key_sets_are_consistent recovery
      && bool_decide (candidate_keys = attempted_keys)
      && bool_decide (attempted_keys = recovered_keys)
  end.

Definition lineage_classes : list RecoveryStabilityClassification.t :=
  [DeleteMarkerLineageIncomplete; MultipartUploadLineageIncomplete;
   VersionIdMissingOnCommittedWrite].

Definition classify_recovery_stability (r : RecoveryStabilityReport) (immediate : CheckerReport)
    : RecoveryStabilityClassification.t :=
  let immediate_classification := failure_classification immediate in
  if is_nonempty (rsr_classification_evidence r)
     && match immediate_classification with
        | CommittedVersionMissing | VersionHashMismatch | DeleteMarkerMissing
        | DeletedObjectResurrected => true
        | _ => false
        end
  then immediate_classification
  else if is_nonempty (rsr_hash_mismatches r) || is_nonempty (rsr_data_corruption_evidence r)
  then DataCorruption
  else if is_nonempty (rsr_harness_errors r) then HarnessError
  else if is_nonempty (rsr_classification_evidence r)
          && bool_decide (immediate_classification = CommittedVersionUnavailable)
  then immediate_classification
  else if is_nonempty (rsr_still_unavailable_keys r) then CommittedObjectUnavailable
  else if is_nonempty (rsr_ambiguous_write_evidence r) then AmbiguousWriteMaterialized
  else if has_list_unavailable_or_unknown_signal immediate then ListUnavailableOrUnknown
  else match List.find (λ c, existsb (matches_classification_evidence c)
                               (rsr_classification_evidence r)) lineage_classes with
  | Some classification => classification
  | None =>
      if is_nonempty (rsr_reread_attempted_keys r)
         && immediate_failures_are_only_reread_candidates immediate r
      then RecoveryTailReadLatency
      else classify_without_reread immediate
  end.

Definition finish_recovery_stability_report (r : RecoveryStabilityReport)
    (immediate : CheckerReport) : RecoveryStabilityReport :=
  r <| rsr_classification := classify_recovery_stability r immediate |>.

(** ** Validation against the checker *)
Definition validate_recovery_key_sets (r : RecoveryStabilityReport) (immediate : CheckerReport)
    : Result unit :=
  _ ← ensure (recovery_key_sets_are_consistent r)
        "recovery reread key sets are internally inconsistent";
  let attempted := to_set (rsr_reread_attempted_keys r) in
  candidates ← immediate_recovery_candidate_keys immediate;
  _ ← ensure (bool_decide (attempted = candidates))
        "recovery reread_attempted_keys does not equal checker-derived recovery candidates";
  let recovered := to_set (rsr_reread_recovered_keys r) in
  let still := to_set (rsr_still_unavailable_keys r) in
  baseline ← immediate_still_unavailable_keys immediate (set_elems candidates);
  let baseline := to_set baseline in
  _ ← ensure (bool_decide (still ⊆ baseline ∪ attempted))
        "recovery still_unavailable_keys contains keys absent from checker evidence and reread candidates";
  if has_non_availability_result r then ok tt else
  ensure (bool_decide (still = baseline ∪ attempted ∖ recovered))
    "recovery still_unavailable_keys does not equal checker-derived unavailable keys plus attempted-but-not-recovered keys".

(** [anyhow]'s [{:#}] chain is not observed: a context replaces the message. *)
Definition with_context {A} (m : Result A) (msg : string) : Result A :=
  match m with err _ => err msg | _ => m end.

Definition validate_recovery_stability_against_checker (recovery : RecoveryStabilityReport)
    (checker : CheckerReport) : Result unit :=
  _ ← ensure (bool_decide (rsr_immediate_passed recovery = cr_passed checker)
              && bool_decide (rsr_final_list_warning_count recovery
                              = cr_final_list_warning_count checker)
              && bool_decide (rsr_list_warnings recovery = cr_list_warnings checker))
        "recovery-stability-report.json immediate verdict or LIST evidence does not match the checker";
  _ ← with_context (validate_recovery_key_sets recovery checker)
        "recovery-stability-report.json key evidence is not bound to checker evidence";
  ensure (bool_decide (rsr_classification recovery
                       = classify_recovery_stability recovery checker))
    ("recovery-stability-report.json classification does not match its checker/recovery evidence: expected "
     +:+ recovery_as_str (classify_recovery_stability recovery checker)).
