(* ===== verification/RecoveryFacts.v ===== *)
(** Facts about the classification of a failed check: the keys that stay
    unavailable and the reread candidates as sets, the class each piece of
    evidence stands for, and what each verdict of the two classifiers implies. *)
From S2P Require Import Prelude Ordering RustText History Workload ObjectModel Attempts.
From S2P Require Import ReadFailure Report Evaluate Verdict Recovery.
From stdpp Require Import options.
Import RecoveryStabilityClassification.

(** ** Lists and sets *)
Lemma is_nonempty_true {A} (l : list A) : is_nonempty l = true ↔ l ≠ [].
Proof. by destruct l. Qed.
Lemma is_nonempty_false {A} (l : list A) : is_nonempty l = false ↔ l = [].
Proof. by destruct l. Qed.

Lemma elem_of_tagged s tag l : s ∈ tagged tag l ↔ ∃ item, s = tag +:+ item ∧ item ∈ l.
Proof. apply list_elem_of_fmap. Qed.
Lemma tagged_nil tag l : tagged tag l = [] ↔ l = [].
Proof. by destruct l. Qed.

Lemma elem_of_sort_dedup x l : x ∈ sort_dedup l ↔ x ∈ l.
Proof. unfold sort_dedup, sort. by rewrite elem_of_dedup, elem_of_sort_by. Qed.

Lemma to_set_set_elems (s : gset string) : to_set (set_elems s) = s.
Proof. apply set_eq. intros k. by rewrite elem_of_to_set, elem_of_set_elems. Qed.

Lemma NoDup_to_set_size (l : list string) :
  bool_decide (size (to_set l) ≠ length l) = false ↔ NoDup l.
Proof. rewrite bool_decide_eq_false, <- to_set_size. split; [intros H; by apply dec_stable|tauto]. Qed.

(** ** Keys of failed reads *)
Lemma evidence_has_key f e : failure_evidence f = Some e → failure_key f = Some (rfe_key e).
Proof.
  destruct f as [key o st er [b|]|message]; simpl.
  - discriminate.
  - case_decide; [discriminate|]. by intros [= <-].
  - intros H. unfold legacy_read_failure_key. by rewrite H.
Qed.

(** The failures name distinct keys, none of them in [seen]. *)
Definition names_keys (seen : gset string) (fs : list CommittedReadFailure) (keys : list string)
    : Prop :=
  Forall2 (λ f k, failure_key f = Some k) fs keys ∧ NoDup keys ∧ (∀ k, k ∈ keys → k ∉ seen).

Lemma observe_failure_key_ok observed f key observed' :
  observe_failure_key observed f = ok (key, observed') ↔
  failure_key f = Some key ∧ (key ∉ observed) ∧ observed' = {[key]} ∪ observed.
Proof.
  unfold observe_failure_key. rewrite bind_context_ok. setoid_rewrite bind_ensure_ok.
  setoid_rewrite bool_decide_eq_true. naive_solver.
Qed.

Lemma names_keys_cons seen f fs k keys :
  failure_key f = Some k → k ∉ seen → names_keys ({[k]} ∪ seen) fs keys →
  names_keys seen (f :: fs) (k :: keys).
Proof.
  intros Hf Hk (HF & Hnd & Hdis). split_and!.
  - by constructor.
  - constructor; [|done]. intros Hin%Hdis. set_solver.
  - intros k' [->|Hin]%elem_of_cons; [done|]. apply Hdis in Hin. set_solver.
Qed.

Lemma still_unavailable_fold attempted fs keys observed keys' observed' :
  try_fold (still_unavailable_step attempted) (keys, observed) fs = ok (keys', observed') →
  ∃ named, names_keys observed fs named ∧ keys' = keys ∪ (to_set named ∖ attempted).
Proof.
  revert keys observed. induction fs as [|f fs IH]; intros keys observed.
  - intros [= <- <-]. exists []. split; [|set_solver]. split_and!; [constructor..|]. by intros k ?%elem_of_nil.
  - cbn [try_fold still_unavailable_step]. intros H.
    apply bind_ok in H as ([k1 o1] & H & Hrest).
    apply bind_ok in H as ([key obs] & (Hf & Hk & ->)%observe_failure_key_ok & [= <- <-]).
    apply IH in Hrest as (named & Hn & ->). exists (key :: named).
    split; [by apply names_keys_cons|]. unfold to_set. case_decide; set_solver.
Qed.

(** What [immediate_still_unavailable_keys] returns. *)
Lemma still_unavailable_ok r attempted still :
  immediate_still_unavailable_keys r attempted = ok still →
  NoDup (cr_missing_committed_objects r) ∧
  ∃ named, names_keys (to_set (cr_missing_committed_objects r)) (committed_read_failures r) named ∧
    still = set_elems (to_set (cr_missing_committed_objects r)
                       ∪ (to_set named ∖ to_set attempted)
                       ∪ to_set (tagged "version:" (cr_unavailable_committed_versions r))).
Proof.
  unfold immediate_still_unavailable_keys. rewrite bind_ensure_ok, bool_decide_eq_true, to_set_size.
  intros [Hnd ([keys obs] & H & [= <-])%bind_ok]. split; [done|].
  apply still_unavailable_fold in H as (named & Hn & ->). by exists named.
Qed.

(** A failure that reads as a slow recovery. *)
Definition tail_failure (f : CommittedReadFailure) (key : string) : Prop :=
  ∃ e, failure_evidence f = Some e ∧ rfe_key e = key ∧
    is_recovery_tail_read_failure (rfe_outcome e) (rfe_http_status e) (rfe_error e) = true.

Lemma recovery_candidate_fold fs keys observed keys' observed' :
  try_fold recovery_candidate_step (keys, observed) fs = ok (keys', observed') →
  ∀ k, k ∈ keys' ↔ k ∈ keys ∨ ∃ f, f ∈ fs ∧ tail_failure f k.
Proof.
  revert keys observed. induction fs as [|f fs IH]; intros keys observed.
  - intros [= <- <-] k. set_solver.
  - cbn [try_fold recovery_candidate_step]. intros H k.
    apply bind_ok in H as ([k1 o1] & H & Hrest).
    apply bind_ok in H as ([key obs] & _ & H).
    apply bind_context_ok in H as (e & He & [= <- <-]).
    rewrite (IH _ _ Hrest). setoid_rewrite elem_of_cons.
    destruct (is_recovery_tail_read_failure _ _ _) eqn:Ht.
    + rewrite elem_of_union, elem_of_singleton. split.
      * intros [[->|?]|(g & ? & ?)]; [right; exists f; split; [by left|by exists e]|by left|right; eauto].
      * intros [?|(g & [->|?] & Hg)]; [by auto| |right; eauto].
        destruct Hg as (e' & He' & <- & _). rewrite He in He'. injection He' as <-. auto.
    + split; [intros [?|(g & ? & ?)]; [by left|right; eauto]|].
      intros [?|(g & [->|?] & Hg)]; [by left| |right; eauto].
      destruct Hg as (e' & He' & _ & Ht'). congruence.
Qed.

Lemma recovery_candidates_ok r c :
  immediate_recovery_candidate_keys r = ok c →
  ∀ k, k ∈ c ↔ ∃ f, f ∈ committed_read_failures r ∧ tail_failure f k.
Proof.
  unfold immediate_recovery_candidate_keys. intros ([keys obs] & H & [= <-])%bind_ok k.
  rewrite (recovery_candidate_fold _ _ _ _ _ H). set_solver.
Qed.

Lemma names_keys_elem seen fs keys f k :
  names_keys seen fs keys → f ∈ fs → failure_key f = Some k → k ∈ keys.
Proof.
  intros (HF & _ & _). induction HF as [|g k' fs keys Hg _ IH]; intros Hin Hf.
  - by apply elem_of_nil in Hin.
  - apply elem_of_cons in Hin as [->|Hin]; [|right; auto]. rewrite Hg in Hf. injection Hf as ->. left.
Qed.

Lemma tail_failure_named seen fs keys f k :
  names_keys seen fs keys → f ∈ fs → tail_failure f k → k ∈ keys.
Proof.
  intros Hn Hin (e & He & <- & _). by eapply names_keys_elem, evidence_has_key.
Qed.

(** Candidates are named by failed reads, hence not by missing objects. *)
Lemma candidates_named r c attempted still :
  immediate_recovery_candidate_keys r = ok c →
  immediate_still_unavailable_keys r attempted = ok still →
  ∀ k, k ∈ c → k ∉ cr_missing_committed_objects r.
Proof.
  intros Hc Hs k Hk. apply still_unavailable_ok in Hs as (_ & named & Hn & _).
  apply (recovery_candidates_ok _ _ Hc) in Hk as (f & Hf & Ht).
  rewrite <- elem_of_to_set. destruct Hn as (HF & Hnd & Hdis) eqn:E. apply Hdis.
  by eapply tail_failure_named.
Qed.

(** ** Evidence and the class it stands for *)

(** The report records evidence of the class. *)
Definition class_evidenced (r : CheckerReport) (c : RecoveryStabilityClassification.t) : Prop :=
  match c with
  | VersionHashMismatch => cr_version_hash_mismatches r ≠ []
  | CommittedVersionMissing => cr_missing_committed_versions r ≠ []
  | CommittedVersionUnavailable => cr_unavailable_committed_versions r ≠ []
  | DeleteMarkerMissing => cr_missing_committed_delete_markers r ≠ []
  | DeletedObjectResurrected =>
      cr_resurrected_deleted_objects r ≠ [] ∨ cr_unexpected_visible_deleted_objects r ≠ []
  | ListedKeyUnreadable => cr_listed_keys_unreadable r ≠ []
  | UnexpectedListedObject => cr_unexpected_listed_objects r ≠ []
  | VersionIdMissingOnCommittedWrite =>
      cr_committed_writes_missing_version_id r ≠ [] ∨
      (0 < cr_committed_writes_missing_version_id_count r)%N
  | DeleteMarkerLineageIncomplete => cr_delete_marker_lineage_incomplete r ≠ []
  | MultipartUploadLineageIncomplete => cr_multipart_upload_lineage_incomplete r ≠ []
  | _ => False
  end.

(** Some evidence of the list stands for the class. *)
Definition lists_class (evidence : list string) (c : RecoveryStabilityClassification.t) : Prop :=
  ∃ e, e ∈ evidence ∧ from_classification_evidence e = Some c.

Lemma lists_class_app l1 l2 c : lists_class (l1 ++ l2) c ↔ lists_class l1 c ∨ lists_class l2 c.
Proof. unfold lists_class. setoid_rewrite elem_of_app. naive_solver. Qed.

Lemma lists_class_tagged tag l c d :
  (∀ item, from_classification_evidence (tag +:+ item) = Some c) →
  lists_class (tagged tag l) d ↔ d = c ∧ l ≠ [].
Proof.
  intros Htag. unfold lists_class. setoid_rewrite elem_of_tagged. split.
  - intros (e & (item & -> & Hi) & Hd). rewrite Htag in Hd. injection Hd as ->.
    split; [done|]. intros ->. by apply elem_of_nil in Hi.
  - intros [-> Hl]. destruct l as [|item l]; [done|]. exists (tag +:+ item). split; [|done].
    exists item. split; [done|left].
Qed.

Lemma lists_class_count (b : bool) text c d :
  from_classification_evidence text = Some c →
  lists_class (if b then [text] else []) d ↔ d = c ∧ b = true.
Proof.
  intros Ht. unfold lists_class. split.
  - destruct b; intros (e & He & Hd); [|by apply elem_of_nil in He].
    apply list_elem_of_singleton in He as ->. split; congruence.
  - intros [-> ->]. exists text. split; [left|done].
Qed.

Lemma immediate_evidence_classes r c :
  lists_class (immediate_classification_evidence r) c ↔ class_evidenced r c.
Proof.
  unfold immediate_classification_evidence. cbv zeta.
  match goal with |- lists_class (sort_dedup ?l) _ ↔ _ =>
    transitivity (lists_class l c); [unfold lists_class; by setoid_rewrite elem_of_sort_dedup|] end.
  rewrite !lists_class_app.
  rewrite (lists_class_tagged _ _ VersionHashMismatch) by done.
  rewrite (lists_class_tagged _ _ CommittedVersionMissing) by done.
  rewrite (lists_class_tagged _ _ CommittedVersionUnavailable) by done.
  rewrite (lists_class_tagged _ _ DeleteMarkerMissing) by done.
  rewrite (lists_class_tagged _ _ DeletedObjectResurrected) by done.
  rewrite (lists_class_tagged _ _ ListedKeyUnreadable) by done.
  rewrite (lists_class_tagged _ _ UnexpectedListedObject) by done.
  rewrite (lists_class_tagged _ _ VersionIdMissingOnCommittedWrite) by done.
  rewrite (lists_class_count _ _ VersionIdMissingOnCommittedWrite) by done.
  rewrite (lists_class_tagged _ _ DeleteMarkerLineageIncomplete) by done.
  rewrite (lists_class_tagged _ _ MultipartUploadLineageIncomplete) by done.
  rewrite bool_decide_eq_true. destruct c; simpl; try (intuition congruence).
  - rewrite app_nil. destruct (cr_resurrected_deleted_objects r), (cr_unexpected_visible_deleted_objects r);
      intuition congruence.
  - destruct (cr_committed_writes_missing_version_id r); simpl; [unfold len; simpl|];
      intuition congruence.
Qed.

Lemma immediate_evidence_nil r :
  immediate_classification_evidence r = [] → ∀ c, ¬ class_evidenced r c.
Proof.
  intros H c Hc%immediate_evidence_classes. rewrite H in Hc. destruct Hc as (e & He & _).
  by apply elem_of_nil in He.
Qed.

(** ** What a classification of the immediate check implies *)
Definition class_supported (r : CheckerReport) (c : RecoveryStabilityClassification.t) : Prop :=
  match c with
  | DataCorruption => has_data_corruption_signal r = true
  | CommittedObjectUnavailable => has_committed_unavailable_signal r = true
  | ListUnavailableOrUnknown => has_list_unavailable_or_unknown_signal r = true
  | AmbiguousWriteMaterialized => cr_unknown_writes_materialized r ≠ []
  | RecoveryTailReadLatency => False
  | HarnessError => True
  | _ => class_evidenced r c
  end.

Lemma classify_supported r : class_supported r (classify_without_reread r).
Proof.
  unfold classify_without_reread.
  repeat match goal with |- class_supported _ (if ?b then _ else _) => destruct b eqn:? end;
    simpl; rewrite ?is_nonempty_true, ?orb_true_iff, ?bool_decide_eq_true in *; auto.
  by rewrite !is_nonempty_true in *.
Qed.

(** No signal outranks the unavailable objects. *)
Lemma classify_unavailable_inv r :
  classify_without_reread r = CommittedObjectUnavailable →
  has_committed_unavailable_signal r = true ∧ has_data_corruption_signal r = false ∧
  cr_version_hash_mismatches r = [] ∧ cr_missing_committed_delete_markers r = [] ∧
  cr_resurrected_deleted_objects r = [] ∧ cr_unexpected_visible_deleted_objects r = [] ∧
  cr_listed_keys_unreadable r = [] ∧ cr_unexpected_listed_objects r = [] ∧
  cr_missing_committed_versions r = [] ∧ cr_unavailable_committed_versions r = [].
Proof.
  unfold classify_without_reread.
  repeat match goal with |- (if ?b then _ else _) = _ → _ => destruct b eqn:? end; try done.
  intros _. rewrite ?orb_false_iff, ?is_nonempty_false in *. tauto.
Qed.

Lemma corruption_signal_evidence r :
  has_data_corruption_signal r = true →
  cr_hash_mismatches r ++ cr_successful_corrupted_reads r ≠ [] ∨
  immediate_data_corruption_evidence r ≠ [].
Proof.
  unfold has_data_corruption_signal. rewrite !orb_true_iff, !is_nonempty_true.
  intros [[[H|H]|H]|H]; [left|left|right|right].
  - by intros [? _]%app_nil.
  - by intros [_ ?]%app_nil.
  - unfold immediate_data_corruption_evidence. rewrite sort_nil. intros [Hn _]%app_nil.
    by apply tagged_nil in Hn.
  - unfold immediate_data_corruption_evidence. rewrite sort_nil. intros [_ [Hn _]%app_nil]%app_nil.
    apply tagged_nil in Hn. apply existsb_exists in H as (w & Hw & Hb).
    assert (w ∈ @nil string) as Hx; [|by apply elem_of_nil in Hx].
    rewrite <- Hn. apply list_elem_of_filter. split; [done|]. by apply list_elem_of_In.
Qed.

Lemma ambiguous_evidence_nil r :
  immediate_ambiguous_write_evidence r = [] ↔ cr_unknown_writes_materialized r = [].
Proof. unfold immediate_ambiguous_write_evidence. by rewrite sort_nil, tagged_nil. Qed.

Lemma exists_matching evidence c :
  existsb (matches_classification_evidence c) evidence = true ↔ lists_class evidence c.
Proof.
  rewrite existsb_exists. unfold lists_class, matches_classification_evidence.
  setoid_rewrite <- list_elem_of_In. by setoid_rewrite bool_decide_eq_true.
Qed.

(** ** Slow reads *)

(** Nothing but failed reads speaks against the immediate check. *)
Definition only_read_failures (r : CheckerReport) : Prop :=
  cr_tenant_recovered r = true ∧ cr_missing_committed_objects r = [] ∧
  cr_hash_mismatches r = [] ∧ cr_successful_corrupted_reads r = [] ∧
  cr_unexpected_visible_deleted_objects r = [] ∧ cr_unknown_write_value_conflicts r = [] ∧
  cr_final_list_warning_count r = 0%N ∧ cr_committed_writes_missing_version_id_count r = 0%N ∧
  cr_missing_committed_versions r = [] ∧ cr_unavailable_committed_versions r = [] ∧
  cr_version_hash_mismatches r = [] ∧ cr_missing_committed_delete_markers r = [] ∧
  cr_resurrected_deleted_objects r = [] ∧ cr_listed_keys_unreadable r = [] ∧
  cr_unexpected_listed_objects r = [] ∧ cr_delete_marker_lineage_incomplete r = [] ∧
  cr_multipart_upload_lineage_incomplete r = [].

Lemma reread_candidates_iff immediate recovery :
  immediate_failures_are_only_reread_candidates immediate recovery = true ↔
  only_read_failures immediate ∧
  ∃ candidates, immediate_recovery_candidate_keys immediate = ok candidates ∧
    size candidates = length (committed_read_failures immediate) ∧ candidates ≠ ∅ ∧
    recovery_key_sets_are_consistent recovery = true ∧
    candidates = to_set (rsr_reread_attempted_keys recovery) ∧
    candidates = to_set (rsr_reread_recovered_keys recovery).
Proof.
  unfold immediate_failures_are_only_reread_candidates, immediate_recovery_tail_candidate_keys,
    committed_read_failures. rewrite length_app.
  destruct (immediate_recovery_candidate_keys immediate) as [c|e|]; [|naive_solver..].
  case_decide as Hsize; [|naive_solver].
  rewrite !andb_true_iff, negb_true_iff, bool_decide_eq_false, !is_empty_true, !bool_decide_eq_true.
  unfold only_read_failures. split.
  - intros. destruct_and!. split; [split_and!; assumption|exists c; split_and!; congruence].
  - intros [? (c' & [= <-] & ? & ? & ? & ? & ?)]. destruct_and!. split_and!; congruence.
Qed.
