(* ===== verification/Reread.v ===== *)
(** The recovery rereads ([recovery_stability_reread] of
    [src/fault/checker.rs]): the committed objects whose final read timed out
    are read again, in rounds with doubling delays, until they are back, an
    answer rules recovery out, or the window closes.

    The store and the clock are the [RereadEnv] interface. Time is counted in
    nanoseconds from the start of the rereads; the interface says how much of
    it passes before every reading of the clock, so that the clock never runs
    backwards and a sleep takes at least its duration. *)
From S2P Require Import Prelude Ordering RustText History Workload ObjectModel Attempts.
From S2P Require Import ReadFailure Report Evaluate Verdict Recovery.
From stdpp Require Import options.

Class RereadEnv := {
  re_sha256_hex : list N → string;
  (** The answer to the GET of a key in the given round. *)
  re_get : nat → string → Result GetObjectResult;
  (** The order in which the batch of the given round completes. *)
  re_completed : nat → list string → list string;
  (** The time that passes before the given reading of the clock. *)
  re_elapsed : nat → N;
  (** Whether the wait for an answer that follows the given reading times out.
      A stream with nothing left to wait for ends at once. *)
  re_times_out : nat → bool;
}.

(** ** The clock *)
Record Clock := mkClock { ck_time : N; ck_reads : nat }.
(** [Instant::now()]. *)
Definition now `{RereadEnv} (c : Clock) : N * Clock :=
  let t := (ck_time c + re_elapsed (ck_reads c))%N in (t, mkClock t (S (ck_reads c))).
(** [async_sleep(d)]. *)
Definition async_sleep (d : N) (c : Clock) : Clock := mkClock (ck_time c + d) (ck_reads c).

(** ** One answer *)
Definition evaluate_recovery_reread_get (sha256_hex : list N → string)
    (report : RecoveryStabilityReport) (pending : gset string) (key : string)
    (expected : ExpectedObject) (ambiguous_writes : list AmbiguousWriteAttempt)
    (get : GetObjectResult) : RecoveryStabilityReport * gset string :=
  if committed_get_matches sha256_hex expected get then
    (report <| rsr_reread_recovered_keys ::= (.++ [key]) |>, pending ∖ {[key]})
  else
    match get_body get with
    | None => (report, pending)
    | Some body =>
        match matching_active_ambiguous_write sha256_hex ambiguous_writes body with
        | Some attempt =>
            (report <| rsr_ambiguous_write_evidence ::=
                         (.++ [ambiguous_write_materialized_message sha256_hex key attempt body]) |>,
             pending ∖ {[key]})
        | None =>
            match matching_superseded_ambiguous_write sha256_hex ambiguous_writes body with
            | Some attempt =>
                (report <| rsr_ambiguous_write_evidence ::=
                             (.++ [ambiguous_write_materialized_message sha256_hex key attempt body]) |>
                        <| rsr_data_corruption_evidence ::=
                             (.++ ["unknown_write_value_conflict: "
                                   +:+ superseded_ambiguous_write_conflict_message sha256_hex key
                                         (Some expected) attempt body]) |>,
                 pending ∖ {[key]})
            | None =>
                (report <| rsr_hash_mismatches ::=
                             (.++ [hash_mismatch_message sha256_hex key expected body]) |>,
                 pending ∖ {[key]})
            end
        end
    end.

Definition recovery_tail_candidate_keys (immediate_records : list OperationRecord)
    (m : ObjectModel) : list string :=
  set_elems (to_set (omap (λ r,
    key ← op_key r;
    if bool_decide (op_kind r = OperationKind.Get) && bool_decide (op_version_id r = None)
       && bool_decide (is_Some (om_live m !! key))
       && is_recovery_tail_read_failure (op_outcome r) (op_http_status r) (op_error r)
    then Some key else None) immediate_records)).

(** ** The loop *)
Record RereadState := mkRereadState {
  rr_report : RecoveryStabilityReport;
  rr_pending : gset string;
  rr_clock : Clock;
  rr_delay : N;
  rr_round : nat;
}.
Global Instance RereadState_eta : Eta RereadState := λ s,
  mkRereadState (rr_report s) (rr_pending s) (rr_clock s) (rr_delay s) (rr_round s).

(** How the consumption of a batch ends: [false] after its last answer or the
    [break] of a failed request, [true] at [break 'retry]. *)
Fixpoint drain_batch `{RereadEnv}
    (expected : gmap string (ExpectedObject * list AmbiguousWriteAttempt)) (deadline : N)
    (st : RereadState) (batch : list string) : Result (RereadState * bool) :=
  let '(t, clock) := now (rr_clock st) in
  let waited := re_times_out (ck_reads (rr_clock st)) in
  let st := st <| rr_clock := clock |> in
  let remaining := (deadline - t)%N in
  if bool_decide (remaining = 0)%N then ok (st, true) else
  match batch with
  | [] => ok (st, false)
  | key :: batch =>
      if waited then ok (st, true) else
      '(object, ambiguous_writes) ← expect (expected !! key);
      match re_get (rr_round st) key with
      | ok get =>
          let '(report, pending) :=
            evaluate_recovery_reread_get re_sha256_hex (rr_report st) (rr_pending st) key object
              ambiguous_writes get in
          drain_batch expected deadline
            (st <| rr_report := report |> <| rr_pending := pending |>) batch
      | err error =>
          ok (st <| rr_report ::= λ r,
                      r <| rsr_still_unavailable_keys ::= (.++ [key]) |>
                        <| rsr_classification := RecoveryStabilityClassification.HarnessError |>
                        <| rsr_harness_errors ::= (.++ ["reread failed: " +:+ error]) |> |>
                 <| rr_pending := ∅ |>, false)
      | panicked => panicked
      end
  end.

(** One turn of ['retry]; [true] when the loop goes on. *)
Definition retry_round `{RereadEnv}
    (expected : gmap string (ExpectedObject * list AmbiguousWriteAttempt)) (started deadline : N)
    (st : RereadState) : Result (RereadState * bool) :=
  let '(t, clock) := now (rr_clock st) in
  if bool_decide (deadline ≤ t)%N then ok (st <| rr_clock := clock |>, false) else
  let '(t, clock) := now clock in
  let remaining := (deadline - t)%N in
  let clock := async_sleep (rr_delay st `min` remaining) clock in
  let st := st <| rr_delay := saturating_double (rr_delay st) |> in
  let '(t, clock) := now clock in
  let st := st <| rr_clock := clock |> in
  if bool_decide (deadline ≤ t)%N then ok (st, false) else
  '(st, broke) ← drain_batch expected deadline st
                   (re_completed (rr_round st) (set_elems (rr_pending st)));
  if (broke : bool) then ok (st <| rr_round ::= S |>, false) else
  let st :=
    if bool_decide (rr_pending st = ∅)
       && bool_decide (rsr_recovered_within_seconds (rr_report st) = None) then
      let '(t, clock) := now (rr_clock st) in
      st <| rr_report ::= λ r, r <| rsr_recovered_within_seconds := Some (as_secs (t - started)) |> |>
         <| rr_clock := clock |>
    else st in
  if bool_decide (rr_pending st = ∅) || is_nonempty (rsr_hash_mismatches (rr_report st))
  then ok (st <| rr_round ::= S |>, false) else
  let '(t, clock) := now (rr_clock st) in
  ok (st <| rr_round ::= S |> <| rr_clock := clock |>, negb (bool_decide (deadline ≤ t)%N)).

(** The loop ['retry]. The fuel counts its turns; running out of it is reported
    as a panic, which [Reread] shows never happens with [reread_fuel]. *)
Fixpoint retry_loop `{RereadEnv}
    (expected : gmap string (ExpectedObject * list AmbiguousWriteAttempt)) (started deadline : N)
    (fuel : nat) (st : RereadState) : Result RereadState :=
  match fuel with
  | 0 => panicked
  | S fuel =>
      if bool_decide (rr_pending st = ∅) || is_nonempty (rsr_hash_mismatches (rr_report st))
      then ok st else
      '(st, again) ← retry_round expected started deadline st;
      if (again : bool) then retry_loop expected started deadline fuel st else ok st
  end.

(** Every turn that is followed by another lasts at least a second. *)
Definition reread_fuel (max_recovery : N) : nat := N.to_nat (as_secs max_recovery) + 2.

(** ** The whole reread *)
Definition initial_recovery_report (immediate : CheckerReport) (attempted still : list string)
    (max_recovery : N) : RecoveryStabilityReport :=
  mkRecoveryStabilityReport (Some (cr_scenario immediate)) (Some (cr_run_id immediate))
    (cr_passed immediate) attempted [] still
    (cr_hash_mismatches immediate ++ cr_successful_corrupted_reads immediate)
    (immediate_data_corruption_evidence immediate) (immediate_classification_evidence immediate)
    (immediate_ambiguous_write_evidence immediate) (cr_final_list_warning_count immediate)
    (cr_list_warnings immediate) [] (as_secs max_recovery) None
    (classify_without_reread immediate).

Definition reread_expectations (m : ObjectModel) (attempted : list string)
    : gmap string (ExpectedObject * list AmbiguousWriteAttempt) :=
  list_to_map (omap (λ key,
    expected ← om_live m !! key;
    Some (key, (expected, default [] (om_unknown_writes m !! key)))) attempted).

Definition settle_reread_report (st : RereadState) : RecoveryStabilityReport :=
  rr_report st
    <| rsr_still_unavailable_keys ::= (.++ set_elems (rr_pending st)) |>
    <| rsr_reread_recovered_keys ::= sort |>
    <| rsr_still_unavailable_keys ::= sort |>
    <| rsr_hash_mismatches ::= sort_dedup |>
    <| rsr_data_corruption_evidence ::= sort_dedup |>
    <| rsr_ambiguous_write_evidence ::= sort_dedup |>
    <| rsr_list_warnings ::= sort_dedup |>
    <| rsr_harness_errors ::= sort_dedup |>.

(** [records] is the recorder's history when the rereads begin. *)
Definition recovery_stability_reread `{RereadEnv} (records : list OperationRecord)
    (immediate : CheckerReport) (immediate_record_start : nat) (max_recovery : N)
    : Result RecoveryStabilityReport :=
  let m := object_model (take immediate_record_start records) in
  let attempted := recovery_tail_candidate_keys (drop immediate_record_start records) m in
  still ← immediate_still_unavailable_keys immediate attempted;
  let report := initial_recovery_report immediate attempted still max_recovery in
  if cr_passed immediate || is_empty attempted || bool_decide (max_recovery = 0%N)
  then ok (finish_recovery_stability_report report immediate) else
  let expected := reread_expectations m attempted in
  let '(started, clock) := now (mkClock 0 0) in
  let '(t, clock) := now clock in
  let deadline := (t + max_recovery)%N in
  st ← retry_loop expected started deadline (reread_fuel max_recovery)
         (mkRereadState report (dom expected) clock SECOND 0);
  ok (finish_recovery_stability_report (settle_reread_report st) immediate).
