(* ===== verification/RereadFacts.v ===== *)
(** Facts about the recovery rereads: the loop ends within its window for every
    clock, the report it leaves accounts for every key that was read again, and
    the validators of the report accept it. *)
From S2P Require Import Prelude Ordering RustText History Workload ObjectModel Attempts.
From S2P Require Import ReadFailure Report Evaluate Verdict Recovery RecoveryFacts Reread.
From stdpp Require Import options.

Lemma snoc_nonempty {A} (l : list A) x : l ++ [x] ≠ [].
Proof. by destruct l. Qed.
Lemma sub_snoc {A} (l l' : list A) x : l ⊆ l' → l ⊆ l' ++ [x].
Proof. intros H y Hy. apply elem_of_app. left. by apply H. Qed.

Section reread.
Context `{Henv : RereadEnv}.
Context (Hcompleted : ∀ n l, re_completed n l ≡ₚ l).
Context (Hanswers : ∀ n key, re_get n key ≠ panicked).
Context (expected : gmap string (ExpectedObject * list AmbiguousWriteAttempt)).
Context (r0 : RecoveryStabilityReport).
Context (Hr0 : rsr_reread_recovered_keys r0 = [] ∧ rsr_harness_errors r0 = []).

(** ** What the loop keeps *)

(** A reread returned the committed bytes of the key. *)
Definition read_back (key : string) : Prop :=
  ∃ n get object attempts, expected !! key = Some (object, attempts) ∧
    re_get n key = ok get ∧ committed_get_matches re_sha256_hex object get = true.

(** The fields no reread touches, and evidence that only grows. *)
Record report_extends (r : RecoveryStabilityReport) : Prop := {
  ex_identity : rsr_scenario r = rsr_scenario r0 ∧ rsr_run_id r = rsr_run_id r0;
  ex_passed : rsr_immediate_passed r = rsr_immediate_passed r0;
  ex_attempted : rsr_reread_attempted_keys r = rsr_reread_attempted_keys r0;
  ex_evidence : rsr_classification_evidence r = rsr_classification_evidence r0;
  ex_count : rsr_final_list_warning_count r = rsr_final_list_warning_count r0;
  ex_warnings : rsr_list_warnings r = rsr_list_warnings r0;
  ex_mismatches : rsr_hash_mismatches r0 ⊆ rsr_hash_mismatches r;
  ex_corruption : rsr_data_corruption_evidence r0 ⊆ rsr_data_corruption_evidence r;
  ex_ambiguous : rsr_ambiguous_write_evidence r0 ⊆ rsr_ambiguous_write_evidence r;
}.

(** The keys that stay unavailable: those of the immediate check, and the key
    of a request that failed. *)
Definition still_accounted (r : RecoveryStabilityReport) (pending : gset string) : Prop :=
  (rsr_still_unavailable_keys r = rsr_still_unavailable_keys r0 ∧ rsr_harness_errors r = []) ∨
  (pending = ∅ ∧ rsr_harness_errors r ≠ [] ∧
   (∃ key, key ∈ dom expected ∧ (key ∉ rsr_reread_recovered_keys r) ∧
      rsr_still_unavailable_keys r = rsr_still_unavailable_keys r0 ++ [key])).

Record accounted (r : RecoveryStabilityReport) (pending : gset string) : Prop := {
  ac_extends : report_extends r;
  ac_pending : pending ⊆ dom expected;
  ac_recovered_NoDup : NoDup (rsr_reread_recovered_keys r);
  ac_recovered : ∀ key, key ∈ rsr_reread_recovered_keys r →
    (key ∉ pending) ∧ key ∈ dom expected ∧ read_back key;
  ac_still : still_accounted r pending;
  ac_covered : has_non_availability_result r = true ∨
    (∀ key, key ∈ dom expected → key ∈ pending ∨ key ∈ rsr_reread_recovered_keys r);
}.

(** An answer that is neither the committed bytes nor an error leaves evidence. *)
Lemma evidence_accounted r r' pending pending' :
  accounted r pending → report_extends r' → pending' ⊆ pending → rsr_harness_errors r = [] →
  rsr_reread_recovered_keys r' = rsr_reread_recovered_keys r →
  rsr_still_unavailable_keys r' = rsr_still_unavailable_keys r →
  rsr_harness_errors r' = rsr_harness_errors r →
  has_non_availability_result r' = true → accounted r' pending'.
Proof using Type.
  clear Hcompleted Hanswers Hr0. intros [_ Hp Hnd Hrec Hstill _] Hext Hsub Hh H1 H2 H3 Hna.
  split; rewrite ?H1; try done; [by etrans| | |by left].
  - intros key (Hn & ? & ?)%Hrec. split_and!; [|done..]. intros ?%Hsub. done.
  - destruct Hstill as [[? _]|(_ & ? & _)]; [left; split; congruence|done].
Qed.

Lemma recovered_accounted n r pending key object attempts get :
  accounted r pending → rsr_harness_errors r = [] → key ∈ pending →
  expected !! key = Some (object, attempts) → re_get n key = ok get →
  committed_get_matches re_sha256_hex object get = true →
  accounted (r <| rsr_reread_recovered_keys ::= (.++ [key]) |>) (pending ∖ {[key]}).
Proof using Type.
  clear Hcompleted Hanswers Hr0. intros [[] Hp Hnd Hrec Hstill Hcov] Hh Hk Hexp Hget Hm.
  split; simpl.
  - by split.
  - clear -Hp. set_solver.
  - apply NoDup_app. split_and!; [done| |apply NoDup_singleton].
    intros k' Hk' ->%list_elem_of_singleton. by apply Hrec in Hk' as [? _].
  - intros k' [Hk'| ->%list_elem_of_singleton]%elem_of_app.
    + apply Hrec in Hk' as (Hn & ? & ?). split_and!; [clear -Hn; set_solver|done..].
    + split_and!; [clear; set_solver|by apply Hp|by exists n, get, object, attempts].
  - destruct Hstill as [?|(_ & ? & _)]; [by left|done].
  - destruct Hcov as [Hcov|Hcov]; [by left|right].
    intros k' Hk'. rewrite elem_of_app, list_elem_of_singleton, elem_of_difference, elem_of_singleton.
    destruct (decide (k' = key)); [by auto|]. destruct (Hcov k' Hk'); auto.
Qed.

(** The answer to one key of the batch. *)
Lemma evaluate_accounted n r pending key object attempts get :
  accounted r pending → rsr_harness_errors r = [] → key ∈ pending →
  expected !! key = Some (object, attempts) → re_get n key = ok get →
  let res := evaluate_recovery_reread_get re_sha256_hex r pending key object attempts get in
  accounted res.1 res.2 ∧ rsr_harness_errors res.1 = [] ∧ pending ∖ {[key]} ⊆ res.2.
Proof using Type.
  clear Hcompleted Hanswers Hr0. intros Hacc Hh Hk Hexp Hget. unfold evaluate_recovery_reread_get.
  destruct (committed_get_matches re_sha256_hex object get) eqn:Hm.
  { split_and!; [by eapply recovered_accounted|done|done]. }
  pose proof (ac_extends _ _ Hacc) as [].
  assert (pending ∖ {[key]} ⊆ pending) by (clear; set_solver).
  repeat case_match; simpl; (split_and!; [|done|done]); try done;
    (eapply evidence_accounted; [exact Hacc|split; simpl; auto using sub_snoc|done..|]);
    unfold has_non_availability_result; simpl; rewrite !orb_true_iff, !is_nonempty_true;
    auto using snoc_nonempty.
Qed.

(** A request that failed ends the rereads. *)
Lemma error_accounted r pending key error :
  accounted r pending → rsr_harness_errors r = [] → key ∈ pending →
  accounted
    (r <| rsr_still_unavailable_keys ::= (.++ [key]) |>
       <| rsr_classification := RecoveryStabilityClassification.HarnessError |>
       <| rsr_harness_errors ::= (.++ ["reread failed: " +:+ error]) |>) ∅.
Proof using Type.
  clear Hcompleted Hanswers Hr0. intros [[] Hp Hnd Hrec Hstill _] Hh Hk. split; simpl.
  - by split.
  - apply empty_subseteq.
  - done.
  - intros k' (? & ? & ?)%Hrec. split_and!; [apply not_elem_of_empty|done..].
  - destruct Hstill as [[Heq _]|(_ & ? & _)]; [|done]. right.
    split_and!; [done|apply snoc_nonempty|]. exists key. split_and!; [by apply Hp| |simpl; by rewrite Heq].
    intros [? _]%Hrec. done.
  - left. unfold has_non_availability_result. simpl. by rewrite Hh, orb_true_r.
Qed.

(** A batch of distinct pending keys. *)
Lemma drain_accounted deadline batch st st' broke :
  accounted (rr_report st) (rr_pending st) → rsr_harness_errors (rr_report st) = [] →
  NoDup batch → (∀ key, key ∈ batch → key ∈ rr_pending st) →
  drain_batch expected deadline st batch = ok (st', broke) →
  accounted (rr_report st') (rr_pending st') ∧
  (rsr_harness_errors (rr_report st') = [] ∨ rr_pending st' = ∅).
Proof using Type.
  clear Hcompleted Hanswers Hr0. revert st.
  induction batch as [|key batch IH]; intros st Hacc Hh Hnd Hin; simpl.
  { case_match; intros [= <- <-]; by auto. }
  destruct (bool_decide (deadline - _ = 0)%N); [intros [= <- <-]; by auto|].
  destruct (re_times_out _); [intros [= <- <-]; by auto|].
  intros ([object attempts] & Hexp%expect_ok & H)%bind_ok. apply NoDup_cons in Hnd as [Hkey Hnd].
  assert (key ∈ rr_pending st) as Hk by (apply Hin; left).
  destruct (re_get _ key) as [get|error|] eqn:Hget; [| |done].
  - destruct (evaluate_accounted _ _ _ _ _ _ _ Hacc Hh Hk Hexp Hget) as (Hacc' & Hh' & Hsub).
    destruct (evaluate_recovery_reread_get _ _ _ _ _ _ _) as [report pending]. simpl in *.
    eapply IH; [..|exact H]; [done..|]. intros k' Hk'. apply Hsub, elem_of_difference.
    split; [by apply Hin; right|]. by intros ->%elem_of_singleton.
  - injection H as <- <-. split; [|by right]. by eapply error_accounted.
Qed.

Lemma retry_round_accounted started deadline st st' again :
  accounted (rr_report st) (rr_pending st) → rsr_harness_errors (rr_report st) = [] →
  retry_round expected started deadline st = ok (st', again) →
  accounted (rr_report st') (rr_pending st') ∧
  (again = true → rsr_harness_errors (rr_report st') = []).
Proof using Hcompleted.
  clear Hanswers Hr0. intros Hacc Hh. unfold retry_round. simpl.
  do 2 (destruct (bool_decide (deadline ≤ _)%N); [by intros [= <- <-]|]).
  match goal with |- drain_batch _ _ ?s ?b ≫= _ = _ → _ => set (st1 := s); set (batch := b) end.
  intros ([st2 broke] & Hd & H)%bind_ok.
  apply drain_accounted in Hd as [Hacc2 Hend]; [|done|done| |].
  2:{ unfold batch. rewrite Hcompleted. apply set_elems_NoDup. }
  2:{ intros key. unfold batch. by rewrite Hcompleted, elem_of_set_elems. }
  destruct broke; [injection H as <- <-; by split|].
  match type of H with context [bool_decide (rr_pending ?s = ∅) || _] => set (st3 := s) in H end.
  assert (accounted (rr_report st3) (rr_pending st3) ∧ rr_pending st3 = rr_pending st2 ∧
          rsr_harness_errors (rr_report st3) = rsr_harness_errors (rr_report st2)) as (Hacc3 & Hp3 & Hh3).
  { unfold st3. destruct (_ && _); [|done]. split_and!; [|done..]. destruct Hacc2 as [[] ?????]. by split. }
  destruct (bool_decide (rr_pending st3 = ∅) || _) eqn:Hstop; injection H as <- <-; [done|].
  split; [done|]. intros _. simpl. apply orb_false_iff in Hstop as [Hne%bool_decide_eq_false _].
  rewrite Hh3. destruct Hend as [?|?]; [done|congruence].
Qed.

Lemma retry_loop_accounted started deadline fuel st st' :
  accounted (rr_report st) (rr_pending st) → rsr_harness_errors (rr_report st) = [] →
  retry_loop expected started deadline fuel st = ok st' →
  accounted (rr_report st') (rr_pending st').
Proof using Hcompleted.
  clear Hanswers Hr0. revert st. induction fuel as [|fuel IH]; intros st Hacc Hh; simpl; [done|].
  destruct (bool_decide _ || _); [by intros [= <-]|].
  intros ([st1 again] & Hr & H)%bind_ok. apply retry_round_accounted in Hr as [Hacc1 Hh1]; [|done..].
  destruct again; [|by injection H as <-]. by eapply IH; [| |exact H]; auto.
Qed.
(** ** The loop ends *)
Lemma evaluate_pending sha r pending key object attempts get :
  (evaluate_recovery_reread_get sha r pending key object attempts get).2 ⊆ pending.
Proof using Type. clear. unfold evaluate_recovery_reread_get. repeat case_match; simpl; set_solver. Qed.

(** Draining a batch takes time and removes pending keys, nothing else. *)
Definition drained (st st' : RereadState) : Prop :=
  (ck_time (rr_clock st) ≤ ck_time (rr_clock st'))%N ∧ rr_pending st' ⊆ rr_pending st ∧
  rr_delay st' = rr_delay st ∧ rr_round st' = rr_round st.

Lemma drain_total deadline batch st :
  (∀ key, key ∈ batch → key ∈ dom expected) →
  ∃ st' broke, drain_batch expected deadline st batch = ok (st', broke) ∧ drained st st'.
Proof using Hanswers.
  clear Hcompleted Hr0. revert st. induction batch as [|key batch IH]; intros st Hin; simpl;
    (case_match; [by eexists _, _; split; [done|]; split_and!; simpl; [lia|..]|]).
  { eexists _, _. split; [done|]. split_and!; simpl; [lia|done..]. }
  case_match; [by eexists _, _; split; [done|]; split_and!; simpl; [lia|..]|].
  assert (key ∈ dom expected) as [[object attempts] Hexp]%elem_of_dom by (apply Hin; left).
  rewrite Hexp. run_result. destruct (re_get _ key) as [get|error|] eqn:Hget.
  - pose proof (evaluate_pending re_sha256_hex (rr_report st) (rr_pending st) key object attempts get)
      as Hsub. simpl. destruct (evaluate_recovery_reread_get _ _ _ _ _ _ _) as [report pending].
    edestruct IH as (st' & broke & Hd & Ht & Hp & ? & ?); [by intros k' ?; apply Hin; right|].
    exists st', broke. split; [exact Hd|]. simpl in *. split_and!; [lia|by etrans|done..].
  - eexists _, _. split; [done|]. split_and!; simpl; [lia|apply empty_subseteq|done..].
  - by apply Hanswers in Hget.
Qed.

(** One turn: it returns, and when another follows it has slept for the whole
    delay inside the window. *)
Lemma retry_round_total started deadline st :
  rr_pending st ⊆ dom expected →
  ∃ st' again, retry_round expected started deadline st = ok (st', again) ∧
    rr_pending st' ⊆ rr_pending st ∧
    (rr_round st' = rr_round st ∧ again = false ∨
     rr_round st' = S (rr_round st) ∧ rr_delay st' = saturating_double (rr_delay st) ∧
     (ck_time (rr_clock st) + rr_delay st ≤ ck_time (rr_clock st'))%N ∧
     (ck_time (rr_clock st) + rr_delay st < deadline)%N).
Proof using Hcompleted Hanswers.
  clear Hr0. intros Hp. unfold retry_round. simpl.
  destruct (bool_decide_reflect (deadline ≤ ck_time (rr_clock st) + re_elapsed (ck_reads (rr_clock st)))%N).
  { eexists _, _. split; [done|]. split; [done|]. by left. }
  destruct (bool_decide (deadline ≤ _)%N) eqn:Hlate.
  { eexists _, _. split; [done|]. split; [done|]. by left. }
  apply bool_decide_eq_false in Hlate.
  match goal with |- context [drain_batch _ _ ?s ?b] => set (st1 := s) in *; set (batch := b) in * end.
  destruct (drain_total deadline batch st1) as (st2 & broke & -> & Ht & Hp2 & Hd & Hr).
  { intros key. unfold batch. rewrite Hcompleted, elem_of_set_elems. by apply Hp. }
  run_result. cbn [rr_clock ck_time rr_delay rr_round rr_pending st1] in Ht, Hd, Hr, Hp2.
  assert (ck_time (rr_clock st) + rr_delay st ≤ ck_time (rr_clock st2) ∧
          ck_time (rr_clock st) + rr_delay st < deadline)%N as [Hslept Hwin].
  { simpl in Ht. lia. }
  simpl in Hp2, Hd, Hr. destruct broke.
  { eexists _, _. split; [done|]. split; [done|]. right. simpl. by rewrite Hr, Hd. }
  destruct (bool_decide (rr_pending st2 = ∅) && _); simpl;
    (destruct (bool_decide (rr_pending st2 = ∅) || _); eexists _, _; (split; [done|]);
     (split; [done|]); right; simpl; rewrite Hr, Hd; split_and!; try done; lia).
Qed.

Lemma retry_loop_total started deadline fuel st :
  rr_pending st ⊆ dom expected → (SECOND ≤ rr_delay st)%N → (rr_delay st ≤ DURATION_MAX)%N →
  (deadline - ck_time (rr_clock st) < N.of_nat fuel * SECOND)%N →
  ∃ st', retry_loop expected started deadline fuel st = ok st'.
Proof using Hcompleted Hanswers.
  clear Hr0. revert st. induction fuel as [|fuel IH]; intros st Hp Hd Hmax Hf; [simpl in Hf; lia|].
  simpl. destruct (bool_decide _ || _); [by eexists|].
  destruct (retry_round_total started deadline st Hp) as (st1 & again & -> & Hp1 & Hcase).
  run_result. destruct again; [|by eexists].
  destruct Hcase as [[_ ?]|(_ & Hd1 & Ht & Hwin)]; [done|].
  apply IH; [by etrans| | |]; rewrite ?Hd1; unfold saturating_double in *; try lia.
Qed.
(** After [k] rounds the delay has doubled [k] times and the sleeps add up. *)
Definition paced (t0 window : N) (st : RereadState) : Prop :=
  let k := N.of_nat (rr_round st) in
  rr_delay st = ((2 ^ k * SECOND) `min` DURATION_MAX)%N ∧
  (t0 + (2 ^ k - 1) * SECOND ≤ ck_time (rr_clock st))%N ∧
  (rr_round st = 0 ∨ ((2 ^ k - 1) * SECOND < window)%N).

Lemma retry_round_paced started t0 window st st' again :
  (window ≤ DURATION_MAX)%N → paced t0 window st → rr_pending st ⊆ dom expected →
  retry_round expected started (t0 + window) st = ok (st', again) →
  rr_pending st' ⊆ dom expected ∧ (again = true → paced t0 window st') ∧
  (rr_round st' = 0 ∨ ((2 ^ N.of_nat (rr_round st') - 1) * SECOND < window)%N).
Proof using Hcompleted Hanswers.
  clear Hr0. intros Hmax (Hd & Ht & Hb) Hp H.
  destruct (retry_round_total started (t0 + window) st Hp) as (st1 & a1 & H1 & Hp1 & Hcase).
  rewrite H in H1. injection H1 as <- <-. split; [by etrans|].
  destruct Hcase as [[-> ->]|(Hr & Hd1 & Ht1 & Hwin)]; [done|].
  assert (2 ^ N.of_nat (rr_round st') = 2 * 2 ^ N.of_nat (rr_round st))%N as Hpow.
  { rewrite Hr, Nat2N.inj_succ. apply N.pow_succ_r'. }
  pose proof (N.pow_nonzero 2 (N.of_nat (rr_round st)) ltac:(done)).
  unfold paced. rewrite Hd1, Hpow. unfold saturating_double, SECOND in *.
  split; [intros _; split_and!|]; lia.
Qed.

Lemma retry_loop_paced started t0 window fuel st st' :
  (window ≤ DURATION_MAX)%N → paced t0 window st → rr_pending st ⊆ dom expected →
  retry_loop expected started (t0 + window) fuel st = ok st' →
  rr_round st' = 0 ∨ ((2 ^ N.of_nat (rr_round st') - 1) * SECOND < window)%N.
Proof using Hcompleted Hanswers.
  clear Hr0. intros Hmax. revert st. induction fuel as [|fuel IH]; intros st Hpc Hp; simpl; [done|].
  destruct (bool_decide _ || _); [intros [= <-]; by apply Hpc|].
  intros ([st1 again] & Hr & H)%bind_ok. eapply retry_round_paced in Hr as (? & ? & ?); [|done..].
  destruct again; [|by injection H as <-]. eapply IH; [..|exact H]; auto.
Qed.
End reread.

(** ** The settled report *)
Lemma non_availability_settled st :
  has_non_availability_result (settle_reread_report st) =
  has_non_availability_result (rr_report st).
Proof.
  assert (∀ l, is_nonempty (sort_dedup l) = is_nonempty l) as Hl.
  { intros l. destruct l as [|x l]; [done|]. simpl. apply is_nonempty_true.
    by rewrite sort_dedup_nil. }
  unfold has_non_availability_result, settle_reread_report. simpl. by rewrite !Hl.
Qed.

Lemma elem_of_sort (x : string) l : x ∈ sort l ↔ x ∈ l.
Proof. apply elem_of_sort_by. Qed.
Lemma NoDup_sort (l : list string) : NoDup (sort l) ↔ NoDup l.
Proof. unfold sort. by rewrite sort_by_perm. Qed.

Section settled.
Context `{Henv : RereadEnv}.
Context (expected : gmap string (ExpectedObject * list AmbiguousWriteAttempt)).
Context (r0 : RecoveryStabilityReport) (st : RereadState).
Context (Hacc : accounted expected r0 (rr_report st) (rr_pending st)).
Context (Hattempted : dom expected = to_set (rsr_reread_attempted_keys r0)).
Context (Hattempted_NoDup : NoDup (rsr_reread_attempted_keys r0)).
Context (Hbase_NoDup : NoDup (rsr_still_unavailable_keys r0)).
Context (Hbase : ∀ key, key ∈ rsr_still_unavailable_keys r0 → key ∉ dom expected).

(** The keys left unavailable: those of the check, those still pending, and the
    key whose request failed. *)
Lemma settled_still :
  let still := rsr_still_unavailable_keys (settle_reread_report st) in
  NoDup still ∧
  (∀ key, key ∈ rsr_still_unavailable_keys r0 → key ∈ still) ∧
  (∀ key, key ∈ rr_pending st → key ∈ still) ∧
  (∀ key, key ∈ still → key ∉ rsr_reread_recovered_keys (rr_report st)) ∧
  (∀ key, key ∈ still → key ∈ rsr_still_unavailable_keys r0 ∨ key ∈ dom expected) ∧
  (rsr_harness_errors (rr_report st) = [] → ∀ key, key ∈ still →
     key ∈ rsr_still_unavailable_keys r0 ∨ key ∈ rr_pending st).
Proof using Hacc Hbase Hbase_NoDup.
  clear Hattempted Hattempted_NoDup. destruct Hacc as [_ Hp _ Hrec Hstill _]. simpl.
  setoid_rewrite elem_of_sort. rewrite NoDup_sort.
  setoid_rewrite elem_of_app. setoid_rewrite elem_of_set_elems.
  destruct Hstill as [[-> _]|(Hpend & Hh & key & Hk & Hn & ->)].
  - split_and!; [|by auto..| |by naive_solver|by auto].
    + apply NoDup_app. split_and!; [done| |apply set_elems_NoDup].
      intros k Hk ?%elem_of_set_elems. by eapply Hbase, Hp.
    + intros k [Hk|Hk] Hr; apply Hrec in Hr as (? & ? & _); [by eapply Hbase|done].
  - rewrite Hpend. setoid_rewrite elem_of_app. setoid_rewrite list_elem_of_singleton.
    split_and!.
    + assert (set_elems (∅ : gset string) = []) as -> by done. rewrite app_nil_r.
      apply NoDup_app. split_and!; [done| |apply NoDup_singleton].
      intros k Hk1 ->%list_elem_of_singleton. by eapply Hbase.
    + auto.
    + intros k ?%not_elem_of_empty. done.
    + intros k [[Hk1| ->]|?%not_elem_of_empty] Hr; [|done..].
      apply Hrec in Hr as (_ & ? & _). by eapply Hbase.
    + intros k [[?| ->]|?%not_elem_of_empty]; auto. done.
    + done.
Qed.

Lemma settled_consistent : recovery_key_sets_are_consistent (settle_reread_report st) = true.
Proof using All.
  destruct settled_still as (Hnd & _ & Hpend & Hdis & _ & _).
  unfold recovery_key_sets_are_consistent. rewrite non_availability_settled.
  pose proof (ac_extends _ _ _ _ Hacc) as Hext. pose proof (ac_recovered _ _ _ _ Hacc) as Hrec.
  cbn [settle_reread_report] in *.
  assert (rsr_reread_attempted_keys (settle_reread_report st) = rsr_reread_attempted_keys r0) as ->
    by apply Hext.
  rewrite (proj2 (NoDup_to_set_size _)) by done.
  rewrite (proj2 (NoDup_to_set_size (rsr_reread_recovered_keys _)))
    by (apply NoDup_sort, (ac_recovered_NoDup _ _ _ _ Hacc)).
  rewrite (proj2 (NoDup_to_set_size (rsr_still_unavailable_keys _))) by done.
  assert (∀ key, key ∈ to_set (rsr_reread_recovered_keys (settle_reread_report st)) ↔
                 key ∈ rsr_reread_recovered_keys (rr_report st)) as Hset.
  { intros key. rewrite elem_of_to_set. apply elem_of_sort. }
  rewrite bool_decide_eq_true_2.
  2:{ intros key Hk%Hset%Hrec. rewrite <- Hattempted. by apply Hk. }
  rewrite bool_decide_eq_true_2.
  2:{ intros key Hk%Hset Hs%elem_of_to_set. by eapply Hdis. }
  simpl. apply orb_true_iff.
  destruct (ac_covered _ _ _ _ Hacc) as [?|Hcov]; [by left|right].
  apply bool_decide_eq_true_2. intros key [Hk Hn]%elem_of_difference.
  rewrite <- Hattempted in Hk. rewrite elem_of_to_set. apply Hpend.
  destruct (Hcov key Hk) as [?|?]; [done|]. by apply Hset in H.
Qed.
End settled.

(** ** The whole reread *)

(** The keys read again: those of the live model whose read timed out during
    the immediate check. *)
Definition attempted_keys (records : list OperationRecord) (start : nat) : list string :=
  recovery_tail_candidate_keys (drop start records) (object_model (take start records)).

(** The immediate check is the one recorded from [start] on: its report names
    the same reread candidates as the records, names no key like a version,
    and keeps its LIST warnings without duplicates. *)
Record checker_bound (records : list OperationRecord) (start : nat) (immediate : CheckerReport)
    : Prop := {
  cb_candidates : immediate_recovery_candidate_keys immediate
                  = ok (to_set (attempted_keys records start));
  cb_keys : ∀ key, key ∈ attempted_keys records start → starts_with "version:" key = false;
  cb_warnings : sort_dedup (cr_list_warnings immediate) = cr_list_warnings immediate;
}.

Lemma attempted_keys_live records start key :
  key ∈ attempted_keys records start →
  is_Some (om_live (object_model (take start records)) !! key).
Proof.
  unfold attempted_keys, recovery_tail_candidate_keys.
  rewrite elem_of_set_elems, elem_of_to_set, list_elem_of_omap.
  intros (r & _ & H). destruct (op_key r) as [k|]; [|done]. simpl in H. case_match; [|done].
  injection H as ->. rewrite !andb_true_iff, !bool_decide_eq_true in H0. tauto.
Qed.

Lemma attempted_keys_NoDup records start : NoDup (attempted_keys records start).
Proof. apply set_elems_NoDup. Qed.

Lemma reread_expectations_dom m attempted :
  (∀ key, key ∈ attempted → is_Some (om_live m !! key)) →
  dom (reread_expectations m attempted) = to_set attempted.
Proof.
  intros Hlive. unfold reread_expectations. rewrite dom_list_to_map_L. apply set_eq. intros key.
  rewrite elem_of_list_to_set, elem_of_to_set, list_elem_of_fmap. split.
  - intros ([k v] & -> & (k' & Hk' & H)%list_elem_of_omap). simpl.
    destruct (om_live m !! k'); [|done]. by injection H as <- _.
  - intros Hk. destruct (Hlive key Hk) as [e He].
    exists (key, (e, default [] (om_unknown_writes m !! key))). split; [done|].
    apply list_elem_of_omap. exists key. split; [done|]. by rewrite He.
Qed.

(** Keys the check reports unavailable and never read again. *)
Lemma baseline_disjoint records start immediate still :
  checker_bound records start immediate →
  immediate_still_unavailable_keys immediate (attempted_keys records start) = ok still →
  NoDup still ∧ ∀ key, key ∈ still → key ∉ attempted_keys records start.
Proof.
  intros [Hc Hv _] Hs. pose proof (candidates_named _ _ _ _ Hc Hs) as Hmiss.
  apply still_unavailable_ok in Hs as (_ & named & _ & ->). split; [apply set_elems_NoDup|].
  intros key. rewrite elem_of_set_elems, !elem_of_union, elem_of_difference, !elem_of_to_set.
  intros [[Hk|[_ Hk]]|Hk] Ha; [|done|].
  - eapply Hmiss, Hk. by apply elem_of_to_set.
  - apply elem_of_tagged in Hk as (item & -> & _). apply Hv in Ha.
    assert (starts_with "version:" ("version:" +:+ item) = true) by (apply starts_with_spec; eauto).
    congruence.
Qed.

Section whole.
Context `{Henv : RereadEnv}.
Context (Hcompleted : ∀ n l, re_completed n l ≡ₚ l).
Context (records : list OperationRecord) (start : nat) (immediate : CheckerReport).
Context (max_recovery : N).

Definition expectations : gmap string (ExpectedObject * list AmbiguousWriteAttempt) :=
  reread_expectations (object_model (take start records)) (attempted_keys records start).

Lemma expectations_dom : dom expectations = to_set (attempted_keys records start).
Proof using Type. clear. apply reread_expectations_dom, attempted_keys_live. Qed.

(** The two ways a reread ends. *)
Lemma reread_outcome rep :
  recovery_stability_reread records immediate start max_recovery = ok rep →
  ∃ still, immediate_still_unavailable_keys immediate (attempted_keys records start) = ok still ∧
    let r0 := initial_recovery_report immediate (attempted_keys records start) still max_recovery in
    ((cr_passed immediate = true ∨ attempted_keys records start = [] ∨ max_recovery = 0%N) ∧
     rep = finish_recovery_stability_report r0 immediate) ∨
    (∃ st, accounted expectations r0 (rr_report st) (rr_pending st) ∧
       rep = finish_recovery_stability_report (settle_reread_report st) immediate).
Proof using Hcompleted.
  unfold recovery_stability_reread. fold (attempted_keys records start).
  intros (still & Hs & H)%bind_ok. exists still. split; [done|]. cbv zeta.
  destruct (cr_passed immediate || _ || _) eqn:Hearly.
  { left. injection H as <-. split; [|done].
    rewrite !orb_true_iff, is_empty_true, bool_decide_eq_true in Hearly. tauto. }
  right. unfold now in H. fold expectations in H. apply bind_ok in H as (st & Hloop & [= <-]).
  exists st. split; [|done]. eapply retry_loop_accounted; [exact Hcompleted| | |exact Hloop]; [|done].
  split; simpl; [by split|done|by constructor|by intros key ?%elem_of_nil|by left|by right; auto].
Qed.
Lemma reread_total still :
  (∀ n key, re_get n key ≠ panicked) →
  immediate_still_unavailable_keys immediate (attempted_keys records start) = ok still →
  ∃ rep, recovery_stability_reread records immediate start max_recovery = ok rep.
Proof using Hcompleted.
  intros Hanswers Hs. unfold recovery_stability_reread. fold (attempted_keys records start).
  rewrite Hs. run_result. destruct (_ || _ || _); [by eexists|]. unfold now. fold expectations.
  match goal with |- context [retry_loop ?e ?t ?d ?f ?s] =>
    edestruct (retry_loop_total Hcompleted Hanswers e t d f s) as [st ->]; simpl; [done|done|done| |]
  end.
  - unfold reread_fuel, as_secs. pose proof (N.div_mod max_recovery SECOND ltac:(done)).
    pose proof (N.mod_lt max_recovery SECOND ltac:(done)). unfold SECOND in *. lia.
  - by eexists.
Qed.

(** What the rereads leave, before the classification. *)
Record settled (still : list string) (r : RecoveryStabilityReport) : Prop := {
  se_extends : report_extends
    (initial_recovery_report immediate (attempted_keys records start) still max_recovery) r;
  se_consistent : recovery_key_sets_are_consistent r = true;
  se_still : ∀ key, key ∈ still → key ∈ rsr_still_unavailable_keys r;
  se_bounded : ∀ key, key ∈ rsr_still_unavailable_keys r →
    key ∈ still ∨ key ∈ attempted_keys records start;
  se_recovered : ∀ key, key ∈ rsr_reread_recovered_keys r → read_back expectations key;
  se_exact : ∀ key, key ∈ rsr_still_unavailable_keys r → key ∉ rsr_reread_recovered_keys r;
}.

Lemma report_extends_settled r0 st :
  report_extends r0 (rr_report st) → sort_dedup (rsr_list_warnings r0) = rsr_list_warnings r0 →
  report_extends r0 (settle_reread_report st).
Proof using Type.
  clear. intros [] Hw. split; simpl; try done; [congruence|..];
    intros x Hx; apply elem_of_sort_dedup; auto.
Qed.

Lemma consistent_subset r :
  recovery_key_sets_are_consistent r = true →
  to_set (rsr_reread_recovered_keys r) ⊆ to_set (rsr_reread_attempted_keys r).
Proof using Type.
  clear. unfold recovery_key_sets_are_consistent. destruct (_ || _) eqn:Hb; [done|].
  rewrite !orb_false_iff, !negb_false_iff, !bool_decide_eq_true in Hb. intros _.
  by destruct Hb as [[_ Hsub] _].
Qed.

Lemma consistent_disjoint r :
  recovery_key_sets_are_consistent r = true →
  ∀ key, key ∈ rsr_still_unavailable_keys r → key ∉ rsr_reread_recovered_keys r.
Proof using Type.
  clear. unfold recovery_key_sets_are_consistent. destruct (_ || _) eqn:Hb; [done|].
  rewrite !orb_false_iff, !negb_false_iff, !bool_decide_eq_true in Hb. intros _ key Hk Hr.
  destruct Hb as [_ Hdis]. apply (Hdis key); by apply elem_of_to_set.
Qed.

Lemma reread_settled rep :
  checker_bound records start immediate → cr_passed immediate = false → max_recovery ≠ 0%N →
  recovery_stability_reread records immediate start max_recovery = ok rep →
  ∃ still r, immediate_still_unavailable_keys immediate (attempted_keys records start) = ok still ∧
    settled still r ∧ rep = finish_recovery_stability_report r immediate.
Proof using Hcompleted.
  intros Hb Hpassed Hmax (still & Hs & Hcase)%reread_outcome. exists still.
  destruct (baseline_disjoint _ _ _ _ Hb Hs) as [Hnd Hdis].
  assert (∀ key, key ∈ still → key ∉ dom expectations) as Hdis'.
  { intros key. rewrite expectations_dom, elem_of_to_set. apply Hdis. }
  destruct Hcase as [[Hearly ->]|(st & Hacc & ->)]; eexists; (split; [done|]); (split; [|done]).
  - destruct Hearly as [?|[Hnil|?]]; [congruence| |done].
    assert (recovery_key_sets_are_consistent
      (initial_recovery_report immediate (attempted_keys records start) still max_recovery) = true).
    { unfold recovery_key_sets_are_consistent. cbn [initial_recovery_report
        rsr_reread_attempted_keys rsr_reread_recovered_keys rsr_still_unavailable_keys]. rewrite Hnil.
      rewrite !(proj2 (NoDup_to_set_size _)) by (done || constructor).
      rewrite (bool_decide_eq_true_2 (to_set [] ⊆ _)) by done.
      rewrite (bool_decide_eq_true_2 (to_set [] ## _)) by (by intros ? ?%not_elem_of_empty).
      rewrite (bool_decide_eq_true_2 (to_set [] ∖ _ ⊆ _)) by (clear; set_solver).
      apply orb_true_r. }
    split; [by split|done|done|by left|by intros key ?%elem_of_nil|by apply consistent_disjoint].
  - pose proof (settled_consistent _ _ _ Hacc expectations_dom (attempted_keys_NoDup _ _) Hnd Hdis')
      as Hcons.
    destruct (settled_still _ _ _ Hacc Hnd Hdis') as (_ & Hin & _ & _ & Hbd & _).
    split; [|done|done| | |by apply consistent_disjoint].
    + apply report_extends_settled; [apply Hacc|apply Hb].
    + intros key Hk%Hbd. by rewrite expectations_dom, elem_of_to_set in Hk.
    + intros key Hk. simpl in Hk. rewrite elem_of_sort in Hk.
      by apply (ac_recovered _ _ _ _ Hacc) in Hk as (_ & _ & ?).
Qed.

(** ** The validator accepts the report *)
Lemma still_unavailable_ext attempted attempted' :
  to_set attempted = to_set attempted' →
  immediate_still_unavailable_keys immediate attempted
  = immediate_still_unavailable_keys immediate attempted'.
Proof using Type. clear. unfold immediate_still_unavailable_keys. by intros ->. Qed.

Lemma consistent_covers r :
  recovery_key_sets_are_consistent r = true → has_non_availability_result r = false →
  to_set (rsr_reread_attempted_keys r) ∖ to_set (rsr_reread_recovered_keys r)
  ⊆ to_set (rsr_still_unavailable_keys r).
Proof using Type.
  clear. unfold recovery_key_sets_are_consistent. destruct (_ || _); [done|].
  intros [H|H]%orb_true_iff Hna; [congruence|]. by apply bool_decide_eq_true in H.
Qed.

Lemma settled_key_sets still r :
  checker_bound records start immediate →
  immediate_still_unavailable_keys immediate (attempted_keys records start) = ok still →
  settled still r → validate_recovery_key_sets r immediate = ok tt.
Proof using Type.
  clear Hcompleted. intros [Hc _ _] Hs [Hext Hcons Hin Hbd _ Hex].
  pose proof (ex_attempted _ _ Hext) as Hatt. simpl in Hatt.
  unfold validate_recovery_key_sets. rewrite Hcons, Hc. run_result.
  rewrite Hatt, bool_decide_eq_true_2 by done. run_result.
  rewrite (still_unavailable_ext _ (attempted_keys records start)) by apply to_set_set_elems.
  rewrite Hs. run_result.
  rewrite (bool_decide_eq_true_2 (to_set (rsr_still_unavailable_keys r) ⊆ _)).
  2:{ intros key. rewrite elem_of_union, !elem_of_to_set. apply Hbd. }
  run_result. destruct (has_non_availability_result r) eqn:Hna; [done|].
  pose proof (consistent_covers _ Hcons Hna) as Hcov. rewrite Hatt in Hcov.
  apply ensure_ok, bool_decide_eq_true_2, set_eq. intros key.
  rewrite elem_of_union, elem_of_difference, !elem_of_to_set. split.
  - intros Hk. destruct (Hbd _ Hk) as [?|?]; [by left|right]. split; [done|by apply Hex].
  - intros [Hk|[Hk Hn]]; [by apply Hin|]. apply elem_of_to_set, Hcov.
    rewrite elem_of_difference, !elem_of_to_set. done.
Qed.
End whole.

(** The checker-side validator accepts what the rereads return. *)
Lemma reread_valid `{RereadEnv} records start immediate max_recovery rep :
  (∀ n l, re_completed n l ≡ₚ l) → checker_bound records start immediate →
  cr_passed immediate = false → max_recovery ≠ 0%N →
  recovery_stability_reread records immediate start max_recovery = ok rep →
  validate_recovery_stability_against_checker rep immediate = ok tt.
Proof.
  intros Hc Hb Hp Hmax Hr.
  destruct (reread_settled Hc _ _ _ _ _ Hb Hp Hmax Hr) as (still & r & Hs & Hset & ->).
  pose proof (se_extends _ _ _ _ _ _ Hset) as [_ Epass _ _ Ecount Ewarn _ _ _].
  unfold validate_recovery_stability_against_checker. simpl in *.
  rewrite Epass, Ecount, Ewarn.
  rewrite (bool_decide_eq_true_2 (cr_passed immediate = _)),
    (bool_decide_eq_true_2 (cr_final_list_warning_count immediate = _)),
    (bool_decide_eq_true_2 (cr_list_warnings immediate = _)) by done. cbn [andb]. run_result.
  assert (validate_recovery_key_sets (finish_recovery_stability_report r immediate) immediate = ok tt)
    as -> by exact (settled_key_sets _ _ _ _ _ _ Hb Hs Hset).
  cbn [with_context]. run_result. apply ensure_ok, bool_decide_eq_true_2. done.
Qed.

(** C34. recovery_stability_reread returns a report for every clock and every answer of
    the store, as soon as the keys of the checker report can be read: the retry loop
    ends within its fuel of one turn per second of the window plus two. *)
Theorem reread_terminates `{RereadEnv} records start immediate max_recovery still :
  (∀ n l, re_completed n l ≡ₚ l) → (∀ n key, re_get n key ≠ panicked) →
  immediate_still_unavailable_keys immediate (attempted_keys records start) = ok still →
  ∃ rep, recovery_stability_reread records immediate start max_recovery = ok rep.
Proof. intros Hc Ha Hs. by eapply reread_total. Qed.

(** Because the delay doubles from one second, the retry loop starts at most
    log2(seconds of the window + 1) batches of rereads. *)
Lemma reread_rounds_bounded `{RereadEnv} expected report started t0 window fuel st :
  (∀ n l, re_completed n l ≡ₚ l) → (∀ n key, re_get n key ≠ panicked) →
  (window ≤ DURATION_MAX)%N →
  retry_loop expected started (t0 + window) fuel
    (mkRereadState report (dom expected) (mkClock t0 0) SECOND 0) = ok st →
  (rr_round st ≤ N.to_nat (N.log2 (as_secs window + 1)))%nat.
Proof.
  intros Hc Ha Hmax Hl.
  eapply (retry_loop_paced Hc Ha) in Hl; [|done| |done].
  2:{ split_and!; simpl; [done|lia|by left]. }
  destruct Hl as [->|Hl]; [lia|].
  enough (N.of_nat (rr_round st) ≤ N.log2 (as_secs window + 1))%N by lia.
  apply N.log2_le_pow2; [lia|]. unfold as_secs.
  assert (2 ^ N.of_nat (rr_round st) - 1 ≤ window `div` SECOND)%N; [|lia].
  apply N.div_le_lower_bound; [done|]. lia.
Qed.

Lemma find_lineage_not_tail evidence c :
  List.find (λ c, existsb (matches_classification_evidence c) evidence) lineage_classes = Some c →
  c ≠ RecoveryStabilityClassification.RecoveryTailReadLatency ∧ lists_class evidence c.
Proof.
  intros [Hin Hex]%List.find_some. split; [|by apply exists_matching].
  destruct Hin as [<-|[<-|[<-|[]]]]; done.
Qed.

Lemma classified_tail r immediate :
  classify_recovery_stability r immediate
    = RecoveryStabilityClassification.RecoveryTailReadLatency →
  has_non_availability_result r = false ∧ rsr_still_unavailable_keys r = [] ∧
  immediate_failures_are_only_reread_candidates immediate r = true.
Proof.
  pose proof (classify_supported immediate) as Hs. unfold classify_recovery_stability.
  destruct (is_nonempty (rsr_classification_evidence r) && match _ with _ => _ end).
  { intros Ht. unfold failure_classification in Ht. by rewrite Ht in Hs. }
  unfold has_non_availability_result. destruct (is_nonempty (rsr_hash_mismatches r) || is_nonempty (rsr_data_corruption_evidence r)); [done|].
  destruct (is_nonempty (rsr_harness_errors r)); [done|].
  destruct (is_nonempty (rsr_classification_evidence r)
            && bool_decide (failure_classification immediate
                            = RecoveryStabilityClassification.CommittedVersionUnavailable)).
  { intros Ht. unfold failure_classification in Ht. by rewrite Ht in Hs. }
  destruct (is_nonempty (rsr_still_unavailable_keys r)) eqn:Hstill; [done|].
  destruct (is_nonempty (rsr_ambiguous_write_evidence r)); [done|].
  destruct (has_list_unavailable_or_unknown_signal immediate); [done|].
  destruct (List.find _ _) as [c|] eqn:Hf.
  { intros ->. by apply find_lineage_not_tail in Hf as [? _]. }
  destruct (is_nonempty (rsr_reread_attempted_keys r)
            && immediate_failures_are_only_reread_candidates immediate r) eqn:Hb.
  - intros _. apply andb_true_iff in Hb as [_ Hb]. by apply is_nonempty_false in Hstill.
  - intros Ht. by rewrite Ht in Hs.
Qed.

(** When the rereads downgrade a failed check to recovery-tail latency, nothing but
    failed reads was wrong with the immediate check, and for every one of those reads a
    later GET of its key returned exactly the committed bytes. *)
Theorem tail_latency_reads_everything_back `{RereadEnv} records start immediate max_recovery rep :
  (∀ n l, re_completed n l ≡ₚ l) → checker_bound records start immediate →
  cr_passed immediate = false → max_recovery ≠ 0%N →
  recovery_stability_reread records immediate start max_recovery = ok rep →
  rsr_classification rep = RecoveryStabilityClassification.RecoveryTailReadLatency →
  only_read_failures immediate ∧
  ∀ f, f ∈ committed_read_failures immediate →
    ∃ key, failure_key f = Some key ∧ read_back (expectations records start) key.
Proof.
  intros Hc Hb Hp Hmax Hr Ht.
  destruct (reread_settled Hc _ _ _ _ _ Hb Hp Hmax Hr) as (still & r & Hs & Hset & ->).
  simpl in Ht. apply classified_tail in Ht as (_ & _ & Ht).
  apply reread_candidates_iff in Ht as (Hread & c & Hcand & Hsize & _ & _ & Ha & Hrec).
  split; [done|]. intros f Hf.
  apply still_unavailable_ok in Hs as (_ & named & Hn & _).
  assert (to_set named = c) as Hnamed.
  { symmetry. apply set_subseteq_size_eq.
    - intros k (g & Hg & Htg)%(recovery_candidates_ok _ _ Hcand).
      rewrite elem_of_to_set. by eapply tail_failure_named.
    - destruct Hn as (HF & Hnd & _). apply Forall2_length in HF.
      rewrite (proj2 (to_set_size named) Hnd). lia. }
  destruct Hn as (HF & _ & _). apply list_elem_of_lookup in Hf as [i Hi].
  destruct (Forall2_lookup_l _ _ _ _ _ HF Hi) as (key & Hkey & Hfk). exists key. split; [done|].
  eapply se_recovered; [exact Hset|]. apply elem_of_to_set. rewrite <- Hrec, <- Hnamed.
  apply elem_of_to_set. by eapply list_elem_of_lookup_2.
Qed.

(** ** Severity and evidence *)

(** Classes whose evidence the report keeps as text. *)
Definition evidence_class (c : RecoveryStabilityClassification.t) : Prop :=
  match c with
  | RecoveryStabilityClassification.DataCorruption
  | RecoveryStabilityClassification.CommittedObjectUnavailable
  | RecoveryStabilityClassification.ListUnavailableOrUnknown
  | RecoveryStabilityClassification.RecoveryTailReadLatency
  | RecoveryStabilityClassification.AmbiguousWriteMaterialized
  | RecoveryStabilityClassification.HarnessError => False
  | _ => True
  end.

Lemma recovery_as_str_inj c d : recovery_as_str c = recovery_as_str d → c = d.
Proof. destruct c, d; (reflexivity || discriminate). Qed.

Lemma elem_of_evidence_classifications r c :
  recovery_as_str c ∈ evidence_classifications r ↔ c ∈ evidence_classes r.
Proof.
  unfold evidence_classifications. rewrite elem_of_set_elems, elem_of_to_set, list_elem_of_fmap.
  split; [intros (d & ->%recovery_as_str_inj & ?); done|intros ?; by exists c].
Qed.

Lemma elem_of_optional_class (b : bool) (c d : RecoveryStabilityClassification.t) :
  c ∈ (if b then [d] else []) → c = d.
Proof. destruct b; [by intros ->%list_elem_of_singleton|by intros ?%elem_of_nil]. Qed.

Lemma evidence_class_listed r c :
  evidence_class c → c ∈ evidence_classes r ↔
  c = rsr_classification r ∨ lists_class (rsr_classification_evidence r) c.
Proof.
  intros Hc. unfold evidence_classes, lists_class. rewrite !elem_of_app, list_elem_of_omap.
  split; [|intros [->|(e & ? & ?)]; [left; left|right; right; left; eauto]].
  rewrite list_elem_of_singleton. intros H.
  repeat (destruct H as [H|H]; [first [by left|by right|apply elem_of_optional_class in H; by subst c]|]).
  apply elem_of_optional_class in H. by subst c.
Qed.

(** For each classification that is carried by tagged checker evidence,
    evidence_classifications of the reread report names it exactly when it is the
    report's classification or the checker report holds a finding of that kind. *)
Theorem recovery_lists_evidenced_classes `{RereadEnv} records start immediate max_recovery rep c :
  (∀ n l, re_completed n l ≡ₚ l) → evidence_class c →
  recovery_stability_reread records immediate start max_recovery = ok rep →
  recovery_as_str c ∈ evidence_classifications rep ↔
  c = rsr_classification rep ∨ class_evidenced immediate c.
Proof.
  intros Hc Hev Hr. rewrite elem_of_evidence_classifications, evidence_class_listed by done.
  destruct (reread_outcome Hc _ _ _ _ _ Hr) as (still & Hs & Hcase).
  assert (rsr_classification_evidence rep = immediate_classification_evidence immediate) as ->.
  { destruct Hcase as [[_ ->]|(st & Hacc & ->)]; [done|]. apply (ex_evidence _ _ (ac_extends _ _ _ _ Hacc)). }
  by rewrite immediate_evidence_classes.
Qed.

Definition recovery_severity (c : RecoveryStabilityClassification.t) : FailureSeverity.t :=
  FailureClassification.severity (FailureClassification.from c).

(** C33. Rereads never soften a correctness failure: when the immediate classification
    has severity fail_correctness and is not one of the two classifications of listed
    ghost keys, the classification after the rereads has severity fail_correctness too.
    *)
Theorem reread_keeps_correctness_failures `{RereadEnv} records start immediate max_recovery rep :
  (∀ n l, re_completed n l ≡ₚ l) →
  recovery_stability_reread records immediate start max_recovery = ok rep →
  recovery_severity (failure_classification immediate) = FailureSeverity.FailCorrectness →
  failure_classification immediate ≠ RecoveryStabilityClassification.ListedKeyUnreadable →
  failure_classification immediate ≠ RecoveryStabilityClassification.UnexpectedListedObject →
  recovery_severity (rsr_classification rep) = FailureSeverity.FailCorrectness.
Proof.
  intros Hc Hr Hsev Hn1 Hn2. pose proof (classify_supported immediate) as Hsup.
  destruct (reread_outcome Hc _ _ _ _ _ Hr) as (still & Hs & Hcase).
  assert (∃ r, rsr_classification rep = classify_recovery_stability r immediate ∧
    rsr_classification_evidence r = immediate_classification_evidence immediate ∧
    (has_data_corruption_signal immediate = true →
     is_nonempty (rsr_hash_mismatches r) || is_nonempty (rsr_data_corruption_evidence r) = true))
    as (r & -> & Hev & Hcor).
  { destruct Hcase as [[_ ->]|(st & Hacc & ->)]; eexists; (split_and!; [done|..]); simpl.
    - done.
    - intros [H1|H1]%corruption_signal_evidence; rewrite orb_true_iff, !is_nonempty_true; auto.
    - apply (ex_evidence _ _ (ac_extends _ _ _ _ Hacc)).
    - destruct (ac_extends _ _ _ _ Hacc) as [_ _ _ _ _ _ Em Ed _]. simpl in *.
      intros [H1|H1]%corruption_signal_evidence; rewrite orb_true_iff, !is_nonempty_true, !sort_dedup_nil;
        [left|right]; intros Hn; apply H1, elem_of_nil_inv; intros x Hx;
        [apply Em in Hx|apply Ed in Hx]; rewrite Hn in Hx; by apply elem_of_nil in Hx. }
  unfold classify_recovery_stability, failure_classification in *.
  destruct (classify_without_reread immediate) eqn:Hcl; try done; simpl in Hsup;
    try (by rewrite andb_false_r, (Hcor Hsup));
    (destruct (is_nonempty (rsr_classification_evidence r)) eqn:Hne; [done|];
     apply is_nonempty_false in Hne; rewrite Hev in Hne;
     exfalso; eapply (immediate_evidence_nil _ Hne (classify_without_reread immediate));
     rewrite Hcl; exact Hsup).
Qed.
