(* ===== verification/RecoveryArtifacts.v ===== *)
(** The recovery artifacts of a failed run: what the runner writes after the
    rereads ([src/fault/runner/verification.rs]) and what the artifact validator
    requires of it ([src/fault/artifact_validation.rs]). *)
From S2P Require Import Prelude Ordering RustText History Workload ObjectModel Attempts.
From S2P Require Import ReadFailure Report Evaluate Verdict Recovery Reread.
From stdpp Require Import options.
Import RecoveryStabilityClassification.

(** ** The runner *)

(** [reread_recovery_tail]: a reread that fails becomes a harness error. *)
Definition reread_recovery_tail `{RereadEnv} (scenario run_id : string)
    (records : list OperationRecord) (immediate : CheckerReport) (immediate_record_start : nat)
    (max_recovery : N) : Result RecoveryStabilityReport :=
  match recovery_stability_reread records immediate immediate_record_start max_recovery with
  | ok report => ok report
  | err reread_error =>
      ok (with_identity scenario run_id
            (harness_error ("recovery stability reread failed: " +:+ reread_error) max_recovery))
  | panicked => panicked
  end.

(** The failure summary written for a failed pre-recommit check. *)
Definition pre_recommit_summary (now_ms : N) (scenario run_id error : string)
    (recovery : RecoveryStabilityReport) : FailureSummary :=
  with_run_id run_id
    (with_list_warnings (rsr_final_list_warning_count recovery) (rsr_list_warnings recovery)
       (with_evidence_classifications (evidence_classifications recovery)
          (with_recovered_within_seconds (rsr_recovered_within_seconds recovery)
             (summary_from_checker now_ms scenario "checker-pre-recommit-verdict"
                (rsr_classification recovery) error)))).

(** ** The validator of the recovery report *)
Definition str_lt (a b : string) : bool := bool_decide (ord_le a b) && negb (bool_decide (a = b)).
Fixpoint ensure_sorted_unique (values : list string) (field : string) : Result unit :=
  match values with
  | a :: rest =>
      _ ← match rest with
          | b :: _ => ensure (str_lt a b) (field +:+ " must be sorted and contain no duplicates")
          | [] => ok tt
          end;
      ensure_sorted_unique rest field
  | [] => ok tt
  end.

Definition has_matching_evidence (r : RecoveryStabilityReport) : bool :=
  existsb (matches_classification_evidence (rsr_classification r)) (rsr_classification_evidence r).

(** What the classification requires of the other fields. *)
Definition classification_requirement (r : RecoveryStabilityReport) : bool :=
  match rsr_classification r with
  | RecoveryTailReadLatency =>
      is_nonempty (rsr_reread_attempted_keys r)
      && bool_decide (rsr_reread_attempted_keys r = rsr_reread_recovered_keys r)
      && is_empty (rsr_still_unavailable_keys r) && is_empty (rsr_hash_mismatches r)
      && is_empty (rsr_data_corruption_evidence r) && is_empty (rsr_ambiguous_write_evidence r)
      && is_empty (rsr_harness_errors r)
  | CommittedObjectUnavailable =>
      is_nonempty (rsr_still_unavailable_keys r) && is_empty (rsr_hash_mismatches r)
      && is_empty (rsr_data_corruption_evidence r) && is_empty (rsr_harness_errors r)
  | CommittedVersionMissing | VersionHashMismatch | DeleteMarkerMissing
  | DeletedObjectResurrected | ListedKeyUnreadable | UnexpectedListedObject =>
      has_matching_evidence r
  | CommittedVersionUnavailable =>
      has_matching_evidence r && is_nonempty (rsr_still_unavailable_keys r)
      && is_empty (rsr_hash_mismatches r) && is_empty (rsr_data_corruption_evidence r)
  | DeleteMarkerLineageIncomplete | VersionIdMissingOnCommittedWrite
  | MultipartUploadLineageIncomplete =>
      has_matching_evidence r && is_empty (rsr_hash_mismatches r)
      && is_empty (rsr_data_corruption_evidence r) && is_empty (rsr_still_unavailable_keys r)
  | ListUnavailableOrUnknown =>
      bool_decide (0 < rsr_final_list_warning_count r)%N && is_empty (rsr_still_unavailable_keys r)
      && is_empty (rsr_hash_mismatches r) && is_empty (rsr_data_corruption_evidence r)
      && is_empty (rsr_ambiguous_write_evidence r) && is_empty (rsr_harness_errors r)
  | DataCorruption =>
      is_nonempty (rsr_hash_mismatches r) || is_nonempty (rsr_data_corruption_evidence r)
  | AmbiguousWriteMaterialized =>
      is_nonempty (rsr_ambiguous_write_evidence r) && is_empty (rsr_hash_mismatches r)
      && is_empty (rsr_data_corruption_evidence r) && is_empty (rsr_still_unavailable_keys r)
      && is_empty (rsr_harness_errors r)
  | HarnessError =>
      is_nonempty (rsr_harness_errors r) && is_empty (rsr_hash_mismatches r)
      && is_empty (rsr_data_corruption_evidence r)
  end.

Definition requirement_message (c : RecoveryStabilityClassification.t) : string :=
  match c with
  | RecoveryTailReadLatency => "recovery_tail_read_latency requires all attempted keys to be recovered without hard failures"
  | CommittedObjectUnavailable => "committed_object_unavailable requires still_unavailable_keys without higher-priority recovery failures"
  | CommittedVersionMissing => "precise checker correctness classification CommittedVersionMissing requires matching classification_evidence"
  | VersionHashMismatch => "precise checker correctness classification VersionHashMismatch requires matching classification_evidence"
  | DeleteMarkerMissing => "precise checker correctness classification DeleteMarkerMissing requires matching classification_evidence"
  | DeletedObjectResurrected => "precise checker correctness classification DeletedObjectResurrected requires matching classification_evidence"
  | ListedKeyUnreadable => "precise checker correctness classification ListedKeyUnreadable requires matching classification_evidence"
  | UnexpectedListedObject => "precise checker correctness classification UnexpectedListedObject requires matching classification_evidence"
  | CommittedVersionUnavailable => "committed_version_unavailable requires exact-version availability evidence without proven data loss"
  | DeleteMarkerLineageIncomplete | VersionIdMissingOnCommittedWrite
  | MultipartUploadLineageIncomplete => "incomplete version-lineage classification requires classification_evidence without loss, corruption, or availability evidence"
  | ListUnavailableOrUnknown => "list_unavailable_or_unknown requires LIST-only availability evidence without harder recovery failures"
  | DataCorruption => "data_corruption requires hash_mismatches or data_corruption_evidence"
  | AmbiguousWriteMaterialized => "ambiguous_write_materialized requires only ambiguous_write_evidence without harder recovery failures"
  | HarnessError => "harness_error requires harness_errors without data-corruption evidence"
  end.

Definition validate_recovery_stability_report (r : RecoveryStabilityReport) : Result unit :=
  _ ← ensure_sorted_unique (rsr_reread_attempted_keys r)
        "recovery-stability-report.json reread_attempted_keys";
  _ ← ensure_sorted_unique (rsr_reread_recovered_keys r)
        "recovery-stability-report.json reread_recovered_keys";
  _ ← ensure_sorted_unique (rsr_still_unavailable_keys r)
        "recovery-stability-report.json still_unavailable_keys";
  _ ← ensure_sorted_unique (rsr_data_corruption_evidence r)
        "recovery-stability-report.json data_corruption_evidence";
  _ ← ensure_sorted_unique (rsr_classification_evidence r)
        "recovery-stability-report.json classification_evidence";
  _ ← ensure_sorted_unique (rsr_ambiguous_write_evidence r)
        "recovery-stability-report.json ambiguous_write_evidence";
  _ ← ensure_sorted_unique (rsr_list_warnings r)
        "recovery-stability-report.json list_warnings";
  _ ← ensure (bool_decide (len (rsr_list_warnings r) ≤ rsr_final_list_warning_count r)%N)
        "recovery-stability-report.json final_list_warning_count must cover sampled list_warnings";
  _ ← ensure (recovery_key_sets_are_consistent r)
        "recovery-stability-report.json reread key sets are inconsistent";
  ensure (classification_requirement r) (requirement_message (rsr_classification r)).

(** ** The validator of the failure summary *)

(** [{:?}] of a slice of strings. *)
Definition list_debug (l : list string) : string := "[" +:+ join ", " (str_debug <$> l) +:+ "]".

Definition validate_recovery_failure_summary_fields (summary : FailureSummary)
    (recovery : RecoveryStabilityReport) : Result unit :=
  _ ← ensure (bool_decide (fs_verdict summary = FailureVerdict.Failed))
        "failure-summary.json verdict must be failed for recovery-stability failures";
  _ ← ensure (bool_decide (fs_evidence_classifications summary
                           = evidence_classifications recovery))
        ("failure-summary.json evidence_classifications "
         +:+ list_debug (fs_evidence_classifications summary)
         +:+ " do not match recovery-stability-report.json evidence classifications "
         +:+ list_debug (evidence_classifications recovery));
  _ ← ensure (bool_decide (fs_final_list_warning_count summary
                           = rsr_final_list_warning_count recovery)
              && bool_decide (fs_list_warnings summary = rsr_list_warnings recovery))
        "failure-summary.json LIST warning fields do not match recovery-stability-report.json";
  _ ← ensure (bool_decide (fs_classification summary
                           = recovery_as_str (rsr_classification recovery)))
        "failure-summary.json classification must match recovery-stability-report.json";
  _ ← validate_classification_projection summary;
  match rsr_classification recovery with
  | RecoveryTailReadLatency =>
      ensure (bool_decide (fs_recovered_within_seconds summary
                           = rsr_recovered_within_seconds recovery)
              && bool_decide (is_Some (fs_recovered_within_seconds summary)))
        "recovery_tail_read_latency failure-summary.json recovered_within_seconds must match recovery-stability-report.json"
  | AmbiguousWriteMaterialized =>
      ensure (bool_decide (fs_recovered_within_seconds summary = None))
        "ambiguous_write_materialized failure-summary.json must not claim recovery"
  | _ => ok tt
  end.
