(* ===== verification/RecoveryArtifactsFacts.v ===== *)
(** The artifacts of a failed recovery are accepted by the validator that reads
    them back, except where the two disagree on the recovery time. *)
From S2P Require Import Prelude Ordering RustText History Workload ObjectModel Attempts.
From S2P Require Import ReadFailure Report Evaluate Verdict VerdictFacts Recovery RecoveryFacts.
From S2P Require Import Reread RereadFacts RecoveryArtifacts.
From stdpp Require Import options.
Import RecoveryStabilityClassification.

(** ** Sorted lists without duplicates *)
Definition sorted_unique (l : list string) : Prop := StronglySorted ord_le l ∧ NoDup l.

Lemma sorted_unique_ok l field : sorted_unique l → ensure_sorted_unique l field = ok tt.
Proof.
  intros [Hs Hn]. induction Hs as [|a l Hs IH Ha]; simpl; [done|].
  apply NoDup_cons in Hn as [Hna Hn]. rewrite IH by done. destruct l as [|b l]; [done|].
  unfold str_lt. apply Forall_cons in Ha as [Hab _].
  rewrite (bool_decide_eq_true_2 (ord_le a b)), bool_decide_eq_false_2; [done| |done].
  intros ->. apply Hna. left.
Qed.

Lemma set_elems_sorted_unique s : sorted_unique (set_elems s).
Proof. split; [apply set_elems_sorted|apply set_elems_NoDup]. Qed.

Lemma sort_sorted_unique l : NoDup l → sorted_unique (sort l).
Proof. intros H. split; [apply sort_by_sorted; apply _|by apply NoDup_sort]. Qed.

Lemma dedup_sorted_unique l : StronglySorted ord_le l → sorted_unique (dedup l).
Proof.
  induction 1 as [|x l Hl [IHs IHn] Hx]; simpl; [split; constructor|].
  assert (∀ y, y ∈ dedup l → ord_le x y) as Hle.
  { intros y Hy. rewrite elem_of_dedup in Hy. rewrite Forall_forall in Hx. by apply Hx. }
  destruct (dedup l) as [|y l'] eqn:Hd; [split; [repeat constructor|apply NoDup_singleton]|].
  case_decide as Hxy; [done|]. split.
  - constructor; [done|]. by apply Forall_forall.
  - constructor; [|done]. intros Hin. apply Hxy, (anti_symm ord_le); [apply Hle; left|].
    apply elem_of_cons in Hin as [->|Hin]; [done|].
    apply StronglySorted_inv in IHs as [_ IHs]. rewrite Forall_forall in IHs. by apply IHs.
Qed.

Lemma sort_dedup_sorted_unique l : sorted_unique (sort_dedup l).
Proof. apply dedup_sorted_unique, sort_by_sorted; apply _. Qed.

Lemma sorted_unique_eq l l' : sorted_unique l → sorted_unique l' → to_set l = to_set l' → l = l'.
Proof.
  intros [Hs Hn] [Hs' Hn'] Heq. eapply (StronglySorted_unique ord_le); [done..|].
  apply NoDup_Permutation; [done..|]. intros x. by rewrite <- !elem_of_to_set, Heq.
Qed.

Lemma sorted_unique_fixed l : sorted_unique l → sort_dedup l = l.
Proof.
  intros H. apply sorted_unique_eq; [apply sort_dedup_sorted_unique|done|].
  apply set_eq. intros x. by rewrite !elem_of_to_set, elem_of_sort_dedup.
Qed.

Lemma tagged_NoDup tag l : NoDup l → NoDup (tagged tag l).
Proof.
  apply NoDup_fmap_2. intros a b. induction tag as [|c tag IH]; [done|].
  rewrite !append_cons. intros [= H]. by apply IH.
Qed.

(** ** The lists of a recovery report *)

(** The lists of a checker report that its last step leaves without
    duplicates, and the count that covers the sampled warnings. *)
Record checker_canonical (r : CheckerReport) : Prop := {
  cn_conflicts : NoDup (cr_unknown_write_value_conflicts r);
  cn_materialized : NoDup (cr_unknown_writes_materialized r);
  cn_warnings : (len (cr_list_warnings r) ≤ cr_final_list_warning_count r)%N;
}.

Record sorted_lists (r : RecoveryStabilityReport) : Prop := {
  sl_attempted : sorted_unique (rsr_reread_attempted_keys r);
  sl_recovered : sorted_unique (rsr_reread_recovered_keys r);
  sl_still : sorted_unique (rsr_still_unavailable_keys r);
  sl_corruption : sorted_unique (rsr_data_corruption_evidence r);
  sl_evidence : sorted_unique (rsr_classification_evidence r);
  sl_ambiguous : sorted_unique (rsr_ambiguous_write_evidence r);
  sl_warnings : sorted_unique (rsr_list_warnings r);
}.

Lemma corruption_evidence_sorted r :
  NoDup (cr_unknown_write_value_conflicts r) → NoDup (cr_list_warnings r) →
  sorted_unique (immediate_data_corruption_evidence r).
Proof.
  intros Hc Hw. unfold immediate_data_corruption_evidence. apply sort_sorted_unique.
  apply NoDup_app. split_and!; [by apply tagged_NoDup| |apply NoDup_app; split_and!].
  - intros x (i & -> & _)%elem_of_tagged [(j & Hj & _)%elem_of_tagged|Hx]%elem_of_app; [done|].
    case_match; [|by apply elem_of_nil in Hx]. by apply list_elem_of_singleton in Hx.
  - apply tagged_NoDup. by apply NoDup_filter.
  - intros x (i & -> & _)%elem_of_tagged Hx.
    case_match; [|by apply elem_of_nil in Hx]. by apply list_elem_of_singleton in Hx.
  - case_match; [apply NoDup_singleton|constructor].
Qed.

Lemma still_sorted immediate attempted still :
  immediate_still_unavailable_keys immediate attempted = ok still → sorted_unique still.
Proof. intros (_ & named & _ & ->)%still_unavailable_ok. apply set_elems_sorted_unique. Qed.

Lemma reread_sorted `{RereadEnv} records start immediate max_recovery rep :
  (∀ n l, re_completed n l ≡ₚ l) → checker_bound records start immediate →
  checker_canonical immediate →
  recovery_stability_reread records immediate start max_recovery = ok rep → sorted_lists rep.
Proof.
  intros Hc Hb [Hcon Hmat _] Hr.
  assert (sorted_unique (cr_list_warnings immediate)) as Hw.
  { rewrite <- (cb_warnings _ _ _ Hb). apply sort_dedup_sorted_unique. }
  destruct (reread_outcome Hc _ _ _ _ _ Hr) as (still & Hs & [[_ ->]|(st & Hacc & ->)]).
  - split; simpl; [apply set_elems_sorted_unique|split; constructor|by eapply still_sorted
      |apply corruption_evidence_sorted; [done|apply Hw]|apply sort_dedup_sorted_unique
      |by apply sort_sorted_unique, tagged_NoDup|done].
  - destruct (baseline_disjoint _ _ _ _ Hb Hs) as [Hnd Hdis].
    pose proof (settled_still _ _ _ Hacc Hnd) as Hstill. destruct Hstill as [Hstill _].
    { intros key. rewrite expectations_dom, elem_of_to_set. apply Hdis. }
    destruct (ac_extends _ _ _ _ Hacc) as [_ _ Ea Ee _ _ _ _ _]. simpl in *.
    split; simpl; rewrite ?Ea, ?Ee;
      [apply set_elems_sorted_unique|apply sort_sorted_unique, Hacc|
      |apply sort_dedup_sorted_unique..].
    apply sort_sorted_unique. by apply NoDup_sort.
Qed.

(** ** The classification and the evidence *)
Section requirement.
Context (immediate : CheckerReport) (r : RecoveryStabilityReport) (still : list string).
Context (attempted : list string).
Context (Htenant : cr_tenant_recovered immediate = true).
Context (Hnot_harness : failure_classification immediate ≠ HarnessError).
Context (Hcand : immediate_recovery_candidate_keys immediate = ok (to_set attempted)).
Context (Hattempted : rsr_reread_attempted_keys r = attempted).
Context (Hbase : immediate_still_unavailable_keys immediate attempted = ok still).
Context (Hevidence : rsr_classification_evidence r = immediate_classification_evidence immediate).
Context (Hcount : rsr_final_list_warning_count r = cr_final_list_warning_count immediate).
Context (Hmis : cr_hash_mismatches immediate ++ cr_successful_corrupted_reads immediate
                ⊆ rsr_hash_mismatches r).
Context (Hcor : immediate_data_corruption_evidence immediate ⊆ rsr_data_corruption_evidence r).
Context (Hamb : immediate_ambiguous_write_evidence immediate ⊆ rsr_ambiguous_write_evidence r).
Context (Hstill : ∀ key, key ∈ still → key ∈ rsr_still_unavailable_keys r).
Context (Hcons : recovery_key_sets_are_consistent r = true).
Context (Hsorted : sorted_lists r).

Lemma sub_nil (l l' : list string) : l ⊆ l' → l' = [] → l = [].
Proof using Type.
  clear. intros Hs ->. destruct l as [|x l]; [done|].
  assert (x ∈ @nil string) as Hx by (apply Hs; left). by apply elem_of_nil in Hx.
Qed.

Lemma matching_evidence c :
  class_evidenced immediate c →
  existsb (matches_classification_evidence c) (rsr_classification_evidence r) = true.
Proof using Hevidence. intros Hc. rewrite Hevidence. by apply exists_matching, immediate_evidence_classes. Qed.

Lemma evidence_nonempty c :
  class_evidenced immediate c → is_nonempty (rsr_classification_evidence r) = true.
Proof using Hevidence.
  intros Hc. apply is_nonempty_true. intros Hn. rewrite Hevidence in Hn.
  by eapply immediate_evidence_nil.
Qed.

(** The sets of a consistent report without other results. *)
Lemma all_recovered :
  has_non_availability_result r = false → rsr_still_unavailable_keys r = [] →
  to_set attempted = to_set (rsr_reread_recovered_keys r).
Proof using Hcons Hattempted.
  intros Hna Hnil. pose proof (consistent_covers _ Hcons Hna) as Hcov.
  pose proof (consistent_subset _ Hcons) as Hsub.
  rewrite Hattempted in Hsub. rewrite Hnil, Hattempted in Hcov. apply (anti_symm (⊆)); [|done]. intros k Hk.
  destruct (decide (k ∈ to_set (rsr_reread_recovered_keys r))); [done|].
  assert (k ∈ to_set (@nil string)) as Hx by (apply Hcov, elem_of_difference; done).
  by rewrite elem_of_to_set, elem_of_nil in Hx.
Qed.

(** Unavailable objects that all came back were nothing but slow reads. *)
Lemma unavailable_only_candidates :
  classify_without_reread immediate = CommittedObjectUnavailable →
  has_non_availability_result r = false → rsr_still_unavailable_keys r = [] →
  cr_final_list_warning_count immediate = 0%N →
  cr_delete_marker_lineage_incomplete immediate = [] →
  cr_multipart_upload_lineage_incomplete immediate = [] →
  cr_committed_writes_missing_version_id_count immediate = 0%N →
  is_nonempty (rsr_reread_attempted_keys r) = true ∧
  immediate_failures_are_only_reread_candidates immediate r = true.
Proof using Htenant Hcand Hattempted Hbase Hstill Hcons.
  intros Hcl Hna Hnil Hlw Hdm Hmp Hvid.
  apply classify_unavailable_inv in Hcl as (Hsig & Hnocor & H1 & H2 & H3 & H4 & H5 & H6 & H7 & H8).
  unfold has_data_corruption_signal in Hnocor. rewrite !orb_false_iff, !is_nonempty_false in Hnocor.
  destruct Hnocor as [[[N1 N2] N3] _].
  pose proof (all_recovered Hna Hnil) as Hall.
  assert (still = []) as Hs0.
  { apply elem_of_nil_inv. intros k Hk%Hstill. rewrite Hnil in Hk. by apply elem_of_nil in Hk. }
  destruct (still_unavailable_ok _ _ _ Hbase) as (_ & named & Hn & Heq).
  rewrite Hs0 in Heq. symmetry in Heq.
  assert (∀ k, k ∉ to_set (cr_missing_committed_objects immediate)
                 ∪ (to_set named ∖ to_set attempted)
                 ∪ to_set (tagged "version:" (cr_unavailable_committed_versions immediate))) as Hempty.
  { intros k Hk%elem_of_set_elems. rewrite Heq in Hk. by apply elem_of_nil in Hk. }
  assert (cr_missing_committed_objects immediate = []) as Hmiss.
  { apply elem_of_nil_inv. intros k Hk. apply (Hempty k). rewrite !elem_of_union, !elem_of_to_set. auto. }
  assert (to_set named = to_set attempted) as Hnamed.
  { apply set_eq. intros k. split; intros Hk.
    - destruct (decide (k ∈ to_set attempted)); [done|]. exfalso. apply (Hempty k).
      rewrite !elem_of_union, elem_of_difference. auto.
    - apply (recovery_candidates_ok _ _ Hcand) in Hk as (f & Hf & Ht).
      rewrite elem_of_to_set. by eapply tail_failure_named. }
  assert (size (to_set attempted) = length (committed_read_failures immediate)) as Hsize.
  { destruct Hn as (HF & Hnd & _). apply Forall2_length in HF.
    by rewrite <- Hnamed, (proj2 (to_set_size named) Hnd). }
  assert (to_set attempted ≠ ∅) as Hne.
  { intros He. rewrite He, size_empty in Hsize. symmetry in Hsize. apply nil_length_inv, app_nil in Hsize as [U V].
    unfold has_committed_unavailable_signal in Hsig. by rewrite Hmiss, U, V in Hsig. }
  split.
  - rewrite Hattempted. apply is_nonempty_true. by intros ->.
  - apply reread_candidates_iff. split; [by unfold only_read_failures; split_and!|].
    exists (to_set attempted). by rewrite Hattempted.
Qed.
(** The requirement of a class, as the validator reads it off the report. *)
Definition required (c : RecoveryStabilityClassification.t) : Prop :=
  classification_requirement (r <| rsr_classification := c |>) = true.

Lemma required_precise c :
  match c with
  | CommittedVersionMissing | VersionHashMismatch | DeleteMarkerMissing
  | DeletedObjectResurrected | ListedKeyUnreadable | UnexpectedListedObject => True
  | _ => False
  end → class_evidenced immediate c → required c.
Proof using Hevidence.
  intros Hc Hev%matching_evidence. unfold required, classification_requirement, has_matching_evidence.
  by destruct c.
Qed.

Lemma required_version_unavailable :
  class_evidenced immediate CommittedVersionUnavailable →
  rsr_hash_mismatches r = [] → rsr_data_corruption_evidence r = [] →
  required CommittedVersionUnavailable.
Proof using Hevidence Hbase Hstill.
  intros Hev H1 H2. unfold required, classification_requirement, has_matching_evidence. simpl.
  rewrite (matching_evidence _ Hev), H1, H2, !andb_true_r. apply is_nonempty_true. intros Hnil.
  destruct (still_unavailable_ok _ _ _ Hbase) as (_ & named & _ & ->).
  destruct (cr_unavailable_committed_versions immediate) as [|item l] eqn:E; [by simpl in Hev|].
  assert ("version:" +:+ item ∈ rsr_still_unavailable_keys r) as Hx; [|rewrite Hnil in Hx; by apply elem_of_nil in Hx].
  apply Hstill, elem_of_set_elems, elem_of_union. right. apply elem_of_to_set, elem_of_tagged.
  exists item. split; [done|left].
Qed.

Lemma required_lineage c :
  c ∈ lineage_classes → lists_class (rsr_classification_evidence r) c →
  rsr_hash_mismatches r = [] → rsr_data_corruption_evidence r = [] →
  rsr_still_unavailable_keys r = [] → required c.
Proof using Type.
  clear. intros Hin Hev%exists_matching H1 H2 H3.
  unfold required, classification_requirement, has_matching_evidence.
  repeat (apply elem_of_cons in Hin as [->|Hin]; [simpl; by rewrite Hev, H1, H2, H3|]).
  by apply elem_of_nil in Hin.
Qed.

(** The last resort: the class of the immediate check, when nothing the rereads
    left decides. *)
Lemma required_fallback :
  has_non_availability_result r = false → rsr_still_unavailable_keys r = [] →
  has_list_unavailable_or_unknown_signal immediate = false →
  List.find (λ c, existsb (matches_classification_evidence c) (rsr_classification_evidence r))
    lineage_classes = None →
  (is_nonempty (rsr_reread_attempted_keys r)
   && immediate_failures_are_only_reread_candidates immediate r = false) →
  required (classify_without_reread immediate).
Proof using All.
  intros Hna Hnil Hlist Hfind Hcands. pose proof (classify_supported immediate) as Hsup.
  unfold failure_classification in Hnot_harness.
  unfold has_non_availability_result in Hna. rewrite !orb_false_iff, !is_nonempty_false in Hna.
  destruct Hna as [[[Hm Hc] Ha] Hh].
  assert (∀ c, c ∈ lineage_classes → ¬ class_evidenced immediate c) as Hlin.
  { intros c Hin Hev%matching_evidence. eapply List.find_none in Hfind; [|by apply list_elem_of_In].
    congruence. }
  destruct (classify_without_reread immediate) eqn:Hcl; simpl in Hsup;
    try (by apply required_precise); try (by apply required_version_unavailable);
    try (match type of Hcl with _ = ?c =>
           exfalso; apply (Hlin c); [rewrite list_elem_of_In; simpl; tauto|exact Hsup] end);
    try done.
  - apply corruption_signal_evidence in Hsup as [Hs|Hs]; exfalso; apply Hs; by eapply sub_nil.
  - exfalso. edestruct unavailable_only_candidates as [E1 E2]; [done| |done|..].
    + unfold has_non_availability_result. by rewrite Hm, Hc, Ha, Hh.
    + unfold has_list_unavailable_or_unknown_signal in Hlist.
      assert (final_list_content_corruption_signal immediate = false) as Hcs.
      { apply not_true_iff_false. intros Hs. destruct (corruption_signal_evidence immediate) as [Hx|Hx].
        - unfold has_data_corruption_signal. by rewrite Hs, orb_true_r.
        - by apply Hx; eapply sub_nil.
        - by apply Hx; eapply sub_nil. }
      rewrite Hcs, andb_true_r, bool_decide_eq_false in Hlist. lia.
    + destruct (cr_delete_marker_lineage_incomplete immediate) eqn:E; [done|].
      exfalso. eapply (Hlin DeleteMarkerLineageIncomplete); [left|]. simpl. by rewrite E.
    + destruct (cr_multipart_upload_lineage_incomplete immediate) eqn:E; [done|].
      exfalso. eapply (Hlin MultipartUploadLineageIncomplete); [by right; left|]. simpl. by rewrite E.
    + destruct (cr_committed_writes_missing_version_id_count immediate) eqn:E; [done|].
      exfalso. eapply (Hlin VersionIdMissingOnCommittedWrite); [by right; right; left|].
      right. by rewrite E.
    + by rewrite E1, E2 in Hcands.
  - exfalso. congruence.
  - exfalso. apply Hsup, ambiguous_evidence_nil. by eapply sub_nil.
Qed.

Lemma classification_required : required (classify_recovery_stability r immediate).
Proof using All.
  pose proof (classify_supported immediate) as Hsup. unfold classify_recovery_stability.
  destruct (is_nonempty (rsr_classification_evidence r) && match _ with _ => _ end) eqn:Hprecise.
  { apply andb_true_iff in Hprecise as [_ Hp]. unfold failure_classification in *.
    apply required_precise; destruct (classify_without_reread immediate); done. }
  destruct (is_nonempty (rsr_hash_mismatches r) || is_nonempty (rsr_data_corruption_evidence r)) eqn:Hcorrupt;
    [by unfold required, classification_requirement|].
  apply orb_false_iff in Hcorrupt as [Hm Hd].
  destruct (is_nonempty (rsr_harness_errors r)) eqn:Hh.
  { unfold required, classification_requirement. simpl. rewrite Hh.
    apply is_nonempty_false in Hm as ->. by apply is_nonempty_false in Hd as ->. }
  destruct (is_nonempty (rsr_classification_evidence r) && bool_decide (failure_classification immediate = _))
    eqn:Hversion.
  { apply andb_true_iff in Hversion as [_ Hv%bool_decide_eq_true]. rewrite Hv.
    unfold failure_classification in Hv. rewrite Hv in Hsup. apply required_version_unavailable;
      [done|by apply is_nonempty_false..]. }
  destruct (is_nonempty (rsr_still_unavailable_keys r)) eqn:Hs.
  { unfold required, classification_requirement. simpl. rewrite Hs.
    apply is_nonempty_false in Hm as ->. apply is_nonempty_false in Hd as ->.
    by apply is_nonempty_false in Hh as ->. }
  destruct (is_nonempty (rsr_ambiguous_write_evidence r)) eqn:Ha.
  { unfold required, classification_requirement. simpl. rewrite Ha.
    apply is_nonempty_false in Hm as ->. apply is_nonempty_false in Hd as ->.
    apply is_nonempty_false in Hs as ->. by apply is_nonempty_false in Hh as ->. }
  destruct (has_list_unavailable_or_unknown_signal immediate) eqn:Hl.
  { unfold required, classification_requirement. simpl. rewrite Hcount.
    unfold has_list_unavailable_or_unknown_signal in Hl. apply andb_true_iff in Hl as [-> _].
    apply is_nonempty_false in Hm as ->. apply is_nonempty_false in Hd as ->.
    apply is_nonempty_false in Hs as ->. apply is_nonempty_false in Ha as ->.
    by apply is_nonempty_false in Hh as ->. }
  assert (has_non_availability_result r = false) as Hna
    by (unfold has_non_availability_result; by rewrite Hm, Hd, Ha, Hh).
  rewrite is_nonempty_false in *.
  destruct (List.find _ _) as [c|] eqn:Hf.
  { apply List.find_some in Hf as [Hin Hex]. apply required_lineage; try done;
      [by apply list_elem_of_In|by apply exists_matching]. }
  destruct (is_nonempty (rsr_reread_attempted_keys r) && _) eqn:Hcands; [|by apply required_fallback].
  apply andb_true_iff in Hcands as [Hat Hon].
  apply reread_candidates_iff in Hon as (_ & c & _ & _ & _ & _ & E1 & E2).
  assert (rsr_reread_attempted_keys r = rsr_reread_recovered_keys r) as Heq.
  { apply sorted_unique_eq; [apply Hsorted..|congruence]. }
  unfold required, classification_requirement. simpl.
  rewrite Hat, bool_decide_eq_true_2, Hs, Hm, Hd, Ha, Hh; done.
Qed.
End requirement.

(** The artifact validator accepts what the rereads return. *)
Lemma recovery_report_valid `{RereadEnv} records start immediate
    max_recovery rep :
  (∀ n l, re_completed n l ≡ₚ l) → checker_bound records start immediate →
  checker_canonical immediate → cr_passed immediate = false →
  cr_tenant_recovered immediate = true → failure_classification immediate ≠ HarnessError →
  max_recovery ≠ 0%N →
  recovery_stability_reread records immediate start max_recovery = ok rep →
  validate_recovery_stability_report rep = ok tt.
Proof.
  intros Hc Hb Hcan Hp Hten Hnh Hmax Hr.
  pose proof (reread_sorted _ _ _ _ _ Hc Hb Hcan Hr) as Hsorted.
  destruct (reread_settled Hc _ _ _ _ _ Hb Hp Hmax Hr) as (still & r & Hs & Hset & Heq).
  destruct (se_extends _ _ _ _ _ _ Hset) as [_ _ Ea Ee Ec Ew Em Ed Eamb]. simpl in *.
  unfold validate_recovery_stability_report. rewrite !sorted_unique_ok by apply Hsorted. run_result.
  assert (rsr_list_warnings rep = cr_list_warnings immediate ∧
          rsr_final_list_warning_count rep = cr_final_list_warning_count immediate) as [-> ->]
    by (subst rep; done).
  rewrite bool_decide_eq_true_2 by apply Hcan. run_result.
  assert (recovery_key_sets_are_consistent rep = true) as ->
    by (subst rep; apply (se_consistent _ _ _ _ _ _ Hset)).
  run_result. apply ensure_ok. rewrite Heq.
  refine (classification_required immediate r still (attempted_keys records start) Hten Hnh
    (cb_candidates _ _ _ Hb) Ea Hs Ee Ec Em Ed Eamb (se_still _ _ _ _ _ _ Hset)
    (se_consistent _ _ _ _ _ _ Hset) _).
  subst rep. by destruct Hsorted.
Qed.

(** ** The failure summary *)

(** What the validator asks of the recovery time. *)
Definition recovery_time_fits (r : RecoveryStabilityReport) : Prop :=
  match rsr_classification r with
  | RecoveryTailReadLatency => is_Some (rsr_recovered_within_seconds r)
  | AmbiguousWriteMaterialized => rsr_recovered_within_seconds r = None
  | _ => True
  end.

(** The failure summary the runner writes for a failed pre-recommit check is
    accepted by validate_recovery_failure_summary_fields exactly when its recovery time
    fits its classification: present for recovery-tail latency, absent for a
    materialized ambiguous write. *)
Theorem recovery_summary_accepted_iff now_ms scenario run_id error r :
  sort_dedup (rsr_list_warnings r) = rsr_list_warnings r →
  let s := pre_recommit_summary now_ms scenario run_id error r in
  validate_recovery_failure_summary_fields s r = ok tt ↔ recovery_time_fits r.
Proof.
  intros Hw s. unfold validate_recovery_failure_summary_fields.
  assert (validate_classification_projection s = ok tt) as ->.
  { apply validate_projection_ok. by exists (FailureClassification.from (rsr_classification r)). }
  rewrite !bind_ensure_ok. run_result. rewrite andb_true_iff, !bool_decide_eq_true.
  assert (fs_evidence_classifications s = evidence_classifications r) as ->
    by (apply sorted_unique_fixed, set_elems_sorted_unique).
  assert (fs_list_warnings s = rsr_list_warnings r) as -> by exact Hw.
  unfold recovery_time_fits.
  destruct (rsr_classification r) eqn:Hcl; simpl;
    rewrite ?ensure_ok, ?andb_true_iff, ?bool_decide_eq_true; intuition; by rewrite Hcl.
Qed.
