(* ===== verification/EvidenceFacts.v ===== *)
(** A failed check always says what it found: its classification is never left
    to the harness, its lists are canonical, and its evidence survives in the
    classification of the recovery report. *)
From S2P Require Import Prelude Ordering RustText History Workload ObjectModel.
From S2P Require Import ObjectModelFacts Attempts ReadAnomalies ReplayFacts ListHistory Lineage.
From S2P Require Import ReadFailure Report Evaluate Checker CheckerFacts LegalityFacts.
From S2P Require Import Verdict Recovery RecoveryFacts Reread RereadFacts RecoveryArtifacts.
From S2P Require Import RecoveryArtifactsFacts ClientRuns.
From stdpp Require Import options.
Import RecoveryStabilityClassification.

Lemma unclassified_no_findings r : classify_without_reread r = HarnessError → no_findings r.
Proof.
  unfold classify_without_reread.
  repeat match goal with |- (if ?b then _ else _) = _ → _ => destruct b eqn:? end; try done.
  intros _. unfold has_data_corruption_signal, has_committed_unavailable_signal,
    has_list_unavailable_or_unknown_signal in *.
  rewrite ?orb_false_iff, ?is_nonempty_false in *. destruct_and!.
  assert (cr_final_list_warning_count r = 0%N).
  { match goal with H : bool_decide (0 < cr_final_list_warning_count r)%N && negb ?b = false, E : ?b = false |- _ =>
      rewrite E, andb_true_r, bool_decide_eq_false in H; lia end. }
  by split_and!; [split|..].
Qed.

(** Only a tenant that did not recover leaves a failure without a finding. *)
Lemma failing_check_classified `{CheckerEnv} scenario run_id records tenant r :
  (∀ A (l : list A), env_completed A l ≡ₚ l) →
  om_ambiguous_delete_pending (object_model records) = ∅ →
  (N.of_nat (size (om_live (object_model records))) ≤ u64_max)%N →
  check_s3_history scenario run_id records tenant false = ok r → cr_passed r = false →
  failure_classification r = HarnessError →
  tenant = false ∧ reads_clean records ∧ ∃ keys, legal_store (object_model records) (key_prefix run_id) keys.
Proof.
  intros Hc Hpend Hmax Hr Hfail Hcl%unclassified_no_findings.
  destruct (clean_store_legal Hc _ _ _ _ Hpend Hr Hcl) as [Hreads Hlegal].
  split; [|done]. rewrite <-Hfail. symmetry. by eapply legal_store_passes.
Qed.

(** C10. A failing check of an unversioned bucket without pending ambiguous deletes and
    with at most 2^64-1 live keys is classified as a harness error only when the tenant
    did not recover while the recorded reads were clean and the store is legal: with a
    recovered tenant a failure is always attributed to a finding of the S3 model. *)
Theorem failing_check_is_classified `{CheckerEnv} scenario run_id records tenant r :
  (∀ A (l : list A), env_completed A l ≡ₚ l) →
  om_ambiguous_delete_pending (object_model records) = ∅ →
  (N.of_nat (size (om_live (object_model records))) ≤ u64_max)%N →
  check_s3_history scenario run_id records tenant false = ok r → cr_passed r = false →
  failure_classification r = HarnessError →
  tenant = false ∧ reads_clean records ∧ ∃ keys, legal_store (object_model records) (key_prefix run_id) keys.
Proof. apply failing_check_classified. Qed.

(** ** Canonical reports *)

(** The samples are some of the warnings pushed so far, and no more than were
    counted. *)
Definition sampled (w : WarningSummary) (pushed : list string) : Prop :=
  ws_samples w `sublist_of` pushed ∧ (len (ws_samples w) ≤ ws_total_count w)%N.

Lemma push_warning_sampled w l x : sampled w l → sampled (push_warning w x) (l ++ [x]).
Proof.
  intros [Hs Hl]. unfold push_warning. split; simpl; case_bool_decide.
  - by apply sublist_app.
  - by apply sublist_inserts_r.
  - rewrite len_app. change (len [x]) with 1%N. lia.
  - lia.
Qed.

Lemma push_warnings_sampled w l l' : sampled w l → sampled (push_warnings w l') (l ++ l').
Proof.
  revert w l. induction l' as [|x l' IH]; intros w l Hs; simpl; [by rewrite app_nil_r|].
  rewrite cons_middle, app_assoc. by apply IH, push_warning_sampled.
Qed.

Lemma append_inj_l (s a b : string) : s +:+ a = s +:+ b → a = b.
Proof. induction s as [|c s IH]; [done|]. rewrite !append_cons. intros [= H]. by apply IH. Qed.

Lemma list_warnings_NoDup m (absent materialized listed : gset string) prefix :
  NoDup (((λ key, "LIST prefix " +:+ prefix +:+ " did not include expected live key " +:+ key)
            <$> filter (λ key, (key ∉ listed) ∧ (key ∉ absent)) (map_keys (om_live m)))
         ++ ((λ key, "GET reported ambiguous-delete key " +:+ key +:+ " absent but LIST prefix "
                     +:+ prefix +:+ " still included it")
               <$> filter (λ key, key ∈ listed) (set_elems absent))
         ++ ((λ key, "LIST prefix " +:+ prefix +:+ " included deleted key " +:+ key)
               <$> filter (λ key, (key ∈ listed) ∧ (key ∉ materialized))
                     (set_elems (om_deleted m))) : list string).
Proof.
  apply NoDup_app. split_and!.
  - apply NoDup_fmap_2; [|apply NoDup_filter, set_elems_NoDup].
    intros a b H. by do 3 apply append_inj_l in H.
  - intros x (k & -> & _)%list_elem_of_fmap [H|H]%elem_of_app;
      apply list_elem_of_fmap in H as (k' & H & _); [discriminate|].
    apply append_inj_l in H. by apply append_inj_l in H.
  - apply NoDup_app. split_and!.
    + apply NoDup_fmap_2; [|apply NoDup_filter, set_elems_NoDup].
      intros a b H. apply append_inj_l in H. by apply append_inj_r in H.
    + intros x (k & -> & _)%list_elem_of_fmap (k' & H & _)%list_elem_of_fmap. discriminate.
    + apply NoDup_fmap_2; [|apply NoDup_filter, set_elems_NoDup].
      intros a b H. by do 3 apply append_inj_l in H.
Qed.

Section canonical.
Context `{Henv : CheckerEnv}.

(** Warnings raised so far by the version listing. *)
Lemma version_warnings prefix records m lineage r vc :
  version_checks prefix records m lineage r = ok vc →
  ∃ pushed, sampled (vc_warnings vc) pushed ∧
    pushed ⊆ ["ListObjectVersions prefix " +:+ prefix +:+ " did not complete"] ∧ NoDup pushed.
Proof using Type.
  unfold version_checks. intros (p & _ & (listing & _ & H)%bind_ok)%bind_ok.
  destruct listing as [entries|].
  - apply bind_ok in H as (r' & _ & [= <-]). exists []. split_and!; [done|set_solver|constructor].
  - injection H as <-. eexists. split_and!; [|done|apply NoDup_singleton].
    exact (push_warning_sampled no_warnings [] _ ltac:(done)).
Qed.

Lemma list_checks_sampled prefix m gets w r lc pushed :
  list_checks prefix m gets w r = ok lc → sampled w pushed → NoDup pushed →
  pushed ⊆ ["ListObjectVersions prefix " +:+ prefix +:+ " did not complete"] →
  ∃ all, sampled (lc_warnings lc) all ∧ NoDup all.
Proof using Type.
  unfold list_checks. intros (listing & _ & H)%bind_ok Hw Hnd Hsub. destruct listing as [keys|].
  - apply bind_ok in H as (r' & _ & [= <-]). simpl. unfold evaluate_final_list_keys.
    eexists. split; [do 3 apply push_warnings_sampled; exact Hw|].
    rewrite <- !app_assoc. apply NoDup_app. split_and!; [done| |apply list_warnings_NoDup].
    intros x Hx%Hsub%list_elem_of_singleton. subst x. rewrite !elem_of_app, !list_elem_of_fmap.
    intros [(k & H & _)|[(k & H & _)|(k & H & _)]]; discriminate.
  - injection H as <-. eexists. split; [apply push_warning_sampled; exact Hw|].
    apply NoDup_app. split_and!; [done| |apply NoDup_singleton].
    intros x Hx%Hsub%list_elem_of_singleton ->%list_elem_of_singleton. discriminate.
Qed.

Lemma finalize_list_warnings o r l :
  cr_list_warnings (foldl (finalize_ambiguous_delete o) r l) = cr_list_warnings r.
Proof using Type.
  clear. revert r. induction l as [|key l IH]; intros r; [done|]. simpl. rewrite IH.
  unfold finalize_ambiguous_delete, finalize_absent, finalize_present. by repeat case_match.
Qed.

Lemma canonicalize_lists r :
  checker_canonical (canonicalize r) ↔
  (len (cr_list_warnings r) ≤ cr_final_list_warning_count r)%N.
Proof using Type.
  clear. assert (len (cr_list_warnings (canonicalize r)) = len (cr_list_warnings r)) as Hl.
  { unfold len. change (cr_list_warnings (canonicalize r)) with (sort (cr_list_warnings r)).
    unfold sort. by rewrite sort_by_perm. }
  split; [intros [_ _ H]; by rewrite <- Hl|].
  intros H. split; [apply sort_dedup_sorted_unique..|by rewrite Hl].
Qed.

Lemma settled_warnings r m o w all :
  sampled w all → NoDup all →
  let f := canonicalize (finalize_ambiguous_delete_observations
             (r <| cr_final_list_warning_count := ws_total_count w |>
                <| cr_list_warnings := ws_samples w |>) m o) in
  checker_canonical f ∧ sort_dedup (cr_list_warnings f) = cr_list_warnings f.
Proof using Type.
  clear. intros [Hsub Hlen] Hnd.
  pose proof (sublist_NoDup _ _ Hnd Hsub) as Hns.
  set (r1 := r <| cr_final_list_warning_count := _ |> <| cr_list_warnings := _ |>).
  assert (cr_list_warnings r1 = ws_samples w ∧ cr_final_list_warning_count r1 = ws_total_count w)
    as [E1 E2] by done. clearbody r1. unfold finalize_ambiguous_delete_observations.
  pose proof (finalize_list_warnings o r1 (set_elems (om_ambiguous_delete_pending m))) as F1.
  pose proof (finalize_warning_count o r1 (set_elems (om_ambiguous_delete_pending m))) as F2.
  set (r2 := foldl _ _ _) in *. clearbody r2. cbv zeta. split.
  - apply canonicalize_lists. by rewrite F1, F2, E1, E2.
  - change (cr_list_warnings (canonicalize r2)) with (sort (cr_list_warnings r2)). rewrite F1, E1.
    by apply sorted_unique_fixed, sort_sorted_unique.
Qed.

(** The report of a check, before its audit. *)
Lemma check_report_inv scenario run_id records tenant versioning r :
  check_s3_history scenario run_id records tenant versioning = ok r →
  ∃ f checks audit passed, checked_report scenario run_id records tenant versioning = ok (f, checks.1.1, checks.1.2, checks.2) ∧
    r = f <| cr_audit := audit |> <| cr_passed := passed |>.
Proof using Type.
  intros H. unfold check_s3_history in H.
  apply bind_ok in H as ([] & _ & H). apply bind_ok in H as (psha & _ & H).
  apply bind_ok in H as ([[[rep dvc] dmc] lcomp] & Hrep & H).
  apply bind_ok in H as ([] & _ & H). apply bind_ok in H as ([] & _ & H).
  apply bind_ok in H as (ssha & _ & H). injection H as <-.
  by exists rep, (dvc, dmc, lcomp); eexists _, _.
Qed.

Lemma check_canonical scenario run_id records tenant versioning r :
  check_s3_history scenario run_id records tenant versioning = ok r →
  checker_canonical r ∧ sort_dedup (cr_list_warnings r) = cr_list_warnings r.
Proof using Type.
  intros (f & checks & audit & passed & Hrep & ->)%check_report_inv.
  assert (checker_canonical f ∧ sort_dedup (cr_list_warnings f) = cr_list_warnings f)
    as [[] ?]; [|by split; [split|]].
  unfold checked_report in Hrep.
  apply bind_ok in Hrep as (anomalies & _ & H). apply bind_ok in H as (gets & _ & H).
  apply bind_ok in H as (r1 & _ & H). apply bind_ok in H as (vc & Hvc & H).
  apply bind_ok in H as (lc & Hlc & [= <- _ _ _]).
  assert (∃ all, sampled (lc_warnings lc) all ∧ NoDup all) as (all & Hs & Hnd).
  { assert (∃ pushed, sampled (vc_warnings vc) pushed ∧
      pushed ⊆ ["ListObjectVersions prefix " +:+ key_prefix run_id +:+ " did not complete"] ∧
      NoDup pushed) as (pushed & Hw & Hs & Hnd).
    { destruct versioning; [by eapply version_warnings|]. injection Hvc as <-.
      exists []. split_and!; [done|set_solver|constructor]. }
    by eapply list_checks_sampled. }
  exact (settled_warnings _ _ _ _ _ Hs Hnd).
Qed.

(** The check does not touch the tenant's state. *)
Lemma final_gets_tenant m r gets :
  final_gets m r = ok gets → cr_tenant_recovered (fg_report gets) = cr_tenant_recovered r.
Proof using Type.
  unfold final_gets. intros Hf.
  eapply (try_fold_forward _ (λ s, cr_tenant_recovered (fg_report s) = cr_tenant_recovered r));
    [|exact Hf|done].
  intros s key s' (get & _ & [= <-])%bind_ok <-.
  unfold final_get_step. repeat case_match; simpl; try done;
    unfold evaluate_final_get, evaluate_final_body, record_preserved_committed;
    by repeat case_match.
Qed.

Lemma unversioned_check_tenant scenario run_id records tenant r :
  check_s3_history scenario run_id records tenant false = ok r → cr_tenant_recovered r = tenant.
Proof using Type.
  intros (f & checks & audit & passed & Hrep & ->)%check_report_inv. simpl.
  unfold checked_report in Hrep.
  apply bind_ok in Hrep as (anomalies & _ & H). apply bind_ok in H as (gets & Hgets & H).
  apply bind_ok in H as (r1 & Hdel & H). cbn [mbind Result_bind] in H.
  apply bind_ok in H as (lc & Hlc & [= <- _ _ _]). simpl in Hlc.
  change (cr_tenant_recovered (canonicalize ?x)) with (cr_tenant_recovered x).
  assert (∀ o r l, cr_tenant_recovered (foldl (finalize_ambiguous_delete o) r l)
                   = cr_tenant_recovered r) as Hfin.
  { clear. intros o r l. revert r. induction l as [|key l IH]; intros r; [done|]. simpl. rewrite IH.
    unfold finalize_ambiguous_delete, finalize_absent, finalize_present. by repeat case_match. }
  unfold finalize_ambiguous_delete_observations. rewrite Hfin.
  trans (cr_tenant_recovered r1).
  { unfold list_checks in Hlc. apply bind_ok in Hlc as (listing & _ & H).
    destruct listing as [keys|]; [|by injection H as <-].
    apply bind_ok in H as (r' & Hr' & [= <-]). simpl.
    eapply (try_fold_forward _ (λ s, cr_tenant_recovered s = cr_tenant_recovered r1));
      [|exact Hr'|done].
    intros s key s' (get & _ & [= <-])%bind_ok <-.
    unfold evaluate_unexplained_listed_key. by repeat case_match. }
  trans (cr_tenant_recovered (fg_report gets)).
  { unfold deleted_gets in Hdel.
    eapply (try_fold_forward _ (λ s, cr_tenant_recovered s = cr_tenant_recovered (fg_report gets)));
      [|exact Hdel|done].
    intros s key s' (get & _ & [= <-])%bind_ok <-. by case_match. }
  by rewrite (final_gets_tenant _ _ _ Hgets).
Qed.
End canonical.

(** ** The reads of the check *)

(** A final GET of a live key that returns neither a body nor a definite absence. *)
Definition read_failed (get : GetObjectResult) : Prop :=
  (get_outcome get = OperationOutcome.Ok → get_body get = None) ∧
  (get_outcome get = OperationOutcome.NotFound → is_Some (get_body get)).
Definition failure_of (key : string) (get : GetObjectResult) : CommittedReadFailure :=
  Observed key (get_outcome get) (get_http_status get) (get_error get) (len <$> get_body get).

Lemma final_get_failures sha r key expected attempts get f :
  f ∈ committed_read_failures (evaluate_final_get sha r key expected attempts get) ↔
  f ∈ committed_read_failures r ∨ is_Some expected ∧ read_failed get ∧ f = failure_of key get.
Proof.
  unfold evaluate_final_get, evaluate_final_body, record_preserved_committed, read_failed, failure_of,
    committed_read_failures.
  destruct (get_outcome get), (get_body get) as [body|], expected as [e|]; simpl;
    repeat case_match; simpl; rewrite ?elem_of_app, ?list_elem_of_singleton, ?is_Some_alt; naive_solver.
Qed.

Section reads.
Context `{Henv : CheckerEnv}.
Context (Hcompleted : ∀ A (l : list A), env_completed A l ≡ₚ l).

(** The failed read of a live key, as the report keeps it. *)
Definition read_fails (m : ObjectModel) (key : string) (f : CommittedReadFailure) : Prop :=
  is_Some (om_live m !! key) ∧ ∃ get, env_get_object key = ok get ∧ read_failed get ∧ f = failure_of key get.

Lemma final_gets_fold_failures m l st st' :
  om_ambiguous_delete_pending m = ∅ →
  try_fold (λ st key, get ← env_get_object key; ok (final_get_step env_sha256_hex m st key get)) st l
  = ok st' →
  ∀ f, f ∈ committed_read_failures (fg_report st') ↔
    f ∈ committed_read_failures (fg_report st) ∨ ∃ key, key ∈ l ∧ read_fails m key f.
Proof using Type.
  clear Hcompleted. intros Hpend. revert st. induction l as [|key l IH]; intros st.
  { intros [= <-] f. set_solver. }
  cbn [try_fold]. intros (st1 & (get & Hget & [= <-])%bind_ok & Hrest)%bind_ok f. rewrite (IH _ Hrest).
  assert (f ∈ committed_read_failures (fg_report (final_get_step env_sha256_hex m st key get)) ↔
    f ∈ committed_read_failures (fg_report st) ∨ read_fails m key f) as ->.
  { unfold final_get_step. rewrite Hpend, (bool_decide_eq_false_2 (key ∈ ∅)), !andb_false_r by set_solver.
    assert (∀ s, f ∈ committed_read_failures (fg_report (s <| fg_report ::= λ r, evaluate_final_get
      env_sha256_hex r key (om_live m !! key) (default [] (om_unknown_writes m !! key)) get |>)) ↔
      f ∈ committed_read_failures (fg_report s) ∨ read_fails m key f) as Hstep.
    { intros s. simpl. rewrite final_get_failures. apply or_iff_compat_l. split.
      - intros (Hl & Hfail & Hf). split; [done|]. by exists get.
      - intros (Hl & get' & Hget' & Hfail & Hf). by assert (get' = get) as -> by congruence. }
    rewrite Hstep. by repeat case_match. }
  setoid_rewrite elem_of_cons. naive_solver.
Qed.

(** What the steps after the final GETs leave alone. *)
Lemma deleted_gets_failures m r r' :
  deleted_gets m r = ok r' → committed_read_failures r' = committed_read_failures r.
Proof using Type.
  clear Hcompleted. unfold deleted_gets. intros H.
  eapply (try_fold_forward _ (λ s, committed_read_failures s = committed_read_failures r)); [|exact H|done].
  intros s key s' (get & _ & [= <-])%bind_ok <-. by case_match.
Qed.

Lemma list_checks_failures prefix m gets w r lc :
  list_checks prefix m gets w r = ok lc →
  committed_read_failures (lc_report lc) = committed_read_failures r.
Proof using Type.
  clear Hcompleted. unfold list_checks. intros (listing & _ & H)%bind_ok.
  destruct listing as [keys|]; [|by injection H as <-].
  apply bind_ok in H as (r' & Hr' & [= <-]). simpl.
  eapply (try_fold_forward _ (λ s, committed_read_failures s = committed_read_failures r)); [|exact Hr'|done].
  intros s key s' (get & _ & [= <-])%bind_ok <-.
  unfold evaluate_unexplained_listed_key. by repeat case_match.
Qed.

Lemma canonicalize_failures r f :
  f ∈ committed_read_failures (canonicalize r) ↔ f ∈ committed_read_failures r.
Proof using Type.
  clear Hcompleted. unfold committed_read_failures, canonicalize. simpl. unfold sort_by_key.
  by rewrite !elem_of_app, !elem_of_sort_by.
Qed.

Lemma sealed_failures r audit passed :
  committed_read_failures (r <| cr_audit := audit |> <| cr_passed := passed |>) = committed_read_failures r.
Proof using Type. done. Qed.
Lemma warned_failures r count warnings :
  committed_read_failures (r <| cr_final_list_warning_count := count |> <| cr_list_warnings := warnings |>)
  = committed_read_failures r.
Proof using Type. done. Qed.
Lemma finalize_nothing r m o :
  om_ambiguous_delete_pending m = ∅ → finalize_ambiguous_delete_observations r m o = r.
Proof using Type.
  clear. unfold finalize_ambiguous_delete_observations. intros ->. unfold set_elems.
  by rewrite elements_empty.
Qed.

(** The failed reads of the report are those of the live keys. *)
Lemma check_failures scenario run_id records tenant r :
  om_ambiguous_delete_pending (object_model records) = ∅ →
  check_s3_history scenario run_id records tenant false = ok r →
  ∀ f, f ∈ committed_read_failures r ↔ ∃ key, read_fails (object_model records) key f.
Proof using Hcompleted.
  intros Hpend (rep & checks & audit & passed & Hrep & ->)%check_report_inv f.
  unfold checked_report in Hrep.
  apply bind_ok in Hrep as (anomalies & _ & H). apply bind_ok in H as (gets & Hgets & H).
  apply bind_ok in H as (r1 & Hdel & H). cbn [mbind Result_bind] in H.
  apply bind_ok in H as (lc & Hlc & [= <- _ _ _]). simpl in Hlc.
  rewrite sealed_failures, canonicalize_failures, finalize_nothing, warned_failures by done.
  rewrite (list_checks_failures _ _ _ _ _ _ Hlc), (deleted_gets_failures _ _ _ Hdel).
  rewrite (final_gets_fold_failures _ _ _ _ Hpend Hgets).
  setoid_rewrite (Hcompleted _ _). unfold final_keys. setoid_rewrite elem_of_set_elems.
  setoid_rewrite elem_of_union. setoid_rewrite elem_of_dom. split.
  - intros [Hf|(key & _ & Hf)]; [by apply elem_of_nil in Hf|by exists key].
  - intros (key & Hf). right. exists key. split; [left; apply Hf|done].
Qed.

(** The recorder holds the reads of the live keys as the client records them, and the
    text of an error still names its timeout after redaction and truncation. *)
Record reads_recorded (m : ObjectModel) : Prop := {
  rr_each : ∀ key, is_Some (om_live m !! key) → ∃ r, r ∈ env_suffix ∧
    op_kind r = OperationKind.Get ∧ op_version_id r = None ∧ op_key r = Some key;
  rr_read : ∀ key r, is_Some (om_live m !! key) → r ∈ env_suffix →
    op_kind r = OperationKind.Get → op_version_id r = None → op_key r = Some key →
    ∃ get, env_get_object key = ok get ∧ recorded_get env_sha256_hex key None None get r ∧
      ∀ outcome status, is_recovery_tail_read_failure outcome status (op_error r)
                        = is_recovery_tail_read_failure outcome status (get_error get);
}.

(** A read that looks like a slow recovery has failed. *)
Lemma tail_read_failed outcome status error :
  is_recovery_tail_read_failure outcome status error = true →
  outcome = OperationOutcome.Timeout ∨ outcome = OperationOutcome.Unknown.
Proof using Type. clear. destruct outcome; simpl; auto; discriminate. Qed.

(** The keys to read again are the slow failed reads of live keys. *)
Lemma attempted_keys_reads records key :
  reads_recorded (object_model records) →
  key ∈ attempted_keys (records ++ env_suffix) (length records) ↔
  is_Some (om_live (object_model records) !! key) ∧ ∃ get, env_get_object key = ok get ∧
    is_recovery_tail_read_failure (get_outcome get) (get_http_status get) (get_error get) = true.
Proof using Type.
  clear Hcompleted. intros [Heach Hread]. unfold attempted_keys, recovery_tail_candidate_keys.
  rewrite drop_app_length, take_app_length, elem_of_set_elems, elem_of_to_set, list_elem_of_omap. split.
  - intros (r & Hr & H). destruct (op_key r) as [k|] eqn:Hk; [|done]. simpl in H.
    destruct (_ && _) eqn:Hb; [|done]. injection H as ->.
    rewrite !andb_true_iff, !bool_decide_eq_true in Hb. destruct Hb as [[[Hkd Hv] Hl] Ht].
    split; [done|]. destruct (Hread key r Hl Hr Hkd Hv Hk) as (get & Hget & Hrec & Herr).
    exists get. split; [done|].
    by rewrite <-Herr, <-(rec_outcome _ _ _ _ _ _ Hrec), <-(rec_status _ _ _ _ _ _ Hrec).
  - intros (Hl & get & Hget & Ht). destruct (Heach key Hl) as (r & Hr & Hkd & Hv & Hk).
    exists r. split; [done|]. rewrite Hk. simpl.
    destruct (Hread key r Hl Hr Hkd Hv Hk) as (get' & Hget' & Hrec & Herr).
    assert (get' = get) as -> by congruence.
    rewrite Herr, (rec_outcome _ _ _ _ _ _ Hrec), (rec_status _ _ _ _ _ _ Hrec), Ht.
    by rewrite !bool_decide_eq_true_2.
Qed.

Lemma names_keys_tail seen f fs k keys :
  names_keys seen (f :: fs) (k :: keys) →
  failure_key f = Some k ∧ (k ∉ seen) ∧ names_keys ({[k]} ∪ seen) fs keys.
Proof using Type.
  clear. intros (HF & Hnd & Hdis). apply Forall2_cons in HF as [Hf HF]. apply NoDup_cons in Hnd as [Hk Hnd].
  split_and!; [done|apply Hdis; left|]. split_and!; [done..|].
  intros k' Hk'. rewrite elem_of_union, elem_of_singleton. intros [->|Hs]; [done|].
  by apply (Hdis k'); [right|].
Qed.

Lemma recovery_candidate_total fs keys seen named :
  names_keys seen fs named → (∀ f, f ∈ fs → is_Some (failure_evidence f)) →
  ∃ st, try_fold recovery_candidate_step (keys, seen) fs = ok st.
Proof using Type.
  clear. revert keys seen named. induction fs as [|f fs IH]; intros keys seen named Hn He; [by eexists|].
  destruct named as [|k named]; [by destruct Hn as [HF _]; apply Forall2_length in HF|].
  apply names_keys_tail in Hn as (Hf & Hk & Hn). destruct (He f) as [e Hev]; [left|].
  cbn [try_fold recovery_candidate_step].
  rewrite (proj2 (observe_failure_key_ok seen f k ({[k]} ∪ seen))) by done. cbn [mbind Result_bind].
  rewrite Hev. apply (IH _ _ named); [done|]. intros g Hg. apply He. by right.
Qed.

(** The report names as slow the keys whose records say so. *)
Lemma candidates_are_attempted scenario run_id records tenant r still :
  om_ambiguous_delete_pending (object_model records) = ∅ →
  check_s3_history scenario run_id records tenant false = ok r →
  reads_recorded (object_model records) →
  let attempted := attempted_keys (records ++ env_suffix) (length records) in
  immediate_still_unavailable_keys r attempted = ok still →
  immediate_recovery_candidate_keys r = ok (to_set attempted).
Proof using Hcompleted.
  intros Hpend Hr Hrec attempted (_ & named & Hn & _)%still_unavailable_ok.
  pose proof (check_failures _ _ _ _ _ Hpend Hr) as Hfs.
  assert (∀ f, f ∈ committed_read_failures r → ∃ key get, f = failure_of key get ∧ key ≠ ""
    ∧ get_body get = None ∧ env_get_object key = ok get ∧ is_Some (om_live (object_model records) !! key)) as Hobs.
  { intros f Hf. pose proof Hf as (key & Hl & get & Hget & Hfail & ->)%Hfs. exists key, get.
    destruct (rr_each _ Hrec key Hl) as (g & Hg & Hkd & Hv & Hk).
    destruct (rr_read _ Hrec key g Hl Hg Hkd Hv Hk) as (get' & Hget' & Hgr & _).
    assert (get' = get) as -> by congruence. split_and!; [done| | |done..].
    - intros ->. destruct Hn as (HF & _ & _). apply list_elem_of_lookup in Hf as (i & Hi).
      by destruct (Forall2_lookup_l _ _ _ _ _ HF Hi) as (k & _ & ?).
    - destruct (get_body get) eqn:Hb; [|done].
      assert (get_outcome get = OperationOutcome.Ok) as Ho by (apply (rec_ok _ _ _ _ _ _ Hgr); rewrite Hb; by eexists).
      apply Hfail in Ho; congruence. }
  destruct (recovery_candidate_total (committed_read_failures r) ∅ ∅ named) as [[keys obs] Hfold].
  { destruct Hn as (HF & Hnd & _). split_and!; [done..|]. set_solver. }
  { intros f (key & get & -> & Hne & Hb & _)%Hobs. unfold failure_of. rewrite Hb. simpl.
    rewrite decide_False by done. by eexists. }
  assert (immediate_recovery_candidate_keys r = ok keys) as Hc
    by (unfold immediate_recovery_candidate_keys; by rewrite Hfold).
  rewrite Hc. do 2 f_equal. apply set_eq. intros k.
  rewrite (recovery_candidates_ok _ _ Hc), elem_of_to_set. unfold attempted.
  rewrite (attempted_keys_reads _ _ Hrec). split.
  - intros (f & Hf & e & He & <- & Ht). apply Hobs in Hf as (key & get & -> & Hne & Hb & Hget & Hl).
    unfold failure_of in He. rewrite Hb in He. simpl in He. rewrite decide_False in He by done.
    injection He as <-. simpl in *. by eauto.
  - intros (Hl & get & Hget & Ht). exists (failure_of k get).
    assert (failure_of k get ∈ committed_read_failures r) as Hf.
    { apply Hfs. exists k. split; [done|]. exists get. split_and!; [done| |done].
      apply tail_read_failed in Ht as [Ho|Ho]; split; rewrite Ho; discriminate. }
    split; [done|]. apply Hobs in Hf as (key & get' & Heq & Hne & Hb & Hget' & _).
    unfold failure_of in *. injection Heq as <-. assert (get' = get) as -> by congruence. rewrite Hb.
    eexists. simpl. rewrite decide_False by done. by split_and!.
Qed.
End reads.

(** C9. When an unversioned check of a recovered tenant without pending ambiguous
    deletes fails and the rereads of its slow keys, with a recovery window that is not
    zero, return a report, that report passes both its own artifact validator and the
    validator that re-derives its key sets and its classification from the checker
    report, whatever the store answers, in whatever order, and whatever the clock shows.
    The reads of the live keys, at most 2^64-1 and none named like a version, are
    recorded as the client records them, with error texts that redaction and truncation
    leave of the same kind. *)
Theorem failed_check_leaves_valid_artifacts `{CheckerEnv, RereadEnv} scenario run_id records r
    max_recovery rep :
  (∀ A (l : list A), env_completed A l ≡ₚ l) → (∀ n l, re_completed n l ≡ₚ l) →
  om_ambiguous_delete_pending (object_model records) = ∅ →
  (N.of_nat (size (om_live (object_model records))) ≤ u64_max)%N →
  (∀ key, is_Some (om_live (object_model records) !! key) → starts_with "version:" key = false) →
  reads_recorded (object_model records) →
  check_s3_history scenario run_id records true false = ok r → cr_passed r = false →
  max_recovery ≠ 0%N →
  recovery_stability_reread (records ++ env_suffix) r (length records) max_recovery = ok rep →
  validate_recovery_stability_report rep = ok tt ∧
  validate_recovery_stability_against_checker rep r = ok tt.
Proof.
  intros Hc Hc' Hpend Hmax Hkeys Hrec Hr Hfail Hwin Hre.
  destruct (check_canonical _ _ _ _ _ _ Hr) as [Hcan Hw].
  destruct (reread_outcome Hc' _ _ _ _ _ Hre) as (still & Hs & _).
  assert (checker_bound (records ++ env_suffix) (length records) r) as Hb.
  { split; [by eapply candidates_are_attempted| |done]. intros key Hk%attempted_keys_live.
    rewrite take_app_length in Hk. by apply Hkeys. }
  split; [|by eapply reread_valid].
  eapply recovery_report_valid; [done..| | |done|exact Hre].
  - by eapply unversioned_check_tenant.
  - intros Hh. by destruct (failing_check_classified _ _ _ _ _ Hc Hpend Hmax Hr Hfail Hh).
Qed.
