(* ===== verification/AuditCheckFacts.v ===== *)
(** The checker and its audit: which reports of a passing check the audit
    accepts. *)
From S2P Require Import Prelude Ordering RustText History HistoryFacts Workload ObjectModel.
From S2P Require Import ObjectModelFacts Attempts ReadAnomalies ListHistory ListHistoryFacts Lineage.
From S2P Require Import ReadFailure Report Evaluate Checker CheckerFacts LegalityFacts.
From S2P Require Import Verdict Recovery RecoveryFacts Reread RereadFacts RecoveryArtifactsFacts.
From S2P Require Import Client ClientRuns ReportAudit AuditFacts.
From stdpp Require Import options.

(** ** What the check never touches *)
Definition header (r : CheckerReport) :=
  (cr_scenario r, cr_run_id r, cr_versioning_expected r, cr_committed_puts r,
   cr_expected_live_objects r,
   (cr_list_history_warning_count r, cr_list_history_warnings r),
   (cr_operation_cohorts r, cr_fault_window_relations r)).

Lemma final_get_header sha r key expected attempts get :
  header (evaluate_final_get sha r key expected attempts get) = header r.
Proof.
  unfold evaluate_final_get, evaluate_final_body, record_preserved_committed.
  repeat (case_match; try done).
Qed.
Lemma final_get_failed_writes sha r key expected attempts get :
  cr_failed_writes_materialized (evaluate_final_get sha r key expected attempts get)
  = cr_failed_writes_materialized r ∧
  cr_tolerated_ambiguous_deletes (evaluate_final_get sha r key expected attempts get)
  = cr_tolerated_ambiguous_deletes r.
Proof.
  unfold evaluate_final_get, evaluate_final_body, record_preserved_committed.
  repeat (case_match; try done).
Qed.
Lemma unexplained_header sha r m key get :
  header (evaluate_unexplained_listed_key sha r m key get) = header r ∧
  cr_tolerated_ambiguous_deletes (evaluate_unexplained_listed_key sha r m key get)
  = cr_tolerated_ambiguous_deletes r ∧
  cr_unknown_writes_materialized (evaluate_unexplained_listed_key sha r m key get)
  = cr_unknown_writes_materialized r ∧
  cr_final_listed_objects (evaluate_unexplained_listed_key sha r m key get)
  = cr_final_listed_objects r.
Proof. unfold evaluate_unexplained_listed_key. by repeat case_match. Qed.

(** ** Ambiguous writes that landed *)
Lemma matching_write_object sha attempts body :
  matching_active_ambiguous_write sha attempts body
  = matching_active_ambiguous_object attempts (observed_object sha body).
Proof.
  unfold matching_active_ambiguous_write, matching_active_ambiguous_object, rev_find. f_equal.
  apply filter_ext_in. intros a _. apply eq_true_iff_eq. rewrite bool_decide_eq_true.
  rewrite object_matches_iff. by split.
Qed.

(** The GET shows an ambiguous write in place of the committed value. *)
Definition landed (sha : list N → string) (m : ObjectModel) (key : string) (get : GetObjectResult)
    (a : AmbiguousWriteAttempt) (actual : ExpectedObject) : Prop :=
  ∃ body, body_of get = Some body ∧ actual = observed_object sha body ∧
    om_live m !! key ≠ Some actual ∧
    matching_active_ambiguous_object (default [] (om_unknown_writes m !! key)) actual = Some a.

Lemma final_get_materialized sha m r key get message :
  clean (evaluate_final_get sha r key (om_live m !! key) (default [] (om_unknown_writes m !! key)) get) →
  message ∈ cr_unknown_writes_materialized
    (evaluate_final_get sha r key (om_live m !! key) (default [] (om_unknown_writes m !! key)) get) ↔
  message ∈ cr_unknown_writes_materialized r ∨
  ∃ a actual, landed sha m key get a actual ∧
    message = ambiguous_write_materialized_from_object_message key a actual.
Proof.
  set (attempts := default [] _). unfold landed. fold attempts.
  destruct (body_of get) as [body|] eqn:Hb.
  - pose proof (proj1 (body_of_Some get body) Hb) as [Ho Hbody]. unfold evaluate_final_get.
    rewrite Ho, Hbody. unfold evaluate_final_body. rewrite matching_write_object.
    destruct (from_option (λ e, object_matches sha e body) false (om_live m !! key)) eqn:Hm.
    { intros _. assert (om_live m !! key = Some (observed_object sha body)) as Hl.
      { destruct (om_live m !! key); [|done]. simpl in Hm. by apply object_matches_iff in Hm as <-. }
      assert (∀ r', cr_unknown_writes_materialized (record_preserved_committed sha r' key (om_live m !! key)
        attempts body) = cr_unknown_writes_materialized r') as ->
        by (intros; unfold record_preserved_committed; by repeat case_match).
      simpl. split; [by left|]. intros [?|(a & actual & (b & [= <-] & -> & ? & _) & _)]; done. }
    assert (om_live m !! key ≠ Some (observed_object sha body)) as Hl.
    { intros Hl. rewrite Hl in Hm. simpl in Hm. revert Hm. apply not_false_iff_true. by apply object_matches_iff. }
    destruct (matching_active_ambiguous_object attempts (observed_object sha body)) as [a|] eqn:Ha.
    { intros _. assert (∀ r', r' = r ∨ r' = (r <| cr_verified_live_objects ::= N.succ |>) →
        cr_unknown_writes_materialized r' = cr_unknown_writes_materialized r) as Hsame by (by intros ? [->| ->]).
      simpl. rewrite elem_of_app, list_elem_of_singleton, Hsame by (case_bool_decide; auto).
      split; (intros [?|H]; [by left|right]).
      - exists a, (observed_object sha body). split; [|exact H]. by exists body.
      - destruct H as (a' & actual & (b & [= <-] & -> & _ & Ha') & ->). by simplify_eq. }
    intros Hc. assert (¬ ∃ a actual, (∃ b, Some body = Some b ∧ actual = observed_object sha b ∧
      om_live m !! key ≠ Some actual ∧ matching_active_ambiguous_object attempts actual = Some a) ∧
      message = ambiguous_write_materialized_from_object_message key a actual) as Hno.
    { intros (a & actual & (b & [= <-] & -> & _ & Ha') & _). congruence. }
    destruct (matching_superseded_ambiguous_write sha attempts body) as [a|].
    { exfalso. pose proof (cl_conflicts _ Hc) as Hx. simpl in Hx. by apply app_nil in Hx as [_ ?]. }
    destruct (is_empty attempts); simpl in *.
    + repeat case_match; simpl; tauto.
    + exfalso. pose proof (cl_conflicts _ Hc) as Hx. simpl in Hx. by apply app_nil in Hx as [_ ?].
  - intros _. assert (cr_unknown_writes_materialized
      (evaluate_final_get sha r key (om_live m !! key) attempts get) = cr_unknown_writes_materialized r) as ->.
    { unfold evaluate_final_get, body_of in *. repeat (case_match; try done). }
    split; [by left|]. by intros [?|(a & actual & (b & ? & _) & _)].
Qed.

Section passing_report.
Context `{Henv : CheckerEnv}.
Context (Hcompleted : ∀ A (l : list A), env_completed A l ≡ₚ l).

(** ** The final GETs *)
Lemma final_get_step_fields m st key get :
  om_ambiguous_delete_pending m = ∅ →
  let report' := evaluate_final_get env_sha256_hex (fg_report st) key (om_live m !! key)
                   (default [] (om_unknown_writes m !! key)) get in
  fg_report (final_get_step env_sha256_hex m st key get) = report'.
Proof using Type.
  clear Hcompleted. intros Hpend report'. unfold final_get_step. rewrite Hpend.
  assert (∀ b1 b2, b1 && b2 && bool_decide (key ∈ (∅ : gset string)) = false) as Hno.
  { intros b1 b2. rewrite (bool_decide_eq_false_2 (key ∈ ∅)) by apply not_elem_of_empty.
    by rewrite andb_false_r. }
  rewrite !Hno. repeat case_match; done.
Qed.

(** What the final GETs of a clean check leave in the report. *)
Record final_gets_fields (m : ObjectModel) (r0 : CheckerReport) (probed : list string)
    (r : CheckerReport) : Prop := {
  ff_header : header r = header r0;
  ff_failed : cr_failed_writes_materialized r = cr_failed_writes_materialized r0;
  ff_tolerated : cr_tolerated_ambiguous_deletes r = cr_tolerated_ambiguous_deletes r0;
  ff_materialized : ∀ message, message ∈ cr_unknown_writes_materialized r ↔
    message ∈ cr_unknown_writes_materialized r0 ∨
    ∃ key get a actual, key ∈ probed ∧ env_get_object key = ok get ∧
      landed env_sha256_hex m key get a actual ∧
      message = ambiguous_write_materialized_from_object_message key a actual;
}.

Lemma final_gets_report m r gets :
  om_ambiguous_delete_pending m = ∅ → final_gets m r = ok gets → clean (fg_report gets) →
  final_gets_fields m r (env_completed _ (final_keys m)) (fg_report gets).
Proof using Type.
  clear Hcompleted. intros Hpend Hf. unfold final_gets in Hf.
  eapply (try_fold_invariant _ (λ probed st, clean (fg_report st) →
    final_gets_fields m r probed (fg_report st))); [| |exact Hf].
  { intros _. split; simpl; try done. intros message. split; [by left|].
    intros [?|(? & ? & ? & ? & ?%elem_of_nil & _)]; done. }
  intros probed key st st' IH (get & Hget & [= <-])%bind_ok.
  rewrite final_get_step_fields by done. intros Hc.
  destruct (IH (final_get_clean _ _ _ _ _ _ Hc)) as [H1 H2 H3 H4].
  destruct (final_get_failed_writes env_sha256_hex (fg_report st) key (om_live m !! key)
    (default [] (om_unknown_writes m !! key)) get) as [F1 F2].
  split; [by rewrite final_get_header|by rewrite F1|by rewrite F2|].
  intros message. rewrite final_get_materialized, H4 by done. setoid_rewrite elem_of_app.
  setoid_rewrite list_elem_of_singleton. split.
  - intros [[?|(k & g & a & act & ? & ?)]|(a & act & ? & ?)]; [by left|..]; right.
    + exists k, g, a, act. tauto.
    + exists key, get, a, act. tauto.
  - intros [?|(k & g & a & act & [Hk| ->] & Hg & Hl & ->)]; [by left; left|left; right; eauto 10|].
    rewrite Hget in Hg. injection Hg as <-. right. eauto.
Qed.

(** ** Deleted keys and the listing *)
Lemma deleted_gets_report m r r' : deleted_gets m r = ok r' → clean r' → r' = r.
Proof using Type.
  clear Hcompleted. unfold deleted_gets. intros Hf.
  eapply (try_fold_invariant _ (λ _ s, clean s → s = r)); [done| |exact Hf].
  intros probed key s s' IH (get & _ & [= <-])%bind_ok Hc.
  destruct (evaluate_deleted_reread key get); [|by apply IH].
  exfalso. pose proof (cl_resurrected _ Hc) as Hx. simpl in Hx. by apply app_nil in Hx as [_ ?].
Qed.

Lemma unexplained_failed_writes r m key get :
  clean (evaluate_unexplained_listed_key env_sha256_hex r m key get) →
  cr_failed_writes_materialized (evaluate_unexplained_listed_key env_sha256_hex r m key get)
  = cr_failed_writes_materialized r ++ [key].
Proof using Type.
  clear Hcompleted. intros Hc. pose proof (unexplained_good _ _ _ _ Hc) as (body & att & Hb & Hf & Hin).
  apply body_of_Some in Hb as [Ho Hb]. unfold evaluate_unexplained_listed_key. rewrite Ho, Hb, Hf.
  by rewrite bool_decide_eq_true_2.
Qed.

Record list_fields (r0 : CheckerReport) (keys probed : list string) (r : CheckerReport) : Prop := {
  lf_header : header r = header r0;
  lf_tolerated : cr_tolerated_ambiguous_deletes r = cr_tolerated_ambiguous_deletes r0;
  lf_materialized : cr_unknown_writes_materialized r = cr_unknown_writes_materialized r0;
  lf_listed : cr_final_listed_objects r = Some (len keys);
  lf_failed : cr_failed_writes_materialized r = cr_failed_writes_materialized r0 ++ probed;
}.

Lemma list_checks_report prefix m gets w r lc keys :
  list_checks prefix m gets w r = ok lc → env_list_prefix prefix = ok (Some keys) →
  clean (lc_report lc) →
  list_fields r keys (env_completed _ (unexplained_listed_keys m (to_set keys))) (lc_report lc).
Proof using Type.
  clear Hcompleted. unfold list_checks. intros H Hk Hc. rewrite Hk in H. cbn [mbind Result_bind] in H.
  apply bind_ok in H as (r' & Hr' & [= <-]). simpl in Hc |- *. revert Hc.
  eapply (try_fold_invariant _ (λ probed s, clean s → list_fields r keys probed s)); [| |exact Hr'].
  { intros _. split; try done. simpl. by rewrite app_nil_r. }
  intros probed key s s' IH (get & _ & [= <-])%bind_ok Hc.
  destruct (IH (unexplained_clean _ _ _ _ _ Hc)) as [H1 H2 H3 H4 H5].
  destruct (unexplained_header env_sha256_hex s m key get) as (E1 & E2 & E3 & E4).
  split; [by rewrite E1|by rewrite E2|by rewrite E3|by rewrite E4|].
  by rewrite unexplained_failed_writes, H5, (assoc_L (++)).
Qed.

(** ** The report of a passing check *)
Lemma success_counts r :
  success_predicate r = true →
  checked_add64 (cr_verified_live_objects r) (N.of_nat (size (to_set (cr_tolerated_ambiguous_deletes r))))
  = Some (cr_expected_live_objects r).
Proof using Type.
  clear. unfold success_predicate. rewrite !andb_true_iff. intros H. destruct_and! H.
  by match goal with H : bool_decide (checked_add64 _ _ = _) = true |- _ => apply bool_decide_eq_true in H end.
Qed.
Lemma sort_sort (l : list string) : sort (sort l) = sort l.
Proof using Type. unfold sort. apply sort_by_id. apply (sort_by_sorted _). Qed.

Record passed_fields (scenario run_id : string) (records : list OperationRecord) (keys : list string)
    (a : ReadAnomalies) (r : CheckerReport) : Prop := {
  pf_scope : cr_scenario r = scenario ∧ cr_run_id r = run_id ∧ cr_versioning_expected r = false;
  pf_header : header_matches r records;
  pf_tolerated : cr_tolerated_ambiguous_deletes r = [];
  pf_verified : add_u64 (cr_verified_live_objects r) 0 = ok (N.of_nat (size (om_live (object_model records))));
  pf_listed : cr_final_listed_objects r = Some (len keys);
  pf_failed : ∀ key, key ∈ cr_failed_writes_materialized r ↔
    key ∈ unexplained_listed_keys (object_model records) (to_set keys);
  pf_unique : NoDup (cr_unknown_writes_materialized r);
  pf_materialized : ∀ message, message ∈ cr_unknown_writes_materialized r ↔
    message ∈ ra_unknown_writes_materialized a ∨
    ∃ key get attempt actual, key ∈ final_keys (object_model records) ∧ env_get_object key = ok get ∧
      landed env_sha256_hex (object_model records) key get attempt actual ∧
      message = ambiguous_write_materialized_from_object_message key attempt actual;
  pf_audit : ∃ psha ssha, checker_history_records_sha256 records = ok psha ∧
    checker_history_records_sha256 env_suffix = ok ssha ∧
    cr_audit r = Some (mkCheckerAudit env_bucket env_started_at_ms env_completed_at_ms
      (len records) psha (len env_suffix) ssha (checker_operation_audits env_suffix) [] [] None);
}.

(** The last steps of the check, on the report of the listing. *)
Definition sealed (r : CheckerReport) (w : WarningSummary) (audit : CheckerAudit) : CheckerReport :=
  canonicalize (r <| cr_final_list_warning_count := ws_total_count w |>
                  <| cr_list_warnings := ws_samples w |>) <| cr_audit := Some audit |>.

Lemma sealed_fields r w audit passed : 
  let f := sealed r w audit <| cr_passed := passed |> in
  header f = (cr_scenario r, cr_run_id r, cr_versioning_expected r, cr_committed_puts r,
     cr_expected_live_objects r, (cr_list_history_warning_count r, sort (cr_list_history_warnings r)),
     (cr_operation_cohorts r, cr_fault_window_relations r)) ∧
  cr_tolerated_ambiguous_deletes f = sort (cr_tolerated_ambiguous_deletes r) ∧
  cr_verified_live_objects f = cr_verified_live_objects r ∧
  cr_final_listed_objects f = cr_final_listed_objects r ∧
  cr_failed_writes_materialized f = sort_dedup (cr_failed_writes_materialized r) ∧
  cr_unknown_writes_materialized f = sort_dedup (cr_unknown_writes_materialized r) ∧
  cr_audit f = Some audit.
Proof using Type. clear Hcompleted. done. Qed.

Lemma sealed_passed scenario run_id records keys a gets r w psha ssha :
  let m := object_model records in
  let audit := mkCheckerAudit env_bucket env_started_at_ms env_completed_at_ms (len records) psha
                 (len env_suffix) ssha (checker_operation_audits env_suffix) [] [] None in
  checker_history_records_sha256 records = ok psha → checker_history_records_sha256 env_suffix = ok ssha →
  final_gets_fields m (initial_report scenario run_id records m a true false)
    (env_completed _ (final_keys m)) (fg_report gets) →
  list_fields (fg_report gets) keys (env_completed _ (unexplained_listed_keys m (to_set keys))) r →
  success_predicate (sealed r w audit) = true →
  passed_fields scenario run_id records keys a
    (sealed r w audit <| cr_passed := success_predicate (sealed r w audit) |>).
Proof using Hcompleted.
  intros m audit Hpsha Hssha [F1 F2 F3 F4] [L1 L2 L3 L4 L5] Hp%success_counts.
  rewrite F1 in L1. rewrite F2 in L5. rewrite F3 in L2.
  change (checked_add64 (cr_verified_live_objects r)
    (N.of_nat (size (to_set (sort (cr_tolerated_ambiguous_deletes r))))) = Some (cr_expected_live_objects r)) in Hp.
  destruct (sealed_fields r w audit (success_predicate (sealed r w audit))) as (S1 & S2 & S3 & S4 & S5 & S6 & S7).
  revert S1 S2 S3 S4 S5 S6 S7. generalize (sealed r w audit <| cr_passed := success_predicate (sealed r w audit) |>).
  intros f S1 S2 S3 S4 S5 S6 S7. unfold header in L1, S1. cbn -[m] in L1, L2, L5.
  rewrite L2 in Hp, S2. change (sort []) with (@nil string) in *.
  injection L1 as A1 A2 A3 A4 A5 A6 A7 A8 A9.
  rewrite A1, A2, A3, A4, A5, A6, A7, A8, A9 in S1. injection S1 as E2 E3 E4 E5 E6 E7 E8 E9 E10.
  split.
  - done.
  - split; try done. rewrite E8. apply sort_sort.
  - done.
  - rewrite S3. unfold add_u64. change (N.of_nat (size (to_set (K:=string) []))) with 0%N in Hp.
    rewrite Hp. simpl. by rewrite A5.
  - by rewrite S4.
  - intros key. by rewrite S5, elem_of_sort_dedup, L5, Hcompleted.
  - rewrite S6. apply sort_dedup_sorted_unique.
  - intros message. rewrite S6, elem_of_sort_dedup, L3, F4. by setoid_rewrite Hcompleted.
  - exists psha, ssha. done.
Qed.

Lemma passed_report scenario run_id records r a keys :
  om_ambiguous_delete_pending (object_model records) = ∅ →
  check_s3_history scenario run_id records true false = ok r → cr_passed r = true →
  successful_read_anomalies env_sha256_hex records = ok a →
  env_list_prefix (key_prefix run_id) = ok (Some keys) →
  passed_fields scenario run_id records keys a r.
Proof using Hcompleted.
  intros Hpend H Hp Ha Hkeys. pose proof (check_passed_findings _ _ _ _ _ _ H Hp) as (Hclean & Hcount & _).
  unfold check_s3_history in H.
  apply bind_ok in H as ([] & _ & H). apply bind_ok in H as (psha & Hpsha & H).
  apply bind_ok in H as ([[[rep dvc] dmc] lcomp] & Hrep & H).
  apply bind_ok in H as ([] & _ & H). apply bind_ok in H as ([] & _ & H).
  apply bind_ok in H as (ssha & Hssha & H). injection H as <-.
  match type of Hp with cr_passed (?x <| cr_passed := _ |>) = _ =>
    change (success_predicate x = true) in Hp end.
  unfold checked_report in Hrep. set (m := object_model records) in *. rewrite Ha in Hrep.
  cbn [mbind Result_bind] in Hrep.
  apply bind_ok in Hrep as (gets & Hgets & H). apply bind_ok in H as (r1 & Hdel & H).
  cbn [mbind Result_bind] in H. apply bind_ok in H as (lc & Hlc & [= <- <- <- <-]).
  unfold finalize_ambiguous_delete_observations in *. rewrite Hpend in *.
  change (set_elems ∅) with (@nil string) in *. cbn [foldl vc_report] in *.
  assert (clean (lc_report lc)) as Hcl.
  { apply canonicalize_clean. revert Hclean. clear. intros []. by split. }
  assert (ws_total_count (lc_warnings lc) = 0%N) as Hw by exact Hcount. clear Hclean Hcount.
  pose proof (list_checks_report _ _ _ _ _ _ _ Hlc Hkeys Hcl) as HL.
  destruct (list_checks_clean Hcompleted _ _ _ _ _ _ Hlc Hcl Hw) as [Hc1 _].
  cbn [vc_report] in *. pose proof (deleted_gets_report _ _ _ Hdel Hc1) as ->.
  pose proof (final_gets_report _ _ _ Hpend Hgets Hc1) as HF.
  exact (sealed_passed _ _ _ _ _ _ _ _ _ _ Hpsha Hssha HF HL Hp).
Qed.
End passing_report.

(** ** Recorded answers *)
Section recorded.
Context (sha : list N → string) (key : string) (get : GetObjectResult) (r : OperationRecord).
Context (Hrec : recorded_get sha key None None get r).

Lemma recorded_value_body : recorded_value r = observed_object sha <$> get_body get.
Proof using Hrec.
  unfold recorded_value, observed_object. rewrite (rec_sha256 _ _ _ _ _ _ Hrec), (rec_size _ _ _ _ _ _ Hrec).
  by destruct (get_body get).
Qed.
Lemma recorded_ok body :
  body_of get = Some body ↔ answered_200 r = true ∧ recorded_value r = Some (observed_object sha body) ∧
    get_body get = Some body.
Proof using Hrec.
  rewrite body_of_Some, recorded_value_body. unfold answered_200, answered.
  rewrite andb_true_iff, !bool_decide_eq_true, (rec_outcome _ _ _ _ _ _ Hrec), (rec_status _ _ _ _ _ _ Hrec).
  pose proof (rec_200 _ _ _ _ _ _ Hrec). split; [intros [? ->]|]; naive_solver.
Qed.
Lemma recorded_200 :
  answered_200 r = true ↔ get_outcome get = OperationOutcome.Ok.
Proof using Hrec.
  unfold answered_200, answered. rewrite andb_true_iff, !bool_decide_eq_true,
    (rec_outcome _ _ _ _ _ _ Hrec), (rec_status _ _ _ _ _ _ Hrec).
  pose proof (rec_200 _ _ _ _ _ _ Hrec). tauto.
Qed.
Lemma recorded_404 :
  answered_404 r = true ↔ get_outcome get = OperationOutcome.NotFound.
Proof using Hrec.
  unfold answered_404, answered. rewrite andb_true_iff, !bool_decide_eq_true,
    (rec_outcome _ _ _ _ _ _ Hrec), (rec_status _ _ _ _ _ _ Hrec).
  pose proof (rec_404 _ _ _ _ _ _ Hrec). tauto.
Qed.
Lemma recorded_body : get_outcome get = OperationOutcome.Ok → ∃ body, body_of get = Some body.
Proof using Hrec.
  intros Ho. destruct (proj1 (rec_ok _ _ _ _ _ _ Hrec) Ho) as [body Hb]. exists body. by apply body_of_Some.
Qed.

(** The audit and the checker see the same ambiguous writes. *)
Lemma recorded_landed m a actual :
  needs_attempt m ∅ key r ∧ shows_attempt m key r a actual ↔ landed sha m key get a actual.
Proof using Hrec.
  unfold needs_attempt, shows_attempt, landed. split.
  - intros (Hn & H2 & Hv & attempts & Hu & Ha).
    destruct (recorded_body (proj1 recorded_200 H2)) as [body Hb]. exists body. split; [done|].
    apply recorded_ok in Hb as (_ & Hv' & _). assert (actual = observed_object sha body) as -> by congruence.
    rewrite Hu. split; [done|]. split; [|done]. destruct (om_live m !! key); [|done].
    destruct Hn as [_ Hn]. congruence.
  - intros (body & Hb & -> & Hl & Ha). apply recorded_ok in Hb as (H2 & Hv & _).
    destruct (om_unknown_writes m !! key) as [attempts|]; [|done]. split; [|by eauto 10].
    destruct (om_live m !! key); [|done]. rewrite Hv. split; [set_solver|]. congruence.
Qed.
End recorded.

(** ** The operations of the check *)
Section audited_check.
Context `{Henv : CheckerEnv}.

(** The keys the check reads, each once. *)
Definition requested_keys (m : ObjectModel) (keys : list string) : list string :=
  final_keys m ++ deleted_probe_keys m ++ unexplained_listed_keys m (to_set keys).

(** The recorder holds the operations of the check, as the client records them. *)
Record check_recorded (run_id : string) (records : list OperationRecord) (keys : list string) : Prop := {
  kc_times : (env_started_at_ms ≤ env_completed_at_ms)%N ∧ ∀ r, r ∈ env_suffix →
    (env_started_at_ms ≤ op_started_at_ms r ∧ op_ended_at_ms r ≤ env_completed_at_ms)%N;
  kc_kinds : ∀ r, r ∈ env_suffix → op_kind r = OperationKind.Get ∨ op_kind r = OperationKind.List;
  kc_gets : op_key <$> filter (λ r, op_kind r = OperationKind.Get) env_suffix
    ≡ₚ Some <$> requested_keys (object_model records) keys;
  kc_get : ∀ key r, r ∈ env_suffix → op_kind r = OperationKind.Get → op_key r = Some key →
    ∃ get, env_get_object key = ok get ∧ recorded_get env_sha256_hex key None None get r;
  kc_list : ∃ r, filter (λ r, op_kind r = OperationKind.List) env_suffix = [r] ∧
    recorded_listing OperationKind.List (key_prefix run_id) (Some keys) op_listed_keys r;
}.

(** The same, as the audit takes the suffix apart. *)
Record suffix_shape (run_id : string) (records : list OperationRecord) (keys : list string) : Prop := {
  kr_times : (env_started_at_ms ≤ env_completed_at_ms)%N ∧ ∀ r, r ∈ env_suffix →
    (env_started_at_ms ≤ op_started_at_ms r ∧ op_ended_at_ms r ≤ env_completed_at_ms)%N;
  kr_kinds : ∀ r, r ∈ env_suffix → is_checker_operation r = true;
  kr_gets : op_key <$> filter is_current_get env_suffix
    ≡ₚ Some <$> requested_keys (object_model records) keys;
  kr_get : ∀ key r, current_get env_suffix key r → ∃ get, env_get_object key = ok get ∧
    recorded_get env_sha256_hex key None None get r;
  kr_list : ∃ r, prefix_operations OperationKind.List (key_prefix run_id) env_suffix = [r] ∧
    recorded_listing OperationKind.List (key_prefix run_id) (Some keys) op_listed_keys r;
  kr_versions : prefix_operations OperationKind.ListVersions (key_prefix run_id) env_suffix = [];
}.

Lemma filter_iff_in {A} (P Q : A → Prop) `{∀ x, Decision (P x), ∀ x, Decision (Q x)} (l : list A) :
  (∀ x, x ∈ l → P x ↔ Q x) → filter P l = filter Q l.
Proof using Type.
  induction l as [|x l IH]; intros Hl; [done|]. rewrite !filter_cons.
  rewrite (decide_ext (P x) (Q x)) by (apply Hl; left). rewrite IH; [done|]. intros y Hy. apply Hl. by right.
Qed.
Lemma recorded_shape run_id records keys :
  check_recorded run_id records keys → suffix_shape run_id records keys.
Proof using Type.
  intros [Ht Hk Hg Hget (l & Hl & Hlr)].
  assert (∀ r, r ∈ env_suffix → op_kind r = OperationKind.Get → op_version_id r = None) as Hv.
  { intros r Hr Hkind. assert (op_key r ∈ Some <$> requested_keys (object_model records) keys) as Hin.
    { rewrite <-Hg. apply list_elem_of_fmap. exists r. by rewrite list_elem_of_filter. }
    apply list_elem_of_fmap in Hin as (key & Hkey & _). destruct (Hget key r Hr Hkind Hkey) as (get & _ & Hrec).
    apply (rec_version _ _ _ _ _ _ Hrec). }
  assert (∀ r, is_current_get r ↔ op_kind r = OperationKind.Get ∧ op_version_id r = None) as Hc.
  { intros r. unfold is_current_get. by rewrite Is_true_true, andb_true_iff, !bool_decide_eq_true. }
  split; try done.
  - intros r Hr. unfold is_checker_operation. by destruct (Hk r Hr) as [->| ->].
  - rewrite <-Hg. erewrite filter_iff_in; [done|]. intros r Hr. rewrite Hc. naive_solver.
  - intros key r (Hr & Hc'%Is_true_true & Hkey). apply Hc in Hc' as [Hkind _]. by apply Hget.
  - exists l. split; [|done]. rewrite <-Hl. apply filter_iff_in. intros r Hr. split; [by intros []|].
    intros Hkind. split; [done|]. assert (r ∈ [l]) as ->%list_elem_of_singleton
      by (rewrite <-Hl; by apply list_elem_of_filter). by destruct Hlr as (_ & ? & _).
  - unfold prefix_operations. apply elem_of_nil_inv. intros r [[Hkind _] Hr]%list_elem_of_filter.
    destruct (Hk r Hr); congruence.
Qed.

Lemma requested_NoDup records keys : NoDup (requested_keys (object_model records) keys).
Proof using Type.
  set (m := object_model records). unfold requested_keys. rewrite !NoDup_app.
  split_and!; [apply set_elems_NoDup| | | |].
  - intros key Hk. rewrite elem_of_app. unfold final_keys in Hk.
    rewrite elem_of_set_elems, elem_of_union, !elem_of_dom in Hk.
    intros [[Hu Hd%elem_of_set_elems]%list_elem_of_filter|[(Hl & Hu & _) _]%list_elem_of_filter].
    + destruct Hk as [[e He]|[? ?]]; [|congruence]. subst m.
      rewrite model_live in He. apply model_deleted in Hd. by rewrite Hd in He.
    + destruct Hk as [[? ?]|[? ?]]; congruence.
  - apply NoDup_filter, set_elems_NoDup.
  - intros key [_ Hd%elem_of_set_elems]%list_elem_of_filter [(_ & _ & Hn) _]%list_elem_of_filter. done.
  - apply NoDup_filter, set_elems_NoDup.
Qed.

Lemma collect_total suffix ks :
  op_key <$> filter is_current_get suffix ≡ₚ Some <$> ks → NoDup ks →
  ∃ gets, collect_current_gets suffix = ok gets ∧ ∀ key, key ∈ dom gets ↔ key ∈ ks.
Proof using Type.
  intros Hp Hnd. assert (∃ gets, collect_current_gets suffix = ok gets) as [gets Hg].
  { unfold collect_current_gets.
    assert (NoDup (op_key <$> filter is_current_get suffix)) as Hnd'.
    { rewrite Hp. apply NoDup_fmap_2; [apply _|done]. }
    assert (∀ r, r ∈ filter is_current_get suffix → is_Some (op_key r)) as Hsome.
    { intros r Hr. assert (op_key r ∈ Some <$> ks) as Hin by (rewrite <-Hp; apply list_elem_of_fmap; eauto).
      apply list_elem_of_fmap in Hin as (k & -> & _). by eexists. }
    clear Hp Hnd. revert Hnd' Hsome. generalize (filter is_current_get suffix). intros l Hnd' Hsome.
    assert (∀ r key, r ∈ l → op_key r = Some key → (∅ : gmap string OperationRecord) !! key = None) as Hfresh
      by done.
    revert Hfresh. generalize (∅ : gmap string OperationRecord). 
    induction l as [|r l IH]; intros g Hfresh; [by eexists|]. rewrite fmap_cons in Hnd'.
    apply NoDup_cons in Hnd' as [Hn Hnd']. destruct (Hsome r) as [key Hkey]; [left|].
    assert (current_get_step g r = ok (<[key := r]> g)) as Hstep.
    { unfold current_get_step. rewrite Hkey. run_result.
      by rewrite bool_decide_eq_true_2 by (eapply Hfresh; [left|done]). }
    cbn [try_fold]. rewrite Hstep. run_result.
    apply IH; [done|intros; apply Hsome; by right|]. intros x k Hx Hk.
    rewrite lookup_insert_ne; [eapply Hfresh; [by right|done]|]. intros ->. apply Hn.
    rewrite Hkey, <-Hk. apply list_elem_of_fmap. eauto. }
  exists gets. split; [done|]. intros key. rewrite elem_of_dom.
  assert (key ∈ ks ↔ Some key ∈ Some <$> ks) as ->.
  { rewrite list_elem_of_fmap. naive_solver. }
  rewrite <-Hp, list_elem_of_fmap. unfold is_Some. setoid_rewrite (collect_current_gets_ok suffix gets); [|done].
  unfold current_get. setoid_rewrite list_elem_of_filter. setoid_rewrite Is_true_true. naive_solver.
Qed.

(** Keys without a committed value got a definite answer. *)
Definition resolved (m : ObjectModel) : Prop :=
  ∀ key get, om_live m !! key = None → is_Some (om_unknown_writes m !! key) ∨ key ∈ om_deleted m →
    env_get_object key = ok get →
    get_outcome get = OperationOutcome.Ok ∨ get_outcome get = OperationOutcome.NotFound.
(** Every ambiguous write that landed on a key is also listed. *)
Definition landed_listed (m : ObjectModel) (keys : list string) : Prop :=
  ∀ key, om_live m !! key = None → ambiguous_write_landed m key → key ∈ keys.

Section answers.
Context (run_id : string) (records : list OperationRecord) (keys : list string).
Context (gets : gmap string OperationRecord).
Local Abbreviation m := (object_model records).
Context (Hlegal : legal_store m (key_prefix run_id) keys).
Context (Hrecd : suffix_shape run_id records keys).
Context (Hgets : collect_current_gets env_suffix = ok gets).
Context (Hdom : ∀ key, key ∈ dom gets ↔ key ∈ requested_keys m keys).
Context (unexplained : gset string).
Context (Hun : ∀ key, key ∈ unexplained ↔ key ∈ unexplained_listed_keys m (to_set keys)).

Lemma elem_of_requested key :
  key ∈ requested_keys m keys ↔ is_Some (om_live m !! key) ∨ is_Some (om_unknown_writes m !! key) ∨
    key ∈ om_deleted m ∨ key ∈ unexplained_listed_keys m (to_set keys).
Proof using Type.
  clear. unfold requested_keys, final_keys, deleted_probe_keys.
  rewrite !elem_of_app, list_elem_of_filter, !elem_of_set_elems, elem_of_union, !elem_of_dom.
  destruct (om_unknown_writes m !! key) eqn:Hu; [|naive_solver].
  split; [naive_solver|]. intros _. left. right. by eexists.
Qed.
Lemma read_of key r : gets !! key = Some r →
  ∃ get, env_get_object key = ok get ∧ recorded_get env_sha256_hex key None None get r.
Proof using Hrecd Hgets.
  intros Hr. apply (kr_get _ _ _ Hrecd). by apply (collect_current_gets_ok _ gets).
Qed.

(** The audit sees the ambiguous writes the check saw. *)
Lemma by_attempt key a actual :
  answered_by_attempt m ∅ gets key a actual ↔
  ∃ get, key ∈ dom gets ∧ env_get_object key = ok get ∧ landed env_sha256_hex m key get a actual.
Proof using Hrecd Hgets.
  unfold answered_by_attempt. split.
  - intros (r & Hr & Hn). destruct (read_of key r Hr) as (get & Hget & Hg). exists get.
    rewrite (recorded_landed _ _ _ _ Hg) in Hn. split; [by eapply elem_of_dom_2|done].
  - intros (get & [r Hr]%elem_of_dom & Hget & Hl). exists r. split; [done|].
    destruct (read_of key r Hr) as (get' & Hget' & Hg). assert (get' = get) as -> by congruence.
    by rewrite (recorded_landed _ _ _ _ Hg).
Qed.
Lemma attempt_landed key get a actual :
  env_get_object key = ok get → landed env_sha256_hex m key get a actual → ambiguous_write_landed m key.
Proof using Type.
  clear. intros Hget (body & Hb & -> & _ & Ha). apply rev_find_Some in Ha as (Hin & Hp & Ho).
  apply bool_decide_eq_true in Ho. exists get, body, a. done.
Qed.
Lemma landed_attempt key get body a :
  env_get_object key = ok get → body_of get = Some body → om_live m !! key ≠ Some (observed_object env_sha256_hex body) →
  a ∈ default [] (om_unknown_writes m !! key) → pending a = true →
  aw_object a = observed_object env_sha256_hex body →
  ∃ a', landed env_sha256_hex m key get a' (observed_object env_sha256_hex body).
Proof using Type.
  clear. intros Hget Hb Hl Hin Hp Ho. destruct (active_match _ _ _ _ Hin Hp Ho) as [a' Ha'].
  rewrite matching_write_object in Ha'. exists a', body. done.
Qed.

Definition answered_key (key : string) : Prop :=
  answered_plainly m ∅ unexplained gets key ∨ ∃ a actual, answered_by_attempt m ∅ gets key a actual.

Lemma live_answered key expected :
  om_live m !! key = Some expected → key ∈ dom gets → answered_key key.
Proof using Hlegal Hrecd Hgets.
  intros Hl Hk. destruct (ls_live _ _ _ Hlegal key expected Hl) as [(get & body & Hget & Hb & Hv) _].
  destruct (proj1 (elem_of_dom _ _) Hk) as [r Hr]. destruct (read_of key r Hr) as (get' & Hget' & Hg).
  assert (get' = get) as -> by congruence.
  destruct (decide (observed_object env_sha256_hex body = expected)) as [He|Hne].
  - left. exists r. split; [done|]. unfold plainly_answered.
    rewrite Hl, bool_decide_eq_false_2 by apply not_elem_of_empty. apply (recorded_ok _ _ _ _ Hg) in Hb as (H2 & Hv' & _).
    by rewrite Hv', He.
  - right. destruct Hv as [?|(a & Hin & Hp & Ho)]; [done|].
    destruct (landed_attempt key get body a Hget Hb) as [a' Hland]; [congruence|done..|].
    exists a', (observed_object env_sha256_hex body). apply by_attempt. eauto.
Qed.
Lemma unknown_answered key r get :
  om_live m !! key = None → is_Some (om_unknown_writes m !! key) → gets !! key = Some r →
  env_get_object key = ok get → recorded_get env_sha256_hex key None None get r →
  get_outcome get = OperationOutcome.Ok ∨ get_outcome get = OperationOutcome.NotFound → answered_key key.
Proof using Hlegal Hrecd Hgets.
  intros Hl Hu Hr Hget Hg [Ho|Hn].
  - right. destruct (recorded_body _ _ _ _ Hg Ho) as [body Hb].
    destruct (ls_unknown _ _ _ Hlegal key Hl Hu) as (g & Hg' & Hs & _).
    assert (g = get) as -> by congruence. destruct Hu as [attempts Hu].
    pose proof (model_unknown_nonempty _ _ _ Hu). destruct (Hs body Hb) as [Hnil|(a & Hin & Hp & Hobj)].
    { by rewrite Hu in Hnil. }
    destruct (landed_attempt key get body a Hget Hb) as [a' Hland]; [congruence|done..|].
    exists a', (observed_object env_sha256_hex body). apply by_attempt.
    exists get. split; [by eapply elem_of_dom_2|done].
  - left. exists r. split; [done|]. unfold plainly_answered. rewrite Hl. destruct Hu as [? ->].
    by apply (recorded_404 _ _ _ _ Hg).
Qed.
Lemma resolved_answered key : resolved m → key ∈ dom gets → answered_key key.
Proof using Hlegal Hrecd Hgets Hdom Hun.
  intros Hres Hk. destruct (om_live m !! key) as [e|] eqn:Hl; [by eapply live_answered|].
  destruct (proj1 (elem_of_dom _ _) Hk) as [r Hr]. destruct (read_of key r Hr) as (get & Hget & Hg).
  destruct (om_unknown_writes m !! key) as [attempts|] eqn:Hu.
  { apply (unknown_answered key r get); [done|rewrite Hu; by eexists|done..|]. apply (Hres key get Hl); [left; by eexists|done]. }
  left. exists r. split; [done|]. unfold plainly_answered. rewrite Hl, Hu.
  apply Hdom, elem_of_requested in Hk as [[? ?]|[[? ?]|[Hd|Hx]]]; [congruence..| |].
  - rewrite bool_decide_eq_false_2.
    2:{ rewrite Hun. by intros [(_ & _ & ?) _]%list_elem_of_filter. }
    apply (recorded_404 _ _ _ _ Hg). destruct (Hres key get Hl) as [Ho|?]; [by right|done| |done].
    destruct (recorded_body _ _ _ _ Hg Ho) as [body Hb].
    destruct (ls_deleted _ _ _ Hlegal key Hd Hu) as (g & Hg' & Hnb). congruence.
  - rewrite bool_decide_eq_true_2 by (by apply Hun). apply list_elem_of_filter in Hx as [_ Hx].
    rewrite elem_of_set_elems, elem_of_to_set in Hx.
    destruct (ls_listed _ _ _ Hlegal key Hx) as [_ [[? ?]|[[? ?]|(g & body & att & Hg' & Hb & Hf & Hin)]]]; [congruence..|].
    assert (g = get) as -> by congruence. apply (recorded_ok _ _ _ _ Hg) in Hb as (H2 & Hv & _).
    apply recorded_value_Some in Hv as [Hv _]. split; [done|]. by exists (env_sha256_hex body), att.
Qed.
Lemma answered_resolved : (∀ key, key ∈ dom gets → answered_key key) → resolved m.
Proof using Hrecd Hgets Hdom Hun.
  intros Hans key get Hl Hu Hget.
  assert (key ∈ dom gets) as Hk by (rewrite Hdom, elem_of_requested; tauto).
  destruct (Hans key Hk) as [(r & Hr & Hp)|(a & actual & (g & _ & Hg & (body & Hb & _))%by_attempt)].
  - right. destruct (read_of key r Hr) as (g & Hg & Hrec). assert (g = get) as -> by congruence.
    apply (recorded_404 _ _ _ _ Hrec). unfold plainly_answered in Hp. rewrite Hl in Hp.
    destruct (om_unknown_writes m !! key); [done|]. destruct Hu as [[? ?]|Hd]; [done|].
    rewrite bool_decide_eq_false_2 in Hp; [done|]. rewrite Hun.
    by intros [(_ & _ & ?) _]%list_elem_of_filter.
  - left. assert (g = get) as -> by congruence. by apply body_of_Some in Hb as [? _].
Qed.
End answers.

Lemma unexplained_same run_id records keys :
  suffix_shape run_id records keys → ∀ key,
  key ∈ unexplained_listed (key_prefix run_id) (checker_expected_current_get_keys records) env_suffix ↔
  key ∈ unexplained_listed_keys (object_model records) (to_set keys).
Proof using Type.
  intros Hrec key. destruct (kr_list _ _ _ Hrec) as (r & Hr & _ & _ & _ & _ & _ & Hk).
  unfold unexplained_listed, unexplained_listed_keys. rewrite Hr, elem_of_to_set, !list_elem_of_filter.
  cbn [omap list_omap]. rewrite Hk. cbn [mjoin list_join]. rewrite app_nil_r.
  rewrite elem_of_set_elems, elem_of_to_set. apply and_iff_compat_r. rewrite elem_of_expected_gets. simpl.
  split.
  - intros Hn. split_and!; [apply eq_None_not_Some; tauto..|]. intros Hd. apply Hn.
    destruct (om_unknown_writes (object_model records) !! key); [right; left; by eexists|tauto].
  - intros (Hl & Hu & Hd). rewrite Hl, Hu. intros [[? ?]|[[? ?]|[? _]]]; done.
Qed.
Lemma no_version_evidence scenario run_id records keys a r tolerated :
  passed_fields scenario run_id records keys a r → suffix_shape run_id records keys →
  validate_versioned_checker_suffix r records env_suffix tolerated (key_prefix run_id) = ok ∅.
Proof using Type.
  intros [(_ & _ & Hv) _ _ _ _ _ _ _ (psha & ssha & _ & _ & Ha)] Hrec.
  unfold validate_versioned_checker_suffix. by rewrite (kr_versions _ _ _ Hrec), Hv, Ha.
Qed.

Section verdict.
Context (scenario run_id : string) (records : list OperationRecord) (keys : list string).
Context (a : ReadAnomalies) (r : CheckerReport).
Local Abbreviation m := (object_model records).
Context (Ha : successful_read_anomalies env_sha256_hex records = ok a ∧ clean_reads a).
Context (Hr : passed_fields scenario run_id records keys a r).
Context (Hlegal : legal_store m (key_prefix run_id) keys).
Context (Hrec : suffix_shape run_id records keys).

Lemma failed_same key :
  key ∈ to_set (cr_failed_writes_materialized r) ↔ key ∈ unexplained_listed_keys m (to_set keys).
Proof using Hr. rewrite elem_of_to_set. apply (pf_failed _ _ _ _ _ _ Hr). Qed.
Lemma expected_same key gets :
  (∀ key, key ∈ dom gets ↔ key ∈ requested_keys m keys) →
  key ∈ dom (D:=gset string) (gets : gmap string OperationRecord) ↔
  key ∈ checker_expected_current_get_keys records ∪ to_set (cr_failed_writes_materialized r).
Proof using Hr.
  clear Ha. intros ->. rewrite elem_of_union, failed_same, elem_of_expected_gets, elem_of_requested. fold m. cbn zeta.
  destruct (om_unknown_writes m !! key) eqn:Hu; [|tauto].
  split; [|tauto]. intros _. left. right. left. by eexists.
Qed.

(** The keys of the final LIST, from the evidence of the GETs. *)
Section listed.
Context (gets : gmap string OperationRecord).
Context (Hgets : collect_current_gets env_suffix = ok gets).
Context (Hdom : ∀ key, key ∈ dom gets ↔ key ∈ requested_keys m keys).

Lemma listed_attempt key :
  resolved m → key ∈ keys → om_live m !! key = None → is_Some (om_unknown_writes m !! key) →
  key ∈ dom gets ∧ ∃ a actual, answered_by_attempt m ∅ gets key a actual.
Proof using Hr Hlegal Hrec Hgets Hdom.
  intros Hres Hk Hl Hu. assert (key ∈ dom gets) as Hkd by (apply Hdom, elem_of_requested; by right; left).
  split; [done|].
  destruct (resolved_answered run_id records keys gets Hlegal Hrec Hgets Hdom _ failed_same key Hres Hkd)
    as [(x & Hx & Hp)|?]; [|done]. exfalso.
  destruct (read_of run_id records keys gets Hrec Hgets key x Hx) as (get & Hget & Hg).
  destruct (ls_unknown _ _ _ Hlegal key Hl Hu) as (get' & Hget' & _ & Hn).
  assert (get' = get) as -> by congruence. apply Hn; [|done]. apply (recorded_404 _ _ _ _ Hg).
  unfold plainly_answered in Hp. rewrite Hl in Hp. destruct Hu as [? Hu]. by rewrite Hu in Hp.
Qed.
Lemma listed_failed_write key :
  key ∈ keys → om_live m !! key = None → om_unknown_writes m !! key = None →
  key ∈ unexplained_listed_keys m (to_set keys).
Proof using Hlegal.
  intros Hk Hl Hu. apply list_elem_of_filter. rewrite elem_of_set_elems, elem_of_to_set. split_and!; try done.
  intros Hd. destruct (ls_listed _ _ _ Hlegal key Hk) as [(? & ? & ? & _ & _ & Hin & _) _]; [done|].
  rewrite Hu in Hin. by apply elem_of_nil in Hin.
Qed.
Lemma landed_by_attempt key :
  om_live m !! key = None → ambiguous_write_landed m key →
  key ∈ dom gets ∧ ∃ a actual, answered_by_attempt m ∅ gets key a actual.
Proof using Hrec Hgets Hdom.
  intros Hl (get & body & at_ & Hget & Hb & Hin & Hp & Ho).
  destruct (landed_attempt records key get body at_ Hget Hb) as [a' Hland]; [congruence|done..|].
  assert (key ∈ dom gets) as Hk.
  { apply Hdom, elem_of_requested. right. left.
    destruct (om_unknown_writes m !! key); [by eexists|by apply elem_of_nil in Hin]. }
  split; [done|]. exists a', (observed_object env_sha256_hex body).
  apply (by_attempt run_id records keys gets Hrec Hgets). eauto.
Qed.

Lemma listed_same current :
  current_evidence m ∅ (to_set (cr_failed_writes_materialized r)) gets (set_elems (dom gets)) current →
  resolved m →
  to_set keys = dom (om_live m) ∖ ∅ ∪ ce_materialized current ∪ to_set (cr_failed_writes_materialized r)
  ↔ landed_listed m keys.
Proof using Hr Hlegal Hrec Hgets Hdom.
  intros [_ Hmat _] Hres. setoid_rewrite elem_of_set_elems in Hmat. split.
  - intros Heq key Hl Hland. rewrite <-elem_of_to_set, Heq, !elem_of_union. left. right.
    by apply Hmat, landed_by_attempt.
  - intros Hll. apply set_eq. intros key.
    rewrite elem_of_to_set, !elem_of_union, elem_of_difference, elem_of_dom, failed_same, Hmat. split.
    + intros Hk. destruct (om_live m !! key) as [e|] eqn:Hl.
      { left. left. split; [by eexists|apply not_elem_of_empty]. }
      destruct (om_unknown_writes m !! key) as [at_|] eqn:Hu; [|by right; apply listed_failed_write].
      left. right. apply listed_attempt; [done..|]. by rewrite Hu.
    + intros [[[[e He] _]|[Hkd (a' & actual & Hby)]]|Hx].
      * by apply (ls_live _ _ _ Hlegal key e).
      * destruct (om_live m !! key) as [e|] eqn:Hl; [by apply (ls_live _ _ _ Hlegal key e)|].
        apply Hll; [done|]. apply (by_attempt run_id records keys gets Hrec Hgets) in Hby as (get & _ & Hget & Hland).
        by eapply attempt_landed.
      * apply list_elem_of_filter in Hx as [_ Hx]. by rewrite elem_of_set_elems, elem_of_to_set in Hx.
Qed.
End listed.

Lemma evidence_same gets current :
  collect_current_gets env_suffix = ok gets → (∀ key, key ∈ dom gets ↔ key ∈ requested_keys m keys) →
  current_evidence m ∅ (to_set (cr_failed_writes_materialized r)) gets (set_elems (dom gets)) current →
  to_set (cr_unknown_writes_materialized r)
  = to_set (ra_unknown_writes_materialized a) ∪ ce_evidence current ∪ ∅.
Proof using Hr Hrec.
  intros Hgets Hdom [_ _ Hev]. apply set_eq. intros message.
  rewrite elem_of_to_set, (pf_materialized _ _ _ _ _ _ Hr), !elem_of_union, elem_of_to_set, Hev.
  setoid_rewrite elem_of_set_elems. setoid_rewrite (by_attempt run_id records keys gets Hrec Hgets). split.
  - intros [?|(key & get & at_ & actual & Hk & Hget & Hland & ->)]; [by left; left|]. left. right.
    assert (key ∈ dom gets) as Hkd.
    { apply Hdom. unfold requested_keys. rewrite elem_of_app. left. by apply elem_of_set_elems. }
    exists key, at_, actual. eauto 10.
  - intros [[?|(key & at_ & actual & Hk & (get & _ & Hget & Hland) & ->)]|?%not_elem_of_empty]; [by left| |done].
    right. exists key, get, at_, actual. split; [|done]. destruct Hland as (body & _ & _ & _ & Hat).
    rewrite elem_of_union, !elem_of_dom. right.
    destruct (om_unknown_writes m !! key); [by eexists|done].
Qed.

Lemma recorded_gets :
  ∃ gets, collect_current_gets env_suffix = ok gets ∧ (∀ key, key ∈ dom gets ↔ key ∈ requested_keys m keys) ∧
    dom gets = checker_expected_current_get_keys records ∪ to_set (cr_failed_writes_materialized r).
Proof using Hr Hrec.
  destruct (collect_total env_suffix (requested_keys m keys) (kr_gets _ _ _ Hrec)) as (gets & Hgets & Hdom);
    [apply requested_NoDup|]. exists gets. split_and!; [done..|].
  apply set_eq. intros. by apply expected_same.
Qed.
Lemma recorded_list :
  ∃ l, prefix_operations OperationKind.List (key_prefix run_id) env_suffix = [l] ∧
    answered_200 l = true ∧ op_listed_keys l = Some keys.
Proof using Hrec.
  destruct (kr_list _ _ _ Hrec) as (l & Hl & _ & _ & _ & Ho & Hs & Hk). exists l.
  split_and!; [done| |done]. unfold answered_200, answered. by rewrite Ho, Hs.
Qed.
Lemma tolerated_failed_writes :
  to_set (cr_failed_writes_materialized r) = unexplained_listed (key_prefix (cr_run_id r))
    (checker_expected_current_get_keys records) env_suffix ∧
  ∀ key, key ∈ cr_failed_writes_materialized r → is_Some (om_failed_writes m !! key).
Proof using Hr Hlegal Hrec.
  destruct (pf_scope _ _ _ _ _ _ Hr) as (_ & Hrun & _). split.
  - apply set_eq. intros key. by rewrite failed_same, Hrun, unexplained_same.
  - intros key Hkey. apply elem_of_to_set, failed_same in Hkey.
    apply list_elem_of_filter in Hkey as [(Hl & Hu & _) Hkey]. rewrite elem_of_set_elems, elem_of_to_set in Hkey.
    destruct (ls_listed _ _ _ Hlegal key Hkey) as [_ [[? ?]|[[? ?]|(? & ? & ? & _ & _ & Hf & _)]]]; [congruence..|].
    by rewrite Hf.
Qed.

Lemma observed_then :
  validate_successful_checker_observations r records env_suffix = ok tt →
  NoDup keys ∧ resolved m ∧ landed_listed m keys.
Proof using Hr Hlegal Hrec.
  destruct recorded_gets as (gets & Hgets & Hdom & _). destruct recorded_list as (l & Hl & _ & Hk).
  intros (an & gets' & current & final & keys' & versions & Hacc)%observations_inv.
  destruct Hacc as [_ _ _ _ [Hg' _] Hcur _ (Hf & _ & Hk') [Heq Hcount] _ _].
  destruct (pf_scope _ _ _ _ _ _ Hr) as (_ & Hrun & _). rewrite Hrun in Hf.
  assert (final = l ∧ gets' = gets) as [-> ->] by (split; congruence).
  assert (keys' = keys) as -> by congruence. rewrite (pf_tolerated _ _ _ _ _ _ Hr) in Hcur, Heq.
  change (to_set []) with (∅ : gset string) in *. apply authenticate_all_ok in Hcur.
  assert (resolved m) as Hres.
  { apply (answered_resolved run_id records keys gets Hrec Hgets Hdom _ failed_same).
    intros key Hkey. apply (cur_answers _ _ _ _ _ _ Hcur). by apply elem_of_set_elems. }
  split_and!; [|done|by apply (listed_same gets Hgets Hdom current)].
  apply to_set_size. rewrite (pf_listed _ _ _ _ _ _ Hr) in Hcount.
  injection Hcount as Hcount. unfold len in Hcount. lia.
Qed.
Lemma observed_when :
  NoDup keys → resolved m → landed_listed m keys →
  validate_successful_checker_observations r records env_suffix = ok tt.
Proof using Ha Hr Hlegal Hrec.
  intros Hnd Hres Hll. destruct recorded_gets as (gets & Hgets & Hdom & Hdomeq).
  destruct recorded_list as (l & Hl & H200 & Hk).
  destruct (authenticate_all_total m ∅ (to_set (cr_failed_writes_materialized r)) gets (set_elems (dom gets)))
    as [current Hcur].
  { intros key Hkey%elem_of_set_elems.
    by apply (resolved_answered run_id records keys gets Hlegal Hrec Hgets Hdom _ failed_same). }
  pose proof (authenticate_all_ok _ _ _ _ _ _ Hcur) as Hce. pose proof tolerated_failed_writes as Hfail.
  pose proof (evidence_same gets current Hgets Hdom Hce) as Hev.
  pose proof (no_version_evidence _ _ _ _ _ _ ∅ Hr Hrec) as Hver.
  destruct Hr as [(_ & Hrun & _) Hhead Htol Hverified Hlisted _ Huniq _ _].
  apply (accepted_ok _ _ _ a gets current l keys ∅). split; rewrite ?Htol, ?Hrun in *; try done.
  - split; [constructor|]. by intros ? ?%elem_of_nil.
  - split; [by apply (listed_same gets Hgets Hdom current)|]. rewrite Hlisted. f_equal.
    apply to_set_size in Hnd. unfold len. by rewrite Hnd.
Qed.

Lemma receipt_accepted :
  check_s3_history scenario run_id records true false = ok r →
  validate_checker_audit_receipt r (records ++ env_suffix) = ok (records, env_suffix).
Proof using Hr Hrec.
  clear Ha. intros H. unfold check_s3_history in H. apply bind_unit_ok in H as [_ H]. apply bind_ok in H as (sha0 & _ & H).
  apply bind_ok in H as ([[[? ?] ?] ?] & _ & H). apply bind_unit_ok in H as [Hscope H].
  apply bind_unit_ok in H as [Hphase _].
  destruct Hr as [(Hs & Hrun & _) _ _ _ _ _ _ _ (psha & ssha & Hpsha & Hssha & Haud)].
  eapply receipt_ok; [exact Haud|apply (kr_times _ _ _ Hrec)|done|done|..]; rewrite ?Hs, ?Hrun; try done.
  intros x Hx. split; [by apply (kr_kinds _ _ _ Hrec)|]. unfold within_audit. rewrite Hs, Hrun. simpl.
  destruct (proj2 (kr_times _ _ _ Hrec) x Hx) as [T1 T2].
  unfold validate_history_scope_and_order, validate_history_scope_and_order_mode in Hscope.
  apply bind_ensure_ok in Hscope as [Hall _]. rewrite forallb_forall in Hall.
  assert (in_scope scenario run_id env_bucket x = true) as Hin.
  { apply Hall, list_elem_of_In, elem_of_app. by right. }
  unfold in_scope in Hin. rewrite !andb_true_iff in Hin. rewrite !andb_true_iff, !bool_decide_eq_true in *. tauto.
Qed.
End verdict.
End audited_check.

(** C8. When an unversioned check without pending ambiguous deletes passes and its
    operations were recorded as the client records them, the audit accepts its report
    against the history it left exactly when the final LIST repeats no key, every key
    without a committed value got a definite answer (a body or 404), and every such key
    on which an ambiguous write landed is listed. *)
Theorem passing_check_audited_iff `{Henv : CheckerEnv} scenario run_id records r keys :
  (∀ A (l : list A), env_completed A l ≡ₚ l) →
  let m := object_model records in
  om_ambiguous_delete_pending m = ∅ →
  check_s3_history scenario run_id records true false = ok r → cr_passed r = true →
  env_list_prefix (key_prefix run_id) = ok (Some keys) → check_recorded run_id records keys →
  validate_checker_audit_against_history r (records ++ env_suffix) = ok tt ↔
  NoDup keys ∧ resolved m ∧ landed_listed m keys.
Proof.
  intros Hc m Hpend Hr Hp Hkeys Hrec%recorded_shape.
  destruct (clean_store_legal Hc _ _ _ _ Hpend Hr) as [(a & Ha & Hreads) [keys' Hlegal]];
    [by eapply check_passed_findings|].
  assert (keys' = keys) as -> by (pose proof (ls_listing _ _ _ Hlegal); congruence).
  pose proof (passed_report Hc _ _ _ _ _ _ Hpend Hr Hp Ha Hkeys) as Hf.
  unfold validate_checker_audit_against_history. rewrite (receipt_accepted _ _ _ _ _ _ Hf Hrec Hr). cbn.
  split; [by eapply observed_then|]. intros (? & ? & ?). by eapply observed_when.
Qed.
