(* ===== verification/Msgpack.v ===== *)
(** * MessagePack cursor of the XL2 inspector

    [MsgpackCursor] of [src/fault/xl2_inspector.rs]: a byte slice and an offset,
    read by [read_byte], [take] and the typed readers, with [skip_value] for the
    fields the inspector does not interpret. A reader is a function from the
    cursor to a value and the advanced cursor, or an error; every caller
    propagates an error with [?], so the cursor of a failed read is never seen
    again. [usize] is 64 bits wide; [usize] additions that overflow panic.

    [str::from_utf8] is the Standard Library's: [utf8_valid] is the table of
    well-formed byte sequences it documents. *)
From S2P Require Import Prelude RustText.
From stdpp Require Import options.
Local Open Scope N_scope.

Definition MAX_MSGPACK_DEPTH : nat := 32.

Record MsgpackCursor := mkMsgpackCursor {
  mc_bytes : list N;
  mc_offset : N;
}.

(** ** The reader monad *)
Definition Reader (A : Type) : Type := MsgpackCursor → Result (A * MsgpackCursor).

Global Instance Reader_ret : MRet Reader := λ A a c, ok (a, c).
Global Instance Reader_bind : MBind Reader := λ A B f m c,
  match m c with ok (a, c') => f a c' | err e => err e | panicked => panicked end.

(** A [Result] that does not touch the cursor, under [?]. *)
Definition lift {A} (r : Result A) : Reader A := λ c,
  match r with ok a => ok (a, c) | err e => err e | panicked => panicked end.

(** [for _ in 0..n], threading the variables the body assigns. *)
Fixpoint for_loop {S} (n : nat) (body : S → Reader S) (s : S) : Reader S :=
  match n with
  | O => mret s
  | Datatypes.S n => s' ← body s; for_loop n body s'
  end.

(** ** Slices and integers *)

(** [slice.get(a..b)]. *)
Definition slice_get (l : list N) (a b : N) : option (list N) :=
  if (a <=? b) && (b <=? len l)
  then Some (take (N.to_nat (b - a)) (drop (N.to_nat a) l)) else None.

(** [uN::from_be_bytes] and [uN::from_le_bytes]. *)
Definition from_be_bytes (l : list N) : N := foldl (λ acc b, acc * 256 + b) 0 l.
Definition from_le_bytes (l : list N) : N := from_be_bytes (reverse l).

(** [usize::try_from] of an unsigned integer. *)
Definition usize_try_from (n : N) : option N := if n <=? u64_max then Some n else None.

(** [usize] multiplication, which panics on overflow. *)
Definition mul_usize (a b : N) : Result N := expect (checked_mul64 a b).

Definition byte_in (a b n : N) : bool := (a <=? n) && (n <=? b).

(** ** UTF-8 *)
Definition is_tail (b : N) : bool := byte_in 0x80 0xbf b.
Fixpoint utf8_valid (l : list N) : bool :=
  match l with
  | [] => true
  | a :: l1 =>
      if a <=? 0x7f then utf8_valid l1
      else match l1 with
           | [] => false
           | b :: l2 =>
               if byte_in 0xc2 0xdf a then is_tail b && utf8_valid l2
               else match l2 with
                    | [] => false
                    | c :: l3 =>
                        if byte_in 0xe0 0xef a then
                          (if a =? 0xe0 then byte_in 0xa0 0xbf b
                           else if a =? 0xed then byte_in 0x80 0x9f b else is_tail b)
                          && is_tail c && utf8_valid l3
                        else match l3 with
                             | [] => false
                             | d :: l4 =>
                                 byte_in 0xf0 0xf4 a
                                 && (if a =? 0xf0 then byte_in 0x90 0xbf b
                                     else if a =? 0xf4 then byte_in 0x80 0x8f b else is_tail b)
                                 && is_tail c && is_tail d && utf8_valid l4
                             end
                    end
           end
  end.

Definition string_of_bytes (l : list N) : string :=
  foldr (λ b s, String (ascii_of_N b) s) EmptyString l.
Definition from_utf8 (l : list N) : option string :=
  if utf8_valid l then Some (string_of_bytes l) else None.

(** ** The cursor *)
Definition cursor_new (bytes : list N) : MsgpackCursor := mkMsgpackCursor bytes 0.
Definition is_finished (c : MsgpackCursor) : bool := mc_offset c =? len (mc_bytes c).

Definition read_byte (label : string) : Reader N := λ c,
  byte ← context (mc_bytes c !! N.to_nat (mc_offset c)) ("truncated MessagePack " +:+ label);
  offset ← add_u64 (mc_offset c) 1;
  ok (byte, mkMsgpackCursor (mc_bytes c) offset).

Definition take_slice (n : N) (label : string) : Reader (list N) := λ c,
  end_ ← context (checked_add64 (mc_offset c) n) ("MessagePack " +:+ label +:+ " length overflow");
  bytes ← context (slice_get (mc_bytes c) (mc_offset c) end_) ("truncated MessagePack " +:+ label);
  ok (bytes, mkMsgpackCursor (mc_bytes c) end_).

Definition take_array (n : N) (label : string) : Reader (list N) :=
  bytes ← take_slice n label;
  lift (context (if len bytes =? n then Some bytes else None)
          ("truncated MessagePack " +:+ label)).

(** A length of [n] big-endian bytes. *)
Definition take_be (n : N) (label : string) : Reader N :=
  bytes ← take_array n label; mret (from_be_bytes bytes).

(** [usize::try_from(u32::from_be_bytes(..)).with_context(msg)?]. *)
Definition take_be_usize (label msg : string) : Reader N :=
  n ← take_be 4 label; lift (context (usize_try_from n) msg).

Definition read_u64 (label : string) : Reader N :=
  marker ← read_byte label;
  if marker <=? 0x7f then mret marker
  else if marker =? 0xcc then read_byte label
  else if marker =? 0xcd then take_be 2 label
  else if marker =? 0xce then take_be 4 label
  else if marker =? 0xcf then take_be 8 label
  else lift (err ("MessagePack " +:+ label +:+ " is not an unsigned integer")).

Definition read_array_len (label : string) : Reader N :=
  marker ← read_byte label;
  if byte_in 0x90 0x9f marker then mret (N.land marker 0x0f)
  else if marker =? 0xdc then take_be 2 label
  else if marker =? 0xdd then take_be_usize label ("MessagePack " +:+ label +:+ " length overflow")
  else lift (err ("MessagePack " +:+ label +:+ " is not an array")).

Definition read_map_len (label : string) : Reader N :=
  marker ← read_byte label;
  if byte_in 0x80 0x8f marker then mret (N.land marker 0x0f)
  else if marker =? 0xde then take_be 2 label
  else if marker =? 0xdf then take_be_usize label ("MessagePack " +:+ label +:+ " length overflow")
  else lift (err ("MessagePack " +:+ label +:+ " is not a map")).

Definition read_bin (label : string) : Reader (list N) :=
  marker ← read_byte label;
  n ← (if marker =? 0xc4 then read_byte label
       else if marker =? 0xc5 then take_be 2 label
       else if marker =? 0xc6 then
         take_be_usize label ("MessagePack " +:+ label +:+ " length overflow")
       else lift (err ("MessagePack " +:+ label +:+ " is not binary")));
  take_slice n label.

Definition read_str (label : string) : Reader string :=
  marker ← read_byte label;
  n ← (if byte_in 0xa0 0xbf marker then mret (N.land marker 0x1f)
       else if marker =? 0xd9 then read_byte label
       else if marker =? 0xda then take_be 2 label
       else if marker =? 0xdb then
         take_be_usize label ("MessagePack " +:+ label +:+ " length overflow")
       else lift (err ("MessagePack " +:+ label +:+ " is not a string")));
  bytes ← take_slice n label;
  lift (context (from_utf8 bytes) ("MessagePack " +:+ label +:+ " is not UTF-8")).

Definition read_nil : Reader bool := λ c,
  if bool_decide (mc_bytes c !! N.to_nat (mc_offset c) = Some 0xc0) then
    offset ← add_u64 (mc_offset c) 1;
    ok (true, mkMsgpackCursor (mc_bytes c) offset)
  else ok (false, c).

(** The [match marker] of [skip_value]: the number of nested values and the
    number of payload bytes that follow the marker and its length. *)
Definition skip_shape (marker : N) : Reader (N * N) :=
  if (marker <=? 0x7f) || (marker =? 0xc0) || (marker =? 0xc2) || (marker =? 0xc3)
     || byte_in 0xe0 0xff marker then mret (0, 0)
  else if byte_in 0x80 0x8f marker then
    n ← lift (mul_usize (N.land marker 0x0f) 2); mret (n, 0)
  else if byte_in 0x90 0x9f marker then mret (N.land marker 0x0f, 0)
  else if byte_in 0xa0 0xbf marker then mret (0, N.land marker 0x1f)
  else if (marker =? 0xc4) || (marker =? 0xd9) then n ← read_byte "length"; mret (0, n)
  else if (marker =? 0xc5) || (marker =? 0xda) then n ← take_be 2 "length"; mret (0, n)
  else if (marker =? 0xc6) || (marker =? 0xdb) then
    n ← take_be_usize "length" "MessagePack length overflow"; mret (0, n)
  else if marker =? 0xc7 then
    n ← read_byte "extension length"; n1 ← lift (add_u64 n 1); mret (0, n1)
  else if marker =? 0xc8 then
    n ← take_be 2 "extension length"; n1 ← lift (add_u64 n 1); mret (0, n1)
  else if marker =? 0xc9 then
    n ← take_be_usize "extension length" "MessagePack extension length overflow";
    n1 ← lift (add_u64 n 1); mret (0, n1)
  else if (marker =? 0xca) || (marker =? 0xce) || (marker =? 0xd2) then mret (0, 4)
  else if (marker =? 0xcb) || (marker =? 0xcf) || (marker =? 0xd3) then mret (0, 8)
  else if (marker =? 0xcc) || (marker =? 0xd0) then mret (0, 1)
  else if (marker =? 0xcd) || (marker =? 0xd1) then mret (0, 2)
  else if marker =? 0xd4 then mret (0, 2)
  else if marker =? 0xd5 then mret (0, 3)
  else if marker =? 0xd6 then mret (0, 5)
  else if marker =? 0xd7 then mret (0, 9)
  else if marker =? 0xd8 then mret (0, 17)
  else if marker =? 0xdc then n ← take_be 2 "array length"; mret (n, 0)
  else if marker =? 0xdd then
    n ← take_be_usize "array length" "MessagePack array length overflow"; mret (n, 0)
  else if marker =? 0xde then
    n ← take_be 2 "map length"; n2 ← lift (mul_usize n 2); mret (n2, 0)
  else if marker =? 0xdf then
    n ← take_be_usize "map length" "MessagePack map length overflow";
    n2 ← lift (context (checked_mul64 n 2) "MessagePack map length overflow"); mret (n2, 0)
  else lift (err "MessagePack contains a reserved marker").

(** [ensure!(children <= self.bytes.len().saturating_sub(self.offset), ..)]. *)
Definition ensure_children (children : N) : Reader unit := λ c,
  _ ← ensure (children <=? len (mc_bytes c) - mc_offset c)
        "MessagePack container length exceeds remaining input";
  ok (tt, c).

(** [skip_value] with [room] levels of nesting left below the limit. *)
Fixpoint skip_value_at (room : nat) : Reader unit :=
  match room with
  | O => lift (err "MessagePack nesting exceeds inspection limit")
  | S room =>
      marker ← read_byte "value";
      '(children, payload) ← skip_shape marker;
      _ ← take_slice payload "value payload";
      _ ← ensure_children children;
      for_loop (N.to_nat children) (λ _, skip_value_at room) tt
  end.
Definition skip_value (depth : nat) : Reader unit := skip_value_at (MAX_MSGPACK_DEPTH - depth).
