(* ===== verification/MsgpackFacts.v ===== *)
(** * What the MessagePack readers accept

    [decodes f E] says that the reader [f] accepts exactly the inputs that start
    with an encoding [E] relates to a value, returns that value and leaves the
    cursor behind the encoding, and never panics. Readers compose, so a parser's
    language is read off its definition; [skip_value_decodes] is the grammar of
    MessagePack values up to the nesting limit. *)
From S2P Require Import Prelude RustText Msgpack.
From stdpp Require Import options.
Local Open Scope N_scope.

(** ** Cursors in the middle of a slice *)

(** A Rust slice holds at most [isize::MAX] bytes. *)
Definition slice_max : N := 2 ^ 63 - 1.
Definition bytes_ok (l : list N) : Prop := Forall (λ b, b < 256) l.
Definition cur (pre rest : list N) : MsgpackCursor := mkMsgpackCursor (pre ++ rest) (len pre).

Definition decodes {A} (f : Reader A) (E : list N → A → Prop) : Prop :=
  ∀ pre rest, len (pre ++ rest) ≤ slice_max → bytes_ok rest →
    (∀ x c', f (cur pre rest) = ok (x, c') ↔
       ∃ e rest', rest = e ++ rest' ∧ c' = cur (pre ++ e) rest' ∧ E e x) ∧
    f (cur pre rest) ≠ panicked.

(** Encodings of a first value followed by encodings of a second. *)
Definition seq_enc {A B} (E : list N → A → Prop) (F : A → list N → B → Prop) (e : list N) (y : B) : Prop :=
  ∃ e1 e2 x, e = e1 ++ e2 ∧ E e1 x ∧ F x e2 y.
Definition pure_enc {A} (x : A) (e : list N) (y : A) : Prop := e = [] ∧ y = x.

Lemma slice_max_lt : slice_max < u64_max.
Proof. reflexivity. Qed.

Lemma cur_app (pre e rest : list N) : len (pre ++ e ++ rest) = len ((pre ++ e) ++ rest).
Proof. by rewrite <-app_assoc. Qed.

Lemma decodes_ret {A} (x : A) : decodes (mret x) (pure_enc x).
Proof.
  intros pre rest _ _. split; [|done]. intros y c'. unfold mret, Reader_ret. split.
  - intros [= -> <-]. exists [], rest. by rewrite app_nil_r.
  - intros (e & rest' & -> & -> & -> & ->). by rewrite app_nil_r.
Qed.

Lemma decodes_bind_in {A B} (f : Reader A) (g : A → Reader B) E F :
  decodes f E → (∀ e x, bytes_ok e → len e ≤ slice_max → E e x → decodes (g x) (F x)) →
  decodes (f ≫= g) (seq_enc E F).
Proof.
  intros Hf Hg pre rest Hlen Hok. destruct (Hf pre rest Hlen Hok) as [Hiff Hsafe].
  unfold mbind, Reader_bind. destruct (f (cur pre rest)) as [[x c1]|m|] eqn:Ef; [|split; [|done]|done].
  - pose proof (proj1 (Hiff _ _) eq_refl) as (e & rest' & -> & -> & He).
    rewrite cur_app in Hlen. apply Forall_app in Hok as [Hoke Hok].
    assert (len e ≤ slice_max) as Hle by (rewrite !len_app in Hlen; lia).
    destruct (Hg e x Hoke Hle He (pre ++ e) rest' Hlen Hok) as [Hgiff Hgsafe]. split; [|done].
    intros y c'. rewrite Hgiff. split.
    + intros (e2 & rest2 & -> & -> & HF). exists (e ++ e2), rest2.
      rewrite !app_assoc. split_and!; [done..|]. by exists e, e2, x.
    + intros (e' & rest2 & Heq & -> & e1 & e2 & x' & -> & He1 & HF).
      assert (ok (x, cur (pre ++ e) rest') = ok (x', cur (pre ++ e1) (e2 ++ rest2))) as Hc.
      { apply Hiff. exists e1, (e2 ++ rest2). by rewrite Heq, <-app_assoc. }
      injection Hc as <- _ Hl. rewrite !len_app in Hl.
      rewrite <-app_assoc in Heq. apply app_inj_1 in Heq as [<- ->]; [|unfold len in Hl; lia].
      exists e2, rest2. by rewrite <-app_assoc.
  - intros y c'. split; [done|]. intros (e' & rest2 & -> & -> & e1 & e2 & x' & -> & He1 & HF).
    enough (err m = ok (x', cur (pre ++ e1) (e2 ++ rest2))) by done.
    apply Hiff. exists e1, (e2 ++ rest2). by rewrite <-app_assoc.
Qed.

Lemma decodes_bind {A B} (f : Reader A) (g : A → Reader B) E F :
  decodes f E → (∀ x, decodes (g x) (F x)) → decodes (f ≫= g) (seq_enc E F).
Proof. intros Hf Hg. apply decodes_bind_in; auto. Qed.

Lemma decodes_equiv {A} (f : Reader A) (E F : list N → A → Prop) :
  decodes f E → (∀ e x, bytes_ok e → E e x ↔ F e x) → decodes f F.
Proof.
  intros Hf HEF pre rest Hlen Hok. destruct (Hf pre rest Hlen Hok) as [Hiff Hsafe]. split; [|done].
  intros x c'. rewrite Hiff. split; intros (e & rest' & -> & -> & H); exists e, rest';
    (split_and!; [done..|]); apply HEF; try done; by apply Forall_app in Hok as [? _].
Qed.

Lemma decodes_if {A} (b : bool) (f g : Reader A) E F :
  decodes f E → decodes g F → decodes (if b then f else g) (λ e x, if b then E e x else F e x).
Proof. by destruct b. Qed.

Lemma decodes_lift_err {A} msg : decodes (lift (err msg) : Reader A) (λ _ _, False).
Proof. intros pre rest _ _. split; [|done]. intros x c'. split; [done|naive_solver]. Qed.
Lemma decodes_lift {A} (r : Result A) :
  r ≠ panicked → decodes (lift r) (λ e y, e = [] ∧ r = ok y).
Proof.
  intros Hr. destruct r as [x|m|]; [|eapply decodes_equiv; [apply decodes_lift_err|naive_solver]|done].
  eapply decodes_equiv; [apply decodes_ret|]. intros e y _. unfold pure_enc. naive_solver.
Qed.

(** ** Bytes and slices *)
Lemma decodes_read_byte label : decodes (read_byte label) (λ e b, e = [b]).
Proof.
  intros pre rest Hlen Hok. unfold read_byte, cur. cbn [mc_bytes mc_offset].
  pose proof slice_max_lt. rewrite len_app in Hlen.
  rewrite lookup_app_r by (unfold len; lia).
  replace (N.to_nat (len pre) - length pre)%nat with 0%nat by (unfold len; lia).
  destruct rest as [|b rest]; cbn [lookup list_lookup].
  { run_result. split; [|done]. intros x c'. split; [done|]. by intros ([|??] & ? & ? & ? & ?). }
  rewrite len_cons in Hlen. run_result. unfold add_u64, checked_add64.
  rewrite decide_True by lia. run_result. split; [|done].
  intros x c'. split.
  - intros [= <- <-]. exists [b], rest. split_and!; [done| |done].
    unfold cur. rewrite <-app_assoc, len_app. done.
  - intros (e & rest' & Heq & -> & ->). injection Heq as -> ->.
    unfold cur. rewrite <-app_assoc, len_app. done.
Qed.

Lemma slice_get_cur pre rest n :
  slice_get (pre ++ rest) (len pre) (len pre + n) =
  if n <=? len rest then Some (take (N.to_nat n) rest) else None.
Proof.
  unfold slice_get. rewrite len_app.
  rewrite (proj2 (N.leb_le (len pre) (len pre + n))) by lia.
  replace (len pre + n <=? len pre + len rest) with (n <=? len rest)
    by (destruct (N.leb_spec n (len rest)); symmetry; [apply N.leb_le|apply N.leb_gt]; lia).
  cbn [andb]. destruct (n <=? len rest); [|done].
  replace (len pre + n - len pre) with n by lia.
  unfold len. by rewrite Nat2N.id, drop_app_length.
Qed.

Lemma decodes_take_slice n label : decodes (take_slice n label) (λ e x, x = e ∧ len e = n).
Proof.
  intros pre rest Hlen Hok. unfold take_slice. cbn [cur mc_bytes mc_offset].
  pose proof slice_max_lt. rewrite len_app in Hlen.
  assert (∀ x c', (∃ e rest', rest = e ++ rest' ∧ c' = cur (pre ++ e) rest' ∧ x = e ∧ len e = n) ↔
            n ≤ len rest ∧ x = take (N.to_nat n) rest ∧
            c' = cur (pre ++ take (N.to_nat n) rest) (drop (N.to_nat n) rest)) as Hspec.
  { intros x c'. split.
    - intros (e & rest' & -> & -> & -> & <-). rewrite len_app. unfold len.
      rewrite Nat2N.id, take_app_length, drop_app_length. split_and!; [lia|done..].
    - intros (Hn & -> & ->). exists (take (N.to_nat n) rest), (drop (N.to_nat n) rest).
      rewrite take_drop. split_and!; [done..|]. unfold len in *. rewrite length_take. lia. }
  destruct (N.leb_spec n (len rest)) as [Hn|Hn].
  - unfold checked_add64. rewrite decide_True by lia. run_result.
    rewrite slice_get_cur, (proj2 (N.leb_le _ _) Hn). run_result. split; [|done].
    intros x c'. rewrite Hspec. unfold cur.
    rewrite <-app_assoc, take_drop, len_app.
    replace (len (take (N.to_nat n) rest)) with n by (unfold len in *; rewrite length_take; lia).
    naive_solver.
  - split.
    + intros x c'. rewrite Hspec. split; [|lia].
      unfold checked_add64. case_decide; [|done]. run_result.
      by rewrite slice_get_cur, (proj2 (N.leb_gt _ _) Hn).
    + unfold checked_add64. case_decide; [|done]. run_result.
      by rewrite slice_get_cur, (proj2 (N.leb_gt _ _) Hn).
Qed.

(** ** Loops *)

(** [n] encodings in a row, threading a state. *)
Fixpoint loop_enc {S} (n : nat) (E : S → list N → S → Prop) (s : S) (e : list N) (s' : S) : Prop :=
  match n with
  | O => pure_enc s e s'
  | Datatypes.S n => seq_enc (E s) (λ s1, loop_enc n E s1) e s'
  end.

Lemma decodes_for_loop {S} n (body : S → Reader S) (E : S → list N → S → Prop) s :
  (∀ s, decodes (body s) (E s)) → decodes (for_loop n body s) (loop_enc n E s).
Proof.
  intros Hb. revert s. induction n as [|n IH]; intros s; [apply decodes_ret|].
  apply (decodes_bind (body s) (for_loop n body)); [apply Hb|apply IH].
Qed.

(** A loop without state reads a list of encodings. *)
Lemma loop_enc_concat n (E : list N → Prop) e u :
  loop_enc n (λ _ e _, E e) tt e u ↔ ∃ es, length es = n ∧ Forall E es ∧ e = concat es.
Proof.
  destruct u. revert e. induction n as [|n IH]; intros e; cbn [loop_enc].
  - unfold pure_enc. split; [intros [-> _]; by exists []|]. by intros ([|??] & ? & ? & ->).
  - split.
    + intros (e1 & e2 & [] & -> & H1 & H2). apply IH in H2 as (es & <- & Hes & ->).
      exists (e1 :: es). by repeat constructor.
    + intros ([|e1 es] & Hl & Hes & ->); [done|]. apply Forall_cons in Hes as [H1 Hes].
      exists e1, (concat es), tt. split_and!; [done..|]. apply IH. exists es. naive_solver lia.
Qed.

(** ** Length prefixes *)
Lemma from_be_bytes_snoc l b : from_be_bytes (l ++ [b]) = from_be_bytes l * 256 + b.
Proof. unfold from_be_bytes. by rewrite foldl_snoc. Qed.
Lemma from_be_bytes_lt l : bytes_ok l → from_be_bytes l < 256 ^ len l.
Proof.
  induction l as [|b l IH] using rev_ind; intros Hok; [done|].
  apply Forall_app in Hok as [Hl Hb]. apply Forall_cons in Hb as [Hb _].
  rewrite from_be_bytes_snoc, len_app. change (len [b]) with 1. rewrite N.pow_add_r.
  specialize (IH Hl). change (256 ^ 1) with 256. nia.
Qed.

(** [n] bytes, and the big-endian number they are. *)
Definition enc_be (n : N) (e : list N) (v : N) : Prop := len e = n ∧ v = from_be_bytes e.

Lemma decodes_take_be n label : decodes (take_be n label) (enc_be n).
Proof.
  eapply decodes_equiv.
  { apply decodes_bind; [|intros x; apply decodes_ret].
    apply decodes_bind; [apply decodes_take_slice|]. intros x. apply decodes_lift.
    destruct (len x =? n); by run_result. }
  intros e v _. unfold enc_be. split.
  - intros (e1 & ? & x & -> & (e2 & ? & y & -> & [-> Hn] & -> & Hy) & -> & ->).
    rewrite Hn, N.eqb_refl in Hy. injection Hy as ->. by rewrite !app_nil_r.
  - intros [Hn ->]. exists e, [], e. rewrite app_nil_r. split_and!; [done| |done].
    exists e, [], e. rewrite app_nil_r, Hn, N.eqb_refl. done.
Qed.

Lemma decodes_take_be_usize label msg : decodes (take_be_usize label msg) (enc_be 4).
Proof.
  eapply decodes_equiv.
  { apply decodes_bind; [apply decodes_take_be|]. intros x. apply decodes_lift.
    by destruct (usize_try_from x). }
  intros e v Hok.
  assert (∀ w, enc_be 4 e w → usize_try_from w = Some w) as Hfit.
  { intros w [Hn ->]. unfold usize_try_from.
    pose proof (from_be_bytes_lt e Hok) as H. rewrite Hn in H.
    assert (256 ^ 4 ≤ u64_max) as H4 by (vm_compute; discriminate).
    rewrite (proj2 (N.leb_le _ _)); [done|]. by eapply N.lt_le_incl, N.lt_le_trans. }
  split.
  - intros (e1 & ? & x & -> & Hx & -> & Hv). rewrite app_nil_r in *.
    rewrite (Hfit x Hx) in Hv. by injection Hv as ->.
  - intros Hv. exists e, [], v. rewrite app_nil_r, (Hfit v Hv). done.
Qed.

(** The marker of a short form carries its length in its low bits. *)
Lemma forall_bytes (P : N → bool) : forallb P (range_N 256) = true → ∀ b, b < 256 → P b = true.
Proof.
  intros H b Hb. rewrite forallb_forall in H. apply H, list_elem_of_In.
  unfold range_N. apply list_elem_of_fmap. exists (N.to_nat b). rewrite N2Nat.id.
  split; [done|]. apply elem_of_seq. lia.
Qed.
Lemma low_bits_of b lo mask w : b < 256 →
  forallb (λ b, negb (byte_in lo (lo + w) b) || (N.land b mask =? b - lo)) (range_N 256) = true →
  byte_in lo (lo + w) b = true → N.land b mask = b - lo.
Proof.
  intros Hb Hall Hin. pose proof (forall_bytes _ Hall b Hb) as H. simpl in H.
  rewrite Hin in H. by apply N.eqb_eq.
Qed.
Lemma byte_in_true a b n : byte_in a b n = true ↔ a ≤ n ∧ n ≤ b.
Proof. unfold byte_in. by rewrite andb_true_iff, !N.leb_le. Qed.

(** Reads the language of a reader off its definition. *)
Ltac decodes_step :=
  match goal with
  | |- decodes (mret _) _ => apply decodes_ret
  | |- decodes (_ ≫= _) _ => apply decodes_bind; [|intros ?]
  | |- decodes (if _ then _ else _) _ => apply decodes_if
  | |- decodes (read_byte _) _ => apply decodes_read_byte
  | |- decodes (take_slice _ _) _ => apply decodes_take_slice
  | |- decodes (take_be _ _) _ => apply decodes_take_be
  | |- decodes (take_be_usize _ _) _ => apply decodes_take_be_usize
  | |- decodes (lift (err _)) _ => apply decodes_lift_err
  end.

(** ** Typed readers *)
Inductive enc_u64 : list N → N → Prop :=
| eu_fixint v : v ≤ 0x7f → enc_u64 [v] v
| eu_wide m w e : (m, w) ∈ [(0xcc, 1); (0xcd, 2); (0xce, 4); (0xcf, 8)] → len e = w →
    enc_u64 (m :: e) (from_be_bytes e).

(** A container or blob header: the length in the marker's low bits, or in a
    field of two or four (for blobs also one) bytes behind the marker. *)
Inductive enc_len (lo w : N) (wide : list (N * N)) : list N → N → Prop :=
| el_short n : n ≤ w → enc_len lo w wide [lo + n] n
| el_wide m k e : (m, k) ∈ wide → len e = k → enc_len lo w wide (m :: e) (from_be_bytes e).
Definition enc_array_len : list N → N → Prop := enc_len 0x90 0x0f [(0xdc, 2); (0xdd, 4)].
Definition enc_map_len : list N → N → Prop := enc_len 0x80 0x0f [(0xde, 2); (0xdf, 4)].
Definition enc_str_len : list N → N → Prop := enc_len 0xa0 0x1f [(0xd9, 1); (0xda, 2); (0xdb, 4)].

Inductive enc_bin : list N → list N → Prop :=
| eb_bin m k e body : (m, k) ∈ [(0xc4, 1); (0xc5, 2); (0xc6, 4)] → len e = k →
    from_be_bytes e = len body → enc_bin (m :: e ++ body) body.
Inductive enc_str : list N → string → Prop :=
| es_str head body s : enc_str_len head (len body) → from_utf8 body = Some s →
    enc_str (head ++ body) s.

Lemma enc_be_1 e b : enc_be 1 e b ↔ e = [b].
Proof.
  unfold enc_be. split; [|by intros ->].
  intros [Hl ->]. destruct e as [|x [|y e]]; [done| |rewrite !len_cons in Hl; lia].
  unfold from_be_bytes. simpl. by f_equal.
Qed.

(** The relation a chain of marker tests computes, against the inductive one. *)
Ltac enc_cases :=
  repeat match goal with
  | H : (if ?b then _ else _) |- _ => destruct b eqn:?
  | H : seq_enc _ _ _ _ |- _ => destruct H as (? & ? & ? & -> & ? & ?)
  | H : pure_enc _ _ _ |- _ => destruct H as [-> ->]
  | H : enc_be _ _ _ |- _ => destruct H as [? ->]
  | H : False |- _ => destruct H
  | H : (_ =? _) = true |- _ => apply N.eqb_eq in H as ->
  | H : _ = false |- _ => clear H
  | H : _ || _ = true |- _ => apply orb_true_iff in H as [H|H]
  | H : (_ <=? _) = true |- _ => apply N.leb_le in H
  end.

Lemma decodes_read_u64 label : decodes (read_u64 label) enc_u64.
Proof.
  eapply decodes_equiv; [unfold read_u64; repeat decodes_step|]. cbv beta. intros e v _. split.
  - intros (e1 & e2 & m & -> & -> & H). enc_cases; subst.
    + by constructor.
    + apply (eu_wide 0xcc 1 [v]); [set_solver|done].
    + by eapply eu_wide; [|eassumption]; set_solver.
    + by eapply eu_wide; [|eassumption]; set_solver.
    + by eapply eu_wide; [|eassumption]; set_solver.
  - intros [v' Hv|m w e' Hm Hl].
    + exists [v'], [], v'. split_and!; [done..|]. by rewrite (proj2 (N.leb_le _ _) Hv).
    + exists [m], e', m. split_and!; [done..|].
      repeat (apply elem_of_cons in Hm as [[= -> ->]|Hm]); [..|by apply elem_of_nil in Hm]; cbn.
      1: destruct (enc_be_1 e' (from_be_bytes e')) as [-> _]; done.
      all: by split.
Qed.

(** Which of a table's wide forms a marker is. *)
Ltac wide_cases Hm :=
  repeat (apply elem_of_cons in Hm as [[= -> ?]|Hm]); [..|by apply elem_of_nil in Hm]; subst.

Lemma short_form lo w mask n : lo + n < 256 →
  forallb (λ b, negb (byte_in lo (lo + w) b) || (N.land b mask =? b - lo)) (range_N 256) = true →
  n ≤ w → byte_in lo (lo + w) (lo + n) = true ∧ N.land (lo + n) mask = n.
Proof.
  intros Hb Hall Hn.
  assert (byte_in lo (lo + w) (lo + n) = true) as Hin by (apply byte_in_true; lia).
  split; [done|]. rewrite (low_bits_of _ lo mask w Hb Hall Hin). lia.
Qed.
Lemma short_form_inv lo w mask b hi : b < 256 → hi = lo + w →
  forallb (λ b, negb (byte_in lo (lo + w) b) || (N.land b mask =? b - lo)) (range_N 256) = true →
  byte_in lo hi b = true → ∃ n, b = lo + n ∧ n ≤ w ∧ N.land b mask = n.
Proof.
  intros Hb -> Hall Hin. exists (b - lo). pose proof (proj1 (byte_in_true _ _ _) Hin).
  rewrite (low_bits_of _ lo mask w Hb Hall Hin). lia.
Qed.

Ltac marker_byte Hok := apply Forall_app in Hok as [Hok _]; apply Forall_cons in Hok as [Hok _].

(** Container headers: the two readers differ in their markers only. *)
Lemma decodes_container lo w m2 m4 l1 l2 msg1 msg2 :
  lo + w < 256 → byte_in lo (lo + w) m2 = false → byte_in lo (lo + w) m4 = false → m2 ≠ m4 →
  forallb (λ b, negb (byte_in lo (lo + w) b) || (N.land b w =? b - lo)) (range_N 256) = true →
  decodes (marker ← read_byte l1;
           if byte_in lo (lo + w) marker then mret (N.land marker w)
           else if marker =? m2 then take_be 2 l2
           else if marker =? m4 then take_be_usize l2 msg1
           else lift (err msg2)) (enc_len lo w [(m2, 2); (m4, 4)]).
Proof.
  intros Hlo H2 H4 Hne Hall. eapply decodes_equiv; [repeat decodes_step|]. cbv beta.
  intros e v Hok. split.
  - intros (e1 & e2 & m & -> & -> & H). marker_byte Hok. enc_cases; subst.
    + destruct (short_form_inv lo w w m (lo + w)) as (n & -> & Hn & ->); [done..|]. by constructor.
    + by eapply el_wide; [|eassumption]; set_solver.
    + by eapply el_wide; [|eassumption]; set_solver.
  - intros [n Hn|m k e' Hm Hl].
    + exists [lo + n], [], (lo + n). split_and!; [done..|].
      destruct (short_form lo w w n) as [Hr Hv]; [lia|done|done|]. by rewrite Hr, Hv.
    + exists [m], e', m. split_and!; [done..|]. wide_cases Hm.
      * rewrite H2, N.eqb_refl. by split.
      * rewrite H4, N.eqb_refl, (proj2 (N.eqb_neq _ _) (not_eq_sym Hne)). by split.
Qed.
Lemma decodes_read_array_len label : decodes (read_array_len label) enc_array_len.
Proof. by apply (decodes_container 0x90 0x0f 0xdc 0xdd). Qed.
Lemma decodes_read_map_len label : decodes (read_map_len label) enc_map_len.
Proof. by apply (decodes_container 0x80 0x0f 0xde 0xdf). Qed.

Lemma decodes_read_bin label : decodes (read_bin label) enc_bin.
Proof.
  eapply decodes_equiv; [unfold read_bin; repeat decodes_step|]. cbv beta. intros e v _. split.
  - intros (e1 & e2 & m & -> & -> & e3 & body & n & -> & H & -> & Hn). enc_cases; subst.
    + apply (eb_bin 0xc4 1 [len body]); [set_solver|done|done].
    + by apply (eb_bin 0xc5 2 e3 body); [set_solver|..].
    + by apply (eb_bin 0xc6 4 e3 body); [set_solver|..].
  - intros [m k e' body Hm Hl Hb]. exists [m], (e' ++ body), m. split_and!; [done..|].
    exists e', body, (len body). split_and!; [done| |done|done]. wide_cases Hm; cbn.
    1: by apply enc_be_1.
    all: by split.
Qed.

Lemma decodes_read_str label : decodes (read_str label) enc_str.
Proof.
  eapply decodes_equiv.
  { unfold read_str. repeat decodes_step. apply decodes_lift. by destruct (from_utf8 _). }
  cbv beta. intros e s Hok. split.
  - intros (e1 & e2 & m & -> & -> & e3 & e4 & n & -> & H & e5 & e6 & x & -> & (-> & Hn) & -> & Hs).
    apply context_ok in Hs. rewrite app_nil_r, app_assoc in *. constructor; [|done].
    marker_byte Hok. rewrite Hn. enc_cases; subst.
    + destruct (short_form_inv 0xa0 0x1f 0x1f m 0xbf) as (n & -> & Hn' & ->); [done..|]. by constructor.
    + apply (el_wide _ _ _ 0xd9 1 [len e5]); [set_solver|done].
    + by eapply el_wide; [|eassumption]; set_solver.
    + by eapply el_wide; [|eassumption]; set_solver.
  - intros [head body s' Hh Hs].
    enough (∃ m e3, head = [m] ++ e3 ∧
      (if byte_in 0xa0 0xbf m then pure_enc (N.land m 0x1f) e3 (len body)
       else if m =? 0xd9 then e3 = [len body]
       else if m =? 0xda then enc_be 2 e3 (len body)
       else if m =? 0xdb then enc_be 4 e3 (len body) else False)) as (m & e3 & -> & H3).
    { exists [m], (e3 ++ body), m. rewrite <-app_assoc. split_and!; [done..|].
      exists e3, body, (len body). split_and!; [done..|].
      exists body, [], body. rewrite app_nil_r, Hs. done. }
    inversion Hh as [n Hn Heq Hv|m k e' Hm Hl Heq Hv]; [subst|subst head].
    + exists (0xa0 + len body), []. split; [done|].
      destruct (short_form 0xa0 0x1f 0x1f (len body)) as [Hr Hv]; [lia|done|done|].
      change (0xa0 + 0x1f) with 0xbf in Hr. by rewrite Hr, Hv.
    + exists m, e'. split; [done|]. wide_cases Hm; cbn; [apply enc_be_1|..]; by split.
Qed.

(** ** Skipped values *)

(** Markers followed by a fixed number of payload bytes, by a blob length, by
    an extension length, by an array length and by a map length, with the width
    of the length. *)
Definition fixed_widths : list (N * N) :=
  [(0xca, 4); (0xcb, 8); (0xcc, 1); (0xcd, 2); (0xce, 4); (0xcf, 8); (0xd0, 1); (0xd1, 2);
   (0xd2, 4); (0xd3, 8); (0xd4, 2); (0xd5, 3); (0xd6, 5); (0xd7, 9); (0xd8, 17)].
Definition blob_lengths : list (N * N) :=
  [(0xc4, 1); (0xc5, 2); (0xc6, 4); (0xd9, 1); (0xda, 2); (0xdb, 4)].
Definition ext_lengths : list (N * N) := [(0xc7, 1); (0xc8, 2); (0xc9, 4)].
Definition array_lengths : list (N * N) := [(0xdc, 2); (0xdd, 4)].
Definition map_lengths : list (N * N) := [(0xde, 2); (0xdf, 4)].

(** [mp_header head children payload]: the marker and length bytes of a
    MessagePack value with so many nested values and payload bytes. *)
Inductive mp_header : list N → N → N → Prop :=
| mh_positive b : b ≤ 0x7f → mp_header [b] 0 0
| mh_negative b : 0xe0 ≤ b → mp_header [b] 0 0
| mh_constant b : b ∈ [0xc0; 0xc2; 0xc3] → mp_header [b] 0 0
| mh_fixmap n : n < 16 → mp_header [0x80 + n] (2 * n) 0
| mh_fixarray n : n < 16 → mp_header [0x90 + n] n 0
| mh_fixstr n : n < 32 → mp_header [0xa0 + n] 0 n
| mh_fixed b w : (b, w) ∈ fixed_widths → mp_header [b] 0 w
| mh_blob b w e : (b, w) ∈ blob_lengths → len e = w → mp_header (b :: e) 0 (from_be_bytes e)
| mh_ext b w e : (b, w) ∈ ext_lengths → len e = w → mp_header (b :: e) 0 (1 + from_be_bytes e)
| mh_array b w e : (b, w) ∈ array_lengths → len e = w → mp_header (b :: e) (from_be_bytes e) 0
| mh_map b w e : (b, w) ∈ map_lengths → len e = w → mp_header (b :: e) (2 * from_be_bytes e) 0.

(** A value nested at most [depth] levels deep. *)
Inductive mp_value : nat → list N → Prop :=
| mp_node depth head payload kids :
    mp_header head (len kids) (len payload) → Forall (mp_value depth) kids →
    mp_value (S depth) (head ++ payload ++ concat kids).

Lemma enc_be_small n e v : n ≤ 4 → bytes_ok e → enc_be n e v → v < 2 ^ 32.
Proof.
  intros Hn Hok [Hl ->]. eapply N.lt_le_trans; [by apply from_be_bytes_lt|].
  rewrite Hl. change (2 ^ 32) with (256 ^ 4). by apply N.pow_le_mono_r.
Qed.
Lemma decodes_add_u64 n k : n < 2 ^ 32 → k ≤ 2 → decodes (lift (add_u64 n k)) (pure_enc (n + k)).
Proof.
  intros Hn Hk. unfold add_u64, checked_add64.
  rewrite decide_True by (change u64_max with 18446744073709551615; change (2 ^ 32) with 4294967296 in Hn; lia).
  apply decodes_ret.
Qed.
Lemma checked_mul_small n k : n < 2 ^ 32 → k ≤ 2 → checked_mul64 n k = Some (n * k).
Proof.
  intros Hn Hk. apply checked_mul64_Some.
  change u64_max with 18446744073709551615. change (2 ^ 32) with 4294967296 in Hn. nia.
Qed.
Lemma decodes_mul_usize n k : n < 2 ^ 32 → k ≤ 2 → decodes (lift (mul_usize n k)) (pure_enc (n * k)).
Proof. intros Hn Hk. unfold mul_usize. rewrite checked_mul_small by done. apply decodes_ret. Qed.
Lemma decodes_checked_mul n k msg :
  n < 2 ^ 32 → k ≤ 2 → decodes (lift (context (checked_mul64 n k) msg)) (pure_enc (n * k)).
Proof. intros Hn Hk. rewrite checked_mul_small by done. apply decodes_ret. Qed.

Ltac shape_step :=
  match goal with
  | |- decodes (lift (add_u64 _ _)) _ => apply decodes_add_u64; [|lia]
  | |- decodes (lift (mul_usize _ _)) _ => apply decodes_mul_usize; [|lia]
  | |- decodes (lift (context (checked_mul64 _ _) _)) _ => apply decodes_checked_mul; [|lia]
  | |- decodes (_ ≫= _) _ => apply decodes_bind_in; [|intros ? ? ? ? ?]
  | _ => decodes_step
  end.
Lemma read_byte_small e x : bytes_ok e → e = [x] → x < 2 ^ 32.
Proof. intros Hok ->. apply Forall_cons in Hok as [Hx _]. by eapply N.lt_trans; [exact Hx|]. Qed.
Lemma low_bits_small b : N.land b 0x0f < 2 ^ 32.
Proof.
  change 0x0f with (N.ones 4). rewrite N.land_ones.
  eapply N.lt_trans; [by apply N.mod_lt|]. done.
Qed.

Lemma seq_pure {A B} (E : list N → A → Prop) (f : A → B) e x y :
  E e x → y = f x → seq_enc E (λ x, pure_enc (f x)) e y.
Proof. intros HE ->. exists e, [], x. by rewrite app_nil_r. Qed.
Lemma seq_pure2 {A B C} (E : list N → A → Prop) (f : A → B) (g : B → C) e x y :
  E e x → y = g (f x) → seq_enc E (λ x, seq_enc (pure_enc (f x)) (λ z, pure_enc (g z))) e y.
Proof. intros HE ->. exists e, [], x. rewrite app_nil_r. split_and!; [done..|]. by exists [], [], (f x). Qed.
Lemma enc_be_intro w e : len e = w → enc_be w e (from_be_bytes e).
Proof. by split. Qed.
Lemma one_byte e : len e = 1 → e = [from_be_bytes e].
Proof. intros H. by apply enc_be_1, enc_be_intro. Qed.

(** Which branch of [skip_shape] a marker takes. *)
Definition skips_nothing (m : N) : bool :=
  (m <=? 0x7f) || (m =? 0xc0) || (m =? 0xc2) || (m =? 0xc3) || byte_in 0xe0 0xff m.
Lemma short_form_branch lo w n : lo + w < 256 → n ≤ w →
  forallb (λ b, negb (byte_in lo (lo + w) b)
                || negb (skips_nothing b)) (range_N 256) = true →
  skips_nothing (lo + n) = false.
Proof.
  intros Hb Hn Hall. pose proof (forall_bytes _ Hall (lo + n) ltac:(lia)) as H. cbv beta in H.
  rewrite (proj2 (byte_in_true _ _ _)) in H by lia. by destruct (skips_nothing (lo + n)).
Qed.
Lemma byte_in_below a b n : n < a → byte_in a b n = false.
Proof. intros H. unfold byte_in. by rewrite (proj2 (N.leb_gt _ _) H). Qed.
Lemma byte_in_above a b n : b < n → byte_in a b n = false.
Proof. intros H. unfold byte_in. rewrite (proj2 (N.leb_gt n b) H). by rewrite andb_false_r. Qed.

Lemma decodes_skip_shape m :
  m < 256 → decodes (skip_shape m) (λ e cp, mp_header (m :: e) cp.1 cp.2).
Proof.
  intros Hm. eapply decodes_equiv.
  { unfold skip_shape. repeat shape_step;
      solve [apply low_bits_small | by eapply read_byte_small
            | by eapply enc_be_small; [| |eassumption]; [lia|]]. }
  cbv beta. intros e cp Hok. split.
  - intros H. enc_cases; subst; cbn [fst snd app].
    all: rewrite ?app_nil_r.
    all: try (by eapply mh_fixed; set_solver).
    all: try (by eapply mh_blob; [|eassumption]; set_solver).
    all: try (by eapply mh_array; [|eassumption]; set_solver).
    + by constructor.
    + apply mh_constant. set_solver.
    + apply mh_constant. set_solver.
    + apply mh_constant. set_solver.
    + apply mh_negative. select (byte_in _ _ _ = true) (fun H => apply byte_in_true in H). lia.
    + destruct (short_form_inv 0x80 0x0f 0x0f m 0x8f) as (n & -> & Hn & ->); [done..|].
      rewrite N.mul_comm. apply mh_fixmap. lia.
    + destruct (short_form_inv 0x90 0x0f 0x0f m 0x9f) as (n & -> & Hn & ->); [done..|].
      apply mh_fixarray. lia.
    + destruct (short_form_inv 0xa0 0x1f 0x1f m 0xbf) as (n & -> & Hn & ->); [done..|].
      apply mh_fixstr. lia.
    + apply (mh_blob _ 1 [x1]); [set_solver|done].
    + apply (mh_blob _ 1 [x1]); [set_solver|done].
    + rewrite N.add_comm. apply (mh_ext _ 1 [x1]); [set_solver|done].
    + rewrite N.add_comm. by eapply mh_ext; [|eassumption]; set_solver.
    + rewrite N.add_comm. by eapply mh_ext; [|eassumption]; set_solver.
    + rewrite N.mul_comm. by eapply mh_map; [|eassumption]; set_solver.
    + rewrite N.mul_comm. by eapply mh_map; [|eassumption]; set_solver.
  - destruct cp as [children payload]. cbn [fst snd]. fold (skips_nothing m).
    inversion 1 as [b Hb|b Hb|b Hb|n Hn|n Hn|n Hn|b w Hb|b w e' Hb Hl|b w e' Hb Hl|b w e' Hb Hl|b w e' Hb Hl];
      subst b || subst m; subst.
    + assert (skips_nothing m = true) as -> by (unfold skips_nothing; by rewrite (proj2 (N.leb_le _ _) Hb)).
      done.
    + assert (skips_nothing m = true) as ->; [|done].
      unfold skips_nothing. rewrite (proj2 (byte_in_true 0xe0 0xff m)) by lia. apply orb_true_r.
    + repeat (apply elem_of_cons in Hb as [->|Hb]); [done..|by apply elem_of_nil in Hb].
    + rewrite (short_form_branch 0x80 0x0f) by (done || lia).
      destruct (short_form 0x80 0x0f 0x0f n) as [Hr Hv]; [lia|done|lia|].
      change (0x80 + 0x0f) with 0x8f in Hr. rewrite Hr, Hv.
      apply (seq_pure (pure_enc (n * 2)) (λ x, (x, 0)) [] (n * 2)); [done|]. f_equal. lia.
    + rewrite (short_form_branch 0x90 0x0f) by (done || lia).
      destruct (short_form 0x90 0x0f 0x0f children) as [Hr Hv]; [lia|done|lia|].
      change (0x90 + 0x0f) with 0x9f in Hr. rewrite (byte_in_above 0x80) by lia. by rewrite Hr, Hv.
    + rewrite (short_form_branch 0xa0 0x1f) by (done || lia).
      destruct (short_form 0xa0 0x1f 0x1f payload) as [Hr Hv]; [lia|done|lia|].
      change (0xa0 + 0x1f) with 0xbf in Hr.
      rewrite (byte_in_above 0x80), (byte_in_above 0x90) by lia. by rewrite Hr, Hv.
    + unfold fixed_widths in Hb. wide_cases Hb; done.
    + unfold blob_lengths in Hb. wide_cases Hb; cbn; (eapply seq_pure; [|done]);
        first [by apply one_byte|by apply enc_be_intro].
    + unfold ext_lengths in Hb. wide_cases Hb; cbn; (eapply seq_pure2; [|by rewrite N.add_comm]);
        first [by apply one_byte|by apply enc_be_intro].
    + unfold array_lengths in Hb. wide_cases Hb; cbn; (eapply seq_pure; [|done]); by apply enc_be_intro.
    + unfold map_lengths in Hb. wide_cases Hb; cbn; (eapply seq_pure2; [|by rewrite N.mul_comm]); by apply enc_be_intro.
Qed.

Lemma concat_len_ge (E : list N → Prop) es :
  (∀ e, E e → e ≠ []) → Forall E es → len es ≤ len (concat es).
Proof.
  intros HE. induction 1 as [|e es He Hes IH]; [done|].
  cbn [concat]. rewrite len_app, len_cons. specialize (HE e He). destruct e; [done|].
  rewrite len_cons. lia.
Qed.
Lemma decodes_children n (g : Reader unit) (E : list N → Prop) :
  decodes g (λ e _, E e) → (∀ e, E e → e ≠ []) →
  decodes (_ ← ensure_children n; for_loop (N.to_nat n) (λ _, g) tt)
    (λ e _, ∃ es, len es = n ∧ Forall E es ∧ e = concat es).
Proof.
  intros Hg HE.
  assert (decodes (for_loop (N.to_nat n) (λ _, g) tt)
            (λ e _, ∃ es, len es = n ∧ Forall E es ∧ e = concat es)) as Hloop.
  { eapply decodes_equiv; [apply (decodes_for_loop _ _ (λ _ e _, E e)); by intros|].
    intros e u _. rewrite loop_enc_concat. unfold len. split; intros (es & ? & ? & ?); exists es; naive_solver lia. }
  intros pre rest Hlen Hok. destruct (Hloop pre rest Hlen Hok) as [Hiff Hsafe].
  unfold mbind, Reader_bind, ensure_children. cbn [cur mc_bytes mc_offset].
  rewrite len_app. replace (len pre + len rest - len pre) with (len rest) by lia.
  destruct (N.leb_spec n (len rest)) as [Hn|Hn]; run_result; [done|].
  split; [|done]. intros x c'. split; [done|].
  intros (e & rest' & -> & _ & es & <- & Hes & ->).
  pose proof (concat_len_ge E es HE Hes). rewrite len_app in Hn. lia.
Qed.

Lemma mp_header_nonempty head children payload : mp_header head children payload → head ≠ [].
Proof. by destruct 1. Qed.
Lemma mp_value_nonempty depth e : mp_value depth e → e ≠ [].
Proof. destruct 1 as [depth head payload kids Hh _]. apply mp_header_nonempty in Hh. by destruct head. Qed.

Lemma decodes_skip_value_at room : decodes (skip_value_at room) (λ e _, mp_value room e).
Proof.
  induction room as [|room IH].
  { eapply decodes_equiv; [apply decodes_lift_err|]. intros e u _. split; [done|by inversion 1]. }
  eapply decodes_equiv.
  { cbn [skip_value_at]. apply decodes_bind_in; [apply decodes_read_byte|].
    intros e m Hok _ ->. apply Forall_cons in Hok as [Hm _].
    apply (decodes_bind _ _ (λ e cp, mp_header (m :: e) cp.1 cp.2)
      (λ cp, seq_enc (λ e x, x = e ∧ len e = cp.2)
               (λ _ e _, ∃ es, len es = cp.1 ∧ Forall (mp_value room) es ∧ e = concat es)));
      [by apply decodes_skip_shape|]. intros [children payload]. cbn [fst snd].
    apply decodes_bind; [apply decodes_take_slice|]. intros body.
    apply decodes_children; [exact IH|]. intros e. apply mp_value_nonempty. }
  cbv beta. intros e u Hok. split.
  - intros (e1 & e2 & m & -> & -> & e3 & e4 & cp & -> & Hh & Hrest).
    destruct cp as [children payload]. cbn [fst snd] in Hh.
    destruct Hrest as (body & e6 & x & -> & [-> Hp] & kids & Hk & Hkids & ->).
    cbn [fst snd] in *. apply (mp_node room ([m] ++ e3) body kids); [|done]. by rewrite Hk, Hp.
  - intros Hv. inversion Hv as [d head payload kids Hh Hkids]; subst.
    pose proof (mp_header_nonempty _ _ _ Hh). destruct head as [|m e3]; [done|].
    exists [m], (e3 ++ payload ++ concat kids), m. split_and!; [done..|].
    exists e3, (payload ++ concat kids), (len kids, len payload). split_and!; [done..|].
    exists payload, (concat kids), payload. split_and!; [done..|]. by exists kids.
Qed.

(** ** Regrouping *)
Lemma decodes_ext {A} (f g : Reader A) E : (∀ c, f c = g c) → decodes f E → decodes g E.
Proof. intros Hfg Hf pre rest Hlen Hok. rewrite <-Hfg. by apply Hf. Qed.
Lemma decodes_assoc {A B C} (m : Reader A) (f : A → Reader B) (g : B → Reader C) E :
  decodes ((m ≫= f) ≫= g) E → decodes (m ≫= λ x, f x ≫= g) E.
Proof.
  apply decodes_ext. intros c. unfold mbind, Reader_bind. by destruct (m c) as [[x c']|?|].
Qed.
(** A check between two reads. *)
Lemma decodes_ensure {B} (b : bool) msg (g : unit → Reader B) E :
  (b = true → decodes (g tt) E) → decodes (lift (ensure b msg) ≫= g) (λ e y, b = true ∧ E e y).
Proof.
  intros Hg. destruct b.
  - eapply decodes_equiv; [by apply Hg|]. naive_solver.
  - eapply decodes_equiv; [apply decodes_lift_err|]. naive_solver.
Qed.

(** ** Whole slices *)
Lemma is_finished_cur pre rest : is_finished (cur pre rest) = true ↔ rest = [].
Proof.
  unfold is_finished. cbn [cur mc_bytes mc_offset]. rewrite N.eqb_eq, len_app.
  destruct rest; rewrite ?len_cons; [change (len []) with 0; split; [done|lia]|]. split; [lia|done].
Qed.
