(* ===== verification/Xl2Inspector.v ===== *)
(** * XL2 metadata inspector

    [src/fault/xl2_inspector.rs]: the read-only decoder of a captured [xl.meta]
    that names the shard parts of every object version, and the validator of the
    [format.json] that identifies the drive. Byte slices are lists of numbers
    below 256. The [uuid], [xxhash_rust] and [serde_json] crates are the
    operations of [Xl2Env]; integers keep their widths, and an index or slice out
    of range panics. *)
From S2P Require Import Prelude RustText Quorum Msgpack.
From stdpp Require Import options.
Local Open Scope N_scope.

Definition XL2_MAGIC : list N := [0x58; 0x4c; 0x32; 0x20].
Definition MAX_XL_META_BYTES : N := 16 * 1024 * 1024.
Definition MAX_VERSIONS : N := 10000.
Definition MAX_PARTS : N := 10000.
Definition OFFLINE_XL2_INSPECTOR_REVISION : string := "xl2-1.3-header3-meta3".
Definition LATEST_RUSTFS_FORMAT_META_VERSION : string := "1".
Definition LATEST_RUSTFS_ERASURE_FORMAT_VERSION : string := "3".
Definition LATEST_RUSTFS_DISTRIBUTION_ALGORITHM : string := "SIPMOD+PARITY".

(** ** [format.json] as [serde] decodes it *)
Record LatestRustfsErasureFormat := mkLatestRustfsErasureFormat {
  ef_version : string;
  ef_this : string;
  ef_sets : list (list string);
  ef_distribution_algo : string;
}.
Record LatestRustfsFormat := mkLatestRustfsFormat {
  rf_version : string;
  rf_backend : string;
  rf_id : string;
  rf_erasure : LatestRustfsErasureFormat;
}.

(** The crates the inspector calls. *)
Class Xl2Env := {
  uuid : Type;
  uuid_eq_dec :: EqDecision uuid;
  uuid_countable :: Countable uuid;
  uuid_parse_str : string → option uuid;
  uuid_to_string : uuid → string;
  uuid_from_bytes : list N → uuid;
  uuid_is_nil : uuid → bool;
  xxh64 : list N → N → N;
  format_from_slice : list N → option LatestRustfsFormat;
}.

(** ** Layouts *)
Record Xl2FormatProfile := mkXl2FormatProfile {
  fp_file_major : N;
  fp_file_minor : N;
  fp_header_version : N;
  fp_metadata_version : N;
}.
Global Instance Xl2FormatProfile_eq_dec : EqDecision Xl2FormatProfile.
Proof. solve_decision. Defined.
Definition LATEST_RUSTFS : Xl2FormatProfile := mkXl2FormatProfile 1 3 3 3.

Definition profile_revision (p : Xl2FormatProfile) : Result string :=
  _ ← ensure (bool_decide (p = LATEST_RUSTFS))
        ("unsupported XL2 capability profile " +:+ dec (fp_file_major p) +:+ "." +:+ dec (fp_file_minor p)
         +:+ " header " +:+ dec (fp_header_version p) +:+ " metadata " +:+ dec (fp_metadata_version p));
  ok OFFLINE_XL2_INSPECTOR_REVISION.

Record Xl2ObjectVersionLayout := mkXl2ObjectVersionLayout {
  vl_inspector_revision : string;
  vl_profile : Xl2FormatProfile;
  vl_version_id : string;
  vl_data_directory : string;
  vl_erasure_data_shards : N;
  vl_erasure_parity_shards : N;
  vl_erasure_index : N;
  vl_part_numbers : list N;
  vl_part_sizes : list N;
  vl_relative_part_paths : list string;
}.
Module Xl2InventoryVersionKind.
Inductive t := ShardParts | Inline | DeleteMarker.
End Xl2InventoryVersionKind.
Record Xl2InventoryVersionLayout := mkXl2InventoryVersionLayout {
  iv_version_id : string;
  iv_kind : Xl2InventoryVersionKind.t;
  iv_shard_layout : option Xl2ObjectVersionLayout;
}.

Section Inspector.
Context `{Henv : Xl2Env}.

Record VersionHeader := mkVersionHeader {
  vh_version_id : uuid;
  vh_version_type : N;
  vh_flags : N;
  vh_erasure_parity_shards : N;
  vh_erasure_data_shards : N;
}.
Record ObjectLayout := mkObjectLayout {
  ol_version_type : N;
  ol_version_id : uuid;
  ol_data_directory : option uuid;
  ol_erasure_data_shards : N;
  ol_erasure_parity_shards : N;
  ol_erasure_index : N;
  ol_part_numbers : list N;
  ol_part_sizes : list N;
}.

(** ** Field helpers *)
Definition uuid_from_bin (bytes : list N) (label : string) : Result uuid :=
  bytes ← context (if len bytes =? 16 then Some bytes else None) (label +:+ " must be 16 bytes");
  ok (uuid_from_bytes bytes).

Definition read_u32 (label : string) : Reader N :=
  n ← read_u64 label;
  lift (context (if n <=? u32_max then Some n else None) (label +:+ " overflow")).

Definition set_once {T} (slot : option T) (value : T) (field : string) : Result (option T) :=
  _ ← ensure (bool_decide (slot = None)) ("XL2 metadata contains duplicate " +:+ field);
  ok (Some value).

(** A loop of [len] elements pushed to a vector. *)
Definition read_list (n : N) (read : Reader N) : Reader (list N) :=
  for_loop (N.to_nat n) (λ acc, x ← read; mret (acc ++ [x])) [].

(** ** The [V2Obj] map *)
Record ObjectFields := mkObjectFields {
  of_version_id : option uuid;
  of_data_directory : option (option uuid);
  of_erasure_data_shards : option N;
  of_erasure_parity_shards : option N;
  of_erasure_index : option N;
  of_erasure_algorithm : option N;
  of_checksum_algorithm : option N;
  of_part_numbers : option (list N);
  of_part_sizes : option (list N);
}.
Global Instance eta_ObjectFields : Eta ObjectFields := λ r,
  mkObjectFields (of_version_id r) (of_data_directory r) (of_erasure_data_shards r)
    (of_erasure_parity_shards r) (of_erasure_index r) (of_erasure_algorithm r)
    (of_checksum_algorithm r) (of_part_numbers r) (of_part_sizes r).
Definition no_fields : ObjectFields := mkObjectFields None None None None None None None None None.

Definition parse_object_field (f : ObjectFields) : Reader ObjectFields :=
  key ← read_str "V2 object field";
  if bool_decide (key = "ID") then
    bytes ← read_bin "V2 object ID";
    id ← lift (uuid_from_bin bytes "V2 object ID");
    v ← lift (set_once (of_version_id f) id "ID"); mret (f <| of_version_id := v |>)
  else if bool_decide (key = "DDir") then
    bytes ← read_bin "V2 object data directory";
    id ← lift (uuid_from_bin bytes "DDir");
    v ← lift (set_once (of_data_directory f) (if uuid_is_nil id then None else Some id) "DDir");
    mret (f <| of_data_directory := v |>)
  else if bool_decide (key = "EcAlgo") then
    n ← read_u64 "V2 object erasure algorithm";
    v ← lift (set_once (of_erasure_algorithm f) n "EcAlgo"); mret (f <| of_erasure_algorithm := v |>)
  else if bool_decide (key = "EcM") then
    n ← read_u32 "V2 object EC data shards";
    v ← lift (set_once (of_erasure_data_shards f) n "EcM"); mret (f <| of_erasure_data_shards := v |>)
  else if bool_decide (key = "EcN") then
    n ← read_u32 "V2 object EC parity shards";
    v ← lift (set_once (of_erasure_parity_shards f) n "EcN"); mret (f <| of_erasure_parity_shards := v |>)
  else if bool_decide (key = "EcIndex") then
    n ← read_u32 "V2 object EC index";
    v ← lift (set_once (of_erasure_index f) n "EcIndex"); mret (f <| of_erasure_index := v |>)
  else if bool_decide (key = "CSumAlgo") then
    n ← read_u64 "V2 object checksum algorithm";
    v ← lift (set_once (of_checksum_algorithm f) n "CSumAlgo"); mret (f <| of_checksum_algorithm := v |>)
  else if bool_decide (key = "PartNums") then
    n ← read_array_len "V2 object part numbers";
    _ ← lift (ensure (n <=? MAX_PARTS) "V2 object part list exceeds inspection limit");
    parts ← read_list n (read_u32 "V2 object part number");
    v ← lift (set_once (of_part_numbers f) parts "PartNums"); mret (f <| of_part_numbers := v |>)
  else if bool_decide (key = "PartSizes") then
    n ← read_array_len "V2 object part sizes";
    _ ← lift (ensure (n <=? MAX_PARTS) "V2 object part-size list exceeds inspection limit");
    sizes ← read_list n (read_u64 "V2 object part size");
    v ← lift (set_once (of_part_sizes f) sizes "PartSizes"); mret (f <| of_part_sizes := v |>)
  else _ ← skip_value 0; mret f.

(** The checks and the assembly after the field loop. *)
Definition object_of_fields (f : ObjectFields) : Result ObjectLayout :=
  _ ← ensure (bool_decide (of_erasure_algorithm f = Some 1))
        "V2 object uses an unsupported erasure algorithm";
  _ ← ensure (bool_decide (of_checksum_algorithm f = Some 1))
        "V2 object uses an unsupported bitrot checksum algorithm";
  version_id ← context (of_version_id f) "V2 object lacks ID";
  data_directory ← context (of_data_directory f) "V2 object lacks DDir";
  erasure_data_shards ← context (of_erasure_data_shards f) "V2 object lacks EcM";
  erasure_parity_shards ← context (of_erasure_parity_shards f) "V2 object lacks EcN";
  erasure_index ← context (of_erasure_index f) "V2 object lacks EcIndex";
  part_numbers ← context (of_part_numbers f) "V2 object lacks PartNums";
  part_sizes ← context (of_part_sizes f) "V2 object lacks PartSizes";
  ok (mkObjectLayout 0 version_id data_directory erasure_data_shards erasure_parity_shards
        erasure_index part_numbers part_sizes).

Definition parse_object_body : Reader ObjectLayout :=
  nil ← read_nil;
  _ ← lift (ensure (negb nil) "XL2 object body is nil");
  fields ← read_map_len "V2 object";
  f ← for_loop (N.to_nat fields) parse_object_field no_fields;
  lift (object_of_fields f).

(** ** Version bodies and headers *)

(** Reads a whole slice with [f], requires that nothing is left over, and
    finishes with [g]. *)
Definition parse_all {A B} (f : Reader A) (trailing : string) (g : A → Result B) (bytes : list N) : Result B :=
  '(x, c) ← f (cursor_new bytes);
  _ ← ensure (is_finished c) trailing;
  g x.

Definition version_body_field (st : option N * option ObjectLayout) : Reader (option N * option ObjectLayout) :=
  let '(version_type, object) := st in
  key ← read_str "version metadata field";
  if bool_decide (key = "Type") then
    n ← read_u64 "version metadata type";
    v ← lift (set_once version_type n "Type"); mret (v, object)
  else if bool_decide (key = "V2Obj") then
    o ← parse_object_body;
    v ← lift (set_once object o "V2Obj"); mret (version_type, v)
  else _ ← skip_value 0; mret (version_type, object).
Definition parse_version_body : list N → Result ObjectLayout :=
  parse_all (fields ← read_map_len "version metadata";
             for_loop (N.to_nat fields) version_body_field (None, None))
    "XL2 version metadata has trailing bytes"
    (λ '(version_type, object),
      version_type ← context version_type "XL2 version metadata lacks Type";
      object ← context object "XL2 object version lacks V2Obj";
      ok (mkObjectLayout version_type (ol_version_id object) (ol_data_directory object)
            (ol_erasure_data_shards object) (ol_erasure_parity_shards object) (ol_erasure_index object)
            (ol_part_numbers object) (ol_part_sizes object))).

Definition version_type_field (version_type : option N) : Reader (option N) :=
  key ← read_str "version metadata field";
  if bool_decide (key = "Type") then
    n ← read_u64 "version metadata type";
    v ← lift (set_once version_type n "Type"); mret v
  else _ ← skip_value 0; mret version_type.
Definition parse_version_type : list N → Result N :=
  parse_all (fields ← read_map_len "version metadata";
             for_loop (N.to_nat fields) version_type_field None)
    "XL2 version metadata has trailing bytes"
    (λ version_type, context version_type "XL2 version metadata lacks Type").

Definition parse_version_header : list N → Result VersionHeader :=
  parse_all (n ← read_array_len "version header";
             _ ← lift (ensure (n =? 7) "XL2 version header must have seven fields");
             id ← read_bin "version header id";
             version_id ← lift (uuid_from_bin id "version header id");
             _ ← skip_value 0;
             signature ← read_bin "version header signature";
             _ ← lift (ensure (len signature =? 4) "XL2 version header signature must be four bytes");
             version_type ← read_u64 "version header type";
             flags ← read_u64 "version header flags";
             erasure_parity_shards ← read_u64 "version header EC parity";
             erasure_data_shards ← read_u64 "version header EC data";
             mret (mkVersionHeader version_id version_type flags erasure_parity_shards erasure_data_shards))
    "XL2 version header has trailing bytes" ok.

(** ** The envelope *)

(** [bytes[i]] and [&bytes[a..b]]. *)
Definition index (bytes : list N) (i : N) : Result N := expect (bytes !! N.to_nat i).
Definition slice (bytes : list N) (a b : N) : Result (list N) := expect (slice_get bytes a b).

Definition decode_envelope (bytes : list N) : Result (Xl2FormatProfile * list N) :=
  _ ← ensure (18 <=? len bytes) "xl.meta is truncated";
  magic ← slice bytes 0 4;
  _ ← ensure (bool_decide (magic = XL2_MAGIC)) "xl.meta has invalid XL2 magic";
  b4 ← index bytes 4; b5 ← index bytes 5; b6 ← index bytes 6; b7 ← index bytes 7;
  b8 ← index bytes 8;
  _ ← ensure (b8 =? 0xc6) "xl.meta metadata must use a bin32 frame";
  b9 ← index bytes 9; b10 ← index bytes 10; b11 ← index bytes 11; b12 ← index bytes 12;
  let metadata_len := from_be_bytes [b9; b10; b11; b12] in
  fits ← (if metadata_len <=? MAX_XL_META_BYTES then
            a ← add_u64 13 metadata_len; b ← add_u64 a 5; ok (b <=? len bytes)
          else ok false);
  _ ← ensure fits "xl.meta metadata frame is truncated or oversized";
  crc_offset ← add_u64 13 metadata_len;
  metadata ← slice bytes 13 crc_offset;
  frame ← index bytes crc_offset;
  _ ← ensure (frame =? 0xce) "xl.meta checksum must use a uint32 frame";
  o1 ← add_u64 crc_offset 1; o2 ← add_u64 crc_offset 2;
  o3 ← add_u64 crc_offset 3; o4 ← add_u64 crc_offset 4;
  c1 ← index bytes o1; c2 ← index bytes o2; c3 ← index bytes o3; c4 ← index bytes o4;
  let stored_crc := from_be_bytes [c1; c2; c3; c4] in
  _ ← ensure (stored_crc =? xxh64 metadata 0 `mod` 2 ^ 32) "xl.meta metadata checksum mismatch";
  '(h, c) ← read_u64 "XL2 header version" (cursor_new metadata);
  header_version ← context (if h <=? u8_max then Some h else None) "XL2 header version overflow";
  '(m, c) ← read_u64 "XL2 metadata version" c;
  metadata_version ← context (if m <=? u8_max then Some m else None) "XL2 metadata version overflow";
  ok (mkXl2FormatProfile (from_le_bytes [b4; b5]) (from_le_bytes [b6; b7])
        header_version metadata_version, metadata).

(** ** Layouts *)

(** [parts.iter().all(|part| *part > 0 && unique_parts.insert( *part))]. *)
Fixpoint positive_and_unique (seen : gset N) (parts : list N) : bool :=
  match parts with
  | [] => true
  | part :: parts =>
      (0 <? part) && bool_decide (part ∉ seen) && positive_and_unique ({[part]} ∪ seen) parts
  end.

Definition object_layout (profile : Xl2FormatProfile) (revision : string) (version_id : uuid)
    (object : ObjectLayout) : Result Xl2ObjectVersionLayout :=
  data_directory ← context (ol_data_directory object) "requested object version has no data directory";
  _ ← ensure ((0 <? ol_erasure_data_shards object) && (0 <? ol_erasure_parity_shards object)
              && (ol_erasure_parity_shards object <=? ol_erasure_data_shards object))
        "requested object version has invalid erasure geometry";
  total_shards ← context (checked_add32 (ol_erasure_data_shards object) (ol_erasure_parity_shards object))
                   "requested object version erasure geometry overflow";
  _ ← ensure ((0 <? ol_erasure_index object) && (ol_erasure_index object <=? total_shards))
        "requested object version has an invalid erasure index";
  _ ← ensure (negb (bool_decide (ol_part_numbers object = [])) && (len (ol_part_numbers object) <=? MAX_PARTS))
        "requested object version has no bounded part list";
  _ ← ensure ((len (ol_part_numbers object) =? len (ol_part_sizes object))
              && forallb (λ size, 0 <? size) (ol_part_sizes object))
        "requested object version has an invalid part-size vector";
  _ ← ensure (positive_and_unique ∅ (ol_part_numbers object))
        "requested object version has zero or duplicate part numbers";
  let directory := uuid_to_string data_directory in
  ok (mkXl2ObjectVersionLayout revision profile (uuid_to_string version_id) directory
        (ol_erasure_data_shards object) (ol_erasure_parity_shards object) (ol_erasure_index object)
        (ol_part_numbers object) (ol_part_sizes object)
        ((λ part, directory +:+ "/part." +:+ dec part) <$> ol_part_numbers object)).

(** ** The inventory *)
(** One iteration of the version loop, from the two frames it has read. *)
Definition frame_entry (profile : Xl2FormatProfile) (revision : string)
    (st : list Xl2InventoryVersionLayout * gset uuid) (header body : list N)
    : Result (list Xl2InventoryVersionLayout * gset uuid) :=
  let '(layouts, version_ids) := st in
  h ← parse_version_header header;
  _ ← ensure (bool_decide (vh_version_id h ∉ version_ids))
        "XL2 metadata contains a duplicate version id";
  let version_ids := {[vh_version_id h]} ∪ version_ids in
  if vh_version_type h =? 2 then
    agree ← (if N.land (vh_flags h) 6 =? 0 then
               t ← parse_version_type body; ok (t =? 2)
             else ok false);
    _ ← ensure agree "XL2 delete-marker header, flags, and body disagree";
    ok (layouts ++ [mkXl2InventoryVersionLayout (uuid_to_string (vh_version_id h))
                      Xl2InventoryVersionKind.DeleteMarker None], version_ids)
  else
    _ ← ensure (vh_version_type h =? 1) "XL2 metadata contains an unsupported version type";
    object ← parse_version_body body;
    _ ← ensure ((ol_version_type object =? 1) && bool_decide (ol_version_id object = vh_version_id h))
          "XL2 version header and object body disagree";
    _ ← ensure ((vh_erasure_data_shards h =? ol_erasure_data_shards object)
                && (vh_erasure_parity_shards h =? ol_erasure_parity_shards object))
          "XL2 version header and object erasure geometry disagree";
    let header_uses_data_directory := negb (N.land (vh_flags h) 2 =? 0) in
    let inline := negb (N.land (vh_flags h) 4 =? 0) in
    _ ← ensure (negb (header_uses_data_directory && inline))
          "XL2 object version cannot be both inline and data-directory flagged";
    '(kind, shard_layout) ←
      (if inline then
         _ ← ensure (bool_decide (ol_data_directory object = None))
               "inline XL2 object unexpectedly declares a data directory";
         ok (Xl2InventoryVersionKind.Inline, None)
       else
         layout ← object_layout profile revision (vh_version_id h) object;
         ok (Xl2InventoryVersionKind.ShardParts, Some layout));
    ok (layouts ++ [mkXl2InventoryVersionLayout (uuid_to_string (vh_version_id h)) kind shard_layout],
        version_ids).
Definition inspect_version (profile : Xl2FormatProfile) (revision : string)
    (st : list Xl2InventoryVersionLayout * gset uuid) : Reader (list Xl2InventoryVersionLayout * gset uuid) :=
  header ← read_bin "XL2 version header";
  body ← read_bin "XL2 version metadata";
  lift (frame_entry profile revision st header body).

Definition inspect_all_xl_meta (bytes : list N) : Result (list Xl2InventoryVersionLayout) :=
  _ ← ensure (negb (bool_decide (bytes = [])) && (len bytes <=? MAX_XL_META_BYTES))
        ("xl.meta size must be between 1 and " +:+ dec MAX_XL_META_BYTES +:+ " bytes");
  '(profile, metadata) ← decode_envelope bytes;
  revision ← profile_revision profile;
  parse_all (header_version ← read_u64 "XL2 header version";
             metadata_version ← read_u64 "XL2 metadata version";
             version_count ← read_u64 "XL2 version count";
             _ ← lift (ensure ((header_version =? fp_header_version profile)
                               && (metadata_version =? fp_metadata_version profile))
                         "XL2 envelope and metadata capability profile disagree");
             version_count ← lift (context (usize_try_from version_count) "XL2 version count overflow");
             _ ← lift (ensure (version_count <=? MAX_VERSIONS) "XL2 version count exceeds inspection limit");
             for_loop (N.to_nat version_count) (inspect_version profile revision) ([], ∅))
    "XL2 metadata has trailing version bytes" (λ '(layouts, _), ok layouts) metadata.

Definition inspect_xl_meta (bytes : list N) (requested_version_id : string) : Result Xl2ObjectVersionLayout :=
  _ ← ensure (negb (bool_decide (bytes = [])) && (len bytes <=? MAX_XL_META_BYTES))
        ("xl.meta size must be between 1 and " +:+ dec MAX_XL_META_BYTES +:+ " bytes");
  requested ← context (uuid_parse_str requested_version_id)
                "offline XL2 inspection requires an explicit UUID version id";
  _ ← ensure (negb (uuid_is_nil requested)) "offline XL2 inspection does not target null versions";
  layouts ← inspect_all_xl_meta bytes;
  let matched := filter (λ l, iv_version_id l = uuid_to_string requested) layouts in
  layout ← context (head matched) "requested object version is absent from xl.meta";
  _ ← ensure (bool_decide (tail matched = [])) "requested XL2 version is duplicated";
  context (iv_shard_layout layout) "requested object version is inline and has no shard part path".

(** ** [format.json] *)

(** The [map] over the drives of every set, in order. *)
Definition format_drives (ids : list string) : Result (list uuid) :=
  '(drives, _) ← try_fold (λ '(drives, seen) id,
      id ← context (uuid_parse_str id) "format.json XL set entry is not a UUID";
      _ ← ensure (negb (uuid_is_nil id)) "format.json XL set contains a nil drive UUID";
      _ ← ensure (bool_decide (id ∉ seen)) "format.json XL sets contain a duplicate drive UUID";
      ok (drives ++ [id], {[id]} ∪ seen)) ([], ∅ : gset uuid) ids;
  ok drives.

Definition validate_format_json_drive (bytes : list N)
    (expected_deployment_id expected_drive_uuid : string) : Result unit :=
  _ ← ensure (negb (bool_decide (bytes = [])) && (len bytes <=? 1024 * 1024))
        "format.json is empty or oversized";
  expected_deployment ← context (uuid_parse_str expected_deployment_id)
                          "expected RustFS deployment id is not a UUID";
  expected_drive ← context (uuid_parse_str expected_drive_uuid)
                     "expected RustFS drive id is not a UUID";
  _ ← ensure (negb (uuid_is_nil expected_deployment) && negb (uuid_is_nil expected_drive))
        "expected RustFS deployment or drive id is nil";
  format ← context (format_from_slice bytes) "decode latest RustFS format.json";
  let erasure := rf_erasure format in
  deployment ← context (uuid_parse_str (rf_id format)) "RustFS format.json deployment id is not a UUID";
  drive ← context (uuid_parse_str (ef_this erasure)) "RustFS format.json drive id is not a UUID";
  _ ← ensure (bool_decide (rf_version format = LATEST_RUSTFS_FORMAT_META_VERSION)
              && (bool_decide (rf_backend format = "xl") || bool_decide (rf_backend format = "xl-single"))
              && bool_decide (deployment = expected_deployment)
              && bool_decide (ef_version erasure = LATEST_RUSTFS_ERASURE_FORMAT_VERSION)
              && bool_decide (drive = expected_drive)
              && bool_decide (ef_distribution_algo erasure = LATEST_RUSTFS_DISTRIBUTION_ALGORITHM))
        "format.json does not match the latest RustFS format profile or expected deployment/drive identity";
  _ ← ensure (negb (bool_decide (ef_sets erasure = []))
              && forallb (λ set, negb (bool_decide (set = []))) (ef_sets erasure))
        "format.json has no complete XL sets";
  set0 ← expect (ef_sets erasure !! 0%nat);
  let set_width := len set0 in
  _ ← ensure (forallb (λ set, len set =? set_width) (ef_sets erasure))
        "format.json XL sets do not have a uniform width";
  drives ← format_drives (concat (ef_sets erasure));
  let occurrences := len (filter (λ id, id = expected_drive) drives) in
  _ ← ensure (occurrences =? 1) "format.json must contain the expected drive exactly once";
  ensure (Bool.eqb (bool_decide (rf_backend format = "xl-single"))
            (forallb (λ set, len set =? 1) (ef_sets erasure)))
    "format.json backend does not match the latest RustFS set width".

End Inspector.
