(* ===== verification/Xl2Facts.v ===== *)
(** * The files the XL2 inspector accepts

    A declarative grammar of the supported [xl.meta] profile, and the proof that
    [inspect_all_xl_meta] accepts exactly the files of the grammar, names exactly
    their versions and never panics. *)
From S2P Require Import Prelude RustText Quorum Msgpack MsgpackFacts Xl2Inspector.
From stdpp Require Import options.
Local Open Scope N_scope.

Section Facts.
Context `{Henv : Xl2Env}.

Lemma parse_all_ok {A B} (f : Reader A) E msg (g : A → Result B) bytes y :
  decodes f E → bytes_ok bytes → len bytes ≤ slice_max →
  parse_all f msg g bytes = ok y ↔ ∃ x, E bytes x ∧ g x = ok y.
Proof using.
  clear Henv. intros Hf Hok Hlen. destruct (Hf [] bytes Hlen Hok) as [Hiff _]. unfold parse_all.
  change (cursor_new bytes) with (cur [] bytes). rewrite bind_ok. split.
  - intros ([x c] & Hr & Hfin). apply Hiff in Hr as (e & rest & -> & -> & He).
    apply bind_ensure_ok in Hfin as [->%is_finished_cur Hg]. rewrite app_nil_r. by exists x.
  - intros (x & HE & Hg). exists (x, cur bytes []). split.
    + apply Hiff. exists bytes, []. by rewrite app_nil_r.
    + apply bind_ensure_ok. by rewrite is_finished_cur.
Qed.
Lemma parse_all_safe {A B} (f : Reader A) E msg (g : A → Result B) bytes :
  decodes f E → bytes_ok bytes → len bytes ≤ slice_max → (∀ x, E bytes x → g x ≠ panicked) →
  parse_all f msg g bytes ≠ panicked.
Proof using.
  clear Henv. intros Hf Hok Hlen Hg. destruct (Hf [] bytes Hlen Hok) as [Hiff Hsafe]. unfold parse_all.
  change (cursor_new bytes) with (cur [] bytes).
  destruct (f (cur [] bytes)) as [[x c]|?|] eqn:Ef; [|done|done]. run_result.
  destruct (proj1 (Hiff _ _) eq_refl) as (e & rest & -> & -> & He).
  destruct (is_finished (cur ([] ++ e) rest)) eqn:Hfin; [|done]. run_result.
  apply is_finished_cur in Hfin as ->. apply Hg. by rewrite app_nil_r.
Qed.

(** ** Typed values *)
Definition dec_uuid (v : list N) (id : uuid) : Prop :=
  ∃ b, enc_bin v b ∧ len b = 16 ∧ id = uuid_from_bytes b.
Definition dec_ddir (v : list N) (dir : option uuid) : Prop :=
  ∃ id, dec_uuid v id ∧ dir = if uuid_is_nil id then None else Some id.
Definition dec_u32 (v : list N) (n : N) : Prop := enc_u64 v n ∧ n ≤ u32_max.
Definition dec_list (dec : list N → N → Prop) (v : list N) (l : list N) : Prop :=
  ∃ head es, v = head ++ concat es ∧ enc_array_len head (len l) ∧ len l ≤ MAX_PARTS ∧ Forall2 dec es l.

Lemma decodes_uuid l1 l2 : decodes (bytes ← read_bin l1; lift (uuid_from_bin bytes l2)) dec_uuid.
Proof using.
  eapply decodes_equiv.
  { apply decodes_bind; [apply decodes_read_bin|]. intros b. apply decodes_lift.
    unfold uuid_from_bin. by destruct (len b =? 16). }
  cbv beta. intros e id _. unfold dec_uuid, uuid_from_bin. split.
  - intros (e1 & ? & b & -> & Hb & -> & Hid). rewrite app_nil_r. exists b.
    destruct (N.eqb_spec (len b) 16); [|done]. by injection Hid as <-.
  - intros (b & Hb & Hl & ->). exists e, [], b. rewrite app_nil_r, Hl. done.
Qed.
Lemma decodes_read_u32 label : decodes (read_u32 label) dec_u32.
Proof using.
  clear Henv. eapply decodes_equiv.
  { apply decodes_bind; [apply decodes_read_u64|]. intros n. apply decodes_lift.
    by destruct (n <=? u32_max). }
  cbv beta. intros e n _. unfold dec_u32. split.
  - intros (e1 & ? & m & -> & Hm & -> & Hn). rewrite app_nil_r.
    destruct (N.leb_spec m u32_max); [|done]. by injection Hn as <-.
  - intros [Hn Hle]. exists e, [], n. by rewrite app_nil_r, (proj2 (N.leb_le _ _) Hle).
Qed.

Lemma loop_enc_list (E : list N → N → Prop) n acc e l :
  loop_enc n (λ acc, seq_enc E (λ x, pure_enc (acc ++ [x]))) acc e l ↔
  ∃ es k, length k = n ∧ e = concat es ∧ l = acc ++ k ∧ Forall2 E es k.
Proof using.
  clear Henv. revert acc e. induction n as [|n IH]; intros acc e; cbn [loop_enc].
  - unfold pure_enc. split.
    + intros [-> ->]. exists [], []. by rewrite app_nil_r.
    + intros (es & [|??] & ? & -> & -> & H); [|done]. apply Forall2_nil_inv_r in H as ->. by rewrite app_nil_r.
  - split.
    + intros (e1 & e2 & acc' & -> & (e3 & ? & x & -> & Hx & -> & ->) & H2).
      apply IH in H2 as (es & k & <- & -> & -> & Hk). exists (e3 :: es), (x :: k).
      rewrite app_nil_r, <-app_assoc. split_and!; [done..|]. by constructor.
    + intros (es & [|x k] & Hl & -> & -> & H); [done|].
      apply Forall2_cons_inv_r in H as (e1 & es' & Hx & Hk & ->).
      exists e1, (concat es'), (acc ++ [x]). split_and!; [done| |].
      * exists e1, [], x. by rewrite app_nil_r.
      * apply IH. exists es', k. rewrite <-app_assoc. naive_solver lia.
Qed.
Lemma decodes_list {B} l1 msg (read : Reader N) (dec : list N → N → Prop) (g : list N → Reader B) F :
  decodes read dec → (∀ l, decodes (g l) (F l)) →
  decodes (n ← read_array_len l1; _ ← lift (ensure (n <=? MAX_PARTS) msg);
           l ← read_list n read; g l) (seq_enc (dec_list dec) F).
Proof using.
  clear Henv. intros Hr Hg. eapply decodes_equiv.
  { apply decodes_bind; [apply decodes_read_array_len|]. intros n.
    apply decodes_ensure. intros _.
    apply decodes_bind; [|exact Hg].
    unfold read_list. apply decodes_for_loop. intros acc.
    apply decodes_bind; [exact Hr|]. intros x. apply decodes_ret. }
  cbv beta. intros e y _. split.
  - intros (head & e2 & n & -> & Hn & Hle%N.leb_le & e3 & e4 & l & -> & Hl & HF).
    apply loop_enc_list in Hl as (es & k & Hk & -> & -> & Hes).
    exists (head ++ concat es), e4, k. rewrite <-app_assoc. split_and!; [done| |done].
    exists head, es. replace (len k) with n by (unfold len; lia). by split_and!.
  - intros (e1 & e2 & l & -> & (head & es & -> & Hh & Hle & Hes) & HF).
    exists head, (concat es ++ e2), (len l). rewrite <-app_assoc. split_and!; [done..|by apply N.leb_le|].
    exists (concat es), e2, l. split_and!; [done| |done].
    apply loop_enc_list. exists es, l. unfold len. split_and!; [lia|done..].
Qed.

(** ** Maps of named fields *)
Inductive enc_fields : list N → list (string * list N) → Prop :=
| ef_nil : enc_fields [] []
| ef_cons k key v e fs : enc_str k key → enc_fields e fs →
    enc_fields (k ++ v ++ e) ((key, v) :: fs).
Definition enc_map (e : list N) (fs : list (string * list N)) : Prop :=
  ∃ head fields, e = head ++ fields ∧ enc_map_len head (len fs) ∧ enc_fields fields fs.

(** The key occurs exactly once, with a value [dec] relates to [x]. *)
Definition once {X} (fs : list (string * list N)) (key : string) (dec : list N → X → Prop) (x : X) : Prop :=
  ∃ v, filter (λ f, f.1 = key) fs = [(key, v)] ∧ dec v x.

Inductive steps {S} (step : S → string → list N → S → Prop) : S → list (string * list N) → S → Prop :=
| steps_nil s : steps step s [] s
| steps_cons s key v fs s1 s' : step s key v s1 → steps step s1 fs s' → steps step s ((key, v) :: fs) s'.

Lemma loop_enc_fields {S} (step : S → string → list N → S → Prop) n s e s' :
  loop_enc n (λ s, seq_enc enc_str (λ key v s', step s key v s')) s e s' ↔
  ∃ fs, length fs = n ∧ enc_fields e fs ∧ steps step s fs s'.
Proof using.
  clear Henv. revert s e. induction n as [|n IH]; intros s e; cbn [loop_enc].
  - split.
    + intros [-> ->]. exists []. split_and!; [done|constructor|constructor].
    + intros ([|??] & ? & He & Hs); [|done]. inversion He; inversion Hs; subst. done.
  - split.
    + intros (e1 & e2 & s1 & -> & (k & v & key & -> & Hk & Hstep) & H2).
      apply IH in H2 as (fs & <- & Hfs & Hs). exists ((key, v) :: fs). rewrite <-app_assoc.
      split_and!; [done|by constructor|by econstructor].
    + intros (fs & Hn & He & Hs). destruct fs as [|[key v] fs]; [done|].
      inversion He as [|k ? ? e' ? Hk He']; subst. inversion Hs as [|? ? ? ? s1 ? H1 H2]; subst.
      exists (k ++ v), e', s1. rewrite <-app_assoc. split_and!; [done| |].
      * by exists k, v, key.
      * apply IH. exists fs. naive_solver lia.
Qed.

(** One field read into one slot. *)
Definition slot_step {X} (K : string) (dec : list N → X → Prop) (s : option X) (key : string)
    (v : list N) (s' : option X) : Prop :=
  if decide (key = K) then s = None ∧ ∃ x, dec v x ∧ s' = Some x else s' = s.

Lemma slot_steps_cons {X} K (dec : list N → X → Prop) s key v fs s' :
  steps (slot_step K dec) s ((key, v) :: fs) s' ↔
  ∃ s1, slot_step K dec s key v s1 ∧ steps (slot_step K dec) s1 fs s'.
Proof using.
  clear Henv. split; [inversion 1; subst; eauto|]. intros (s1 & ? & ?). by econstructor.
Qed.
Lemma slot_steps_nil {X} K (dec : list N → X → Prop) s s' : steps (slot_step K dec) s [] s' ↔ s' = s.
Proof using. clear Henv. split; [by inversion 1|]. intros ->. constructor. Qed.
Lemma slot_steps_full {X} K (dec : list N → X → Prop) x fs s' :
  steps (slot_step K dec) (Some x) fs s' ↔ filter (λ f, f.1 = K) fs = [] ∧ s' = Some x.
Proof using.
  clear Henv. induction fs as [|[key v] fs IH]; [rewrite slot_steps_nil; naive_solver|].
  rewrite slot_steps_cons, filter_cons. unfold slot_step. cbn [fst]. case_decide; naive_solver.
Qed.
Lemma slot_steps_once {X} K (dec : list N → X → Prop) fs x :
  steps (slot_step K dec) None fs (Some x) ↔ once fs K dec x.
Proof using.
  clear Henv. unfold once. induction fs as [|[key v] fs IH].
  { rewrite slot_steps_nil. naive_solver. }
  rewrite slot_steps_cons, filter_cons. unfold slot_step at 1. cbn [fst]. case_decide as Hk.
  - subst key. split.
    + intros (s1 & (_ & y & Hy & ->) & [Hnil [= ->]]%slot_steps_full). rewrite Hnil. eauto.
    + intros (w & [= -> Hnil] & Hd). exists (Some x). split; [eauto|]. by apply slot_steps_full.
  - rewrite <-IH. naive_solver.
Qed.

Definition slot_enc {X Y} (dec : list N → X → Prop) (s : option X) (upd : option X → Y)
    (e : list N) (y : Y) : Prop := s = None ∧ ∃ x, dec e x ∧ y = upd (Some x).
Lemma decodes_set {X Y} (s : option X) x K (upd : option X → Y) :
  decodes (v ← lift (set_once s x K); mret (upd v)) (slot_enc (λ e y, e = [] ∧ y = x) s upd).
Proof using.
  clear Henv. eapply decodes_equiv.
  { apply decodes_bind; [|intros v; apply decodes_ret]. apply decodes_lift.
    unfold set_once. by case_bool_decide. }
  cbv beta. intros e y _. unfold set_once, slot_enc. split.
  - intros (? & ? & v & -> & [-> Hv] & -> & ->).
    apply bind_ensure_ok in Hv as [Hs%bool_decide_eq_true [= <-]]. naive_solver.
  - intros (-> & ? & [-> ->] & ->). by exists [], [], (Some x).
Qed.
Lemma seq_slot {X Y Z} (dec : list N → X → Prop) (h : X → Z) (s : option Z) (upd : option Z → Y) e y :
  seq_enc dec (λ x, slot_enc (λ e z, e = [] ∧ z = h x) s upd) e y ↔
  slot_enc (λ e z, ∃ x, dec e x ∧ z = h x) s upd e y.
Proof using.
  clear Henv. unfold slot_enc. split.
  - intros (e1 & ? & x & -> & Hx & -> & ? & [-> ->] & ->). rewrite app_nil_r. naive_solver.
  - intros (-> & ? & (x & Hx & ->) & ->). exists e, [], x. rewrite app_nil_r. naive_solver.
Qed.
Lemma decodes_slot {X Y Z} (r : Reader X) (dec : list N → X → Prop) (h : X → Z) (s : option Z) K
    (upd : option Z → Y) :
  decodes r dec →
  decodes (x ← r; v ← lift (set_once s (h x) K); mret (upd v))
    (slot_enc (λ e z, ∃ x, dec e x ∧ z = h x) s upd).
Proof using.
  clear Henv. intros Hr. eapply decodes_equiv.
  { apply decodes_bind; [exact Hr|]. intros x. apply decodes_set. }
  intros e y _. apply seq_slot.
Qed.
Lemma decodes_slot_id {X Y} (r : Reader X) (dec : list N → X → Prop) (s : option X) K (upd : option X → Y) :
  decodes r dec →
  decodes (x ← r; v ← lift (set_once s x K); mret (upd v)) (slot_enc dec s upd).
Proof using.
  clear Henv. intros Hr. eapply decodes_equiv; [by apply (decodes_slot r dec (λ x, x))|].
  intros e y _. unfold slot_enc. naive_solver.
Qed.
Lemma decodes_slot_list {Y} l1 msg (read : Reader N) (dec : list N → N → Prop) s K (upd : option (list N) → Y) :
  decodes read dec →
  decodes (n ← read_array_len l1; _ ← lift (ensure (n <=? MAX_PARTS) msg); l ← read_list n read;
           v ← lift (set_once s l K); mret (upd v)) (slot_enc (dec_list dec) s upd).
Proof using.
  clear Henv. intros Hr. eapply decodes_equiv.
  { apply (decodes_list l1 msg read dec); [exact Hr|]. intros l. apply decodes_set. }
  intros e y _. rewrite (seq_slot (dec_list dec) (λ l, l)). unfold slot_enc. naive_solver.
Qed.
Lemma decodes_skip {Y} (y : Y) : decodes (_ ← skip_value 0; mret y) (λ e y', mp_value 32 e ∧ y' = y).
Proof using.
  clear Henv. eapply decodes_equiv.
  { apply decodes_bind; [apply (decodes_skip_value_at 32)|]. intros u. apply decodes_ret. }
  cbv beta. intros e y' _. split.
  - intros (e1 & ? & [] & -> & H & -> & ->). by rewrite app_nil_r.
  - intros [H ->]. exists e, [], tt. by rewrite app_nil_r.
Qed.

(** ** The object body *)
Definition object_keys : list string :=
  ["ID"; "DDir"; "EcAlgo"; "EcM"; "EcN"; "EcIndex"; "CSumAlgo"; "PartNums"; "PartSizes"].
Definition object_step (f : ObjectFields) (key : string) (v : list N) (f' : ObjectFields) : Prop :=
  slot_step "ID" dec_uuid (of_version_id f) key v (of_version_id f') ∧
  slot_step "DDir" dec_ddir (of_data_directory f) key v (of_data_directory f') ∧
  slot_step "EcAlgo" enc_u64 (of_erasure_algorithm f) key v (of_erasure_algorithm f') ∧
  slot_step "EcM" dec_u32 (of_erasure_data_shards f) key v (of_erasure_data_shards f') ∧
  slot_step "EcN" dec_u32 (of_erasure_parity_shards f) key v (of_erasure_parity_shards f') ∧
  slot_step "EcIndex" dec_u32 (of_erasure_index f) key v (of_erasure_index f') ∧
  slot_step "CSumAlgo" enc_u64 (of_checksum_algorithm f) key v (of_checksum_algorithm f') ∧
  slot_step "PartNums" (dec_list dec_u32) (of_part_numbers f) key v (of_part_numbers f') ∧
  slot_step "PartSizes" (dec_list enc_u64) (of_part_sizes f) key v (of_part_sizes f') ∧
  (key ∉ object_keys → mp_value 32 v).

(** A key of the map goes to its own slot and leaves the others alone. *)
Ltac known_key :=
  let e := fresh in let f' := fresh "f'" in
  intros e f' _; unfold slot_enc, object_step, slot_step;
  repeat first [rewrite decide_True by done | rewrite decide_False by done];
  split;
  [ let Hs := fresh in let x := fresh in let Hx := fresh in intros (Hs & x & Hx & ->);
    split_and!; eauto; intros Hk; destruct Hk; unfold object_keys; set_solver
  | let H := fresh in intros H; destruct_and! H; split; [done|];
    select (∃ _, _) (fun H => destruct H as (? & ? & ?));
    eexists; split; [eassumption|];
    repeat match goal with r : ObjectFields |- _ => destruct r end; cbn in *; subst; reflexivity ].

Lemma decodes_object_field f :
  decodes (parse_object_field f) (seq_enc enc_str (λ key v f', object_step f key v f')).
Proof using.
  unfold parse_object_field. apply decodes_bind; [apply decodes_read_str|]. intros key.
  repeat case_bool_decide; subst.
  - eapply decodes_equiv.
    { apply decodes_assoc, (decodes_slot_id _ dec_uuid _ _ (λ v, f <| of_version_id := v |>)), decodes_uuid. }
    known_key.
  - eapply decodes_equiv.
    { apply decodes_assoc.
    apply (decodes_slot _ dec_uuid (λ id, if uuid_is_nil id then None else Some id) _ _
             (λ v, f <| of_data_directory := v |>)), decodes_uuid. }
    known_key.
  - eapply decodes_equiv.
    { apply (decodes_slot_id _ enc_u64 _ _ (λ v, f <| of_erasure_algorithm := v |>)), decodes_read_u64. }
    known_key.
  - eapply decodes_equiv.
    { apply (decodes_slot_id _ dec_u32 _ _ (λ v, f <| of_erasure_data_shards := v |>)), decodes_read_u32. }
    known_key.
  - eapply decodes_equiv.
    { apply (decodes_slot_id _ dec_u32 _ _ (λ v, f <| of_erasure_parity_shards := v |>)), decodes_read_u32. }
    known_key.
  - eapply decodes_equiv.
    { apply (decodes_slot_id _ dec_u32 _ _ (λ v, f <| of_erasure_index := v |>)), decodes_read_u32. }
    known_key.
  - eapply decodes_equiv.
    { apply (decodes_slot_id _ enc_u64 _ _ (λ v, f <| of_checksum_algorithm := v |>)), decodes_read_u64. }
    known_key.
  - eapply decodes_equiv.
    { apply (decodes_slot_list _ _ _ dec_u32 _ _ (λ v, f <| of_part_numbers := v |>)), decodes_read_u32. }
    known_key.
  - eapply decodes_equiv.
    { apply (decodes_slot_list _ _ _ enc_u64 _ _ (λ v, f <| of_part_sizes := v |>)), decodes_read_u64. }
    known_key.
  - eapply decodes_equiv; [apply decodes_skip|].
    intros e f' _. unfold object_step, slot_step. rewrite !decide_False by done. split.
    + intros [Hv ->]. by split_and!.
    + intros H'. destruct_and! H'. split.
      * select (_ → mp_value _ _) (fun H => apply H). unfold object_keys. set_solver.
      * destruct f, f'; cbn in *; by subst.
Qed.

(** The loop fills each slot by itself. *)
Definition object_slots (f : ObjectFields) (fs : list (string * list N)) (f' : ObjectFields) : Prop :=
  steps (slot_step "ID" dec_uuid) (of_version_id f) fs (of_version_id f') ∧
  steps (slot_step "DDir" dec_ddir) (of_data_directory f) fs (of_data_directory f') ∧
  steps (slot_step "EcAlgo" enc_u64) (of_erasure_algorithm f) fs (of_erasure_algorithm f') ∧
  steps (slot_step "EcM" dec_u32) (of_erasure_data_shards f) fs (of_erasure_data_shards f') ∧
  steps (slot_step "EcN" dec_u32) (of_erasure_parity_shards f) fs (of_erasure_parity_shards f') ∧
  steps (slot_step "EcIndex" dec_u32) (of_erasure_index f) fs (of_erasure_index f') ∧
  steps (slot_step "CSumAlgo" enc_u64) (of_checksum_algorithm f) fs (of_checksum_algorithm f') ∧
  steps (slot_step "PartNums" (dec_list dec_u32)) (of_part_numbers f) fs (of_part_numbers f') ∧
  steps (slot_step "PartSizes" (dec_list enc_u64)) (of_part_sizes f) fs (of_part_sizes f') ∧
  Forall (λ x, x.1 ∉ object_keys → mp_value 32 x.2) fs.

Lemma steps_object f fs f' : steps object_step f fs f' ↔ object_slots f fs f'.
Proof using.
  revert f. induction fs as [|[key v] fs IH]; intros f; unfold object_slots.
  - rewrite !slot_steps_nil. split.
    + inversion 1; subst. by repeat constructor.
    + intros H. destruct_and! H. replace f' with f; [constructor|].
      destruct f, f'; cbn in *; by subst.
  - rewrite !slot_steps_cons. split.
    + inversion 1 as [|? ? ? ? f1 ? Hstep Hrest]; subst. apply IH in Hrest.
      unfold object_slots, object_step in *. destruct_and! Hrest. destruct_and! Hstep.
      split_and!; eauto.
    + intros ((s1&?&?)&(s2&?&?)&(s3&?&?)&(s4&?&?)&(s5&?&?)&(s6&?&?)&(s7&?&?)&(s8&?&?)&(s9&?&?)&[Hv Hvs]%Forall_cons).
      apply (steps_cons _ _ _ _ _ (mkObjectFields s1 s2 s4 s5 s6 s3 s7 s8 s9)).
      * unfold object_step; cbn; by split_and!.
      * apply IH. unfold object_slots; cbn; by split_and!.
Qed.

(** The fields of a [V2Obj] map that describe the object. *)
Record object_described (fs : list (string * list N)) (o : ObjectLayout) : Prop := {
  od_type : ol_version_type o = 0;
  od_id : once fs "ID" dec_uuid (ol_version_id o);
  od_directory : once fs "DDir" dec_ddir (ol_data_directory o);
  od_erasure : once fs "EcAlgo" enc_u64 1;
  od_data : once fs "EcM" dec_u32 (ol_erasure_data_shards o);
  od_parity : once fs "EcN" dec_u32 (ol_erasure_parity_shards o);
  od_index : once fs "EcIndex" dec_u32 (ol_erasure_index o);
  od_checksum : once fs "CSumAlgo" enc_u64 1;
  od_parts : once fs "PartNums" (dec_list dec_u32) (ol_part_numbers o);
  od_sizes : once fs "PartSizes" (dec_list enc_u64) (ol_part_sizes o);
  od_others : Forall (λ x, x.1 ∉ object_keys → mp_value 32 x.2) fs;
}.
Definition object_grammar (e : list N) (o : ObjectLayout) : Prop :=
  ∃ fs, enc_map e fs ∧ object_described fs o.

Lemma object_of_fields_ok f o :
  object_of_fields f = ok o ↔
  f = mkObjectFields (Some (ol_version_id o)) (Some (ol_data_directory o)) (Some (ol_erasure_data_shards o))
        (Some (ol_erasure_parity_shards o)) (Some (ol_erasure_index o)) (Some 1) (Some 1)
        (Some (ol_part_numbers o)) (Some (ol_part_sizes o)) ∧ ol_version_type o = 0.
Proof using.
  unfold object_of_fields. rewrite !bind_ensure_ok, !bool_decide_eq_true.
  setoid_rewrite bind_context_ok. setoid_rewrite bind_context_ok. setoid_rewrite bind_context_ok.
  setoid_rewrite bind_context_ok. setoid_rewrite bind_context_ok. setoid_rewrite bind_context_ok.
  setoid_rewrite bind_context_ok. split.
  - intros H. decompose [and ex] H. destruct f; cbn in *; simplify_eq; cbn. done.
  - intros [-> Ht]. cbn. destruct o as [t ? ? ? ? ? ? ?]; cbn in *; subst t. naive_solver.
Qed.
Lemma object_of_fields_safe f : object_of_fields f ≠ panicked.
Proof using.
  unfold object_of_fields. apply bind_ensure_not_panicked; intros _. apply bind_ensure_not_panicked; intros _.
  by repeat (apply bind_context_not_panicked; intros ?).
Qed.

(** [read_nil] only peeks: a body that is not nil is read by [read_map_len]. *)
Lemma enc_map_len_not_nil e n : enc_map_len e n → head e ≠ Some 0xc0.
Proof using.
  clear Henv. intros [k Hk|m k e' Hm Hl]; cbn [head].
  - intros [= Heq]. lia.
  - intros [= ->]. revert Hm. set_solver.
Qed.
Lemma read_nil_false pre rest : head rest ≠ Some 0xc0 → read_nil (cur pre rest) = ok (false, cur pre rest).
Proof using.
  clear Henv. intros Hh. unfold read_nil. cbn [cur mc_bytes mc_offset].
  rewrite lookup_app_r by (unfold len; lia).
  replace (N.to_nat (len pre) - length pre)%nat with 0%nat by (unfold len; lia).
  rewrite bool_decide_eq_false_2; [done|]. by destruct rest.
Qed.
Lemma read_nil_true pre rest : len (pre ++ 0xc0 :: rest) ≤ slice_max →
  read_nil (cur pre (0xc0 :: rest)) = ok (true, cur (pre ++ [0xc0]) rest).
Proof using.
  clear Henv. intros Hlen. unfold read_nil. cbn [cur mc_bytes mc_offset].
  rewrite lookup_app_r by (unfold len; lia).
  replace (N.to_nat (len pre) - length pre)%nat with 0%nat by (unfold len; lia).
  rewrite bool_decide_eq_true_2 by done. pose proof slice_max_lt. rewrite len_app, len_cons in Hlen.
  unfold add_u64, checked_add64. rewrite decide_True by lia. run_result.
  unfold cur. by rewrite <-app_assoc, len_app.
Qed.
Lemma decodes_object_head msg label :
  decodes (nil ← read_nil; _ ← lift (ensure (negb nil) msg); read_map_len label) enc_map_len.
Proof using.
  clear Henv. intros pre rest Hlen Hok.
  destruct (decodes_read_map_len label pre rest Hlen Hok) as [Hiff Hsafe].
  unfold mbind, Reader_bind. destruct (decide (head rest = Some 0xc0)) as [Hh|Hh].
  - destruct rest as [|b rest]; [done|]. injection Hh as ->.
    rewrite read_nil_true by done. split; [|done]. intros x c'. split; [done|].
    intros (e & rest' & Heq & _ & He). pose proof (enc_map_len_not_nil _ _ He) as Hne.
    destruct e as [|b e]; [by inversion He|]. by injection Heq as <- _.
  - by rewrite (read_nil_false pre rest Hh).
Qed.

Lemma decodes_object_body : decodes parse_object_body object_grammar.
Proof using.
  eapply decodes_equiv.
  { unfold parse_object_body.
    eapply (decodes_ext (((nil ← read_nil; _ ← lift (ensure (negb nil) "XL2 object body is nil");
                           read_map_len "V2 object") ≫= λ fields,
                          for_loop (N.to_nat fields) parse_object_field no_fields) ≫= λ f,
                         lift (object_of_fields f))).
    { intros c. unfold mbind, Reader_bind. destruct (read_nil c) as [[[] c']|?|]; [done| |done..].
      cbn [negb ensure lift]. by destruct (read_map_len _ c') as [[??]|?|]. }
    apply decodes_bind; [|intros f; apply decodes_lift, object_of_fields_safe].
    apply decodes_bind; [apply decodes_object_head|]. intros n.
    apply decodes_for_loop. intros f. apply decodes_object_field. }
  cbv beta. intros e o _. unfold object_grammar, enc_map. split.
  - intros (e1 & ? & f & -> & (hd & fields & n & -> & Hn & Hl) & -> & Ho). rewrite app_nil_r.
    apply loop_enc_fields in Hl as (fs & Hlen & Hfs & Hs). exists fs. split.
    + exists hd, fields. split_and!; [done| |done]. by replace (len fs) with n by (unfold len; lia).
    + apply steps_object in Hs. apply object_of_fields_ok in Ho as [-> Ht].
      unfold object_slots in Hs. cbn in Hs. rewrite !slot_steps_once in Hs.
      destruct_and! Hs. by constructor.
  - intros (fs & (hd & fields & -> & Hn & Hfs) & [Ht H1 H2 H3 H4 H5 H6 H7 H8 H9 H10]).
    eexists (hd ++ fields), [], _. rewrite app_nil_r. split_and!; [done| |done|by apply object_of_fields_ok].
    exists hd, fields, (len fs). split_and!; [done..|]. apply loop_enc_fields.
    exists fs. split_and!; [unfold len; lia|done|]. apply steps_object.
    unfold object_slots. cbn. rewrite !slot_steps_once. by split_and!.
Qed.

(** ** Version bodies *)
Definition body_step (s : option N * option ObjectLayout) (key : string) (v : list N)
    (s' : option N * option ObjectLayout) : Prop :=
  slot_step "Type" enc_u64 s.1 key v s'.1 ∧ slot_step "V2Obj" object_grammar s.2 key v s'.2 ∧
  (key ∉ ["Type"; "V2Obj"] → mp_value 32 v).
Definition type_step (s : option N) (key : string) (v : list N) (s' : option N) : Prop :=
  slot_step "Type" enc_u64 s key v s' ∧ (key ∉ ["Type"] → mp_value 32 v).

Lemma decodes_body_field s :
  decodes (version_body_field s) (seq_enc enc_str (λ key v s', body_step s key v s')).
Proof using.
  destruct s as [t ob]. unfold version_body_field. apply decodes_bind; [apply decodes_read_str|]. intros key.
  repeat case_bool_decide; subst.
  - eapply decodes_equiv.
    { apply (decodes_slot_id _ enc_u64 _ _ (λ v, (v, ob))), decodes_read_u64. }
    intros e [t' ob'] _. unfold slot_enc, body_step, slot_step. cbn. set_solver.
  - eapply decodes_equiv.
    { apply (decodes_slot_id _ object_grammar _ _ (λ v, (t, v))), decodes_object_body. }
    intros e [t' ob'] _. unfold slot_enc, body_step, slot_step. cbn. set_solver.
  - eapply decodes_equiv; [apply decodes_skip|]. intros e [t' ob'] _.
    unfold body_step, slot_step. cbn [fst snd]. rewrite !decide_False by done. set_solver.
Qed.
Lemma decodes_type_field s :
  decodes (version_type_field s) (seq_enc enc_str (λ key v s', type_step s key v s')).
Proof using.
  clear Henv. unfold version_type_field. apply decodes_bind; [apply decodes_read_str|]. intros key.
  case_bool_decide; subst.
  - eapply decodes_equiv.
    { apply (decodes_slot_id _ enc_u64 _ _ (λ v, v)), decodes_read_u64. }
    intros e t' _. unfold slot_enc, type_step, slot_step. cbn. set_solver.
  - eapply decodes_equiv; [apply decodes_skip|]. intros e t' _.
    unfold type_step, slot_step. rewrite !decide_False by done. set_solver.
Qed.

Lemma steps_body s fs s' : steps body_step s fs s' ↔
  steps (slot_step "Type" enc_u64) s.1 fs s'.1 ∧ steps (slot_step "V2Obj" object_grammar) s.2 fs s'.2 ∧
  Forall (λ x, x.1 ∉ ["Type"; "V2Obj"] → mp_value 32 x.2) fs.
Proof using.
  revert s. induction fs as [|[key v] fs IH]; intros s.
  - rewrite !slot_steps_nil. split; [by inversion 1; repeat constructor|].
    intros (H1 & H2 & _). replace s' with s by (destruct s, s'; cbn in *; by subst). constructor.
  - rewrite !slot_steps_cons. split.
    + inversion 1 as [|? ? ? ? s1 ? (H1 & H2 & H3) Hrest]; subst. apply IH in Hrest as (? & ? & ?). eauto 10.
    + intros ((s1 & ? & ?) & (s2 & ? & ?) & [Hv Hvs]%Forall_cons).
      apply (steps_cons _ _ _ _ _ (s1, s2)); [by split_and!|]. apply IH. by split_and!.
Qed.
Lemma steps_type s fs s' : steps type_step s fs s' ↔
  steps (slot_step "Type" enc_u64) s fs s' ∧ Forall (λ x, x.1 ∉ ["Type"] → mp_value 32 x.2) fs.
Proof using.
  clear Henv. revert s. induction fs as [|[key v] fs IH]; intros s.
  - rewrite !slot_steps_nil. split; [by inversion 1; repeat constructor|]. intros [-> _]. constructor.
  - rewrite !slot_steps_cons. split.
    + inversion 1 as [|? ? ? ? s1 ? (H1 & H2) Hrest]; subst. apply IH in Hrest as (? & ?). eauto 10.
    + intros ((s1 & ? & ?) & [Hv Hvs]%Forall_cons).
      apply (steps_cons _ _ _ _ _ s1); [by split_and!|]. apply IH. by split_and!.
Qed.

(** A map read field by field. *)
Lemma decodes_fields {S} label (body : S → Reader S) (step : S → string → list N → S → Prop) s :
  (∀ s, decodes (body s) (seq_enc enc_str (λ key v s', step s key v s'))) →
  decodes (fields ← read_map_len label; for_loop (N.to_nat fields) body s)
    (λ e s', ∃ fs, enc_map e fs ∧ steps step s fs s').
Proof using.
  clear Henv. intros Hb. eapply decodes_equiv.
  { apply decodes_bind; [apply decodes_read_map_len|]. intros n. apply decodes_for_loop. exact Hb. }
  cbv beta. intros e s' _. unfold enc_map. split.
  - intros (hd & fields & n & -> & Hn & (fs & Hlen & Hfs & Hs)%loop_enc_fields). exists fs.
    split; [|done]. exists hd, fields. split_and!; [done| |done].
    by replace (len fs) with n by (unfold len; lia).
  - intros (fs & (hd & fields & -> & Hn & Hfs) & Hs). exists hd, fields, (len fs).
    split_and!; [done..|]. apply loop_enc_fields. exists fs. split_and!; [unfold len; lia|done..].
Qed.

Definition with_type (t : N) (o : ObjectLayout) : ObjectLayout :=
  mkObjectLayout t (ol_version_id o) (ol_data_directory o) (ol_erasure_data_shards o)
    (ol_erasure_parity_shards o) (ol_erasure_index o) (ol_part_numbers o) (ol_part_sizes o).
Definition body_grammar (e : list N) (o : ObjectLayout) : Prop :=
  ∃ fs t object, enc_map e fs ∧ once fs "Type" enc_u64 t ∧ once fs "V2Obj" object_grammar object ∧
    Forall (λ x, x.1 ∉ ["Type"; "V2Obj"] → mp_value 32 x.2) fs ∧ o = with_type t object.
Definition type_grammar (e : list N) (t : N) : Prop :=
  ∃ fs, enc_map e fs ∧ once fs "Type" enc_u64 t ∧ Forall (λ x, x.1 ∉ ["Type"] → mp_value 32 x.2) fs.

Lemma parse_version_body_ok bytes o : bytes_ok bytes → len bytes ≤ slice_max →
  parse_version_body bytes = ok o ↔ body_grammar bytes o.
Proof using.
  intros Hok Hlen. unfold parse_version_body.
  rewrite parse_all_ok by (done || apply decodes_fields, decodes_body_field). unfold body_grammar. split.
  - intros ([t ob] & (fs & Hfs & Hs) & Hg). cbn in Hg. apply bind_context_ok in Hg as (t' & -> & Hg).
    apply bind_context_ok in Hg as (o' & -> & [= <-]). apply steps_body in Hs as (H1 & H2 & H3).
    apply slot_steps_once in H1, H2. by exists fs, t', o'.
  - intros (fs & t & o' & Hfs & H1 & H2 & H3 & ->). exists (Some t, Some o'). split; [|done].
    exists fs. split; [done|]. apply steps_body. cbn. by rewrite !slot_steps_once.
Qed.
Lemma parse_version_body_safe bytes : bytes_ok bytes → len bytes ≤ slice_max →
  parse_version_body bytes ≠ panicked.
Proof using.
  intros Hok Hlen. eapply parse_all_safe; [apply decodes_fields, decodes_body_field|done..|].
  intros [t ob] _. by repeat (apply bind_context_not_panicked; intros ?).
Qed.
Lemma parse_version_type_ok bytes t : bytes_ok bytes → len bytes ≤ slice_max →
  parse_version_type bytes = ok t ↔ type_grammar bytes t.
Proof using.
  clear Henv. intros Hok Hlen. unfold parse_version_type.
  rewrite parse_all_ok by (done || apply decodes_fields, decodes_type_field). unfold type_grammar. split.
  - intros (t' & (fs & Hfs & Hs) & Hg). apply context_ok in Hg as ->. apply steps_type in Hs as (H1 & H2).
    apply slot_steps_once in H1. by exists fs.
  - intros (fs & Hfs & H1 & H2). exists (Some t). split; [|done].
    exists fs. split; [done|]. apply steps_type. by rewrite slot_steps_once.
Qed.
Lemma parse_version_type_safe bytes : bytes_ok bytes → len bytes ≤ slice_max →
  parse_version_type bytes ≠ panicked.
Proof using.
  clear Henv. intros Hok Hlen. eapply parse_all_safe; [apply decodes_fields, decodes_type_field|done..|].
  intros [t|] _; done.
Qed.

(** ** Version headers *)
Inductive header_grammar : list N → VersionHeader → Prop :=
| hg_header head id mtime sig sig_bytes t f p d h :
    enc_array_len head 7 → dec_uuid id (vh_version_id h) → mp_value 32 mtime →
    enc_bin sig sig_bytes → len sig_bytes = 4 →
    enc_u64 t (vh_version_type h) → enc_u64 f (vh_flags h) →
    enc_u64 p (vh_erasure_parity_shards h) → enc_u64 d (vh_erasure_data_shards h) →
    header_grammar (head ++ id ++ mtime ++ sig ++ t ++ f ++ p ++ d) h.

Lemma parse_version_header_reads : ∃ f E,
  decodes f E ∧ (∀ e h, E e h ↔ header_grammar e h) ∧
  parse_version_header = parse_all f "XL2 version header has trailing bytes" ok.
Proof using.
  unfold parse_version_header. do 2 eexists. split; [|split; [|reflexivity]].
  - apply decodes_bind; [apply decodes_read_array_len|]. intros n.
    apply decodes_ensure. intros _. apply decodes_assoc, decodes_bind; [apply decodes_uuid|]. intros id.
    apply decodes_bind; [apply (decodes_skip_value_at 32)|]. intros u.
    apply decodes_bind; [apply decodes_read_bin|]. intros sig. apply decodes_ensure. intros _.
    apply decodes_bind; [apply decodes_read_u64|]. intros t.
    apply decodes_bind; [apply decodes_read_u64|]. intros f.
    apply decodes_bind; [apply decodes_read_u64|]. intros p.
    apply decodes_bind; [apply decodes_read_u64|]. intros d. apply decodes_ret.
  - cbv beta. intros e h. split.
    + intros (e1&?&n&->&Hn&->%N.eqb_eq&e2&?&id&->&Hid&e3&?&[]&->&Hm&e4&?&sb&->&Hsig&Hsl%N.eqb_eq&
              e5&?&t&->&Ht&e6&?&f&->&Hf&e7&?&p&->&Hp&e8&?&d&->&Hd&->&->).
      rewrite app_nil_r. by econstructor.
    + intros [e1 e2 e3 e4 sb e5 e6 e7 e8 h' H1 H2 H3 H4 H5 H6 H7 H8 H9].
      eexists e1, _, 7. split_and!; [done..|]. eexists e2, _, _. split_and!; [done..|].
      eexists e3, _, tt. split_and!; [done..|]. eexists e4, _, sb. split_and!; [done..|by apply N.eqb_eq|].
      eexists e5, _, _. split_and!; [done..|]. eexists e6, _, _. split_and!; [done..|].
      eexists e7, _, _. split_and!; [done..|]. exists e8, [], (vh_erasure_data_shards h').
      rewrite app_nil_r. split_and!; [done..|]. by destruct h'.
Qed.
Lemma parse_version_header_ok bytes h : bytes_ok bytes → len bytes ≤ slice_max →
  parse_version_header bytes = ok h ↔ header_grammar bytes h.
Proof using.
  intros Hok Hlen. destruct parse_version_header_reads as (f & E & Hd & HE & ->).
  rewrite (parse_all_ok _ E) by done. setoid_rewrite HE. naive_solver.
Qed.
Lemma parse_version_header_safe bytes : bytes_ok bytes → len bytes ≤ slice_max →
  parse_version_header bytes ≠ panicked.
Proof using.
  intros Hok Hlen. destruct parse_version_header_reads as (f & E & Hd & HE & ->).
  by eapply parse_all_safe.
Qed.

(** ** Object layouts *)
Lemma positive_and_unique_spec seen parts :
  positive_and_unique seen parts = true ↔
  Forall (λ p, 0 < p) parts ∧ NoDup parts ∧ Forall (λ p, p ∉ seen) parts.
Proof using.
  clear Henv. revert seen. induction parts as [|p parts IH]; intros seen; cbn [positive_and_unique].
  { by repeat constructor. }
  rewrite !andb_true_iff, N.ltb_lt, bool_decide_eq_true, IH, NoDup_cons, !Forall_cons.
  rewrite !Forall_forall. set_solver.
Qed.

(** The layout of a version whose data lives in shard parts. *)
Record layout_described (version_id : uuid) (o : ObjectLayout) (l : Xl2ObjectVersionLayout) : Prop := {
  ld_revision : vl_inspector_revision l = OFFLINE_XL2_INSPECTOR_REVISION;
  ld_profile : vl_profile l = LATEST_RUSTFS;
  ld_version : vl_version_id l = uuid_to_string version_id;
  ld_directory : ∃ dir, ol_data_directory o = Some dir ∧ vl_data_directory l = uuid_to_string dir;
  ld_data : vl_erasure_data_shards l = ol_erasure_data_shards o;
  ld_parity : vl_erasure_parity_shards l = ol_erasure_parity_shards o;
  ld_index : vl_erasure_index l = ol_erasure_index o;
  ld_parts : vl_part_numbers l = ol_part_numbers o;
  ld_sizes : vl_part_sizes l = ol_part_sizes o;
  ld_paths : vl_relative_part_paths l =
    (λ part, vl_data_directory l +:+ "/part." +:+ dec part) <$> vl_part_numbers l;
  (** the geometry *)
  ld_geometry : 0 < vl_erasure_parity_shards l ∧ vl_erasure_parity_shards l ≤ vl_erasure_data_shards l ∧
    vl_erasure_data_shards l + vl_erasure_parity_shards l ≤ u32_max;
  ld_in_set : 0 < vl_erasure_index l ∧
    vl_erasure_index l ≤ vl_erasure_data_shards l + vl_erasure_parity_shards l;
  (** the parts *)
  ld_some_parts : vl_part_numbers l ≠ [] ∧ len (vl_part_numbers l) ≤ MAX_PARTS;
  ld_distinct : NoDup (vl_part_numbers l) ∧ Forall (λ p, 0 < p) (vl_part_numbers l);
  ld_sized : len (vl_part_sizes l) = len (vl_part_numbers l) ∧ Forall (λ n, 0 < n) (vl_part_sizes l);
}.

Lemma object_layout_ok version_id o l :
  object_layout LATEST_RUSTFS OFFLINE_XL2_INSPECTOR_REVISION version_id o = ok l ↔
  layout_described version_id o l.
Proof using.
  assert (Forall (λ n, 0 < n) (ol_part_sizes o) ↔ forallb (λ size, 0 <? size) (ol_part_sizes o) = true) as Hsz.
  { rewrite forallb_forall, List.Forall_forall. by setoid_rewrite N.ltb_lt. }
  unfold object_layout, checked_add32. split.
  - intros H. apply bind_context_ok in H as (dir & Hdir & H).
    apply bind_ensure_ok in H as [Hgeo H]. apply bind_context_ok in H as (total & Htotal & H).
    do 4 (let H' := fresh "Hc" in apply bind_ensure_ok in H as [H' H]).
    rewrite !andb_true_iff in *. rewrite !N.ltb_lt, !N.leb_le in *.
    case_decide; [|done]. injection Htotal as <-. injection H as <-.
    apply positive_and_unique_spec in Hc2 as (? & ? & _).
    destruct Hc1 as [Hlen%N.eqb_eq Hsizes%Hsz]. destruct Hc0 as [Hne%negb_true_iff%bool_decide_eq_false ?].
    constructor; cbn; naive_solver.
  - intros [Hrev Hpro Hver (dir & Hdir & Hdirs) Hd Hp Hi Hpn Hps Hpaths Hgeo Hin Hsome Hdist Hsized].
    destruct l as [rev pro ver dirs d p i parts sizes paths]; cbn in *; subst.
    rewrite bind_context_ok. exists dir. split; [done|].
    rewrite bind_ensure_ok, !andb_true_iff, !N.ltb_lt, !N.leb_le. split; [lia|].
    rewrite decide_True by lia. rewrite bind_context_ok. eexists. split; [done|].
    rewrite bind_ensure_ok, !andb_true_iff, !N.ltb_lt, !N.leb_le. split; [done|].
    rewrite bind_ensure_ok, !andb_true_iff, !N.leb_le, negb_true_iff, bool_decide_eq_false. split; [done|].
    rewrite bind_ensure_ok, !andb_true_iff, N.eqb_eq, <-Hsz. split; [naive_solver|].
    rewrite bind_ensure_ok, positive_and_unique_spec. split; [|done].
    split_and!; [naive_solver..|]. apply List.Forall_forall. set_solver.
Qed.
Lemma object_layout_safe profile revision version_id o : object_layout profile revision version_id o ≠ panicked.
Proof using.
  unfold object_layout. apply bind_context_not_panicked; intros dir.
  apply bind_ensure_not_panicked; intros _. apply bind_context_not_panicked; intros total.
  by do 4 (apply bind_ensure_not_panicked; intros _).
Qed.

(** ** Versions *)
Definition object_agrees (h : VersionHeader) (o : ObjectLayout) : Prop :=
  ol_version_type o = 1 ∧ ol_version_id o = vh_version_id h ∧
  ol_erasure_data_shards o = vh_erasure_data_shards h ∧
  ol_erasure_parity_shards o = vh_erasure_parity_shards h.

(** The version a header and a body describe, and what the inventory lists for it. *)
Inductive version_described (header body : list N) : uuid → Xl2InventoryVersionLayout → Prop :=
| vd_delete h :
    header_grammar header h → vh_version_type h = 2 → N.land (vh_flags h) 6 = 0 → type_grammar body 2 →
    version_described header body (vh_version_id h)
      (mkXl2InventoryVersionLayout (uuid_to_string (vh_version_id h)) Xl2InventoryVersionKind.DeleteMarker None)
| vd_inline h o :
    header_grammar header h → vh_version_type h = 1 → body_grammar body o → object_agrees h o →
    N.land (vh_flags h) 4 ≠ 0 → N.land (vh_flags h) 2 = 0 → ol_data_directory o = None →
    version_described header body (vh_version_id h)
      (mkXl2InventoryVersionLayout (uuid_to_string (vh_version_id h)) Xl2InventoryVersionKind.Inline None)
| vd_parts h o l :
    header_grammar header h → vh_version_type h = 1 → body_grammar body o → object_agrees h o →
    N.land (vh_flags h) 4 = 0 → layout_described (vh_version_id h) o l →
    version_described header body (vh_version_id h)
      (mkXl2InventoryVersionLayout (uuid_to_string (vh_version_id h)) Xl2InventoryVersionKind.ShardParts (Some l)).

Definition entry_enc (e : list N) (x : uuid * Xl2InventoryVersionLayout) : Prop :=
  ∃ he h be b, e = he ++ be ∧ enc_bin he h ∧ enc_bin be b ∧ version_described h b x.1 x.2.

Lemma object_agrees_bool h o :
  (ol_version_type o =? 1) && bool_decide (ol_version_id o = vh_version_id h) = true ∧
  (vh_erasure_data_shards h =? ol_erasure_data_shards o)
    && (vh_erasure_parity_shards h =? ol_erasure_parity_shards o) = true ↔ object_agrees h o.
Proof using.
  rewrite !andb_true_iff, !N.eqb_eq, bool_decide_eq_true. unfold object_agrees. naive_solver.
Qed.
Lemma header_grammar_unique header h h' : bytes_ok header → len header ≤ slice_max →
  header_grammar header h → header_grammar header h' → h = h'.
Proof using.
  intros Hok Hlen H1%parse_version_header_ok H2%parse_version_header_ok; [|done..].
  rewrite H1 in H2. by injection H2.
Qed.
Lemma body_grammar_unique body o o' : bytes_ok body → len body ≤ slice_max →
  body_grammar body o → body_grammar body o' → o = o'.
Proof using.
  intros Hok Hlen H1%parse_version_body_ok H2%parse_version_body_ok; [|done..].
  rewrite H1 in H2. by injection H2.
Qed.

(** What the loop body returns for a pair of frames. *)
Section VersionEntry.
Context (header body : list N).
Context (Hok : bytes_ok header) (Hlen : len header ≤ slice_max).
Context (Hokb : bytes_ok body) (Hlenb : len body ≤ slice_max).

Lemma frame_entry_sound layouts ids st' :
  frame_entry LATEST_RUSTFS OFFLINE_XL2_INSPECTOR_REVISION (layouts, ids) header body = ok st' →
  ∃ id l, version_described header body id l ∧ id ∉ ids ∧ st' = (layouts ++ [l], {[id]} ∪ ids).
Proof using All.
  unfold frame_entry. intros H. apply bind_ok in H as (h & Hh & H).
  apply parse_version_header_ok in Hh; [|done..].
  apply bind_ensure_ok in H as [Hin%bool_decide_eq_true H]. cbv zeta in H.
  destruct (N.eqb_spec (vh_version_type h) 2) as [Ht|Ht].
  - apply bind_ok in H as (agree & Ha & H). apply bind_ensure_ok in H as [-> [= <-]].
    destruct (N.eqb_spec (N.land (vh_flags h) 6) 0) as [Hf|]; [|done].
    apply bind_ok in Ha as (t & Hb & [= ->%N.eqb_eq]). apply parse_version_type_ok in Hb; [|done..].
    eexists _, _. split; [by apply vd_delete|done].
  - apply bind_ensure_ok in H as [Ht1%N.eqb_eq H]. apply bind_ok in H as (o & Ho & H).
    apply parse_version_body_ok in Ho; [|done..].
    apply bind_ensure_ok in H as [H1 H]. apply bind_ensure_ok in H as [H2 H].
    assert (object_agrees h o) as Ha by (by apply object_agrees_bool).
    apply bind_ensure_ok in H as [Hflags H]. apply bind_ok in H as ([kind layout] & Hk & [= <-]).
    destruct (N.eqb_spec (N.land (vh_flags h) 4) 0) as [H4|H4]; cbn [negb andb] in *.
    + apply bind_ok in Hk as (l & Hl%object_layout_ok & [= <- <-]).
      eexists _, _. split; [by eapply vd_parts|done].
    + apply bind_ensure_ok in Hk as [Hd%bool_decide_eq_true [= <- <-]].
      rewrite andb_true_r, negb_involutive in Hflags. apply N.eqb_eq in Hflags.
      eexists _, _. split; [by eapply vd_inline|done].
Qed.

Lemma frame_entry_complete layouts ids id l :
  version_described header body id l → id ∉ ids →
  frame_entry LATEST_RUSTFS OFFLINE_XL2_INSPECTOR_REVISION (layouts, ids) header body =
  ok (layouts ++ [l], {[id]} ∪ ids).
Proof using All.
  intros Hv Hnin. unfold frame_entry.
  destruct Hv as [h Hh Ht Hf Hb|h o Hh Ht Hb Ha H4 H2 Hd|h o l Hh Ht Hb Ha H4 Hl];
    apply parse_version_header_ok in Hh; try done; rewrite Hh; run_result;
    rewrite bool_decide_eq_true_2 by done; run_result; rewrite Ht; cbn [N.eqb Pos.eqb]; run_result.
  - apply parse_version_type_ok in Hb; [|done..]. by rewrite Hf, Hb.
  - apply parse_version_body_ok in Hb; [|done..]. rewrite Hb. run_result.
    apply object_agrees_bool in Ha as [-> ->]. run_result.
    rewrite H2, (proj2 (N.eqb_neq _ _) H4). cbn. by rewrite Hd.
  - apply parse_version_body_ok in Hb; [|done..]. rewrite Hb. run_result.
    apply object_agrees_bool in Ha as [-> ->]. run_result.
    rewrite H4. cbn [N.eqb negb]. rewrite andb_false_r. cbn [negb]. run_result.
    apply object_layout_ok in Hl. by rewrite Hl.
Qed.

Lemma frame_entry_safe profile revision st : frame_entry profile revision st header body ≠ panicked.
Proof using All.
  destruct st as [layouts ids]. unfold frame_entry.
  apply bind_not_panicked; [by apply parse_version_header_safe|]. intros h _.
  apply bind_ensure_not_panicked; intros _. cbv zeta. destruct (_ =? 2).
  - apply bind_not_panicked; [|intros b _; by apply bind_ensure_not_panicked].
    destruct (_ =? 0); [|done]. apply bind_not_panicked; [by apply parse_version_type_safe|done].
  - apply bind_ensure_not_panicked; intros _.
    apply bind_not_panicked; [by apply parse_version_body_safe|]. intros o _.
    do 3 (apply bind_ensure_not_panicked; intros _).
    apply bind_not_panicked; [|by intros [??] _]. destruct (negb _).
    + by apply bind_ensure_not_panicked.
    + apply bind_not_panicked; [apply object_layout_safe|done].
Qed.
End VersionEntry.

(** ** The version loop *)
Lemma enc_bin_body e b : enc_bin e b → bytes_ok e → len e ≤ slice_max → bytes_ok b ∧ len b ≤ slice_max.
Proof using.
  clear Henv. intros [m k l body Hm Hl Hb] Hok Hlen. apply Forall_cons in Hok as [_ Hok].
  apply Forall_app in Hok as [_ Hok]. rewrite len_cons, len_app in Hlen. split; [done|lia].
Qed.
Definition version_step (st : list Xl2InventoryVersionLayout * gset uuid) (e : list N)
    (st' : list Xl2InventoryVersionLayout * gset uuid) : Prop :=
  ∃ x, entry_enc e x ∧ x.1 ∉ st.2 ∧ st' = (st.1 ++ [x.2], {[x.1]} ∪ st.2).
Lemma decodes_inspect_version st :
  decodes (inspect_version LATEST_RUSTFS OFFLINE_XL2_INSPECTOR_REVISION st) (version_step st).
Proof using.
  destruct st as [layouts ids]. unfold inspect_version, version_step.
  eapply (decodes_equiv _ (seq_enc enc_bin (λ h, seq_enc enc_bin (λ b e st',
    e = [] ∧ ∃ id l, version_described h b id l ∧ id ∉ ids ∧ st' = (layouts ++ [l], {[id]} ∪ ids))))).
  { apply decodes_bind_in; [apply decodes_read_bin|]. intros e h Hok Hlen Hh.
    apply (enc_bin_body _ _ Hh Hok) in Hlen as [Hokh Hlenh].
    apply decodes_bind_in; [apply decodes_read_bin|]. intros e' b Hok' Hlen' Hb.
    apply (enc_bin_body _ _ Hb Hok') in Hlen' as [Hokb Hlenb].
    eapply decodes_equiv; [by apply decodes_lift, frame_entry_safe|].
    intros e2 st' _. split; intros [-> H]; (split; [done|]).
    - by apply frame_entry_sound.
    - destruct H as (id & l & Hv & Hn & ->). by apply frame_entry_complete. }
  intros e st' _. unfold entry_enc. cbn [fst snd]. split.
  - intros (he & ? & h & -> & Hh & be & ? & b & -> & Hb & -> & id & l & Hv & Hn & ->).
    rewrite app_nil_r. exists (id, l). split; [|done]. by exists he, h, be, b.
  - intros ([id l] & (he & h & be & b & -> & Hh & Hb & Hv) & Hn & ->).
    exists he, be, h. split_and!; [done..|]. exists be, [], b. rewrite app_nil_r. split_and!; [done..|].
    by exists id, l.
Qed.

Lemma version_loop n (layouts : list Xl2InventoryVersionLayout) (ids : gset uuid) e st' :
  loop_enc n version_step (layouts, ids) e st' ↔
  ∃ es xs, length xs = n ∧ e = concat es ∧ Forall2 entry_enc es xs ∧ NoDup xs.*1 ∧
    (∀ id, id ∈ xs.*1 → id ∉ ids) ∧ st' = (layouts ++ xs.*2, list_to_set xs.*1 ∪ ids).
Proof using.
  revert layouts ids e. induction n as [|n IH]; intros layouts ids e; cbn [loop_enc].
  - split.
    + intros [-> ->]. exists [], []. rewrite app_nil_r. split_and!; [done|done|constructor|constructor|set_solver|].
      f_equal. set_solver.
    + intros (es & [|??] & ? & -> & H & _ & _ & ->); [|done]. apply Forall2_nil_inv_r in H as ->.
      split; [done|]. cbn. rewrite app_nil_r. f_equal. set_solver.
  - split.
    + intros (e1 & e2 & st1 & -> & ([id l] & He & Hn & ->) & H). cbn [fst snd] in *.
      apply IH in H as (es & xs & <- & -> & Hes & Hnd & Hids & ->).
      exists (e1 :: es), ((id, l) :: xs). split_and!; [done|done|by constructor|..]; cbn.
      * constructor; [|done]. intros Hin. apply (Hids id); set_solver.
      * intros id' [->|Hin]%elem_of_cons; [done|]. specialize (Hids id' Hin). set_solver.
      * rewrite <-app_assoc. f_equal. set_solver.
    + intros (es & [|[id l] xs] & Hl & -> & H & Hnd & Hids & ->); [done|].
      apply Forall2_cons_inv_r in H as (e1 & es' & He & Hes & ->). cbn in Hnd. apply NoDup_cons in Hnd as [Hid Hnd].
      exists e1, (concat es'), (layouts ++ [l], {[id]} ∪ ids). split_and!; [done| |].
      * exists (id, l). split; [done|]. cbn. split; [|done]. apply Hids. cbn. set_solver.
      * apply IH. exists es', xs. split_and!; [naive_solver lia|done..| |].
        -- intros id' Hin. specialize (Hids id'). cbn in Hids. set_solver.
        -- cbn. rewrite <-app_assoc. f_equal. set_solver.
Qed.

(** ** The envelope *)
Lemma slice_max_meta : MAX_XL_META_BYTES ≤ slice_max.
Proof using. clear Henv. by vm_compute. Qed.
Lemma add_u64_small a b : a ≤ MAX_XL_META_BYTES + 13 → b ≤ MAX_XL_META_BYTES → add_u64 a b = ok (a + b).
Proof using.
  clear Henv. intros Ha Hb. apply add_u64_ok. split; [done|].
  change MAX_XL_META_BYTES with 16777216 in *. change u64_max with 18446744073709551615. lia.
Qed.
Lemma index_skip pre t i j : i = len pre + j → index (pre ++ t) i = index t j.
Proof using.
  clear Henv. intros ->. unfold index. rewrite lookup_app_r by (unfold len; lia).
  f_equal. f_equal. unfold len. lia.
Qed.
Lemma slice_app pre meta rest a b :
  a = len pre → b = len pre + len meta → slice (pre ++ meta ++ rest) a b = ok meta.
Proof using.
  clear Henv. intros -> ->. unfold slice. rewrite slice_get_cur, (proj2 (N.leb_le _ _)) by (rewrite len_app; lia).
  unfold len. by rewrite Nat2N.id, take_app_length.
Qed.

(** The two version numbers at the front of the metadata. *)
Definition leading_versions (meta : list N) (h m : N) : Prop :=
  ∃ he me rest, meta = he ++ me ++ rest ∧ enc_u64 he h ∧ enc_u64 me m.
Definition envelope (magic maj min frame size meta crc_frame crc rest : list N) : list N :=
  magic ++ maj ++ min ++ frame ++ size ++ meta ++ crc_frame ++ crc ++ rest.

(** The part of [decode_envelope] behind the frame checks. *)
Lemma read_leading_ok meta h m : bytes_ok meta → len meta ≤ slice_max →
  (∃ c c', read_u64 "XL2 header version" (cursor_new meta) = ok (h, c) ∧
           read_u64 "XL2 metadata version" c = ok (m, c')) ↔ leading_versions meta h m.
Proof using.
  clear Henv. intros Hok Hlen. change (cursor_new meta) with (cur [] meta).
  destruct (decodes_read_u64 "XL2 header version" [] meta Hlen Hok) as [Hiff _]. split.
  - intros (c & c' & H1 & H2). apply Hiff in H1 as (he & rest & -> & -> & Hh).
    apply Forall_app in Hok as [_ Hok].
    apply (decodes_read_u64 "XL2 metadata version" ([] ++ he) rest Hlen Hok) in H2
      as (me & rest' & -> & _ & Hm). by exists he, me, rest'.
  - intros (he & me & rest & -> & Hh & Hm).
    exists (cur ([] ++ he) (me ++ rest)), (cur (([] ++ he) ++ me) rest). split.
    + apply Hiff. by exists he, (me ++ rest).
    + apply decodes_read_u64; [done|by apply Forall_app in Hok as [_ Hok]|].
      by exists me, rest.
Qed.
Lemma read_u64_safe label pre rest : len (pre ++ rest) ≤ slice_max → bytes_ok rest →
  read_u64 label (cur pre rest) ≠ panicked.
Proof using. clear Henv. intros Hlen Hok. by apply decodes_read_u64. Qed.

(** A file that is long enough splits into its frames. *)
Lemma split_at {A} (l : list A) n : n ≤ len l → ∃ a b, l = a ++ b ∧ len a = n.
Proof using.
  clear Henv. intros Hn. exists (take (N.to_nat n) l), (drop (N.to_nat n) l). rewrite take_drop.
  split; [done|]. unfold len in *. rewrite length_take. lia.
Qed.
Lemma frames (bytes : list N) : 18 ≤ len bytes → ∃ m0 m1 m2 m3 b4 b5 b6 b7 b8 b9 b10 b11 b12 tail,
  bytes = [m0; m1; m2; m3; b4; b5; b6; b7; b8; b9; b10; b11; b12] ++ tail ∧ 5 ≤ len tail.
Proof using.
  clear Henv. intros H.
  do 13 (destruct bytes as [|? bytes]; [rewrite ?len_cons in H; change (len []) with 0 in H; lia|]).
  do 13 eexists. exists bytes. split; [done|]. rewrite !len_cons in H. lia.
Qed.
Lemma crc_frames (tail : list N) n : n + 5 ≤ len tail → ∃ meta x c1 c2 c3 c4 rest,
  tail = meta ++ [x; c1; c2; c3; c4] ++ rest ∧ len meta = n.
Proof using.
  clear Henv. intros H. destruct (split_at tail n) as (meta & r & -> & Hm); [lia|].
  rewrite len_app in H.
  do 5 (destruct r as [|? r]; [rewrite ?len_cons in H; change (len []) with 0 in H; lia|]).
  exists meta. do 5 eexists. by exists r.
Qed.

Section Envelope.
Context (m0 m1 m2 m3 b4 b5 b6 b7 b8 b9 b10 b11 b12 : N).
Local Abbreviation head13 := [m0; m1; m2; m3; b4; b5; b6; b7; b8; b9; b10; b11; b12].
Local Abbreviation size := (from_be_bytes [b9; b10; b11; b12]).

Ltac read_head tail :=
  change (index (head13 ++ tail) 4) with (ok b4); change (index (head13 ++ tail) 5) with (ok b5);
  change (index (head13 ++ tail) 6) with (ok b6); change (index (head13 ++ tail) 7) with (ok b7);
  change (index (head13 ++ tail) 8) with (ok b8); change (index (head13 ++ tail) 9) with (ok b9);
  change (index (head13 ++ tail) 10) with (ok b10); change (index (head13 ++ tail) 11) with (ok b11);
  change (index (head13 ++ tail) 12) with (ok b12);
  rewrite (slice_app [] [m0; m1; m2; m3] (drop 4 head13 ++ tail) 0 4 eq_refl eq_refl
           : slice (head13 ++ tail) 0 4 = ok [m0; m1; m2; m3]); run_result.

(** Too short for the metadata it announces. *)
Lemma decode_envelope_truncated tail : len tail ≤ MAX_XL_META_BYTES →
  MAX_XL_META_BYTES < size ∨ len tail < size + 5 →
  ∃ msg, decode_envelope (head13 ++ tail) = err msg.
Proof using.
  intros Hl Hshort. unfold decode_envelope. read_head tail.
  destruct (18 <=? len (head13 ++ tail)); run_result; [|eauto].
  destruct (bool_decide _); run_result; [|eauto].
  destruct (b8 =? 0xc6); run_result; [|eauto]. cbv zeta.
  destruct (N.leb_spec size MAX_XL_META_BYTES) as [Hs|Hs]; run_result; [|eauto].
  rewrite (add_u64_small 13 size) by lia. run_result.
  rewrite (add_u64_small (13 + size) 5) by (done || lia). run_result.
  rewrite (proj2 (N.leb_gt _ _)); [run_result; eauto|].
  rewrite len_app. change (len head13) with 13. lia.
Qed.

(** The checks and reads that follow the frames. *)
Definition envelope_contents (meta : list N) (x c1 c2 c3 c4 : N) : Result (Xl2FormatProfile * list N) :=
  _ ← ensure (bool_decide ([m0; m1; m2; m3] = XL2_MAGIC)) "xl.meta has invalid XL2 magic";
  _ ← ensure (b8 =? 0xc6) "xl.meta metadata must use a bin32 frame";
  _ ← ensure (x =? 0xce) "xl.meta checksum must use a uint32 frame";
  _ ← ensure (from_be_bytes [c1; c2; c3; c4] =? xxh64 meta 0 `mod` 2 ^ 32) "xl.meta metadata checksum mismatch";
  '(h, c) ← read_u64 "XL2 header version" (cursor_new meta);
  header_version ← context (if h <=? u8_max then Some h else None) "XL2 header version overflow";
  '(m, c) ← read_u64 "XL2 metadata version" c;
  metadata_version ← context (if m <=? u8_max then Some m else None) "XL2 metadata version overflow";
  ok (mkXl2FormatProfile (from_le_bytes [b4; b5]) (from_le_bytes [b6; b7])
        header_version metadata_version, meta).
Lemma decode_envelope_framed meta x c1 c2 c3 c4 rest :
  len meta = size → size ≤ MAX_XL_META_BYTES →
  decode_envelope (head13 ++ meta ++ [x; c1; c2; c3; c4] ++ rest) = envelope_contents meta x c1 c2 c3 c4.
Proof using.
  intros Hm Hs. unfold decode_envelope, envelope_contents. read_head (meta ++ [x; c1; c2; c3; c4] ++ rest).
  assert (len (head13 ++ meta ++ [x; c1; c2; c3; c4] ++ rest) = 18 + size + len rest) as ->.
  { rewrite !len_app, Hm. change (len head13) with 13. change (len [x; c1; c2; c3; c4]) with 5. lia. }
  rewrite (proj2 (N.leb_le 18 _)) by lia. run_result.
  destruct (bool_decide _); run_result; [|done]. destruct (b8 =? 0xc6); run_result; [|done].
  cbv zeta. rewrite (proj2 (N.leb_le _ _) Hs).
  rewrite (add_u64_small 13) by lia. run_result.
  rewrite !(add_u64_small (13 + size)) by (lia || done). run_result.
  rewrite (proj2 (N.leb_le _ (18 + size + len rest))) by lia. run_result.
  rewrite (slice_app head13 meta) by (change (len head13) with 13; lia). run_result.
  change (head13 ++ meta ++ [x; c1; c2; c3; c4] ++ rest) with ((head13 ++ meta) ++ [x; c1; c2; c3; c4] ++ rest).
  assert (len (head13 ++ meta) = 13 + size) as Hpre by (rewrite len_app, Hm; done).
  rewrite (index_skip _ _ (13 + size) 0), (index_skip _ _ (13 + size + 1) 1), (index_skip _ _ (13 + size + 2) 2),
    (index_skip _ _ (13 + size + 3) 3), (index_skip _ _ (13 + size + 4) 4) by lia.
  done.
Qed.
End Envelope.

(** ** Files *)
Definition metadata_grammar (meta : list N) (xs : list (uuid * Xl2InventoryVersionLayout)) : Prop :=
  ∃ he me ce es, meta = he ++ me ++ ce ++ concat es ∧
    enc_u64 he 3 ∧ enc_u64 me 3 ∧ enc_u64 ce (len xs) ∧ len xs ≤ MAX_VERSIONS ∧
    Forall2 entry_enc es xs ∧ NoDup xs.*1.
(** Everything behind the checksum is left to inline data. *)
Definition xl2_file (bytes : list N) (xs : list (uuid * Xl2InventoryVersionLayout)) : Prop :=
  ∃ size meta crc rest,
    bytes = XL2_MAGIC ++ [1; 0; 3; 0; 0xc6] ++ size ++ meta ++ [0xce] ++ crc ++ rest ∧
    len bytes ≤ MAX_XL_META_BYTES ∧
    len size = 4 ∧ from_be_bytes size = len meta ∧
    len crc = 4 ∧ from_be_bytes crc = xxh64 meta 0 `mod` 2 ^ 32 ∧
    metadata_grammar meta xs.

Definition metadata_reader : Reader (list Xl2InventoryVersionLayout * gset uuid) :=
  header_version ← read_u64 "XL2 header version";
  metadata_version ← read_u64 "XL2 metadata version";
  version_count ← read_u64 "XL2 version count";
  _ ← lift (ensure ((header_version =? fp_header_version LATEST_RUSTFS)
                    && (metadata_version =? fp_metadata_version LATEST_RUSTFS))
              "XL2 envelope and metadata capability profile disagree");
  version_count ← lift (context (usize_try_from version_count) "XL2 version count overflow");
  _ ← lift (ensure (version_count <=? MAX_VERSIONS) "XL2 version count exceeds inspection limit");
  for_loop (N.to_nat version_count)
    (inspect_version LATEST_RUSTFS OFFLINE_XL2_INSPECTOR_REVISION) ([], ∅).

Lemma decodes_metadata :
  decodes metadata_reader (λ e st, ∃ xs, metadata_grammar e xs ∧ st = (xs.*2, list_to_set xs.*1)).
Proof using.
  eapply decodes_equiv.
  { unfold metadata_reader. do 3 (apply decodes_bind; [apply decodes_read_u64|]; intros ?).
    apply decodes_ensure. intros _. apply decodes_bind; [apply decodes_lift; by destruct (usize_try_from _)|].
    intros n. apply decodes_ensure. intros _. apply decodes_for_loop, decodes_inspect_version. }
  cbv beta. intros e st _. unfold metadata_grammar. split.
  - intros (he & ? & h & -> & Hh & me & ? & m & -> & Hm & ce & ? & c & -> & Hc & Hv & ? & es' & n & -> & [-> Hn] & Hle & Hl).
    apply andb_true_iff in Hv as [->%N.eqb_eq ->%N.eqb_eq]. apply context_ok in Hn. apply N.leb_le in Hle.
    unfold usize_try_from in Hn. destruct (c <=? u64_max); [|done]. injection Hn as ->.
    apply version_loop in Hl as (es & xs & Hlen & -> & Hes & Hnd & _ & ->). exists xs. split.
    + exists he, me, ce, es. replace (len xs) with n by (unfold len; lia). by split_and!.
    + cbn. f_equal. set_solver.
  - intros (xs & (he & me & ce & es & -> & Hh & Hm & Hc & Hle & Hes & Hnd) & ->).
    exists he, (me ++ ce ++ concat es), 3. split_and!; [done..|].
    exists me, (ce ++ concat es), 3. split_and!; [done..|].
    exists ce, (concat es), (len xs). split_and!; [done..|].
    exists [], (concat es), (len xs). split_and!; [done|done| |by apply N.leb_le|].
    + unfold usize_try_from. rewrite (proj2 (N.leb_le _ _)); [done|].
      etrans; [exact Hle|]. by vm_compute.
    + apply version_loop. exists es, xs. split_and!; [unfold len; lia|done..|set_solver|].
      f_equal. set_solver.
Qed.

Lemma inspect_all_unfold bytes :
  inspect_all_xl_meta bytes =
  (_ ← ensure (negb (bool_decide (bytes = [])) && (len bytes <=? MAX_XL_META_BYTES))
         ("xl.meta size must be between 1 and " +:+ dec MAX_XL_META_BYTES +:+ " bytes");
   '(profile, meta) ← decode_envelope bytes;
   _ ← ensure (bool_decide (profile = LATEST_RUSTFS))
        ("unsupported XL2 capability profile " +:+ dec (fp_file_major profile) +:+ "." +:+ dec (fp_file_minor profile)
         +:+ " header " +:+ dec (fp_header_version profile) +:+ " metadata " +:+ dec (fp_metadata_version profile));
   parse_all metadata_reader "XL2 metadata has trailing version bytes" (λ '(layouts, _), ok layouts) meta).
Proof using.
  unfold inspect_all_xl_meta. destruct (ensure _ _) as [[]|?|]; run_result; [|done..].
  destruct (decode_envelope bytes) as [[p meta]|?|]; run_result; [|done..].
  unfold profile_revision. destruct (bool_decide (p = LATEST_RUSTFS)) eqn:Hp; run_result; [|done].
  apply bool_decide_eq_true in Hp as ->. done.
Qed.

Lemma from_le_two a b n : a < 256 → b < 256 → from_le_bytes [a; b] = n → a = n `mod` 256 ∧ b = n / 256.
Proof using.
  clear Henv. intros Ha Hb <-. change (from_le_bytes [a; b]) with ((0 * 256 + b) * 256 + a).
  replace ((0 * 256 + b) * 256 + a) with (a + b * 256) by lia.
  rewrite N.Div0.mod_add, N.mod_small, N.div_add, N.div_small by lia. lia.
Qed.
Lemma leading_of_metadata meta xs : metadata_grammar meta xs → leading_versions meta 3 3.
Proof using. intros (he & me & ce & es & -> & Hh & Hm & _). by exists he, me, (ce ++ concat es). Qed.

(** The envelope checks, for a profile of the supported version. *)
Lemma envelope_contents_ok m0 m1 m2 m3 b4 b5 b6 b7 b8 meta meta' x c1 c2 c3 c4 :
  bytes_ok [b4; b5; b6; b7] → bytes_ok meta → len meta ≤ slice_max →
  envelope_contents m0 m1 m2 m3 b4 b5 b6 b7 b8 meta x c1 c2 c3 c4 = ok (LATEST_RUSTFS, meta') ↔
  [m0; m1; m2; m3] = XL2_MAGIC ∧ [b4; b5; b6; b7; b8] = [1; 0; 3; 0; 0xc6] ∧ x = 0xce ∧
  from_be_bytes [c1; c2; c3; c4] = xxh64 meta 0 `mod` 2 ^ 32 ∧ meta' = meta ∧ leading_versions meta 3 3.
Proof using.
  intros Hb Hok Hlen. unfold envelope_contents.
  apply Forall_cons in Hb as [Hb4 Hb]. apply Forall_cons in Hb as [Hb5 Hb].
  apply Forall_cons in Hb as [Hb6 Hb]. apply Forall_cons in Hb as [Hb7 Hb].
  rewrite !bind_ensure_ok, bool_decide_eq_true, !N.eqb_eq. split.
  - intros (Hmagic & -> & -> & Hcrc & H). apply bind_ok in H as ([h c] & Hh & H).
    apply bind_context_ok in H as (h' & Hh' & H). apply bind_ok in H as ([m c'] & Hm & H).
    apply bind_context_ok in H as (m' & Hm' & [= Hmaj Hmin -> -> ->]).
    apply from_le_two in Hmaj as [-> ->], Hmin as [-> ->]; [|done..].
    destruct (h <=? u8_max); [|done]. destruct (m <=? u8_max); [|done].
    injection Hh' as ->. injection Hm' as ->. split_and!; [done..|].
    apply read_leading_ok; [done..|]. by exists c, c'.
  - intros (Hmagic & [= -> -> -> -> ->] & -> & Hcrc & -> & Hl). split_and!; [done..|].
    apply read_leading_ok in Hl as (c & c' & Hh & Hm); [|done..].
    by rewrite Hh; run_result; cbn [u8_max N.leb]; rewrite Hm.
Qed.
Lemma envelope_contents_safe m0 m1 m2 m3 b4 b5 b6 b7 b8 meta x c1 c2 c3 c4 :
  bytes_ok meta → len meta ≤ slice_max →
  envelope_contents m0 m1 m2 m3 b4 b5 b6 b7 b8 meta x c1 c2 c3 c4 ≠ panicked.
Proof using.
  intros Hok Hlen. unfold envelope_contents. do 4 (apply bind_ensure_not_panicked; intros _).
  change (cursor_new meta) with (cur [] meta).
  apply bind_not_panicked; [by apply read_u64_safe|]. intros [h c] Hh.
  apply decodes_read_u64 in Hh as (he & rest & -> & -> & _); [|done..].
  apply bind_context_not_panicked; intros h'.
  apply bind_not_panicked; [apply read_u64_safe; [done|by apply Forall_app in Hok as [_ Hok]]|].
  intros [m c'] _. by apply bind_context_not_panicked.
Qed.

(** A file of bounded size is rejected or splits into its frames. *)
Lemma decode_envelope_cases bytes : len bytes ≤ MAX_XL_META_BYTES →
  (∃ msg, decode_envelope bytes = err msg) ∨
  ∃ m0 m1 m2 m3 b4 b5 b6 b7 b8 b9 b10 b11 b12 meta x c1 c2 c3 c4 rest,
    bytes = [m0; m1; m2; m3; b4; b5; b6; b7; b8; b9; b10; b11; b12] ++ meta ++ [x; c1; c2; c3; c4] ++ rest ∧
    len meta = from_be_bytes [b9; b10; b11; b12] ∧ len meta ≤ MAX_XL_META_BYTES ∧
    decode_envelope bytes = envelope_contents m0 m1 m2 m3 b4 b5 b6 b7 b8 meta x c1 c2 c3 c4.
Proof using.
  intros Hlen. destruct (N.leb_spec 18 (len bytes)) as [H18|H18].
  2:{ left. unfold decode_envelope. rewrite (proj2 (N.leb_gt _ _) H18). run_result. eauto. }
  destruct (frames bytes H18) as (m0&m1&m2&m3&b4&b5&b6&b7&b8&b9&b10&b11&b12&tail&->&H5).
  rewrite len_app in Hlen. set (size := from_be_bytes [b9; b10; b11; b12]).
  destruct (decide (MAX_XL_META_BYTES < size ∨ len tail < size + 5)) as [Hs|Hs].
  { left. apply decode_envelope_truncated; [lia|done]. }
  right. destruct (crc_frames tail size) as (meta&x&c1&c2&c3&c4&rest&->&Hm); [lia|].
  exists m0, m1, m2, m3, b4, b5, b6, b7, b8, b9, b10, b11, b12, meta, x, c1, c2, c3, c4, rest.
  split_and!; [done|done|lia|]. apply decode_envelope_framed; [done|lia].
Qed.

Lemma xl2_file_frames m0 m1 m2 m3 b4 b5 b6 b7 b8 b9 b10 b11 b12 meta x c1 c2 c3 c4 rest xs :
  let bytes := [m0; m1; m2; m3; b4; b5; b6; b7; b8; b9; b10; b11; b12] ++ meta ++ [x; c1; c2; c3; c4] ++ rest in
  len bytes ≤ MAX_XL_META_BYTES → len meta = from_be_bytes [b9; b10; b11; b12] →
  xl2_file bytes xs ↔
  [m0; m1; m2; m3] = XL2_MAGIC ∧ [b4; b5; b6; b7; b8] = [1; 0; 3; 0; 0xc6] ∧ x = 0xce ∧
  from_be_bytes [c1; c2; c3; c4] = xxh64 meta 0 `mod` 2 ^ 32 ∧ metadata_grammar meta xs.
Proof using.
  intros bytes Hlen Hm. unfold xl2_file. split.
  - intros (size & meta' & crc & rest' & Heq & _ & Hs & Hsize & Hc & Hcrc & Hg).
    do 4 (destruct size as [|? size]; [done|]). destruct size; [|rewrite !len_cons in Hs; lia].
    subst bytes. cbn in Heq. injection Heq as -> -> -> -> -> -> -> -> -> -> -> -> -> Heq.
    apply app_inj_1 in Heq as [-> Heq]; [|unfold len in *; lia].
    do 4 (destruct crc as [|? crc]; [done|]). destruct crc; [|rewrite !len_cons in Hc; lia].
    injection Heq as -> -> -> -> -> ->. done.
  - intros (Hmagic & Hp & -> & Hcrc & Hg). injection Hp as -> -> -> -> ->.
    exists [b9; b10; b11; b12], meta, [c1; c2; c3; c4], rest. split_and!; [|done..].
    subst bytes. by injection Hmagic as -> -> -> ->.
Qed.

Lemma inspect_all_sound bytes layouts : bytes_ok bytes →
  inspect_all_xl_meta bytes = ok layouts → ∃ xs, xl2_file bytes xs ∧ layouts = xs.*2.
Proof using.
  intros Hok. rewrite inspect_all_unfold, bind_ensure_ok, andb_true_iff, N.leb_le.
  intros ((_ & Hlen) & H). apply bind_ok in H as ([p meta] & Henvl & H).
  apply bind_ensure_ok in H as [->%bool_decide_eq_true H].
  destruct (decode_envelope_cases bytes Hlen)
    as [[msg He]|(m0&m1&m2&m3&b4&b5&b6&b7&b8&b9&b10&b11&b12&meta'&x&c1&c2&c3&c4&rest&->&Hm&Hmax&He)];
    rewrite He in Henvl; [done|].
  apply Forall_app in Hok as [Hhd Hok]. apply Forall_app in Hok as [Hokm _].
  pose proof slice_max_meta. apply envelope_contents_ok in Henvl as (H1 & H2 & H3 & H4 & -> & _);
    [|repeat (apply Forall_cons in Hhd as [? Hhd]); by repeat constructor|done|lia].
  apply (parse_all_ok _ _ _ _ _ _ decodes_metadata) in H as (st & (xs & Hg & ->) & [= <-]); [|done|lia].
  exists xs. split; [|done]. apply xl2_file_frames; [done..|]. by split_and!.
Qed.
Lemma inspect_all_complete bytes xs : bytes_ok bytes →
  xl2_file bytes xs → inspect_all_xl_meta bytes = ok (xs.*2).
Proof using.
  intros Hok (size & meta & crc & rest & -> & Hlen & Hs & Hsize & Hc & Hcrc & Hg).
  rewrite inspect_all_unfold, bind_ensure_ok, andb_true_iff, N.leb_le. split; [done|].
  do 4 (destruct size as [|? size]; [done|]). destruct size; [|rewrite !len_cons in Hs; lia].
  do 4 (destruct crc as [|? crc]; [done|]). destruct crc; [|rewrite !len_cons in Hc; lia].
  assert (len meta ≤ MAX_XL_META_BYTES) as Hmax by (rewrite !len_app in Hlen; lia).
  pose proof slice_max_meta.
  assert (bytes_ok meta) as Hokm.
  { apply Forall_app in Hok as [_ Hok]. apply Forall_app in Hok as [_ Hok].
    apply Forall_app in Hok as [_ Hok]. by apply Forall_app in Hok as [Hok _]. }
  rewrite bind_ok. exists (LATEST_RUSTFS, meta). split.
  - etrans; [apply decode_envelope_framed; [by symmetry|by rewrite Hsize]|].
    apply envelope_contents_ok; [by repeat constructor|done|lia|].
    split_and!; [done..|by eapply leading_of_metadata].
  - rewrite bind_ensure_ok, bool_decide_eq_true. split; [done|].
    apply (parse_all_ok _ _ _ _ _ _ decodes_metadata); [done|lia|].
    eexists. split; [by exists xs|done].
Qed.
Lemma inspect_all_safe bytes : bytes_ok bytes → inspect_all_xl_meta bytes ≠ panicked.
Proof using.
  intros Hok. rewrite inspect_all_unfold. apply bind_ensure_not_panicked. intros [_ Hlen]%andb_true_iff.
  apply N.leb_le in Hlen. pose proof slice_max_meta.
  destruct (decode_envelope_cases bytes Hlen)
    as [[msg He]|(m0&m1&m2&m3&b4&b5&b6&b7&b8&b9&b10&b11&b12&meta&x&c1&c2&c3&c4&rest&->&Hm&Hmax&He)];
    rewrite He; [done|].
  apply Forall_app in Hok as [Hhd Hok]. apply Forall_app in Hok as [Hokm _].
  apply bind_not_panicked; [apply envelope_contents_safe; [done|lia]|]. intros [p meta'] Henvl.
  apply bind_ensure_not_panicked. intros ->%bool_decide_eq_true.
  apply envelope_contents_ok in Henvl as (_ & _ & _ & _ & -> & _);
    [|repeat (apply Forall_cons in Hhd as [? Hhd]); by repeat constructor|done|lia].
  eapply parse_all_safe; [apply decodes_metadata|done|lia|]. by intros [layouts ids].
Qed.
End Facts.
