(* ===== verification/Xl2Theorems.v ===== *)
(** * Guarantees of the XL2 inspector

    The inspector accepts exactly the files of the grammar of [Xl2Facts], never
    panics on any bytes, hands out for a requested version exactly the shard
    layout the file declares for it, and recognises a drive by a [format.json]
    that lists it exactly once. *)
From S2P Require Import Prelude RustText Quorum Msgpack MsgpackFacts Xl2Inspector Xl2Facts.
From stdpp Require Import options.
Local Open Scope N_scope.

Section Theorems.
Context `{Henv : Xl2Env}.

(** [skip_value] skips exactly one value of the MessagePack grammar, nested no deeper than the limit. *)
Theorem skip_value_exact depth pre rest c' :
  len (pre ++ rest) ≤ slice_max → bytes_ok rest → (depth ≤ MAX_MSGPACK_DEPTH)%nat →
  skip_value depth (cur pre rest) = ok (tt, c') ↔
  ∃ value rest', rest = value ++ rest' ∧ mp_value (MAX_MSGPACK_DEPTH - depth) value ∧
    c' = cur (pre ++ value) rest'.
Proof using.
  clear Henv. intros Hlen Hok Hd. unfold skip_value.
  destruct (decodes_skip_value_at (MAX_MSGPACK_DEPTH - depth) pre rest Hlen Hok) as [Hiff _].
  rewrite Hiff. naive_solver.
Qed.

(** C21. The offline inspector accepts exactly the byte strings of the XL2 grammar
    (envelope, checksum, version headers and MessagePack bodies, with their limits), and
    the inventory it returns is the one the grammar assigns to them. *)
Theorem inspector_decides_grammar bytes layouts : bytes_ok bytes →
  inspect_all_xl_meta bytes = ok layouts ↔ ∃ xs, xl2_file bytes xs ∧ layouts = xs.*2.
Proof using.
  intros Hok. split; [by apply inspect_all_sound|].
  intros (xs & Hf & ->). by apply inspect_all_complete.
Qed.

(** C22. On any bytes the inspector returns a result or an error: no slice, index,
    length computation or nesting of values in a metadata file makes it panic. *)
Theorem inspector_never_panics bytes requested : bytes_ok bytes →
  inspect_all_xl_meta bytes ≠ panicked ∧ inspect_xl_meta bytes requested ≠ panicked.
Proof using.
  intros Hok. pose proof (inspect_all_safe bytes Hok) as Hall. split; [done|]. unfold inspect_xl_meta.
  apply bind_ensure_not_panicked; intros _. apply bind_context_not_panicked; intros u.
  apply bind_ensure_not_panicked; intros _. apply bind_not_panicked; [done|]. intros layouts _.
  apply bind_context_not_panicked; intros l. apply bind_ensure_not_panicked; intros _.
  by destruct (iv_shard_layout l).
Qed.

(** ** [format.json] *)
Lemma format_drives_from ids acc seen r : (∀ id, id ∈ acc ↔ id ∈ seen) →
  try_fold (λ '(drives, seen) id,
      id ← context (uuid_parse_str id) "format.json XL set entry is not a UUID";
      _ ← ensure (negb (uuid_is_nil id)) "format.json XL set contains a nil drive UUID";
      _ ← ensure (bool_decide (id ∉ seen)) "format.json XL sets contain a duplicate drive UUID";
      ok (drives ++ [id], {[id]} ∪ seen)) (acc, seen : gset uuid) ids = ok r ↔
  ∃ us, Forall2 (λ s u, uuid_parse_str s = Some u ∧ uuid_is_nil u = false) ids us ∧ NoDup us ∧
    (∀ u, u ∈ us → u ∉ acc) ∧ r = (acc ++ us, list_to_set us ∪ seen).
Proof using.
  revert acc seen. induction ids as [|s ids IH]; intros acc seen Hseen; cbn [try_fold].
  - split.
    + intros [= <-]. exists []. rewrite app_nil_r. split_and!; [constructor|constructor|set_solver|]. f_equal. set_solver.
    + intros (us & H & _ & _ & ->). apply Forall2_nil_inv_l in H as ->. rewrite app_nil_r. do 2 f_equal. set_solver.
  - rewrite bind_ok. setoid_rewrite bind_context_ok. setoid_rewrite bind_ensure_ok. setoid_rewrite bind_ensure_ok.
    setoid_rewrite negb_true_iff. setoid_rewrite bool_decide_eq_true. split.
    + intros (st & (u & Hu & Hnil & Hfresh & [= <-]) & Hrest).
      apply IH in Hrest as (us & Hus & Hnd & Hout & ->); [|set_solver].
      exists (u :: us). split_and!; [by constructor| | |].
      * constructor; [|done]. intros Hin. apply (Hout u Hin). set_solver.
      * intros v [->|Hv]%elem_of_cons; [by rewrite Hseen|]. specialize (Hout v Hv). set_solver.
      * rewrite <-app_assoc. f_equal. set_solver.
    + intros (us & Hus & Hnd & Hout & ->). apply Forall2_cons_inv_l in Hus as (u & us' & [Hu Hnil] & Hus & ->).
      apply NoDup_cons in Hnd as [Hnu Hnd]. eexists. split.
      * exists u. split_and!; [done..| |done]. rewrite <-Hseen. apply Hout. set_solver.
      * apply IH; [set_solver|]. exists us'. split_and!; [done..| |].
        -- intros v Hv. specialize (Hout v). set_solver.
        -- rewrite <-app_assoc. f_equal. set_solver.
Qed.
Lemma format_drives_ok ids us : format_drives ids = ok us ↔
  Forall2 (λ s u, uuid_parse_str s = Some u ∧ uuid_is_nil u = false) ids us ∧ NoDup us.
Proof using.
  unfold format_drives. rewrite bind_ok. setoid_rewrite (format_drives_from ids []); [|set_solver]. split.
  - intros ([drives seen] & (us' & Hus & Hnd & _ & [= -> _]) & [= <-]). done.
  - intros [Hus Hnd]. eexists (_, _). split; [|done]. exists us. split_and!; [done..|set_solver|done].
Qed.
Lemma occurs_once (us : list uuid) u : NoDup us → len (filter (λ id, id = u) us) = 1 ↔ u ∈ us.
Proof using.
  intros Hnd. split.
  - intros H. destruct (filter (λ id, id = u) us) as [|v l] eqn:E; [done|].
    assert (v ∈ filter (λ id, id = u) us) as [-> Hv]%list_elem_of_filter by (rewrite E; set_solver). done.
  - intros Hin. induction us as [|v us IH]; [set_solver|]. apply NoDup_cons in Hnd as [Hv Hnd].
    rewrite filter_cons. destruct (decide (v = u)) as [->|Hne].
    + replace (filter (λ id, id = u) us) with (@nil uuid); [done|]. symmetry. apply elem_of_nil_inv.
      intros w [-> Hw]%list_elem_of_filter. done.
    + apply IH; [done|]. set_solver.
Qed.

(** What a [format.json] must declare for a drive of a deployment. *)
Record format_of_drive (f : LatestRustfsFormat) (deployment drive : uuid) (drives : list uuid) : Prop := {
  fd_versions : rf_version f = "1" ∧ ef_version (rf_erasure f) = "3" ∧
    ef_distribution_algo (rf_erasure f) = "SIPMOD+PARITY";
  fd_deployment : uuid_parse_str (rf_id f) = Some deployment;
  fd_this : uuid_parse_str (ef_this (rf_erasure f)) = Some drive;
  fd_not_nil : uuid_is_nil deployment = false ∧ uuid_is_nil drive = false;
  fd_sets : ef_sets (rf_erasure f) ≠ [] ∧
    ∃ width, 0 < width ∧ Forall (λ set, len set = width) (ef_sets (rf_erasure f)) ∧
      rf_backend f = if width =? 1 then "xl-single" else "xl";
  fd_drives : Forall2 (λ s u, uuid_parse_str s = Some u ∧ uuid_is_nil u = false)
                (concat (ef_sets (rf_erasure f))) drives;
  fd_distinct : NoDup drives;
  fd_member : drive ∈ drives;
}.
Lemma uniform_sets (sets : list (list string)) backend :
  sets ≠ [] →
  ((backend = "xl" ∨ backend = "xl-single") ∧ Forall (λ set, set ≠ []) sets ∧
   (∃ set0, sets !! 0%nat = Some set0 ∧ Forall (λ set, len set = len set0) sets) ∧
   (backend = "xl-single" ↔ Forall (λ set, len set = 1) sets)) ↔
  ∃ width, 0 < width ∧ Forall (λ set, len set = width) sets ∧ backend = if width =? 1 then "xl-single" else "xl".
Proof using.
  clear Henv. intros Hne. destruct sets as [|set0 sets]; [done|]. split.
  - intros (Hb & Hsome & (? & [= <-] & Hw) & Hsingle). exists (len set0). split_and!; [|done|].
    + apply Forall_cons in Hsome as [H0 _]. destruct set0; [done|]. rewrite len_cons. lia.
    + destruct (N.eqb_spec (len set0) 1) as [H1|H1].
      * apply Hsingle. by rewrite <-H1.
      * destruct Hb as [->| ->]; [done|]. by pose proof (proj1 Hsingle eq_refl) as [? _]%Forall_cons.
  - intros (w & Hw & Hall & ->). pose proof Hall as [H0 _]%Forall_cons. split_and!.
    + destruct (w =? 1); auto.
    + eapply List.Forall_impl; [|exact Hall]. intros set <- ->. done.
    + exists set0. split; [done|]. by rewrite H0.
    + destruct (N.eqb_spec w 1) as [->|H1]; [done|]. split; [done|]. intros [H2 _]%Forall_cons. lia.
Qed.

Lemma forallb_Forall {A} (f : A → bool) (P : A → Prop) l :
  (∀ x, f x = true ↔ P x) → forallb f l = true ↔ Forall P l.
Proof using. clear Henv. intros HP. rewrite forallb_forall, List.Forall_forall. by setoid_rewrite HP. Qed.
(** The three set checks and the backend check together. *)
Lemma set_checks sets backend set0 : sets !! 0%nat = Some set0 →
  (bool_decide (backend = "xl") || bool_decide (backend = "xl-single") = true ∧
   forallb (λ set, negb (bool_decide (set = []))) sets = true ∧
   forallb (λ set, len set =? len set0) sets = true ∧
   Bool.eqb (bool_decide (backend = "xl-single")) (forallb (λ set : list string, len set =? 1) sets) = true) ↔
  ∃ width, 0 < width ∧ Forall (λ set, len set = width) sets ∧ backend = if width =? 1 then "xl-single" else "xl".
Proof using.
  clear Henv. intros H0. rewrite <-uniform_sets by (by destruct sets).
  rewrite orb_true_iff, !bool_decide_eq_true.
  rewrite (forallb_Forall _ (λ set : list string, set ≠ [])) by (intros; by rewrite negb_true_iff, bool_decide_eq_false).
  rewrite (forallb_Forall _ (λ set : list string, len set = len set0)) by (intros; apply N.eqb_eq).
  rewrite Bool.eqb_true_iff.
  assert (forallb (λ set : list string, len set =? 1) sets = bool_decide (Forall (λ set, len set = 1) sets)) as ->.
  { apply eq_bool_prop_intro. rewrite bool_decide_spec, Is_true_true.
    apply forallb_Forall. intros; apply N.eqb_eq. }
  assert (∀ P Q `{Decision P, Decision Q}, bool_decide P = bool_decide Q ↔ (P ↔ Q)) as ->
    by (intros; repeat case_bool_decide; naive_solver).
  naive_solver.
Qed.

(** [validate_format_json_drive] accepts exactly the files that give the drive its place in the deployment. *)
Theorem format_identifies_drive bytes deployment_id drive_id :
  validate_format_json_drive bytes deployment_id drive_id = ok tt ↔
  ∃ f deployment drive drives, bytes ≠ [] ∧ len bytes ≤ 1024 * 1024 ∧
    format_from_slice bytes = Some f ∧
    uuid_parse_str deployment_id = Some deployment ∧ uuid_parse_str drive_id = Some drive ∧
    format_of_drive f deployment drive drives.
Proof using.
  unfold validate_format_json_drive. split.
  - intros H. apply bind_ensure_ok in H as [[Hne Hlen]%andb_true_iff H].
    apply negb_true_iff, bool_decide_eq_false in Hne. apply N.leb_le in Hlen.
    apply bind_context_ok in H as (deployment & Hdep & H). apply bind_context_ok in H as (drive & Hdrive & H).
    apply bind_ensure_ok in H as [[Hn1%negb_true_iff Hn2%negb_true_iff]%andb_true_iff H].
    apply bind_context_ok in H as (f & Hf & H). cbv zeta in H.
    apply bind_context_ok in H as (dep' & Hdep' & H). apply bind_context_ok in H as (drive' & Hdrive' & H).
    apply bind_ensure_ok in H as [Hids H]. apply bind_ensure_ok in H as [Hsets H].
    apply bind_ok in H as (set0 & Hset0%expect_ok & H). apply bind_ensure_ok in H as [Hwidth H].
    apply bind_ok in H as (drives & Hdrives & H). apply bind_ensure_ok in H as [Hocc%N.eqb_eq H].
    apply ensure_ok in H. apply format_drives_ok in Hdrives as [Hdrives Hnd].
    rewrite occurs_once in Hocc by done.
    apply andb_true_iff in Hsets as [Hne'%negb_true_iff%bool_decide_eq_false Hsome].
    rewrite !andb_true_iff in Hids. destruct_and! Hids.
    repeat match goal with H : bool_decide _ = true |- _ => apply bool_decide_eq_true in H end. subst.
    exists f, deployment, drive, drives. split_and!; [done..|]. constructor; try done.
    split; [done|]. by eapply set_checks.
  - intros (f & deployment & drive & drives & Hne & Hlen & Hf & Hdep & Hdrive
            & [(H1 & H2 & H3) H4 H5 [H6 H7] [H8 H9] H10 H11 H12]).
    rewrite bind_ensure_ok, andb_true_iff, negb_true_iff, bool_decide_eq_false, N.leb_le. split; [done|].
    rewrite bind_context_ok. exists deployment. split; [done|].
    rewrite bind_context_ok. exists drive. split; [done|].
    rewrite H6, H7, bind_ensure_ok. split; [done|]. rewrite bind_context_ok. exists f. split; [done|]. cbv zeta.
    rewrite bind_context_ok. exists deployment. split; [done|]. rewrite bind_context_ok. exists drive. split; [done|].
    destruct (ef_sets (rf_erasure f)) as [|set0 sets] eqn:Es; [done|].
    apply (set_checks _ _ set0) in H9 as (Hb & Hsome & Hw & Heqb); [|done].
    rewrite bind_ensure_ok. split.
    { rewrite !andb_true_iff, Hb, !bool_decide_eq_true. done. }
    rewrite bind_ensure_ok, Hsome. split; [done|]. rewrite bind_ok. exists set0. split; [done|].
    rewrite bind_ensure_ok, Hw. split; [done|]. rewrite bind_ok. exists drives.
    split; [by apply format_drives_ok|]. rewrite bind_ensure_ok, N.eqb_eq, occurs_once by done.
    split; [done|]. by rewrite Heqb.
Qed.

(** ** A requested version *)

(** Every version the inventory lists is described by a header and a body. *)
Lemma listed_described bytes xs id l :
  xl2_file bytes xs → (id, l) ∈ xs → ∃ h b, version_described h b id l.
Proof using.
  intros (size & meta & crc & rest & _ & _ & _ & _ & _ & _ & he & me & ce & es & _ & _ & _ & _ & _ & Hes & _) Hin.
  apply list_elem_of_lookup in Hin as [i Hi]. eapply Forall2_lookup_r in Hes as (e & _ & He); [|exact Hi].
  destruct He as (? & h & ? & b & _ & _ & _ & Hv). by exists h, b.
Qed.
Lemma listed_id bytes xs id l : xl2_file bytes xs → (id, l) ∈ xs → iv_version_id l = uuid_to_string id.
Proof using. intros Hf Hin. destruct (listed_described _ _ _ _ Hf Hin) as (h & b & Hv). by destruct Hv. Qed.
Lemma listed_parts bytes xs id l layout : xl2_file bytes xs → (id, l) ∈ xs →
  iv_shard_layout l = Some layout →
  l = mkXl2InventoryVersionLayout (uuid_to_string id) Xl2InventoryVersionKind.ShardParts (Some layout) ∧
  ∃ o, layout_described id o layout.
Proof using.
  intros Hf Hin. destruct (listed_described _ _ _ _ Hf Hin) as (h & b & Hv).
  destruct Hv; cbn; [done..|]. intros [= <-]. eauto.
Qed.

(** C23. The layout of a located version has pairwise different part paths of the form
    data-directory/part.n with n positive, as many positive sizes, the pinned format
    profile, and erasure parameters with positive parity at most the data shards and an
    index within the set. *)
Theorem located_parts_well_formed bytes requested layout : bytes_ok bytes →
  inspect_xl_meta bytes requested = ok layout →
  let paths := vl_relative_part_paths layout in
  NoDup paths ∧ paths ≠ [] ∧
  (∀ path, path ∈ paths → ∃ n, 0 < n ∧ path = vl_data_directory layout +:+ "/part." +:+ dec n) ∧
  len (vl_part_sizes layout) = len paths ∧ Forall (λ n, 0 < n) (vl_part_sizes layout) ∧
  0 < vl_erasure_parity_shards layout ∧ vl_erasure_parity_shards layout ≤ vl_erasure_data_shards layout ∧
  0 < vl_erasure_index layout ∧
  vl_erasure_index layout ≤ vl_erasure_data_shards layout + vl_erasure_parity_shards layout ∧
  vl_profile layout = LATEST_RUSTFS.
Proof using.
  intros Hok H paths. unfold inspect_xl_meta in H. apply bind_ensure_ok in H as [_ H].
  apply bind_context_ok in H as (u & _ & H). apply bind_ensure_ok in H as [_ H].
  apply bind_ok in H as (layouts & Hall & H). cbv zeta in H.
  apply inspect_all_sound in Hall as (xs & Hf & ->); [|done].
  apply bind_context_ok in H as (l & [ls Hl]%head_Some & H). apply bind_ensure_ok in H as [_ Hlay%context_ok].
  assert (l ∈ filter (λ l, iv_version_id l = uuid_to_string u) xs.*2) as [_ Hin]%list_elem_of_filter
    by (rewrite Hl; set_solver).
  apply list_elem_of_fmap in Hin as ([id l'] & -> & Hin).
  destruct (listed_parts bytes xs id l' layout Hf Hin Hlay) as [_ [o D]].
  destruct (ld_geometry _ _ _ D) as (? & ? & _). destruct (ld_in_set _ _ _ D) as [? ?].
  destruct (ld_distinct _ _ _ D) as [Hnd Hpos]. destruct (ld_sized _ _ _ D) as [Hsl Hsp].
  destruct (ld_some_parts _ _ _ D) as [Hsome _].
  subst paths. rewrite (ld_paths _ _ _ D). split_and!; [..|done|done|done|done|done|apply (ld_profile _ _ _ D)].
  - apply NoDup_fmap_2; [|done]. intros a b Heq. apply (inj (String.append _)), (inj (String.append _)) in Heq. by apply dec_inj.
  - by destruct (vl_part_numbers layout).
  - intros path (n & -> & Hn)%list_elem_of_fmap. rewrite Forall_forall in Hpos. eauto.
  - rewrite Hsl. unfold len. by rewrite length_fmap.
Qed.

(** [Uuid::parse_str] reads back what [Uuid::to_string] writes. *)
Context (parse_to_string : ∀ u, uuid_parse_str (uuid_to_string u) = Some u).

Lemma to_string_inj u v : uuid_to_string u = uuid_to_string v → u = v.
Proof using parse_to_string. intros H. apply (f_equal uuid_parse_str) in H. rewrite !parse_to_string in H. by injection H. Qed.

Lemma matching_versions bytes xs u : xl2_file bytes xs →
  filter (λ l, iv_version_id l = uuid_to_string u) (xs.*2) = (filter (λ x, x.1 = u) xs).*2.
Proof using parse_to_string.
  intros Hf. assert (∀ id l, (id, l) ∈ xs → iv_version_id l = uuid_to_string id) as Hid
    by (intros id l; by eapply listed_id). clear Hf.
  induction xs as [|[id l] xs IH]; [done|]. rewrite fmap_cons, !filter_cons. cbn [fst snd].
  rewrite (Hid id l) by set_solver. rewrite IH by set_solver.
  destruct (decide (id = u)) as [->|Hne]; [by rewrite !decide_True|].
  assert (uuid_to_string id ≠ uuid_to_string u) by (by intros ?%to_string_inj). by rewrite !decide_False.
Qed.
Lemma filter_key_unique {A} (xs : list (uuid * A)) id a :
  NoDup xs.*1 → (id, a) ∈ xs → filter (λ x, x.1 = id) xs = [(id, a)].
Proof using.
  clear parse_to_string. induction xs as [|[k b] xs IH]; [set_solver|].
  rewrite fmap_cons, filter_cons. cbn [fst]. intros [Hk Hnd]%NoDup_cons Hin.
  apply elem_of_cons in Hin as [[= <- <-]|Hin].
  - rewrite decide_True by done. f_equal. apply elem_of_nil_inv. intros [j c] [Heq Hj]%list_elem_of_filter. cbn in Heq. subst j.
    apply Hk. by apply (list_elem_of_fmap_2 fst) in Hj.
  - rewrite decide_False; [by apply IH|]. intros ->. apply Hk. by apply (list_elem_of_fmap_2 fst) in Hin.
Qed.

(** C24. inspect_xl_meta returns a layout exactly when the file is in the grammar and
    the version with the requested, non-nil UUID is stored in shard parts with that
    layout; it never answers for another version. *)
Theorem requested_version_exact bytes requested layout : bytes_ok bytes →
  inspect_xl_meta bytes requested = ok layout ↔
  ∃ u xs, uuid_parse_str requested = Some u ∧ uuid_is_nil u = false ∧ xl2_file bytes xs ∧
    (u, mkXl2InventoryVersionLayout (uuid_to_string u) Xl2InventoryVersionKind.ShardParts (Some layout)) ∈ xs.
Proof using parse_to_string.
  intros Hok. unfold inspect_xl_meta. rewrite bind_ensure_ok, bind_context_ok.
  setoid_rewrite bind_ensure_ok. setoid_rewrite bind_ok. setoid_rewrite negb_true_iff. split.
  - intros (_ & u & Hu & Hnil & layouts & Hall & H). exists u.
    apply inspect_all_sound in Hall as (xs & Hf & ->); [|done]. exists xs. split_and!; [done..|].
    rewrite (matching_versions bytes) in H by done.
    apply bind_context_ok in H as (l & Hl & H). apply bind_ensure_ok in H as [_ Hlay%context_ok].
    rewrite head_Some in Hl. destruct Hl as [ls Hl].
    assert (l ∈ (filter (λ x, x.1 = u) xs).*2) as Hin by (rewrite Hl; set_solver).
    apply list_elem_of_fmap in Hin as ([id l'] & -> & [Hid Hin]%list_elem_of_filter). cbn in *. subst id.
    destruct (listed_parts bytes xs u l' layout Hf Hin Hlay) as [-> _]. done.
  - intros (u & xs & Hu & Hnil & Hf & Hin). split.
    { destruct Hf as (size & meta & crc & rest & -> & Hlen & _). apply andb_true_iff. by rewrite N.leb_le. }
    exists u. split_and!; [done..|]. exists (xs.*2). split; [by apply inspect_all_complete|].
    rewrite (matching_versions bytes) by done.
    rewrite (filter_key_unique xs u _) by
      (done || by destruct Hf as (?&?&?&?&_&_&_&_&_&_&?&?&?&?&_&_&_&_&_&_&Hnd)).
    done.
Qed.
End Theorems.
