(* ===== verification/Xl2Samples.v ===== *)
(** * An xl.meta file

    A metadata file written field by field, with a hash and UUIDs printed in the
    hyphenated form, on which the theorems of the inspector are applied. *)
From S2P Require Import Prelude RustText Quorum Msgpack MsgpackFacts Xl2Inspector Xl2Facts Xl2Theorems.
From stdpp Require Import options.
Local Open Scope N_scope.

(** A UUID is its hyphenated form. *)
Definition sample_uuid_string (u : list N) : string :=
  let hex b := String (hex_digit (b / 16)) (String (hex_digit (b mod 16)) EmptyString) in
  let part l := foldr String.append EmptyString (hex <$> l) in
  part (take 4 u) +:+ "-" +:+ part (take 2 (drop 4 u)) +:+ "-" +:+ part (take 2 (drop 6 u))
  +:+ "-" +:+ part (take 2 (drop 8 u)) +:+ "-" +:+ part (drop 10 u).
Definition sample_hash (b : list N) (seed : N) : N := foldl (λ acc x, (acc * 31 + x) mod 2 ^ 64) seed b.
Global Instance xl2_env : Xl2Env := {|
  uuid := string; uuid_eq_dec := _; uuid_countable := _;
  uuid_parse_str := Some; uuid_to_string := λ s, s;
  uuid_from_bytes := sample_uuid_string;
  uuid_is_nil := λ u, bool_decide (u = sample_uuid_string (repeat 0 16));
  xxh64 := sample_hash;
  format_from_slice := λ b, None |}.
Definition be (w : nat) (n : N) : list N :=
  (fix go w := match w with O => [] | S w => (n / 256 ^ N.of_nat w) mod 256 :: go w end) w.
Definition bytes_of (s : string) : list N := N_of_ascii <$> String.list_ascii_of_string s.
Definition w_str (s : string) : list N := (0xa0 + len (bytes_of s)) :: bytes_of s.
Definition w_bin (b : list N) : list N := if len b <? 256 then [0xc4; len b] ++ b else 0xc5 :: be 2 (len b) ++ b.
Definition w_uint (n : N) : list N := if n <? 128 then [n] else if n <? 256 then [0xcc; n] else if n <? 65536 then 0xcd :: be 2 n else 0xce :: be 4 n.
Definition w_version : list N := [0x01;0x23;0x45;0x67;0x89;0xab;0xcd;0xef;0x01;0x23;0x45;0x67;0x89;0xab;0xcd;0xef].
Definition w_dir : list N := [0xfe;0xdc;0xba;0x98;0x76;0x54;0x32;0x10;0xfe;0xdc;0xba;0x98;0x76;0x54;0x32;0x10].
Definition w_header (flags : N) : list N :=
  [0x97] ++ w_bin w_version ++ (0xd3 :: be 8 1) ++ w_bin [1;2;3;4] ++ [0xcc;1;0xcc;flags;0xcc;4;0xcc;4].
Definition w_object (dir : list N) (parts sizes : list N) : list N :=
  (0xde :: be 2 17) ++ w_str "ID" ++ w_bin w_version ++ w_str "DDir" ++ w_bin dir
  ++ w_str "EcAlgo" ++ w_uint 1 ++ w_str "EcM" ++ w_uint 4 ++ w_str "EcN" ++ w_uint 4
  ++ w_str "EcBSize" ++ w_uint 1048576 ++ w_str "EcIndex" ++ w_uint 2
  ++ w_str "EcDist" ++ [0x98;1;2;3;4;5;6;7;8] ++ w_str "CSumAlgo" ++ w_uint 1
  ++ w_str "PartNums" ++ (0x90 + len parts :: concat (w_uint <$> parts))
  ++ w_str "PartETags" ++ [0xc0]
  ++ w_str "PartSizes" ++ (0x90 + len sizes :: concat (w_uint <$> sizes))
  ++ w_str "PartASizes" ++ [0xc0] ++ w_str "Size" ++ w_uint (sum_N sizes) ++ w_str "MTime" ++ w_uint 1
  ++ w_str "MetaSys" ++ [0xc0] ++ w_str "MetaUsr" ++ [0xc0].
Definition w_body obj : list N := [0x83] ++ w_str "Type" ++ w_uint 1 ++ w_str "V2Obj" ++ obj ++ w_str "v" ++ w_uint 1.
Definition w_meta (versions : list (list N * list N)) : list N :=
  w_uint 3 ++ w_uint 3 ++ w_uint (len versions) ++ concat ((λ '(h, b), w_bin h ++ w_bin b) <$> versions).
Definition w_xl (meta : list N) : list N :=
  XL2_MAGIC ++ [1;0;3;0;0xc6] ++ be 4 (len meta) ++ meta ++ [0xce] ++ be 4 (sample_hash meta 0 mod 2 ^ 32).
Definition w_fixture := w_xl (w_meta [(w_header 2, w_body (w_object w_dir [1;3] [1024;1024]))]).

Definition w_version_id : string := "01234567-89ab-cdef-0123-456789abcdef".
Definition w_layout : Xl2ObjectVersionLayout :=
  mkXl2ObjectVersionLayout OFFLINE_XL2_INSPECTOR_REVISION LATEST_RUSTFS w_version_id
    "fedcba98-7654-3210-fedc-ba9876543210" 4 4 2 [1; 3] [1024; 1024]
    ["fedcba98-7654-3210-fedc-ba9876543210/part.1"; "fedcba98-7654-3210-fedc-ba9876543210/part.3"].
Lemma w_fixture_inspected : inspect_xl_meta w_fixture w_version_id = ok w_layout.
Proof. vm_compute. reflexivity. Qed.
Lemma w_fixture_bytes : bytes_ok w_fixture.
Proof. unfold bytes_ok. apply (bool_decide_unpack (Forall (λ b, b < 256) w_fixture)). vm_compute. exact I. Qed.
Definition w_inventory : list Xl2InventoryVersionLayout :=
  [mkXl2InventoryVersionLayout w_version_id Xl2InventoryVersionKind.ShardParts (Some w_layout)].

(** ** The theorems on this file *)
Lemma skip_value_exact_witness :
  skip_value 0 (cur [] [0x92; 1; 0xa1; 65; 7]) = ok (tt, cur [0x92; 1; 0xa1; 65] [7]) ∧
  ∃ value rest', [0x92; 1; 0xa1; 65; 7] = value ++ rest' ∧ mp_value (MAX_MSGPACK_DEPTH - 0) value ∧
    cur [0x92; 1; 0xa1; 65] [7] = cur ([] ++ value) rest'.
Proof.
  assert (skip_value 0 (cur [] [0x92; 1; 0xa1; 65; 7]) = ok (tt, cur [0x92; 1; 0xa1; 65] [7])) as H
    by (vm_compute; reflexivity).
  split; [exact H|]. revert H.
  apply (skip_value_exact 0 [] [0x92; 1; 0xa1; 65; 7] (cur [0x92; 1; 0xa1; 65] [7]));
    [vm_compute; discriminate|unfold bytes_ok; repeat constructor|lia].
Defined.
Lemma inspector_decides_grammar_witness : ∃ xs, xl2_file w_fixture xs ∧ w_inventory = xs.*2.
Proof.
  apply (inspector_decides_grammar w_fixture w_inventory); [apply w_fixture_bytes|vm_compute; reflexivity].
Defined.
Lemma inspector_never_panics_witness :
  inspect_all_xl_meta w_fixture ≠ panicked ∧ inspect_xl_meta w_fixture w_version_id ≠ panicked.
Proof. apply (inspector_never_panics w_fixture w_version_id), w_fixture_bytes. Defined.
Lemma located_parts_well_formed_witness :
  NoDup (vl_relative_part_paths w_layout) ∧ len (vl_part_sizes w_layout) = 2.
Proof.
  destruct (located_parts_well_formed w_fixture w_version_id w_layout w_fixture_bytes w_fixture_inspected)
    as (Hnd & _ & _ & Hlen & _). split; [exact Hnd|]. rewrite Hlen. vm_compute. reflexivity.
Defined.
Lemma requested_version_exact_witness :
  ∃ u xs, uuid_parse_str w_version_id = Some u ∧ uuid_is_nil u = false ∧ xl2_file w_fixture xs ∧
    (u, mkXl2InventoryVersionLayout (uuid_to_string u) Xl2InventoryVersionKind.ShardParts (Some w_layout)) ∈ xs.
Proof.
  apply (requested_version_exact (Henv := xl2_env) (λ u, eq_refl (Some u)) w_fixture w_version_id w_layout);
    [apply w_fixture_bytes|apply w_fixture_inspected].
Defined.
