(* ===== verification/RustWords.v ===== *)
(** * Words of a string

    [char::is_whitespace], [split_whitespace], [trim], [split] and the parsing
    of unsigned integers, on UTF-8 strings as byte strings, and the round trip
    of [split_whitespace] and [join]. *)
From S2P Require Import Prelude RustText.
From stdpp Require Import options.

(** The number of bytes of the [White_Space] character that starts the string,
    0 if another character does. *)
Definition white3 (n k j : N) : bool :=
  ((n =? 225) && (k =? 154) && (j =? 128)
   || (n =? 226) && (k =? 128) && ((128 <=? j) && (j <=? 138) || (j =? 168) || (j =? 169) || (j =? 175))
   || (n =? 226) && (k =? 129) && (j =? 159)
   || (n =? 227) && (k =? 128) && (j =? 128))%N.
Definition white2 (n k : N) : bool := ((n =? 194) && ((k =? 133) || (k =? 160)))%N.
Definition white1 (n : N) : bool := ((9 <=? n) && (n <=? 13) || (n =? 32))%N.
Definition white_len (s : string) : nat :=
  match s with
  | EmptyString => 0
  | String c s1 =>
      if white1 (N_of_ascii c) then 1 else
      match s1 with
      | EmptyString => 0
      | String d s2 =>
          if white2 (N_of_ascii c) (N_of_ascii d) then 2 else
          match s2 with
          | EmptyString => 0
          | String e _ => if white3 (N_of_ascii c) (N_of_ascii d) (N_of_ascii e) then 3 else 0
          end
      end
  end.
(** [s.chars().any(char::is_whitespace)]. *)
Fixpoint any_white (s : string) : bool :=
  match s with EmptyString => false | String _ s' => negb (white_len s =? 0)%nat || any_white s' end.

(** [s.split_whitespace()]: [word] is the word read so far, reversed; [skip] the
    bytes left of a separator. *)
Fixpoint string_rev_app (s t : string) : string :=
  match s with EmptyString => t | String c s' => string_rev_app s' (String c t) end.
Definition flush (word : string) : list string :=
  match word with EmptyString => [] | _ => [string_rev_app word EmptyString] end.
Fixpoint split_words (word : string) (skip : nat) (s : string) : list string :=
  match s with
  | EmptyString => flush word
  | String c s' =>
      match skip with
      | S skip => split_words word skip s'
      | O => match white_len s with
             | O => split_words (String c word) 0 s'
             | S rest => flush word ++ split_words EmptyString rest s'
             end
      end
  end.
Definition split_whitespace (s : string) : list string := split_words EmptyString 0 s.

(** [s.trim()]. *)
Fixpoint trim_start (skip : nat) (s : string) : string :=
  match s with
  | EmptyString => EmptyString
  | String _ s' =>
      match skip with
      | S skip => trim_start skip s'
      | O => match white_len s with O => s | S rest => trim_start rest s' end
      end
  end.
Fixpoint trim_end (s : string) : string :=
  if trim_is_empty s then EmptyString
  else match s with EmptyString => EmptyString | String c s' => String c (trim_end s') end.
Definition trim (s : string) : string := trim_end (trim_start 0 s).

(** [s.split(c)]. *)
Fixpoint split_go (sep : ascii) (piece : string) (s : string) : list string :=
  match s with
  | EmptyString => [string_rev_app piece EmptyString]
  | String c s' =>
      if decide (c = sep) then string_rev_app piece EmptyString :: split_go sep EmptyString s'
      else split_go sep (String c piece) s'
  end.
Definition split (sep : ascii) (s : string) : list string := split_go sep EmptyString s.

(** [str::parse] of an unsigned integer up to [limit]: an optional [+], at least
    one digit, no overflow. *)
Definition parse_uint (limit : N) (s : string) : option N :=
  match match s with String "+" s' => s' | _ => s end with
  | EmptyString => None
  | digits => n ← digits_value 0 digits; if (n <=? limit)%N then Some n else None
  end%char.

Definition ascii_digit (c : ascii) : bool := ((48 <=? N_of_ascii c) && (N_of_ascii c <=? 57))%N.
Definition ascii_alpha (c : ascii) : bool :=
  ((65 <=? N_of_ascii c) && (N_of_ascii c <=? 90) || (97 <=? N_of_ascii c) && (N_of_ascii c <=? 122))%N.
Definition alphanumeric (c : ascii) : bool := ascii_digit c || ascii_alpha c.
(** [s.as_bytes()]. *)
Definition as_bytes (s : string) : list N := N_of_ascii <$> String.list_ascii_of_string s.

(** ** Splitting and joining *)
Definition is_word (w : string) : Prop := w ≠ "" ∧ any_white w = false.

Lemma string_rev_app_app a b c : string_rev_app (a +:+ b) c = string_rev_app b (string_rev_app a c).
Proof. revert c. induction a as [|x a IH]; intros c; [done|]. apply (IH (String x c)). Qed.
Lemma string_rev_app_acc a b : string_rev_app a b = string_rev_app a "" +:+ b.
Proof.
  revert b. induction a as [|x a IH]; intros b; [done|]. cbn. rewrite IH, (IH (String x "")).
  by rewrite append_assoc.
Qed.
Lemma string_rev_involutive a : string_rev_app (string_rev_app a "") "" = a.
Proof.
  induction a as [|x a IH]; [done|]. cbn. rewrite (string_rev_app_acc a (String x "")).
  rewrite string_rev_app_app, IH. done.
Qed.

(** A space after a string does not complete a longer whitespace character. *)
Lemma white_len_space c w r : white_len (String c w) = 0 → white_len (String c (w +:+ String " " r)) = 0.
Proof.
  destruct w as [|d [|e w]]; rewrite ?append_nil_l, ?append_cons, ?append_nil_l; cbn [white_len].
  - destruct (white1 _); [done|]. intros _.
    assert (white2 (N_of_ascii c) (N_of_ascii " ") = false) as ->
      by (unfold white2; cbn; by rewrite andb_false_r).
    destruct r as [|e r]; [done|].
    assert (white3 (N_of_ascii c) (N_of_ascii " ") (N_of_ascii e) = false) as ->; [|done].
    unfold white3. cbn. by rewrite !andb_false_r.
  - destruct (white1 _); [done|]. destruct (white2 _ _); [done|]. intros _.
    assert (white3 (N_of_ascii c) (N_of_ascii d) (N_of_ascii " ") = false) as ->; [|done].
    unfold white3. cbn. by rewrite !andb_false_r.
  - done.
Qed.
(** A longer string has every whitespace character of a shorter one. *)
Lemma white_len_prefix c w r : white_len (String c (w +:+ r)) = 0 → white_len (String c w) = 0.
Proof.
  destruct w as [|d [|e w]]; rewrite ?append_nil_l, ?append_cons, ?append_nil_l; cbn [white_len].
  - by destruct (white1 _).
  - destruct (white1 _); [done|]. by destruct (white2 _ _).
  - done.
Qed.

Lemma split_words_word acc w :
  any_white w = false → split_words acc 0 w = flush (string_rev_app w acc).
Proof.
  revert acc. induction w as [|c w IH]; intros acc; [done|]. cbn [any_white split_words].
  intros [Hc%negb_false_iff%Nat.eqb_eq Hw]%orb_false_iff. rewrite Hc. by apply IH.
Qed.
Lemma split_words_space acc w r : any_white w = false →
  split_words acc 0 (w +:+ String " " r) = flush (string_rev_app w acc) ++ split_words "" 0 r.
Proof.
  revert acc. induction w as [|c w IH]; intros acc; [done|]. rewrite append_cons. cbn [any_white split_words].
  intros [Hc%negb_false_iff%Nat.eqb_eq Hw]%orb_false_iff. rewrite white_len_space by done. by apply IH.
Qed.
Lemma flush_word w : w ≠ "" → flush (string_rev_app w "") = [w].
Proof.
  intros Hw. unfold flush. destruct (string_rev_app w "") as [|c v] eqn:E.
  - apply (f_equal (λ s, string_rev_app s "")) in E. by rewrite string_rev_involutive in E.
  - by rewrite <-E, string_rev_involutive.
Qed.
Lemma split_join ws : Forall is_word ws → split_whitespace (join " " ws) = ws.
Proof.
  unfold split_whitespace. induction 1 as [|w ws [Hw Hn] Hws IH]; [done|]. destruct ws as [|w' ws].
  - cbn [join]. rewrite split_words_word by done. by apply flush_word.
  - change (join " " (w :: w' :: ws)) with (w +:+ String " " (join " " (w' :: ws))).
    rewrite split_words_space by done. by rewrite flush_word, IH.
Qed.

Lemma any_white_app a b : any_white (a +:+ b) = false → any_white a = false.
Proof.
  induction a as [|c a IH]; [done|]. rewrite append_cons. cbn [any_white].
  intros [Hc%negb_false_iff%Nat.eqb_eq Hab]%orb_false_iff. apply orb_false_iff. split; [|auto].
  apply negb_false_iff, Nat.eqb_eq. by eapply white_len_prefix.
Qed.

(** No whitespace character starts in [a] when [s] follows it. *)
Fixpoint clean_before (a s : string) : Prop :=
  match a with
  | EmptyString => True
  | String c a' => white_len (String c (a' +:+ s)) = 0 ∧ clean_before a' s
  end.
Lemma clean_before_any a s : clean_before a s → any_white a = false.
Proof.
  induction a as [|c a IH]; [done|]. cbn [clean_before any_white]. intros [Hc%white_len_prefix Ha].
  by rewrite Hc, IH.
Qed.
Lemma clean_before_snoc a c s :
  clean_before a (String c s) → white_len (String c s) = 0 → clean_before (a +:+ String c "") s.
Proof.
  induction a as [|x a IH]; [done|]. rewrite append_cons. cbn [clean_before]. intros [Hx Ha] Hc.
  split; [|by apply IH]. by rewrite append_assoc, append_cons, append_nil_l.
Qed.
Lemma flush_is_word acc s : clean_before (string_rev_app acc "") s → Forall is_word (flush acc).
Proof.
  intros Hc%clean_before_any. destruct acc as [|c acc]; [by constructor|]. cbn [flush].
  apply Forall_singleton. split; [|done]. intros E.
  apply (f_equal (λ s, string_rev_app s "")) in E. by rewrite string_rev_involutive in E.
Qed.
Lemma split_words_are_words s : ∀ acc skip, clean_before (string_rev_app acc "") s → (skip = 0 ∨ acc = "") →
  Forall is_word (split_words acc skip s).
Proof.
  induction s as [|c s IH]; intros acc skip Hc Hs; cbn [split_words]; [by eapply flush_is_word|].
  destruct skip as [|skip].
  - destruct (white_len (String c s)) as [|rest] eqn:Hw.
    + apply IH; [|by left]. cbn [string_rev_app]. rewrite string_rev_app_acc. by apply clean_before_snoc.
    + apply Forall_app. split; [by eapply flush_is_word|]. apply IH; [done|by right].
  - destruct Hs as [[=]| ->]. apply IH; [done|by right].
Qed.
Lemma split_whitespace_words s : Forall is_word (split_whitespace s).
Proof. apply split_words_are_words; [done|by left]. Qed.
(** Splitting what was split and joined again changes nothing. *)
Lemma split_join_split s : split_whitespace (join " " (split_whitespace s)) = split_whitespace s.
Proof. apply split_join, split_whitespace_words. Qed.
