(* ===== verification/StorageLease.v ===== *)
(** * Kubernetes Lease adapter

    [KubernetesStorageLeaseAdapter] of [src/fault/storage_recovery_lease.rs]: the
    exclusive ownership of a storage target, kept as a Kubernetes Lease that is
    created, taken over after its expiry, renewed and deleted under optimistic
    concurrency. The functions that talk to the API server are programs: trees
    whose nodes are one API request or one reading of the clock and whose
    branches are its possible answers. [k8s_openapi]'s [MicroTime] and its
    conversions are the operations of [LeaseTime]. *)
From S2P Require Import Prelude RustText.
From stdpp Require Import options.

Class LeaseTime := {
  MicroTime : Type;
  timestamp_millis : MicroTime → Z;
  timestamp_millis_opt : Z → option MicroTime;
}.

Definition SCOPE_ANNOTATION : string := "s3chaos.rustfs.com/storage-scope-sha256".
Definition MIN_LEASE_DURATION_SECONDS : N := 5.
Definition MAX_LEASE_DURATION_SECONDS : N := 300.
Definition NANOS_PER_SECOND : N := 1000000000.
Definition i64_max : N := 2 ^ 63 - 1.
Definition lease_i32_max : Z := 2 ^ 31 - 1.

(** ** Text checks *)
Definition ascii_hexdigit (c : ascii) : bool :=
  let n := N_of_ascii c in
  ((48 <=? n) && (n <=? 57) || (65 <=? n) && (n <=? 70) || (97 <=? n) && (n <=? 102))%N.
Fixpoint all_chars (p : ascii → bool) (s : string) : bool :=
  match s with EmptyString => true | String c s' => p c && all_chars p s' end.
(** [value.len() == 64 && value.bytes().all(|byte| byte.is_ascii_hexdigit())]. *)
Definition is_sha256_hex (value : string) : bool :=
  bool_decide (String.length value = 64) && all_chars ascii_hexdigit value.
Definition validate_sha256 (value : string) : Result unit :=
  ensure (is_sha256_hex value) "storage-recovery digest must be a SHA-256 hex string".

(** Whether a control character or a character with the [White_Space] property
    starts the string, by its UTF-8 encoding. *)
Definition starts_blank (s : string) : bool :=
  match s with
  | EmptyString => false
  | String c s1 =>
      let n := N_of_ascii c in
      ((n <=? 32) || (n =? 127))%N ||
      match s1 with
      | EmptyString => false
      | String d s2 =>
          let k := N_of_ascii d in
          ((n =? 194) && (k <=? 160))%N ||
          match s2 with
          | EmptyString => false
          | String e _ =>
              let j := N_of_ascii e in
              ((n =? 225) && (k =? 154) && (j =? 128)
               || (n =? 226) && (k =? 128) && ((128 <=? j) && (j <=? 138) || (j =? 168) || (j =? 169) || (j =? 175))
               || (n =? 226) && (k =? 129) && (j =? 159)
               || (n =? 227) && (k =? 128) && (j =? 128))%N
          end
      end
  end.
(** [s.chars().all(|c| !c.is_control() && !c.is_whitespace())]. *)
Fixpoint plain_chars (s : string) : bool :=
  negb (starts_blank s) && match s with EmptyString => true | String _ s' => plain_chars s' end.

Definition storage_lease_name (scope_sha256 : string) : Result string :=
  _ ← validate_sha256 scope_sha256;
  ok ("s3chaos-storage-" +:+ String.substring 0 20 scope_sha256).

Section Adapter.
Context `{Htime : LeaseTime}.

(** ** Kubernetes objects *)
Record LeaseSpec := mkLeaseSpec {
  ls_acquire_time : option MicroTime;
  ls_holder_identity : option string;
  ls_lease_duration_seconds : option Z;
  ls_lease_transitions : option Z;
  ls_renew_time : option MicroTime;
}.
Record LeaseMeta := mkLeaseMeta {
  lm_name : option string;
  lm_uid : option string;
  lm_resource_version : option string;
  lm_annotations : option (gmap string string);
}.
Record Lease := mkLease {
  le_metadata : LeaseMeta;
  le_spec : option LeaseSpec;
}.

Record KubernetesLeaseProof := mkKubernetesLeaseProof {
  kp_name : string;
  kp_uid : string;
  kp_resource_version : string;
  kp_holder_identity : string;
  kp_scope_sha256 : string;
  kp_acquired_at_ms : N;
  kp_renew_at_ms : N;
  kp_expires_at_ms : N;
}.
Global Instance KubernetesLeaseProof_eq_dec : EqDecision KubernetesLeaseProof.
Proof. solve_decision. Defined.

(** ** Programs *)
Inductive KubeError :=
| ApiStatus (code : N) (display : string)
| OtherError (display : string).
Definition kube_display (e : KubeError) : string :=
  match e with ApiStatus _ d | OtherError d => d end.
Definition has_code (n : N) (e : KubeError) : bool :=
  match e with ApiStatus code _ => (code =? n)%N | OtherError _ => false end.
Inductive Reply (A : Type) :=
| Answered (a : A)
| Refused (e : KubeError).
Arguments Answered {A} a.
Arguments Refused {A} e.

(** [Preconditions] of a deletion: a resource version and a UID. *)
Record LeasePreconditions := mkLeasePreconditions {
  pc_resource_version : string;
  pc_uid : string;
}.
Inductive LeaseProg (A : Type) :=
| Ret (r : Result A)
| NowMs (k : Result N → LeaseProg A)
| GetLease (name : string) (k : Reply Lease → LeaseProg A)
| GetLeaseOpt (name : string) (k : Reply (option Lease) → LeaseProg A)
| CreateLease (lease : Lease) (k : Reply Lease → LeaseProg A)
| ReplaceLease (name : string) (lease : Lease) (k : Reply Lease → LeaseProg A)
| DeleteLease (name : string) (pre : LeasePreconditions) (k : Reply unit → LeaseProg A).
Arguments Ret {A} r.
Arguments NowMs {A} k.
Arguments GetLease {A} name k.
Arguments GetLeaseOpt {A} name k.
Arguments CreateLease {A} lease k.
Arguments ReplaceLease {A} name lease k.
Arguments DeleteLease {A} name pre k.

(** [match r { Ok(a) => k(a), Err(e) => return Err(e) }] inside a program. *)
Definition try {A B} (r : Result A) (k : A → LeaseProg B) : LeaseProg B :=
  match r with ok a => k a | err e => Ret (err e) | panicked => Ret panicked end.
(** [reply.context(msg)?]. *)
Definition try_reply {A B} (r : Reply A) (msg : string) (k : A → LeaseProg B) : LeaseProg B :=
  match r with Answered a => k a | Refused _ => Ret (err msg) end.
(** [now_ms()?]. *)
Definition now_ms {A} (k : N → LeaseProg A) : LeaseProg A := NowMs (λ r, try r k).

(** ** Times *)
Definition micro_time (timestamp_ms : N) : Result MicroTime :=
  t ← (if (timestamp_ms <=? i64_max)%N then ok (Z.of_N timestamp_ms)
       else err "out of range integral type conversion attempted");
  context (timestamp_millis_opt t) "storage-recovery Lease timestamp is invalid".

Definition timestamp_ms (t : MicroTime) : Result N :=
  context (if (0 <=? timestamp_millis t)%Z && (timestamp_millis t <=? Z.of_N u64_max)%Z
           then Some (Z.to_N (timestamp_millis t)) else None)
    "storage-recovery Lease timestamp precedes the Unix epoch".

Definition expiry_ms (renew_at_ms : N) (duration_seconds : Z) : Result N :=
  seconds ← (if (0 <=? duration_seconds)%Z then ok (Z.to_N duration_seconds)
             else err "out of range integral type conversion attempted");
  duration_ms ← context (checked_mul64 seconds 1000) "storage-recovery Lease duration overflow";
  context (checked_add64 renew_at_ms duration_ms) "storage-recovery Lease expiry overflow".

(** ** Reading a Lease *)
Definition validate_scope (lease : Lease) (expected_scope_sha256 : string) : Result unit :=
  ensure (match lm_annotations (le_metadata lease) ≫= λ annotations, annotations !! SCOPE_ANNOTATION with
          | Some scope => bool_decide (scope = expected_scope_sha256)
          | None => false
          end) "Kubernetes Lease scope annotation does not match the storage target".

Inductive AcquisitionDecision :=
| Renew (acquired_at_ms : N) (transitions : Z)
| TakeOver (transitions : Z)
| Contended (holder : string) (expires_at_ms : N).

Definition checked_succ_i32 (n : Z) : option Z := if (n + 1 <=? lease_i32_max)%Z then Some (n + 1)%Z else None.

Definition acquisition_decision (lease : Lease) (scope_sha256 holder_identity : string) (now_ms : N)
    : Result AcquisitionDecision :=
  _ ← validate_scope lease scope_sha256;
  spec ← context (le_spec lease) "Kubernetes Lease lacks spec";
  holder ← context (ls_holder_identity spec) "Kubernetes Lease lacks holderIdentity";
  duration_seconds ← context (ls_lease_duration_seconds spec) "Kubernetes Lease lacks leaseDurationSeconds";
  _ ← ensure (0 <? duration_seconds)%Z "Kubernetes Lease duration is invalid";
  time ← context (match ls_renew_time spec with Some t => Some t | None => ls_acquire_time spec end)
           "Kubernetes Lease lacks renewTime and acquireTime";
  renew_at_ms ← timestamp_ms time;
  expires_at_ms ← expiry_ms renew_at_ms duration_seconds;
  let transitions := default 0%Z (ls_lease_transitions spec) in
  _ ← ensure (0 <=? transitions)%Z "Kubernetes Lease transitions are invalid";
  if bool_decide (holder = holder_identity) then
    acquire_time ← context (ls_acquire_time spec) "owned Kubernetes Lease lacks acquireTime";
    acquired_at_ms ← timestamp_ms acquire_time;
    ok (Renew acquired_at_ms transitions)
  else if (now_ms <? expires_at_ms)%N then ok (Contended holder expires_at_ms)
  else
    transitions ← context (checked_succ_i32 transitions) "Kubernetes Lease transition count overflow";
    ok (TakeOver transitions).

Definition validate_owned_lease_generation (lease : Lease) (proof : KubernetesLeaseProof)
    (scope_sha256 : string) : Result unit :=
  _ ← validate_scope lease scope_sha256;
  spec ← context (le_spec lease) "Kubernetes Lease lacks spec";
  acquire_time ← context (ls_acquire_time spec) "Kubernetes Lease lacks acquireTime";
  acquired_at_ms ← timestamp_ms acquire_time;
  renew_time ← context (ls_renew_time spec) "Kubernetes Lease lacks renewTime";
  renew_at_ms ← timestamp_ms renew_time;
  duration ← context (ls_lease_duration_seconds spec) "Kubernetes Lease lacks leaseDurationSeconds";
  expires_at_ms ← expiry_ms renew_at_ms duration;
  ensure (bool_decide (lm_uid (le_metadata lease) = Some (kp_uid proof))
          && bool_decide (lm_resource_version (le_metadata lease) = Some (kp_resource_version proof))
          && bool_decide (ls_holder_identity spec = Some (kp_holder_identity proof))
          && bool_decide (acquired_at_ms = kp_acquired_at_ms proof)
          && bool_decide (renew_at_ms = kp_renew_at_ms proof)
          && bool_decide (expires_at_ms = kp_expires_at_ms proof))
    "storage-recovery Kubernetes Lease ownership or generation drifted".

Definition validate_current_lease (lease : Lease) (proof : KubernetesLeaseProof) (scope_sha256 : string)
    (now_ms : N) : Result unit :=
  _ ← validate_owned_lease_generation lease proof scope_sha256;
  ensure (now_ms <? kp_expires_at_ms proof)%N "storage-recovery Kubernetes Lease expiry has passed".

Definition validate_advanced_owned_renewal (previous current : KubernetesLeaseProof) (now_ms : N)
    (allow_expired_owned_generation : bool) : Result unit :=
  ensure (bool_decide (kp_name current = kp_name previous)
          && bool_decide (kp_uid current = kp_uid previous)
          && negb (bool_decide (kp_resource_version current = kp_resource_version previous))
          && bool_decide (kp_holder_identity current = kp_holder_identity previous)
          && bool_decide (kp_scope_sha256 current = kp_scope_sha256 previous)
          && bool_decide (kp_acquired_at_ms current = kp_acquired_at_ms previous)
          && (kp_renew_at_ms previous <? kp_renew_at_ms current)%N
          && (kp_expires_at_ms previous <? kp_expires_at_ms current)%N
          && (allow_expired_owned_generation || (now_ms <? kp_expires_at_ms current)%N))
    "storage-recovery Kubernetes Lease does not prove an advanced renewal by this owner".

(** ** The adapter *)
Record LeaseAdapter := mkLeaseAdapter {
  ka_name : string;
  ka_scope_sha256 : string;
  ka_holder_identity : string;
  ka_duration_seconds : Z;
}.

(** [Duration] is a number of nanoseconds. *)
Definition adapter_new (namespace scope_sha256 run_id attempt_id : string) (duration : N) : Result LeaseAdapter :=
  _ ← ensure (negb (trim_is_empty namespace) && negb (trim_is_empty run_id) && negb (trim_is_empty attempt_id))
        "storage-recovery Lease identity is empty";
  let holder_identity := run_id +:+ "/" +:+ attempt_id in
  _ ← ensure (bool_decide (String.length holder_identity ≤ 128) && plain_chars holder_identity)
        "storage-recovery Lease holder identity is invalid";
  let duration_seconds := (duration / NANOS_PER_SECOND)%N in
  _ ← ensure ((MIN_LEASE_DURATION_SECONDS <=? duration_seconds)%N
              && (duration_seconds <=? MAX_LEASE_DURATION_SECONDS)%N
              && (duration `mod` NANOS_PER_SECOND =? 0)%N)
        "storage-recovery Lease duration must be an integral 5..=300 seconds";
  name ← storage_lease_name scope_sha256;
  seconds ← (if (duration_seconds <=? 2 ^ 31 - 1)%N then ok (Z.of_N duration_seconds)
             else err "out of range integral type conversion attempted");
  ok (mkLeaseAdapter name scope_sha256 holder_identity seconds).

Definition lease_body (a : LeaseAdapter) (resource_version : option string)
    (acquired_at_ms renew_at_ms : N) (transitions : Z) : Result Lease :=
  acquire_time ← micro_time acquired_at_ms;
  renew_time ← micro_time renew_at_ms;
  ok (mkLease
        (mkLeaseMeta (Some (ka_name a)) None resource_version
           (Some {[SCOPE_ANNOTATION := ka_scope_sha256 a]}))
        (Some (mkLeaseSpec (Some acquire_time) (Some (ka_holder_identity a)) (Some (ka_duration_seconds a))
                 (Some transitions) (Some renew_time)))).

Definition lease_proof (a : LeaseAdapter) (lease : Lease) : Result KubernetesLeaseProof :=
  _ ← validate_scope lease (ka_scope_sha256 a);
  spec ← context (le_spec lease) "Kubernetes Lease lacks spec";
  _ ← ensure (bool_decide (ls_holder_identity spec = Some (ka_holder_identity a))
              && bool_decide (ls_lease_duration_seconds spec = Some (ka_duration_seconds a)))
        "Kubernetes Lease response is not owned by the expected holder";
  acquire_time ← context (ls_acquire_time spec) "Kubernetes Lease lacks acquireTime";
  acquired_at_ms ← timestamp_ms acquire_time;
  renew_time ← context (ls_renew_time spec) "Kubernetes Lease lacks renewTime";
  renew_at_ms ← timestamp_ms renew_time;
  uid ← context (lm_uid (le_metadata lease)) "Kubernetes Lease response lacks UID";
  resource_version ← context (lm_resource_version (le_metadata lease))
                       "Kubernetes Lease response lacks resourceVersion";
  expires_at_ms ← expiry_ms renew_at_ms (ka_duration_seconds a);
  ok (mkKubernetesLeaseProof (ka_name a) uid resource_version (ka_holder_identity a) (ka_scope_sha256 a)
        acquired_at_ms renew_at_ms expires_at_ms).

Definition validate_proof_identity (a : LeaseAdapter) (proof : KubernetesLeaseProof) : Result unit :=
  ensure (bool_decide (kp_name proof = ka_name a)
          && bool_decide (kp_scope_sha256 proof = ka_scope_sha256 a)
          && bool_decide (kp_holder_identity proof = ka_holder_identity a)
          && negb (trim_is_empty (kp_uid proof)) && negb (trim_is_empty (kp_resource_version proof)))
    "storage-recovery Kubernetes Lease proof belongs to another owner or scope".

(** ** Acquiring *)
Fixpoint acquire_attempts (a : LeaseAdapter) (attempts : nat) : LeaseProg KubernetesLeaseProof :=
  match attempts with
  | O => Ret (err "storage-recovery Kubernetes Lease changed during three acquisition attempts")
  | S attempts =>
      now_ms (λ now,
      GetLeaseOpt (ka_name a) (λ reply,
      try_reply reply "read storage-recovery Kubernetes Lease" (λ found,
      match found with
      | None =>
          try (lease_body a None now now 0) (λ lease,
          CreateLease lease (λ reply,
          match reply with
          | Answered created => Ret (lease_proof a created)
          | Refused e => if has_code 409 e then acquire_attempts a attempts
                         else Ret (err "create storage-recovery Kubernetes Lease")
          end))
      | Some existing =>
          try (acquisition_decision existing (ka_scope_sha256 a) (ka_holder_identity a) now) (λ decision,
          let replace acquired_at_ms transitions :=
            try (lease_body a (lm_resource_version (le_metadata existing)) acquired_at_ms now transitions) (λ lease,
            ReplaceLease (ka_name a) lease (λ reply,
            match reply with
            | Answered replaced => Ret (lease_proof a replaced)
            | Refused e => if has_code 409 e then acquire_attempts a attempts
                           else Ret (err "replace storage-recovery Kubernetes Lease")
            end)) in
          match decision with
          | Renew acquired_at_ms transitions => replace acquired_at_ms transitions
          | TakeOver transitions => replace now transitions
          | Contended holder expires_at_ms =>
              Ret (err ("storage-recovery Kubernetes Lease is held by " +:+ str_debug holder
                        +:+ " until " +:+ dec expires_at_ms))
          end)
      end)))
  end.
Definition acquire (a : LeaseAdapter) : LeaseProg KubernetesLeaseProof := acquire_attempts a 3.

(** ** Renewing *)
Section Renewal.
Context (a : LeaseAdapter) (allow_expired : bool).

(** The replacement and the reconciliation of one attempt; [continue_with] is
    the next iteration with the given [renewal_base]. *)
Definition renew_replace (existing : Lease) (renewal_base : KubernetesLeaseProof) (observed_at_ms : N)
    (continue_with : KubernetesLeaseProof → LeaseProg KubernetesLeaseProof) : LeaseProg KubernetesLeaseProof :=
  try (ensure (allow_expired || (observed_at_ms <? kp_expires_at_ms renewal_base)%N)
         "storage-recovery Kubernetes Lease expired before renewal") (λ _,
  try (acquisition_decision existing (ka_scope_sha256 a) (ka_holder_identity a) observed_at_ms) (λ decision,
  match decision with
  | Renew acquired_at_ms transitions =>
      try (context (checked_add64 (kp_renew_at_ms renewal_base) 1)
             "storage-recovery Lease renewal timestamp overflow") (λ next,
      try (lease_body a (lm_resource_version (le_metadata existing)) acquired_at_ms
             (observed_at_ms `max` next)%N transitions) (λ replacement,
      ReplaceLease (ka_name a) replacement (λ reply,
      match reply with
      | Answered renewed =>
          try (lease_proof a renewed) (λ renewed_proof,
          now_ms (λ returned_at_ms,
          if (returned_at_ms <? kp_expires_at_ms renewed_proof)%N then Ret (ok renewed_proof)
          else
            try (ensure allow_expired "storage-recovery Kubernetes Lease expired while renewal completed") (λ _,
            continue_with renewed_proof)))
      | Refused first_error =>
          GetLease (ka_name a) (λ reply,
          try_reply reply ("reconcile storage-recovery Lease renewal after first error: "
                           +:+ kube_display first_error) (λ current,
          try (lease_proof a current) (λ current_proof,
          now_ms (λ reconciled_at_ms,
          match validate_advanced_owned_renewal renewal_base current_proof reconciled_at_ms allow_expired with
          | ok _ =>
              if (reconciled_at_ms <? kp_expires_at_ms current_proof)%N then Ret (ok current_proof)
              else continue_with current_proof
          | _ => Ret (err ("storage-recovery Lease renewal failed before reconciliation: "
                           +:+ kube_display first_error))
          end))))
      end)))
  | _ => Ret (err "storage-recovery Kubernetes Lease is no longer renewable by this holder")
  end)).

Fixpoint renew_attempts (attempts : nat) (renewal_base : KubernetesLeaseProof) : LeaseProg KubernetesLeaseProof :=
  match attempts with
  | O => Ret (err "storage-recovery Kubernetes Lease did not produce an active generation in three renewal attempts")
  | S attempts =>
      GetLease (ka_name a) (λ reply,
      try_reply reply "read storage-recovery Kubernetes Lease for renewal" (λ existing,
      now_ms (λ observed_at_ms,
      try (lease_proof a existing) (λ existing_proof,
      if bool_decide (kp_resource_version existing_proof = kp_resource_version renewal_base) then
        try (ensure (bool_decide (existing_proof = renewal_base))
               "storage-recovery Kubernetes Lease generation drifted before renewal") (λ _,
        renew_replace existing renewal_base observed_at_ms (renew_attempts attempts))
      else
        try (validate_advanced_owned_renewal renewal_base existing_proof observed_at_ms allow_expired) (λ _,
        if (observed_at_ms <? kp_expires_at_ms existing_proof)%N then Ret (ok existing_proof)
        else renew_replace existing existing_proof observed_at_ms (renew_attempts attempts))))))
  end.
Definition renew_inner (proof : KubernetesLeaseProof) : LeaseProg KubernetesLeaseProof :=
  try (validate_proof_identity a proof) (λ _, renew_attempts 3 proof).
End Renewal.
Definition renew (a : LeaseAdapter) (proof : KubernetesLeaseProof) : LeaseProg KubernetesLeaseProof :=
  renew_inner a false proof.
Definition renew_for_cleanup (a : LeaseAdapter) (proof : KubernetesLeaseProof) : LeaseProg KubernetesLeaseProof :=
  renew_inner a true proof.

(** ** Releasing *)

(** The API requests of [release], after the validation of its arguments. *)
Definition delete_preconditions (proof : KubernetesLeaseProof) : LeasePreconditions :=
  mkLeasePreconditions (kp_resource_version proof) (kp_uid proof).
Definition release_requests (a : LeaseAdapter) (proof : KubernetesLeaseProof) : LeaseProg unit :=
  GetLease (ka_name a) (λ reply,
  try_reply reply "re-read storage-recovery Kubernetes Lease before release" (λ current,
  now_ms (λ now,
  try (validate_current_lease current proof (ka_scope_sha256 a) now) (λ _,
  DeleteLease (ka_name a) (delete_preconditions proof) (λ reply,
  try_reply reply "release storage-recovery Kubernetes Lease" (λ _, Ret (ok tt))))))).

(** The API requests of [require_current_lease]. *)
Definition require_current_requests (proof : KubernetesLeaseProof) (scope_sha256 : string) : LeaseProg unit :=
  GetLease (kp_name proof) (λ reply,
  try_reply reply "re-read storage-recovery Kubernetes Lease" (λ lease,
  now_ms (λ now, Ret (validate_current_lease lease proof scope_sha256 now)))).

(** The API requests of [release_owned_lease]. *)
Definition release_owned_requests (proof : KubernetesLeaseProof) (scope_sha256 : string) : LeaseProg unit :=
  GetLease (kp_name proof) (λ reply,
  try_reply reply "re-read storage-recovery Kubernetes Lease before release" (λ current,
  now_ms (λ now,
  try (validate_current_lease current proof scope_sha256 now) (λ _,
  DeleteLease (kp_name proof) (delete_preconditions proof) (λ reply,
  match reply with
  | Answered _ => Ret (ok tt)
  | Refused first_error =>
      GetLease (kp_name proof) (λ reply,
      match reply with
      | Refused e =>
          if has_code 404 e then Ret (ok tt)
          else Ret (err ("reconcile storage-recovery Lease release after first error: " +:+ kube_display first_error))
      | Answered current =>
          now_ms (λ now,
          try (validate_current_lease current proof scope_sha256 now) (λ _,
          DeleteLease (kp_name proof) (delete_preconditions proof) (λ reply,
          match reply with
          | Answered _ => Ret (ok tt)
          | Refused e =>
              if has_code 404 e then Ret (ok tt)
              else Ret (err ("repeat storage-recovery Lease release after first error: " +:+ kube_display first_error))
          end)))
      end)
  end))))).

(** The API requests of [reconcile_owned_lease_release]. *)
Definition reconcile_release_requests (proof : KubernetesLeaseProof) (scope_sha256 : string) : LeaseProg unit :=
  GetLease (kp_name proof) (λ reply,
  match reply with
  | Refused e => if has_code 404 e then Ret (ok tt)
                 else Ret (err "reconcile storage-recovery Kubernetes Lease release")
  | Answered current =>
      try (validate_owned_lease_generation current proof scope_sha256) (λ _,
      DeleteLease (kp_name proof) (delete_preconditions proof) (λ reply,
      match reply with
      | Answered _ => Ret (ok tt)
      | Refused e => if has_code 404 e then Ret (ok tt)
                     else Ret (err "reconcile storage-recovery Kubernetes Lease deletion")
      end))
  end).
End Adapter.

Global Arguments Answered {A} a.
Global Arguments Refused {A} e.
Global Arguments Ret {Htime A} r.
Global Arguments NowMs {Htime A} k.
Global Arguments GetLease {Htime A} name k.
Global Arguments GetLeaseOpt {Htime A} name k.
Global Arguments CreateLease {Htime A} lease k.
Global Arguments ReplaceLease {Htime A} name lease k.
Global Arguments DeleteLease {Htime A} name pre k.
