(* ===== verification/AckTrigger.v ===== *)
(** Acknowledgement-driven faults ([src/fault/acknowledged_mutation.rs]): one
    quiet mutation is executed, and a fault is activated only when its record is
    a definite versioned commit, within a bounded time of the ACK.

    [tokio::time::Instant] and [Duration] are nanoseconds; [Instant::checked_add]
    is a parameter, as the range of the clock is. The activation callback is a
    function on the state [F] of the fault it acts on. *)
From S2P Require Import Prelude Ordering RustText RustWords StorageLease.
From S2P Require Import History Workload Attempts Lineage Client.
From stdpp Require Import options.

Module AcknowledgedMutationKind.
Inductive t := Put | Overwrite | DeleteMarker | ZeroBytePut | MultipartComplete.
Global Instance eq_dec : EqDecision t.
Proof. solve_decision. Defined.
Definition operation_kind (k : t) : OperationKind.t :=
  match k with
  | Put | Overwrite | ZeroBytePut => OperationKind.Put
  | DeleteMarker => OperationKind.Delete
  | MultipartComplete => OperationKind.CompleteMultipartUpload
  end.
(** [{:?}]. *)
Definition debug (k : t) : string :=
  match k with
  | Put => "Put"
  | Overwrite => "Overwrite"
  | DeleteMarker => "DeleteMarker"
  | ZeroBytePut => "ZeroBytePut"
  | MultipartComplete => "MultipartComplete"
  end.
End AcknowledgedMutationKind.

(** ** Calibration *)
Module AckCalibrationMode.
Inductive t := Strict | Relaxed.
Definition as_str (m : t) : string :=
  match m with Strict => "strict" | Relaxed => "relaxed" end.
End AckCalibrationMode.

Definition CALIBRATION_VARIABLES : list string :=
  ["RUSTFS_DURABILITY_MODE"; "RUSTFS_NEW_BUCKET_DURABILITY_MODE"].
Definition configured (name : string) (server_env : list (string * string)) : list (string * string) :=
  filter (λ e, e.1 = name) server_env.
(** One turn of the loop; [server_env] is updated in place, so the variables set
    before an error stay. *)
Definition configure_variable (m : AckCalibrationMode.t) (name : string) (server_env : list (string * string))
    : list (string * string) * Result unit :=
  let found := configured name server_env in
  if bool_decide (length found ≤ 1)
     && forallb (λ e, bool_decide (e.2 = AckCalibrationMode.as_str m)) found
  then (if bool_decide (found = []) then server_env ++ [(name, AckCalibrationMode.as_str m)] else server_env, ok tt)
  else (server_env, err ("ACK calibration requires exactly one unambiguous " +:+ name +:+ "="
                         +:+ AckCalibrationMode.as_str m +:+ " value")).
Fixpoint configure_all (m : AckCalibrationMode.t) (names : list string) (server_env : list (string * string))
    : list (string * string) * Result unit :=
  match names with
  | [] => (server_env, ok tt)
  | name :: names =>
      let p := configure_variable m name server_env in
      match p.2 with ok _ => configure_all m names p.1 | _ => p end
  end.
Definition configure (m : AckCalibrationMode.t) (server_env : list (string * string))
    : list (string * string) * Result unit :=
  configure_all m CALIBRATION_VARIABLES server_env.

(** [s.rsplit_once(pat)]: around the last occurrence. *)
Fixpoint rsplit_once (pat s : string) : option (string * string) :=
  match (match s with
         | EmptyString => None
         | String c s' => '(a, b) ← rsplit_once pat s'; Some (String c a, b)
         end) with
  | Some p => Some p
  | None => rest ← strip_prefix pat s; Some (""%string, rest)
  end.
Definition require_calibration_image (image : string) : Result unit :=
  ensure (match rsplit_once "@sha256:" image with
          | Some (name, digest) => bool_decide (name ≠ ""%string) && negb (any_white name) && is_sha256_hex digest
          | None => false
          end)
    "ACK calibration requires a RustFS image pinned as name@sha256:<64 hex digits>".

(** The Pod as [serde_json] decodes it; what the code uses of [Value] is given. *)
Class JsonValue (Value : Type) := {
  json_pointer : Value → string → option Value;
  json_index : Value → string → Value;
  json_as_array : Value → option (list Value);
  json_as_str : Value → option string;
  json_is_null : Value → bool;
  json_eq_str : Value → string → bool;
  json_eq_bool : Value → bool → bool;
}.
Record AckCalibrationPod := mkAckCalibrationPod {
  ap_name : string;
  ap_uid : string;
  ap_image : string;
  ap_image_id : string;
  ap_container_id : string;
  ap_process_mode : string;
  ap_new_bucket_mode : string;
}.
Section calibration.
Context `{JsonValue Value}.
(** [list.iter().find(|entry| entry["name"] == name)]. *)
Definition find_named (name : string) (l : list Value) : option Value :=
  snd <$> list_find (λ entry, json_eq_str (json_index entry "name") name = true) l.
Definition observed_mode (env : list Value) (mode : AckCalibrationMode.t) (name : string) : Result string :=
  let values := filter (λ entry, json_eq_str (json_index entry "name") name = true) env in
  entry ← context (match values with
                   | [entry] => if json_is_null (json_index entry "valueFrom") then Some entry else None
                   | _ => None
                   end) ("calibration Pod requires one literal " +:+ name);
  value ← context (json_as_str (json_index entry "value")) "calibration mode is not literal";
  _ ← ensure (bool_decide (value = AckCalibrationMode.as_str mode))
        ("calibration Pod " +:+ name +:+ " differs from requested mode");
  ok value.
Definition calibration_pod (pod : Value) (mode : AckCalibrationMode.t) (image : string) : Result AckCalibrationPod :=
  containers ← context (json_pointer pod "/spec/containers" ≫= json_as_array) "calibration Pod lacks containers";
  container ← context (find_named "rustfs" containers) "calibration Pod lacks rustfs container";
  env ← context (json_as_array (json_index container "env")) "calibration Pod lacks explicit modes";
  _ ← ensure (json_eq_str (json_index container "image") image) "calibration Pod image differs from run image";
  statuses ← context (json_pointer pod "/status/containerStatuses" ≫= json_as_array)
               "calibration Pod lacks container statuses";
  status ← context (find_named "rustfs" statuses) "calibration Pod lacks rustfs image identity";
  _ ← ensure (json_eq_bool (json_index status "ready") true) "calibration Pod is not Ready";
  image_id ← context (json_as_str (json_index status "imageID")) "calibration Pod lacks imageID";
  digest ← context (snd <$> rsplit_once "sha256:" image_id)
             "calibration requires a resolved sha256 image identity";
  _ ← ensure (is_sha256_hex digest) "calibration image digest is invalid";
  name ← context (json_pointer pod "/metadata/name" ≫= json_as_str) "calibration Pod lacks name";
  uid ← context (json_pointer pod "/metadata/uid" ≫= json_as_str) "calibration Pod lacks UID";
  container_id ← context (value ← json_as_str (json_index status "containerID");
                          if bool_decide (value = ""%string) then None else Some value)
                   "calibration Pod lacks containerID";
  process_mode ← observed_mode env mode "RUSTFS_DURABILITY_MODE";
  new_bucket_mode ← observed_mode env mode "RUSTFS_NEW_BUCKET_DURABILITY_MODE";
  ok (mkAckCalibrationPod name uid image image_id container_id process_mode new_bucket_mode).
End calibration.

(** ** Errors *)
Module TriggerError.
Inductive t :=
| InvalidConfiguration (detail : string)
| OperationInterrupted (wait_timeout_ms : N)
| WorkloadFailed (kind : AcknowledgedMutationKind.t) (detail : string)
| NoSignal (kind : AcknowledgedMutationKind.t)
| UnexpectedOperation (operation_id : string) (expected : AcknowledgedMutationKind.t)
    (actual : OperationKind.t)
| IneligibleOutcome (operation_id : string) (outcome : OperationOutcome.t)
| InvalidAcknowledgement (operation_id detail : string)
| FaultActivationFailed (operation_id detail : string)
| FaultPredatesAcknowledgement (operation_id : string) (acknowledged_at_ms fault_activated_at_ms : N)
| AckToFaultDeadlineExceeded (operation_id : string) (ack_to_fault_ms max_ack_to_fault_ms : N).
Definition display (e : t) : string :=
  match e with
  | InvalidConfiguration detail => detail
  | OperationInterrupted wait_timeout_ms =>
      "quiet mutation exceeded the " +:+ dec wait_timeout_ms
      +:+ "ms operation wait; fault activation was not armed"
  | WorkloadFailed kind detail =>
      "quiet " +:+ AcknowledgedMutationKind.debug kind +:+ " mutation failed: " +:+ detail
  | NoSignal kind =>
      "quiet " +:+ AcknowledgedMutationKind.debug kind
      +:+ " mutation produced no completed mutation to acknowledge"
  | UnexpectedOperation operation_id expected actual =>
      "operation " +:+ operation_id +:+ " was " +:+ OperationKind.debug actual +:+ ", expected "
      +:+ AcknowledgedMutationKind.debug expected
  | IneligibleOutcome operation_id outcome =>
      "operation " +:+ operation_id +:+ " ended with " +:+ OperationOutcome.debug outcome
      +:+ " and cannot arm an ACK trigger"
  | InvalidAcknowledgement operation_id detail =>
      "operation " +:+ operation_id +:+ " is not an eligible ACK: " +:+ detail
  | FaultActivationFailed operation_id detail =>
      "fault activation for operation " +:+ operation_id +:+ " failed: " +:+ detail
  | FaultPredatesAcknowledgement operation_id acknowledged_at_ms fault_activated_at_ms =>
      "fault for operation " +:+ operation_id +:+ " became active at " +:+ dec fault_activated_at_ms
      +:+ "ms before its ACK at " +:+ dec acknowledged_at_ms +:+ "ms"
  | AckToFaultDeadlineExceeded operation_id ack_to_fault_ms max_ack_to_fault_ms =>
      "fault for operation " +:+ operation_id +:+ " became active " +:+ dec ack_to_fault_ms
      +:+ "ms after its ACK, exceeding maxAckToFaultMs=" +:+ dec max_ack_to_fault_ms
  end.
End TriggerError.

(** [std::result::Result<A, TriggerError>]. *)
Inductive Trigger (A : Type) := TErr (e : TriggerError.t) | TOk (a : A).
Arguments TErr {A} e.
Arguments TOk {A} a.
Global Instance Trigger_ret : MRet Trigger := λ A a, TOk a.
Global Instance Trigger_bind : MBind Trigger := λ A B f m,
  match m with TOk a => f a | TErr e => TErr e end.
(** [if !cond { return Err(e); }]. *)
Definition require (cond : bool) (e : TriggerError.t) : Trigger unit :=
  if cond then TOk tt else TErr e.

(** ** The quiet mutation *)
Inductive QuietMutation :=
| QPut (object : ObjectSpec)
| QOverwrite (object : ObjectSpec) (variant : N)
| QDeleteMarker (key : string)
| QZeroBytePut (object : ObjectSpec)
| QMultipartComplete (object : ObjectSpec)
| QStagedMultipartComplete (staged : StagedMultipartUpload).

Definition quiet_delete_marker (key : string) : Trigger QuietMutation :=
  _ ← require (bool_decide (key ≠ ""%string))
        (TriggerError.InvalidConfiguration "quiet delete-marker key must not be empty");
  mret (QDeleteMarker key).
Definition quiet_zero_byte_put (object : ObjectSpec) : Trigger QuietMutation :=
  _ ← require (os_size_bytes object =? 0)%N
        (TriggerError.InvalidConfiguration "quiet zero-byte PUT must use an empty payload");
  mret (QZeroBytePut object).
Definition quiet_kind (m : QuietMutation) : AcknowledgedMutationKind.t :=
  match m with
  | QPut _ => AcknowledgedMutationKind.Put
  | QOverwrite _ _ => AcknowledgedMutationKind.Overwrite
  | QDeleteMarker _ => AcknowledgedMutationKind.DeleteMarker
  | QZeroBytePut _ => AcknowledgedMutationKind.ZeroBytePut
  | QMultipartComplete _ | QStagedMultipartComplete _ => AcknowledgedMutationKind.MultipartComplete
  end.

(** The outcome of a call as a value, for the code that inspects it. *)
Fixpoint prog_try {A} (p : Prog A) : Prog (Result A) :=
  match p with
  | Ret (ok a) => Ret (ok (ok a))
  | Ret (err e) => Ret (ok (err e))
  | Ret panicked => Ret panicked
  | Begin kind key sha size k => Begin kind key sha size (λ r, prog_try (k r))
  | Send R request k => Send R request (λ reply, prog_try (k reply))
  | Finish r o s e k => Finish r o s e (λ written, prog_try (k written))
  | Diverge => Diverge
  end.

(** [matches!(&result, Ok(record) if record.outcome == OperationOutcome::Ok)]. *)
Definition committed_result (result : Result OperationRecord) : bool :=
  match result with ok r => bool_decide (op_outcome r = OperationOutcome.Ok) | _ => false end.

Section execute.
Context (sha256_hex : list N → string).
Definition execute (m : QuietMutation) (c : S3WorkloadClient) : Prog (option OperationRecord) :=
  match m with
  | QPut object | QZeroBytePut object =>
      prepared ← Ret (prepare sha256_hex object);
      r ← put_object_record c prepared; mret (Some r)
  | QOverwrite object variant =>
      r ← put_object_record c (prepare_overwrite sha256_hex object variant); mret (Some r)
  | QDeleteMarker key => delete_marker_record c key
  | QMultipartComplete object =>
      prepared ← Ret (prepare sha256_hex object);
      complete_multipart_object_record sha256_hex c prepared
  | QStagedMultipartComplete staged =>
      result ← prog_try (complete_staged_multipart_object_record c staged);
      _ ← (if committed_result result then mret tt else abort_staged_multipart_object staged);
      r ← Ret result; mret (Some r)
  end.
End execute.

(** ** The trigger *)
Record AcknowledgedMutationTrigger := mkAcknowledgedMutationTrigger {
  at_operation_wait_timeout : N;
  at_max_ack_to_fault_ms : N;
}.
Record AcknowledgedMutation := mkAcknowledgedMutation {
  am_trigger_operation_id : string;
  am_trigger_kind : AcknowledgedMutationKind.t;
  am_trigger_key : string;
  am_trigger_version_id : string;
  am_trigger_acknowledged_at_ms : N;
  am_max_ack_to_fault_ms : N;
}.
Record AckToFaultEvidence := mkAckToFaultEvidence {
  ae_trigger_operation_id : string;
  ae_trigger_kind : AcknowledgedMutationKind.t;
  ae_trigger_key : string;
  ae_trigger_version_id : string;
  ae_trigger_acknowledged_at_ms : N;
  ae_fault_activated_at_ms : N;
  ae_ack_to_fault_ms : N;
  ae_max_ack_to_fault_ms : N;
}.

Definition NANOS_PER_MILLI : N := 1000000.
Definition duration_ms (name : string) (duration : N) : Trigger N :=
  let milliseconds := (duration / NANOS_PER_MILLI)%N in
  _ ← require (milliseconds <=? u64_max)%N
        (TriggerError.InvalidConfiguration (name +:+ " exceeds the supported millisecond range"));
  _ ← require (negb (milliseconds =? 0)%N)
        (TriggerError.InvalidConfiguration (name +:+ " must be at least 1ms"));
  _ ← require (milliseconds * NANOS_PER_MILLI =? duration)%N
        (TriggerError.InvalidConfiguration (name +:+ " must use whole milliseconds"));
  mret milliseconds.
Definition trigger_new (operation_wait_timeout max_ack_to_fault : N) : Trigger AcknowledgedMutationTrigger :=
  operation_wait_timeout_ms ← duration_ms "operation wait timeout" operation_wait_timeout;
  max_ack_to_fault_ms ← duration_ms "max ACK-to-fault duration" max_ack_to_fault;
  mret (mkAcknowledgedMutationTrigger (operation_wait_timeout_ms * NANOS_PER_MILLI) max_ack_to_fault_ms).

Definition required_commit_field (operation_id name : string) (value : option string) : Trigger string :=
  match value with
  | Some v =>
      if bool_decide (v ≠ ""%string) then mret v
      else TErr (TriggerError.InvalidAcknowledgement operation_id
                   ("committed versioned mutation is missing " +:+ name))
  | None => TErr (TriggerError.InvalidAcknowledgement operation_id
                    ("committed versioned mutation is missing " +:+ name))
  end.
Definition is_2xx (status : option N) : bool :=
  match status with Some s => (200 <=? s)%N && (s <? 300)%N | None => false end.
Definition from_record (kind : AcknowledgedMutationKind.t) (r : OperationRecord) (max_ack_to_fault_ms : N)
    : Trigger AcknowledgedMutation :=
  _ ← require (bool_decide (op_kind r = AcknowledgedMutationKind.operation_kind kind))
        (TriggerError.UnexpectedOperation (op_id r) kind (op_kind r));
  _ ← require (bool_decide (op_outcome r = OperationOutcome.Ok))
        (TriggerError.IneligibleOutcome (op_id r) (op_outcome r));
  _ ← require (is_2xx (op_http_status r))
        (TriggerError.InvalidAcknowledgement (op_id r) "successful mutation is missing a 2xx HTTP status");
  _ ← require (op_started_at_ms r <=? op_ended_at_ms r)%N
        (TriggerError.InvalidAcknowledgement (op_id r) "ACK timestamp precedes operation start");
  key ← required_commit_field (op_id r) "key" (op_key r);
  version_id ← required_commit_field (op_id r) "version_id" (op_version_id r);
  _ ← require (negb (trim_is_empty version_id) && bool_decide (version_id ≠ "null"%string))
        (TriggerError.InvalidAcknowledgement (op_id r)
           "committed mutation does not identify a versioned object");
  _ ← require (negb (bool_decide (kind = AcknowledgedMutationKind.ZeroBytePut))
               || bool_decide (op_size_bytes r = Some 0%N))
        (TriggerError.InvalidAcknowledgement (op_id r)
           "zero-byte PUT ACK does not identify an empty payload");
  mret (mkAcknowledgedMutation (op_id r) kind key version_id (op_ended_at_ms r) max_ack_to_fault_ms).

Definition fault_activated_at (a : AcknowledgedMutation) (fault_activated_at_ms : N) : Trigger AckToFaultEvidence :=
  _ ← require (am_trigger_acknowledged_at_ms a <=? fault_activated_at_ms)%N
        (TriggerError.FaultPredatesAcknowledgement (am_trigger_operation_id a)
           (am_trigger_acknowledged_at_ms a) fault_activated_at_ms);
  let ack_to_fault_ms := (fault_activated_at_ms - am_trigger_acknowledged_at_ms a)%N in
  _ ← require (ack_to_fault_ms <=? am_max_ack_to_fault_ms a)%N
        (TriggerError.AckToFaultDeadlineExceeded (am_trigger_operation_id a) ack_to_fault_ms
           (am_max_ack_to_fault_ms a));
  mret (mkAckToFaultEvidence (am_trigger_operation_id a) (am_trigger_kind a) (am_trigger_key a)
          (am_trigger_version_id a) (am_trigger_acknowledged_at_ms a) fault_activated_at_ms ack_to_fault_ms
          (am_max_ack_to_fault_ms a)).

(** [now] is the clock when the attempt has ended. *)
Definition wait_for (t : AcknowledgedMutationTrigger) (kind : AcknowledgedMutationKind.t)
    (attempt : Prog (option OperationRecord)) (deadline now : N) : Prog (Trigger AcknowledgedMutation) :=
  result ← prog_try attempt;
  match result with
  | ok record =>
      mret (
        _ ← require (now <? deadline)%N
              (TriggerError.OperationInterrupted
                 ((at_operation_wait_timeout t / NANOS_PER_MILLI) mod (u64_max + 1)));
        match record with
        | None => TErr (TriggerError.NoSignal kind)
        | Some r => from_record kind r (at_max_ack_to_fault_ms t)
        end)
  | err detail => mret (TErr (TriggerError.WorkloadFailed kind detail))
  | panicked => Ret panicked
  end.

Definition for_quiet_mutation (deadline : N) : S3WorkloadClient :=
  mkS3WorkloadClient (Some deadline) 1.

Section trigger.
Context (sha256_hex : list N → string) (instant_checked_add : N → N → option N).
Context {F : Type} (activate_fault : F → Result N * F).

Definition execute_attempt_and_activate (t : AcknowledgedMutationTrigger) (kind : AcknowledgedMutationKind.t)
    (attempt : Prog (option OperationRecord)) (fault : F) (deadline now : N)
    : Prog (Trigger AckToFaultEvidence * F) :=
  acknowledged ← wait_for t kind attempt deadline now;
  match acknowledged with
  | TErr e => mret (TErr e, fault)
  | TOk a =>
      let activated := activate_fault fault in
      match activated.1 with
      | ok fault_activated_at_ms => mret (fault_activated_at a fault_activated_at_ms, activated.2)
      | err detail =>
          mret (TErr (TriggerError.FaultActivationFailed (am_trigger_operation_id a) detail), activated.2)
      | panicked => Ret panicked
      end
  end.
(** [start] is the clock at the call, [now] when the attempt has ended. *)
Definition execute_and_activate_fault (t : AcknowledgedMutationTrigger) (workload : QuietMutation)
    (fault : F) (start now : N) : Prog (Trigger AckToFaultEvidence * F) :=
  match instant_checked_add start (at_operation_wait_timeout t) with
  | None =>
      mret (TErr (TriggerError.InvalidConfiguration "operation wait timeout exceeds the clock range"), fault)
  | Some deadline =>
      execute_attempt_and_activate t (quiet_kind workload)
        (execute sha256_hex workload (for_quiet_mutation deadline)) fault deadline now
  end.
End trigger.
