(* ===== verification/AckTriggerFacts.v ===== *)
(** The acknowledgement trigger: a fault is touched only after a definite
    versioned commit of the quiet mutation, and a commit whose acknowledgement
    armed a fault is one the checker looks for. Calibration of the acknowledgement
    detector: the server environment selects the requested durability mode
    unambiguously, an accepted image is pinned by its digest, and an accepted Pod
    runs that image in that mode. *)
From S2P Require Import Prelude Ordering RustText RustWords StorageLease.
From S2P Require Import History HistoryFacts RecorderFacts Workload ObjectModel Attempts ListHistory Lineage LineageFacts.
From S2P Require Import Report Evaluate Checker CheckerFacts Client ClientRuns ClientFacts AckTrigger.
From stdpp Require Import options.

(** ** Inspecting a call *)
Lemma wp_try {A} c bucket start trace held (p : Prog A) (Q : list OperationRecord → A → Prop) :
  wp c bucket (start ++ trace) held p (λ all a, ∃ rs, all = start ++ rs ∧ Q rs a) →
  wp c bucket (start ++ trace) held (prog_try p) (λ all x,
    ∃ rs, all = start ++ rs ∧ ∀ a, x = ok a → Q rs a).
Proof.
  revert trace held.
  induction p as [[a|e|]|kind key sha size k IH|R req k IH|r o s e k IH|]; intros trace held Hp;
    simpl in *; try done.
  - destruct Hp as [? (rs & ? & ?)]. split; [done|]. exists rs. split; [done|]. by intros ? [= <-].
  - split; [done|]. by exists trace.
  - destruct Hp as [-> Hp]. split; [done|]. intros r Hr. by apply IH, Hp.
  - intros reply Hreply. by apply IH, Hp.
  - destruct Hp as (Hh & Hb & Hpur & Hatt & Hp & He). split_and!; [done..| |].
    + intros r' Hr'. rewrite <-(assoc_L (++)). apply IH. rewrite (assoc_L (++)). by apply Hp.
    + intros msg. by apply IH, He.
Qed.
Lemma records_try {A} c bucket (p : Prog A) (Q : list OperationRecord → A → Prop) :
  records c bucket p Q → records c bucket (prog_try p) (λ rs x, ∀ a, x = ok a → Q rs a).
Proof.
  intros Hp trace. pose proof (wp_try c bucket trace [] None p Q) as H.
  rewrite app_nil_r in H. by apply H, Hp.
Qed.

(** ** What a quiet mutation commits *)
Section quiet.
Context (sha256_hex : list N → string) (bucket : string).

(** The value written, unless the mutation deletes. *)
Definition written_spec (m : QuietMutation) : option ObjectSpec :=
  match m with
  | QPut object | QZeroBytePut object | QMultipartComplete object => Some object
  | QOverwrite object variant => Some (po_spec (prepare_overwrite sha256_hex object variant))
  | QStagedMultipartComplete staged => Some (sm_spec staged)
  | QDeleteMarker _ => None
  end.
Definition mutated_key (m : QuietMutation) : string :=
  match m with
  | QPut object | QZeroBytePut object | QMultipartComplete object | QOverwrite object _ => os_key object
  | QStagedMultipartComplete staged => os_key (sm_spec staged)
  | QDeleteMarker key => key
  end.
(** [r] is the record of the acknowledged mutation. *)
Definition commits (c : S3WorkloadClient) (m : QuietMutation) (r : OperationRecord) : Prop :=
  recorded_mutation c (AcknowledgedMutationKind.operation_kind (quiet_kind m)) (mutated_key m) r ∧
  match written_spec m with
  | Some spec => op_value_sha256 r = Some (os_sha256 spec) ∧ op_size_bytes r = Some (os_size_bytes spec)
  | None => op_is_delete_marker r = Some true
  end.

(** A committed mutation is the last record of the call and the only one that
    changes an object. *)
Definition committed_last (c : S3WorkloadClient) (m : QuietMutation) (rs : list OperationRecord)
    (o : option OperationRecord) : Prop :=
  ∀ r, o = Some r → op_outcome r = OperationOutcome.Ok →
    ∃ pre, rs = pre ++ [r] ∧ commits_nothing pre ∧ commits c m r.

Lemma prepare_spec object p : prepare sha256_hex object = ok p → po_spec p = object.
Proof using Type. unfold prepare. case_bool_decide; [|done]. by intros [= <-]. Qed.

Lemma put_committed_last c m object spec :
  written_spec m = Some spec → mutated_key m = os_key spec → po_spec object = spec →
  AcknowledgedMutationKind.operation_kind (quiet_kind m) = OperationKind.Put →
  records c bucket (r ← put_object_record c object; mret (Some r)) (committed_last c m).
Proof using Type.
  intros Hw Hk <- Hkind. eapply records_bind; [apply put_records|].
  intros rs a (r & -> & -> & [[Hm Hv] _]). apply records_ret. intros x [= <-] r' [= <-] _.
  exists []. split_and!; [done|constructor|]. unfold commits. rewrite Hw, Hk, Hkind. done.
Qed.
Lemma staged_committed_last c m staged :
  written_spec m = Some (sm_spec staged) → mutated_key m = os_key (sm_spec staged) →
  quiet_kind m = AcknowledgedMutationKind.MultipartComplete →
  records c bucket (complete_staged_multipart_object_record c staged) (λ rs r,
    rs = [r] ∧ commits c m r).
Proof using Type.
  intros Hw Hk Hkind. eapply records_mono; [|apply complete_staged_records].
  intros rs a (r & -> & -> & [Hm Hv]). split; [done|]. unfold commits. by rewrite Hw, Hk, Hkind.
Qed.

Lemma execute_committed_last m c : records c bucket (execute sha256_hex m c) (committed_last c m).
Proof using Type.
  destruct m as [object|object variant|key|object|object|staged]; cbn [execute].
  - eapply records_bind; [apply (records_ret _ _ _ (λ rs p, rs = [] ∧ po_spec p = object))|].
    + intros p Hp. split; [done|by eapply prepare_spec].
    + intros ? p [-> Hp]. by eapply put_committed_last.
  - by eapply put_committed_last.
  - eapply records_bind; [apply delete_records|]. intros rs r (? & -> & <- & Hm).
    destruct (bool_decide_reflect (op_outcome r = OperationOutcome.Ok)) as [Ho|Ho],
      (bool_decide_reflect (op_is_delete_marker r ≠ Some true)) as [Hd|Hd]; cbn [andb];
      apply records_ret; intros x [= <-]; intros r' [= <-] Ho'; try done.
    exists []. split; [done|]. split; [by apply Forall_nil|]. split; [done|]. by apply dec_stable.
  - eapply records_bind; [apply (records_ret _ _ _ (λ rs p, rs = [] ∧ po_spec p = object))|].
    + intros p Hp. split; [done|by eapply prepare_spec].
    + intros ? p [-> Hp]. by eapply put_committed_last.
  - eapply records_bind; [apply (records_ret _ _ _ (λ rs p, rs = [] ∧ po_spec p = object))|].
    { intros p Hp. split; [done|by eapply prepare_spec]. }
    intros ? p [-> Hp]. eapply records_bind; [apply try_stage_auxiliary|].
    intros pre [staged|] [Hpre Hs]; [|by apply records_ret; intros ? [= <-]].
    cbn in Hs. subst object.
    eapply records_bind; [by apply (staged_committed_last _ (QMultipartComplete (sm_spec staged)))|].
    intros rs r [-> Hr]. destruct (bool_decide_reflect (op_outcome r = OperationOutcome.Ok)) as [Ho|Ho].
    + rewrite andb_false_r. apply records_ret. intros x [= <-] r' [= <-] _. exists pre. by rewrite <-Hs.
    + case_match.
      * eapply records_bind; [apply abort_staged_auxiliary|]. intros rs' _ _.
        apply records_ret. by intros x [= <-] r' [= <-].
      * apply records_ret. by intros x [= <-] r' [= <-].
  - eapply records_bind; [apply records_try; by apply (staged_committed_last _ (QStagedMultipartComplete staged))|].
    intros rs [r|e|] Hr; cbn [committed_result].
    + destruct (Hr r eq_refl) as [-> Hc]. case_bool_decide as Ho.
      * eapply records_bind; [apply (records_ret _ _ _ (λ rs _, rs = [])); done|].
        intros ? _ ->. apply records_ret. intros x [= <-] r' [= <-] _. exists []. split; [done|]. by split; [apply Forall_nil|].
      * eapply records_bind; [apply abort_staged_auxiliary|]. intros rs' _ _.
        apply records_ret. by intros x [= <-] r' [= <-].
    + eapply records_bind; [apply abort_staged_auxiliary|]. intros rs' _ _. by apply records_ret.
    + eapply records_bind; [apply abort_staged_auxiliary|]. intros rs' _ _. by apply records_ret.
Qed.
End quiet.

(** ** Arming *)
Lemma require_ok b e : require b e = TOk tt → b = true.
Proof. by destruct b. Qed.
Lemma trigger_bind_ok {A B} (m : Trigger A) (f : A → Trigger B) b :
  m ≫= f = TOk b → ∃ a, m = TOk a ∧ f a = TOk b.
Proof. destruct m; [done|]. eauto. Qed.
Lemma trigger_require_ok {B} b e (f : unit → Trigger B) x :
  require b e ≫= f = TOk x → b = true ∧ f tt = TOk x.
Proof. by destruct b. Qed.

(** The record identifies a versioned commit. *)
Definition definite_commit (kind : AcknowledgedMutationKind.t) (r : OperationRecord) : Prop :=
  op_kind r = AcknowledgedMutationKind.operation_kind kind ∧
  op_outcome r = OperationOutcome.Ok ∧ is_2xx (op_http_status r) = true ∧
  (op_started_at_ms r ≤ op_ended_at_ms r)%N ∧
  (∃ key, op_key r = Some key ∧ key ≠ ""%string) ∧
  (∃ v, op_version_id r = Some v ∧ trim_is_empty v = false ∧ v ≠ "null"%string) ∧
  (kind = AcknowledgedMutationKind.ZeroBytePut → op_size_bytes r = Some 0%N).

Lemma required_commit_field_ok id name value v :
  required_commit_field id name value = TOk v ↔ value = Some v ∧ v ≠ ""%string.
Proof.
  unfold required_commit_field. destruct value as [x|]; [case_bool_decide|];
    (split; [intros H'; try discriminate H'; injection H' as <-; done|intros [[= ->] ?]]); done.
Qed.

(** A record is accepted exactly when it is a definite versioned commit, and
    the acceptance names its operation, key, version and end. *)
Lemma from_record_ok kind r max a :
  from_record kind r max = TOk a ↔
  definite_commit kind r ∧
  a = mkAcknowledgedMutation (op_id r) kind (default ""%string (op_key r))
        (default ""%string (op_version_id r)) (op_ended_at_ms r) max.
Proof.
  unfold from_record, definite_commit. split.
  - intros (H1%bool_decide_eq_true & H)%trigger_require_ok.
    apply trigger_require_ok in H as (H2%bool_decide_eq_true & H).
    apply trigger_require_ok in H as (H3 & H). apply trigger_require_ok in H as (H4%N.leb_le & H).
    apply trigger_bind_ok in H as (key & [Hk Hk']%required_commit_field_ok & H).
    apply trigger_bind_ok in H as (v & [Hv Hv']%required_commit_field_ok & H).
    apply trigger_require_ok in H as ([H5%negb_true_iff H6%bool_decide_eq_true]%andb_true_iff & H).
    apply trigger_require_ok in H as (H7 & [= <-]). rewrite Hk, Hv. split; [|done].
    split_and!; [done..|by exists key|by exists v|]. intros Hz. rewrite (bool_decide_eq_true_2 _ Hz) in H7.
    by apply bool_decide_eq_true in H7.
  - intros [(H1 & H2 & H3 & H4 & (key & Hk & Hk') & (v & Hv & Ht & Hn) & Hz) ->].
    rewrite (bool_decide_eq_true_2 _ H1), (bool_decide_eq_true_2 _ H2), H3, (proj2 (N.leb_le _ _) H4), Hk, Hv.
    assert (v ≠ ""%string) as Hv' by (by intros ->).
    cbn. rewrite (bool_decide_eq_true_2 _ Hk'). cbn. rewrite (bool_decide_eq_true_2 _ Hv'). cbn.
    rewrite Ht, (bool_decide_eq_true_2 _ Hn). cbn. case_bool_decide as Hkind; [|done]. cbn.
    by rewrite (bool_decide_eq_true_2 _ (Hz Hkind)).
Qed.

(** The activation is on time exactly when it is not before the ACK and not
    later than the bound. *)
Lemma fault_activated_at_ok a at_ms ev :
  fault_activated_at a at_ms = TOk ev ↔
  (am_trigger_acknowledged_at_ms a ≤ at_ms ≤ am_trigger_acknowledged_at_ms a + am_max_ack_to_fault_ms a)%N ∧
  ev = mkAckToFaultEvidence (am_trigger_operation_id a) (am_trigger_kind a) (am_trigger_key a)
         (am_trigger_version_id a) (am_trigger_acknowledged_at_ms a) at_ms
         (at_ms - am_trigger_acknowledged_at_ms a) (am_max_ack_to_fault_ms a).
Proof.
  unfold fault_activated_at. split.
  - intros (H1%N.leb_le & H)%trigger_require_ok. apply trigger_require_ok in H as (H2%N.leb_le & [= <-]).
    split; [lia|done].
  - intros [[H1 H2] ->]. rewrite (proj2 (N.leb_le _ _) H1). cbn.
    assert (at_ms - am_trigger_acknowledged_at_ms a ≤ am_max_ack_to_fault_ms a)%N as H3%N.leb_le by lia.
    by rewrite H3.
Qed.

(** The durations of a trigger are whole positive milliseconds that fit 64 bits. *)
Lemma duration_ms_ok name duration ms :
  duration_ms name duration = TOk ms ↔ duration = (ms * NANOS_PER_MILLI)%N ∧ (0 < ms ≤ u64_max)%N.
Proof.
  unfold duration_ms. split.
  - intros (H1%N.leb_le & H)%trigger_require_ok. apply trigger_require_ok in H as (H2%negb_true_iff & H).
    apply trigger_require_ok in H as (H3%N.eqb_eq & [= <-]). apply N.eqb_neq, N.neq_0_lt_0 in H2. done.
  - intros [-> [H1 H2]]. rewrite N.div_mul by done. rewrite (proj2 (N.leb_le _ _) H2). cbn.
    assert (ms ≠ 0%N) as H3%N.eqb_neq by lia. rewrite H3. cbn. by rewrite N.eqb_refl.
Qed.

Section arming.
Context (sha256_hex : list N → string) (instant_checked_add : N → N → option N) (bucket : string).
Context {F : Type} (activate_fault : F → Result N * F).
Local Abbreviation execute_and_activate_fault :=
  (execute_and_activate_fault sha256_hex instant_checked_add activate_fault).

(** The mutation was acknowledged in time by [r], the last record and the only
    commit among [rs]. *)
Definition acknowledged (t : AcknowledgedMutationTrigger) (m : QuietMutation) (start now : N)
    (rs : list OperationRecord) (r : OperationRecord) : Prop :=
  ∃ deadline pre, instant_checked_add start (at_operation_wait_timeout t) = Some deadline ∧
    (now < deadline)%N ∧ rs = pre ++ [r] ∧ commits_nothing pre ∧
    commits sha256_hex (for_quiet_mutation deadline) m r ∧ definite_commit (quiet_kind m) r.
Definition acknowledgement (t : AcknowledgedMutationTrigger) (m : QuietMutation) (r : OperationRecord)
    : AcknowledgedMutation :=
  mkAcknowledgedMutation (op_id r) (quiet_kind m) (default ""%string (op_key r))
    (default ""%string (op_version_id r)) (op_ended_at_ms r) (at_max_ack_to_fault_ms t).

(** What the trigger did with the fault: nothing, or the one activation that an
    acknowledged commit calls for. *)
Inductive trigger_outcome (t : AcknowledgedMutationTrigger) (m : QuietMutation) (start now : N) (fault : F)
    (rs : list OperationRecord) : Trigger AckToFaultEvidence → F → Prop :=
| not_armed e : trigger_outcome t m start now fault rs (TErr e) fault
| activation_failed r detail fault' :
    acknowledged t m start now rs r → activate_fault fault = (err detail, fault') →
    trigger_outcome t m start now fault rs
      (TErr (TriggerError.FaultActivationFailed (op_id r) detail)) fault'
| activated r at_ms fault' :
    acknowledged t m start now rs r → activate_fault fault = (ok at_ms, fault') →
    trigger_outcome t m start now fault rs (fault_activated_at (acknowledgement t m r) at_ms) fault'.

Lemma wait_for_records t m deadline now start :
  instant_checked_add start (at_operation_wait_timeout t) = Some deadline →
  records (for_quiet_mutation deadline) bucket
    (wait_for t (quiet_kind m) (execute sha256_hex m (for_quiet_mutation deadline)) deadline now)
    (λ rs x, ∀ a, x = TOk a → ∃ r, acknowledged t m start now rs r ∧ a = acknowledgement t m r).
Proof using Type.
  intros Hd. eapply records_bind; [apply records_try, execute_committed_last|].
  intros rs [o|detail|] Ho; apply records_ret; intros x [= <-] a Ha; [|done].
  rewrite app_nil_r. apply trigger_require_ok in Ha as [Hnow%N.ltb_lt Ha].
  destruct o as [r|]; [|done]. apply from_record_ok in Ha as [Hdef ->]. exists r. split; [|done].
  destruct (Ho _ eq_refl r eq_refl) as (pre & -> & Hpre & Hc); [by apply Hdef|].
  by exists deadline, pre.
Qed.
Lemma execute_and_activate_records t m fault start now deadline :
  instant_checked_add start (at_operation_wait_timeout t) = Some deadline →
  records (for_quiet_mutation deadline) bucket (execute_and_activate_fault t m fault start now)
    (λ rs x, trigger_outcome t m start now fault rs x.1 x.2).
Proof using Type.
  intros Hd. unfold AckTrigger.execute_and_activate_fault. rewrite Hd.
  eapply records_bind; [by apply wait_for_records|].
  intros rs [e|a] Ha; [apply records_ret; intros x [= <-]; rewrite app_nil_r; constructor|].
  destruct (Ha a eq_refl) as (r & Hr & ->).
  destruct (activate_fault fault) as [[at_ms|detail|] fault'] eqn:Hf; cbn [fst snd];
    apply records_ret; intros x [= <-]; rewrite app_nil_r; by econstructor.
Qed.
End arming.

(** ** The lineage of an acknowledged mutation *)
Lemma lineage_step_grows l r :
  (∀ v, v ∈ vl_versions l → v ∈ vl_versions (lineage_step l r)) ∧
  (∀ d, d ∈ vl_delete_markers l → d ∈ vl_delete_markers (lineage_step l r)).
Proof.
  unfold lineage_step, missing_version_id. split; intros x Hx;
    repeat (case_match; cbn; try (apply elem_of_app; left)); done.
Qed.
Lemma lineage_grows records l :
  (∀ v, v ∈ vl_versions l → v ∈ vl_versions (foldl lineage_step l records)) ∧
  (∀ d, d ∈ vl_delete_markers l → d ∈ vl_delete_markers (foldl lineage_step l records)).
Proof.
  revert l. induction records as [|r records IH]; intros l; [done|].
  destruct (lineage_step_grows l r), (IH (lineage_step l r)). naive_solver.
Qed.
(** A definite commit of a write is a committed version of the history, one of a
    DELETE a committed delete marker. *)
Lemma acknowledged_lineage sha256_hex c m records r later :
  commits sha256_hex c m r → definite_commit (quiet_kind m) r →
  let key := default ""%string (op_key r) in
  let version_id := default ""%string (op_version_id r) in
  let lineage := committed_version_lineage (records ++ r :: later) in
  match written_spec sha256_hex m with
  | Some spec => mkCommittedVersion key version_id (os_sha256 spec) (os_size_bytes spec) (op_kind r) ∈ vl_versions lineage
  | None => mkCommittedDeleteMarker key version_id ∈ vl_delete_markers lineage
  end.
Proof.
  intros [(Hkind & Hkey & _ & Hreq & _) Hw] (_ & Ho & _ & _ & _ & (v & Hv & _) & _).
  unfold committed_version_lineage. rewrite foldl_app. cbn [foldl].
  set (l := foldl _ _ records). destruct (lineage_grows later (lineage_step l r)) as [Hg1 Hg2].
  destruct (written_spec sha256_hex m) as [spec|] eqn:Hm.
  - destruct Hw as [Hs Hz].
    assert (is_committed_write r = true) as Hcw.
    { unfold is_committed_write. rewrite Hkind, Ho. by destruct m. }
    assert (is_plain_delete r = false) as Hpd.
    { unfold is_plain_delete. rewrite Hkind. by destruct m. }
    apply Hg1. unfold lineage_step. rewrite Hpd, Hcw. cbn [andb negb].
    unfold record_object. rewrite Hkey, Hv, Hs, Hz. cbn. apply elem_of_app. right. by left.
  - assert (is_committed_write r = false) as Hcw.
    { unfold is_committed_write. rewrite Hkind. by destruct m. }
    assert (is_plain_delete r = true) as Hpd.
    { unfold is_plain_delete. rewrite Hkind, Ho, Hreq. by destruct m. }
    assert (is_committed_delete r = true) as Hcd.
    { unfold is_committed_delete. by rewrite Hpd, Hw. }
    apply Hg2. unfold lineage_step. rewrite Hpd, Hcw, Hcd, Hw, Hkey, Hv. cbn. apply elem_of_app. right. by left.
Qed.

(** ** Runs of the trigger *)
Section runs.
Context (sha256_hex : list N → string) (instant_checked_add : N → N → option N) (bucket : string).
Context {F : Type} (activate_fault : F → Result N * F) (server : Server) (clock : nat → N).
Context (write : OperationRecord → option string).
Context (Hserver : ∀ deadline R n (request : Request R),
  reply_ok (for_quiet_mutation deadline) request (server R n request)).
Local Abbreviation trigger_run n st t m fault start now :=
  (run_prog bucket server clock write n st
     (execute_and_activate_fault sha256_hex instant_checked_add activate_fault t m fault start now)).

Lemma trigger_run_outcome n st t m fault start now x st' :
  trigger_run n st t m fault start now = ok (x, st') →
  ∃ rs, rs_records st' = rs_records st ++ rs ∧
    trigger_outcome sha256_hex instant_checked_add activate_fault t m start now fault rs x.1 x.2.
Proof using Hserver.
  intros H. destruct (instant_checked_add start (at_operation_wait_timeout t)) as [deadline|] eqn:Hd.
  - exact (run_records _ bucket server clock write (Hserver deadline) _ _ _ _ _ _
      (execute_and_activate_records sha256_hex _ bucket activate_fault t m fault start now deadline Hd) H).
  - unfold execute_and_activate_fault in H. rewrite Hd in H. injection H as <- <-.
    exists []. rewrite app_nil_r. split; [done|constructor].
Qed.

(** An acknowledged mutation was transmitted exactly once. *)
Lemma acknowledged_once t m start now rs r :
  acknowledged sha256_hex instant_checked_add t m start now rs r → op_mutation_attempts r = Some 1%N.
Proof using Type.
  intros (deadline & pre & _ & _ & _ & _ & [(_ & _ & _ & _ & n & Ha & Hle & Hpos) _] & (_ & Ho & _)).
  rewrite Ha. f_equal. specialize (Hpos Ho). cbn in Hle. lia.
Qed.

(** The evidence of a run, and the record it is about. *)
Lemma trigger_run_evidence n st t m fault start now ev fault' st' :
  trigger_run n st t m fault start now = ok ((TOk ev, fault'), st') →
  ∃ rs r, rs_records st' = rs_records st ++ rs ∧
    acknowledged sha256_hex instant_checked_add t m start now rs r ∧
    activate_fault fault = (ok (ae_fault_activated_at_ms ev), fault') ∧
    (op_ended_at_ms r ≤ ae_fault_activated_at_ms ev ≤ op_ended_at_ms r + at_max_ack_to_fault_ms t)%N ∧
    ev = mkAckToFaultEvidence (op_id r) (quiet_kind m) (default ""%string (op_key r))
           (default ""%string (op_version_id r)) (op_ended_at_ms r) (ae_fault_activated_at_ms ev)
           (ae_fault_activated_at_ms ev - op_ended_at_ms r) (at_max_ack_to_fault_ms t).
Proof using Hserver.
  intros (rs & Hrs & Hout)%trigger_run_outcome. cbn in Hout.
  inversion Hout as [| |r at_ms f Hack Hact Hev]; subst. apply fault_activated_at_ok in Hev as [Ht ->].
  by exists rs, r.
Qed.
End runs.

(** C17. However the store answers, execute_and_activate_fault leaves the fault alone
    unless the quiet mutation was committed before the deadline: then the mutation is
    the last record and the only commit of the call, was transmitted once and names an
    immutable version. Evidence is returned only for one activation of the fault, not
    before the ACK and at most the configured time after it, and it names that record.
    *)
Theorem fault_only_after_acknowledged_commit {F} sha256_hex instant_checked_add bucket
    (activate_fault : F → Result N * F) server clock write n st t m fault start now x fault' st' :
  (∀ deadline R n (request : Request R), reply_ok (for_quiet_mutation deadline) request (server R n request)) →
  run_prog bucket server clock write n st
    (execute_and_activate_fault sha256_hex instant_checked_add activate_fault t m fault start now)
  = ok ((x, fault'), st') →
  ∃ rs, rs_records st' = rs_records st ++ rs ∧
    (fault' ≠ fault → ∃ r, acknowledged sha256_hex instant_checked_add t m start now rs r ∧
       op_mutation_attempts r = Some 1%N) ∧
    ∀ ev, x = TOk ev → ∃ r, acknowledged sha256_hex instant_checked_add t m start now rs r ∧
      activate_fault fault = (ok (ae_fault_activated_at_ms ev), fault') ∧
      (op_ended_at_ms r ≤ ae_fault_activated_at_ms ev ≤ op_ended_at_ms r + at_max_ack_to_fault_ms t)%N ∧
      ae_trigger_operation_id ev = op_id r ∧ op_key r = Some (ae_trigger_key ev) ∧
      op_version_id r = Some (ae_trigger_version_id ev).
Proof.
  intros Hs H. destruct (trigger_run_outcome _ _ _ _ _ _ _ Hs _ _ _ _ _ _ _ _ _ H) as (rs & Hrs & Hout).
  exists rs. split; [done|]. cbn in Hout. split.
  - inversion Hout; subst; [done|..]; intros _; eexists; (split; [eassumption|by eapply acknowledged_once]).
  - intros ev ->. destruct (trigger_run_evidence _ _ _ _ _ _ _ Hs _ _ _ _ _ _ _ _ _ _ H)
      as (rs' & r & Hrs' & Hack & Hact & Ht & Hev).
    rewrite Hrs in Hrs'. apply app_inv_head in Hrs' as <-. exists r. split; [done|]. split; [done|].
    split; [done|]. rewrite Hev. cbn.
    destruct Hack as (_ & _ & _ & _ & _ & _ & _ & (_ & _ & _ & _ & (key & -> & _) & (v & -> & _) & _)). done.
Qed.

(** C18. A fault that was activated on the acknowledgement of a quiet mutation does not
    make the checker forget it: when check_s3_history passes with versioning expected on
    the history of the trigger and whatever was recorded afterwards, ListObjectVersions
    lists the acknowledged version (or delete marker) under its key, and a written
    version was read back by its id with the hash and size of the object written. *)
Theorem acknowledged_version_survives `{CheckerEnv} {F} instant_checked_add bucket
    (activate_fault : F → Result N * F) server clock write n st t m fault start now ev fault' st' later
    scenario run_id tenant report :
  (∀ deadline R n (request : Request R), reply_ok (for_quiet_mutation deadline) request (server R n request)) →
  run_prog bucket server clock write n st
    (execute_and_activate_fault env_sha256_hex instant_checked_add activate_fault t m fault start now)
  = ok ((TOk ev, fault'), st') →
  (∀ A (l : list A), env_completed A l ≡ₚ l) →
  check_s3_history scenario run_id (rs_records st' ++ later) tenant true = ok report →
  cr_passed report = true →
  ∃ entries, env_list_object_versions (key_prefix run_id) = ok (Some entries) ∧
    match written_spec env_sha256_hex m with
    | Some spec =>
        lists_entry entries (ae_trigger_key ev) (ae_trigger_version_id ev) false ∧
        ∃ get body, env_get_object_version (ae_trigger_key ev) (ae_trigger_version_id ev) = ok get ∧
          body_of get = Some body ∧ env_sha256_hex body = os_sha256 spec ∧ len body = os_size_bytes spec
    | None => lists_entry entries (ae_trigger_key ev) (ae_trigger_version_id ev) true
    end.
Proof.
  intros Hs Hrun Hc Hr Hp. destruct (trigger_run_evidence _ _ _ _ _ _ _ Hs _ _ _ _ _ _ _ _ _ _ Hrun)
    as (rs & r & Hrs & (deadline & pre & _ & _ & -> & _ & Hcommit & Hdef) & _ & _ & ->).
  rewrite Hrs, <-!(assoc_L (++)) in Hr. cbn [app] in Hr. rewrite (assoc_L (++)) in Hr.
  destruct (check_passed_inv Hc _ _ _ _ _ _ Hr Hp) as (gets & keys & _ & _ & _ & _ & _ & _ & Hv & _).
  destruct (Hv eq_refl) as (Hintact & entries & Hlist & Hgood). exists entries. split; [done|].
  destruct (version_listing_lists _ _ _ Hgood) as [Hlv Hld].
  pose proof (acknowledged_lineage _ _ _ (rs_records st ++ pre) r later Hcommit Hdef) as Hin.
  cbn in Hin |- *. destruct (written_spec env_sha256_hex m) as [spec|]; [|by apply Hld in Hin].
  split; [by apply Hlv in Hin|]. apply Hintact in Hin as (get & body & Hget & Hbody & Hobs).
  unfold observed_object in Hobs. injection Hobs as H1 H2. by exists get, body.
Qed.

(** ** The server environment *)
Local Arguments configured : simpl never.

(** A variable is unset, or set once to the requested mode. *)
Definition unambiguous (m : AckCalibrationMode.t) (server_env : list (string * string)) (name : string) : Prop :=
  configured name server_env = [] ∨
  configured name server_env = [(name, AckCalibrationMode.as_str m)].

Lemma configured_snoc name name' v server_env :
  configured name (server_env ++ [(name', v)]) =
  configured name server_env ++ (if decide (name' = name) then [(name', v)] else []).
Proof. unfold configured. rewrite filter_app, filter_cons, filter_nil. done. Qed.
Lemma configured_name name server_env e : e ∈ configured name server_env → e.1 = name.
Proof. unfold configured. by intros [? _]%list_elem_of_filter. Qed.

Lemma configure_variable_spec m name server_env :
  let p := configure_variable m name server_env in
  (p.2 = ok tt ↔ unambiguous m server_env name) ∧
  (p.2 = ok tt → (p.1 = server_env ∨ p.1 = server_env ++ [(name, AckCalibrationMode.as_str m)]) ∧
     configured name p.1 = [(name, AckCalibrationMode.as_str m)]) ∧
  (p.2 ≠ ok tt → p.1 = server_env).
Proof.
  unfold configure_variable, unambiguous. pose proof (configured_name name server_env) as Hname.
  destruct (configured name server_env) as [|[k v] [|b l]] eqn:Hc; cbn.
  - rewrite (bool_decide_eq_true_2 (0 ≤ 1)) by lia. cbn.
    rewrite configured_snoc, Hc, decide_True by done. naive_solver.
  - specialize (Hname (k, v) ltac:(by left)). cbn in Hname. subst k.
    rewrite (bool_decide_eq_true_2 (1 ≤ 1)) by lia. case_bool_decide as Hv; cbn; rewrite ?Hc; naive_solver.
  - rewrite bool_decide_eq_false_2 by lia. naive_solver.
Qed.

(** The loop succeeds exactly when every variable is unambiguous; it only adds
    variables, and afterwards each has exactly the requested value. *)
Lemma configure_all_spec m names server_env :
  NoDup names →
  let p := configure_all m names server_env in
  (p.2 = ok tt ↔ ∀ name, name ∈ names → unambiguous m server_env name) ∧
  (p.2 = ok tt → (∃ added, p.1 = server_env ++ added ∧ Forall (λ e, e.1 ∈ names) added) ∧
     ∀ name, name ∈ names → configured name p.1 = [(name, AckCalibrationMode.as_str m)]).
Proof.
  intros Hnd. revert server_env. induction Hnd as [|name names Hn Hnd IH]; intros server_env; cbn.
  - split; [split; [set_solver|done]|]. intros _. split; [exists []; by rewrite app_nil_r|set_solver].
  - destruct (configure_variable_spec m name server_env) as (Hiff & Hok & _).
    destruct (configure_variable m name server_env) as [env' res] eqn:Hv. cbn in *.
    destruct res as [[]|e|]; cbn.
    2,3: split; [|done]; split; [done|]; intros H;
      assert (unambiguous m server_env name) as Hu by (apply H; left); apply Hiff in Hu; done.
    destruct Hok as [Henv Hset]; [done|]. destruct (IH env') as [Hiff' Hok'].
    assert (∃ added, env' = server_env ++ added ∧ Forall (λ e, e.1 = name) added) as (added & Hadd & Hall).
    { destruct Henv as [->| ->]; [exists []; by rewrite app_nil_r|eexists; split; [done|by repeat constructor]]. }
    assert (∀ name', name' ∈ names → configured name' env' = configured name' server_env) as Hsame.
    { intros name' Hin. assert (name ≠ name') by (by intros ->).
      destruct Henv as [->| ->]; [done|]. by rewrite configured_snoc, decide_False, app_nil_r. }
    split.
    + rewrite Hiff'. unfold unambiguous. split.
      * intros H name' [->|Hin]%elem_of_cons; [by apply Hiff|]. rewrite <-Hsame by done. by apply H.
      * intros H name' Hin. rewrite Hsame by done. apply H. by right.
    + intros H. destruct (Hok' H) as [(added' & Hadd' & Hall') Hset']. split.
      * exists (added ++ added'). rewrite Hadd', Hadd, (assoc_L (++)). split; [done|].
        apply Forall_app. split; (eapply Forall_impl; [eassumption|]); cbn; intros e; [intros ->; left|by right].
      * intros name' [->|Hin]%elem_of_cons; [|by apply Hset'].
        rewrite Hadd'. unfold configured in *. rewrite filter_app, Hset.
        replace (filter _ added') with (@nil (string * string)); [done|]. symmetry.
        apply elem_of_nil_inv. intros e [He1 He2]%list_elem_of_filter.
        rewrite Forall_forall in Hall'. apply Hall' in He2. by rewrite He1 in He2.
Qed.

(** Configuring a calibration succeeds exactly when neither variable is already set
    to another mode or set twice; it then only appends missing variables, and each
    variable is set exactly once, to the requested mode. *)
Theorem configure_selects_mode m server_env :
  let p := configure m server_env in
  (p.2 = ok tt ↔ ∀ name, name ∈ CALIBRATION_VARIABLES → unambiguous m server_env name) ∧
  (p.2 = ok tt →
     (∃ added, p.1 = server_env ++ added ∧ Forall (λ e, e.1 ∈ CALIBRATION_VARIABLES) added) ∧
     ∀ name, name ∈ CALIBRATION_VARIABLES → configured name p.1 = [(name, AckCalibrationMode.as_str m)]).
Proof. apply configure_all_spec. apply (bool_decide_unpack _). vm_compute. done. Qed.

(** ** The image *)
Fixpoint has_char (c : ascii) (s : string) : bool :=
  match s with EmptyString => false | String d s' => bool_decide (c = d) || has_char c s' end.

Lemma rsplit_once_eq pat s a b : rsplit_once pat s = Some (a, b) → s = a +:+ pat +:+ b.
Proof.
  revert a b. induction s as [|c s IH]; intros a b; cbn.
  - destruct (strip_prefix pat "") as [rest|] eqn:Hs; cbn; [|done]. intros [= <- <-].
    by apply strip_prefix_spec in Hs.
  - destruct (rsplit_once pat s) as [[x y]|]; cbn.
    + intros [= <- <-]. by rewrite (IH x y).
    + destruct (strip_prefix pat (String c s)) as [rest|] eqn:Hs; cbn; [|done].
      intros [= <- <-]. by apply strip_prefix_spec in Hs.
Qed.
Lemma rsplit_once_absent c pat s : has_char c s = false → rsplit_once (String c pat) s = None.
Proof.
  induction s as [|d s IH]; cbn; [done|]. intros [Hd Hs]%orb_false_iff. rewrite (IH Hs). cbn.
  apply bool_decide_eq_false in Hd. by rewrite decide_False.
Qed.
Lemma has_char_app c a b : has_char c (a +:+ b) = has_char c a || has_char c b.
Proof. induction a as [|d a IH]; [done|]. rewrite append_cons. cbn. by rewrite IH, orb_assoc. Qed.
Lemma rsplit_once_app c pat a b :
  has_char c (pat +:+ b) = false → rsplit_once (String c pat) (a +:+ String c pat +:+ b) = Some (a, b).
Proof.
  intros Hb. induction a as [|d a IH].
  - rewrite append_nil_l, append_cons. cbn [rsplit_once]. rewrite (rsplit_once_absent _ _ _ Hb). cbn.
    by rewrite decide_True, strip_prefix_app.
  - rewrite append_cons. cbn [rsplit_once]. by rewrite IH.
Qed.
Lemma hex_no_at s : all_chars ascii_hexdigit s = true → has_char "@" s = false.
Proof.
  induction s as [|c s IH]; cbn; [done|]. intros [Hc Hs]%andb_true_iff. rewrite (IH Hs), orb_false_r.
  apply bool_decide_eq_false. by intros <-.
Qed.

(** An image is accepted exactly when it is a non-empty name without white space,
    @sha256: and 64 hexadecimal digits. *)
Theorem calibration_image_exact image :
  require_calibration_image image = ok tt ↔
  ∃ name digest, image = name +:+ "@sha256:" +:+ digest ∧ name ≠ ""%string ∧ any_white name = false ∧
    is_sha256_hex digest = true.
Proof.
  unfold require_calibration_image. rewrite ensure_ok. split.
  - destruct (rsplit_once "@sha256:" image) as [[name digest]|] eqn:H; [|done].
    intros [[H1%bool_decide_eq_true H2%negb_true_iff]%andb_true_iff H3]%andb_true_iff.
    exists name, digest. by apply rsplit_once_eq in H.
  - intros (name & digest & -> & H1 & H2 & H3). rewrite rsplit_once_app.
    + by rewrite (bool_decide_eq_true_2 _ H1), H2, H3.
    + rewrite has_char_app. cbn. apply hex_no_at. unfold is_sha256_hex in H3. by apply andb_true_iff in H3 as [_ ?].
Qed.

(** ** The Pods *)
Section pods.
Context `{JsonValue Value}.

(** The one literal entry of a variable. *)
Definition literal_mode (env : list Value) (name mode : string) : Prop :=
  ∃ entry, filter (λ e, json_eq_str (json_index e "name") name = true) env = [entry] ∧
    json_is_null (json_index entry "valueFrom") = true ∧
    json_as_str (json_index entry "value") = Some mode.

Lemma observed_mode_ok env mode name v :
  observed_mode env mode name = ok v ↔
  v = AckCalibrationMode.as_str mode ∧ literal_mode env name (AckCalibrationMode.as_str mode).
Proof using Type.
  unfold observed_mode, literal_mode. split.
  - intros (entry & He & Hr)%bind_context_ok. destruct (filter _ env) as [|e [|? ?]]; try done.
    destruct (json_is_null _) eqn:Hn; [|done]. injection He as ->.
    apply bind_context_ok in Hr as (value & Hv & Hr). apply bind_ensure_ok in Hr as [->%bool_decide_eq_true [= <-]].
    eauto 10.
  - intros [-> (entry & -> & Hn & Hv)]. rewrite Hn. cbn. rewrite Hv. cbn. by rewrite bool_decide_eq_true_2.
Qed.

(** An accepted Pod runs the rustfs container with the image of the run, resolved
    to a digest and Ready, and both durability variables are set once, literally, to
    the requested mode; the evidence carries exactly these. *)
Theorem calibration_pod_in_mode pod mode image p :
  calibration_pod pod mode image = ok p →
  ap_process_mode p = AckCalibrationMode.as_str mode ∧ ap_new_bucket_mode p = AckCalibrationMode.as_str mode ∧
  ap_image p = image ∧ ap_container_id p ≠ ""%string ∧
  (∃ repository digest, ap_image_id p = repository +:+ "sha256:" +:+ digest ∧ is_sha256_hex digest = true) ∧
  ∃ containers container env,
    json_pointer pod "/spec/containers" ≫= json_as_array = Some containers ∧
    find_named "rustfs" containers = Some container ∧
    json_eq_str (json_index container "image") image = true ∧
    json_as_array (json_index container "env") = Some env ∧
    ∀ name, name ∈ CALIBRATION_VARIABLES → literal_mode env name (AckCalibrationMode.as_str mode).
Proof using Type.
  unfold calibration_pod.
  intros (containers & Hcs & (container & Hc & (env & Henv & Hr)%bind_context_ok)%bind_context_ok)%bind_context_ok.
  apply bind_ensure_ok in Hr as [Himg Hr]. apply bind_context_ok in Hr as (statuses & _ & Hr).
  apply bind_context_ok in Hr as (status & _ & Hr). apply bind_ensure_ok in Hr as [_ Hr].
  apply bind_context_ok in Hr as (image_id & _ & Hr). apply bind_context_ok in Hr as (digest & Hd & Hr).
  apply bind_ensure_ok in Hr as [Hhex Hr]. apply bind_context_ok in Hr as (name & _ & Hr).
  apply bind_context_ok in Hr as (uid & _ & Hr). apply bind_context_ok in Hr as (cid & Hcid & Hr).
  apply bind_ok in Hr as (m1 & [-> Hm1]%observed_mode_ok & Hr).
  apply bind_ok in Hr as (m2 & [-> Hm2]%observed_mode_ok & [= <-]). cbn.
  split_and!; [done..| | |].
  - apply bind_Some in Hcid as (v & _ & Hv). by case_bool_decide; simplify_eq.
  - apply fmap_Some in Hd as ([repository d] & Hd & ->). exists repository, d. by apply rsplit_once_eq in Hd.
  - exists containers, container, env. split_and!; [done..|].
    intros x [->|[->|[]%elem_of_nil]%elem_of_cons]%elem_of_cons; done.
Qed.
End pods.
