(* ===== verification/StorageLeaseFacts.v ===== *)
(** * Exclusive ownership under optimistic concurrency

    Adapters of different holders run their operations interleaved against one
    API server. Each reads the clock of its own host, which is off the true time by
    at most [skew], in either direction and by a different amount at every reading.
    [LeaseServer] states what the adapters rely on of
    the server: a resource version identifies a stored object, a replacement or
    deletion with a resource version applies only to that object, and a refused
    request has either no effect or its full effect. A program is [cautious] when
    it replaces only Leases it has read and that are its own or expired, and
    returns a proof of the Lease it saw last; every operation of the adapter is,
    so at any time at most one holder has a proof that no host's clock can show as
    expired. *)
From S2P Require Import Prelude RustText StorageLease.
From stdpp Require Import options.

Definition holder_of `{LeaseTime} (l : Lease) : option string := le_spec l ≫= ls_holder_identity.
Definition version_of `{LeaseTime} (l : Lease) : option string := lm_resource_version (le_metadata l).
Definition result_option {A} (r : Result A) : option A := match r with ok a => Some a | _ => None end.
(** When other holders may take the Lease over. *)
Definition lease_expiry `{LeaseTime} (l : Lease) : option N :=
  spec ← le_spec l;
  duration ← ls_lease_duration_seconds spec;
  time ← match ls_renew_time spec with Some t => Some t | None => ls_acquire_time spec end;
  renew_at_ms ← result_option (timestamp_ms time);
  result_option (expiry_ms renew_at_ms duration).

(** ** The API server *)
Definition same_content `{LeaseTime} (l l' : Lease) : Prop :=
  le_spec l' = le_spec l ∧ lm_annotations (le_metadata l') = lm_annotations (le_metadata l).

Class LeaseServer `{Htime : LeaseTime} := {
  server_state : Type;
  (** the stored object of a name, and all objects ever stored under it *)
  stored : server_state → string → option Lease;
  ever_stored : server_state → string → Lease → Prop;
  (** one request, its answer and the state it leaves *)
  serve_get : server_state → string → Reply Lease → server_state → Prop;
  serve_get_opt : server_state → string → Reply (option Lease) → server_state → Prop;
  serve_create : server_state → Lease → Reply Lease → server_state → Prop;
  serve_replace : server_state → string → Lease → Reply Lease → server_state → Prop;
  serve_delete : server_state → string → LeasePreconditions → Reply unit → server_state → Prop;
}.

Section ServerEvents.
Context `{Hserver : LeaseServer}.

Definition keeps_history (s s' : server_state) : Prop :=
  ∀ n l, ever_stored s n l → ever_stored s' n l.
Definition untouched (s s' : server_state) : Prop :=
  (∀ n, stored s' n = stored s n) ∧ keeps_history s s'.
Definition put (s : server_state) (name : string) (l : Lease) (s' : server_state) : Prop :=
  stored s' name = Some l ∧ (∀ n, n ≠ name → stored s' n = stored s n) ∧ keeps_history s s'.
Definition created (s : server_state) (lease l : Lease) (s' : server_state) : Prop :=
  ∃ name, lm_name (le_metadata lease) = Some name ∧
    stored s name = None ∧ same_content lease l ∧ put s name l s'.
Definition replaced (s : server_state) (name : string) (lease l : Lease) (s' : server_state) : Prop :=
  ∃ old, stored s name = Some old ∧ version_of old = version_of lease ∧ same_content lease l ∧ put s name l s'.
Definition deleted (s : server_state) (name : string) (pre : LeasePreconditions) (s' : server_state) : Prop :=
  ∃ old, stored s name = Some old ∧ version_of old = Some (pc_resource_version pre) ∧
    stored s' name = None ∧ (∀ n, n ≠ name → stored s' n = stored s n) ∧ keeps_history s s'.
End ServerEvents.

(** What Kubernetes documents of the requests. *)
Class LeaseServerLaws `{Hserver : LeaseServer} : Prop := {
  stored_ever : ∀ s n l, stored s n = Some l → ever_stored s n l;
  version_present : ∀ s n l, ever_stored s n l → is_Some (version_of l);
  version_identifies : ∀ s n l l',
    ever_stored s n l → ever_stored s n l' → version_of l = version_of l' → l = l';
  get_law : ∀ s n r s', serve_get s n r s' →
    untouched s s' ∧ ∀ l, r = Answered l → stored s n = Some l;
  get_opt_law : ∀ s n r s', serve_get_opt s n r s' →
    untouched s s' ∧ ∀ o, r = Answered o → stored s n = o;
  create_law : ∀ s lease r s', serve_create s lease r s' →
    match r with
    | Answered l => created s lease l s'
    | Refused _ => untouched s s' ∨ ∃ l, created s lease l s'
    end;
  replace_law : ∀ s n lease r s', serve_replace s n lease r s' → is_Some (version_of lease) →
    match r with
    | Answered l => replaced s n lease l s'
    | Refused _ => untouched s s' ∨ ∃ l, replaced s n lease l s'
    end;
  delete_law : ∀ s n pre r s', serve_delete s n pre r s' →
    match r with
    | Answered _ => deleted s n pre s'
    | Refused _ => untouched s s' ∨ deleted s n pre s'
    end;
}.

(** ** Interleaved adapters *)
Section World.
Context `{Hlaws : LeaseServerLaws}.

(** What the clock of a host may show at time [t]. *)
Definition shows (skew t u : N) : Prop := (t ≤ u + skew ∧ u ≤ t + skew)%N.
Inductive prog_step {A} (skew t : N) : server_state → LeaseProg A → server_state → LeaseProg A → Prop :=
| ps_now s k u : shows skew t u → prog_step skew t s (NowMs k) s (k (ok u))
| ps_now_fails s k msg : prog_step skew t s (NowMs k) s (k (err msg))
| ps_get s n k r s' : serve_get s n r s' → prog_step skew t s (GetLease n k) s' (k r)
| ps_get_opt s n k r s' : serve_get_opt s n r s' → prog_step skew t s (GetLeaseOpt n k) s' (k r)
| ps_create s l k r s' : serve_create s l r s' → prog_step skew t s (CreateLease l k) s' (k r)
| ps_replace s n l k r s' : serve_replace s n l r s' → prog_step skew t s (ReplaceLease n l k) s' (k r)
| ps_delete s n pre k r s' : serve_delete s n pre r s' → prog_step skew t s (DeleteLease n pre k) s' (k r).

Inductive LeaseTask :=
| Owning (p : LeaseProg KubernetesLeaseProof)
| Releasing (p : LeaseProg unit).
Record Actor := mkActor {
  ac_adapter : LeaseAdapter;
  ac_task : LeaseTask;
}.
Record World := mkWorld {
  w_server : server_state;
  w_clock : N;
  w_actors : list Actor;
}.

Definition task_finished (t : LeaseTask) : Prop :=
  match t with Owning (Ret _) | Releasing (Ret _) => True | _ => False end.
(** The operations an adapter starts. *)
Inductive starts (a : LeaseAdapter) : LeaseTask → Prop :=
| start_acquire : starts a (Owning (acquire a))
| start_renew proof : starts a (Owning (renew a proof))
| start_cleanup proof : starts a (Owning (renew_for_cleanup a proof))
| start_release proof : validate_proof_identity a proof = ok tt → starts a (Releasing (release_requests a proof))
| start_release_owned proof : validate_proof_identity a proof = ok tt →
    starts a (Releasing (release_owned_requests proof (ka_scope_sha256 a)))
| start_reconcile proof : validate_proof_identity a proof = ok tt →
    starts a (Releasing (reconcile_release_requests proof (ka_scope_sha256 a))).

Inductive task_step (skew t : N) (s : server_state) : LeaseTask → server_state → LeaseTask → Prop :=
| ts_owning p s' p' : prog_step skew t s p s' p' → task_step skew t s (Owning p) s' (Owning p')
| ts_releasing p s' p' : prog_step skew t s p s' p' → task_step skew t s (Releasing p) s' (Releasing p').

Inductive world_step (skew : N) : World → World → Prop :=
| ws_tick s t t' actors : (t ≤ t')%N → world_step skew (mkWorld s t actors) (mkWorld s t' actors)
| ws_start s t actors i a task task' :
    actors !! i = Some (mkActor a task) → task_finished task → starts a task' →
    world_step skew (mkWorld s t actors) (mkWorld s t (<[i := mkActor a task']> actors))
| ws_request s s' t actors i a task task' :
    actors !! i = Some (mkActor a task) → task_step skew t s task s' task' →
    world_step skew (mkWorld s t actors) (mkWorld s' t (<[i := mkActor a task']> actors)).

(** All adapters guard the same Lease, for different holders, and are idle. *)
Definition competing (name : string) (actors : list Actor) : Prop :=
  (∀ i actor, actors !! i = Some actor → ka_name (ac_adapter actor) = name) ∧
  (∀ i j x y, actors !! i = Some x → actors !! j = Some y →
     ka_holder_identity (ac_adapter x) = ka_holder_identity (ac_adapter y) → i = j).
Definition initial_world (name : string) (w : World) : Prop :=
  competing name (w_actors w) ∧ ∀ i actor, w_actors w !! i = Some actor → ac_task actor = Owning (Ret (err "idle")).
Definition reachable (skew : N) (name : string) (w : World) : Prop :=
  ∃ w0, initial_world name w0 ∧ rtc (world_step skew) w0 w.
(** The latest time a clock may show: a proof that expires later is unexpired on
    every clock. *)
Definition latest_clock (skew : N) (w : World) : N := (w_clock w + skew)%N.

(** ** Cautious programs *)
Definition replaceable (h : string) (now : N) (l : Lease) : Prop :=
  holder_of l = Some h ∨ ∃ x, lease_expiry l = Some x ∧ (x ≤ now)%N.

(** [R] holds the Leases read so far, [last] the one the last answer showed. *)
Fixpoint cautious {A} (Q : option Lease → A → Prop) (name h : string) (now : N) (R : Lease → Prop)
    (last : option Lease) (p : LeaseProg A) : Prop :=
  match p with
  | Ret (ok a) => Q last a
  | Ret _ => True
  | NowMs k =>
      (∀ t, cautious Q name h t R last (k (ok t))) ∧
      (∀ msg, cautious Q name h now R last (k (err msg)))
  | GetLease n k => n = name ∧
      (∀ l, cautious Q name h now (λ x, R x ∨ x = l) (Some l) (k (Answered l))) ∧
      (∀ e, cautious Q name h now R None (k (Refused e)))
  | GetLeaseOpt n k => n = name ∧
      (∀ l, cautious Q name h now (λ x, R x ∨ x = l) (Some l) (k (Answered (Some l)))) ∧
      cautious Q name h now R None (k (Answered None)) ∧
      (∀ e, cautious Q name h now R None (k (Refused e)))
  | CreateLease lease k => lm_name (le_metadata lease) = Some name ∧
      (∀ l, same_content lease l → cautious Q name h now (λ x, R x ∨ x = l) (Some l) (k (Answered l))) ∧
      (∀ e, cautious Q name h now R None (k (Refused e)))
  | ReplaceLease n lease k => n = name ∧
      (∃ l, R l ∧ version_of lease = version_of l ∧ replaceable h now l) ∧
      (∀ l, same_content lease l → cautious Q name h now (λ x, R x ∨ x = l) (Some l) (k (Answered l))) ∧
      (∀ e, cautious Q name h now R None (k (Refused e)))
  | DeleteLease n pre k => n = name ∧
      (∃ l, R l ∧ version_of l = Some (pc_resource_version pre) ∧ holder_of l = Some h) ∧
      (∀ r, cautious Q name h now R None (k r))
  end.

(** ** What a Lease proves *)
Lemma lease_proof_owned a l p : lease_proof a l = ok p →
  holder_of l = Some (ka_holder_identity a) ∧ lease_expiry l = Some (kp_expires_at_ms p) ∧
  version_of l = Some (kp_resource_version p).
Proof.
  unfold lease_proof, holder_of, lease_expiry, version_of.
  intros (_ & (spec & -> & ([Hh Hd]%andb_true_iff & H)%bind_ensure_ok)%bind_context_ok)%bind_unit_ok.
  apply bool_decide_eq_true in Hh, Hd.
  apply bind_context_ok in H as (ta & _ & (ams & _ & (tr & Hr & (rms & Hrms & H)%bind_ok)%bind_context_ok)%bind_ok).
  apply bind_context_ok in H as (uid & _ & (rv & -> & (x & Hx & [= <-])%bind_ok)%bind_context_ok).
  simpl. rewrite Hh, Hd, Hr. simpl. rewrite Hrms. simpl. by rewrite Hx.
Qed.

Lemma acquisition_decision_replaceable l scope h now d :
  acquisition_decision l scope h now = ok d →
  match d with
  | Renew _ _ => holder_of l = Some h
  | TakeOver _ => ∃ x, lease_expiry l = Some x ∧ (x ≤ now)%N
  | Contended h' x => holder_of l = Some h' ∧ h' ≠ h ∧ lease_expiry l = Some x ∧ (now < x)%N
  end.
Proof.
  unfold acquisition_decision, holder_of, lease_expiry.
  intros (_ & (spec & -> & (h' & Hh & (dur & Hd & (_ & H)%bind_ensure_ok)%bind_context_ok)%bind_context_ok)%bind_context_ok)%bind_unit_ok.
  apply bind_context_ok in H as (time & Ht & (rms & Hr & (x & Hx & (_ & H)%bind_ensure_ok)%bind_ok)%bind_ok).
  simpl. rewrite Hd, Ht, Hh. simpl. rewrite Hr. simpl. rewrite Hx. simpl.
  case_bool_decide; subst.
  { apply bind_context_ok in H as (ta & _ & (ams & _ & [= <-])%bind_ok). done. }
  destruct (N.ltb_spec now x); [injection H as <-; done|].
  apply bind_context_ok in H as (n & _ & [= <-]). eauto.
Qed.

Lemma validate_owned_lease_generation_ok l p scope : validate_owned_lease_generation l p scope = ok tt →
  holder_of l = Some (kp_holder_identity p) ∧ version_of l = Some (kp_resource_version p).
Proof.
  unfold validate_owned_lease_generation, holder_of, version_of.
  intros (_ & (spec & -> & (ta & _ & (ams & _ & (tr & _ & (rms & _ & H)%bind_ok)%bind_context_ok)%bind_ok)%bind_context_ok)%bind_context_ok)%bind_unit_ok.
  apply bind_context_ok in H as (dur & _ & (x & _ & H)%bind_ok).
  apply ensure_ok in H. rewrite !andb_true_iff in H. destruct H as [[[[[_ Hv] Hh] _] _] _].
  apply bool_decide_eq_true in Hv, Hh. done.
Qed.
Lemma validate_current_lease_ok l p scope now : validate_current_lease l p scope now = ok tt →
  holder_of l = Some (kp_holder_identity p) ∧ version_of l = Some (kp_resource_version p) ∧
  (now < kp_expires_at_ms p)%N.
Proof.
  intros ([??]%validate_owned_lease_generation_ok & Hx%ensure_ok%N.ltb_lt)%bind_unit_ok. done.
Qed.
Lemma validate_proof_identity_ok a p : validate_proof_identity a p = ok tt →
  kp_name p = ka_name a ∧ kp_scope_sha256 p = ka_scope_sha256 a ∧ kp_holder_identity p = ka_holder_identity a.
Proof.
  unfold validate_proof_identity. rewrite ensure_ok, !andb_true_iff, !bool_decide_eq_true. tauto.
Qed.
Lemma lease_body_ok a rv am rm n l : lease_body a rv am rm n = ok l →
  version_of l = rv ∧ lm_name (le_metadata l) = Some (ka_name a) ∧ holder_of l = Some (ka_holder_identity a).
Proof. intros (ta & _ & (tr & _ & [= <-])%bind_ok)%bind_ok. done. Qed.

(** ** The operations are cautious *)
Definition proves (a : LeaseAdapter) (last : option Lease) (p : KubernetesLeaseProof) : Prop :=
  ∃ l, last = Some l ∧ lease_proof a l = ok p.

Section Operations.
Context (a : LeaseAdapter).
Local Abbreviation owning := (cautious (proves a) (ka_name a) (ka_holder_identity a)).

Lemma cautious_try {A B} (Q : option Lease → B → Prop) n h now R last (r : Result A) k :
  (∀ x, r = ok x → cautious Q n h now R last (k x)) → cautious Q n h now R last (try r k).
Proof. intros H. destruct r; simpl; auto. Qed.
Lemma cautious_now {A} (Q : option Lease → A → Prop) n h now R last k :
  (∀ t, cautious Q n h t R last (k t)) → cautious Q n h now R last (now_ms k).
Proof. intros H. by split. Qed.

Lemma returns_last now R l : owning now R (Some l) (Ret (lease_proof a l)).
Proof. destruct (lease_proof a l) as [p| |] eqn:E; simpl; [by exists l|done..]. Qed.

(** A replacement built from a Lease that was read. *)
Lemma cautious_replace now (R : Lease → Prop) last l am rm n k :
  R l → replaceable (ka_holder_identity a) now l →
  (∀ l', owning now (λ x, R x ∨ x = l') (Some l') (k (Answered l'))) →
  (∀ e, owning now R None (k (Refused e))) →
  owning now R last (try (lease_body a (lm_resource_version (le_metadata l)) am rm n)
                       (λ lease, ReplaceLease (ka_name a) lease k)).
Proof.
  intros Hl Hr Ha He. apply cautious_try. intros lease (Hv & _ & _)%lease_body_ok.
  split_and!; [done|by exists l|auto..].
Qed.

Lemma acquire_cautious attempts now R last : owning now R last (acquire_attempts a attempts).
Proof.
  revert now R last. induction attempts as [|attempts IH]; intros now R last; [done|].
  cbn [acquire_attempts]. apply cautious_now. intros t. split; [done|]. split_and!; [|simpl|done].
  - intros l. cbn [try_reply]. apply cautious_try. intros d Hd%acquisition_decision_replaceable.
    destruct d as [am n|n|h x]; [| |done]; cbn beta iota.
    all: apply cautious_replace; [by right| |intros; apply returns_last|].
    1: by left. 2: by right.
    all: intros e; cbn beta iota; destruct (has_code 409 e); [apply IH|done].
  - apply cautious_try. intros l (_ & Hn & _)%lease_body_ok. split_and!; [done|intros; apply returns_last|].
    intros e. destruct (has_code 409 e); [apply IH|done].
Qed.

Lemma renew_replace_cautious allow l base t (R : Lease → Prop) last k :
  R l → (∀ p now R last, owning now R last (k p)) → owning t R last (renew_replace a allow l base t k).
Proof.
  intros Hl Hk. unfold renew_replace. apply cautious_try. intros _ _. apply cautious_try.
  intros d Hd%acquisition_decision_replaceable. destruct d as [am n| |]; [|done..].
  apply cautious_try. intros next _. apply cautious_replace; [done|by left|..]; cbn beta iota.
  - intros l'. apply cautious_try. intros p Hp. apply cautious_now. intros t'.
    destruct (t' <? _)%N; [by exists l'|]. apply cautious_try. intros _ _. apply Hk.
  - intros e. split; [done|]. split; [|done]. intros cur. cbn [try_reply]. apply cautious_try. intros p Hp.
    apply cautious_now. intros t'. destruct (validate_advanced_owned_renewal _ _ _ _); [|done..].
    destruct (t' <? _)%N; [by exists cur|apply Hk].
Qed.
Lemma renew_cautious allow attempts base now R last : owning now R last (renew_attempts a allow attempts base).
Proof.
  revert base now R last. induction attempts as [|attempts IH]; intros base now R last; [done|].
  cbn [renew_attempts]. split; [done|]. split; [|done]. intros l. cbn [try_reply]. apply cautious_now.
  intros t. apply cautious_try. intros p Hp. case_bool_decide; apply cautious_try; intros _ _.
  - apply renew_replace_cautious; [by right|auto].
  - destruct (t <? _)%N; [by exists l|]. apply renew_replace_cautious; [by right|auto].
Qed.

Section Release.
Context (p : KubernetesLeaseProof) (Hp : validate_proof_identity a p = ok tt).
Local Abbreviation releasing := (cautious (λ _ _, True) (ka_name a) (ka_holder_identity a)).

Lemma cautious_delete {A} (Q : option Lease → A → Prop) now (R : Lease → Prop) last l k :
  R l → version_of l = Some (kp_resource_version p) → holder_of l = Some (kp_holder_identity p) →
  (∀ r, cautious Q (ka_name a) (ka_holder_identity a) now R None (k r)) →
  cautious Q (ka_name a) (ka_holder_identity a) now R last (DeleteLease (ka_name a) (delete_preconditions p) k).
Proof using Hp.
  apply validate_proof_identity_ok in Hp as (_ & _ & Hh). intros Hl Hv Ho Hk. rewrite Hh in Ho.
  split_and!; [done|by exists l|done].
Qed.

Lemma release_cautious now R last : releasing now R last (release_requests a p).
Proof using Hp.
  split; [done|]. split; [|done]. intros l. cbn [try_reply]. apply cautious_now. intros t.
  apply cautious_try. intros [] (Ho & Hv & _)%validate_current_lease_ok.
  apply (cautious_delete _ _ _ _ l); [by right|done..|]. intros r. by destruct r.
Qed.
Lemma release_owned_cautious scope now R last : releasing now R last (release_owned_requests p scope).
Proof using Hp.
  pose proof Hp as (Hn & _ & _)%validate_proof_identity_ok. unfold release_owned_requests. rewrite Hn.
  split; [done|]. split; [|done]. intros l. cbn [try_reply]. apply cautious_now. intros t.
  apply cautious_try. intros [] (Ho & Hv & _)%validate_current_lease_ok.
  apply (cautious_delete _ _ _ _ l); [by right|done..|]. intros [[]|e]; [done|].
  split; [done|]. split; [|intros e'; by destruct (has_code 404 e')].
  intros l'. apply cautious_now. intros t'.
  apply cautious_try. intros [] (Ho' & Hv' & _)%validate_current_lease_ok.
  apply (cautious_delete _ _ _ _ l'); [by right|done..|]. intros [[]|e']; [done|]. by destruct (has_code 404 e').
Qed.
Lemma reconcile_cautious scope now R last : releasing now R last (reconcile_release_requests p scope).
Proof using Hp.
  pose proof Hp as (Hn & _ & _)%validate_proof_identity_ok. unfold reconcile_release_requests. rewrite Hn.
  split; [done|]. split; [|intros e; by destruct (has_code 404 e)]. intros l.
  apply cautious_try. intros [] (Ho & Hv)%validate_owned_lease_generation_ok.
  apply (cautious_delete _ _ _ _ l); [by right|done..|]. intros [[]|e']; [done|]. by destruct (has_code 404 e').
Qed.
End Release.
End Operations.

(** ** The invariant of interleaved runs *)

(** A Lease shown by the last answer, when it is the holder's own, is still
    stored or has expired. *)
Definition claims (s : server_state) (name h : string) (clock : N) (last : option Lease) : Prop :=
  ∀ l x, last = Some l → holder_of l = Some h → lease_expiry l = Some x →
    (x ≤ clock)%N ∨ stored s name = Some l.
Definition tended {A} (Q : option Lease → A → Prop) (s : server_state) (name h : string) (clock : N)
    (p : LeaseProg A) : Prop :=
  ∃ now R last, (now ≤ clock)%N ∧ (∀ l, R l → ever_stored s name l) ∧
    cautious Q name h now R last p ∧ claims s name h clock last.
Definition undisturbed (s s' : server_state) (name h : string) (clock : N) : Prop :=
  keeps_history s s' ∧
  ∀ l x, stored s name = Some l → holder_of l ≠ Some h → lease_expiry l = Some x → (clock < x)%N →
    stored s' name = Some l.

Lemma untouched_undisturbed s s' name h clock : untouched s s' → undisturbed s s' name h clock.
Proof. intros [Hs Hk]. split; [done|]. intros l x Hl _ _ _. by rewrite Hs. Qed.
Lemma created_undisturbed s s' lease l name h clock :
  lm_name (le_metadata lease) = Some name → created s lease l s' →
  undisturbed s s' name h clock ∧ stored s' name = Some l.
Proof.
  intros Hn (n & Hn' & Hnone & _ & Hput & _ & Hk). simplify_eq. split; [|done]. split; [done|].
  intros l' x Hl'. by rewrite Hnone in Hl'.
Qed.
Lemma replaced_undisturbed s s' lease l name h clock now r :
  ever_stored s name r → version_of lease = version_of r → replaceable h now r → (now ≤ clock)%N →
  replaced s name lease l s' →
  undisturbed s s' name h clock ∧ stored s' name = Some l.
Proof using Hlaws.
  intros Hr Hv Hrep Hclock (old & Hold & Hver & _ & Hput & _ & Hk). split; [|done]. split; [done|].
  intros l' x Hl' Hh Hx Hlt. rewrite Hold in Hl'. injection Hl' as <-.
  assert (old = r) as <- by (eapply version_identifies; [by apply stored_ever|done|congruence]).
  destruct Hrep as [Hown|(y & Hy & Hle)]; [done|]. simplify_eq. lia.
Qed.
Lemma deleted_undisturbed s s' name pre h clock r :
  ever_stored s name r → version_of r = Some (pc_resource_version pre) → holder_of r = Some h →
  deleted s name pre s' → undisturbed s s' name h clock.
Proof using Hlaws.
  intros Hr Hv Hh (old & Hold & Hver & Hnone & _ & Hk). split; [done|].
  intros l x Hl Hne _ _. rewrite Hold in Hl. injection Hl as <-.
  assert (old = r) as <- by (eapply version_identifies; [by apply stored_ever|done|congruence]). done.
Qed.

(** What one request of a cautious program leaves. *)
Lemma claims_none s name h clock : claims s name h clock None.
Proof. intros l x [=]. Qed.
Lemma claims_stored s name h clock l : stored s name = Some l → claims s name h clock (Some l).
Proof. intros Hs l' x [= <-] _ _. by right. Qed.
Lemma known_kept s s' name (R : Lease → Prop) :
  keeps_history s s' → (∀ l, R l → ever_stored s name l) → ∀ l, R l → ever_stored s' name l.
Proof. intros Hk HR l Hl. by apply Hk, HR. Qed.
Lemma known_added s s' name (R : Lease → Prop) l :
  keeps_history s s' → (∀ l, R l → ever_stored s name l) → stored s' name = Some l →
  ∀ x, R x ∨ x = l → ever_stored s' name x.
Proof using Hlaws. intros Hk HR Hl x [Hx| ->]; [by apply Hk, HR|by apply stored_ever]. Qed.

Lemma tended_answered {A} (Q : option Lease → A → Prop) s s' name h clock now (R : Lease → Prop) l p :
  (now ≤ clock)%N → (∀ l, R l → ever_stored s name l) →
  undisturbed s s' name h clock → stored s' name = Some l →
  cautious Q name h now (λ x, R x ∨ x = l) (Some l) p →
  tended Q s' name h clock p ∧ undisturbed s s' name h clock.
Proof using Hlaws.
  intros Hnow HR Hu Hl Hp. split; [|done]. exists now, (λ x, R x ∨ x = l), (Some l).
  split_and!; [done| |done|by apply claims_stored]. eapply known_added; [apply Hu|done..].
Qed.
Lemma tended_refused {A} (Q : option Lease → A → Prop) s s' name h clock now (R : Lease → Prop) p :
  (now ≤ clock)%N → (∀ l, R l → ever_stored s name l) →
  undisturbed s s' name h clock → cautious Q name h now R None p →
  tended Q s' name h clock p ∧ undisturbed s s' name h clock.
Proof.
  intros Hnow HR Hu Hp. split; [|done]. exists now, R, None.
  split_and!; [done| |done|by apply claims_none]. eapply known_kept; [apply Hu|done].
Qed.

Lemma untouched_refl s : untouched s s.
Proof. split; [done|]. by intros ???. Qed.

Lemma tended_step {A} (Q : option Lease → A → Prop) skew t s name h clock p s' p' :
  clock = (t + skew)%N → tended Q s name h clock p → prog_step skew t s p s' p' →
  tended Q s' name h clock p' ∧ undisturbed s s' name h clock.
Proof using Hlaws.
  intros Hclock (now & R & last & Hnow & HR & Hp & Hc) Hstep.
  destruct Hstep as [s k u Hu|s k msg|s n k r s' Hr|s n k r s' Hr|s l k r s' Hr|s n l k r s' Hr|s n pre k r s' Hr];
    cbn [cautious] in Hp.
  - split; [|by apply untouched_undisturbed, untouched_refl]. destruct Hp as [Hp _].
    exists u, R, last. split_and!; auto. destruct Hu. lia.
  - split; [|by apply untouched_undisturbed, untouched_refl]. destruct Hp as [_ Hp].
    exists now, R, last. split_and!; auto.
  - destruct Hp as (-> & Ha & He). apply get_law in Hr as [Hu Hr].
    pose proof (untouched_undisturbed s s' name h clock Hu) as Hu'. destruct r as [l|e].
    + eapply tended_answered; [done..| |auto]. destruct Hu as [Hs _]. rewrite Hs. auto.
    + by eapply tended_refused.
  - destruct Hp as (-> & Ha & Hn & He). apply get_opt_law in Hr as [Hu Hr].
    pose proof (untouched_undisturbed s s' name h clock Hu) as Hu'. destruct r as [[l|]|e].
    + eapply tended_answered; [done..| |auto]. destruct Hu as [Hs _]. rewrite Hs. auto.
    + by eapply tended_refused.
    + by eapply tended_refused.
  - destruct Hp as (Hn & Ha & He). apply create_law in Hr. destruct r as [l'|e].
    + pose proof (created_undisturbed s s' l l' name h clock Hn Hr) as [Hu Hl].
      eapply tended_answered; [done..|]. apply Ha. by destruct Hr as (? & _ & _ & ? & _).
    + eapply tended_refused; [done..| |auto]. destruct Hr as [Hu|[l' Hr]].
      * by apply untouched_undisturbed.
      * by apply (created_undisturbed s s' l l' name h clock Hn Hr).
  - destruct Hp as (-> & (r0 & Hr0 & Hv & Hrep) & Ha & He). apply HR in Hr0.
    apply replace_law in Hr; [|rewrite Hv; by eapply version_present].
    assert (∀ l', replaced s name l l' s' → undisturbed s s' name h clock ∧ stored s' name = Some l') as Hw
      by (intros l' Hl'; by eapply replaced_undisturbed).
    destruct r as [l'|e].
    + destruct (Hw l' Hr) as [Hu Hl]. eapply tended_answered; [done..|]. apply Ha.
      by destruct Hr as (? & _ & _ & ? & _).
    + eapply tended_refused; [done..| |auto]. destruct Hr as [Hu|[l' Hr]]; [by apply untouched_undisturbed|].
      by apply (Hw l').
  - destruct Hp as (-> & (r0 & Hr0 & Hv & Hh) & Hk). apply HR in Hr0. apply delete_law in Hr.
    assert (undisturbed s s' name h clock) as Hu.
    { destruct r; [|destruct Hr as [Hu|Hr]; [by apply untouched_undisturbed|]]; by eapply deleted_undisturbed. }
    by eapply tended_refused.
Qed.

Definition tended_actor (s : server_state) (name : string) (clock : N) (actor : Actor) : Prop :=
  match ac_task actor with
  | Owning p => tended (proves (ac_adapter actor)) s name (ka_holder_identity (ac_adapter actor)) clock p
  | Releasing p => tended (λ _ _, True) s name (ka_holder_identity (ac_adapter actor)) clock p
  end.
Definition world_inv (skew : N) (name : string) (w : World) : Prop :=
  competing name (w_actors w) ∧
  ∀ i actor, w_actors w !! i = Some actor → tended_actor (w_server w) name (latest_clock skew w) actor.

Lemma cautious_tended {A} (Q : option Lease → A → Prop) s name h clock p :
  (∀ now R last, cautious Q name h now R last p) → tended Q s name h clock p.
Proof.
  intros Hp. exists clock, (λ _, False), None. split_and!; [done|done|apply Hp|apply claims_none].
Qed.
Lemma started_tended a task s clock : starts a task → tended_actor s (ka_name a) clock (mkActor a task).
Proof.
  destruct 1 as [|p|p|p Hp|p Hp|p Hp]; apply cautious_tended; intros now R last.
  - exact (acquire_cautious a 3 now R last).
  - apply cautious_try. intros _ _. apply renew_cautious.
  - apply cautious_try. intros _ _. apply renew_cautious.
  - by apply release_cautious.
  - by apply release_owned_cautious.
  - by apply reconcile_cautious.
Qed.
Lemma tended_actor_step skew t s name clock a task s' task' :
  clock = (t + skew)%N → tended_actor s name clock (mkActor a task) → task_step skew t s task s' task' →
  tended_actor s' name clock (mkActor a task') ∧ undisturbed s s' name (ka_holder_identity a) clock.
Proof using Hlaws.
  intros Hc Ht. destruct 1 as [p s' p' Hstep|p s' p' Hstep]; exact (tended_step _ _ _ _ _ _ _ _ _ _ Hc Ht Hstep).
Qed.

(** Another holder's step and the passing of time keep an actor tended. *)
Lemma tended_other {A} (Q : option Lease → A → Prop) s s' name h h' clock p :
  h ≠ h' → undisturbed s s' name h' clock → tended Q s name h clock p → tended Q s' name h clock p.
Proof.
  intros Hne [Hk Hu] (now & R & last & Hnow & HR & Hp & Hc). exists now, R, last.
  split_and!; [done|by eapply known_kept|done|]. intros l x Hl Hh Hx.
  destruct (Hc l x Hl Hh Hx) as [|Hs]; [by left|].
  destruct (decide (x ≤ clock)%N); [by left|]. right. apply (Hu l x); [done|congruence|done|lia].
Qed.
Lemma tended_later {A} (Q : option Lease → A → Prop) s name h clock clock' p :
  (clock ≤ clock')%N → tended Q s name h clock p → tended Q s name h clock' p.
Proof.
  intros Hle (now & R & last & Hnow & HR & Hp & Hc). exists now, R, last.
  split_and!; [lia|done|done|]. intros l x Hl Hh Hx. destruct (Hc l x Hl Hh Hx); [left; lia|by right].
Qed.

Lemma competing_update name actors i a task task' :
  actors !! i = Some (mkActor a task) → competing name actors →
  competing name (<[i := mkActor a task']> actors).
Proof.
  intros Hi [Hn Hh].
  assert (∀ j x, <[i := mkActor a task']> actors !! j = Some x →
    ∃ y, actors !! j = Some y ∧ ac_adapter y = ac_adapter x) as Hold.
  { intros j x [(-> & <- & _)|[_ Hj]]%list_lookup_insert_Some; [by exists (mkActor a task)|by exists x]. }
  split.
  - intros j x (y & Hy & <-)%Hold. by eapply Hn.
  - intros j k x y (x' & Hx & <-)%Hold (y' & Hy & <-)%Hold. by eapply Hh.
Qed.

Lemma world_inv_step skew name w w' : world_inv skew name w → world_step skew w w' → world_inv skew name w'.
Proof using Hlaws.
  intros [Hcomp Hinv]. destruct 1 as [s t t' actors Hle|s t actors i a task task' Hi _ Hst|s s' t actors i a task task' Hi Hstep];
    cbn [w_server w_clock w_actors] in *.
  - split; [done|]. intros i actor Hi%Hinv. cbn. unfold tended_actor in *.
    destruct (ac_task actor); (eapply tended_later; [|done]); unfold latest_clock; cbn; lia.
  - split; [by eapply competing_update|]. intros j actor. cbn.
    intros [(-> & <- & _)|[_ Hj]]%list_lookup_insert_Some; [|by eapply Hinv].
    destruct Hcomp as [Hn _]. rewrite <-(Hn _ _ Hi). by apply started_tended.
  - split; [by eapply competing_update|]. intros j actor. cbn.
    pose proof (Hinv _ _ Hi) as Ht. eapply tended_actor_step in Ht as [Ht Hu]; [|done|done].
    intros [(-> & <- & _)|[Hne Hj]]%list_lookup_insert_Some; [done|].
    assert (ka_holder_identity (ac_adapter actor) ≠ ka_holder_identity a) as Hdiff.
    { intros Heq. destruct Hcomp as [_ Hh]. apply Hne. symmetry. by apply (Hh j i actor (mkActor a task)). }
    apply Hinv in Hj. unfold tended_actor in *. destruct (ac_task actor); by eapply tended_other.
Qed.
Lemma reachable_inv skew name w : reachable skew name w → world_inv skew name w.
Proof using Hlaws.
  intros (w0 & [Hcomp Hidle] & Hsteps).
  assert (world_inv skew name w0) as H0.
  { split; [done|]. intros i actor Hi. unfold tended_actor. rewrite (Hidle _ _ Hi). by apply cautious_tended. }
  clear Hcomp Hidle. induction Hsteps as [|w0 w1 w2 Hstep _ IH]; [done|]. by apply IH, (world_inv_step _ _ w0).
Qed.

(** An unexpired proof is a proof of the stored Lease. *)
Lemma unexpired_proof_stored skew name w i a p :
  reachable skew name w → w_actors w !! i = Some (mkActor a (Owning (Ret (ok p)))) →
  (latest_clock skew w < kp_expires_at_ms p)%N →
  ∃ l, stored (w_server w) name = Some l ∧ lease_proof a l = ok p.
Proof using Hlaws.
  intros [_ Hinv]%reachable_inv Hi Hlt. apply Hinv in Hi as (now & R & last & _ & _ & (l & -> & Hl) & Hc).
  exists l. split; [|done]. pose proof Hl as (Hh & Hx & _)%lease_proof_owned.
  destruct (Hc l _ eq_refl Hh Hx); [lia|done].
Qed.
End World.
