(* ===== verification/StorageLeaseTheorems.v ===== *)
(** * Lease theorems

    Exclusive ownership of the storage target over all interleavings of the
    adapters' requests, and what an acquisition that nobody interferes with
    returns and stores. *)
From S2P Require Import Prelude RustText StorageLease StorageLeaseFacts.
From stdpp Require Import options.

Section Exclusion.
Context `{Hlaws : LeaseServerLaws}.

(** C11. However adapters for different holders interleave their acquisitions, renewals
    and releases of a storage Lease, each with a clock that is off the true time by at
    most the given skew at every reading, and whatever requests the API server loses or
    refuses, at most one adapter ever holds a proof that no clock within the skew takes
    for expired, and that proof describes the Lease that is stored. *)
Theorem lease_exclusive skew name w i j a b p q :
  reachable skew name w →
  w_actors w !! i = Some (mkActor a (Owning (Ret (ok p)))) →
  w_actors w !! j = Some (mkActor b (Owning (Ret (ok q)))) →
  (latest_clock skew w < kp_expires_at_ms p)%N → (latest_clock skew w < kp_expires_at_ms q)%N →
  i = j ∧ ∃ l, stored (w_server w) name = Some l ∧ lease_proof a l = ok p.
Proof using Hlaws.
  intros Hw Hi Hj Hp Hq.
  destruct (unexpired_proof_stored _ _ _ _ _ _ Hw Hi Hp) as (l & Hl & Hprf). split; [|by exists l].
  apply lease_proof_owned in Hprf as (Hh & _).
  destruct (unexpired_proof_stored _ _ _ _ _ _ Hw Hj Hq) as (l' & Hl' & (Hh' & _)%lease_proof_owned).
  apply reachable_inv in Hw as [[_ Hdistinct] _].
  apply (Hdistinct _ _ _ _ Hi Hj). cbn. congruence.
Qed.

(** C25. In every reachable state, with clocks that are off the true time by at most the
    given skew, a step that changes a stored Lease which no clock within the skew takes
    for expired is a step of its own holder. *)
Theorem unexpired_lease_undisturbed skew name w w' l x :
  reachable skew name w → world_step skew w w' →
  stored (w_server w) name = Some l → lease_expiry l = Some x → (latest_clock skew w < x)%N →
  stored (w_server w') name = Some l ∨
  ∃ i a task task', w_actors w !! i = Some (mkActor a task) ∧ holder_of l = Some (ka_holder_identity a) ∧
    task_step skew (w_clock w) (w_server w) task (w_server w') task'.
Proof using Hlaws.
  intros [_ Hinv]%reachable_inv Hstep Hl Hx Hlt.
  destruct Hstep as [| |s s' t actors i a task task' Hi Hstep]; [by left|by left|]; cbn in *.
  destruct (decide (holder_of l = Some (ka_holder_identity a))) as [Hh|Hh]; [right; eauto 10|left].
  apply Hinv in Hi. eapply tended_actor_step in Hi as [_ [_ Hu]]; [|done|done]. by apply (Hu l x).
Qed.
End Exclusion.

(** ** Acquiring alone *)

(** [MicroTime] holds a signed 64-bit number of milliseconds. *)
Class LeaseTimeLaws `{Htime : LeaseTime} : Prop := {
  millis_range : ∀ m, (timestamp_millis m ≤ Z.of_N i64_max)%Z;
  millis_back : ∀ z m, timestamp_millis_opt z = Some m → timestamp_millis m = z;
  millis_again : ∀ m, is_Some (timestamp_millis_opt (timestamp_millis m));
}.

(** A server that receives every request and gives it an answer, and refuses no
    creation of an absent Lease and no replacement of the current one. *)
Class ResponsiveServer `{Hserver : LeaseServer} : Prop := {
  uid_present : ∀ s n l, stored s n = Some l → is_Some (lm_uid (le_metadata l));
  get_served : ∀ s n, ∃ r s', serve_get s n r s';
  delete_served : ∀ s n pre, ∃ r s', serve_delete s n pre r s';
  get_opt_served : ∀ s n, ∃ r s', serve_get_opt s n r s';
  create_served : ∀ s l, ∃ r s', serve_create s l r s';
  replace_served : ∀ s n l, ∃ r s', serve_replace s n l r s';
  get_opt_answered : ∀ s n r s', serve_get_opt s n r s' → ∃ o, r = Answered o;
  create_answered : ∀ s l r s' n, serve_create s l r s' →
    lm_name (le_metadata l) = Some n → stored s n = None → ∃ l', r = Answered l';
  replace_answered : ∀ s n l r s' old, serve_replace s n l r s' →
    stored s n = Some old → version_of l = version_of old → ∃ l', r = Answered l';
}.

Section Alone.
Context `{Hlaws : LeaseServerLaws} {Htl : LeaseTimeLaws} {Hresp : ResponsiveServer}.

(** An uninterrupted run of a program while the clock shows [t]. *)
Inductive runs {A} (t : N) : server_state → LeaseProg A → server_state → Result A → Prop :=
| runs_ret s r : runs t s (Ret r) s r
| runs_now s k s' r : runs t s (k (ok t)) s' r → runs t s (NowMs k) s' r
| runs_request s p s1 p1 s' r :
    (∀ k, p ≠ NowMs k) → prog_step 0 t s p s1 p1 → runs t s1 p1 s' r → runs t s p s' r.

(** The Lease [l] stores what [acquire] wrote and [p] proves it. *)
Definition acquired (a : LeaseAdapter) (s : server_state) (am rm : N) (n : Z) (p : KubernetesLeaseProof) : Prop :=
  ∃ l spec, stored s (ka_name a) = Some l ∧ lease_proof a l = ok p ∧ le_spec l = Some spec ∧
    ls_holder_identity spec = Some (ka_holder_identity a) ∧ ls_lease_transitions spec = Some n ∧
    kp_acquired_at_ms p = am ∧ kp_renew_at_ms p = rm ∧
    kp_expires_at_ms p = (rm + 1000 * Z.to_N (ka_duration_seconds a))%N.

(** The Lease [l] of the scope is held by [h], [n] times handed over, and expires at
    [renewed] plus its duration. *)
Record held (scope : string) (l : Lease) (spec : LeaseSpec) (h : string) (renewed : N) (seconds n : Z) : Prop := {
  hd_scope : ∃ annotations, lm_annotations (le_metadata l) = Some annotations ∧
    annotations !! SCOPE_ANNOTATION = Some scope;
  hd_spec : le_spec l = Some spec;
  hd_holder : ls_holder_identity spec = Some h;
  hd_duration : ls_lease_duration_seconds spec = Some seconds ∧ (0 < seconds)%Z;
  hd_renewed : ∃ m, (ls_renew_time spec = Some m ∨ ls_renew_time spec = None ∧ ls_acquire_time spec = Some m) ∧
    timestamp_millis m = Z.of_N renewed;
  hd_expiry : (renewed + 1000 * Z.to_N seconds ≤ u64_max)%N;
  hd_transitions : (ls_lease_transitions spec = Some n ∨ ls_lease_transitions spec = None ∧ n = 0%Z) ∧ (0 ≤ n)%Z;
}.
(** The Lease was acquired at [am]. *)
Definition acquired_since (spec : LeaseSpec) (am : N) : Prop :=
  ∃ m, ls_acquire_time spec = Some m ∧ timestamp_millis m = Z.of_N am.

(** What [acquire] makes of the Lease it reads. *)
Definition acquire_outcome (a : LeaseAdapter) (t : N) (s s' : server_state) (r : Result KubernetesLeaseProof) : Prop :=
  match stored s (ka_name a) with
  | None => ∃ p, r = ok p ∧ acquired a s' t t 0 p
  | Some l =>
      let refused := (∃ msg, r = err msg) ∧ stored s' (ka_name a) = Some l in
      let own := ka_holder_identity a in
      (∀ spec h renewed seconds n, held (ka_scope_sha256 a) l spec h renewed seconds n →
         let expires := (renewed + 1000 * Z.to_N seconds)%N in
         (∀ am, h = own → acquired_since spec am → ∃ p, r = ok p ∧ acquired a s' am t n p) ∧
         (h = own → (∀ am, ¬ acquired_since spec am) → refused) ∧
         (h ≠ own → (t < expires)%N → stored s' (ka_name a) = Some l ∧
            r = err ("storage-recovery Kubernetes Lease is held by " +:+ str_debug h +:+ " until " +:+ dec expires)) ∧
         (h ≠ own → (expires ≤ t)%N → (n < 2 ^ 31 - 1)%Z → ∃ p, r = ok p ∧ acquired a s' t t (n + 1) p) ∧
         (h ≠ own → (expires ≤ t)%N → (2 ^ 31 - 1 ≤ n)%Z → refused)) ∧
      ((∀ spec h renewed seconds n, ¬ held (ka_scope_sha256 a) l spec h renewed seconds n) → refused)
  end.

(** ** Reading a Lease *)
Lemma timestamp_ms_iff m t : timestamp_ms m = ok t ↔ timestamp_millis m = Z.of_N t.
Proof using Htl.
  unfold timestamp_ms. rewrite context_ok. pose proof (millis_range m) as Hr.
  assert (Z.of_N i64_max ≤ Z.of_N u64_max)%Z by (vm_compute; done).
  destruct (Z.leb_spec 0 (timestamp_millis m)), (Z.leb_spec (timestamp_millis m) (Z.of_N u64_max)); cbn [andb].
  - split; [intros [= <-]; lia|intros ->; f_equal; lia].
  - lia.
  - split; [done|lia].
  - lia.
Qed.
Lemma expiry_ms_iff renewed seconds x :
  expiry_ms renewed seconds = ok x ↔
  (0 ≤ seconds)%Z ∧ x = (renewed + 1000 * Z.to_N seconds)%N ∧ (x ≤ u64_max)%N.
Proof using Type.
  unfold expiry_ms. destruct (Z.leb_spec 0 seconds); [|split; [done|lia]]. run_result.
  rewrite bind_context_ok. setoid_rewrite context_ok. setoid_rewrite checked_mul64_Some.
  setoid_rewrite checked_add64_Some. split.
  - intros (ms & (-> & _) & (-> & ?)). lia.
  - intros (_ & -> & ?). exists (Z.to_N seconds * 1000)%N. lia.
Qed.
Lemma validate_scope_iff l scope :
  validate_scope l scope = ok tt ↔
  ∃ annotations, lm_annotations (le_metadata l) = Some annotations ∧ annotations !! SCOPE_ANNOTATION = Some scope.
Proof using Type.
  unfold validate_scope. rewrite ensure_ok. destruct (lm_annotations (le_metadata l)) as [ann|]; cbn.
  - destruct (ann !! SCOPE_ANNOTATION) as [sc|] eqn:E; [rewrite bool_decide_eq_true|]; split.
    + intros ->. by exists ann.
    + intros (? & [= <-] & ?). congruence.
    + done.
    + intros (? & [= <-] & ?). congruence.
  - split; [done|]. by intros (? & [=] & _).
Qed.
(** The decision on a Lease that is held. *)
Definition decision_on (l : Lease) (own : string) (t : N) (spec : LeaseSpec) (h : string) (expires : N) (n : Z)
    : Result AcquisitionDecision :=
  if bool_decide (h = own) then
    acquire_time ← context (ls_acquire_time spec) "owned Kubernetes Lease lacks acquireTime";
    acquired_at_ms ← timestamp_ms acquire_time;
    ok (Renew acquired_at_ms n)
  else if (t <? expires)%N then ok (Contended h expires)
  else
    transitions ← context (checked_succ_i32 n) "Kubernetes Lease transition count overflow";
    ok (TakeOver transitions).
Lemma decision_held l scope own t spec h renewed seconds n :
  held scope l spec h renewed seconds n →
  acquisition_decision l scope own t = decision_on l own t spec h (renewed + 1000 * Z.to_N seconds) n.
Proof using Htl.
  intros [Hs%validate_scope_iff Hspec Hh [Hd Hpos] (m & Hm & Hr%timestamp_ms_iff) Hx [Hn Hge]].
  unfold acquisition_decision. rewrite Hs, Hspec. run_result. rewrite Hh. run_result. rewrite Hd. run_result.
  rewrite (proj2 (Z.ltb_lt _ _) Hpos). run_result.
  assert (match ls_renew_time spec with Some t => Some t | None => ls_acquire_time spec end = Some m) as ->
    by (by destruct Hm as [->|[-> ->]]).
  run_result. rewrite Hr. run_result.
  rewrite (proj2 (expiry_ms_iff _ _ (renewed + 1000 * Z.to_N seconds)%N)) by (split_and!; [lia|done..]). run_result.
  assert (default 0%Z (ls_lease_transitions spec) = n) as -> by (by destruct Hn as [->|[-> ->]]).
  by rewrite (proj2 (Z.leb_le _ _) Hge).
Qed.
Lemma decided_held l scope own t d :
  acquisition_decision l scope own t = ok d → ∃ spec h renewed seconds n, held scope l spec h renewed seconds n.
Proof using Htl.
  unfold acquisition_decision.
  intros (Hs & (spec & Hspec & (h & Hh & (dur & Hd & (Hpos & H)%bind_ensure_ok)%bind_context_ok)%bind_context_ok)%bind_context_ok)%bind_unit_ok.
  apply bind_context_ok in H as (time & Ht & (rms & Hr & (x & Hx & (Hn & _)%bind_ensure_ok)%bind_ok)%bind_ok).
  apply expiry_ms_iff in Hx as (_ & -> & Hx). exists spec, h, rms, dur, (default 0%Z (ls_lease_transitions spec)).
  split; [by apply validate_scope_iff|done|done| | |done|].
  - split; [done|]. by apply Z.ltb_lt.
  - exists time. split; [|by apply timestamp_ms_iff]. destruct (ls_renew_time spec); [left; done|right; done].
  - split; [destruct (ls_lease_transitions spec); auto|by apply Z.leb_le].
Qed.
Lemma micro_time_back t m : micro_time t = ok m → timestamp_ms m = ok t.
Proof using Htl.
  unfold micro_time, timestamp_ms. destruct (N.leb_spec t i64_max) as [Hle|]; [|done]. run_result.
  intros Hm%context_ok%millis_back. rewrite Hm.
  rewrite (proj2 (Z.leb_le _ _)) by lia. rewrite (proj2 (Z.leb_le _ _)); [simpl; f_equal; lia|].
  assert (i64_max ≤ u64_max)%N by (vm_compute; done). lia.
Qed.
Lemma timestamp_ms_again m t : timestamp_ms m = ok t → ∃ m', micro_time t = ok m'.
Proof using Htl.
  unfold micro_time, timestamp_ms. intros Hm%context_ok. pose proof (millis_range m) as Hr.
  destruct (Z.leb_spec 0 (timestamp_millis m)); [|done]. cbn [andb] in Hm.
  destruct (timestamp_millis m <=? Z.of_N u64_max)%Z; [|done]. injection Hm as <-.
  rewrite (proj2 (N.leb_le _ _)) by lia. run_result. rewrite Z2N.id by done.
  destruct (millis_again m) as [m' ->]. by exists m'.
Qed.

Lemma acquired_of_body a s rv am rm n lease l :
  (0 ≤ ka_duration_seconds a ≤ 300)%Z → (rm ≤ i64_max)%N →
  lease_body a rv am rm n = ok lease → same_content lease l → stored s (ka_name a) = Some l →
  ∃ p, lease_proof a l = ok p ∧ acquired a s am rm n p.
Proof using Hlaws Htl Hresp.
  intros Hd Hrm (ta & Hta%micro_time_back & (tr & Htr%micro_time_back & [= <-])%bind_ok)%bind_ok [Hspec Hann] Hl.
  pose proof (uid_present _ _ _ Hl) as [uid Huid].
  pose proof (version_present _ _ _ (stored_ever _ _ _ Hl)) as [v Hv].
  set (x := (rm + 1000 * Z.to_N (ka_duration_seconds a))%N).
  assert (expiry_ms rm (ka_duration_seconds a) = ok x) as Hx.
  { unfold expiry_ms. rewrite (proj2 (Z.leb_le _ _)) by lia. run_result.
    assert (i64_max + 300000 ≤ u64_max)%N by (vm_compute; done).
    rewrite (proj2 (checked_mul64_Some _ _ (Z.to_N (ka_duration_seconds a) * 1000)%N)) by lia. run_result.
    rewrite (proj2 (checked_add64_Some _ _ x)) by lia. done. }
  assert (lease_proof a l = ok (mkKubernetesLeaseProof (ka_name a) uid v (ka_holder_identity a)
            (ka_scope_sha256 a) am rm x)) as Hp.
  { unfold lease_proof, validate_scope. rewrite Hann, Hspec. cbn [lm_annotations le_metadata option_bind mbind].
    rewrite lookup_singleton_eq. rewrite bool_decide_true by done. run_result. cbn.
    rewrite !bool_decide_true by done. run_result. rewrite Hta. run_result. rewrite Htr. run_result.
    unfold version_of in Hv. rewrite Huid, Hv. run_result. rewrite Hx. done. }
  eexists. split; [exact Hp|]. by exists l, (mkLeaseSpec (Some ta) (Some (ka_holder_identity a))
    (Some (ka_duration_seconds a)) (Some n) (Some tr)).
Qed.

Lemma runs_ret_inv {A} t s (x : Result A) s' r : runs t s (Ret x) s' r → s' = s ∧ r = x.
Proof. inversion 1 as [| |? ? ? ? ? ? _ Hstep]; [done|]. inversion Hstep. Qed.
Lemma runs_now_inv {A} t s (k : N → LeaseProg A) s' r : runs t s (now_ms k) s' r → runs t s (k t) s' r.
Proof. inversion 1 as [|? ? ? ? Hk|? ? ? ? ? ? Hno]; [done|]. by destruct (Hno (λ r, try r k)). Qed.
Lemma runs_get_opt_inv {A} t s n (k : Reply (option Lease) → LeaseProg A) s' r :
  runs t s (GetLeaseOpt n k) s' r → ∃ s1, untouched s s1 ∧ runs t s1 (k (Answered (stored s n))) s' r.
Proof using Hlaws Hresp.
  inversion 1 as [| |? ? s1 ? ? ? _ Hstep Hk]; subst. inversion Hstep as [| | |? ? ? rep ? Hr| | |]; subst.
  pose proof (get_opt_answered _ _ _ _ Hr) as [o ->]. apply get_opt_law in Hr as [Hu Ho].
  exists s1. split; [done|]. by rewrite (Ho o eq_refl).
Qed.
Lemma runs_create_inv {A} t s lease n (k : Reply Lease → LeaseProg A) s' r :
  lm_name (le_metadata lease) = Some n → stored s n = None →
  runs t s (CreateLease lease k) s' r →
  ∃ l s1, same_content lease l ∧ stored s1 n = Some l ∧ runs t s1 (k (Answered l)) s' r.
Proof using Hlaws Hresp.
  intros Hn Hnone. inversion 1 as [| |? ? s1 ? ? ? _ Hstep Hk]; subst.
  inversion Hstep as [| | | |? ? ? rep ? Hr| |]; subst.
  pose proof (create_answered _ _ _ _ _ Hr Hn Hnone) as [l ->].
  apply create_law in Hr as (n' & Hn' & _ & Hc & Hput & _). simplify_eq. by exists l, s1.
Qed.
Lemma runs_replace_inv {A} t s n lease old (k : Reply Lease → LeaseProg A) s' r :
  stored s n = Some old → version_of lease = version_of old →
  runs t s (ReplaceLease n lease k) s' r →
  ∃ l s1, same_content lease l ∧ stored s1 n = Some l ∧ runs t s1 (k (Answered l)) s' r.
Proof using Hlaws Hresp.
  intros Hold Hv. inversion 1 as [| |? ? s1 ? ? ? _ Hstep Hk]; subst.
  inversion Hstep as [| | | | |? ? ? ? rep ? Hr|]; subst.
  pose proof (replace_answered _ _ _ _ _ _ Hr Hold Hv) as [l ->].
  apply replace_law in Hr; [|rewrite Hv; eapply version_present; by apply stored_ever].
  destruct Hr as (_ & _ & _ & Hc & Hput & _). by exists l, s1.
Qed.

(** A replacement the server answers. *)
Lemma replacement_outcome a t s l am n (k : Reply Lease → LeaseProg KubernetesLeaseProof) s' r :
  (0 ≤ ka_duration_seconds a ≤ 300)%Z → (t ≤ i64_max)%N → is_Some (result_option (micro_time t)) →
  is_Some (result_option (micro_time am)) → stored s (ka_name a) = Some l →
  (∀ l', k (Answered l') = Ret (lease_proof a l')) →
  runs t s (try (lease_body a (lm_resource_version (le_metadata l)) am t n)
              (λ lease, ReplaceLease (ka_name a) lease k)) s' r →
  ∃ p, r = ok p ∧ acquired a s' am t n p.
Proof using Hlaws Htl Hresp.
  intros Hd Ht [mt Hmt] [ma Hma] Hl Hk.
  assert (∃ lease, lease_body a (lm_resource_version (le_metadata l)) am t n = ok lease) as [lease Hb].
  { unfold lease_body. destruct (micro_time am); [|done..]. destruct (micro_time t); [|done..]. by eexists. }
  rewrite Hb. cbn [try]. pose proof Hb as (Hv & _ & _)%lease_body_ok.
  intros (l' & s1 & Hc & Hs1 & Hrun)%(runs_replace_inv _ _ _ _ l); [|done|done].
  rewrite Hk in Hrun. apply runs_ret_inv in Hrun as [-> ->].
  destruct (acquired_of_body a s1 _ _ _ _ _ _ Hd Ht Hb Hc Hs1) as (p & -> & Hp). by exists p.
Qed.

Lemma context_not_panicked {A} (o : option A) msg : context o msg ≠ panicked.
Proof. by destruct o. Qed.
Lemma acquisition_decision_not_panicked l scope h t : acquisition_decision l scope h t ≠ panicked.
Proof.
  unfold acquisition_decision, validate_scope, timestamp_ms, expiry_ms.
  repeat first [ apply bind_context_not_panicked; intros ? | apply bind_ensure_not_panicked; intros _
               | apply bind_not_panicked; [|intros ? _]
               | match goal with |- context [if ?b then _ else _] => destruct b end
               | apply context_not_panicked | done ].
Qed.
Lemma decision_times l scope h t am n :
  acquisition_decision l scope h t = ok (Renew am n) → is_Some (result_option (micro_time am)).
Proof using Htl.
  unfold acquisition_decision.
  intros (_ & (spec & _ & (h' & _ & (dur & _ & (_ & H)%bind_ensure_ok)%bind_context_ok)%bind_context_ok)%bind_context_ok)%bind_unit_ok.
  apply bind_context_ok in H as (time & _ & (rms & _ & (x & _ & (_ & H)%bind_ensure_ok)%bind_ok)%bind_ok).
  case_bool_decide.
  - apply bind_context_ok in H as (ta & _ & (ams & Hta & [= -> _])%bind_ok).
    destruct (timestamp_ms_again _ _ Hta) as [m ->]. by exists m.
  - destruct (t <? x)%N; [done|]. by apply bind_context_ok in H as (? & _ & [=]).
Qed.

Lemma adapter_new_duration ns scope run att d a :
  adapter_new ns scope run att d = ok a → (5 ≤ ka_duration_seconds a ≤ 300)%Z.
Proof.
  unfold adapter_new.
  intros (_ & (_ & (Hd & (name & _ & (secs & Hsecs & [= <-])%bind_ok)%bind_ok)%bind_ensure_ok)%bind_ensure_ok)%bind_ensure_ok.
  rewrite !andb_true_iff, !N.leb_le in Hd. destruct Hd as [[Hlo Hhi] _].
  unfold MIN_LEASE_DURATION_SECONDS, MAX_LEASE_DURATION_SECONDS in *. cbn [ka_duration_seconds].
  destruct (N.leb_spec (d / NANOS_PER_SECOND) (2 ^ 31 - 1)) in Hsecs; [|done]. injection Hsecs as <-. lia.
Qed.
Lemma micro_time_bound t m : micro_time t = ok m → (t ≤ i64_max)%N.
Proof. unfold micro_time. by destruct (N.leb_spec t i64_max). Qed.

(** What follows from a decision. *)
Definition decision_outcome (a : LeaseAdapter) (t : N) (l : Lease) (s' : server_state) (r : Result KubernetesLeaseProof)
    (decision : Result AcquisitionDecision) : Prop :=
  match decision with
  | ok (Renew am n) => ∃ p, r = ok p ∧ acquired a s' am t n p
  | ok (TakeOver n) => ∃ p, r = ok p ∧ acquired a s' t t n p
  | ok (Contended h x) => stored s' (ka_name a) = Some l ∧
      r = err ("storage-recovery Kubernetes Lease is held by " +:+ str_debug h +:+ " until " +:+ dec x)
  | err msg => r = err msg ∧ stored s' (ka_name a) = Some l
  | panicked => False
  end.
Lemma decision_read a t s l s' r :
  stored s (ka_name a) = Some l →
  decision_outcome a t l s' r (acquisition_decision l (ka_scope_sha256 a) (ka_holder_identity a) t) →
  acquire_outcome a t s s' r.
Proof using Htl.
  intros Hl Hout. unfold acquire_outcome. rewrite Hl. cbv zeta. split.
  - intros spec h renewed seconds n Hheld. rewrite (decision_held _ _ _ _ _ _ _ _ _ Hheld) in Hout.
    unfold decision_on, checked_succ_i32, lease_i32_max in Hout. split_and!.
    + intros am -> (m & Hm & Ham%timestamp_ms_iff). rewrite bool_decide_eq_true_2, Hm in Hout by done.
      cbn [context mbind Result_bind] in Hout. by rewrite Ham in Hout.
    + intros -> Hno. rewrite bool_decide_eq_true_2 in Hout by done.
      destruct (ls_acquire_time spec) as [m|] eqn:Hm; cbn [context mbind Result_bind] in Hout; [|destruct Hout; eauto].
      destruct (timestamp_ms m) as [am|msg|] eqn:Hts; [|destruct Hout; eauto|done].
      exfalso. apply (Hno am). exists m. split; [done|]. by apply timestamp_ms_iff.
    + intros Hne Hlt. by rewrite bool_decide_eq_false_2, (proj2 (N.ltb_lt _ _) Hlt) in Hout.
    + intros Hne Hge Hn. rewrite bool_decide_eq_false_2, (proj2 (N.ltb_ge _ _) Hge), (proj2 (Z.leb_le _ _)) in Hout; [done|lia|done].
    + intros Hne Hge Hn. rewrite bool_decide_eq_false_2, (proj2 (N.ltb_ge _ _) Hge), (proj2 (Z.leb_gt _ _)) in Hout; [|lia|done].
      destruct Hout; eauto.
  - intros Hno. destruct (acquisition_decision _ _ _ _) as [d|msg|] eqn:Hdec.
    + apply decided_held in Hdec as (spec & h & renewed & seconds & n & Hheld). by apply Hno in Hheld.
    + destruct Hout; eauto.
    + done.
Qed.

(** Takes the answer [H] provides and runs the continuation. *)
Local Ltac serve H IH :=
  let rep := fresh in let s1 := fresh in let H1 := fresh in let Hr := fresh in
  destruct H as (rep & s1 & H1); destruct (IH rep s1) as (? & ? & Hr);
  do 2 eexists; eapply runs_request; [done|constructor; exact H1|exact Hr].
(** Every operation ends, whatever the answers. *)
Lemma runs_exist {A} t (p : LeaseProg A) : ∀ s, ∃ s' r, runs t s p s' r.
Proof using Hresp.
  induction p as [r|k IH|n k IH|n k IH|l k IH|n l k IH|n pre k IH]; intros s.
  - exists s, r. constructor.
  - destruct (IH (ok t) s) as (s' & r & Hr). exists s', r. by constructor.
  - serve (get_served s n) IH.
  - serve (get_opt_served s n) IH.
  - serve (create_served s l) IH.
  - serve (replace_served s n l) IH.
  - serve (delete_served s n pre) IH.
Qed.

(** C26. Against a server that answers, a lone acquisition at a time t always ends. It
    creates a missing Lease. A Lease of the scope with a holder, a positive duration, a
    last renewal (or acquisition) time and a non-negative number of transitions is
    renewed with its acquisition time and transitions when the holder is the adapter
    itself, taken over with one more transition when the holder is another and the
    renewal time plus the duration is at most t, and otherwise left alone with an error
    that names the holder and the expiry. A takeover beyond 2^31-1 transitions, a
    renewal without an acquisition time and any Lease that lacks one of these fields or
    overflows are refused with an error and left as stored. The returned proof is that
    of the Lease then stored. *)
Theorem acquire_alone namespace scope run attempt duration a t m s :
  adapter_new namespace scope run attempt duration = ok a → micro_time t = ok m →
  (∃ s' r, runs t s (acquire a) s' r) ∧
  ∀ s' r, runs t s (acquire a) s' r → acquire_outcome a t s s' r.
Proof using Hlaws Htl Hresp.
  intros Hd%adapter_new_duration Hm. split; [apply runs_exist|]. pose proof (micro_time_bound _ _ Hm) as Ht.
  assert (is_Some (result_option (micro_time t))) as Hmt by (rewrite Hm; by eexists).
  assert (0 ≤ ka_duration_seconds a ≤ 300)%Z as Hdur by lia.
  intros s' r (s1 & [Hs1 _] & Hrun)%runs_now_inv%runs_get_opt_inv.
  destruct (stored s (ka_name a)) as [l|] eqn:Hl; cbn [try_reply] in Hrun.
  - assert (decision_outcome a t l s' r (acquisition_decision l (ka_scope_sha256 a) (ka_holder_identity a) t)) as Hout.
    { destruct (acquisition_decision l _ _ t) as [d|msg|] eqn:Hdec; cbn [try] in Hrun.
      + destruct d as [am n|n|h x].
        * eapply replacement_outcome; [done..|by eapply decision_times|rewrite Hs1; done| |exact Hrun]. done.
        * eapply replacement_outcome; [done..|rewrite Hs1; done| |exact Hrun]. done.
        * apply runs_ret_inv in Hrun as [-> ->]. cbn [decision_outcome]. by rewrite Hs1.
      + apply runs_ret_inv in Hrun as [-> ->]. cbn [decision_outcome]. by rewrite Hs1.
      + by apply acquisition_decision_not_panicked in Hdec. }
    by eapply decision_read.
  - unfold acquire_outcome. rewrite Hl. destruct (lease_body a None t t 0) as [lease| |] eqn:Hb.
    2,3: by unfold lease_body in Hb; rewrite Hm in Hb.
    pose proof Hb as (_ & Hn & _)%lease_body_ok.
    apply (runs_create_inv _ _ _ (ka_name a)) in Hrun as (l & s2 & Hc & Hs2 & Hrun); [|done|by rewrite Hs1].
    apply runs_ret_inv in Hrun as [-> ->].
    destruct (acquired_of_body a s2 _ _ _ _ _ _ Hdur Ht Hb Hc Hs2) as (p & -> & Hp). by exists p.
Qed.
End Alone.
