(* ===== verification/LeaseServerSample.v ===== *)
(** * A Lease server

    An in-memory API server that satisfies the laws the Lease theorems assume,
    and a run of two adapters against it. An object is stored with the position
    of its write as resource version. *)
From S2P Require Import Prelude RustText StorageLease StorageLeaseFacts StorageLeaseTheorems.
From stdpp Require Import options.

(** Times are their number of milliseconds. *)
Definition in_i64 (z : Z) : bool := negb (z <? - Z.of_N i64_max - 1)%Z && (z <=? Z.of_N i64_max)%Z.
Global Instance sample_time : LeaseTime := {|
  MicroTime := { z : Z | in_i64 z };
  timestamp_millis := proj1_sig;
  timestamp_millis_opt z := match decide (in_i64 z) with left H => Some (exist _ z H) | right _ => None end;
|}.
Global Instance sample_time_laws : LeaseTimeLaws.
Proof.
  split.
  - intros [z Hz]. pose proof Hz as [_ Hle%Z.leb_le]%Is_true_true_1%andb_true_iff. done.
  - intros z m. cbn. destruct (decide _); [by intros [= <-]|done].
  - intros [z Hz]. cbn. destruct (decide _); [by eexists|done].
Qed.

Record MemoryServer := mkMemoryServer {
  ms_writes : list (string * Lease);
  ms_current : gmap string nat;
}.
Definition stamp (k : nat) (l : Lease) : Lease :=
  mkLease (mkLeaseMeta (lm_name (le_metadata l)) (Some "uid") (Some (pretty k)) (lm_annotations (le_metadata l)))
    (le_spec l).
Definition memory_stored (s : MemoryServer) (n : string) : option Lease :=
  k ← ms_current s !! n;
  e ← ms_writes s !! k;
  if decide (fst e = n) then Some (stamp k (snd e)) else None.
Definition memory_put (s : MemoryServer) (n : string) (l : Lease) : MemoryServer :=
  mkMemoryServer (ms_writes s ++ [(n, l)]) (<[n := length (ms_writes s)]> (ms_current s)).
Definition conflict : KubeError := ApiStatus 409 "conflict".
Definition lease_not_found : KubeError := ApiStatus 404 "not found".
Definition memory_create (s : MemoryServer) (l : Lease) : Reply Lease * MemoryServer :=
  match lm_name (le_metadata l) with
  | Some n => if bool_decide (is_Some (memory_stored s n)) then (Refused conflict, s)
              else (Answered (stamp (length (ms_writes s)) l), memory_put s n l)
  | None => (Refused (ApiStatus 422 "invalid"), s)
  end.
Definition memory_replace (s : MemoryServer) (n : string) (l : Lease) : Reply Lease * MemoryServer :=
  match memory_stored s n with
  | Some old => if decide (version_of l = version_of old)
                then (Answered (stamp (length (ms_writes s)) l), memory_put s n l) else (Refused conflict, s)
  | None => (Refused lease_not_found, s)
  end.
Definition memory_delete (s : MemoryServer) (n : string) (pre : LeasePreconditions) : Reply unit * MemoryServer :=
  match memory_stored s n with
  | Some old => if decide (version_of old = Some (pc_resource_version pre))
                then (Answered tt, mkMemoryServer (ms_writes s) (delete n (ms_current s)))
                else (Refused conflict, s)
  | None => (Refused lease_not_found, s)
  end.
Global Instance memory_server : LeaseServer := {|
  server_state := MemoryServer;
  stored := memory_stored;
  ever_stored s n l := ∃ k l0, ms_writes s !! k = Some (n, l0) ∧ l = stamp k l0;
  serve_get s n r s' := (r, s') = (match memory_stored s n with Some l => Answered l | None => Refused lease_not_found end, s);
  serve_get_opt s n r s' := (r, s') = (Answered (memory_stored s n), s);
  serve_create s l r s' := (r, s') = memory_create s l;
  serve_replace s n l r s' := (r, s') = memory_replace s n l;
  serve_delete s n pre r s' := (r, s') = memory_delete s n pre;
|}.

Lemma memory_put_stored s n l : memory_stored (memory_put s n l) n = Some (stamp (length (ms_writes s)) l).
Proof.
  unfold memory_stored, memory_put. cbn. rewrite lookup_insert_eq. cbn.
  rewrite lookup_app_r, Nat.sub_diag by lia. cbn. by rewrite decide_True.
Qed.
Lemma memory_put_other s n l n' : n' ≠ n → memory_stored (memory_put s n l) n' = memory_stored s n'.
Proof.
  intros Hne. unfold memory_stored, memory_put. cbn. rewrite lookup_insert_ne by done.
  destruct (ms_current s !! n') as [k|]; [|done]. cbn.
  destruct (ms_writes s !! k) as [e|] eqn:E; [by rewrite (lookup_app_l_Some _ _ _ _ E)|].
  destruct ((ms_writes s ++ [(n, l)]) !! k) as [e|] eqn:E'; [|done]. cbn.
  apply lookup_app_Some in E' as [E'|[Hle E']]; [congruence|].
  apply list_lookup_singleton_Some in E' as [_ <-]. cbn. by rewrite decide_False.
Qed.
Lemma memory_put_history s n l n' x : ever_stored s n' x → ever_stored (memory_put s n l) n' x.
Proof. intros (k & l0 & Hk & ->). exists k, l0. split; [|done]. cbn. by apply lookup_app_l_Some. Qed.
Lemma memory_put_put s n l : put s n (stamp (length (ms_writes s)) l) (memory_put s n l).
Proof.
  split_and!; [apply memory_put_stored|apply memory_put_other|]. intros n' x. apply memory_put_history.
Qed.
Lemma memory_untouched (s : MemoryServer) : untouched s s.
Proof. apply untouched_refl. Qed.

Global Instance memory_server_laws : LeaseServerLaws.
Proof.
  split.
  - intros s n l. cbn. unfold memory_stored. destruct (ms_current s !! n) as [k|]; [|done]. cbn.
    destruct (ms_writes s !! k) as [[n' l0]|] eqn:E; [|done]. cbn. case_decide; [|done]. subst. naive_solver.
  - intros s n l (k & l0 & _ & ->). by eexists.
  - intros s n l l' (k & l0 & Hk & ->) (k' & l0' & Hk' & ->) [= Heq]. apply (inj pretty) in Heq. naive_solver.
  - intros s n r s' [= -> ->]. split; [apply memory_untouched|]. intros l. cbn.
    destruct (memory_stored s n); congruence.
  - intros s n r s' [= -> ->]. split; [apply memory_untouched|]. intros o [= <-]. done.
  - intros s l r s' Heq. cbn in Heq. unfold memory_create in Heq.
    destruct (lm_name (le_metadata l)) as [n|] eqn:En; [|injection Heq as -> ->; left; apply memory_untouched].
    destruct (memory_stored s n) eqn:Es; cbn in Heq; injection Heq as -> ->; [left; apply memory_untouched|].
    exists n. split_and!; [done..| |apply memory_put_put]. done.
  - intros s n l r s' Heq _. cbn in Heq. unfold memory_replace in Heq.
    destruct (memory_stored s n) as [old|] eqn:Es; [|injection Heq as -> ->; left; apply memory_untouched].
    case_decide; injection Heq as -> ->; [|left; apply memory_untouched].
    exists old. split_and!; [done..| |apply memory_put_put]. done.
  - intros s n pre r s' Heq. cbn in Heq. unfold memory_delete in Heq.
    destruct (memory_stored s n) as [old|] eqn:Es; [|injection Heq as -> ->; left; apply memory_untouched].
    case_decide; injection Heq as -> ->; [|left; apply memory_untouched].
    exists old. split_and!; [done..| | |by intros n' x].
    + cbn. unfold memory_stored. cbn. by rewrite lookup_delete_eq.
    + intros n' Hne. cbn. unfold memory_stored. cbn. by rewrite lookup_delete_ne.
Qed.
Global Instance memory_server_responsive : ResponsiveServer.
Proof.
  split.
  - intros s n l. cbn. unfold memory_stored. destruct (ms_current s !! n) as [k|]; [|done]. cbn.
    destruct (ms_writes s !! k) as [[n' l0]|] eqn:E; [|done]. cbn. case_decide; [|done]. intros [= <-]. by eexists.
  - intros s n. by do 2 eexists.
  - intros s n pre. do 2 eexists. symmetry. apply surjective_pairing.
  - intros s n. by do 2 eexists.
  - intros s l. do 2 eexists. symmetry. apply surjective_pairing.
  - intros s n l. do 2 eexists. symmetry. apply surjective_pairing.
  - intros s n r s' [= -> ->]. by eexists.
  - intros s l r s' n Heq Hn Hs. cbn in *. unfold memory_create in Heq. rewrite Hn, Hs in Heq.
    injection Heq as -> ->. by eexists.
  - intros s n l r s' old Heq Hs Hv. cbn in *. unfold memory_replace in Heq. rewrite Hs, decide_True in Heq by done.
    injection Heq as -> ->. by eexists.
Qed.

(** ** Runs against the server *)

(** The clocks of the hosts may differ by two seconds. *)
Definition sample_skew : N := 1000.
Definition memory_step {A} (t : N) (s : MemoryServer) (p : LeaseProg A) : MemoryServer * LeaseProg A :=
  match p with
  | Ret r => (s, Ret r)
  | NowMs k => (s, k (ok t))
  | GetLease n k => (s, k (match memory_stored s n with Some l => Answered l | None => Refused lease_not_found end))
  | GetLeaseOpt n k => (s, k (Answered (memory_stored s n)))
  | CreateLease l k => let '(r, s') := memory_create s l in (s', k r)
  | ReplaceLease n l k => let '(r, s') := memory_replace s n l in (s', k r)
  | DeleteLease n pre k => let '(r, s') := memory_delete s n pre in (s', k r)
  end.
Lemma memory_step_sound {A} t s (p : LeaseProg A) s' p' :
  memory_step t s p = (s', p') → (s', p') = (s, p) ∨ prog_step sample_skew t (s : server_state) p s' p'.
Proof.
  destruct p as [r|k|n k|n k|l k|n l k|n pre k]; cbn; intros H; [left; by rewrite <-H|right..].
  - injection H as <- <-. constructor. unfold shows. lia.
  - injection H as <- <-. by constructor.
  - injection H as <- <-. by constructor.
  - destruct (memory_create s l) as [r s1] eqn:E. injection H as <- <-. by constructor.
  - destruct (memory_replace s n l) as [r s1] eqn:E. injection H as <- <-. by constructor.
  - destruct (memory_delete s n pre) as [r s1] eqn:E. injection H as <- <-. by constructor.
Qed.

(** One request of actor [i]. *)
Definition actor_step (i : nat) (w : World) : World :=
  match w_actors w !! i with
  | Some (mkActor a (Owning p)) =>
      let '(s, p') := memory_step (w_clock w) (w_server w) p in
      mkWorld s (w_clock w) (<[i := mkActor a (Owning p')]> (w_actors w))
  | Some (mkActor a (Releasing p)) =>
      let '(s, p') := memory_step (w_clock w) (w_server w) p in
      mkWorld s (w_clock w) (<[i := mkActor a (Releasing p')]> (w_actors w))
  | None => w
  end.
Lemma actor_step_sound i w : rtc (world_step sample_skew) w (actor_step i w).
Proof.
  destruct w as [s t actors]. unfold actor_step. cbn [w_actors w_clock w_server].
  destruct (actors !! i) as [[a [p|p]]|] eqn:Hi; [| |done];
    destruct (memory_step t s p) as [s' p'] eqn:E; apply memory_step_sound in E as [[= -> ->]|E].
  1,3: by rewrite list_insert_id by done.
  all: apply rtc_once; eapply ws_request; [done|by constructor].
Qed.
Definition actor_acquires (i : nat) (w : World) : World :=
  match w_actors w !! i with
  | Some (mkActor a (Owning (Ret r))) =>
      mkWorld (w_server w) (w_clock w) (<[i := mkActor a (Owning (acquire a))]> (w_actors w))
  | _ => w
  end.
Lemma actor_acquires_sound i w : rtc (world_step sample_skew) w (actor_acquires i w).
Proof.
  destruct w as [s t actors]. unfold actor_acquires. cbn [w_actors w_clock w_server].
  destruct (actors !! i) as [[a [[]|p]]|] eqn:Hi; try done.
  apply rtc_once. eapply ws_start; [done|done|apply start_acquire].
Qed.

Definition sample_scope : string := "0123456789abcdef0123456789abcdef0123456789abcdef0123456789abcdef".
Definition sample_adapter (run : string) : LeaseAdapter :=
  mkLeaseAdapter "s3chaos-storage-0123456789abcdef0123" sample_scope (run +:+ "/attempt-1") 30.
Lemma sample_adapter_new :
  adapter_new "chaos" sample_scope "run-a" "attempt-1" 30000000000 = ok (sample_adapter "run-a").
Proof. vm_compute. reflexivity. Qed.
Definition empty_server : MemoryServer := mkMemoryServer [] ∅.
Definition idle_actor (a : LeaseAdapter) : Actor := mkActor a (Owning (Ret (err "idle"))).
Definition sample_world : World := mkWorld empty_server 1000000 [idle_actor (sample_adapter "run-a"); idle_actor (sample_adapter "run-b")].
(** The first adapter has acquired the Lease; the second has started to. *)
Definition owned_world : World :=
  actor_acquires 1 (actor_step 0 (actor_step 0 (actor_step 0 (actor_acquires 0 sample_world)))).
Definition sample_proof : KubernetesLeaseProof :=
  mkKubernetesLeaseProof "s3chaos-storage-0123456789abcdef0123" "uid" "0" "run-a/attempt-1" sample_scope
    1000000 1000000 1030000.
Lemma sample_world_initial : initial_world "s3chaos-storage-0123456789abcdef0123" sample_world.
Proof.
  split; [split|].
  - intros [|[|]] actor [= <-]; done.
  - intros [|[|]] [|[|]] x y [= <-] [= <-]; done.
  - intros [|[|]] actor [= <-]; done.
Qed.
Lemma owned_world_reachable : reachable sample_skew "s3chaos-storage-0123456789abcdef0123" owned_world.
Proof.
  exists sample_world. split; [apply sample_world_initial|]. unfold owned_world.
  repeat first [done | etrans; [|first [apply actor_step_sound|apply actor_acquires_sound]]].
Qed.
Definition task_result (i : nat) (w : World) : option (LeaseAdapter * Result KubernetesLeaseProof) :=
  match w_actors w !! i with Some (mkActor a (Owning (Ret r))) => Some (a, r) | _ => None end.
Lemma task_result_Some i w a r :
  task_result i w = Some (a, r) → w_actors w !! i = Some (mkActor a (Owning (Ret r))).
Proof. unfold task_result. destruct (w_actors w !! i) as [[? [[]|]]|]; naive_solver. Qed.
Lemma owned_world_proof :
  w_actors owned_world !! 0 = Some (mkActor (sample_adapter "run-a") (Owning (Ret (ok sample_proof)))).
Proof. apply task_result_Some. vm_compute. reflexivity. Qed.

(** ** The theorems on this server *)
Lemma lease_exclusive_witness :
  0 = 0 ∧ ∃ l, stored (w_server owned_world) "s3chaos-storage-0123456789abcdef0123" = Some l ∧
    lease_proof (sample_adapter "run-a") l = ok sample_proof.
Proof.
  apply (lease_exclusive sample_skew _ owned_world 0 0 _ (sample_adapter "run-a") sample_proof sample_proof);
    [apply owned_world_reachable|apply owned_world_proof|apply owned_world_proof|vm_compute; reflexivity..].
Defined.

(** The second adapter reads the clock and the Lease. *)
Definition contended_lease : option Lease := stored (w_server owned_world) "s3chaos-storage-0123456789abcdef0123".
Lemma contended_lease_expiry : ∃ l, contended_lease = Some l ∧ lease_expiry l = Some 1030000%N.
Proof.
  destruct (unexpired_proof_stored _ _ _ _ _ _ owned_world_reachable owned_world_proof ltac:(vm_compute; reflexivity))
    as (l & Hl & (_ & Hx & _)%lease_proof_owned). by exists l.
Qed.
Lemma owned_world_steps : ∃ w, world_step sample_skew owned_world w.
Proof. exists (mkWorld (w_server owned_world) 1000001 (w_actors owned_world)). by constructor. Qed.
Lemma unexpired_lease_undisturbed_witness :
  ∃ w l, world_step sample_skew owned_world w ∧ contended_lease = Some l ∧
    (stored (w_server w) "s3chaos-storage-0123456789abcdef0123" = Some l ∨
     ∃ i a task task', w_actors owned_world !! i = Some (mkActor a task) ∧
       holder_of l = Some (ka_holder_identity a) ∧
       task_step sample_skew (w_clock owned_world) (w_server owned_world) task (w_server w) task').
Proof.
  destruct contended_lease_expiry as (l & Hl & Hx). destruct owned_world_steps as [w Hw].
  exists w, l. split_and!; [done|done|].
  apply (unexpired_lease_undisturbed sample_skew _ owned_world w l 1030000);
    [apply owned_world_reachable|exact Hw|exact Hl|exact Hx|vm_compute; reflexivity].
Defined.

Definition sample_instant : MicroTime := exist (λ z, Is_true (in_i64 z)) 1000000%Z I.
Lemma sample_instant_now : micro_time 1000000 = ok sample_instant.
Proof.
  unfold micro_time. rewrite (proj2 (N.leb_le 1000000 i64_max)) by (vm_compute; done). run_result.
  unfold timestamp_millis_opt, sample_time. destruct (decide _) as [Hz|Hz]; [|by destruct Hz].
  unfold context, sample_instant. do 2 f_equal. by destruct Hz.
Qed.
Lemma acquire_alone_witness :
  (∃ s' r, runs 1000000 (empty_server : server_state) (acquire (sample_adapter "run-a")) s' r) ∧
  ∀ s' r, runs 1000000 (empty_server : server_state) (acquire (sample_adapter "run-a")) s' r →
    acquire_outcome (sample_adapter "run-a") 1000000 empty_server s' r.
Proof.
  refine (acquire_alone "chaos" sample_scope "run-a" "attempt-1" 30000000000 _ 1000000 sample_instant
            empty_server sample_adapter_new sample_instant_now).
Defined.
