(* ===== verification/StorageOwnership.v ===== *)
(** * Ownership of a storage target

    The identities and receipts of a storage-recovery attempt and their
    validators: [StorageRecoveryCase] and [StorageVolumeIdentity] of
    [src/fault/storage_recovery.rs], the owned context, host operations and
    receipts of [src/fault/storage_recovery_runtime.rs], and the cleanup proofs of
    [src/fault/storage_recovery_lease.rs] with the Lease operations that require
    them. SHA-256, UUID parsing and serde's text are the operations of
    [StorageEnv]. *)
From S2P Require Import Prelude RustText RustWords StorageLease.
From stdpp Require Import options.

Definition STORAGE_RECOVERY_HOST_LOCK_DIRECTORY : string := "/var/lock/s3chaos".
Definition STORAGE_RECOVERY_CONTEXT_MAX_AGE_MS : N := 5000.

(** A [for] loop over labelled values that rejects the first blank one. *)
Definition require_nonblank (message : string → string) (fields : list (string * string)) : Result unit :=
  try_fold (λ _ '(field, value), ensure (negb (trim_is_empty value)) (message field)) tt fields.

(** ** Cases *)
Module HealMode.
Inductive t := AutomaticReplacement | AutomaticScanner | AdminDeep.
End HealMode.

Module StorageRecoveryCase.
Inductive t :=
| FreshVolumeReplacementAutomaticReplacement
| FreshVolumeReplacementAdminDeep
| FreshVolumeReplacementPartitionDuringHeal
| OnDiskBitrotAutomaticScanner
| OnDiskBitrotAdminDeep
| MetadataShardCorruptionAdminDeep
| StaleDiskReturn.
Global Instance t_eq_dec : EqDecision t.
Proof. solve_decision. Defined.
Definition ALL : list t :=
  [FreshVolumeReplacementAutomaticReplacement; FreshVolumeReplacementAdminDeep;
   FreshVolumeReplacementPartitionDuringHeal; OnDiskBitrotAutomaticScanner; OnDiskBitrotAdminDeep;
   MetadataShardCorruptionAdminDeep; StaleDiskReturn].
Definition scenario (c : t) : string :=
  match c with
  | FreshVolumeReplacementAutomaticReplacement | FreshVolumeReplacementAdminDeep => "fresh-volume-replacement"
  | FreshVolumeReplacementPartitionDuringHeal => "network-partition-during-heal"
  | OnDiskBitrotAutomaticScanner | OnDiskBitrotAdminDeep => "on-disk-bitrot"
  | MetadataShardCorruptionAdminDeep => "metadata-shard-corruption"
  | StaleDiskReturn => "stale-disk-return-detect"
  end.
Definition as_str (c : t) : string :=
  match c with
  | FreshVolumeReplacementAutomaticReplacement => "fresh-volume-replacement-automatic-replacement"
  | FreshVolumeReplacementAdminDeep => "fresh-volume-replacement-admin-deep"
  | FreshVolumeReplacementPartitionDuringHeal => "network-partition-during-heal-admin-deep"
  | OnDiskBitrotAutomaticScanner => "on-disk-bitrot-automatic-scanner"
  | OnDiskBitrotAdminDeep => "on-disk-bitrot-admin-deep"
  | MetadataShardCorruptionAdminDeep => "metadata-shard-corruption-admin-deep"
  | StaleDiskReturn => "stale-disk-return"
  end.
Definition parse (value : string) : Result t :=
  context (head (filter (λ c, as_str c = value) ALL)) ("unknown storage-recovery case " +:+ str_debug value).
Definition parse_explicit (value : string) : Result t := parse value.
Definition default_for_scenario (s : string) : option t :=
  if bool_decide (s = "network-partition-during-heal") then Some FreshVolumeReplacementPartitionDuringHeal
  else if bool_decide (s = "metadata-shard-corruption") then Some MetadataShardCorruptionAdminDeep
  else None.
Definition heal_mode (c : t) : option HealMode.t :=
  match c with
  | FreshVolumeReplacementAutomaticReplacement => Some HealMode.AutomaticReplacement
  | OnDiskBitrotAutomaticScanner => Some HealMode.AutomaticScanner
  | FreshVolumeReplacementAdminDeep | FreshVolumeReplacementPartitionDuringHeal
  | OnDiskBitrotAdminDeep | MetadataShardCorruptionAdminDeep => Some HealMode.AdminDeep
  | StaleDiskReturn => None
  end.
Definition is_fresh_volume_replacement (c : t) : bool :=
  match c with
  | FreshVolumeReplacementAutomaticReplacement | FreshVolumeReplacementAdminDeep
  | FreshVolumeReplacementPartitionDuringHeal => true
  | _ => false
  end.
Definition is_corruption_recovery (c : t) : bool :=
  match c with
  | OnDiskBitrotAutomaticScanner | OnDiskBitrotAdminDeep | MetadataShardCorruptionAdminDeep => true
  | _ => false
  end.
End StorageRecoveryCase.

Record StorageRecoveryArtifactIdentity := mkStorageRecoveryArtifactIdentity {
  ai_run_id : string;
  ai_scenario : string;
  ai_case_name : string;
  ai_bucket : string;
}.
Global Instance StorageRecoveryArtifactIdentity_eq_dec : EqDecision StorageRecoveryArtifactIdentity.
Proof. solve_decision. Defined.
Definition validate_artifact_identity (i : StorageRecoveryArtifactIdentity) : Result unit :=
  require_nonblank (λ field, "storage recovery artifact " +:+ field +:+ " is empty")
    [("run id", ai_run_id i); ("scenario", ai_scenario i); ("case name", ai_case_name i); ("bucket", ai_bucket i)].

(** ** The volume *)
Record StorageVolumeIdentity := mkStorageVolumeIdentity {
  sv_target_proof_sha256 : string;
  sv_host_storage_proof_sha256 : string;
  sv_rustfs_deployment_id : string;
  sv_namespace : string;
  sv_tenant : string;
  sv_pod : string;
  sv_pod_uid : string;
  sv_rustfs_container_id : string;
  sv_volume_name : string;
  sv_persistent_volume_claim : string;
  sv_persistent_volume_claim_uid : string;
  sv_persistent_volume : string;
  sv_persistent_volume_uid : string;
  sv_node : string;
  sv_node_uid : string;
  sv_storage_class : string;
  sv_local_volume_path : string;
  sv_mount_path : string;
  sv_canonical_device : string;
  sv_target_mount_namespace_id : string;
  sv_filesystem_uuid : string;
  sv_rustfs_drive_uuid : string;
  sv_pool_index : N;
  sv_set_index : N;
  sv_observed_at_ms : N;
}.
Global Instance StorageVolumeIdentity_eta : Eta StorageVolumeIdentity := λ v,
  mkStorageVolumeIdentity (sv_target_proof_sha256 v) (sv_host_storage_proof_sha256 v) (sv_rustfs_deployment_id v)
    (sv_namespace v) (sv_tenant v) (sv_pod v) (sv_pod_uid v) (sv_rustfs_container_id v) (sv_volume_name v)
    (sv_persistent_volume_claim v) (sv_persistent_volume_claim_uid v) (sv_persistent_volume v)
    (sv_persistent_volume_uid v) (sv_node v) (sv_node_uid v) (sv_storage_class v) (sv_local_volume_path v)
    (sv_mount_path v) (sv_canonical_device v) (sv_target_mount_namespace_id v) (sv_filesystem_uuid v)
    (sv_rustfs_drive_uuid v) (sv_pool_index v) (sv_set_index v) (sv_observed_at_ms v).
Global Instance StorageVolumeIdentity_eq_dec : EqDecision StorageVolumeIdentity.
Proof. solve_decision. Defined.

(** The lowercase digests of [storage_recovery.rs]. *)
Definition lowercase_hexdigit (c : ascii) : bool :=
  let n := N_of_ascii c in ascii_digit c || ((97 <=? n) && (n <=? 102))%N.
Definition validate_labelled_sha256 (label value : string) : Result unit :=
  ensure (bool_decide (String.length value = 64) && all_chars lowercase_hexdigit value)
    (label +:+ " SHA-256 must be 64 lowercase hexadecimal characters").
Definition normal_segment (segment : string) : bool :=
  negb (bool_decide (segment = "")) && negb (bool_decide (segment = ".")) && negb (bool_decide (segment = "..")).
Definition is_normalized_absolute_path (path : string) : bool :=
  starts_with "/" path && forallb normal_segment (drop 1 (split "/" path)).

Definition validate_volume (v : StorageVolumeIdentity) : Result unit :=
  _ ← validate_labelled_sha256 "target proof" (sv_target_proof_sha256 v);
  _ ← validate_labelled_sha256 "host-storage proof" (sv_host_storage_proof_sha256 v);
  _ ← require_nonblank (λ field, "storage identity " +:+ field +:+ " is empty")
        [("RustFS deployment id", sv_rustfs_deployment_id v); ("namespace", sv_namespace v);
         ("tenant", sv_tenant v); ("Pod", sv_pod v); ("Pod UID", sv_pod_uid v);
         ("RustFS container id", sv_rustfs_container_id v); ("volume name", sv_volume_name v);
         ("PVC", sv_persistent_volume_claim v); ("PVC UID", sv_persistent_volume_claim_uid v);
         ("PV", sv_persistent_volume v); ("PV UID", sv_persistent_volume_uid v); ("node", sv_node v);
         ("node UID", sv_node_uid v); ("storage class", sv_storage_class v);
         ("local volume path", sv_local_volume_path v); ("canonical device", sv_canonical_device v);
         ("target mount namespace id", sv_target_mount_namespace_id v);
         ("filesystem UUID", sv_filesystem_uuid v); ("RustFS drive UUID", sv_rustfs_drive_uuid v)];
  _ ← ensure (is_normalized_absolute_path (sv_mount_path v) && negb (any_white (sv_mount_path v))
              && negb (bool_decide (sv_mount_path v = "/")))
        "storage identity mount path must be an absolute normalized non-root path without whitespace";
  _ ← ensure (starts_with "/" (sv_canonical_device v) && negb (any_white (sv_canonical_device v)))
        "storage identity canonical device must be absolute and contain no whitespace";
  _ ← ensure (starts_with "/" (sv_local_volume_path v)) "storage identity local volume path must be absolute";
  ensure (0 <? sv_observed_at_ms v)%N "storage identity observation timestamp must be positive".

Definition same_logical_slot (v other : StorageVolumeIdentity) : bool :=
  bool_decide (sv_rustfs_deployment_id v = sv_rustfs_deployment_id other)
  && bool_decide (sv_namespace v = sv_namespace other) && bool_decide (sv_tenant v = sv_tenant other)
  && bool_decide (sv_volume_name v = sv_volume_name other)
  && bool_decide (sv_persistent_volume_claim v = sv_persistent_volume_claim other)
  && bool_decide (sv_node v = sv_node other) && bool_decide (sv_node_uid v = sv_node_uid other)
  && bool_decide (sv_storage_class v = sv_storage_class other)
  && bool_decide (sv_mount_path v = sv_mount_path other)
  && bool_decide (sv_pool_index v = sv_pool_index other) && bool_decide (sv_set_index v = sv_set_index other).
Definition same_storage_generation (v other : StorageVolumeIdentity) : bool :=
  bool_decide (sv_persistent_volume_uid v = sv_persistent_volume_uid other)
  && bool_decide (sv_canonical_device v = sv_canonical_device other)
  && bool_decide (sv_filesystem_uuid v = sv_filesystem_uuid other)
  && bool_decide (sv_rustfs_drive_uuid v = sv_rustfs_drive_uuid other).
Definition validate_replacement_generation (v replacement : StorageVolumeIdentity) : Result unit :=
  _ ← ensure (same_logical_slot v replacement)
        "replacement does not occupy the original RustFS logical volume slot";
  _ ← ensure (sv_observed_at_ms v <? sv_observed_at_ms replacement)%N
        "replacement identity must be observed after the original identity";
  _ ← ensure (negb (bool_decide (sv_persistent_volume_claim_uid v = sv_persistent_volume_claim_uid replacement)))
        "fresh replacement reused the original PVC generation";
  ensure (negb (bool_decide (sv_persistent_volume_uid v = sv_persistent_volume_uid replacement))
          && negb (bool_decide (sv_canonical_device v = sv_canonical_device replacement))
          && negb (bool_decide (sv_filesystem_uuid v = sv_filesystem_uuid replacement)))
    "fresh replacement must have new PV, device, and filesystem generations".
Definition same_storage_volume_generation (left right : StorageVolumeIdentity) : bool :=
  bool_decide (left <| sv_observed_at_ms := sv_observed_at_ms right |> = right).

(** ** Generations and exclusive access *)
Record KubernetesResourceVersions := mkKubernetesResourceVersions {
  rv_tenant : string;
  rv_pod : string;
  rv_persistent_volume_claim : string;
  rv_persistent_volume : string;
  rv_node : string;
  rv_helper_pod : string;
}.
Global Instance KubernetesResourceVersions_eq_dec : EqDecision KubernetesResourceVersions.
Proof. solve_decision. Defined.
Definition validate_resource_versions (r : KubernetesResourceVersions) : Result unit :=
  require_nonblank (λ field, "storage-recovery " +:+ field +:+ " resourceVersion is empty")
    [("Tenant", rv_tenant r); ("Pod", rv_pod r); ("PVC", rv_persistent_volume_claim r);
     ("PV", rv_persistent_volume r); ("node", rv_node r); ("helper Pod", rv_helper_pod r)].

Record HostGenerationIdentity := mkHostGenerationIdentity {
  hg_mount_id : string;
  hg_mount_namespace_id : string;
  hg_device_major_minor : string;
  hg_device_mapper_uuid : option string;
  hg_device_mapper_table_sha256 : option string;
  hg_filesystem_uuid : string;
  hg_rustfs_drive_uuid : string;
}.
Global Instance HostGenerationIdentity_eq_dec : EqDecision HostGenerationIdentity.
Proof. solve_decision. Defined.
Definition u32_max_N : N := 2 ^ 32 - 1.
Definition validate_generation (g : HostGenerationIdentity) (volume : StorageVolumeIdentity) : Result unit :=
  _ ← require_nonblank (λ field, "storage-recovery " +:+ field +:+ " is empty")
        [("mount id", hg_mount_id g); ("mount namespace id", hg_mount_namespace_id g);
         ("device major:minor", hg_device_major_minor g); ("filesystem UUID", hg_filesystem_uuid g);
         ("RustFS drive UUID", hg_rustfs_drive_uuid g)];
  _ ← match hg_device_mapper_uuid g, hg_device_mapper_table_sha256 g with
      | Some uuid, Some table =>
          _ ← ensure (negb (trim_is_empty uuid)) "storage-recovery device-mapper UUID is empty";
          validate_sha256 table
      | None, None => ok tt
      | _, _ => err "storage-recovery device-mapper identity is partial"
      end;
  _ ← ensure (bool_decide (hg_mount_namespace_id g = sv_target_mount_namespace_id volume)
              && bool_decide (hg_filesystem_uuid g = sv_filesystem_uuid volume)
              && bool_decide (hg_rustfs_drive_uuid g = sv_rustfs_drive_uuid volume))
        "host generation does not match the proven RustFS volume";
  match split_once ":" (hg_device_major_minor g) with
  | None => err "storage-recovery device major:minor is malformed"
  | Some (major, minor) =>
      ensure (bool_decide (is_Some (parse_uint u32_max_N major)) && bool_decide (is_Some (parse_uint u32_max_N minor)))
        "storage-recovery device major:minor is malformed"
  end.

Record HostFlockProof := mkHostFlockProof {
  hf_node : string;
  hf_node_uid : string;
  hf_path : string;
  hf_device_id : string;
  hf_inode : N;
  hf_scope_sha256 : string;
  hf_acquired_at_ms : N;
}.
Global Instance HostFlockProof_eq_dec : EqDecision HostFlockProof.
Proof. solve_decision. Defined.
Record StorageRecoveryExclusiveAccess := mkStorageRecoveryExclusiveAccess {
  ea_kubernetes_lease : KubernetesLeaseProof;
  ea_host_flock : HostFlockProof;
}.
Global Instance StorageRecoveryExclusiveAccess_eq_dec : EqDecision StorageRecoveryExclusiveAccess.
Proof. solve_decision. Defined.

Definition validate_exclusive_access (e : StorageRecoveryExclusiveAccess) (run_id attempt_id : string)
    (volume : StorageVolumeIdentity) (scope_sha256 : string) (observed_at_ms : N) : Result unit :=
  let lease := ea_kubernetes_lease e in
  let flock := ea_host_flock e in
  let expected_holder := run_id +:+ "/" +:+ attempt_id in
  expected_lease_name ← storage_lease_name scope_sha256;
  let expected_lock_path :=
    STORAGE_RECOVERY_HOST_LOCK_DIRECTORY +:+ "/storage-" +:+ scope_sha256 +:+ ".lock" in
  _ ← ensure (bool_decide (kp_name lease = expected_lease_name)
              && negb (trim_is_empty (kp_uid lease)) && negb (trim_is_empty (kp_resource_version lease))
              && bool_decide (kp_holder_identity lease = expected_holder)
              && bool_decide (kp_scope_sha256 lease = scope_sha256)
              && (0 <? kp_acquired_at_ms lease)%N
              && (kp_acquired_at_ms lease <=? kp_renew_at_ms lease)%N
              && (observed_at_ms <? kp_expires_at_ms lease)%N)
        "storage-recovery Kubernetes Lease is not current and run-owned";
  ensure (bool_decide (hf_node flock = sv_node volume) && bool_decide (hf_node_uid flock = sv_node_uid volume)
          && bool_decide (hf_path flock = expected_lock_path)
          && negb (trim_is_empty (hf_device_id flock)) && (0 <? hf_inode flock)%N
          && bool_decide (hf_scope_sha256 flock = scope_sha256)
          && (kp_acquired_at_ms lease <=? hf_acquired_at_ms flock)%N
          && (hf_acquired_at_ms flock <=? observed_at_ms)%N)
    "storage-recovery host flock is not bound to the target node and fixed lock path".

(** ** Host operations *)
Module StorageRecoveryHostOperation.
Inductive t :=
| InspectHostGeneration
| InspectXlMeta (object_directory bucket object_key object_sha256 version_id : string)
    (selected_part_number : N) (expected_mount_device_id expected_drive_uuid : string)
| MutateShard (inspection_operation_id : string) (part_number byte_offset : N)
| MutateMetadata (inspection_operation_id : string)
| PrepareFreshVolume (replacement_persistent_volume replacement_persistent_volume_claim : string)
| DetachDeviceMapper (mapping_name expected_generation_sha256 recovery_table isolation_table : string)
| ReattachDeviceMapper (mapping_name expected_generation_sha256 recovery_table isolation_table : string)
| RestoreShard (mutation_operation_id : string)
| VerifySupersededShard (mutation_operation_id post_inspection_operation_id : string).
Global Instance t_eq_dec : EqDecision t.
Proof. solve_decision. Defined.
Definition is_destructive (o : t) : bool :=
  match o with InspectHostGeneration | InspectXlMeta _ _ _ _ _ _ _ _ => false | _ => true end.
End StorageRecoveryHostOperation.

Record StaleDeviceMapperPlan := mkStaleDeviceMapperPlan {
  dp_mapping_name : string;
  dp_expected_generation_sha256 : string;
  dp_recovery_table : string;
  dp_recovery_table_sha256 : string;
  dp_isolation_table : string;
  dp_isolation_table_sha256 : string;
}.
Global Instance StaleDeviceMapperPlan_eq_dec : EqDecision StaleDeviceMapperPlan.
Proof. solve_decision. Defined.

Module StaleDeviceMapperAction.
Inductive t := Isolate | Reattach.
Global Instance t_eq_dec : EqDecision t.
Proof. solve_decision. Defined.
End StaleDeviceMapperAction.
Record DeviceMapperCommandReceipt := mkDeviceMapperCommandReceipt {
  dc_argv : list string;
  dc_exit_code : Z;
  dc_stdout : string;
  dc_stderr : string;
  dc_started_at_ms : N;
  dc_completed_at_ms : N;
}.
Record StaleDeviceMapperTransitionResponse := mkStaleDeviceMapperTransitionResponse {
  tr_action : StaleDeviceMapperAction.t;
  tr_mapping_name : string;
  tr_generation_sha256 : string;
  tr_before_table : string;
  tr_before_table_sha256 : string;
  tr_after_table : string;
  tr_after_table_sha256 : string;
  tr_commands : list DeviceMapperCommandReceipt;
}.

(** ** The owned context *)
Record OwnedStorageContext := mkOwnedStorageContext {
  oc_identity : StorageRecoveryArtifactIdentity;
  oc_case : StorageRecoveryCase.t;
  oc_attempt_id : string;
  oc_cluster_context : string;
  oc_tenant_uid : string;
  oc_scope_sha256 : string;
  oc_volume : StorageVolumeIdentity;
  oc_resource_versions : KubernetesResourceVersions;
  oc_host_generation : HostGenerationIdentity;
  oc_exclusive_access : StorageRecoveryExclusiveAccess;
  oc_helper_pod_name : string;
  oc_helper_pod_uid : string;
  oc_observed_at_ms : N;
}.
Global Instance OwnedStorageContext_eta : Eta OwnedStorageContext := λ c,
  mkOwnedStorageContext (oc_identity c) (oc_case c) (oc_attempt_id c) (oc_cluster_context c) (oc_tenant_uid c)
    (oc_scope_sha256 c) (oc_volume c) (oc_resource_versions c) (oc_host_generation c) (oc_exclusive_access c)
    (oc_helper_pod_name c) (oc_helper_pod_uid c) (oc_observed_at_ms c).
Definition oc_lease (c : OwnedStorageContext) : KubernetesLeaseProof := ea_kubernetes_lease (oc_exclusive_access c).
Record CurrentStorageObservation := mkCurrentStorageObservation {
  co_cluster_context : string;
  co_tenant_uid : string;
  co_scope_sha256 : string;
  co_volume : StorageVolumeIdentity;
  co_resource_versions : KubernetesResourceVersions;
  co_host_generation : HostGenerationIdentity;
  co_helper_pod_name : string;
  co_helper_pod_uid : string;
  co_kubernetes_lease_uid : string;
  co_kubernetes_lease_resource_version : string;
  co_kubernetes_lease_holder : string;
  co_host_lock_device_id : string;
  co_host_lock_inode : N;
  co_observed_at_ms : N;
}.
Record StorageRecoveryOperationReceipt := mkStorageRecoveryOperationReceipt {
  or_operation_id : string;
  or_operation : StorageRecoveryHostOperation.t;
  or_context_sha256 : string;
  or_response_sha256 : string;
  or_response_body : string;
  or_started_at_ms : N;
  or_completed_at_ms : N;
  or_journal_persisted_at_ms : N;
  or_journal_fsync_succeeded : bool;
}.
Record MutationOwnershipDigest := mkMutationOwnershipDigest {
  mo_schema_version : N;
  mo_attempt_id : string;
  mo_scope_sha256 : string;
  mo_volume : StorageVolumeIdentity;
  mo_host_generation : HostGenerationIdentity;
  mo_lease_namespace : string;
  mo_lease_name : string;
  mo_lease_uid : string;
  mo_lease_holder_identity : string;
  mo_lease_acquired_at_ms : N;
}.

Class StorageEnv := {
  (** [hex::encode(Sha256::digest(bytes))] *)
  sha256_bytes : list N → string;
  (** [Uuid::parse_str]: the display of its error *)
  uuid_error : string → option string;
  (** [serde_json::to_vec] *)
  ownership_to_vec : MutationOwnershipDigest → option (list N);
  generation_to_vec : HostGenerationIdentity → option (list N);
  (** [serde_json::from_str] *)
  transition_from_str : string → option StaleDeviceMapperTransitionResponse;
  (** [serde_json::from_str::<Value>] and then [.get(...).and_then(as_str)] of outcome *)
  value_outcome : string → option (option string);
}.

Section Ownership.
Context `{Henv : StorageEnv}.

Definition uuid_context (value msg : string) : Result unit :=
  match uuid_error value with None => ok tt | Some _ => err msg end.
Definition uuid_ok (value : string) : bool := match uuid_error value with None => true | Some _ => false end.
Definition digest_str (s : string) : string := sha256_bytes (as_bytes s).

(** ** Operations *)
Definition validate_relative_path (label path : string) : Result unit :=
  ensure (negb (bool_decide (path = "")) && negb (starts_with "/" path) && negb (ends_with "/" path)
          && negb (any_white path) && forallb normal_segment (split "/" path))
    ("storage-recovery " +:+ label +:+ " must be a normalized relative path").
Definition validate_explicit_version (version_id : string) : Result unit :=
  if trim_is_empty version_id || bool_decide (version_id = "null") then
    err "storage-recovery requires an explicit non-null version id"
  else match uuid_error version_id with
       | None => ok tt
       | Some error => err ("invalid storage-recovery version id: " +:+ error)
       end.
Definition mapping_char (c : ascii) : bool :=
  alphanumeric c || bool_decide (c = "-"%char) || bool_decide (c = "_"%char) || bool_decide (c = "."%char).

(** The words of a one-extent linear table, and those of the table that keeps
    the extent and fails all requests. *)
Definition linear_table (words : list string) : bool :=
  match words with
  | [start; sectors; kind; device; offset] =>
      bool_decide (is_Some (parse_uint u64_max start))
      && match parse_uint u64_max sectors with Some n => (0 <? n)%N | None => false end
      && bool_decide (kind = "linear") && starts_with "/dev/" device
      && bool_decide (is_Some (parse_uint u64_max offset))
  | _ => false
  end.
Definition isolating_table (recovery isolation : list string) : bool :=
  match recovery, isolation with
  | [r0; r1; _; r3; r4], [i0; i1; i2; i3; i4; i5; i6; i7; i8; i9] =>
      bool_decide (i0 = r0) && bool_decide (i1 = r1) && bool_decide (i2 = "flakey")
      && bool_decide (i3 = r3) && bool_decide (i4 = r4) && bool_decide (i5 = "0")
      && bool_decide (i6 = "86400") && bool_decide (i7 = "2") && bool_decide (i8 = "error_reads")
      && bool_decide (i9 = "error_writes")
  | _, _ => false
  end.
Definition newline : string := String "010" EmptyString.
Definition plan_new (mapping_name expected_generation_sha256 recovery_table isolation_table : string)
    : Result StaleDeviceMapperPlan :=
  _ ← ensure (negb (bool_decide (mapping_name = "")) && all_chars mapping_char mapping_name)
        "stale device-mapper plan has an unsafe mapping name";
  _ ← validate_sha256 expected_generation_sha256;
  _ ← ensure (negb (contains newline recovery_table) && negb (contains newline isolation_table))
        "stale device-mapper plan must contain one table line";
  let recovery := split_whitespace recovery_table in
  let isolation := split_whitespace isolation_table in
  _ ← ensure (linear_table recovery)
        "stale device-mapper recovery table is not one non-empty linear extent";
  _ ← ensure (isolating_table recovery isolation)
        "stale device-mapper isolation table must preserve the linear extent and force continuous read/write EIO";
  ok (mkStaleDeviceMapperPlan mapping_name expected_generation_sha256
        (join " " recovery) (digest_str (join " " recovery))
        (join " " isolation) (digest_str (join " " isolation))).
Definition plan_validate (p : StaleDeviceMapperPlan) : Result unit :=
  rebuilt ← plan_new (dp_mapping_name p) (dp_expected_generation_sha256 p) (dp_recovery_table p)
              (dp_isolation_table p);
  ensure (bool_decide (p = rebuilt)) "stale device-mapper plan digests are not canonical".

Definition validate_operation (o : StorageRecoveryHostOperation.t) : Result unit :=
  match o with
  | StorageRecoveryHostOperation.InspectHostGeneration => ok tt
  | StorageRecoveryHostOperation.InspectXlMeta object_directory bucket object_key object_sha256 version_id
      selected_part_number expected_mount_device_id expected_drive_uuid =>
      _ ← validate_relative_path "object directory" object_directory;
      _ ← validate_explicit_version version_id;
      _ ← validate_sha256 object_sha256;
      ensure (negb (trim_is_empty bucket) && negb (trim_is_empty object_key) && (0 <? selected_part_number)%N
              && negb (trim_is_empty expected_mount_device_id) && negb (trim_is_empty expected_drive_uuid))
        "offline XL2 inspection must bind the opened root and format.json drive identity"
  | StorageRecoveryHostOperation.MutateShard inspection_operation_id part_number _ =>
      _ ← uuid_context inspection_operation_id "storage-recovery inspection operation id is not a UUID";
      ensure (0 <? part_number)%N "storage-recovery selected part number is zero"
  | StorageRecoveryHostOperation.MutateMetadata inspection_operation_id =>
      uuid_context inspection_operation_id "metadata inspection operation id is not a UUID"
  | StorageRecoveryHostOperation.PrepareFreshVolume replacement_persistent_volume
      replacement_persistent_volume_claim =>
      ensure (negb (trim_is_empty replacement_persistent_volume)
              && negb (trim_is_empty replacement_persistent_volume_claim))
        "fresh-volume replacement PVC/PV identity is empty"
  | StorageRecoveryHostOperation.DetachDeviceMapper mapping_name expected_generation_sha256 recovery_table
      isolation_table
  | StorageRecoveryHostOperation.ReattachDeviceMapper mapping_name expected_generation_sha256 recovery_table
      isolation_table =>
      _ ← ensure (negb (trim_is_empty mapping_name) && all_chars mapping_char mapping_name)
            "device-mapper operation has an unsafe mapping name";
      _ ← validate_sha256 expected_generation_sha256;
      _ ← plan_new mapping_name expected_generation_sha256 recovery_table isolation_table;
      ok tt
  | StorageRecoveryHostOperation.RestoreShard mutation_operation_id =>
      uuid_context mutation_operation_id "storage-recovery restore operation id is not a UUID"
  | StorageRecoveryHostOperation.VerifySupersededShard mutation_operation_id post_inspection_operation_id =>
      _ ← uuid_context mutation_operation_id "storage-recovery mutation operation id is not a UUID";
      _ ← uuid_context post_inspection_operation_id
            "storage-recovery post-inspection operation id is not a UUID";
      ensure (negb (bool_decide (mutation_operation_id = post_inspection_operation_id)))
        "superseded-shard verification requires distinct receipts"
  end.

(** ** Digests *)
Definition storage_scope_sha256 (c : OwnedStorageContext) : string :=
  sha256_bytes (concat ((λ value, as_bytes value ++ [0%N]) <$>
    [oc_cluster_context c; sv_namespace (oc_volume c); oc_tenant_uid c; sv_persistent_volume_uid (oc_volume c);
     sv_node_uid (oc_volume c); sv_canonical_device (oc_volume c); sv_filesystem_uuid (oc_volume c)])).
Definition ownership_for_volume (c : OwnedStorageContext) (volume : StorageVolumeIdentity)
    : MutationOwnershipDigest :=
  let lease := oc_lease c in
  mkMutationOwnershipDigest 1 (oc_attempt_id c) (oc_scope_sha256 c) volume (oc_host_generation c)
    (sv_namespace (oc_volume c)) (kp_name lease) (kp_uid lease) (kp_holder_identity lease) (kp_acquired_at_ms lease).
Definition context_sha256_for_volume (c : OwnedStorageContext) (volume : StorageVolumeIdentity) : Result string :=
  bytes ← context (ownership_to_vec (ownership_for_volume c volume))
            "encode storage-recovery mutation ownership for digest";
  ok (sha256_bytes bytes).
Definition context_sha256 (c : OwnedStorageContext) : Result string :=
  context_sha256_for_volume c (oc_volume c <| sv_observed_at_ms := 0%N |>).
Definition legacy_context_sha256 (c : OwnedStorageContext) : Result string :=
  context_sha256_for_volume c (oc_volume c).
Definition host_generation_sha256 (g : HostGenerationIdentity) : Result string :=
  bytes ← context (generation_to_vec g) "encode storage generation for digest";
  ok (sha256_bytes bytes).

(** ** Contexts and observations *)
Definition validate_context (c : OwnedStorageContext) : Result unit :=
  _ ← ensure (bool_decide (ai_scenario (oc_identity c) = StorageRecoveryCase.scenario (oc_case c)))
        "storage-recovery case is bound to the wrong scenario";
  _ ← ensure (negb (trim_is_empty (ai_run_id (oc_identity c))) && negb (trim_is_empty (ai_case_name (oc_identity c)))
              && negb (trim_is_empty (ai_bucket (oc_identity c))) && negb (trim_is_empty (oc_attempt_id c))
              && negb (trim_is_empty (oc_cluster_context c)) && negb (trim_is_empty (oc_tenant_uid c))
              && negb (trim_is_empty (oc_helper_pod_name c)) && negb (trim_is_empty (oc_helper_pod_uid c))
              && (0 <? oc_observed_at_ms c)%N)
        "storage-recovery context has an empty identity or timestamp";
  _ ← validate_volume (oc_volume c);
  _ ← ensure ((sv_observed_at_ms (oc_volume c) <=? oc_observed_at_ms c)%N
              && (oc_observed_at_ms c - sv_observed_at_ms (oc_volume c) <=? STORAGE_RECOVERY_CONTEXT_MAX_AGE_MS)%N)
        "storage-recovery context does not contain a fresh volume identity";
  _ ← validate_resource_versions (oc_resource_versions c);
  _ ← validate_generation (oc_host_generation c) (oc_volume c);
  _ ← validate_sha256 (oc_scope_sha256 c);
  _ ← ensure (bool_decide (oc_scope_sha256 c = storage_scope_sha256 c))
        "storage-recovery scope digest does not match cluster/Tenant/volume identity";
  validate_exclusive_access (oc_exclusive_access c) (ai_run_id (oc_identity c)) (oc_attempt_id c) (oc_volume c)
    (oc_scope_sha256 c) (oc_observed_at_ms c).

Definition validate_observation (o : CurrentStorageObservation) : Result unit :=
  _ ← validate_volume (co_volume o);
  _ ← validate_resource_versions (co_resource_versions o);
  _ ← validate_generation (co_host_generation o) (co_volume o);
  _ ← validate_sha256 (co_scope_sha256 o);
  _ ← require_nonblank (λ field, "current " +:+ field +:+ " is empty")
        [("cluster context", co_cluster_context o); ("Tenant UID", co_tenant_uid o);
         ("helper Pod name", co_helper_pod_name o); ("helper Pod UID", co_helper_pod_uid o);
         ("Kubernetes Lease UID", co_kubernetes_lease_uid o);
         ("Kubernetes Lease resourceVersion", co_kubernetes_lease_resource_version o);
         ("Kubernetes Lease holder", co_kubernetes_lease_holder o);
         ("host lock device", co_host_lock_device_id o)];
  ensure ((0 <? co_host_lock_inode o)%N && (sv_observed_at_ms (co_volume o) <=? co_observed_at_ms o)%N)
    "current storage observation has an invalid lock inode or timestamp".

Definition require_current (c : OwnedStorageContext) (current : CurrentStorageObservation) : Result unit :=
  _ ← validate_context c;
  _ ← validate_observation current;
  _ ← ensure ((oc_observed_at_ms c <=? co_observed_at_ms current)%N
              && (co_observed_at_ms current - oc_observed_at_ms c <=? STORAGE_RECOVERY_CONTEXT_MAX_AGE_MS)%N)
        "storage-recovery pre-mutation observation is stale";
  _ ← ensure (bool_decide (co_volume current = oc_volume c)
              && bool_decide (co_resource_versions current = oc_resource_versions c)
              && bool_decide (co_cluster_context current = oc_cluster_context c)
              && bool_decide (co_tenant_uid current = oc_tenant_uid c)
              && bool_decide (co_scope_sha256 current = oc_scope_sha256 c)
              && bool_decide (co_host_generation current = oc_host_generation c)
              && bool_decide (co_helper_pod_name current = oc_helper_pod_name c)
              && bool_decide (co_helper_pod_uid current = oc_helper_pod_uid c)
              && bool_decide (co_kubernetes_lease_uid current = kp_uid (oc_lease c))
              && bool_decide (co_kubernetes_lease_resource_version current = kp_resource_version (oc_lease c))
              && bool_decide (co_kubernetes_lease_holder current = kp_holder_identity (oc_lease c))
              && bool_decide (co_host_lock_device_id current = hf_device_id (ea_host_flock (oc_exclusive_access c)))
              && bool_decide (co_host_lock_inode current = hf_inode (ea_host_flock (oc_exclusive_access c))))
        "storage-recovery identity or exclusive access drifted before mutation";
  ensure (co_observed_at_ms current <? kp_expires_at_ms (oc_lease c))%N
    "storage-recovery Kubernetes Lease expired before mutation".
End Ownership.
