(* ===== verification/StorageReceipts.v ===== *)
(** * Receipts and cleanup of a storage-recovery attempt

    What the controller accepts from the privileged helper
    ([StorageRecoveryOperationReceipt], [StaleDeviceMapperTransitionResponse] and
    [execute_checked_host_operation] of [src/fault/storage_recovery_runtime.rs]),
    the proofs that a storage target was cleaned up, and the Lease operations that
    demand such a proof ([src/fault/storage_recovery_lease.rs]). *)
From S2P Require Import Prelude RustText RustWords StorageLease StorageOwnership.
From stdpp Require Import options.

(** ** Cleanup proofs *)
Module StorageRecoveryCleanupProof.
Inductive t :=
| AbortedBeforeMutation (observed_at_ms : N)
| BitrotRestored (restore_receipt : StorageRecoveryOperationReceipt)
| BitrotAlreadyRepaired (restore_receipt : StorageRecoveryOperationReceipt)
| BitrotVerifiedSuperseded (verification_receipt : StorageRecoveryOperationReceipt)
| BitrotQuarantined (restore_receipt : StorageRecoveryOperationReceipt)
| StaleDiskReattached (reattach_receipt : StorageRecoveryOperationReceipt) (reattach_context : OwnedStorageContext)
    (post_reattach_generation : HostGenerationIdentity) (observed_at_ms : N)
| FreshVolumeCommitted (prepare_receipt : StorageRecoveryOperationReceipt)
    (replacement_volume : StorageVolumeIdentity) (old_device_absence_sha256 : string) (observed_at_ms : N).
End StorageRecoveryCleanupProof.
Import StorageRecoveryCleanupProof.

Section Receipts.
Context `{Henv : StorageEnv}.
Local Abbreviation operation := StorageRecoveryHostOperation.t.

(** ** Device-mapper transitions *)
Definition transition_of (o : operation)
    : option (StaleDeviceMapperAction.t * string * string * string * string) :=
  match o with
  | StorageRecoveryHostOperation.DetachDeviceMapper mapping_name generation recovery isolation =>
      Some (StaleDeviceMapperAction.Isolate, mapping_name, generation, recovery, isolation)
  | StorageRecoveryHostOperation.ReattachDeviceMapper mapping_name generation recovery isolation =>
      Some (StaleDeviceMapperAction.Reattach, mapping_name, generation, recovery, isolation)
  | _ => None
  end.
Definition expected_argv (mapping_name target : string) : list (list string) :=
  [["dmsetup"; "table"; "--showkeys"; mapping_name];
   ["dmsetup"; "suspend"; "--noflush"; mapping_name];
   ["dmsetup"; "reload"; mapping_name; "--table"; target];
   ["dmsetup"; "resume"; mapping_name];
   ["dmsetup"; "table"; "--showkeys"; mapping_name]].
Definition check_command (previous_completed_at_ms : N) (entry : DeviceMapperCommandReceipt * list string) : Result N :=
  let '(receipt, expected) := entry in
  _ ← ensure (bool_decide (dc_argv receipt = expected) && (dc_exit_code receipt =? 0)%Z
              && trim_is_empty (dc_stderr receipt) && (0 <? dc_started_at_ms receipt)%N
              && (dc_started_at_ms receipt <=? dc_completed_at_ms receipt)%N
              && (previous_completed_at_ms <=? dc_started_at_ms receipt)%N)
        "stale device-mapper transition command transcript is invalid";
  ok (dc_completed_at_ms receipt).
Definition validate_transition (r : StaleDeviceMapperTransitionResponse) (c : OwnedStorageContext) (o : operation)
    : Result unit :=
  '(expected_action, mapping_name, generation_sha256, recovery_table, isolation_table) ←
    context (transition_of o) "device-mapper response is bound to a non-DM operation";
  plan ← plan_new mapping_name generation_sha256 recovery_table isolation_table;
  expected_generation ← host_generation_sha256 (oc_host_generation c);
  _ ← ensure (bool_decide (expected_generation = generation_sha256)
              && bool_decide (hg_device_mapper_table_sha256 (oc_host_generation c) = Some (dp_recovery_table_sha256 plan))
              && bool_decide (tr_action r = expected_action)
              && bool_decide (tr_mapping_name r = mapping_name)
              && bool_decide (tr_generation_sha256 r = generation_sha256))
        "stale device-mapper response is not bound to the owned storage generation";
  let '(before, after) :=
    match expected_action with
    | StaleDeviceMapperAction.Isolate => (dp_recovery_table plan, dp_isolation_table plan)
    | StaleDeviceMapperAction.Reattach => (dp_isolation_table plan, dp_recovery_table plan)
    end in
  _ ← ensure (bool_decide (tr_before_table r = before) && bool_decide (tr_after_table r = after)
              && bool_decide (tr_before_table_sha256 r = digest_str before)
              && bool_decide (tr_after_table_sha256 r = digest_str after))
        "stale device-mapper response does not prove the exact before/after tables";
  let argv := expected_argv mapping_name after in
  _ ← ensure (bool_decide (length (tr_commands r) = length argv))
        "stale device-mapper transition has an incomplete command transcript";
  _ ← try_fold check_command 0%N (zip (tr_commands r) argv);
  first ← expect (tr_commands r !! 0);
  last ← expect (tr_commands r !! 4);
  ensure (bool_decide (trim (dc_stdout first) = before) && bool_decide (trim (dc_stdout last) = after))
    "stale device-mapper table observations do not match the transition".

(** ** Receipts *)
Definition validate_for_time_floor (r : StorageRecoveryOperationReceipt) (c : OwnedStorageContext) (o : operation)
    (earliest_started_at_ms : N) : Result unit :=
  _ ← ensure (uuid_ok (or_operation_id r) && bool_decide (or_operation r = o))
        "storage-recovery receipt has the wrong operation identity";
  expected_context_sha256 ← context_sha256 c;
  legacy ← legacy_context_sha256 c;
  _ ← validate_sha256 (or_context_sha256 r);
  _ ← validate_sha256 (or_response_sha256 r);
  _ ← ensure ((bool_decide (or_context_sha256 r = expected_context_sha256)
               || bool_decide (or_context_sha256 r = legacy))
              && bool_decide (or_response_sha256 r = digest_str (or_response_body r)))
        "storage-recovery receipt digest does not match its context or raw response";
  _ ← ensure ((earliest_started_at_ms <=? or_started_at_ms r)%N
              && (or_started_at_ms r <=? or_journal_persisted_at_ms r)%N
              && (or_journal_persisted_at_ms r <=? or_completed_at_ms r)%N
              && or_journal_fsync_succeeded r)
        "storage-recovery receipt is not durably persisted and ordered";
  if bool_decide (is_Some (transition_of o)) then
    response ← context (transition_from_str (or_response_body r))
                 "decode stale device-mapper transition response";
    validate_transition response c o
  else ok tt.
Definition validate_receipt (r : StorageRecoveryOperationReceipt) (c : OwnedStorageContext) (o : operation) : Result unit :=
  validate_for_time_floor r c o (kp_acquired_at_ms (oc_lease c)).

(** ** Checked host operations

    [StorageRecoveryRuntimePort] as requests: a program asks for an observation or
    for the execution of an operation and continues with the answer. *)
Inductive PortProg (A : Type) :=
| PortDone (r : Result A)
| ObserveCurrent (c : OwnedStorageContext) (k : Result CurrentStorageObservation → PortProg A)
| ExecuteHostOperation (c : OwnedStorageContext) (o : operation)
    (k : Result StorageRecoveryOperationReceipt → PortProg A).
Arguments PortDone {A} r.
Arguments ObserveCurrent {A} c k.
Arguments ExecuteHostOperation {A} c o k.
Definition port_try {A B} (r : Result A) (k : A → PortProg B) : PortProg B :=
  match r with ok a => k a | err e => PortDone (err e) | panicked => PortDone panicked end.
Definition execute_checked_host_operation (c : OwnedStorageContext) (o : operation)
    : PortProg StorageRecoveryOperationReceipt :=
  port_try (validate_operation o) (λ _,
  ObserveCurrent c (λ observed,
  port_try observed (λ current,
  port_try (require_current c current) (λ _,
  ExecuteHostOperation c o (λ executed,
  port_try executed (λ receipt,
  port_try (validate_receipt receipt c o) (λ _, PortDone (ok receipt)))))))).

(** ** Validating cleanup proofs *)

Definition validate_receipt_operation (c : OwnedStorageContext) (r : StorageRecoveryOperationReceipt)
    (expected : operation → bool) (label : string) : Result unit :=
  _ ← validate_receipt r c (or_operation r);
  ensure (expected (or_operation r)) ("cleanup proof is not a " +:+ label +:+ " receipt").
Definition is_restore (o : operation) : bool :=
  match o with StorageRecoveryHostOperation.RestoreShard _ => true | _ => false end.
Definition is_verify_superseded (o : operation) : bool :=
  match o with StorageRecoveryHostOperation.VerifySupersededShard _ _ => true | _ => false end.
Definition is_reattach (o : operation) : bool :=
  match o with StorageRecoveryHostOperation.ReattachDeviceMapper _ _ _ _ => true | _ => false end.
Definition is_prepare (o : operation) : bool :=
  match o with StorageRecoveryHostOperation.PrepareFreshVolume _ _ => true | _ => false end.

Definition validate_shard_cleanup (c : OwnedStorageContext) (restore_receipt : StorageRecoveryOperationReceipt)
    (expected : string) : Result unit :=
  _ ← ensure (StorageRecoveryCase.is_corruption_recovery (oc_case c))
        "bitrot cleanup proof is bound to another recovery case";
  _ ← validate_receipt_operation c restore_receipt is_restore "shard restoration";
  outcome ← context (value_outcome (or_response_body restore_receipt)) "decode shard cleanup response";
  ensure (bool_decide (outcome = Some expected))
    "shard cleanup response does not prove the declared terminal state".

(** The reattached context is the owned one up to a renewal of its Lease. *)
Definition same_reattached_generation (reattached c : OwnedStorageContext) : bool :=
  bool_decide (oc_identity reattached = oc_identity c) && bool_decide (oc_case reattached = oc_case c)
  && bool_decide (oc_attempt_id reattached = oc_attempt_id c)
  && bool_decide (oc_cluster_context reattached = oc_cluster_context c)
  && bool_decide (oc_tenant_uid reattached = oc_tenant_uid c)
  && bool_decide (oc_scope_sha256 reattached = oc_scope_sha256 c)
  && same_storage_volume_generation (oc_volume reattached) (oc_volume c)
  && bool_decide (oc_resource_versions reattached = oc_resource_versions c)
  && bool_decide (oc_host_generation reattached = oc_host_generation c)
  && bool_decide (ea_host_flock (oc_exclusive_access reattached) = ea_host_flock (oc_exclusive_access c))
  && bool_decide (kp_uid (oc_lease reattached) = kp_uid (oc_lease c))
  && bool_decide (kp_acquired_at_ms (oc_lease reattached) = kp_acquired_at_ms (oc_lease c))
  && bool_decide (kp_holder_identity (oc_lease reattached) = kp_holder_identity (oc_lease c))
  && (kp_renew_at_ms (oc_lease reattached) <=? kp_renew_at_ms (oc_lease c))%N.

Definition cleanup_validate_for (p : StorageRecoveryCleanupProof.t) (c : OwnedStorageContext) : Result unit :=
  match p with
  | AbortedBeforeMutation observed_at_ms =>
      ensure (bool_decide (oc_case c ∈ StorageRecoveryCase.ALL)
              && (kp_acquired_at_ms (oc_lease c) <=? observed_at_ms)%N)
        "pre-mutation abort proof is not a supported storage Lease-generation proof"
  | BitrotRestored restore_receipt => validate_shard_cleanup c restore_receipt "restored"
  | BitrotAlreadyRepaired restore_receipt => validate_shard_cleanup c restore_receipt "already-repaired"
  | BitrotQuarantined restore_receipt =>
      _ ← validate_shard_cleanup c restore_receipt "quarantined";
      err "quarantined shard is durable evidence, not successful cleanup; explicit repair acknowledgement is required"
  | BitrotVerifiedSuperseded verification_receipt =>
      _ ← ensure (StorageRecoveryCase.is_corruption_recovery (oc_case c))
            "bitrot superseded cleanup proof is bound to another recovery case";
      _ ← validate_receipt_operation c verification_receipt is_verify_superseded "superseded-shard verification";
      outcome ← context (value_outcome (or_response_body verification_receipt))
                  "decode superseded-shard cleanup response";
      ensure (bool_decide (outcome = Some "verified-superseded"))
        "superseded-shard cleanup response has the wrong terminal state"
  | StaleDiskReattached reattach_receipt reattach_context post_reattach_generation observed_at_ms =>
      _ ← ensure (bool_decide (oc_case c = StorageRecoveryCase.StaleDiskReturn))
            "stale-disk cleanup proof is bound to another recovery case";
      _ ← validate_receipt_operation reattach_context reattach_receipt is_reattach "device-mapper reattach";
      ensure (same_reattached_generation reattach_context c
              && bool_decide (post_reattach_generation = oc_host_generation c)
              && (or_completed_at_ms reattach_receipt <=? observed_at_ms)%N)
        "stale-disk cleanup does not prove the expected reattached generation"
  | FreshVolumeCommitted prepare_receipt replacement_volume old_device_absence_sha256 observed_at_ms =>
      _ ← ensure (StorageRecoveryCase.is_fresh_volume_replacement (oc_case c))
            "fresh-volume cleanup proof is bound to another recovery case";
      _ ← validate_receipt_operation c prepare_receipt is_prepare "fresh-volume preparation";
      _ ← validate_volume replacement_volume;
      _ ← validate_replacement_generation (oc_volume c) replacement_volume;
      match or_operation prepare_receipt with
      | StorageRecoveryHostOperation.PrepareFreshVolume persistent_volume persistent_volume_claim =>
          _ ← ensure (is_sha256_hex old_device_absence_sha256) "cleanup proof digest is not SHA-256 hex";
          ensure (bool_decide (sv_persistent_volume replacement_volume = persistent_volume)
                  && bool_decide (sv_persistent_volume_claim replacement_volume = persistent_volume_claim)
                  && (or_completed_at_ms prepare_receipt <=? observed_at_ms)%N)
            "fresh-volume cleanup does not prove replacement ownership and old-device absence"
      | _ => panicked
      end
  end.
Definition cleanup_completed_at_ms (p : StorageRecoveryCleanupProof.t) : N :=
  match p with
  | AbortedBeforeMutation observed_at_ms => observed_at_ms
  | BitrotRestored receipt | BitrotAlreadyRepaired receipt | BitrotQuarantined receipt
  | BitrotVerifiedSuperseded receipt => or_completed_at_ms receipt
  | StaleDiskReattached _ _ _ observed_at_ms | FreshVolumeCommitted _ _ _ observed_at_ms => observed_at_ms
  end.

(** ** Lease operations of an owned context *)
Context `{Htime : LeaseTime}.

Definition release (a : LeaseAdapter) (c : OwnedStorageContext) (proof : KubernetesLeaseProof)
    (cleanup : StorageRecoveryCleanupProof.t) : LeaseProg unit :=
  try (validate_context c) (λ _,
  try (cleanup_validate_for cleanup c) (λ _,
  try (validate_proof_identity a proof) (λ _,
  try (ensure (bool_decide (oc_scope_sha256 c = ka_scope_sha256 a) && bool_decide (oc_lease c = proof)
               && (kp_acquired_at_ms proof <=? cleanup_completed_at_ms cleanup)%N)
         "storage-recovery cleanup proof is not bound to this Lease generation") (λ _,
  release_requests a proof)))).
Definition require_current_lease (c : OwnedStorageContext) : LeaseProg unit :=
  try (validate_context c) (λ _, require_current_requests (oc_lease c) (oc_scope_sha256 c)).
Definition validate_owned_cleanup (c : OwnedStorageContext) (cleanup : StorageRecoveryCleanupProof.t) : Result unit :=
  _ ← validate_context c;
  _ ← cleanup_validate_for cleanup c;
  ensure (kp_acquired_at_ms (oc_lease c) <=? cleanup_completed_at_ms cleanup)%N
    "storage-recovery cleanup predates the Lease generation".
Definition release_owned_lease (c : OwnedStorageContext) (cleanup : StorageRecoveryCleanupProof.t) : LeaseProg unit :=
  try (validate_owned_cleanup c cleanup) (λ _, release_owned_requests (oc_lease c) (oc_scope_sha256 c)).
Definition reconcile_owned_lease_release (c : OwnedStorageContext) (cleanup : StorageRecoveryCleanupProof.t)
    : LeaseProg unit :=
  try (validate_owned_cleanup c cleanup) (λ _, reconcile_release_requests (oc_lease c) (oc_scope_sha256 c)).
End Receipts.
