(* ===== verification/HostFiles.v ===== *)
(** * Files of the storage host

    The files the privileged storage helper works on, as system calls on a state
    with caches: the target volume, whose inodes hold bytes that reach the disk
    when they are synced, and the journal directory, whose renames do when the
    directory is synced. A helper function is a program of such calls. A call may
    fail, and the host may crash between any two calls. *)
From S2P Require Import Prelude RustText.
From stdpp Require Import options.

Record Inode := mkInode {
  in_device : string;
  in_regular : bool;
  in_nlink : N;
  in_bytes : list N;
  in_durable : list N;
}.
Record JournalFile := mkJournalFile {
  jf_bytes : list N;
  jf_synced : bool;
}.
Record Host := mkHost {
  h_paths : gmap string N;
  h_inodes : gmap N Inode;
  h_journal : gmap string JournalFile;
  h_journal_durable : gmap string JournalFile;
}.
Global Instance Inode_eta : Eta Inode := λ i,
  mkInode (in_device i) (in_regular i) (in_nlink i) (in_bytes i) (in_durable i).
Global Instance Host_eta : Eta Host := λ h,
  mkHost (h_paths h) (h_inodes h) (h_journal h) (h_journal_durable h).

Record FileMeta := mkFileMeta {
  fm_is_file : bool;
  fm_nlink : N;
  fm_device : string;
  fm_ino : N;
  fm_len : N;
}.

(** ** Calls

    A file descriptor of the volume is the inode it was opened on. [CVolumeRoot]
    opens the volume root and answers with its device, [CLock] opens a file of
    the lock directory, takes its [flock] and answers with its device and inode,
    [CDmsetup] runs the bounded [dmsetup] command and answers with its exit code
    and its UTF-8 output. *)
Inductive call : Type → Type :=
| CNow : call N
| CNewUuid : call string
| COpen (path : string) : call N
| CStat (fd : N) : call FileMeta
| CRead (fd : N) : call (list N)
| CReadAt (fd offset : N) : call (option N)
| CWriteAt (fd offset byte : N) : call bool
| CSync (fd : N) : call unit
| CVolumeRoot : call string
| CLock (name : string) : call (string * N)
| CJournalOpen (name : string) : call unit
| CJournalRead (name : string) : call (list N)
| CJournalCreate (name : string) : call unit
| CJournalWrite (name : string) (bytes : list N) : call unit
| CJournalSync (name : string) : call unit
| CJournalUnlink (name : string) : call unit
| CJournalRename (old new : string) : call unit
| CJournalSyncDir : call unit
| CJournalList : call (list string)
| CDmsetup (args : list string) : call (Z * string * string).

Definition write_byte (h : Host) (fd offset byte : N) : Host :=
  h <| h_inodes ::= alter (λ i, i <| in_bytes ::= <[N.to_nat offset := byte]> |>) fd |>.
Definition sync_inode (h : Host) (fd : N) : Host :=
  h <| h_inodes ::= alter (λ i, i <| in_durable := in_bytes i |>) fd |>.
Definition meta_of (fd : N) (i : Inode) : FileMeta :=
  mkFileMeta (in_regular i) (in_nlink i) (in_device i) fd (len (in_bytes i)).

(** The name of the journal of an operation id. *)
Class JournalNames := journal_of : string → option string.

(** What a successful call answers and does; a new UUID is that of no existing
    journal. *)
Inductive answers `{JournalNames} (h : Host) : ∀ {R}, call R → R → Host → Prop :=
| a_now t : answers h CNow t h
| a_uuid id : (∀ name, journal_of id = Some name → h_journal h !! name = None) → answers h CNewUuid id h
| a_open path fd : h_paths h !! path = Some fd → answers h (COpen path) fd h
| a_stat fd i : h_inodes h !! fd = Some i → answers h (CStat fd) (meta_of fd i) h
| a_read fd i : h_inodes h !! fd = Some i → answers h (CRead fd) (in_bytes i) h
| a_read_at fd offset i : h_inodes h !! fd = Some i →
    answers h (CReadAt fd offset) (in_bytes i !! N.to_nat offset) h
| a_write_at fd offset byte : answers h (CWriteAt fd offset byte) true (write_byte h fd offset byte)
| a_short_write fd offset byte : answers h (CWriteAt fd offset byte) false h
| a_sync fd : answers h (CSync fd) tt (sync_inode h fd)
| a_volume_root device : answers h CVolumeRoot device h
| a_lock name id : answers h (CLock name) id h
| a_journal_open name f : h_journal h !! name = Some f → answers h (CJournalOpen name) tt h
| a_journal_read name f : h_journal h !! name = Some f → answers h (CJournalRead name) (jf_bytes f) h
| a_journal_create name : h_journal h !! name = None →
    answers h (CJournalCreate name) tt (h <| h_journal ::= <[name := mkJournalFile [] false]> |>)
| a_journal_write name bytes :
    answers h (CJournalWrite name bytes) tt (h <| h_journal ::= <[name := mkJournalFile bytes false]> |>)
| a_journal_sync name :
    answers h (CJournalSync name) tt (h <| h_journal ::= alter (λ f, mkJournalFile (jf_bytes f) true) name |>)
| a_journal_unlink name : answers h (CJournalUnlink name) tt (h <| h_journal ::= delete name |>)
| a_journal_rename old new f : h_journal h !! old = Some f →
    answers h (CJournalRename old new) tt (h <| h_journal ::= λ m, <[new := f]> (delete old m) |>)
| a_journal_sync_dir : answers h CJournalSyncDir tt (h <| h_journal_durable := h_journal h |>)
| a_journal_list names : (∀ name, name ∈ names ↔ is_Some (h_journal h !! name)) →
    answers h CJournalList names h
| a_dmsetup args out : answers h (CDmsetup args) out h.

(** A failed call leaves the host as it is, except that a failed write may have
    written. *)
Inductive call_step `{JournalNames} (h : Host) : ∀ {R}, call R → Result R → Host → Prop :=
| step_answered {R} (c : call R) a h' : answers h c a h' → call_step h c (ok a) h'
| step_failed {R} (c : call R) msg : call_step h c (err msg) h
| step_torn_byte fd offset byte msg :
    call_step h (CWriteAt fd offset byte) (err msg) (write_byte h fd offset byte)
| step_torn_journal name bytes torn msg :
    call_step h (CJournalWrite name bytes) (err msg) (h <| h_journal ::= <[name := mkJournalFile torn false]> |>).

(** After a crash every byte of an inode is the cached or the durable one, and
    every name of the journal directory is the cached or the durable file, whose
    content is lost when it was not synced. *)
Definition settles (i i' : Inode) : Prop :=
  in_device i' = in_device i ∧ in_regular i' = in_regular i ∧ in_nlink i' = in_nlink i ∧
  in_durable i' = in_bytes i' ∧ length (in_bytes i') = length (in_bytes i) ∧
  ∀ k, in_bytes i' !! k = in_bytes i !! k ∨ in_bytes i' !! k = in_durable i !! k.
Definition survives (f f' : option JournalFile) : Prop :=
  match f with
  | None => f' = None
  | Some f => ∃ f1, f' = Some f1 ∧ jf_synced f1 = true ∧ (jf_synced f = true → jf_bytes f1 = jf_bytes f)
  end.
Definition crashed (h h' : Host) : Prop :=
  h_paths h' = h_paths h ∧ h_journal_durable h' = h_journal h' ∧
  (∀ fd, option_Forall2 settles (h_inodes h !! fd) (h_inodes h' !! fd)) ∧
  (∀ name, survives (h_journal h !! name) (h_journal h' !! name) ∨
           survives (h_journal_durable h !! name) (h_journal h' !! name)).

(** ** Programs *)
Inductive HostProg (A : Type) :=
| HRet (r : Result A)
| HCall {R : Type} (c : call R) (k : Result R → HostProg A).
Arguments HRet {A} r.
Arguments HCall {A R} c k.
Fixpoint host_bind {A B} (f : A → HostProg B) (p : HostProg A) : HostProg B :=
  match p with
  | HRet (ok a) => f a
  | HRet (err msg) => HRet (err msg)
  | HRet panicked => HRet panicked
  | HCall c k => HCall c (λ r, host_bind f (k r))
  end.
Global Instance HostProg_ret : MRet HostProg := λ A a, HRet (ok a).
Global Instance HostProg_bind : MBind HostProg := @host_bind.
Definition hcall {R} (c : call R) : HostProg R := HCall c HRet.
(** [r.context(msg)]. *)
Fixpoint hcontext {A} (msg : string) (p : HostProg A) : HostProg A :=
  match p with
  | HRet (err _) => HRet (err msg)
  | HRet r => HRet r
  | HCall c k => HCall c (λ r, hcontext msg (k r))
  end.
(** The result of a program as a value, for code that matches on it; a panic is
    not caught. *)
Fixpoint hcatch {A B} (p : HostProg A) (f : Result A → HostProg B) : HostProg B :=
  match p with
  | HRet panicked => HRet panicked
  | HRet r => f r
  | HCall c k => HCall c (λ r, hcatch (k r) f)
  end.

(** One call of a program, and the states a run passes through. *)
Inductive host_step `{JournalNames} {A} : Host → HostProg A → Host → HostProg A → Prop :=
| hs_call {R} h (c : call R) k r h' : call_step h c r h' → host_step h (HCall c k) h' (k r).
Inductive host_run `{JournalNames} {A} : Host → HostProg A → Host → HostProg A → Prop :=
| hr_here h p : host_run h p h p
| hr_step h p h1 p1 h2 p2 : host_step h p h1 p1 → host_run h1 p1 h2 p2 → host_run h p h2 p2.

(** ** Reasoning: [I] holds throughout, [Q] of the result *)
Fixpoint hwp `{JournalNames} {A} (I : Host → Prop) (Q : Result A → Host → Prop) (p : HostProg A) (h : Host) : Prop :=
  I h ∧ match p with
        | HRet r => Q r h
        | HCall c k => ∀ r h', call_step h c r h' → hwp I Q (k r) h'
        end.

Section Reasoning.
Context `{Hnames : JournalNames} {A : Type} (I : Host → Prop).

Lemma hwp_here (Q : Result A → Host → Prop) p h : hwp I Q p h → I h.
Proof. destruct p; by intros [? _]. Qed.
Lemma hwp_run (Q : Result A → Host → Prop) p h h' p' :
  hwp I Q p h → host_run h p h' p' → I h' ∧ ∀ r, p' = HRet r → Q r h'.
Proof.
  intros Hwp Hrun. induction Hrun as [h p|h p h1 p1 h2 p2 Hstep _ IH].
  - split; [by eapply hwp_here|]. intros r ->. by destruct Hwp.
  - destruct Hstep as [R h c k r h1 Hc]. apply IH. destruct Hwp as [_ Hk]. by apply Hk.
Qed.
Lemma hwp_mono (Q Q' : Result A → Host → Prop) p h :
  (∀ r h, Q r h → Q' r h) → hwp I Q p h → hwp I Q' p h.
Proof.
  intros HQ. revert h. induction p as [r|R c k IH]; intros h [Hi Hp]; split; auto.
Qed.
Lemma hwp_ret (Q : Result A → Host → Prop) r h : I h → Q r h → hwp I Q (HRet r) h.
Proof. by split. Qed.
Lemma hwp_bind {B} (Q : Result B → Host → Prop) (f : A → HostProg B) p h :
  hwp I (λ r h, match r with ok a => hwp I Q (f a) h | err msg => Q (err msg) h | panicked => Q panicked h end) p h →
  hwp I Q (p ≫= f) h.
Proof.
  revert h. induction p as [[a|msg|]|R c k IH]; intros h [Hi Hp]; [done|by split..|].
  split; [done|]. intros r h' Hc. by apply IH, Hp.
Qed.
Lemma hwp_catch {B} (Q : Result B → Host → Prop) (f : Result A → HostProg B) p h :
  hwp I (λ r h, match r with panicked => Q panicked h | r => hwp I Q (f r) h end) p h → hwp I Q (hcatch p f) h.
Proof.
  revert h. induction p as [[a|msg|]|R c k IH]; intros h [Hi Hp]; [done|done|by split|]. split; [done|].
  intros r h' Hc. by apply IH, Hp.
Qed.
Lemma hwp_context (Q : Result A → Host → Prop) msg p h :
  hwp I (λ r h, Q (match r with err _ => err msg | r => r end) h) p h → hwp I Q (hcontext msg p) h.
Proof.
  revert h. induction p as [[a|msg'|]|R c k IH]; intros h [Hi Hp]; [by split..|].
  split; [done|]. intros r h' Hc. by apply IH, Hp.
Qed.
End Reasoning.

Lemma hwp_call `{JournalNames} {R} (I : Host → Prop) (Q : Result R → Host → Prop) (c : call R) h :
  I h → (∀ r h', call_step h c r h' → I h' ∧ Q r h') → hwp I Q (hcall c) h.
Proof. intros Hi Hk. split; [done|]. intros r h' Hc. by apply Hk. Qed.

(** [answers] and failures, by the call. *)
Definition call_result `{JournalNames} (h h' : Host) {R} (c : call R) : R → Prop :=
  match c with
  | CNewUuid => λ id, h' = h ∧ ∀ name, journal_of id = Some name → h_journal h !! name = None
  | COpen path => λ fd, h' = h ∧ h_paths h !! path = Some fd
  | CStat fd => λ m, h' = h ∧ ∃ i, h_inodes h !! fd = Some i ∧ m = meta_of fd i
  | CRead fd => λ bytes, h' = h ∧ ∃ i, h_inodes h !! fd = Some i ∧ bytes = in_bytes i
  | CReadAt fd offset => λ o, h' = h ∧ ∃ i, h_inodes h !! fd = Some i ∧ o = in_bytes i !! N.to_nat offset
  | CWriteAt fd offset byte => λ written, h' = if written then write_byte h fd offset byte else h
  | CSync fd => λ _, h' = sync_inode h fd
  | CJournalRead name => λ bytes, h' = h ∧ ∃ f, h_journal h !! name = Some f ∧ bytes = jf_bytes f
  | CJournalCreate name => λ _, h' = h <| h_journal ::= <[name := mkJournalFile [] false]> |>
  | CJournalWrite name bytes => λ _, h' = h <| h_journal ::= <[name := mkJournalFile bytes false]> |>
  | CJournalSync name => λ _, h' = h <| h_journal ::= alter (λ f, mkJournalFile (jf_bytes f) true) name |>
  | CJournalUnlink name => λ _, h' = h <| h_journal ::= delete name |>
  | CJournalRename old new => λ _, ∃ f, h_journal h !! old = Some f ∧
      h' = h <| h_journal ::= λ m, <[new := f]> (delete old m) |>
  | CJournalSyncDir => λ _, h' = h <| h_journal_durable := h_journal h |>
  | CJournalList => λ names, h' = h ∧ ∀ name, name ∈ names ↔ is_Some (h_journal h !! name)
  | _ => λ _, h' = h
  end.
Definition failed (h h' : Host) {R} (c : call R) : Prop :=
  h' = h ∨ match c with
           | CWriteAt fd offset byte => h' = write_byte h fd offset byte
           | CJournalWrite name _ => ∃ torn, h' = h <| h_journal ::= <[name := mkJournalFile torn false]> |>
           | _ => False
           end.
Lemma answers_inv `{JournalNames} {R} h (c : call R) a h' : answers h c a h' → call_result h h' c a.
Proof. destruct 1; cbn; eauto. Qed.
Lemma call_step_inv `{JournalNames} {R} h (c : call R) r h' : call_step h c r h' →
  match r with ok a => call_result h h' c a | err _ => failed h h' c | panicked => False end.
Proof. destruct 1; [by apply answers_inv|by left|by right|right; by eexists]. Qed.

Lemma call_answered `{JournalNames} {R} h (c : call R) r h' :
  call_step h c r h' → match r with ok a => answers h c a h' | _ => True end.
Proof. by destruct 1. Qed.

(** Calls that leave the host as it is. *)
Definition silent {R} (c : call R) : bool :=
  match c with
  | CNow | CNewUuid | COpen _ | CStat _ | CRead _ | CReadAt _ _ | CVolumeRoot | CLock _ | CJournalOpen _ | CJournalRead _
  | CJournalList | CDmsetup _ => true
  | _ => false
  end.
Lemma silent_step `{JournalNames} {R} h (c : call R) r h' : silent c = true → call_step h c r h' → h' = h.
Proof. intros Hs Hc. destruct Hc as [R c a h' Ha| | |]; [|done..]. by destruct Ha. Qed.

(** [I] holds throughout and [P] of the value, if the program returns one. *)
Definition hok `{JournalNames} {A} (I : Host → Prop) (P : A → Host → Prop) (p : HostProg A) (h : Host) : Prop :=
  hwp I (λ r h, ∀ a, r = ok a → P a h) p h.

Section Successes.
Context `{Hnames : JournalNames} (I : Host → Prop).

Lemma hok_run {A} (P : A → Host → Prop) p h h' p' :
  hok I P p h → host_run h p h' p' → I h' ∧ ∀ a, p' = HRet (ok a) → P a h'.
Proof.
  intros Hp Hr. destruct (hwp_run I _ _ _ _ _ Hp Hr) as [Hi Hq]. split; [done|]. intros a Ha. by apply (Hq _ Ha).
Qed.
Lemma hok_mono {A} (P P' : A → Host → Prop) p h : (∀ a h, P a h → P' a h) → hok I P p h → hok I P' p h.
Proof. intros HP. apply hwp_mono. intros r h' Hr a Ha. by apply HP, Hr. Qed.
Lemma hok_ret {A} (P : A → Host → Prop) r h : I h → (∀ a, r = ok a → P a h) → hok I P (HRet r) h.
Proof. by split. Qed.
Lemma hok_value {A} (P : A → Host → Prop) a h : I h → P a h → hok I P (mret a) h.
Proof. intros Hi Hp. apply hok_ret; [done|]. by intros ? [= <-]. Qed.
Lemma hok_bind {A B} (P : B → Host → Prop) (f : A → HostProg B) p h :
  hok I (λ a h, hok I P (f a) h) p h → hok I P (p ≫= f) h.
Proof. intros Hp. apply hwp_bind. eapply hwp_mono; [|exact Hp]. intros [a|msg|] h' Hr; [by apply Hr|done..]. Qed.
Lemma hok_bind_ret {A B} (P : B → Host → Prop) (f : A → HostProg B) (r : Result A) h :
  I h → (∀ a, r = ok a → hok I P (f a) h) → hok I P (HRet r ≫= f) h.
Proof. intros Hi Hf. by apply hok_bind, hok_ret. Qed.
Lemma hok_context {A} (P : A → Host → Prop) msg p h : hok I P p h → hok I P (hcontext msg p) h.
Proof. intros Hp. apply hwp_context. eapply hwp_mono; [|exact Hp]. intros [a|msg'|] h' Hr; [exact Hr|done..]. Qed.
Lemma hok_call {R} (P : R → Host → Prop) (c : call R) h :
  I h → (∀ r h', call_step h c r h' → I h' ∧ ∀ a, r = ok a → P a h') → hok I P (hcall c) h.
Proof. apply hwp_call. Qed.
Lemma hok_silent {R} (P : R → Host → Prop) (c : call R) h :
  silent c = true → I h → (∀ a, answers h c a h → P a h) → hok I P (hcall c) h.
Proof.
  intros Hs Hi Hk. apply hok_call; [done|]. intros r h' Hc. pose proof (silent_step _ _ _ _ Hs Hc) as ->.
  split; [done|]. intros a ->. apply Hk. exact (call_answered _ _ _ _ Hc).
Qed.
End Successes.

Lemma hok_catch `{JournalNames} {A B} (I : Host → Prop) (P : B → Host → Prop) (f : Result A → HostProg B) p h :
  hwp I (λ r h, r ≠ panicked → hok I P (f r) h) p h → hok I P (hcatch p f) h.
Proof.
  intros Hp. apply hwp_catch. eapply hwp_mono; [|exact Hp]. intros [a|msg|] h' Hr; [by apply Hr..|done].
Qed.
