(* ===== verification/StorageHelper.v ===== *)
(** * The privileged storage helper

    [src/fault/storage_recovery_helper.rs]: the journal of controlled shard
    mutations, their restoration and verification, the inspection of a shard, the
    device-mapper transitions and the session that guards them, as programs of
    system calls ([HostFiles]). The probe of mounts ([run_fresh_volume_host_probe])
    and serde's text are operations of [HelperEnv]. *)
From S2P Require Import Prelude RustText RustWords Quorum Msgpack Xl2Inspector.
From S2P Require Import StorageLease StorageOwnership StorageReceipts HostFiles.
From stdpp Require Import options.

Definition FORMAT_JSON_PATH : string := ".rustfs.sys/format.json".
Definition MAX_FORMAT_JSON_BYTES : N := 1024 * 1024.
Definition MAX_XL_META_FILE_BYTES : N := 16 * 1024 * 1024.
Definition MAX_JOURNAL_BYTES : N := 1024 * 1024.
Definition CONTROLLED_SHARD_XOR_MASK : N := 0xff.

(** ** Journals *)
Module JournalState.
Inductive t := Completed | Prepared | Mutated | Restored | VerifiedSuperseded | Quarantined.
Global Instance t_eq_dec : EqDecision t.
Proof. solve_decision. Defined.
End JournalState.
Module MutationRecoveryState.
Inductive t := Prepared | Mutated | Restored | VerifiedSuperseded | Quarantined.
Global Instance t_eq_dec : EqDecision t.
Proof. solve_decision. Defined.
End MutationRecoveryState.
Module RestoreOutcome.
Inductive t := Restored | AlreadyRepaired | VerifiedSuperseded | Quarantined.
Global Instance t_eq_dec : EqDecision t.
Proof. solve_decision. Defined.
End RestoreOutcome.

Record MutationJournal := mkMutationJournal {
  mj_schema_version : N;
  mj_operation_id : string;
  mj_context_sha256 : string;
  mj_scope_sha256 : string;
  mj_lease_uid : string;
  mj_lease_acquired_at_ms : N;
  mj_holder_identity : string;
  mj_operation : StorageRecoveryHostOperation.t;
  mj_state : JournalState.t;
  mj_relative_part_path : option string;
  mj_shard_device_id : option string;
  mj_shard_inode : option N;
  mj_shard_size_bytes : option N;
  mj_byte_offset : option N;
  mj_original_byte : option N;
  mj_mutated_byte : option N;
  mj_original_sha256 : option string;
  mj_mutated_sha256 : option string;
  mj_reason : option string;
  mj_terminal_post_inspection_operation_id : option string;
  mj_response_body : option string;
  mj_response_sha256 : option string;
  mj_started_at_ms : N;
  mj_updated_at_ms : N;
}.
Global Instance MutationJournal_eta : Eta MutationJournal := λ j,
  mkMutationJournal (mj_schema_version j) (mj_operation_id j) (mj_context_sha256 j) (mj_scope_sha256 j)
    (mj_lease_uid j) (mj_lease_acquired_at_ms j) (mj_holder_identity j) (mj_operation j) (mj_state j)
    (mj_relative_part_path j) (mj_shard_device_id j) (mj_shard_inode j) (mj_shard_size_bytes j)
    (mj_byte_offset j) (mj_original_byte j) (mj_mutated_byte j) (mj_original_sha256 j) (mj_mutated_sha256 j)
    (mj_reason j) (mj_terminal_post_inspection_operation_id j) (mj_response_body j) (mj_response_sha256 j)
    (mj_started_at_ms j) (mj_updated_at_ms j).

(** ** Responses *)
Record OfflineInspectedShard := mkOfflineInspectedShard {
  os_part_number : N;
  os_relative_part_path : string;
  os_shard_device_id : string;
  os_shard_inode : N;
  os_shard_size_bytes : N;
  os_original_sha256 : string;
}.
Record OfflineInspectedMetadata := mkOfflineInspectedMetadata {
  om_relative_metadata_path : string;
  om_metadata_device_id : string;
  om_metadata_inode : N;
  om_metadata_size_bytes : N;
  om_original_sha256 : string;
}.
Record OfflineXl2InspectResponse := mkOfflineXl2InspectResponse {
  xr_mount_device_id : string;
  xr_drive_uuid : string;
  xr_format_json_sha256 : string;
  xr_xl_meta_sha256 : string;
  xr_layout : Xl2ObjectVersionLayout;
  xr_selected_part : OfflineInspectedShard;
  xr_selected_metadata : option OfflineInspectedMetadata;
}.
Record OfflineShardMutationResponse := mkOfflineShardMutationResponse {
  sm_journal_operation_id : string;
  sm_relative_part_path : string;
  sm_shard_device_id : string;
  sm_shard_inode : N;
  sm_shard_size_bytes : N;
  sm_byte_offset : N;
  sm_original_byte : N;
  sm_mutated_byte : N;
  sm_original_sha256 : string;
  sm_mutated_sha256 : string;
}.
Record OfflineMetadataMutationResponse := mkOfflineMetadataMutationResponse {
  mm_journal_operation_id : string;
  mm_relative_metadata_path : string;
  mm_metadata_device_id : string;
  mm_metadata_inode : N;
  mm_metadata_size_bytes : N;
  mm_byte_offset : N;
  mm_original_byte : N;
  mm_mutated_byte : N;
  mm_original_sha256 : string;
  mm_mutated_sha256 : string;
}.
Definition metadata_of_shard (r : OfflineShardMutationResponse) : OfflineMetadataMutationResponse :=
  mkOfflineMetadataMutationResponse (sm_journal_operation_id r) (sm_relative_part_path r) (sm_shard_device_id r)
    (sm_shard_inode r) (sm_shard_size_bytes r) (sm_byte_offset r) (sm_original_byte r) (sm_mutated_byte r)
    (sm_original_sha256 r) (sm_mutated_sha256 r).
Record OfflineShardRecoveryResponse := mkOfflineShardRecoveryResponse {
  rr_mutation_operation_id : string;
  rr_outcome : RestoreOutcome.t;
  rr_observed_sha256 : option string;
}.
Record MutationJournalLookup := mkMutationJournalLookup {
  ml_operation_id : string;
  ml_operation : StorageRecoveryHostOperation.t;
  ml_state : MutationRecoveryState.t;
  ml_receipt : option StorageRecoveryOperationReceipt;
  ml_observed_at_ms : N;
}.
(** What the host probe reports. *)
Record HostProbe := mkHostProbe {
  hp_mount_id : string;
  hp_mount_namespace_id : string;
  hp_device_major_minor : string;
  hp_canonical_device : string;
  hp_filesystem_uuid : string;
  hp_rustfs_drive_uuid : option string;
}.

Class HelperEnv := {
  (** [serde_json], with the display of its errors *)
  journal_to_vec : MutationJournal → option (list N);
  journal_from_slice : list N → option MutationJournal;
  inspection_from_str : string → option OfflineXl2InspectResponse;
  inspection_to_string : OfflineXl2InspectResponse → option string;
  mutation_to_string : OfflineShardMutationResponse → option string;
  metadata_mutation_to_string : OfflineMetadataMutationResponse → option string;
  recovery_to_string : OfflineShardRecoveryResponse → option string;
  generation_to_string : HostGenerationIdentity → option string;
  transition_to_string : StaleDeviceMapperTransitionResponse → option string;
  prepared_to_string : string → string → option string;
  serde_error : string;
  (** [Sha256::digest] *)
  sha256_digest : list N → list N;
  (** [std::process::id()] *)
  process_id : string;
  (** [run_fresh_volume_host_probe] with or without the read of [format.json] *)
  host_probe : OwnedStorageContext → bool → HostProg HostProbe;
}.

Section Helper.
Context `{Henv : StorageEnv} `{Hxl2 : Xl2Env} `{Hhelper : HelperEnv}.
Local Abbreviation operation := StorageRecoveryHostOperation.t.
Definition hlift {A} (r : Result A) : HostProg A := HRet r.
Definition now_host : HostProg N := hcall CNow.
Definition required (value : option string) (label : string) : Result string :=
  context value (label +:+ " is absent").

(** ** Files *)
Definition nul : string := String "000" EmptyString.
Definition beneath_path (relative : string) : Result unit :=
  _ ← ensure (negb (bool_decide (relative = "")) && negb (starts_with "/" relative)
              && forallb normal_segment (split "/" relative))
        "storage helper path is not normalized and relative";
  ensure (negb (contains nul relative)) "storage helper path contains NUL".
Definition open_context (relative : string) : string := "open contained storage path " +:+ str_debug relative.
Definition open_beneath (relative : string) : HostProg N :=
  _ ← hlift (beneath_path relative);
  hcontext (open_context relative) (hcall (COpen relative)).
Definition check_limited {A} (is_file : bool) (length limit : N) (label : string) (read : HostProg (list N))
    (k : list N → HostProg A) : HostProg A :=
  _ ← hlift (ensure is_file (label +:+ " is not a regular file"));
  _ ← hlift (ensure ((0 <? length)%N && (length <=? limit)%N) (label +:+ " is empty or oversized"));
  bytes ← read;
  let body := take (N.to_nat (limit + 1)) bytes in
  _ ← hlift (ensure ((len body =? length)%N && (len body <=? limit)%N) (label +:+ " changed while it was read"));
  k body.
Definition read_limited (fd limit : N) (label : string) : HostProg (list N) :=
  meta ← hcontext ("stat " +:+ label) (hcall (CStat fd));
  check_limited (fm_is_file meta) (fm_len meta) limit label (hcall (CRead fd)) (λ body, mret body).
Definition validate_part_identity (fd : N) (expected_device : string) (expected_inode expected_size : N) : HostProg unit :=
  meta ← hcontext "fstat contained shard" (hcall (CStat fd));
  _ ← hlift (ensure (fm_is_file meta) "contained shard is not a regular file");
  _ ← hlift (ensure (fm_nlink meta =? 1)%N "contained shard has multiple hard links");
  hlift (ensure (bool_decide (fm_device meta = expected_device) && (fm_ino meta =? expected_inode)%N
                 && (fm_len meta =? expected_size)%N)
           "contained shard device/inode/size differs from the mapping receipt").
Definition substituted (substitute : option (N * N)) (bytes : list N) : list N :=
  match substitute with Some (target, byte) => <[N.to_nat target := byte]> bytes | None => bytes end.
Definition hash_file (fd : N) (substitute : option (N * N)) : HostProg string :=
  bytes ← hcall (CRead fd);
  mret (sha256_bytes (substituted substitute bytes)).

(** ** The journal directory *)
Definition journal_name (operation_id : string) : Result string :=
  id ← context (uuid_parse_str operation_id) "journal operation id is not a UUID";
  ok ("mutation-" +:+ uuid_to_string id +:+ ".json").
Definition temporary_of (final_name : string) : string := "." +:+ final_name +:+ "." +:+ process_id +:+ ".tmp".
Definition unlink_then_fail {A} (name msg : string) : HostProg A :=
  hcatch (hcall (CJournalUnlink name)) (λ _, HRet (err msg)).
Definition persist_journal (j : MutationJournal) : HostProg unit :=
  final_name ← hlift (journal_name (mj_operation_id j));
  let temporary_name := temporary_of final_name in
  _ ← hlift (beneath_path temporary_name);
  _ ← hcontext (open_context temporary_name) (hcall (CJournalCreate temporary_name));
  hcatch (body ← hlift (context (journal_to_vec j) serde_error);
          _ ← hcall (CJournalWrite temporary_name body);
          hcontext "fsync storage mutation journal" (hcall (CJournalSync temporary_name)))
    (λ written,
      match written with
      | ok _ =>
          hcatch (hcall (CJournalRename temporary_name final_name)) (λ renamed,
            match renamed with
            | ok _ => hcontext "fsync storage journal directory" (hcall CJournalSyncDir)
            | _ => unlink_then_fail temporary_name ("publish storage journal " +:+ final_name)
            end)
      | _ => unlink_then_fail temporary_name "persist storage mutation journal temporary file"
      end).
Definition load_journal (operation_id : string) : HostProg MutationJournal :=
  name ← hlift (journal_name operation_id);
  _ ← hlift (beneath_path name);
  _ ← hcontext (open_context name) (hcall (CJournalOpen name));
  bytes ← hcall (CJournalRead name);
  check_limited true (len bytes) MAX_JOURNAL_BYTES "mutation journal" (mret bytes) (λ body,
    hlift (context (journal_from_slice body) "decode mutation journal")).

(** ** Receipts *)
Definition stamp_uuid_bytes (digest : list N) : list N :=
  let bytes := take 16 digest in
  let b6 := default 0%N (bytes !! 6) in
  let b8 := default 0%N (bytes !! 8) in
  <[8 := N.lor (N.land b8 0x3f) 0x80]> (<[6 := N.lor (N.land b6 0x0f) 0x40]> bytes).
Definition stable_operation_id (identity : string) : string :=
  uuid_to_string (uuid_from_bytes (stamp_uuid_bytes (sha256_digest (as_bytes identity)))).
Definition terminal_cleanup_operation_id (o : operation) : Result string :=
  identity ← match o with
             | StorageRecoveryHostOperation.RestoreShard mutation_operation_id =>
                 ok ("restore:" +:+ mutation_operation_id)
             | StorageRecoveryHostOperation.VerifySupersededShard mutation_operation_id post =>
                 ok ("verify:" +:+ mutation_operation_id +:+ ":" +:+ post)
             | _ => panicked
             end;
  ok (stable_operation_id ("s3chaos-bitrot-cleanup:" +:+ identity)).
Definition make_receipt (c : OwnedStorageContext) (o : operation) (operation_id response_body : string)
    (started_at_ms journal_persisted_at_ms : N) : HostProg StorageRecoveryOperationReceipt :=
  completed_at_ms ← now_host;
  digest ← hlift (context_sha256 c);
  let receipt := mkStorageRecoveryOperationReceipt operation_id o digest (digest_str response_body) response_body
                   started_at_ms completed_at_ms journal_persisted_at_ms true in
  _ ← hlift (validate_receipt receipt c o);
  mret receipt.
(** A journal of the context without any file. *)
Definition context_journal (c : OwnedStorageContext) (digest operation_id : string) (o : operation)
    (state : JournalState.t) (started_at_ms updated_at_ms : N) : MutationJournal :=
  mkMutationJournal 1 operation_id digest (oc_scope_sha256 c) (kp_uid (oc_lease c)) (kp_acquired_at_ms (oc_lease c))
    (kp_holder_identity (oc_lease c)) o state None None None None None None None None None None None None None
    started_at_ms updated_at_ms.
Definition completed_receipt_with_id (c : OwnedStorageContext) (o : operation) (response : option string)
    (started_at_ms : N) (operation_id : string) : HostProg StorageRecoveryOperationReceipt :=
  persisted_at_ms ← now_host;
  digest ← hlift (context_sha256 c);
  response_body ← hlift (context response serde_error);
  let j := context_journal c digest operation_id o JournalState.Completed started_at_ms persisted_at_ms
             <| mj_response_body := Some response_body |>
             <| mj_response_sha256 := Some (digest_str response_body) |> in
  _ ← persist_journal j;
  make_receipt c o operation_id response_body started_at_ms persisted_at_ms.
Definition completed_receipt (c : OwnedStorageContext) (o : operation) (response : option string) (started_at_ms : N)
    : HostProg StorageRecoveryOperationReceipt :=
  operation_id ← match o with
                 | StorageRecoveryHostOperation.InspectHostGeneration =>
                     mret (stable_operation_id ("s3chaos-host-generation:" +:+ oc_scope_sha256 c))
                 | _ => hcall CNewUuid
                 end;
  completed_receipt_with_id c o response started_at_ms operation_id.
Definition persist_response (j : MutationJournal) (response_body : string) : HostProg N :=
  updated_at_ms ← now_host;
  let j := j <| mj_response_body := Some response_body |>
             <| mj_response_sha256 := Some (digest_str response_body) |>
             <| mj_updated_at_ms := updated_at_ms |> in
  _ ← persist_journal j;
  mret updated_at_ms.
Definition quarantine (j : MutationJournal) (reason : string) : HostProg unit :=
  updated_at_ms ← now_host;
  persist_journal (j <| mj_state := JournalState.Quarantined |> <| mj_reason := Some reason |>
                     <| mj_updated_at_ms := updated_at_ms |>).
Definition quarantined_receipt (c : OwnedStorageContext) (o : operation) (mutation_operation_id : string)
    (observed_sha256 : option string) (started_at_ms : N) : HostProg StorageRecoveryOperationReceipt :=
  completed_receipt c o
    (recovery_to_string (mkOfflineShardRecoveryResponse mutation_operation_id RestoreOutcome.Quarantined observed_sha256))
    started_at_ms.

(** ** Inspecting a shard *)
Definition corruption_file (r : OfflineXl2InspectResponse) (case : StorageRecoveryCase.t) : Result OfflineInspectedShard :=
  if bool_decide (case = StorageRecoveryCase.MetadataShardCorruptionAdminDeep) then
    metadata ← context (xr_selected_metadata r) "XL2 inspection lacks the selected metadata identity";
    _ ← ensure (ends_with "/xl.meta" (om_relative_metadata_path metadata)
                && bool_decide (om_metadata_device_id metadata = xr_mount_device_id r)
                && (0 <? om_metadata_inode metadata)%N && (18 <=? om_metadata_size_bytes metadata)%N
                && bool_decide (om_original_sha256 metadata = xr_xl_meta_sha256 r))
          "metadata inspection does not bind the contained XL2 file";
    ok (mkOfflineInspectedShard 0 (om_relative_metadata_path metadata) (om_metadata_device_id metadata)
          (om_metadata_inode metadata) (om_metadata_size_bytes metadata) (om_original_sha256 metadata))
  else ok (xr_selected_part r).

Definition position (n : N) (l : list N) : option nat := fst <$> list_find (λ m, m = n) l.
Definition inspect_response (deployment_id object_directory version_id : string) (selected_part_number : N)
    (expected_mount_device_id expected_drive_uuid : string) : HostProg OfflineXl2InspectResponse :=
  format_file ← open_beneath FORMAT_JSON_PATH;
  format_bytes ← read_limited format_file MAX_FORMAT_JSON_BYTES "format.json";
  _ ← hlift (validate_format_json_drive format_bytes deployment_id expected_drive_uuid);
  let xl_meta_path := object_directory +:+ "/xl.meta" in
  xl_meta_file ← open_beneath xl_meta_path;
  xl_meta_metadata ← hcontext "stat contained xl.meta" (hcall (CStat xl_meta_file));
  _ ← hlift (ensure (bool_decide (fm_device xl_meta_metadata = expected_mount_device_id))
               "contained xl.meta crossed the proven volume device");
  xl_meta ← read_limited xl_meta_file MAX_XL_META_FILE_BYTES "xl.meta";
  found ← hlift (inspect_xl_meta xl_meta version_id);
  let paths := (λ path, object_directory +:+ "/" +:+ path) <$> vl_relative_part_paths found in
  let layout := mkXl2ObjectVersionLayout (vl_inspector_revision found) (vl_profile found) (vl_version_id found)
                  (vl_data_directory found) (vl_erasure_data_shards found) (vl_erasure_parity_shards found)
                  (vl_erasure_index found) (vl_part_numbers found) (vl_part_sizes found) paths in
  selected_index ← hlift (context (position selected_part_number (vl_part_numbers layout))
                            "selected part number is absent from XL2 metadata");
  relative_part_path ← hlift (context (vl_relative_part_paths layout !! selected_index)
                                "selected XL2 part path is absent");
  part ← open_beneath relative_part_path;
  part_metadata ← hcontext "stat inspected shard" (hcall (CStat part));
  _ ← hlift (ensure (0 <? fm_len part_metadata)%N "selected shard is empty");
  _ ← validate_part_identity part expected_mount_device_id (fm_ino part_metadata) (fm_len part_metadata);
  original_sha256 ← hash_file part None;
  mret (mkOfflineXl2InspectResponse expected_mount_device_id expected_drive_uuid (sha256_bytes format_bytes)
          (sha256_bytes xl_meta) layout
          (mkOfflineInspectedShard selected_part_number relative_part_path (fm_device part_metadata)
             (fm_ino part_metadata) (fm_len part_metadata) original_sha256)
          (Some (mkOfflineInspectedMetadata xl_meta_path (fm_device xl_meta_metadata) (fm_ino xl_meta_metadata)
                   (fm_len xl_meta_metadata) (sha256_bytes xl_meta)))).
Definition inspect (c : OwnedStorageContext) (o : operation) (started_at_ms : N)
    : HostProg StorageRecoveryOperationReceipt :=
  match o with
  | StorageRecoveryHostOperation.InspectXlMeta object_directory bucket object_key object_sha256 version_id
      selected_part_number expected_mount_device_id expected_drive_uuid =>
      _ ← hlift (ensure (bool_decide (expected_mount_device_id = hg_device_major_minor (oc_host_generation c))
                         && bool_decide (expected_drive_uuid = sv_rustfs_drive_uuid (oc_volume c)))
                   "offline inspection target differs from the owned context");
      _ ← hlift (ensure (bool_decide (bucket = ai_bucket (oc_identity c)) && negb (trim_is_empty object_key))
                   "offline inspection object identity differs from the owned context");
      response ← inspect_response (sv_rustfs_deployment_id (oc_volume c)) object_directory version_id
                   selected_part_number expected_mount_device_id expected_drive_uuid;
      completed_receipt c o (inspection_to_string response) started_at_ms
  | _ => HRet panicked
  end.
End Helper.
