(* ===== verification/StorageMutation.v ===== *)
(** * Controlled shard mutations

    [mutate], [restore] and [verify_superseded] of
    [src/fault/storage_recovery_helper.rs]: one byte of a shard (or of its
    [xl.meta]) is flipped under a journal that is durable before the byte is
    written, and put back from the journal, unless the file was repaired or
    replaced in the meantime. *)
From S2P Require Import Prelude RustText RustWords Quorum Msgpack Xl2Inspector.
From S2P Require Import StorageLease StorageOwnership StorageReceipts HostFiles StorageHelper.
From stdpp Require Import options.

Section Mutation.
Context `{Henv : StorageEnv} `{Hxl2 : Xl2Env} `{Hhelper : HelperEnv}.
Local Abbreviation operation := StorageRecoveryHostOperation.t.
Local Abbreviation metadata_case := StorageRecoveryCase.MetadataShardCorruptionAdminDeep.

Definition is_file_mutation (o : operation) : bool :=
  match o with
  | StorageRecoveryHostOperation.MutateShard _ _ _ | StorageRecoveryHostOperation.MutateMetadata _ => true
  | _ => false
  end.
(** The journal was written under the scope and the Lease generation of [c]. *)
Definition same_generation (j : MutationJournal) (c : OwnedStorageContext) (digest : string) : bool :=
  bool_decide (mj_context_sha256 j = digest) && bool_decide (mj_scope_sha256 j = oc_scope_sha256 c)
  && bool_decide (mj_lease_uid j = kp_uid (oc_lease c))
  && (mj_lease_acquired_at_ms j =? kp_acquired_at_ms (oc_lease c))%N
  && bool_decide (mj_holder_identity j = kp_holder_identity (oc_lease c)).
(** [b && journal.context_sha256 == context_sha256(context)? && ...]. *)
Definition and_generation (b : bool) (j : MutationJournal) (c : OwnedStorageContext) (rest : bool) : Result bool :=
  if b then digest ← context_sha256 c; ok (same_generation j c digest && rest) else ok false.
Definition journal_owned (j : MutationJournal) (operation_id : string) (c : OwnedStorageContext) (rest : bool) : Result bool :=
  and_generation ((mj_schema_version j =? 1)%N && bool_decide (mj_operation_id j = operation_id)) j c rest.
Definition digest_bound (j : MutationJournal) (body : string) : bool :=
  bool_decide (mj_response_sha256 j = Some (digest_str body)).

(** ** Mutating *)
Definition mutation_target (c : OwnedStorageContext) (o : operation) : Result (string * N * N) :=
  match o with
  | StorageRecoveryHostOperation.MutateShard inspection_operation_id part_number byte_offset =>
      _ ← ensure (negb (bool_decide (oc_case c = metadata_case))) "metadata recovery cannot mutate an object part";
      ok (inspection_operation_id, part_number, byte_offset)
  | StorageRecoveryHostOperation.MutateMetadata inspection_operation_id =>
      _ ← ensure (bool_decide (oc_case c = metadata_case))
            "metadata mutation requires the exact metadata recovery case";
      ok (inspection_operation_id, 0%N, 0%N)
  | _ => err "file mutation received an unsupported operation"
  end.
Definition selected_path_valid (c : OwnedStorageContext) (object_directory : string) (selected_part_number : N)
    (inspected : OfflineXl2InspectResponse) (shard : OfflineInspectedShard) (part_number byte_offset : N) : bool :=
  if bool_decide (oc_case c = metadata_case) then
    bool_decide (os_relative_part_path shard = object_directory +:+ "/xl.meta")
    && (part_number =? 0)%N && (byte_offset =? 0)%N
  else
    (selected_part_number =? part_number)%N && (os_part_number shard =? part_number)%N
    && bool_decide ((index ← position part_number (vl_part_numbers (xr_layout inspected));
                     vl_relative_part_paths (xr_layout inspected) !! index) = Some (os_relative_part_path shard))
    && ends_with ("/part." +:+ dec part_number) (os_relative_part_path shard).
(** The sealed inspection the mutation refers to, and the file it selects. *)
Definition inspected_shard (c : OwnedStorageContext) (inspection_operation_id : string) (part_number byte_offset : N)
    (inspection : MutationJournal) : Result OfflineInspectedShard :=
  _ ← validate_operation (mj_operation inspection);
  owned ← journal_owned inspection inspection_operation_id c
            (bool_decide (mj_state inspection = JournalState.Completed));
  _ ← ensure owned "shard mutation inspection receipt is absent, unresolved, or belongs to another context";
  match mj_operation inspection with
  | StorageRecoveryHostOperation.InspectXlMeta object_directory bucket object_key _ _ selected_part_number _ _ =>
      inspection_body ← required (mj_response_body inspection) "inspection response body";
      _ ← ensure (digest_bound inspection inspection_body)
            "shard mutation inspection response is not durably digest-bound";
      inspected ← context (inspection_from_str inspection_body) "decode sealed XL2 inspection response";
      _ ← ensure (negb (bool_decide (oc_case c = metadata_case))
                  || bool_decide (object_directory = bucket +:+ "/" +:+ object_key)
                     && bool_decide (bucket = ai_bucket (oc_identity c)))
            "file mutation inspection directory differs from the owned object";
      shard ← corruption_file inspected (oc_case c);
      _ ← ensure (selected_path_valid c object_directory selected_part_number inspected shard part_number byte_offset
                  && bool_decide (os_shard_device_id shard = hg_device_major_minor (oc_host_generation c))
                  && (byte_offset <? os_shard_size_bytes shard)%N)
            "file mutation does not match the sealed inspection receipt";
      ok shard
  | _ => err "shard mutation source journal is not an XL2 inspection"
  end.
Definition prepared_journal (c : OwnedStorageContext) (digest operation_id : string) (o : operation)
    (shard : OfflineInspectedShard) (byte_offset original mutated : N) (original_sha256 mutated_sha256 : string)
    (started_at_ms prepared_at_ms : N) : MutationJournal :=
  context_journal c digest operation_id o JournalState.Prepared started_at_ms prepared_at_ms
    <| mj_relative_part_path := Some (os_relative_part_path shard) |>
    <| mj_shard_device_id := Some (os_shard_device_id shard) |>
    <| mj_shard_inode := Some (os_shard_inode shard) |>
    <| mj_shard_size_bytes := Some (os_shard_size_bytes shard) |>
    <| mj_byte_offset := Some byte_offset |>
    <| mj_original_byte := Some original |>
    <| mj_mutated_byte := Some mutated |>
    <| mj_original_sha256 := Some original_sha256 |>
    <| mj_mutated_sha256 := Some mutated_sha256 |>.
Definition mutation_response (operation_id : string) (shard : OfflineInspectedShard) (byte_offset original mutated : N)
    (original_sha256 mutated_sha256 : string) : OfflineShardMutationResponse :=
  mkOfflineShardMutationResponse operation_id (os_relative_part_path shard) (os_shard_device_id shard)
    (os_shard_inode shard) (os_shard_size_bytes shard) byte_offset original mutated original_sha256 mutated_sha256.

(** After the journal is durable: write, sync, verify and seal. *)
Definition apply_mutation (c : OwnedStorageContext) (o : operation) (operation_id : string) (part : N)
    (shard : OfflineInspectedShard) (byte_offset original mutated : N)
    (original_sha256 expected_mutated_sha256 : string) (j : MutationJournal) (started_at_ms : N)
    : HostProg StorageRecoveryOperationReceipt :=
  written ← hcall (CWriteAt part byte_offset mutated);
  _ ← hlift (ensure written "short pwrite during shard mutation");
  _ ← hcontext "fsync mutated shard" (hcall (CSync part));
  _ ← validate_part_identity part (os_shard_device_id shard) (os_shard_inode shard) (os_shard_size_bytes shard);
  readback ← hcall (CReadAt part byte_offset);
  _ ← hlift (ensure (bool_decide (readback = Some mutated))
               "mutated shard byte did not survive fsync/readback");
  mutated_sha256 ← hash_file part None;
  _ ← hlift (ensure (bool_decide (mutated_sha256 = expected_mutated_sha256))
               "mutated shard digest differs from the precomputed controlled mutation");
  let response := mutation_response operation_id shard byte_offset original mutated original_sha256 mutated_sha256 in
  response_body ← hlift (context (if bool_decide (oc_case c = metadata_case)
                                  then metadata_mutation_to_string (metadata_of_shard response)
                                  else mutation_to_string response) serde_error);
  persisted_at_ms ← persist_response (j <| mj_state := JournalState.Mutated |>) response_body;
  make_receipt c o operation_id response_body started_at_ms persisted_at_ms.

Definition mutate (c : OwnedStorageContext) (o : operation) (operation_id : string) (started_at_ms : N)
    : HostProg StorageRecoveryOperationReceipt :=
  '(inspection_operation_id, part_number, byte_offset) ← hlift (mutation_target c o);
  inspection ← load_journal inspection_operation_id;
  shard ← hlift (inspected_shard c inspection_operation_id part_number byte_offset inspection);
  part ← open_beneath (os_relative_part_path shard);
  _ ← validate_part_identity part (os_shard_device_id shard) (os_shard_inode shard) (os_shard_size_bytes shard);
  observed_original ← hash_file part None;
  _ ← hlift (ensure (bool_decide (observed_original = os_original_sha256 shard)) "shard hash drifted before mutation");
  read ← hcall (CReadAt part byte_offset);
  original ← hlift (context read "short read at shard mutation offset");
  let mutated := N.lxor original CONTROLLED_SHARD_XOR_MASK in
  expected_mutated_sha256 ← hash_file part (Some (byte_offset, mutated));
  _ ← hlift (ensure (negb (bool_decide (expected_mutated_sha256 = observed_original)))
               "controlled shard mutation would not change the shard digest");
  prepared_at_ms ← now_host;
  digest ← hlift (context_sha256 c);
  let j := prepared_journal c digest operation_id o shard byte_offset original mutated observed_original
             expected_mutated_sha256 started_at_ms prepared_at_ms in
  _ ← persist_journal j;
  apply_mutation c o operation_id part shard byte_offset original mutated observed_original
    expected_mutated_sha256 j started_at_ms.

(** ** Terminal states *)
Definition mutation_inspection_source (o : operation) : Result (string * option N) :=
  match o with
  | StorageRecoveryHostOperation.MutateShard inspection_operation_id part_number _ =>
      ok (inspection_operation_id, Some part_number)
  | StorageRecoveryHostOperation.MutateMetadata inspection_operation_id => ok (inspection_operation_id, None)
  | _ => err "source journal is not a supported file mutation"
  end.
(** The two inspections select the same part of the same version, and the later
    one found the original bytes in another inode. *)
Definition superseding_file (c : OwnedStorageContext) (original_op post_op : operation) (part_number : option N)
    (sealed : Result (option N * string)) (original post : OfflineXl2InspectResponse)
    (original_msg post_msg msg : string) : Result OfflineInspectedShard :=
  match original_op with
  | StorageRecoveryHostOperation.InspectXlMeta _ original_bucket original_key original_object_sha256
      original_version original_part original_device original_drive =>
      match post_op with
      | StorageRecoveryHostOperation.InspectXlMeta _ post_bucket post_key post_object_sha256 post_version post_part
          post_device post_drive =>
          '(old_inode, original_sha256) ← sealed;
          original_file ← corruption_file original (oc_case c);
          post_file ← corruption_file post (oc_case c);
          _ ← ensure (bool_decide (original_bucket = post_bucket) && bool_decide (original_key = post_key)
                      && bool_decide (original_object_sha256 = post_object_sha256)
                      && bool_decide (original_version = post_version) && (original_part =? post_part)%N
                      && match part_number with None => true | Some part => (original_part =? part)%N end
                      && bool_decide (original_device = post_device) && bool_decide (original_drive = post_drive)
                      && (os_part_number original_file =? os_part_number post_file)%N
                      && match old_inode with
                         | Some inode => negb (os_shard_inode post_file =? inode)%N
                         | None => false
                         end
                      && bool_decide (os_original_sha256 post_file = original_sha256)
                      && (negb (bool_decide (oc_case c = metadata_case))
                          || bool_decide (os_relative_part_path post_file = os_relative_part_path original_file)
                             && bool_decide (os_original_sha256 (xr_selected_part post)
                                             = os_original_sha256 (xr_selected_part original))))
                msg;
          ok post_file
      | _ => err post_msg
      end
  | _ => err original_msg
  end.
Definition require_restored_shard (j : MutationJournal) (original_sha256 : string) : HostProg unit :=
  path ← hlift (required (mj_relative_part_path j) "journal shard path");
  expected_device ← hlift (required (mj_shard_device_id j) "journal shard device");
  expected_inode ← hlift (context (mj_shard_inode j) "journal lacks shard inode");
  expected_size ← hlift (context (mj_shard_size_bytes j) "journal lacks shard size");
  part ← open_beneath path;
  _ ← validate_part_identity part expected_device expected_inode expected_size;
  digest ← hash_file part None;
  hlift (ensure (bool_decide (digest = original_sha256))
           "terminal restored shard changed before cleanup receipt replay").
Definition require_superseding_shard (c : OwnedStorageContext) (j : MutationJournal) (original_sha256 : string)
    : HostProg unit :=
  '(inspection_operation_id, part_number) ← hlift (mutation_inspection_source (mj_operation j));
  post_operation_id ← hlift (required (mj_terminal_post_inspection_operation_id j)
                               "terminal post inspection operationId");
  original ← load_journal inspection_operation_id;
  post ← load_journal post_operation_id;
  original_ok ← hlift (and_generation ((mj_schema_version original =? 1)%N
                         && bool_decide (mj_state original = JournalState.Completed)) original c true);
  post_ok ← hlift (and_generation (original_ok && (mj_schema_version post =? 1)%N
                         && bool_decide (mj_state post = JournalState.Completed)) post c true);
  _ ← hlift (ensure post_ok "terminal post inspection belongs to another context");
  original_body ← hlift (required (mj_response_body original) "original inspection response body");
  post_body ← hlift (required (mj_response_body post) "post inspection response body");
  _ ← hlift (ensure (digest_bound original original_body && digest_bound post post_body)
               "terminal post inspection response digest mismatch");
  original_response ← hlift (context (inspection_from_str original_body) "decode terminal original inspection response");
  post_response ← hlift (context (inspection_from_str post_body) "decode terminal post inspection response");
  post_file ← hlift (superseding_file c (mj_operation original) (mj_operation post) part_number
                       (ok (mj_shard_inode j, original_sha256)) original_response post_response
                       "terminal source inspection has the wrong operation"
                       "terminal post inspection has the wrong operation"
                       "terminal post inspection does not prove the exact superseding shard");
  part ← open_beneath (os_relative_part_path post_file);
  _ ← validate_part_identity part (os_shard_device_id post_file) (os_shard_inode post_file)
        (os_shard_size_bytes post_file);
  digest ← hash_file part None;
  hlift (ensure (bool_decide (digest = original_sha256))
           "terminal superseding shard changed before cleanup receipt replay").
Definition validate_terminal_repaired_shard (c : OwnedStorageContext) (j : MutationJournal) : HostProg string :=
  original_sha256 ← hlift (required (mj_original_sha256 j) "mutation original digest");
  _ ← hlift (ensure (is_sha256_hex original_sha256) "terminal mutation journal has an invalid original digest");
  _ ← match mj_state j with
      | JournalState.Restored => require_restored_shard j original_sha256
      | JournalState.VerifiedSuperseded => require_superseding_shard c j original_sha256
      | _ => HRet (err "mutation journal is not in a terminal repaired state")
      end;
  mret original_sha256.

(** ** Restoring *)
Definition recovery_receipt (c : OwnedStorageContext) (o : operation) (mutation_operation_id : string)
    (outcome : RestoreOutcome.t) (observed_sha256 : string) (started_at_ms : N)
    : HostProg StorageRecoveryOperationReceipt :=
  operation_id ← hlift (terminal_cleanup_operation_id o);
  completed_receipt_with_id c o
    (recovery_to_string (mkOfflineShardRecoveryResponse mutation_operation_id outcome (Some observed_sha256)))
    started_at_ms operation_id.
(** [quarantine] and the receipt that reports it. *)
Definition quarantine_shard (c : OwnedStorageContext) (o : operation) (mutation_operation_id : string)
    (j : MutationJournal) (reason : string) (observed_sha256 : option string) (started_at_ms : N)
    : HostProg StorageRecoveryOperationReceipt :=
  _ ← quarantine j reason;
  quarantined_receipt c o mutation_operation_id observed_sha256 started_at_ms.
Definition seal_restored (c : OwnedStorageContext) (o : operation) (mutation_operation_id : string)
    (j : MutationJournal) (outcome : RestoreOutcome.t) (original_sha256 : string) (started_at_ms : N)
    : HostProg StorageRecoveryOperationReceipt :=
  updated_at_ms ← now_host;
  _ ← persist_journal (j <| mj_state := JournalState.Restored |> <| mj_updated_at_ms := updated_at_ms |>);
  recovery_receipt c o mutation_operation_id outcome original_sha256 started_at_ms.
(** What the journal says about the file it mutated. *)
Record JournaledShard := mkJournaledShard {
  js_path : string;
  js_device : string;
  js_inode : N;
  js_size : N;
  js_offset : N;
  js_original : N;
  js_mutated : N;
  js_original_sha256 : string;
  js_mutated_sha256 : string;
}.
Definition journaled_shard (j : MutationJournal) : Result JournaledShard :=
  path ← required (mj_relative_part_path j) "journal shard path";
  expected_device ← required (mj_shard_device_id j) "journal shard device";
  expected_inode ← context (mj_shard_inode j) "journal lacks shard inode";
  expected_size ← context (mj_shard_size_bytes j) "journal lacks shard size";
  offset ← context (mj_byte_offset j) "journal lacks byte offset";
  original_byte ← context (mj_original_byte j) "journal lacks original byte";
  mutated_byte ← context (mj_mutated_byte j) "journal lacks mutated byte";
  original_sha256 ← required (mj_original_sha256 j) "journal original digest";
  mutated_sha256 ← required (mj_mutated_sha256 j) "journal mutated digest";
  ok (mkJournaledShard path expected_device expected_inode expected_size offset original_byte mutated_byte
        original_sha256 mutated_sha256).
(** The shard holds the mutated bytes: put the original byte back. *)
Definition restore_byte (c : OwnedStorageContext) (o : operation) (mutation_operation_id : string)
    (j : MutationJournal) (s : JournaledShard) (part : N) (current_sha256 : string) (started_at_ms : N)
    : HostProg StorageRecoveryOperationReceipt :=
  read ← hcall (CReadAt part (js_offset s));
  current ← hlift (context read "short restore read");
  if negb (current =? js_mutated s)%N then
    quarantine_shard c o mutation_operation_id j "mutation byte does not match journal" (Some current_sha256)
      started_at_ms
  else
    written ← hcall (CWriteAt part (js_offset s) (js_original s));
    _ ← hlift (ensure written "short restore pwrite");
    _ ← hcontext "fsync restored shard" (hcall (CSync part));
    _ ← validate_part_identity part (js_device s) (js_inode s) (js_size s);
    restored_sha256 ← hash_file part None;
    if negb (bool_decide (restored_sha256 = js_original_sha256 s)) then
      quarantine_shard c o mutation_operation_id j "post-restore digest differs from the original"
        (Some restored_sha256) started_at_ms
    else
      seal_restored c o mutation_operation_id j RestoreOutcome.Restored (js_original_sha256 s) started_at_ms.
Definition restore_shard (c : OwnedStorageContext) (o : operation) (mutation_operation_id : string)
    (j : MutationJournal) (s : JournaledShard) (started_at_ms : N) : HostProg StorageRecoveryOperationReceipt :=
  part ← open_beneath (js_path s);
  hcatch (validate_part_identity part (js_device s) (js_inode s) (js_size s)) (λ identity,
  match identity with
  | err error =>
      quarantine_shard c o mutation_operation_id j ("identity mismatch: " +:+ error) None started_at_ms
  | panicked => HRet panicked
  | ok _ =>
      current_sha256 ← hash_file part None;
      if bool_decide (current_sha256 = js_original_sha256 s) then
        seal_restored c o mutation_operation_id j RestoreOutcome.AlreadyRepaired (js_original_sha256 s) started_at_ms
      else if bool_decide (current_sha256 = js_mutated_sha256 s) then
        restore_byte c o mutation_operation_id j s part current_sha256 started_at_ms
      else
        quarantine_shard c o mutation_operation_id j
          "shard digest matches neither original nor controlled mutation" (Some current_sha256) started_at_ms
  end).
Definition restore (c : OwnedStorageContext) (o : operation) (mutation_operation_id : string) (started_at_ms : N)
    : HostProg StorageRecoveryOperationReceipt :=
  j ← load_journal mutation_operation_id;
  owned ← hlift (journal_owned j mutation_operation_id c (is_file_mutation (mj_operation j)));
  _ ← hlift (ensure owned "mutation journal is not owned by this exact context");
  match mj_state j with
  | JournalState.Restored | JournalState.VerifiedSuperseded =>
      original_sha256 ← validate_terminal_repaired_shard c j;
      recovery_receipt c o mutation_operation_id RestoreOutcome.AlreadyRepaired original_sha256 started_at_ms
  | JournalState.Prepared | JournalState.Mutated =>
      s ← hlift (journaled_shard j);
      restore_shard c o mutation_operation_id j s started_at_ms
  | _ => HRet (err "mutation journal is not recoverable by this exact context")
  end.

(** ** Verifying a superseded shard *)
Definition verify_superseded (c : OwnedStorageContext) (o : operation) (started_at_ms : N)
    : HostProg StorageRecoveryOperationReceipt :=
  match o with
  | StorageRecoveryHostOperation.VerifySupersededShard mutation_operation_id post_inspection_operation_id =>
      j ← load_journal mutation_operation_id;
      owned ← hlift (journal_owned j mutation_operation_id c (is_file_mutation (mj_operation j)));
      _ ← hlift (ensure owned "superseded-shard source mutation is absent or not owned by this attempt");
      if bool_decide (mj_state j = JournalState.VerifiedSuperseded) then
        _ ← hlift (ensure (bool_decide (mj_terminal_post_inspection_operation_id j = Some post_inspection_operation_id))
                     "terminal superseded-shard journal belongs to another post inspection");
        original_sha256 ← validate_terminal_repaired_shard c j;
        recovery_receipt c o mutation_operation_id RestoreOutcome.VerifiedSuperseded original_sha256 started_at_ms
      else
        _ ← hlift (ensure (bool_decide (mj_state j = JournalState.Mutated)
                           || bool_decide (mj_state j = JournalState.Quarantined))
                     "superseded-shard source mutation is not recoverable");
        '(inspection_operation_id, part_number) ← hlift (mutation_inspection_source (mj_operation j));
        original_inspection ← load_journal inspection_operation_id;
        post_inspection ← load_journal post_inspection_operation_id;
        post_ok ← hlift (and_generation (bool_decide (mj_state original_inspection = JournalState.Completed)
                             && bool_decide (mj_state post_inspection = JournalState.Completed))
                           post_inspection c true);
        _ ← hlift (ensure post_ok "superseded-shard post inspection is not a completed receipt for this context");
        original_body ← hlift (required (mj_response_body original_inspection) "original inspection response body");
        post_body ← hlift (required (mj_response_body post_inspection) "post inspection response body");
        _ ← hlift (ensure (digest_bound original_inspection original_body && digest_bound post_inspection post_body)
                     "superseded-shard inspections are not digest-bound");
        original ← hlift (context (inspection_from_str original_body) "decode original XL2 inspection");
        post ← hlift (context (inspection_from_str post_body) "decode post-heal XL2 inspection");
        post_file ← hlift (superseding_file c (mj_operation original_inspection) (mj_operation post_inspection)
                             part_number
                             (old_inode ← context (mj_shard_inode j) "mutation journal lacks shard inode";
                              original_sha256 ← required (mj_original_sha256 j) "mutation original digest";
                              ok (Some old_inode, original_sha256)) original post
                             "superseded-shard source inspection has the wrong operation"
                             "superseded-shard post inspection has the wrong operation"
                             "post-heal inspection does not prove an exact repaired superseding shard");
        part ← open_beneath (os_relative_part_path post_file);
        _ ← validate_part_identity part (os_shard_device_id post_file) (os_shard_inode post_file)
              (os_shard_size_bytes post_file);
        digest ← hash_file part None;
        _ ← hlift (ensure (bool_decide (digest = os_original_sha256 post_file))
                     "superseding shard changed after the sealed post-heal inspection");
        updated_at_ms ← now_host;
        _ ← persist_journal (j <| mj_state := JournalState.VerifiedSuperseded |> <| mj_reason := None |>
                               <| mj_terminal_post_inspection_operation_id := Some post_inspection_operation_id |>
                               <| mj_updated_at_ms := updated_at_ms |>);
        recovery_receipt c o mutation_operation_id RestoreOutcome.VerifiedSuperseded (os_original_sha256 post_file)
          started_at_ms
  | _ => HRet panicked
  end.
End Mutation.
