(* ===== verification/StorageSession.v ===== *)
(** * The helper session

    [StorageHelperSession] of [src/fault/storage_recovery_helper.rs]: the context it
    is bound to, the check for unresolved journals, the dispatch of an invocation,
    the device-mapper transition with its bounded recovery, the lookup of a
    mutation and the end of the session. An operation returns the session it
    leaves together with its result. *)
From S2P Require Import Prelude RustText RustWords Quorum Msgpack Xl2Inspector.
From S2P Require Import StorageLease StorageOwnership StorageReceipts HostFiles StorageHelper StorageMutation.
From stdpp Require Import options.
Import StorageRecoveryCleanupProof.

(** [s.lines()]. *)
Definition strip_cr (s : string) : string :=
  if ends_with (String "013" EmptyString) s then String.substring 0 (String.length s - 1) s else s.
Definition lines (s : string) : list string :=
  let pieces := split "010" s in
  strip_cr <$> match reverse pieces with EmptyString :: rest => reverse rest | _ => pieces end.
(** [name.strip_suffix(suffix)]. *)
Definition strip_suffix (suffix s : string) : option string :=
  if ends_with suffix s then Some (String.substring 0 (String.length s - String.length suffix) s) else None.

Record StorageHelperSession := mkStorageHelperSession {
  hs_owner : OwnedStorageContext;
  hs_mutation_started : bool;
}.
Global Instance StorageHelperSession_eta : Eta StorageHelperSession := λ s,
  mkStorageHelperSession (hs_owner s) (hs_mutation_started s).
Record StorageHelperInvocation := mkStorageHelperInvocation {
  hi_context : OwnedStorageContext;
  hi_operation : StorageRecoveryHostOperation.t;
}.

Section Session.
Context `{Henv : StorageEnv} `{Hxl2 : Xl2Env} `{Hhelper : HelperEnv}.
Local Abbreviation operation := StorageRecoveryHostOperation.t.

Definition same_session (owner current : OwnedStorageContext) : bool :=
  bool_decide (oc_identity owner = oc_identity current) && bool_decide (oc_case owner = oc_case current)
  && bool_decide (oc_attempt_id owner = oc_attempt_id current)
  && bool_decide (oc_cluster_context owner = oc_cluster_context current)
  && bool_decide (oc_tenant_uid owner = oc_tenant_uid current)
  && bool_decide (oc_scope_sha256 owner = oc_scope_sha256 current)
  && same_storage_volume_generation (oc_volume owner) (oc_volume current)
  && bool_decide (oc_resource_versions owner = oc_resource_versions current)
  && bool_decide (oc_host_generation owner = oc_host_generation current)
  && bool_decide (ea_host_flock (oc_exclusive_access owner) = ea_host_flock (oc_exclusive_access current))
  && bool_decide (kp_name (oc_lease owner) = kp_name (oc_lease current))
  && bool_decide (kp_uid (oc_lease owner) = kp_uid (oc_lease current))
  && bool_decide (kp_holder_identity (oc_lease owner) = kp_holder_identity (oc_lease current))
  && bool_decide (kp_scope_sha256 (oc_lease owner) = kp_scope_sha256 (oc_lease current))
  && (kp_acquired_at_ms (oc_lease owner) =? kp_acquired_at_ms (oc_lease current))%N
  && (kp_renew_at_ms (oc_lease owner) <=? kp_renew_at_ms (oc_lease current))%N
  && bool_decide (oc_helper_pod_name owner = oc_helper_pod_name current)
  && bool_decide (oc_helper_pod_uid owner = oc_helper_pod_uid current).
Definition validate_session_context (owner current : OwnedStorageContext) : HostProg unit :=
  _ ← hlift (validate_context current);
  _ ← hlift (ensure (same_session owner current) "storage helper session ownership or physical target changed");
  now ← now_host;
  hlift (ensure (now <? kp_expires_at_ms (oc_lease current))%N "storage helper session Lease snapshot expired").

(** ** Unresolved journals *)
Definition check_resolved (c : OwnedStorageContext) (digest : string) (j : MutationJournal) : Result unit :=
  if negb (bool_decide (mj_scope_sha256 j = oc_scope_sha256 c)) then ok tt
  else
    _ ← ensure (mj_schema_version j =? 1)%N "existing storage journal has an unsupported schema";
    match mj_state j with
    | JournalState.Completed | JournalState.Restored | JournalState.VerifiedSuperseded => ok tt
    | JournalState.Prepared | JournalState.Mutated =>
        ensure (bool_decide (mj_lease_uid j = kp_uid (oc_lease c))
                && (mj_lease_acquired_at_ms j =? kp_acquired_at_ms (oc_lease c))%N
                && bool_decide (mj_context_sha256 j = digest)
                && bool_decide (mj_holder_identity j = kp_holder_identity (oc_lease c)))
          "unresolved storage mutation does not belong to the current Lease and holder; explicit recovery is required"
    | JournalState.Quarantined =>
        err "quarantined storage mutation requires explicit repair acknowledgement before a new session"
    end.
Definition journal_operation_id (name : string) : option string :=
  rest ← strip_prefix "mutation-" name; strip_suffix ".json" rest.
Fixpoint check_journals (c : OwnedStorageContext) (digest : string) (names : list string) : HostProg unit :=
  match names with
  | [] => mret tt
  | name :: names =>
      match journal_operation_id name with
      | None => check_journals c digest names
      | Some operation_id =>
          j ← hcontext ("validate existing storage journal " +:+ name) (load_journal operation_id);
          _ ← hlift (check_resolved c digest j);
          check_journals c digest names
      end
  end.
Definition ensure_no_unresolved_journals (c : OwnedStorageContext) : HostProg unit :=
  digest ← hlift (context_sha256 c);
  names ← hcall CJournalList;
  check_journals c digest names.

Definition session_begin (c : OwnedStorageContext) : HostProg StorageHelperSession :=
  _ ← hlift (validate_context c);
  now ← now_host;
  _ ← hlift (ensure (now <? kp_expires_at_ms (oc_lease c))%N
               "storage-recovery Kubernetes Lease expired before helper session");
  '(lock_device, lock_inode) ← hcall (CLock ("storage-" +:+ oc_scope_sha256 c +:+ ".lock"));
  _ ← hlift (ensure (bool_decide (lock_device = hf_device_id (ea_host_flock (oc_exclusive_access c)))
                     && (lock_inode =? hf_inode (ea_host_flock (oc_exclusive_access c)))%N)
               "storage helper flock identity differs from the owned context");
  volume_device ← hcall CVolumeRoot;
  _ ← hlift (ensure (bool_decide (volume_device = hg_device_major_minor (oc_host_generation c)))
               "storage helper volume root device differs from the owned context");
  _ ← ensure_no_unresolved_journals c;
  mret (mkStorageHelperSession c false).

(** ** Device-mapper commands *)
Definition run_dmsetup (args : list string) : HostProg DeviceMapperCommandReceipt :=
  started_at_ms ← now_host;
  '(exit_code, stdout, stderr) ← hcall (CDmsetup args);
  completed_at_ms ← now_host;
  mret (mkDeviceMapperCommandReceipt ("dmsetup" :: args) exit_code stdout stderr started_at_ms completed_at_ms).
Definition require_dm_success (r : DeviceMapperCommandReceipt) (action : string) : Result unit :=
  ensure ((dc_exit_code r =? 0)%Z && trim_is_empty (dc_stderr r))
    ("dmsetup " +:+ action +:+ " failed: exit=" +:+ pretty (dc_exit_code r) +:+ " stderr=" +:+ str_debug (dc_stderr r)).
Definition canonical_table (table : string) : Result string :=
  _ ← ensure (negb (contains newline table) || bool_decide (length (lines (trim_end table)) = 1))
        "device-mapper table contains multiple targets";
  let canonical := join " " (split_whitespace table) in
  _ ← ensure (negb (bool_decide (canonical = ""))) "device-mapper table is empty";
  ok canonical.
Definition dm_checked (args : list string) (action : string) : HostProg DeviceMapperCommandReceipt :=
  r ← run_dmsetup args;
  _ ← hlift (require_dm_success r action);
  mret r.
Definition suspend_unless (suspended : bool) (mapping_name : string) : HostProg unit :=
  if suspended then HRet (ok tt)
  else _ ← dm_checked ["suspend"; "--noflush"; mapping_name] "recovery suspend"; HRet (ok tt).
Definition recover_dm_linear (mapping_name recovery_table : string) : HostProg unit :=
  state ← dm_checked ["info"; "--columns"; "--noheadings"; "--options"; "suspended"; mapping_name]
            "recovery state query";
  let shown := to_ascii_lowercase (trim (dc_stdout state)) in
  suspended ← hlift (if bool_decide (shown ∈ ["suspended"; "yes"; "y"; "1"]) then ok true
                     else if bool_decide (shown ∈ ["active"; "no"; "n"; "0"]) then ok false
                     else err ("bounded DM recovery observed unsupported state " +:+ str_debug shown));
  _ ← suspend_unless suspended mapping_name;
  _ ← dm_checked ["reload"; mapping_name; "--table"; recovery_table] "recovery reload";
  _ ← dm_checked ["resume"; mapping_name] "recovery resume";
  observed ← dm_checked ["table"; "--showkeys"; mapping_name] "recovery table query";
  table ← hlift (canonical_table (dc_stdout observed));
  hlift (ensure (bool_decide (table = recovery_table))
           "bounded DM recovery did not restore the exact linear table").
(** The error of a failed transition after the attempt to restore the table. *)
Definition recover_then_fail {A} (mapping_name recovery_table restored : string) (failed : string → string)
    : HostProg A :=
  hcatch (recover_dm_linear mapping_name recovery_table) (λ r,
    match r with
    | ok _ => HRet (err restored)
    | err recovery_error => HRet (err (failed recovery_error))
    | panicked => HRet panicked
    end).
(** Suspend, reload and resume; whether the device was suspended is kept when a
    later command fails. *)
Definition switch_table (mapping_name target_table : string)
    : HostProg (bool * Result (list DeviceMapperCommandReceipt)) :=
  hcatch (run_dmsetup ["suspend"; "--noflush"; mapping_name]) (λ r,
    match r with
    | ok suspend =>
        let started := (dc_exit_code suspend =? 0)%Z in
        hcatch (_ ← hlift (require_dm_success suspend "suspend");
                reload ← dm_checked ["reload"; mapping_name; "--table"; target_table] "reload";
                resume ← dm_checked ["resume"; mapping_name] "resume";
                mret [suspend; reload; resume])
          (λ r, HRet (ok (started, r)))
    | err e => HRet (ok (false, err e))
    | panicked => HRet panicked
    end).
Definition transition_device_mapper (c : OwnedStorageContext) (o : operation) (started_at_ms : N)
    : HostProg StorageRecoveryOperationReceipt :=
  _ ← hlift (ensure (bool_decide (oc_case c = StorageRecoveryCase.StaleDiskReturn))
               "device-mapper transition is restricted to stale-disk-return");
  '(action, mapping_name, generation_sha256, recovery_table, isolation_table) ← hlift (expect (transition_of o));
  plan ← hlift (plan_new mapping_name generation_sha256 recovery_table isolation_table);
  generation ← hlift (host_generation_sha256 (oc_host_generation c));
  _ ← hlift (ensure (bool_decide (generation = generation_sha256)
                     && bool_decide (hg_device_mapper_table_sha256 (oc_host_generation c)
                                     = Some (dp_recovery_table_sha256 plan)))
               "device-mapper transition is not bound to the owned host generation");
  let '(expected_before, target_table) :=
    match action with
    | StaleDeviceMapperAction.Isolate => (dp_recovery_table plan, dp_isolation_table plan)
    | StaleDeviceMapperAction.Reattach => (dp_isolation_table plan, dp_recovery_table plan)
    end in
  before ← run_dmsetup ["table"; "--showkeys"; mapping_name];
  observed_before ← hlift (canonical_table (dc_stdout before));
  _ ← hlift (ensure (bool_decide (observed_before = expected_before))
               "device-mapper table drifted before stale transition");
  outcome ← switch_table mapping_name target_table;
  match snd outcome with
  | panicked => HRet panicked
  | err primary =>
      if fst (outcome : bool * _) then
        recover_then_fail mapping_name (dp_recovery_table plan) "stale DM transition failed; linear table restored"
          (λ e, "stale DM transition failed and bounded linear restore also failed: " +:+ e)
      else HRet (err primary)
  | ok commands =>
      after ← run_dmsetup ["table"; "--showkeys"; mapping_name];
      observed_after ← hlift (canonical_table (dc_stdout after));
      _ ← hlift (require_dm_success after "post-transition table query");
      if negb (bool_decide (observed_after = target_table)) then
        recover_then_fail mapping_name (dp_recovery_table plan) "linear table restored after verification failure"
          (λ e, "bounded linear restore failed after verification failure: " +:+ e)
      else
        completed_receipt c o
          (transition_to_string
             (mkStaleDeviceMapperTransitionResponse action mapping_name generation_sha256
                observed_before (digest_str observed_before) observed_after (digest_str observed_after)
                (before :: commands ++ [after])))
          started_at_ms
  end.

(** ** The generation of the host *)
Definition dm_identity (probe : HostProbe) : HostProg (option string * option string) :=
  '(major, minor) ← hlift (context (split_once ":" (hp_device_major_minor probe))
                             "storage helper device major:minor is malformed");
  info ← dm_checked ["info"; "--columns"; "--noheadings"; "--separator"; "|"; "--options"; "name,uuid"; "-j"; major;
                     "-m"; minor] "host generation query";
  line ← hlift (match lines (trim (dc_stdout info)) with
                | [line] => ok line
                | _ => err "storage helper device-mapper identity is ambiguous"
                end);
  '(mapping_name, uuid) ← hlift (context (split_once "|" line)
                                   "storage helper device-mapper identity is malformed");
  let mapping_name := trim mapping_name in
  let uuid := trim uuid in
  _ ← hlift (ensure (negb (bool_decide (mapping_name = "")) && negb (bool_decide (uuid = "")))
               "storage helper device-mapper identity is empty");
  shown ← dm_checked ["table"; "--showkeys"; mapping_name] "host generation table query";
  table ← hlift (canonical_table (dc_stdout shown));
  mret (Some uuid, Some (digest_str table)).
Definition observe_current_host_generation (c : OwnedStorageContext) (require_format : bool)
    : HostProg HostGenerationIdentity :=
  probe ← host_probe c require_format;
  _ ← hlift (ensure (bool_decide (hp_canonical_device probe = sv_canonical_device (oc_volume c)))
               "storage helper canonical device drifted");
  drive_uuid ← hlift (match hp_rustfs_drive_uuid probe with
                      | Some drive_uuid => ok drive_uuid
                      | None => if negb require_format then ok (hg_rustfs_drive_uuid (oc_host_generation c))
                                else err "storage helper format.json drive UUID is absent"
                      end);
  '(dm_uuid, dm_table) ← (if bool_decide (is_Some (hg_device_mapper_uuid (oc_host_generation c)))
                          then dm_identity probe else HRet (ok (None, None)));
  mret (mkHostGenerationIdentity (hp_mount_id probe) (hp_mount_namespace_id probe) (hp_device_major_minor probe)
          dm_uuid dm_table (hp_filesystem_uuid probe) drive_uuid).

(** ** Executing an invocation *)
Definition checks_generation (o : operation) : bool :=
  match o with
  | StorageRecoveryHostOperation.MutateShard _ _ _ | StorageRecoveryHostOperation.MutateMetadata _
  | StorageRecoveryHostOperation.RestoreShard _ | StorageRecoveryHostOperation.VerifySupersededShard _ _
  | StorageRecoveryHostOperation.DetachDeviceMapper _ _ _ _
  | StorageRecoveryHostOperation.ReattachDeviceMapper _ _ _ _ => true
  | _ => false
  end.
Definition starts_mutation (o : operation) : bool :=
  match o with
  | StorageRecoveryHostOperation.PrepareFreshVolume _ _
  | StorageRecoveryHostOperation.DetachDeviceMapper _ _ _ _
  | StorageRecoveryHostOperation.ReattachDeviceMapper _ _ _ _ => true
  | _ => false
  end.
(** The generation the host must have; reattaching starts from the isolated one. *)
Definition expected_generation (c : OwnedStorageContext) (o : operation) : Result HostGenerationIdentity :=
  match o with
  | StorageRecoveryHostOperation.ReattachDeviceMapper _ _ _ isolation_table =>
      table ← canonical_table isolation_table;
      let g := oc_host_generation c in
      ok (mkHostGenerationIdentity (hg_mount_id g) (hg_mount_namespace_id g) (hg_device_major_minor g)
            (hg_device_mapper_uuid g) (Some (digest_str table)) (hg_filesystem_uuid g) (hg_rustfs_drive_uuid g))
  | _ => ok (oc_host_generation c)
  end.
Definition require_generation (c : OwnedStorageContext) (o : operation) : HostProg unit :=
  if checks_generation o then
    observed ← observe_current_host_generation c (negb (is_reattach o));
    expected ← hlift (expected_generation c o);
    hlift (ensure (bool_decide (observed = expected))
             "storage helper host generation drifted before destructive operation")
  else mret tt.
Definition execute_operation (c : OwnedStorageContext) (o : operation) (mutation_operation_id : string)
    (started_at_ms : N) : HostProg StorageRecoveryOperationReceipt :=
  match o with
  | StorageRecoveryHostOperation.InspectHostGeneration =>
      observed ← observe_current_host_generation c true;
      completed_receipt c o (generation_to_string observed) started_at_ms
  | StorageRecoveryHostOperation.InspectXlMeta _ _ _ _ _ _ _ _ => inspect c o started_at_ms
  | StorageRecoveryHostOperation.MutateShard _ _ _ | StorageRecoveryHostOperation.MutateMetadata _ =>
      mutate c o mutation_operation_id started_at_ms
  | StorageRecoveryHostOperation.RestoreShard restored_operation_id => restore c o restored_operation_id started_at_ms
  | StorageRecoveryHostOperation.VerifySupersededShard _ _ => verify_superseded c o started_at_ms
  | StorageRecoveryHostOperation.PrepareFreshVolume persistent_volume persistent_volume_claim =>
      completed_receipt c o (prepared_to_string persistent_volume persistent_volume_claim) started_at_ms
  | StorageRecoveryHostOperation.DetachDeviceMapper _ _ _ _
  | StorageRecoveryHostOperation.ReattachDeviceMapper _ _ _ _ => transition_device_mapper c o started_at_ms
  end.
Definition mutation_journal_exists (operation_id : string) : HostProg bool :=
  name ← hlift (journal_name operation_id);
  names ← hcontext "inspect storage mutation journal after helper rejection" (hcall CJournalList);
  mret (bool_decide (name ∈ names)).
(** [self.mutation_started = result.is_ok() || exists(...).unwrap_or(true)]. *)
Definition note_mutation (s : StorageHelperSession) (operation_id : string)
    (result : Result StorageRecoveryOperationReceipt)
    : HostProg (StorageHelperSession * Result StorageRecoveryOperationReceipt) :=
  if is_ok result then mret (s <| hs_mutation_started := true |>, result)
  else hcatch (mutation_journal_exists operation_id) (λ exists_,
         mret (s <| hs_mutation_started := match exists_ with ok b => b | _ => true end |>, result)).
Definition execute_with_mutation_operation_id (s : StorageHelperSession) (invocation : StorageHelperInvocation)
    (mutation_operation_id : string) : HostProg (StorageHelperSession * Result StorageRecoveryOperationReceipt) :=
  let c := hi_context invocation in
  let o := hi_operation invocation in
  hcatch (_ ← hlift (uuid_context mutation_operation_id "storage helper mutation operationId is not a UUID");
          _ ← validate_session_context (hs_owner s) c;
          _ ← hlift (validate_operation o);
          started_at_ms ← now_host;
          _ ← require_generation c o;
          mret started_at_ms)
    (λ started,
      match started with
      | err e => mret (s, err e)
      | panicked => HRet panicked
      | ok started_at_ms =>
          let s := if starts_mutation o then s <| hs_mutation_started := true |> else s in
          hcatch (execute_operation c o mutation_operation_id started_at_ms) (λ result,
            if is_file_mutation o then note_mutation s mutation_operation_id result else mret (s, result))
      end).
Definition session_execute (s : StorageHelperSession) (invocation : StorageHelperInvocation)
    : HostProg (StorageHelperSession * Result StorageRecoveryOperationReceipt) :=
  operation_id ← hcall CNewUuid;
  execute_with_mutation_operation_id s invocation operation_id.
Definition execute_mutation_with_id (s : StorageHelperSession) (invocation : StorageHelperInvocation)
    (operation_id : string) : HostProg (StorageHelperSession * Result StorageRecoveryOperationReceipt) :=
  if is_file_mutation (hi_operation invocation) then execute_with_mutation_operation_id s invocation operation_id
  else mret (s, err "explicit helper operationId is restricted to shard mutation").

(** ** Looking a mutation up *)
Definition validate_lookup (l : MutationJournalLookup) (c : OwnedStorageContext) (operation_id : string)
    (o : operation) : Result unit :=
  _ ← ensure (bool_decide (ml_operation_id l = operation_id) && bool_decide (ml_operation l = o)
              && is_file_mutation o && (kp_acquired_at_ms (oc_lease c) <=? ml_observed_at_ms l)%N)
        "mutation lookup does not match the owned operation";
  match ml_receipt l with
  | Some receipt =>
      _ ← validate_receipt receipt c o;
      ensure (bool_decide (or_operation_id receipt = operation_id)
              && match ml_state l with
                 | MutationRecoveryState.Mutated | MutationRecoveryState.Restored
                 | MutationRecoveryState.VerifiedSuperseded => true
                 | _ => false
                 end)
        "mutation lookup receipt does not describe a completed mutation"
  | None =>
      ensure (bool_decide (ml_state l = MutationRecoveryState.Prepared))
        "mutation lookup omitted a receipt outside the prepared state"
  end.
Definition recovery_state (s : JournalState.t) : Result MutationRecoveryState.t :=
  match s with
  | JournalState.Prepared => ok MutationRecoveryState.Prepared
  | JournalState.Mutated => ok MutationRecoveryState.Mutated
  | JournalState.Restored => ok MutationRecoveryState.Restored
  | JournalState.VerifiedSuperseded => ok MutationRecoveryState.VerifiedSuperseded
  | JournalState.Quarantined => ok MutationRecoveryState.Quarantined
  | JournalState.Completed => err "mutation lookup journal has an invalid state"
  end.
Definition journaled_receipt (c : OwnedStorageContext) (operation_id : string) (j : MutationJournal)
    : HostProg StorageRecoveryOperationReceipt :=
  response_body ← hlift (required (mj_response_body j) "mutation response body");
  _ ← hlift (ensure (digest_bound j response_body) "mutation lookup response digest mismatch");
  make_receipt c (mj_operation j) operation_id response_body (mj_started_at_ms j) (mj_updated_at_ms j).
Definition query_mutation (s : StorageHelperSession) (c : OwnedStorageContext) (operation_id : string)
    : HostProg MutationJournalLookup :=
  _ ← hlift (uuid_context operation_id "storage helper mutation lookup operationId is not a UUID");
  _ ← validate_session_context (hs_owner s) c;
  j ← load_journal operation_id;
  owned ← hlift (journal_owned j operation_id c (is_file_mutation (mj_operation j)));
  _ ← hlift (ensure owned "mutation lookup journal belongs to another operation or context");
  state ← hlift (recovery_state (mj_state j));
  receipt ← (if bool_decide (state = MutationRecoveryState.Prepared) then HRet (ok None)
             else r ← journaled_receipt c operation_id j; HRet (ok (Some r)));
  observed_at_ms ← now_host;
  let lookup := mkMutationJournalLookup operation_id (mj_operation j) state receipt observed_at_ms in
  _ ← hlift (validate_lookup lookup c operation_id (mj_operation j));
  mret lookup.

(** ** Ending the session *)
Definition is_abort (p : StorageRecoveryCleanupProof.t) : bool :=
  match p with AbortedBeforeMutation _ => true | _ => false end.
Definition session_finish (s : StorageHelperSession) (c : OwnedStorageContext) (cleanup : StorageRecoveryCleanupProof.t)
    : HostProg unit :=
  _ ← validate_session_context (hs_owner s) c;
  _ ← hlift (ensure (negb (is_abort cleanup) || negb (hs_mutation_started s))
               "pre-mutation abort proof cannot close a helper session after mutation began");
  hlift (cleanup_validate_for cleanup c).
End Session.
