(* ===== verification/StorageMutationFacts.v ===== *)
(** * Crash safety of controlled mutations

    One mutation attempt, cut off anywhere and with any calls failing, followed
    by any sequence of crashes and restore attempts: the shard holds its original
    bytes or differs in the journalled byte, and in the second case the journal is
    durable and unresolved. *)
From S2P Require Import Prelude RustText RustWords Quorum Msgpack Xl2Inspector.
From S2P Require Import StorageLease StorageOwnership StorageReceipts HostFiles StorageHelper StorageMutation.
From stdpp Require Import options.

Section Journals.
Context `{Henv : StorageEnv} `{Hxl2 : Xl2Env} `{Hhelper : HelperEnv}.
Global Instance helper_names : JournalNames :=
  λ id, match journal_name id with ok name => Some name | _ => None end.

Lemma journal_name_head id name : journal_name id = ok name → ∃ rest, name = String "m" rest.
Proof. intros (u & _ & [= <-])%bind_context_ok. by eexists. Qed.
Lemma temporary_differs id name final : journal_name id = ok name → name ≠ temporary_of final.
Proof. intros (rest & ->)%journal_name_head. unfold temporary_of. rewrite append_cons. by intros [=]. Qed.

(** ** Persisting a journal *)
Section Persist.
Context (name : string).

Definition quiet (h h' : Host) : Prop :=
  h_paths h' = h_paths h ∧ h_inodes h' = h_inodes h ∧
  h_journal h' !! name = h_journal h !! name ∧ h_journal_durable h' !! name = h_journal_durable h !! name.
Definition new_entry (h : Host) (final : string) (bytes : list N) : option JournalFile :=
  if decide (final = name) then Some (mkJournalFile bytes true) else h_journal h !! name.
(** The file is renamed; the directory may be synced. *)
Definition published (h h' : Host) (final : string) (bytes : list N) (synced : bool) : Prop :=
  h_paths h' = h_paths h ∧ h_inodes h' = h_inodes h ∧
  h_journal h' !! name = new_entry h final bytes ∧
  h_journal_durable h' !! name = if synced then h_journal h' !! name else h_journal_durable h !! name.

Lemma quiet_refl h : quiet h h.
Proof. done. Qed.
Lemma quiet_trans h h1 h2 : quiet h h1 → quiet h1 h2 → quiet h h2.
Proof. unfold quiet. intuition congruence. Qed.
Lemma quiet_insert h temp f : name ≠ temp → quiet h (h <| h_journal ::= <[temp := f]> |>).
Proof. intros Hne. split_and!; [done..| |done]. cbn. by rewrite lookup_insert_ne. Qed.
Lemma quiet_alter h temp g : name ≠ temp → quiet h (h <| h_journal ::= alter g temp |>).
Proof. intros Hne. split_and!; [done..| |done]. cbn. by rewrite lookup_alter_ne. Qed.
Lemma quiet_delete h temp : name ≠ temp → quiet h (h <| h_journal ::= delete temp |>).
Proof. intros Hne. split_and!; [done..| |done]. cbn. by rewrite lookup_delete_ne. Qed.

Context (I : Host → Prop) (j : MutationJournal) (h : Host) (final : string).
Context (Hfinal : journal_name (mj_operation_id j) = ok final) (Htemp : name ≠ temporary_of final).
Context (Hquiet : ∀ h', quiet h h' → I h').
Local Abbreviation temp := (temporary_of final).

Lemma unlink_ok {A} msg (P : A → Host → Prop) h1 : quiet h h1 → hok I P (unlink_then_fail temp msg) h1.
Proof using Hquiet Htemp.
  intros Hq. apply hok_catch, hwp_call; [auto|]. intros r h' Hc%call_step_inv.
  assert (quiet h h') as Hq'.
  { destruct r; cbn in Hc; [|destruct Hc as [->|[]]; done|done]. subst h'.
    eapply quiet_trans; [done|by apply quiet_delete]. }
  split; [auto|]. intros _. apply hok_ret; [auto|done].
Qed.

(** The temporary file is written and synced. *)
Definition staged (r : Result unit) (h1 : Host) : Prop :=
  quiet h h1 ∧ ∀ u, r = ok u → ∃ bytes, journal_to_vec j = Some bytes ∧
    h_journal h1 !! temp = Some (mkJournalFile bytes true).
Lemma stage_ok h1 : quiet h h1 →
  hwp I staged
    (body ← hlift (context (journal_to_vec j) serde_error);
     _ ← hcall (CJournalWrite temp body);
     hcontext "fsync storage mutation journal" (hcall (CJournalSync temp))) h1.
Proof using Hquiet Htemp.
  intros Hq. destruct (journal_to_vec j) as [bytes|] eqn:Hb; [|by split; [auto|]].
  apply hwp_bind, hwp_ret; [auto|]. apply hwp_bind, hwp_call; [auto|]. intros r h2 Hc%call_step_inv.
  assert (quiet h h2) as Hq2.
  { destruct r; cbn in Hc; [subst h2|destruct Hc as [->|[torn ->]]|done]; eapply quiet_trans; try done;
      by apply quiet_insert. }
  split; [auto|]. destruct r as [[]|msg|]; [|by split; [auto|]..]. cbn in Hc. subst h2.
  apply hwp_context, hwp_call; [auto|]. intros r h3 Hc%call_step_inv.
  assert (quiet h h3) as Hq3.
  { destruct r; cbn in Hc; [subst h3|destruct Hc as [->|[]]; done|done]. eapply quiet_trans; [exact Hq2|].
    by apply quiet_alter. }
  split; [auto|]. destruct r as [[]|msg|]; cbn in Hc; (split; [done|]); intros u [=]. subst h3. exists bytes.
  split; [done|]. cbn. rewrite lookup_alter_eq, lookup_insert_eq. done.
Qed.

Lemma persist_ok (P : unit → Host → Prop) :
  (∀ bytes h' synced, journal_to_vec j = Some bytes → published h h' final bytes synced →
     I h' ∧ (synced = true → P tt h')) →
  hok I P (persist_journal j) h.
Proof using Hfinal Hquiet Htemp.
  intros Hpub. unfold persist_journal. rewrite Hfinal.
  apply hok_bind_ret; [by apply Hquiet|]. intros ? [= <-].
  apply hok_bind_ret; [by apply Hquiet|]. intros _ _.
  apply hok_bind, hok_context, hok_call; [by apply Hquiet|]. intros r h1 Hc%call_step_inv.
  assert (quiet h h1) as Hq1.
  { destruct r; cbn in Hc; [subst h1; by apply quiet_insert|destruct Hc as [->|[]]; done|done]. }
  split; [auto|]. intros [] ->. clear Hc. apply hok_catch. eapply hwp_mono; [|by apply stage_ok].
  intros r h2 [Hq2 Hstaged] _. destruct r as [[]|msg|]; [|by apply unlink_ok..].
  destruct (Hstaged tt eq_refl) as (bytes & Hb & Hf). clear Hstaged.
  apply hok_catch, hwp_call; [auto|]. intros r h3 Hc%call_step_inv.
  destruct r as [[]|msg|]; cbn in Hc; [|destruct Hc as [->|[]]|done].
  2: { split; [auto|]. intros _. by apply unlink_ok. }
  destruct Hc as (f & Hf' & ->). rewrite Hf in Hf'. injection Hf' as <-.
  set (h3 := h2 <| h_journal ::= λ m, <[final := mkJournalFile bytes true]> (delete temp m) |>).
  assert (published h h3 final bytes false) as Hp3.
  { destruct Hq2 as (Hp & Hn & Hj & Hd). split_and!; [done..| |done]. cbn. unfold new_entry.
    case_decide as Hd'; [subst; by rewrite lookup_insert_eq|]. rewrite lookup_insert_ne by done.
    by rewrite lookup_delete_ne by done. }
  destruct (Hpub _ _ _ Hb Hp3) as [Hi3 _]. split; [done|]. intros _.
  apply hok_context, hok_call; [done|]. intros r h4 Hc%call_step_inv.
  destruct r as [[]|msg|]; cbn in Hc; [subst h4|destruct Hc as [->|[]]; done|done].
  destruct Hp3 as (Hp & Hn & Hj & _).
  destruct (Hpub bytes (h3 <| h_journal_durable := h_journal h3 |>) true Hb) as [Hi4 HP]; [done|].
  split; [done|]. intros [] _. by apply HP.
Qed.
End Persist.

(** ** Reading *)
Definition loaded (h : Host) (id : string) (j : MutationJournal) : Prop :=
  ∃ name f, journal_name id = ok name ∧ h_journal h !! name = Some f ∧ journal_from_slice (jf_bytes f) = Some j.
Section Reading.
Context (I : Host → Prop) (h : Host) (Hi : I h).

Lemma load_journal_ok (P : MutationJournal → Host → Prop) id :
  (∀ j, loaded h id j → P j h) → hok I P (load_journal id) h.
Proof using Hi.
  intros HP. unfold load_journal. apply hok_bind_ret; [done|]. intros name Hname.
  apply hok_bind_ret; [done|]. intros _ _. apply hok_bind, hok_context, hok_silent; [done..|]. intros [] _.
  apply hok_bind, hok_silent; [done..|]. intros bytes (_ & f & Hf & ->)%answers_inv.
  unfold check_limited. apply hok_bind_ret; [done|]. intros _ _. apply hok_bind_ret; [done|]. intros _ _.
  apply hok_bind, hok_value; [done|]. apply hok_bind_ret; [done|]. intros _ [Hlen _]%ensure_ok%andb_true_iff.
  apply hok_ret; [done|]. intros j Hj%context_ok. apply HP. exists name, f. split_and!; [done..|].
  rewrite take_ge in Hj; [done|]. apply N.eqb_eq in Hlen. unfold len in Hlen. rewrite length_take in Hlen. lia.
Qed.
Lemma open_beneath_ok (P : N → Host → Prop) path :
  (∀ fd, h_paths h !! path = Some fd → P fd h) → hok I P (open_beneath path) h.
Proof using Hi.
  intros HP. unfold open_beneath. apply hok_bind_ret; [done|]. intros _ _. apply hok_context, hok_silent; [done..|].
  intros fd [_ Hfd]%answers_inv. by apply HP.
Qed.
Lemma hash_file_ok (P : string → Host → Prop) fd substitute :
  (∀ i, h_inodes h !! fd = Some i → P (sha256_bytes (substituted substitute (in_bytes i))) h) →
  hok I P (hash_file fd substitute) h.
Proof using Hi.
  intros HP. apply hok_bind, hok_silent; [done..|]. intros bytes (_ & i & Hfd & ->)%answers_inv.
  apply hok_value; [done|]. by apply HP.
Qed.
Lemma validate_part_identity_ok (P : unit → Host → Prop) fd device inode size :
  (∀ i, h_inodes h !! fd = Some i → in_device i = device → fd = inode → len (in_bytes i) = size → P tt h) →
  hok I P (validate_part_identity fd device inode size) h.
Proof using Hi.
  intros HP. apply hok_bind, hok_context, hok_silent; [done..|]. intros m (_ & i & Hfd & ->)%answers_inv.
  apply hok_bind_ret; [done|]. intros _ _. apply hok_bind_ret; [done|]. intros _ _.
  apply hok_ret; [done|]. intros [] [[Hd%bool_decide_eq_true Hn%N.eqb_eq]%andb_true_iff Hs%N.eqb_eq]%ensure_ok%andb_true_iff.
  by apply (HP i).
Qed.
(** The identity check reads only; its failure is an ordinary result. *)
Lemma validate_part_identity_any (Q : Result unit → Host → Prop) fd device inode size :
  (∀ r, r ≠ panicked → Q r h) → hwp I Q (validate_part_identity fd device inode size) h.
Proof using Hi.
  intros HQ. apply hwp_bind, hwp_context, hwp_call; [done|]. intros r h' Hc.
  pose proof (silent_step h (CStat fd) r h' eq_refl Hc) as ->. apply call_step_inv in Hc. split; [done|].
  destruct r as [m|msg|]; [|by apply HQ|done].
  destruct (fm_is_file m); cbn; [|by split; [done|apply HQ]].
  destruct (fm_nlink m =? 1)%N; cbn; [|by split; [done|apply HQ]].
  split; [done|]. apply HQ. by destruct (_ && _).
Qed.
Lemma now_ok (P : N → Host → Prop) : (∀ t, P t h) → hok I P now_host h.
Proof using Hi. intros HP. apply hok_silent; [done..|]. intros t _. apply HP. Qed.
Lemma make_receipt_ok (P : StorageRecoveryOperationReceipt → Host → Prop) c o id body started persisted :
  (∀ r, or_response_body r = body → or_operation_id r = id → P r h) →
  hok I P (make_receipt c o id body started persisted) h.
Proof using Hi.
  intros HP. apply hok_bind, now_ok. intros t. apply hok_bind_ret; [done|]. intros digest _.
  apply hok_bind_ret; [done|]. intros _ _. apply hok_value; [done|]. by apply HP.
Qed.
End Reading.

(** ** The flipped byte *)
Record Flip := mkFlip {
  fl_path : string;
  fl_ino : N;
  fl_inode : Inode;
  fl_offset : N;
  fl_original : N;
}.
Definition fl_mutated (m : Flip) : N := N.lxor (fl_original m) CONTROLLED_SHARD_XOR_MASK.
Definition original_bytes (m : Flip) : list N := in_bytes (fl_inode m).
Definition mutated_bytes (m : Flip) : list N := <[N.to_nat (fl_offset m) := fl_mutated m]> (original_bytes m).
Definition shard_with (m : Flip) (cached durable : list N) : Inode :=
  mkInode (in_device (fl_inode m)) (in_regular (fl_inode m)) (in_nlink (fl_inode m)) cached durable.
Definition journaled (m : Flip) : JournaledShard :=
  mkJournaledShard (fl_path m) (in_device (fl_inode m)) (fl_ino m) (len (original_bytes m)) (fl_offset m)
    (fl_original m) (fl_mutated m) (sha256_bytes (original_bytes m)) (sha256_bytes (mutated_bytes m)).

Context (h0 : Host) (id name : string).
Context (Hname : journal_name id = ok name).
Context (journal_roundtrip : ∀ j bytes, journal_to_vec j = Some bytes → journal_from_slice bytes = Some j).
(** At the start the volume is written back and the operation id is unused. *)
Definition clean_host : Prop :=
  (∀ fd i, h_inodes h0 !! fd = Some i → in_durable i = in_bytes i) ∧
  h_journal h0 !! name = None ∧ h_journal_durable h0 !! name = None.
Context (Hclean : clean_host).

Definition flip_of_host (m : Flip) : Prop :=
  h_paths h0 !! fl_path m = Some (fl_ino m) ∧ h_inodes h0 !! fl_ino m = Some (fl_inode m) ∧
  original_bytes m !! N.to_nat (fl_offset m) = Some (fl_original m) ∧
  sha256_bytes (mutated_bytes m) ≠ sha256_bytes (original_bytes m).
Definition either (m : Flip) (b : list N) : Prop := b = original_bytes m ∨ b = mutated_bytes m.
Definition volume_of (m : Flip) (b d : list N) (h : Host) : Prop :=
  h_paths h = h_paths h0 ∧ h_inodes h = <[fl_ino m := shard_with m b d]> (h_inodes h0).

Definition describes (m : Flip) (states : list JournalState.t) (j : MutationJournal) : Prop :=
  mj_operation_id j = id ∧ journaled_shard j = ok (journaled m) ∧ mj_state j ∈ states.
Definition entry_in (m : Flip) (states : list JournalState.t) (e : option JournalFile) : Prop :=
  ∃ f j, e = Some f ∧ jf_synced f = true ∧ journal_from_slice (jf_bytes f) = Some j ∧ describes m states j.
Definition unresolved : list JournalState.t := [JournalState.Prepared; JournalState.Mutated; JournalState.Quarantined].
Definition known : list JournalState.t := JournalState.Restored :: unresolved.
Definition both_in (m : Flip) (states : list JournalState.t) (h : Host) : Prop :=
  entry_in m states (h_journal h !! name) ∧ entry_in m states (h_journal_durable h !! name).
Definition absent_or (m : Flip) (e : option JournalFile) : Prop := e = None ∨ entry_in m known e.
Definition settled_entries (m : Flip) (h : Host) : Prop :=
  absent_or m (h_journal h !! name) ∧ absent_or m (h_journal_durable h !! name).

Definition tracked (m : Flip) (h : Host) : Prop :=
  ∃ b d, volume_of m b d h ∧ either m b ∧ either m d ∧
    (both_in m unresolved h ∨ (b = original_bytes m ∧ d = original_bytes m ∧ settled_entries m h)).
Definition safe (h : Host) : Prop := quiet name h0 h ∨ ∃ m, flip_of_host m ∧ tracked m h.

(** *** Entries *)
Lemma entry_mono m s1 s2 e : s1 ⊆ s2 → entry_in m s1 e → entry_in m s2 e.
Proof. intros Hs (f & j & ? & ? & ? & ? & ? & ?). exists f, j. split_and!; [done..|]. split_and!; [done..|]. by apply Hs. Qed.
Lemma unresolved_known m e : entry_in m unresolved e → entry_in m known e.
Proof. apply entry_mono. intros x Hx. unfold known. by right. Qed.
Lemma both_settled m h : both_in m unresolved h → settled_entries m h.
Proof. intros [Hc Hd]. split; right; by apply unresolved_known. Qed.
Lemma entry_of_journal m states j bytes :
  journal_to_vec j = Some bytes → describes m states j → entry_in m states (Some (mkJournalFile bytes true)).
Proof using journal_roundtrip. intros Hb Hj. by exists (mkJournalFile bytes true), j; split_and!; auto. Qed.
Lemma survives_entry m states e e' : entry_in m states e → survives e e' → entry_in m states e'.
Proof.
  intros (f & j & -> & Hs & Hd & Hj) (f1 & -> & Hs1 & Hb). exists f1, j. rewrite (Hb Hs). done.
Qed.
Lemma survives_absent m e e' : absent_or m e → survives e e' → absent_or m e'.
Proof. intros [->|He] Hs; [by left|right]. by eapply survives_entry. Qed.

(** *** The volume *)
Lemma shard_with_original m : flip_of_host m → shard_with m (original_bytes m) (original_bytes m) = fl_inode m.
Proof using Hclean.
  intros (_ & Hi & _). destruct Hclean as [Hc _]. apply Hc in Hi. unfold shard_with, original_bytes.
  destruct (fl_inode m). cbn in *. by subst.
Qed.
Lemma quiet_volume m h : flip_of_host m → quiet name h0 h → volume_of m (original_bytes m) (original_bytes m) h.
Proof using Hclean.
  intros Hm (Hp & Hi & _). split; [done|]. rewrite Hi, shard_with_original by done.
  symmetry. apply insert_id. apply Hm.
Qed.
Lemma volume_shard m b d h : volume_of m b d h → h_inodes h !! fl_ino m = Some (shard_with m b d).
Proof. intros [_ ->]. by rewrite lookup_insert_eq. Qed.
Lemma volume_open m b d h fd : flip_of_host m → volume_of m b d h → h_paths h !! fl_path m = Some fd → fd = fl_ino m.
Proof. intros (Hp & _) [-> _] Hfd. congruence. Qed.
Lemma volume_write m b d h k v :
  volume_of m b d h → volume_of m (<[N.to_nat k := v]> b) d (write_byte h (fl_ino m) k v).
Proof.
  intros [Hp Hi]. split; [done|]. unfold write_byte. cbn. rewrite Hi, alter_insert_eq. f_equal.
Qed.
Lemma volume_sync m b d h : volume_of m b d h → volume_of m b b (sync_inode h (fl_ino m)).
Proof. intros [Hp Hi]. split; [done|]. unfold sync_inode. cbn. rewrite Hi, alter_insert_eq. f_equal. Qed.
Lemma mutate_either m b : either m b → <[N.to_nat (fl_offset m) := fl_mutated m]> b = mutated_bytes m.
Proof. intros [->| ->]; [done|]. unfold mutated_bytes. by rewrite list_insert_insert_eq. Qed.
Lemma restore_either m b : flip_of_host m → either m b →
  <[N.to_nat (fl_offset m) := fl_original m]> b = original_bytes m.
Proof.
  intros (_ & _ & Ho & _) [->| ->]; [by apply list_insert_id|]. unfold mutated_bytes.
  rewrite list_insert_insert_eq. by apply list_insert_id.
Qed.
Lemma either_digest m b : flip_of_host m → either m b →
  sha256_bytes b = sha256_bytes (original_bytes m) → b = original_bytes m.
Proof. intros (_ & _ & _ & Hne) [->| ->]; [done|]. intros H. by destruct Hne. Qed.
Lemma length_mutated m : length (mutated_bytes m) = length (original_bytes m).
Proof. apply length_insert. Qed.
Lemma length_either m b : either m b → length b = length (original_bytes m).
Proof. intros [->| ->]; [done|apply length_mutated]. Qed.

(** A crash leaves the shard with one of the two contents. *)
Lemma either_mixed m b d b' : either m b → either m d → length b' = length b →
  (∀ k, b' !! k = b !! k ∨ b' !! k = d !! k) → either m b'.
Proof.
  intros Hb Hd Hlen Hk.
  assert (∀ k, k ≠ N.to_nat (fl_offset m) → b' !! k = original_bytes m !! k) as Hother.
  { assert (∀ x k, either m x → k ≠ N.to_nat (fl_offset m) → x !! k = original_bytes m !! k) as Hx.
    { intros x k [->| ->] Hne; [done|]. unfold mutated_bytes. by rewrite list_lookup_insert_ne. }
    intros k Hne. destruct (Hk k) as [->| ->]; by apply Hx. }
  assert (∃ x, either m x ∧ b' !! N.to_nat (fl_offset m) = x !! N.to_nat (fl_offset m)) as (x & Hx & Heq)
    by (destruct (Hk (N.to_nat (fl_offset m))); eauto).
  assert (b' = x) as ->; [|done]. apply list_eq. intros k.
  destruct (decide (k = N.to_nat (fl_offset m))) as [->|Hne]; [done|]. rewrite Hother by done.
  destruct Hx as [->| ->]; [done|]. unfold mutated_bytes. by rewrite list_lookup_insert_ne.
Qed.
Lemma clean_settles i i' : in_durable i = in_bytes i → settles i i' → i' = i.
Proof.
  intros Hc (Hd & Hr & Hl & Hb & Hlen & Hk).
  assert (in_bytes i' = in_bytes i) as Heq.
  { apply list_eq. intros k. destruct (Hk k) as [->| ->]; [done|by rewrite Hc]. }
  destruct i, i'; cbn in *. by subst.
Qed.
Lemma volume_crashed m b d h h' : flip_of_host m → volume_of m b d h → either m b → either m d → crashed h h' →
  ∃ b', volume_of m b' b' h' ∧ either m b' ∧ (b = original_bytes m → d = original_bytes m → b' = original_bytes m).
Proof using Hclean.
  intros Hm [Hp Hi] Hb Hd (Hp' & _ & Hs & _).
  pose proof (Hs (fl_ino m)) as Hshard. rewrite Hi, lookup_insert_eq in Hshard.
  inversion Hshard as [i1 i' Hset Heq0 Heqi|]; subst i1. destruct Hset as (Hdev & Hreg & Hlk & Hdur & Hlen & Hk).
  cbn in Hdev, Hreg, Hlk, Hlen, Hk. exists (in_bytes i'). split_and!.
  - split; [congruence|]. apply map_eq. intros fd. destruct (decide (fd = fl_ino m)) as [->|Hne].
    + rewrite lookup_insert_eq, <-Heqi. f_equal. unfold shard_with.
      destruct i'. cbn in Hdev, Hreg, Hlk, Hdur |- *. congruence.
    + rewrite lookup_insert_ne by done. specialize (Hs fd). rewrite Hi, lookup_insert_ne in Hs by done.
      inversion Hs as [i1 i2 Hset Heq1 Heq2|Heq1 Heq2]; [|done]. f_equal.
      apply clean_settles; [|done]. destruct Hclean as [Hc _]. by apply (Hc fd).
  - by apply (either_mixed m b d (in_bytes i')); [done|done|exact Hlen|exact Hk].
  - intros -> ->. apply list_eq. intros k. by destruct (Hk k).
Qed.

Lemma tracked_crashed m h h' : flip_of_host m → tracked m h → crashed h h' → tracked m h'.
Proof using Hclean.
  intros Hm (b & d & Hv & Hb & Hd & Hcase) Hcr. pose proof Hcr as (_ & Hjd & _ & Hj).
  destruct (volume_crashed m b d h h' Hm Hv Hb Hd Hcr) as (b' & Hv' & Hb' & Horig).
  exists b', b'. split_and!; [done..|]. unfold both_in, settled_entries. rewrite Hjd.
  destruct Hcase as [[Hc He]|(-> & -> & [Hc He])]; [left|right].
  - destruct (Hj name) as [Hs|Hs]; split;
      first [exact (survives_entry _ _ _ _ Hc Hs)|exact (survives_entry _ _ _ _ He Hs)].
  - split_and!; [by apply Horig..| |]; destruct (Hj name) as [Hs|Hs];
      first [exact (survives_absent _ _ _ Hc Hs)|exact (survives_absent _ _ _ He Hs)].
Qed.
Lemma quiet_crashed h h' : quiet name h0 h → crashed h h' → quiet name h0 h'.
Proof using Hclean.
  intros (Hp & Hi & Hj & Hd) (Hp' & Hjd & Hs & Hs'). destruct Hclean as (Hc & Hn1 & Hn2).
  assert (h_journal h' !! name = None) as Hnone.
  { rewrite Hn1 in Hj. rewrite Hn2 in Hd. destruct (Hs' name) as [Hx|Hx]; [rewrite Hj in Hx|rewrite Hd in Hx]; done. }
  split_and!; [congruence| |congruence|by rewrite Hjd, Hnone].
  apply map_eq. intros fd. specialize (Hs fd). rewrite Hi in Hs.
  inversion Hs as [i1 i2 Hset Heq1 Heq2|Heq1 Heq2]; [|done]. f_equal. apply clean_settles; [by apply (Hc fd)|done].
Qed.
Lemma safe_crashed h h' : safe h → crashed h h' → safe h'.
Proof using Hclean.
  intros [Hq|(m & Hm & Ht)] Hc; [left; by eapply quiet_crashed|right]. exists m. split; [done|].
  by eapply tracked_crashed.
Qed.

(** ** Persisting under the invariant *)
Lemma tracked_unresolved m b d h : volume_of m b d h → either m b → either m d → both_in m unresolved h → tracked m h.
Proof. intros Hv Hb Hd Hj. exists b, d. split_and!; [done..|]. by left. Qed.
Lemma tracked_original m h :
  volume_of m (original_bytes m) (original_bytes m) h → settled_entries m h → tracked m h.
Proof. intros Hv Hj. exists (original_bytes m), (original_bytes m). split_and!; [done|by left|by left|]. by right. Qed.
Lemma volume_quiet m b d h h' : volume_of m b d h → quiet name h h' → volume_of m b d h'.
Proof. intros [Hp Hi] (Hp' & Hi' & _). split; congruence. Qed.
Lemma volume_published m b d h h' final bytes synced :
  volume_of m b d h → published name h h' final bytes synced → volume_of m b d h'.
Proof. intros [Hp Hi] (Hp' & Hi' & _). split; congruence. Qed.

(** The journal of the mutation itself, over unresolved ones. *)
Lemma persist_over m b d h j states (P : unit → Host → Prop) :
  flip_of_host m → volume_of m b d h → either m b → either m d → both_in m unresolved h →
  describes m states j → states ⊆ unresolved →
  (∀ h', volume_of m b d h' → both_in m states h' → P tt h') → hok safe P (persist_journal j) h.
Proof using Hname journal_roundtrip.
  intros Hm Hv Hb Hd [Hc He] Hj Hsub HP. pose proof Hj as (Hid & _).
  apply (persist_ok name safe j h name); [by rewrite Hid|by eapply temporary_differs|..].
  - intros h' Hq. right. exists m. split; [done|]. eapply tracked_unresolved; [by eapply volume_quiet|done..|].
    destruct Hq as (_ & _ & Hq1 & Hq2). unfold both_in. by rewrite Hq1, Hq2.
  - intros bytes h' synced Hbytes Hpub. pose proof (volume_published _ _ _ _ _ _ _ _ Hv Hpub) as Hv'.
    destruct Hpub as (_ & _ & Hnew & Hdur). unfold new_entry in Hnew. rewrite decide_True in Hnew by done.
    pose proof (entry_of_journal m states j bytes Hbytes Hj) as Hent. rewrite <-Hnew in Hent.
    pose proof (entry_mono _ _ _ _ Hsub Hent) as Hun. split.
    + right. exists m. split; [done|]. eapply tracked_unresolved; [done..|]. split; [done|]. rewrite Hdur. by destruct synced.
    + intros ->. apply HP; [done|]. split; [done|]. by rewrite Hdur.
Qed.
(** The journal of the mutation while the shard holds its original bytes. *)
Lemma persist_original m h j states (P : unit → Host → Prop) :
  flip_of_host m → volume_of m (original_bytes m) (original_bytes m) h → settled_entries m h →
  describes m states j → states ⊆ known →
  (∀ h', volume_of m (original_bytes m) (original_bytes m) h' → both_in m states h' → P tt h') →
  hok safe P (persist_journal j) h.
Proof using Hname journal_roundtrip.
  intros Hm Hv [Hc He] Hj Hsub HP. pose proof Hj as (Hid & _).
  apply (persist_ok name safe j h name); [by rewrite Hid|by eapply temporary_differs|..].
  - intros h' Hq. right. exists m. split; [done|]. eapply tracked_original; [by eapply volume_quiet|].
    destruct Hq as (_ & _ & Hq1 & Hq2). unfold settled_entries. by rewrite Hq1, Hq2.
  - intros bytes h' synced Hbytes Hpub. pose proof (volume_published _ _ _ _ _ _ _ _ Hv Hpub) as Hv'.
    destruct Hpub as (_ & _ & Hnew & Hdur). unfold new_entry in Hnew. rewrite decide_True in Hnew by done.
    pose proof (entry_of_journal m states j bytes Hbytes Hj) as Hent. rewrite <-Hnew in Hent.
    pose proof (entry_mono _ _ _ _ Hsub Hent) as Hkn. split.
    + right. exists m. split; [done|]. eapply tracked_original; [done|]. split; [by right|]. rewrite Hdur.
      destruct synced; [by right|done].
    + intros ->. apply HP; [done|]. split; [done|]. by rewrite Hdur.
Qed.
(** Journals of other operations: only the sync of the directory shows. *)
Lemma persist_other m b d h j states (P : unit → Host → Prop) :
  (∀ final, journal_name (mj_operation_id j) = ok final → final ≠ name) →
  volume_of m b d h → entry_in m states (h_journal h !! name) →
  (∀ h', volume_of m b d h' → h_journal h' !! name = h_journal h !! name →
     h_journal_durable h' !! name = h_journal_durable h !! name ∨ both_in m states h' → safe h') →
  (∀ h', volume_of m b d h' → both_in m states h' → safe h' → P tt h') → hok safe P (persist_journal j) h.
Proof using Hname.
  intros Hother Hv Hc Hsafe HP. destruct (journal_name (mj_operation_id j)) as [final| |] eqn:Hf.
  2,3: unfold persist_journal; rewrite Hf; apply hok_ret; [|done]; by apply Hsafe; [|done|left].
  assert (final ≠ name) as Hne by (by apply Hother).
  apply (persist_ok name safe j h final); [done|by eapply temporary_differs|..].
  - intros h' Hq. pose proof (volume_quiet _ _ _ _ _ Hv Hq). destruct Hq as (_ & _ & Hq1 & Hq2).
    apply Hsafe; [done|done|by left].
  - intros bytes h' synced _ Hpub. pose proof (volume_published _ _ _ _ _ _ _ _ Hv Hpub) as Hv'.
    destruct Hpub as (_ & _ & Hnew & Hdur). unfold new_entry in Hnew. rewrite decide_False in Hnew by done.
    destruct synced.
    + assert (both_in m states h') as Hboth by (split; [by rewrite Hnew|by rewrite Hdur, Hnew]).
      assert (safe h') as Hs' by (apply Hsafe; [done|done|by right]). split; [done|]. intros _. by apply HP.
    + split; [|done]. apply Hsafe; [done|done|by left].
Qed.

Lemma completed_receipt_with_id_ok m b d h c o response started operation_id states
    (P : StorageRecoveryOperationReceipt → Host → Prop) :
  (∀ final, journal_name operation_id = ok final → final ≠ name) →
  volume_of m b d h → entry_in m states (h_journal h !! name) →
  (∀ h', volume_of m b d h' → h_journal h' !! name = h_journal h !! name →
     h_journal_durable h' !! name = h_journal_durable h !! name ∨ both_in m states h' → safe h') →
  (∀ r h', response = Some (or_response_body r) → volume_of m b d h' → both_in m states h' → P r h') →
  hok safe P (completed_receipt_with_id c o response started operation_id) h.
Proof using Hname.
  intros Hother Hv Hc Hsafe HP. assert (safe h) as Hi by (by apply Hsafe; [|done|left]).
  unfold completed_receipt_with_id. apply hok_bind, now_ok; [done|]. intros t.
  apply hok_bind_ret; [done|]. intros digest _. apply hok_bind_ret; [done|]. intros body Hbody%context_ok.
  apply hok_bind. eapply (persist_other m b d h _ states); [exact Hother|done|done|exact Hsafe|].
  intros h' Hv' Hboth Hs'. apply make_receipt_ok; [done|]. intros r Hr _. apply HP; [by rewrite Hr|done|done].
Qed.

(** ** Mutating *)
Definition mutation_done (h : Host) : Prop :=
  ∃ m, flip_of_host m ∧ volume_of m (mutated_bytes m) (mutated_bytes m) h ∧ both_in m [JournalState.Mutated] h.

Lemma safe_start : safe h0.
Proof. left. done. Qed.
Lemma start_settled m : settled_entries m h0.
Proof using Hclean. destruct Hclean as (_ & H1 & H2). split; by left. Qed.
Lemma safe_unresolved m b d h :
  flip_of_host m → volume_of m b d h → either m b → either m d → both_in m unresolved h → safe h.
Proof. intros. right. exists m. split; [done|]. by eapply tracked_unresolved. Qed.
Lemma in_unresolved m s h : s ∈ unresolved → both_in m [s] h → both_in m unresolved h.
Proof.
  intros Hs [Hc Hd]. split; (eapply entry_mono; [|done]); intros x Hx%list_elem_of_singleton; by subst.
Qed.

(** A write to the shard of either byte. *)
Lemma write_shard m b d h k v b' (P : bool → Host → Prop) :
  flip_of_host m → volume_of m b d h → either m b → either m d → both_in m unresolved h →
  <[N.to_nat k := v]> b = b' → either m b' →
  (∀ h', volume_of m b' d h' → both_in m unresolved h' → safe h' → P true h') →
  (∀ h', safe h' → P false h') →
  hok safe P (hcall (CWriteAt (fl_ino m) k v)) h.
Proof.
  intros Hm Hv Hb Hd Hj Heq Hb' HP HPf. pose proof (safe_unresolved _ _ _ _ Hm Hv Hb Hd Hj) as Hs.
  assert (volume_of m b' d (write_byte h (fl_ino m) k v)) as Hv' by (rewrite <-Heq; by apply volume_write).
  assert (safe (write_byte h (fl_ino m) k v)) as Hs' by (by eapply safe_unresolved).
  apply hok_call; [done|]. intros r h' Hc%call_step_inv.
  destruct r as [written|msg|]; cbn in Hc; [|destruct Hc as [->| ->]; done|done].
  destruct written; subst h'; (split; [done|]); intros ? [= <-]; [by apply HP|by apply HPf].
Qed.
Lemma sync_shard m b d h (P : unit → Host → Prop) :
  flip_of_host m → volume_of m b d h → either m b → either m d → both_in m unresolved h →
  (∀ h', volume_of m b b h' → both_in m unresolved h' → safe h' → P tt h') →
  hok safe P (hcall (CSync (fl_ino m))) h.
Proof.
  intros Hm Hv Hb Hd Hj HP. pose proof (safe_unresolved _ _ _ _ Hm Hv Hb Hd Hj) as Hs.
  pose proof (volume_sync _ _ _ _ Hv) as Hv'.
  assert (safe (sync_inode h (fl_ino m))) as Hs' by (by eapply safe_unresolved).
  apply hok_call; [done|]. intros r h' Hc%call_step_inv.
  destruct r as [[]|msg|]; cbn in Hc; [subst h'|destruct Hc as [->|[]]; done|done].
  split; [done|]. intros ? [= <-]. by apply HP.
Qed.

Lemma apply_mutation_ok m c o shard osha msha j t h (P : StorageRecoveryOperationReceipt → Host → Prop) :
  flip_of_host m → volume_of m (original_bytes m) (original_bytes m) h → both_in m unresolved h →
  describes m [JournalState.Prepared] j → (∀ r h', mutation_done h' → P r h') →
  hok safe P (apply_mutation c o id (fl_ino m) shard (fl_offset m) (fl_original m) (fl_mutated m) osha msha j t) h.
Proof using Hname journal_roundtrip.
  intros Hm Hv Hj Hdesc HP. unfold apply_mutation. apply hok_bind.
  eapply (write_shard m _ _ _ _ _ (mutated_bytes m)); [done|done|by left|by left|done|done|by right| |].
  2: { intros h1 Hs1. by apply hok_bind_ret. }
  clear h Hv Hj. intros h Hv Hj Hs. apply hok_bind_ret; [done|]. intros _ _. apply hok_bind, hok_context.
  eapply (sync_shard m); [done|done|by right|by left|done|].
  clear h Hv Hj Hs. intros h Hv Hj Hs. apply hok_bind, validate_part_identity_ok; [done|]. intros i _ _ _ _.
  apply hok_bind, hok_silent; [done..|]. intros readback _. apply hok_bind_ret; [done|]. intros _ _.
  apply hok_bind, hash_file_ok; [done|]. intros i' _. apply hok_bind_ret; [done|]. intros _ _.
  apply hok_bind_ret; [done|]. intros body _. unfold persist_response. apply hok_bind, hok_bind, now_ok; [done|].
  intros u. apply hok_bind.
  eapply (persist_over m _ _ _ _ [JournalState.Mutated]); [done|done|by right|by right|done| | |].
  - destruct Hdesc as (Hid & Hsh & _). split_and!; [done|done|]. by apply list_elem_of_singleton.
  - intros x Hx%list_elem_of_singleton. subst x. unfold unresolved. set_solver +.
  - clear h Hv Hj Hs. intros h Hv Hj.
    assert (safe h) as Hs.
    { eapply safe_unresolved; [done|done|by right|by right|]. eapply in_unresolved; [|done]. unfold unresolved. set_solver +. }
    apply hok_value; [done|]. apply make_receipt_ok; [done|]. intros r _ _. apply HP. by exists m.
Qed.

Lemma mutate_ok c o t : hok safe (λ _, mutation_done) (mutate c o id t) h0.
Proof using Hclean Hname journal_roundtrip.
  pose proof safe_start as Hs. unfold mutate. apply hok_bind_ret; [done|]. intros [[inspection part_number] offset] _.
  apply hok_bind, load_journal_ok; [done|]. intros sealed _. apply hok_bind_ret; [done|]. intros shard _.
  apply hok_bind, open_beneath_ok; [done|]. intros fd Hpath.
  apply hok_bind, validate_part_identity_ok; [done|]. intros i Hi Hdev -> Hlen.
  apply hok_bind, hash_file_ok; [done|]. intros i1 Hi1. assert (i1 = i) as -> by congruence. clear Hi1.
  apply hok_bind_ret; [done|]. intros _ _.
  apply hok_bind, hok_silent; [done..|]. intros read (_ & i1 & Hi1 & ->)%answers_inv.
  assert (i1 = i) as -> by congruence. clear Hi1.
  apply hok_bind_ret; [done|]. intros original Horig%context_ok.
  apply hok_bind, hash_file_ok; [done|]. intros i1 Hi1. assert (i1 = i) as -> by congruence. clear Hi1.
  apply hok_bind_ret; [done|]. intros _ Hne%ensure_ok%negb_true_iff%bool_decide_eq_false.
  apply hok_bind, now_ok; [done|]. intros prepared. apply hok_bind_ret; [done|]. intros digest _.
  set (m := mkFlip (os_relative_part_path shard) (os_shard_inode shard) i offset original).
  assert (flip_of_host m) as Hm by (split_and!; done).
  set (j := prepared_journal _ _ _ _ _ _ _ _ _ _ _ _).
  assert (describes m [JournalState.Prepared] j) as Hj.
  { split_and!; [done| |by apply list_elem_of_singleton]. unfold journaled_shard, journaled. cbn.
    unfold original_bytes, mutated_bytes. cbn. rewrite <-Hdev, <-Hlen. done. }
  apply hok_bind.
  eapply (persist_original m _ j [JournalState.Prepared]); [done|by apply quiet_volume|apply start_settled|done| |].
  - intros x Hx%list_elem_of_singleton. subst x. unfold known, unresolved. set_solver +.
  - intros h Hv Hboth. apply (apply_mutation_ok m); [done|done| |done|done].
    eapply in_unresolved; [|done]. unfold unresolved. set_solver +.
Qed.

(** ** Restoring *)
Context (Hterminal : ∀ final,
  journal_name (stable_operation_id ("s3chaos-bitrot-cleanup:restore:" +:+ id)) = ok final → final ≠ name).
Local Abbreviation restore_op := (StorageRecoveryHostOperation.RestoreShard id).

Definition restored_post (r : StorageRecoveryOperationReceipt) (h : Host) : Prop :=
  ∃ outcome observed m, flip_of_host m ∧
    recovery_to_string (mkOfflineShardRecoveryResponse id outcome observed) = Some (or_response_body r) ∧
    match outcome with
    | RestoreOutcome.Quarantined => both_in m [JournalState.Quarantined] h
    | _ => volume_of m (original_bytes m) (original_bytes m) h ∧ both_in m [JournalState.Restored] h
    end.

Section RestoreSteps.
Context (m : Flip) (Hm : flip_of_host m) (c : OwnedStorageContext) (t : N).
Definition resting (b d : list N) (h : Host) : Prop :=
  volume_of m b d h ∧ either m b ∧ either m d ∧
  (both_in m unresolved h ∨ (b = original_bytes m ∧ d = original_bytes m ∧ settled_entries m h)).

Lemma resting_safe b d h : resting b d h → safe h.
Proof using Hm. intros (Hv & Hb & Hd & Hc). right. exists m. split; [done|]. by exists b, d. Qed.
Lemma persist_resting b d h j s (P : unit → Host → Prop) :
  resting b d h → describes m [s] j → s ∈ unresolved →
  (∀ h', volume_of m b d h' → both_in m [s] h' → P tt h') → hok safe P (persist_journal j) h.
Proof using Hm Hname journal_roundtrip.
  intros (Hv & Hb & Hd & [Hj|(-> & -> & Hj)]) Hdesc Hs HP.
  - eapply (persist_over m b d h j [s]); [done..| |done]. intros x Hx%list_elem_of_singleton. by subst.
  - eapply (persist_original m h j [s]); [done..| |done]. intros x Hx%list_elem_of_singleton. subst x.
    unfold known. by right.
Qed.
Lemma describes_state s s' j reason u : describes m s j → describes m [s']
  (j <| mj_state := s' |> <| mj_reason := reason |> <| mj_updated_at_ms := u |>).
Proof. intros (Hid & Hsh & _). split_and!; [done|done|by apply list_elem_of_singleton]. Qed.

Lemma recovery_receipt_ok outcome observed h :
  volume_of m (original_bytes m) (original_bytes m) h → entry_in m [JournalState.Restored] (h_journal h !! name) →
  settled_entries m h → outcome ≠ RestoreOutcome.Quarantined →
  hok safe restored_post (recovery_receipt c restore_op id outcome observed t) h.
Proof using Hm Hname Hterminal.
  intros Hv Hc Hset Ho. unfold recovery_receipt. apply hok_bind_ret.
  { right. exists m. split; [done|]. by apply tracked_original. }
  intros operation_id [= <-].
  eapply (completed_receipt_with_id_ok m _ _ h _ _ _ _ _ [JournalState.Restored]); [exact Hterminal|done|done| |].
  - intros h' Hv' Hc' Hd'. right. exists m. split; [done|]. apply tracked_original; [done|].
    destruct Hd' as [Hd'|[H1 H2]]; (split; [|]).
    + rewrite Hc'. apply Hset.
    + rewrite Hd'. apply Hset.
    + right. eapply entry_mono; [|done]. unfold known. intros x Hx%list_elem_of_singleton. subst x. by left.
    + right. eapply entry_mono; [|done]. unfold known. intros x Hx%list_elem_of_singleton. subst x. by left.
  - intros r h' Hr Hv' Hboth. exists outcome, (Some observed), m. split_and!; [done|done|]. by destruct outcome.
Qed.
Lemma seal_restored_ok outcome h j s :
  volume_of m (original_bytes m) (original_bytes m) h → settled_entries m h → describes m s j →
  outcome ≠ RestoreOutcome.Quarantined →
  hok safe restored_post (seal_restored c restore_op id j outcome (sha256_bytes (original_bytes m)) t) h.
Proof using Hm Hname Hterminal journal_roundtrip.
  intros Hv Hset Hdesc Ho. unfold seal_restored. apply hok_bind, now_ok.
  { right. exists m. split; [done|]. by apply tracked_original. }
  intros u. apply hok_bind.
  eapply (persist_original m h _ [JournalState.Restored]); [done|done|done| | |].
  - destruct Hdesc as (Hid & Hsh & _). split_and!; [done|done|by apply list_elem_of_singleton].
  - intros x Hx%list_elem_of_singleton. subst x. unfold known. by left.
  - intros h' Hv' [Hc Hd]. apply recovery_receipt_ok; [done|done| |done].
    split; right; (eapply entry_mono; [|done]); intros x Hx%list_elem_of_singleton; subst x; unfold known; by left.
Qed.
Lemma quarantine_shard_ok b d h j s reason observed : resting b d h → describes m s j →
  hok safe restored_post (quarantine_shard c restore_op id j reason observed t) h.
Proof using Hm Hname journal_roundtrip.
  intros Hrest Hdesc. pose proof (resting_safe _ _ _ Hrest) as Hs. unfold quarantine_shard, quarantine.
  apply hok_bind, hok_bind, now_ok; [done|]. intros u.
  eapply (persist_resting b d h _ JournalState.Quarantined); [done|by eapply describes_state| |].
  { unfold unresolved. set_solver +. }
  destruct Hrest as (_ & Hb & Hd & _). intros h1 Hv1 Hj1.
  assert (safe h1) as Hs1.
  { eapply safe_unresolved; [done..|]. eapply in_unresolved; [|done]. unfold unresolved. set_solver +. }
  unfold quarantined_receipt, completed_receipt. apply hok_bind, hok_silent; [done..|].
  intros new_id [_ Hfresh]%answers_inv. pose proof Hj1 as [(f & j1 & Hf & _) _].
  eapply (completed_receipt_with_id_ok m b d h1 _ _ _ _ _ [JournalState.Quarantined]); [|done|apply Hj1| |].
  - intros final Hfinal ->. specialize (Hfresh name). rewrite Hf in Hfresh. unfold journal_of, helper_names in Hfresh.
    rewrite Hfinal in Hfresh. by specialize (Hfresh eq_refl).
  - intros h' Hv' Hc' Hd'. eapply safe_unresolved; [done..|]. eapply (in_unresolved m JournalState.Quarantined).
    { unfold unresolved. set_solver +. }
    destruct Hd' as [Hd'|Hboth]; [|done]. split; [rewrite Hc'; apply Hj1|rewrite Hd'; apply Hj1].
  - intros r h' Hr _ Hboth. by exists RestoreOutcome.Quarantined, observed, m.
Qed.

Lemma mutated_differs : mutated_bytes m ≠ original_bytes m.
Proof using Hm. destruct Hm as (_ & _ & _ & Hne). intros Heq. apply Hne. by rewrite Heq. Qed.
Lemma restore_byte_ok j s sha h :
  volume_of m (mutated_bytes m) (mutated_bytes m) h → both_in m unresolved h → describes m s j →
  hok safe restored_post (restore_byte c restore_op id j (journaled m) (fl_ino m) sha t) h.
Proof using Hm Hname Hterminal journal_roundtrip.
  intros Hv Hj Hdesc.
  assert (resting (mutated_bytes m) (mutated_bytes m) h) as Hrest by (split_and!; [done|by right|by right|by left]).
  pose proof (resting_safe _ _ _ Hrest) as Hs. unfold restore_byte. cbn [js_offset js_mutated js_original js_original_sha256].
  apply hok_bind, hok_silent; [done..|]. intros read _. apply hok_bind_ret; [done|]. intros current _.
  case (current =? js_mutated (journaled m))%N; cbn [negb]; [|by eapply quarantine_shard_ok].
  apply hok_bind. eapply (write_shard m _ _ _ _ _ (original_bytes m)); [done|done|by right|by right|done| |by left| |].
  { apply restore_either; [done|by right]. }
  2: { intros h1 Hs1. by apply hok_bind_ret. }
  intros h1 Hv1 Hj1 Hs1. apply hok_bind_ret; [done|]. intros _ _. apply hok_bind, hok_context.
  eapply (sync_shard m); [done|done|by left|by right|done|].
  intros h2 Hv2 Hj2 Hs2. apply hok_bind, validate_part_identity_ok; [done|]. intros i _ _ _ _.
  apply hok_bind, hash_file_ok; [done|]. intros i2 Hi2. rewrite (volume_shard _ _ _ _ Hv2) in Hi2. injection Hi2 as <-.
  cbn [substituted in_bytes shard_with]. rewrite bool_decide_true by done. cbn [negb].
  eapply seal_restored_ok; [done|by apply both_settled|done|done].
Qed.
Lemma restore_shard_ok j s b h : resting b b h → describes m s j →
  hok safe restored_post (restore_shard c restore_op id j (journaled m) t) h.
Proof using Hm Hname Hterminal journal_roundtrip.
  intros Hrest Hdesc. pose proof (resting_safe _ _ _ Hrest) as Hs. pose proof Hrest as (Hv & Hb & _ & Hcase).
  unfold restore_shard. apply hok_bind, open_beneath_ok; [done|]. intros fd Hfd%(volume_open m b b); [|done..]. subst fd.
  apply hok_catch, validate_part_identity_any; [done|]. intros [[]|msg|] Hr Hr'; [|by eapply quarantine_shard_ok|done].
  apply hok_bind, hash_file_ok; [done|]. intros i Hi. rewrite (volume_shard _ _ _ _ Hv) in Hi. injection Hi as <-.
  cbn [substituted in_bytes shard_with js_original_sha256 js_mutated_sha256 journaled].
  case_bool_decide as Ho.
  { apply (either_digest m b Hm Hb) in Ho. subst b. eapply seal_restored_ok; [done| |done|done].
    destruct Hcase as [Hj|(_ & _ & Hj)]; [by apply both_settled|done]. }
  case_bool_decide as Hmut; [|by eapply quarantine_shard_ok].
  destruct Hb as [->| ->]; [by destruct Ho|].
  destruct Hcase as [Hj|(Heq & _)]; [by eapply restore_byte_ok|by destruct mutated_differs].
Qed.
End RestoreSteps.

(** The volume is written back. *)
Definition written_back (h : Host) : Prop := ∀ fd i, h_inodes h !! fd = Some i → in_durable i = in_bytes i.

Lemma loaded_entry m states h j : loaded h id j → entry_in m states (h_journal h !! name) → describes m states j.
Proof using Hname.
  intros (n & f & Hn & Hf & Hj) (f' & j' & Hf' & _ & Hj' & Hd). rewrite Hname in Hn. injection Hn as <-. simplify_eq. done.
Qed.
(** The cached entry has the state of the loaded journal. *)
Lemma loaded_in m h j : loaded h id j → absent_or m (h_journal h !! name) → entry_in m [mj_state j] (h_journal h !! name).
Proof using Hname.
  intros (n & f & Hn & Hf & Hj) Hc. rewrite Hname in Hn. injection Hn as <-.
  destruct Hc as [Hnone|(f' & j' & Hf' & Hsy & Hj' & Hd')]; [congruence|]. exists f', j'. split_and!; [done..|].
  simplify_eq. destruct Hd' as (? & ? & _). split_and!; [done|done|]. by apply list_elem_of_singleton.
Qed.
Lemma validate_restored_ok I c j h (P : string → Host → Prop) :
  I h → mj_state j = JournalState.Restored → (∀ sha, P sha h) → hok I P (validate_terminal_repaired_shard c j) h.
Proof.
  intros Hi Hj HP. unfold validate_terminal_repaired_shard. apply hok_bind_ret; [done|]. intros osha _.
  apply hok_bind_ret; [done|]. intros _ _. rewrite Hj. apply hok_bind. unfold require_restored_shard.
  do 4 (apply hok_bind_ret; [done|]; intros ? _).
  apply hok_bind, open_beneath_ok; [done|]. intros fd _. apply hok_bind, validate_part_identity_ok; [done|].
  intros i _ _ _ _. apply hok_bind, hash_file_ok; [done|]. intros i' _. apply hok_ret; [done|]. intros [] _.
  apply hok_value; [done|]. apply HP.
Qed.
Lemma restore_ok c t h : safe h → written_back h → hok safe restored_post (restore c restore_op id t) h.
Proof using Hclean Hname Hterminal journal_roundtrip.
  intros Hs Hwb. unfold restore. apply hok_bind, load_journal_ok; [done|]. intros j Hload.
  apply hok_bind_ret; [done|]. intros owned _. apply hok_bind_ret; [done|]. intros _ _.
  destruct Hs as [(_ & _ & Hq & _)|(m & Hm & b & d & Hv & Hb & Hd & Hcase)].
  { destruct Hload as (n & f & Hn & Hf & _). destruct Hclean as (_ & Hnone & _). rewrite Hname in Hn.
    injection Hn as <-. congruence. }
  pose proof (Hwb _ _ (volume_shard _ _ _ _ Hv)) as Heq. cbn in Heq. subst d.
  assert (resting m b b h) as Hrest by (split_and!; done).
  assert (describes m known j) as Hdesc.
  { eapply loaded_entry; [done|]. destruct Hcase as [[Hj _]|(_ & _ & [[Hnone|Hj] _])]; [by apply unresolved_known| |done].
    destruct Hload as (n & f & Hn & Hf & _). rewrite Hname in Hn. injection Hn as <-. congruence. }
  pose proof (resting_safe m Hm _ _ _ Hrest) as Hs. pose proof Hdesc as (_ & Hshard & Hstate).
  destruct (mj_state j) eqn:Ej.
  - apply hok_ret; [done|]. done.
  - rewrite Hshard. apply hok_bind_ret; [done|]. intros ? [= <-]. by eapply restore_shard_ok.
  - rewrite Hshard. apply hok_bind_ret; [done|]. intros ? [= <-]. by eapply restore_shard_ok.
  - destruct Hcase as [[Hj _]|(-> & _ & Hset)].
    { apply (loaded_entry m unresolved h j Hload) in Hj as (_ & _ & Hj). rewrite Ej in Hj. unfold unresolved in Hj. set_solver + Hj. }
    assert (entry_in m [JournalState.Restored] (h_journal h !! name)) as Hentry
      by (rewrite <-Ej; destruct Hset as [Hc _]; by eapply loaded_in).
    apply hok_bind, validate_restored_ok; [done|done|]. intros osha. by apply (recovery_receipt_ok m).
  - unfold known, unresolved in Hstate. set_solver + Hstate.
  - apply hok_ret; [done|]. done.
Qed.
End Journals.
