(* ===== verification/StorageHelperTheorems.v ===== *)
(** * Theorems of the storage helper

    What a controlled mutation leaves behind when the helper is cut off at any
    point, and what a completed restore means. *)
From S2P Require Import Prelude RustText RustWords Quorum Msgpack Xl2Inspector.
From S2P Require Import StorageLease StorageOwnership StorageReceipts HostFiles StorageHelper StorageMutation.
From S2P Require Import StorageSession StorageMutationFacts.
From stdpp Require Import options.

Section CrashSafety.
Context `{Henv : StorageEnv} `{Hxl2 : Xl2Env} `{Hhelper : HelperEnv}.
Context (h0 : Host) (id name : string) (Hname : journal_name id = ok name).
(** [serde_json] reads back the journals it wrote. *)
Context (journal_roundtrip : ∀ j bytes, journal_to_vec j = Some bytes → journal_from_slice bytes = Some j).
(** The receipt of the cleanup has a journal of its own. *)
Context (Hterminal : ∀ final,
  journal_name (stable_operation_id ("s3chaos-bitrot-cleanup:restore:" +:+ id)) = ok final → final ≠ name).

(** A crash of the host, or a restore attempt that may be cut off anywhere, on a
    volume whose earlier writes have reached the disk. *)
Definition attempt (h h' : Host) : Prop :=
  crashed h h' ∨
  written_back h ∧ ∃ c t p, host_run h (restore c (StorageRecoveryHostOperation.RestoreShard id) id t) h' p.

Lemma attempts_safe h h' : clean_host h0 name → safe h0 id name h → rtc attempt h h' → safe h0 id name h'.
Proof using Hname Hterminal journal_roundtrip.
  intros Hc Hs Hrun. induction Hrun as [|h h1 h' [Hcr|(Hwb & c & t & p & Hr)] _ IH]; [done|..]; apply IH.
  - by eapply safe_crashed.
  - pose proof (restore_ok h0 id name Hname journal_roundtrip Hc Hterminal c t h Hs Hwb) as Hok.
    by apply (hok_run _ _ _ _ _ _ Hok Hr).
Qed.
Lemma mutated_safe c o t h p : clean_host h0 name → host_run h0 (mutate c o id t) h p → safe h0 id name h.
Proof using Hname journal_roundtrip.
  intros Hc Hr. by apply (hok_run _ _ _ _ _ _ (mutate_ok h0 id name Hname journal_roundtrip Hc c o t) Hr).
Qed.

(** C12. A controlled mutation that is cut off after any call, with any calls failing,
    followed by any crashes of the host and any restore attempts on a written-back
    volume, leaves every file as it was, except that the shard may differ in the one
    journalled byte, and then a synced journal that names the byte and its original
    value and is not resolved is in the journal directory, cached and durable. *)
Theorem mutation_stays_journaled c o t h1 p h2 :
  clean_host h0 name → host_run h0 (mutate c o id t) h1 p → rtc attempt h1 h2 →
  h_paths h2 = h_paths h0 ∧
  (h_inodes h2 = h_inodes h0 ∨
   ∃ m b d, flip_of_host h0 m ∧ h_inodes h2 = <[fl_ino m := shard_with m b d]> (h_inodes h0) ∧
     either m b ∧ either m d ∧ both_in id name m unresolved h2).
Proof using Hname Hterminal journal_roundtrip.
  intros Hc Hr Hatt. apply mutated_safe in Hr; [|done]. pose proof (attempts_safe _ _ Hc Hr Hatt) as Hs.
  destruct Hs as [(Hp & Hi & _)|(m & Hm & b & d & [Hp Hi] & Hb & Hd & Hcase)]; [by split; [|left]|].
  split; [done|]. destruct Hcase as [Hj|(-> & -> & _)]; [right; by exists m, b, d|left].
  rewrite Hi, (shard_with_original h0 name Hc m Hm). apply insert_id, Hm.
Qed.

(** A mutation that returns a receipt flipped the journalled byte, on disk too, under a journal that says so. *)
Theorem mutation_receipt_exact c o t h r :
  clean_host h0 name → host_run h0 (mutate c o id t) h (HRet (ok r)) →
  ∃ m, flip_of_host h0 m ∧ volume_of h0 m (mutated_bytes m) (mutated_bytes m) h ∧
    both_in id name m [JournalState.Mutated] h.
Proof using Hname journal_roundtrip.
  intros Hc Hr. destruct (hok_run _ _ _ _ _ _ (mutate_ok h0 id name Hname journal_roundtrip Hc c o t) Hr) as [_ HP].
  exact (HP r eq_refl).
Qed.

(** C13. When a restore returns a receipt whose outcome is not quarantined, after a
    mutation that was cut off anywhere, crashes and earlier restore attempts, the volume
    is the one before the mutation, cached and on disk, and the journal is restored; a
    quarantined outcome leaves a quarantined journal. Earlier writes to the volume have
    reached the disk when this restore and each restore before it starts; without that a
    restore that finds the byte repaired in the cache seals the journal although the
    disk still has the mutated byte. *)
Theorem completed_restore_is_original c o t h1 p h2 c' t' h3 r :
  clean_host h0 name → host_run h0 (mutate c o id t) h1 p → rtc attempt h1 h2 → written_back h2 →
  host_run h2 (restore c' (StorageRecoveryHostOperation.RestoreShard id) id t') h3 (HRet (ok r)) →
  ∃ outcome observed,
    recovery_to_string (mkOfflineShardRecoveryResponse id outcome observed) = Some (or_response_body r) ∧
    (outcome ≠ RestoreOutcome.Quarantined → h_paths h3 = h_paths h0 ∧ h_inodes h3 = h_inodes h0) ∧
    ∃ m, flip_of_host h0 m ∧
      both_in id name m [if decide (outcome = RestoreOutcome.Quarantined) then JournalState.Quarantined
                         else JournalState.Restored] h3.
Proof using Hname Hterminal journal_roundtrip.
  intros Hc Hr Hatt Hwb Hrest. apply mutated_safe in Hr; [|done]. pose proof (attempts_safe _ _ Hc Hr Hatt) as Hs.
  pose proof (restore_ok h0 id name Hname journal_roundtrip Hc Hterminal c' t' h2 Hs Hwb) as Hok.
  destruct (hok_run _ _ _ _ _ _ Hok Hrest) as [_ HP].
  destruct (HP r eq_refl) as (outcome & observed & m & Hm & Hbody & Hcase).
  exists outcome, observed. split; [done|]. split.
  - intros Hne. assert (volume_of h0 m (original_bytes m) (original_bytes m) h3) as [Hp Hi] by (by destruct outcome, Hcase).
    split; [done|]. rewrite Hi, (shard_with_original h0 name Hc m Hm). apply insert_id, Hm.
  - exists m. split; [done|]. destruct outcome; cbn; (by destruct Hcase) || done.
Qed.
End CrashSafety.

(** ** Looking a mutation up *)
Section Lookup.
Context `{Henv : StorageEnv} `{Hxl2 : Xl2Env} `{Hhelper : HelperEnv}.

Definition unchanged (h h' : Host) : Prop := h' = h.
Lemma session_context_ok h owner current (P : unit → Host → Prop) :
  (validate_context current = ok tt → same_session owner current = true → P tt h) →
  hok (unchanged h) P (validate_session_context owner current) h.
Proof.
  intros HP. unfold validate_session_context. apply hok_bind_ret; [done|]. intros [] Hc.
  apply hok_bind_ret; [done|]. intros _ Hs%ensure_ok. apply hok_bind, now_ok; [done|]. intros t.
  apply hok_ret; [done|]. intros [] _. by apply HP.
Qed.
(** What a lookup says of the journal it was made from. *)
Definition lookup_of (j : MutationJournal) (l : MutationJournalLookup) : Prop :=
  ml_operation l = mj_operation j ∧
  match ml_receipt l with
  | None => mj_state j = JournalState.Prepared ∧ ml_state l = MutationRecoveryState.Prepared
  | Some r =>
      (mj_state j = JournalState.Mutated ∧ ml_state l = MutationRecoveryState.Mutated
       ∨ mj_state j = JournalState.Restored ∧ ml_state l = MutationRecoveryState.Restored
       ∨ mj_state j = JournalState.VerifiedSuperseded ∧ ml_state l = MutationRecoveryState.VerifiedSuperseded) ∧
      mj_response_body j = Some (or_response_body r) ∧ or_operation_id r = ml_operation_id l
  end.
Lemma validate_lookup_state l c id o : validate_lookup l c id o = ok tt →
  match ml_receipt l with
  | None => ml_state l = MutationRecoveryState.Prepared
  | Some r => or_operation_id r = id ∧ ml_state l ∈ [MutationRecoveryState.Mutated; MutationRecoveryState.Restored;
                                                     MutationRecoveryState.VerifiedSuperseded]
  end.
Proof.
  intros (_ & H)%bind_ensure_ok. destruct (ml_receipt l) as [r|].
  - apply bind_unit_ok in H as (_ & [Hid%bool_decide_eq_true Hs]%ensure_ok%andb_true_iff). split; [done|].
    destruct (ml_state l); set_solver.
  - by apply ensure_ok, bool_decide_eq_true in H.
Qed.

Lemma query_mutation_ok s c id h :
  hok (unchanged h) (λ l _, ml_operation_id l = id ∧ same_session (hs_owner s) c = true ∧
    ∃ j, loaded h id j ∧ lookup_of j l) (query_mutation s c id) h.
Proof.
  unfold query_mutation. apply hok_bind_ret; [done|]. intros _ _. apply hok_bind, session_context_ok. intros _ Hs.
  apply hok_bind, load_journal_ok; [done|]. intros j Hj. apply hok_bind_ret; [done|]. intros owned _.
  apply hok_bind_ret; [done|]. intros _ _. apply hok_bind_ret; [done|]. intros state Hstate.
  apply hok_bind. case_bool_decide as Hprep.
  - apply hok_ret; [done|]. intros ? [= <-]. apply hok_bind, now_ok; [done|]. intros t. apply hok_bind_ret; [done|].
    intros [] Hv%validate_lookup_state. apply hok_value; [done|]. split_and!; [done..|]. exists j. split; [done|].
    split; [done|]. cbn. subst state. by destruct (mj_state j).
  - apply hok_bind. unfold journaled_receipt. apply hok_bind_ret; [done|]. intros body Hbody%context_ok.
    apply hok_bind_ret; [done|]. intros _ _. apply make_receipt_ok; [done|]. intros r Hr Hid.
    apply hok_ret; [done|]. intros ? [= <-]. apply hok_bind, now_ok; [done|]. intros t. apply hok_bind_ret; [done|].
    intros [] [_ Hv]%validate_lookup_state. apply hok_value; [done|]. split_and!; [done..|]. exists j. split; [done|].
    split; [done|]. cbn in Hv |- *. split_and!; [|by rewrite Hr|done].
    destruct (mj_state j); cbn in Hstate; simplify_eq; set_solver.
Qed.

(** C27. A mutation lookup changes nothing and reports the journal that is stored:
    without a receipt and as prepared only for a prepared mutation, and with a receipt
    that carries the journalled response as mutated, restored or superseded exactly for
    a mutated, restored or superseded journal; no lookup of a quarantined journal
    succeeds. *)
Theorem mutation_lookup_exact s c id h h' l :
  host_run h (query_mutation s c id) h' (HRet (ok l)) →
  h' = h ∧ ml_operation_id l = id ∧ same_session (hs_owner s) c = true ∧ ∃ j, loaded h id j ∧ lookup_of j l.
Proof.
  intros Hrun. destruct (hok_run _ _ _ _ _ _ (query_mutation_ok s c id h) Hrun) as [Hh HP].
  split; [done|]. by apply HP.
Qed.
End Lookup.

(** ** Beginning a session *)
Section Begin.
Context `{Henv : StorageEnv} `{Hxl2 : Xl2Env} `{Hhelper : HelperEnv}.
(** [Uuid::parse_str] reads back what [Uuid::to_string] writes. *)
Context (parse_to_string : ∀ u, uuid_parse_str (uuid_to_string u) = Some u).

Lemma substring_app a b : String.substring 0 (String.length a) (a +:+ b) = a.
Proof. induction a as [|c a IH]; [by destruct b|]. rewrite append_cons. cbn. by rewrite IH. Qed.
Lemma ends_with_app a b : ends_with b (a +:+ b) = true.
Proof.
  induction a as [|c a IH]; [rewrite append_nil_l; destruct b; cbn; by rewrite bool_decide_true|].
  rewrite append_cons. cbn. rewrite IH. apply orb_true_r.
Qed.
Lemma strip_suffix_app a b : strip_suffix b (a +:+ b) = Some a.
Proof.
  unfold strip_suffix. rewrite ends_with_app. rewrite length_append, Nat.add_sub. by rewrite substring_app.
Qed.
Lemma journal_operation_id_name id name : journal_name id = ok name →
  ∃ canonical, journal_operation_id name = Some canonical ∧ journal_name canonical = ok name.
Proof using parse_to_string.
  intros (u & _ & [= <-])%bind_context_ok. exists (uuid_to_string u). unfold journal_operation_id. split.
  - change ("mutation-" +:+ uuid_to_string u +:+ ".json") with ("mutation-" +:+ (uuid_to_string u +:+ ".json")).
    rewrite strip_prefix_app. cbn. apply strip_suffix_app.
  - unfold journal_name. by rewrite parse_to_string.
Qed.

(** What the session may assume of a journal of its scope. *)
Definition resolved_for (c : OwnedStorageContext) (digest : string) (j : MutationJournal) : Prop :=
  mj_scope_sha256 j = oc_scope_sha256 c →
  mj_schema_version j = 1%N ∧ mj_state j ≠ JournalState.Quarantined ∧
  (mj_state j = JournalState.Prepared ∨ mj_state j = JournalState.Mutated → same_generation j c digest = true).
Lemma check_resolved_ok c digest j : check_resolved c digest j = ok tt → resolved_for c digest j.
Proof.
  unfold check_resolved. case_bool_decide as Hs; [|done]. cbn. intros (Hv%N.eqb_eq & H)%bind_ensure_ok _.
  split; [done|].
  destruct (mj_state j); try done; (split; [done|]); (intros [[=]|[=]] || intros _); apply ensure_ok in H;
    unfold same_generation; rewrite (bool_decide_true (mj_scope_sha256 j = oc_scope_sha256 c)) by done;
    repeat (apply andb_true_iff in H as [H ?]); by repeat (apply andb_true_iff; split).
Qed.
Lemma check_journals_ok c digest h (P : unit → Host → Prop) names :
  ((∀ id name j, name ∈ names → journal_operation_id name = Some id → loaded h id j → resolved_for c digest j) →
   P tt h) →
  hok (unchanged h) P (check_journals c digest names) h.
Proof.
  revert P. induction names as [|name names IH]; intros P HP; cbn [check_journals].
  { apply hok_value; [done|]. apply HP. intros id name j H%elem_of_nil. done. }
  destruct (journal_operation_id name) as [id|] eqn:Hid.
  - apply hok_bind, hok_context, load_journal_ok; [done|]. intros j Hj. apply hok_bind_ret; [done|].
    intros [] Hres%check_resolved_ok. apply IH. intros Hrest. apply HP. intros id' name' j' Hin Hid' Hj'.
    apply elem_of_cons in Hin as [->|Hin]; [|by apply (Hrest id' name' j' Hin Hid' Hj')].
    rewrite Hid in Hid'. injection Hid' as <-.
    destruct Hj as (n & f & Hn & Hf & Hb), Hj' as (n' & f' & Hn' & Hf' & Hb').
    rewrite Hn in Hn'. by simplify_eq.
  - apply IH. intros Hrest. apply HP. intros id' name' j' Hin Hid' Hj'.
    apply elem_of_cons in Hin as [->|Hin]; [congruence|by apply (Hrest id' name' j' Hin Hid' Hj')].
Qed.

(** C14. A helper session begins without touching the host only when every journal of
    its storage scope has the known schema, is not quarantined, and, if its mutation is
    unresolved, was written under the same Lease generation, holder and mutation
    ownership. *)
Theorem session_refuses_foreign_mutation c h h' s :
  host_run h (session_begin c) h' (HRet (ok s)) →
  h' = h ∧ s = mkStorageHelperSession c false ∧
  ∃ digest, context_sha256 c = ok digest ∧ ∀ id j, loaded h id j → resolved_for c digest j.
Proof using parse_to_string.
  intros Hrun.
  assert (hok (unchanged h) (λ s _, s = mkStorageHelperSession c false ∧ ∃ digest, context_sha256 c = ok digest ∧
            ∀ id j, loaded h id j → resolved_for c digest j) (session_begin c) h) as Hok.
  { unfold session_begin. apply hok_bind_ret; [done|]. intros _ _. apply hok_bind, now_ok; [done|]. intros t.
    apply hok_bind_ret; [done|]. intros _ _. apply hok_bind, hok_silent; [done..|]. intros [device inode] _.
    apply hok_bind_ret; [done|]. intros _ _. apply hok_bind, hok_silent; [done..|]. intros volume _.
    apply hok_bind_ret; [done|]. intros _ _. apply hok_bind. unfold ensure_no_unresolved_journals.
    apply hok_bind_ret; [done|]. intros digest Hdigest. apply hok_bind, hok_silent; [done..|]. intros names [_ Hnames]%answers_inv.
    apply check_journals_ok. intros Hall. apply hok_value; [done|]. split; [done|]. exists digest. split; [done|].
    intros id j (name & f & Hname & Hf & Hj).
    destruct (journal_operation_id_name _ _ Hname) as (canonical & Hid & Hcanonical).
    apply (Hall canonical name); [|done|by exists name, f].
    apply Hnames. by eexists. }
  destruct (hok_run _ _ _ _ _ _ Hok Hrun) as [Hh HP]. split; [done|]. by apply HP.
Qed.
End Begin.
