(* ===== verification/StorageReceiptTheorems.v ===== *)
(** * What a storage-recovery receipt is bound to

    A receipt of the helper carries a digest of the mutation ownership. The digest
    is the same for every context of a session, so that receipts and journals stay
    valid when the Lease is renewed, and it tells attempts, Lease generations and
    volumes apart. *)
From S2P Require Import Prelude RustText RustWords Quorum Msgpack Xl2Inspector.
From S2P Require Import StorageLease StorageOwnership StorageReceipts HostFiles StorageHelper StorageMutation.
From S2P Require Import StorageSession.
From stdpp Require Import options.

Section Binding.
Context `{Henv : StorageEnv} `{Hxl2 : Xl2Env} `{Hhelper : HelperEnv}.

(** The digest of the ownership does not depend on when the volume was observed. *)
Definition stable_volume (c : OwnedStorageContext) : StorageVolumeIdentity := oc_volume c <| sv_observed_at_ms := 0%N |>.
Definition stable_ownership (c : OwnedStorageContext) : MutationOwnershipDigest := ownership_for_volume c (stable_volume c).
Definition ownerships (c : OwnedStorageContext) : list MutationOwnershipDigest :=
  [stable_ownership c; ownership_for_volume c (oc_volume c)].

Lemma same_volume_stable left right : same_storage_volume_generation left right = true →
  left <| sv_observed_at_ms := 0%N |> = right <| sv_observed_at_ms := 0%N |> ∧ sv_namespace left = sv_namespace right.
Proof. intros <-%bool_decide_eq_true. by destruct left. Qed.
Record session_fields (owner current : OwnedStorageContext) : Prop := {
  sf_ownership : stable_ownership owner = stable_ownership current;
  sf_scope : oc_scope_sha256 owner = oc_scope_sha256 current;
  sf_generation : oc_host_generation owner = oc_host_generation current;
  sf_uid : kp_uid (oc_lease owner) = kp_uid (oc_lease current);
  sf_acquired : kp_acquired_at_ms (oc_lease owner) = kp_acquired_at_ms (oc_lease current);
  sf_holder : kp_holder_identity (oc_lease owner) = kp_holder_identity (oc_lease current);
}.
Lemma same_session_fields owner current : same_session owner current = true → session_fields owner current.
Proof.
  unfold same_session. rewrite !andb_true_iff, !bool_decide_eq_true, N.eqb_eq.
  intros [[[[[[[[[[[[[[[[[Hid Hcase] Hattempt] Hcluster] Htenant] Hscope] Hvolume] Hversions] Hgeneration] Hflock] Hname]
    Huid] Hholder] Hlscope] Hacquired] Hrenew] Hpod] Hpuid].
  apply same_volume_stable in Hvolume as [Hvolume Hns].
  split; [|done..]. unfold stable_ownership, ownership_for_volume, stable_volume. congruence.
Qed.

Lemma context_sha256_ok c digest : context_sha256 c = ok digest →
  ∃ bytes, ownership_to_vec (stable_ownership c) = Some bytes ∧ digest = sha256_bytes bytes.
Proof. intros (bytes & Hb & [= <-])%bind_context_ok. by exists bytes. Qed.
Lemma same_ownership_digest c c' : stable_ownership c = stable_ownership c' → context_sha256 c = context_sha256 c'.
Proof.
  intros H. unfold context_sha256, context_sha256_for_volume. fold (stable_volume c) (stable_volume c').
  by fold (stable_ownership c) (stable_ownership c'); rewrite H.
Qed.

(** ** Renewal *)
Section Renewal.
(** Encoding an ownership record of strings and integers as JSON does not fail. *)
Context (ownership_encodes : ∀ d, is_Some (ownership_to_vec d)).

Lemma validate_receipt_stable r c o :
  context_sha256 c = ok (or_context_sha256 r) →
  validate_receipt r c o =
    (_ ← ensure (uuid_ok (or_operation_id r) && bool_decide (or_operation r = o))
           "storage-recovery receipt has the wrong operation identity";
     _ ← validate_sha256 (or_context_sha256 r);
     _ ← validate_sha256 (or_response_sha256 r);
     _ ← ensure (bool_decide (or_response_sha256 r = digest_str (or_response_body r)))
           "storage-recovery receipt digest does not match its context or raw response";
     _ ← ensure ((kp_acquired_at_ms (oc_lease c) <=? or_started_at_ms r)%N
                 && (or_started_at_ms r <=? or_journal_persisted_at_ms r)%N
                 && (or_journal_persisted_at_ms r <=? or_completed_at_ms r)%N
                 && or_journal_fsync_succeeded r)
           "storage-recovery receipt is not durably persisted and ordered";
     if bool_decide (is_Some (transition_of o)) then
       response ← context (transition_from_str (or_response_body r))
                    "decode stale device-mapper transition response";
       validate_transition response c o
     else ok tt).
Proof using ownership_encodes.
  intros Hc. unfold validate_receipt, validate_for_time_floor. rewrite Hc.
  destruct (ownership_encodes (ownership_for_volume c (oc_volume c))) as [bytes Hb].
  unfold legacy_context_sha256, context_sha256_for_volume. rewrite Hb. cbn.
  by rewrite (bool_decide_true (or_context_sha256 r = or_context_sha256 r)) by done.
Qed.

(** All contexts of one session have the same ownership digest, so a receipt
    stamped with it validates under one exactly when it does under the other, and
    journals stay owned and resolved when the Lease is renewed or the volume observed
    again. *)
Theorem receipt_survives_renewal owner current :
  same_session owner current = true →
  context_sha256 owner = context_sha256 current ∧
  (∀ r o, context_sha256 owner = ok (or_context_sha256 r) → validate_receipt r owner o = validate_receipt r current o) ∧
  (∀ j id rest, journal_owned j id owner rest = journal_owned j id current rest) ∧
  (∀ j digest, check_resolved owner digest j = check_resolved current digest j).
Proof using ownership_encodes.
  intros [Hown Hscope Hgen Huid Hacq Hholder]%same_session_fields.
  pose proof (same_ownership_digest _ _ Hown) as Hdigest. split_and!; [done|..].
  - intros r o Hr. rewrite (validate_receipt_stable r owner) by done.
    rewrite Hdigest in Hr. rewrite (validate_receipt_stable r current) by done. rewrite Hacq.
    unfold validate_transition. by rewrite Hgen.
  - intros j id rest. unfold journal_owned, and_generation, same_generation. by rewrite Hdigest, Hscope, Huid, Hacq, Hholder.
  - intros j digest. unfold check_resolved. by rewrite Hscope, Huid, Hacq, Hholder.
Qed.
End Renewal.

(** ** Attempts and Lease generations apart *)
Lemma receipt_names_ownership r c o : validate_receipt r c o = ok tt →
  ∃ d bytes, d ∈ ownerships c ∧ ownership_to_vec d = Some bytes ∧ or_context_sha256 r = sha256_bytes bytes.
Proof.
  intros (_ & (digest & Hd & (legacy & Hl & (_ & (_ & (H & _)%bind_ensure_ok)%bind_unit_ok)%bind_unit_ok)%bind_ok)%bind_ok)%bind_ensure_ok.
  apply andb_true_iff in H as [H _]. apply orb_true_iff in H as [H|H]; apply bool_decide_eq_true in H.
  - apply context_sha256_ok in Hd as (bytes & Hb & ->). exists (stable_ownership c), bytes. by split; [left|].
  - apply bind_context_ok in Hl as (bytes & Hb & [= <-]). eexists _, bytes. split; [right; left|]; done.
Qed.
Lemma ownerships_fields c d : d ∈ ownerships c →
  mo_attempt_id d = oc_attempt_id c ∧ mo_scope_sha256 d = oc_scope_sha256 c ∧
  mo_volume d <| sv_observed_at_ms := 0%N |> = stable_volume c ∧ mo_host_generation d = oc_host_generation c ∧
  mo_lease_namespace d = sv_namespace (oc_volume c) ∧ mo_lease_name d = kp_name (oc_lease c) ∧
  mo_lease_uid d = kp_uid (oc_lease c) ∧ mo_lease_holder_identity d = kp_holder_identity (oc_lease c) ∧
  mo_lease_acquired_at_ms d = kp_acquired_at_ms (oc_lease c).
Proof.
  unfold ownerships. rewrite !elem_of_cons, elem_of_nil. destruct c as [? ? ? ? ? ? []]. by intros [->|[->|[]]].
Qed.

(** C28. As long as the digests of their ownership records do not collide, two contexts
    that accept the same receipt have the same attempt id, scope, volume (up to when it
    was observed), host generation and namespace, and their Leases have the same name,
    uid, holder and acquisition time; and they accept the receipt for the same
    operation. *)
Theorem receipt_binds_ownership r c c' o o' :
  (∀ d d' bytes bytes', d ∈ ownerships c → d' ∈ ownerships c' →
     ownership_to_vec d = Some bytes → ownership_to_vec d' = Some bytes' → sha256_bytes bytes = sha256_bytes bytes' → d = d') →
  validate_receipt r c o = ok tt → validate_receipt r c' o' = ok tt →
  oc_attempt_id c = oc_attempt_id c' ∧ oc_scope_sha256 c = oc_scope_sha256 c' ∧
  stable_volume c = stable_volume c' ∧ oc_host_generation c = oc_host_generation c' ∧
  sv_namespace (oc_volume c) = sv_namespace (oc_volume c') ∧
  kp_name (oc_lease c) = kp_name (oc_lease c') ∧ kp_uid (oc_lease c) = kp_uid (oc_lease c') ∧
  kp_holder_identity (oc_lease c) = kp_holder_identity (oc_lease c') ∧
  kp_acquired_at_ms (oc_lease c) = kp_acquired_at_ms (oc_lease c') ∧ o = o'.
Proof.
  intros Hinj H H'. pose proof H as ([_ Ho]%andb_true_iff & _)%bind_ensure_ok.
  pose proof H' as ([_ Ho']%andb_true_iff & _)%bind_ensure_ok. apply bool_decide_eq_true in Ho, Ho'.
  apply receipt_names_ownership in H as (d & bytes & Hd & Hb & Hr).
  apply receipt_names_ownership in H' as (d' & bytes' & Hd' & Hb' & Hr').
  pose proof (Hinj _ _ _ _ Hd Hd' Hb Hb' ltac:(congruence)) as <-.
  apply ownerships_fields in Hd as (?&?&?&?&?&?&?&?&?), Hd' as (?&?&?&?&?&?&?&?&?).
  split_and!; congruence.
Qed.
End Binding.
