(* ===== verification/HelperProtocol.v ===== *)
(** The session between the controller and the privileged helper:
    [KubectlStorageRecoveryAttemptGuard] of
    [src/fault/storage_recovery_runtime.rs] on one end of a [kubectl exec]
    pipe, the serve loop of [src/bin/s3chaos-storage-helper.rs] on the other.

    A call of the guard is a program ([GuardProg]) whose awaits are lines written
    to and read from the pipe, Lease programs and the exit of the child. Its future
    may be dropped at any await, which leaves the guard as it is at that point. An
    error that callers recognise by its type ([StorageHelperMutationRejected],
    [StorageHelperMutationJournalAbsent]) is a value of the call. The stale-disk
    operations of the helper are a parameter. *)
From S2P Require Import Prelude RustText RustWords Quorum Msgpack Xl2Inspector.
From S2P Require Import StorageLease StorageOwnership StorageReceipts HostFiles StorageHelper StorageMutation StorageSession.
From stdpp Require Import options.

(** ** Messages *)
Module StorageHelperSessionRequest.
Inductive t {StaleRequest : Type} :=
| Begin (context : OwnedStorageContext)
| Execute (invocation : StorageHelperInvocation)
| ExecuteMutation (operation_id : string) (invocation : StorageHelperInvocation)
| QueryMutation (context : OwnedStorageContext) (operation_id : string)
| StaleExecute (context : OwnedStorageContext) (request : StaleRequest)
| Finish (context : OwnedStorageContext) (cleanup : StorageRecoveryCleanupProof.t).
Arguments t : clear implicits.
End StorageHelperSessionRequest.
Module StorageHelperSessionResponse.
Inductive t {StaleResponse : Type} :=
| Ready (scope_sha256 : string)
| Receipt (receipt : StorageRecoveryOperationReceipt)
| MutationLookup (lookup : MutationJournalLookup)
| MutationJournalAbsent (operation_id : string)
| MutationRejectedBeforeJournal (message : string)
| StaleReply (response : StaleResponse)
| Error (message : string)
| Finished (scope_sha256 : string).
Arguments t : clear implicits.
End StorageHelperSessionResponse.
Import StorageHelperSessionRequest StorageHelperSessionResponse.

(** ** The guard *)
Inductive PendingMutationResponse :=
| PendingMutation (operation_id : string) (lookup_requested : bool)
| PendingLookup (operation_id : string).
Definition pending_operation_id (p : PendingMutationResponse) : string :=
  match p with PendingMutation operation_id _ | PendingLookup operation_id => operation_id end.
Record AttemptGuard := mkAttemptGuard {
  ag_finished : bool;
  ag_poisoned : bool;
  ag_pending_mutation_response : option PendingMutationResponse;
}.
Global Instance AttemptGuard_eta : Eta AttemptGuard := λ g,
  mkAttemptGuard (ag_finished g) (ag_poisoned g) (ag_pending_mutation_response g).
Definition fresh_guard : AttemptGuard := mkAttemptGuard false false None.

(** An operation under a timeout. *)
Inductive Io (R : Type) := Done (r : R) | IoFailed | TimedOut.
Arguments Done {R} r.
Arguments IoFailed {R}.
Arguments TimedOut {R}.

Section Protocol.
Context {StaleRequest StaleResponse : Type} `{Htime : LeaseTime}.
Local Abbreviation Request := (StorageHelperSessionRequest.t StaleRequest).
Local Abbreviation Response := (StorageHelperSessionResponse.t StaleResponse).

(** What [read_line] and the decoder made of the output. *)
Inductive ReadLineOutcome :=
| Line (r : Response)
| AbsentOrOversized
| Undecodable.

Inductive GuardCall : Type → Type :=
| RunLease (p : LeaseProg unit) : GuardCall (Result unit)
| BuildClient (cluster_context : string) : GuardCall (Result unit)
| Spawn : GuardCall (Result unit)
| WriteLine (request : Request) : GuardCall (Io unit)
| Flush : GuardCall (Io unit)
| ReadLine : GuardCall (Io ReadLineOutcome)
(** Whether the child exited successfully. *)
| ChildWait : GuardCall (Io bool).

Inductive GuardProg (A : Type) : Type :=
| GRet (r : Result A)
| GGet (k : AttemptGuard → GuardProg A)
| GSet (g : AttemptGuard) (k : GuardProg A)
| GAwait (R : Type) (c : GuardCall R) (k : R → GuardProg A).
Arguments GRet {A} r.
Arguments GGet {A} k.
Arguments GSet {A} g k.
Arguments GAwait {A} R c k.
Fixpoint guard_bind {A B} (f : A → GuardProg B) (p : GuardProg A) : GuardProg B :=
  match p with
  | GRet (ok a) => f a
  | GRet (err e) => GRet (err e)
  | GRet panicked => GRet panicked
  | GGet k => GGet (λ g, guard_bind f (k g))
  | GSet g k => GSet g (guard_bind f k)
  | GAwait R c k => GAwait R c (λ r, guard_bind f (k r))
  end.
Global Instance GuardProg_ret : MRet GuardProg := λ A a, GRet (ok a).
Global Instance GuardProg_bind : MBind GuardProg := @guard_bind.
Definition await {R} (c : GuardCall R) : GuardProg R := GAwait R c mret.
Definition get_guard : GuardProg AttemptGuard := GGet mret.
Definition set_pending (p : option PendingMutationResponse) : GuardProg unit :=
  GGet (λ g, GSet (g <| ag_pending_mutation_response := p |>) (mret tt)).
(** [start_kill] has no effect the guard could observe but the exit of the child. *)
Definition poison_transport {A} (r : Result A) : GuardProg A :=
  GGet (λ g, GSet (g <| ag_poisoned := true |>) (GRet r)).
Definition require_sound : GuardProg unit :=
  g ← get_guard; GRet (ensure (negb (ag_poisoned g)) "storage helper transport requires a new session").

Definition send_request (request : Request) : GuardProg unit :=
  _ ← require_sound;
  written ← await (WriteLine request);
  _ ← (match written with
       | Done _ => mret tt
       | IoFailed => poison_transport (err "write storage helper request")
       | TimedOut => poison_transport (err "storage helper request write timed out")
       end);
  flushed ← await Flush;
  match flushed with
  | Done _ => mret tt
  | IoFailed => poison_transport (err "flush storage helper request")
  | TimedOut => poison_transport (err "storage helper request flush timed out")
  end.
Definition read_response : GuardProg Response :=
  _ ← require_sound;
  line ← await ReadLine;
  match line with
  | IoFailed => poison_transport (err "read storage helper response")
  | TimedOut => poison_transport (err "storage helper response timed out")
  | Done AbsentOrOversized => poison_transport (err "storage helper returned an absent or oversized response")
  | Done Undecodable => poison_transport (err "decode storage helper session response")
  | Done (Line response) => mret response
  end.
Definition exchange (request : Request) : GuardProg Response :=
  _ ← send_request request; read_response.
Definition lease_call (p : LeaseProg unit) : GuardProg unit :=
  r ← await (RunLease p); GRet r.

Context `{Henv : StorageEnv} `{Hxl2 : Xl2Env} `{Hhelper : HelperEnv}.
Local Abbreviation operation := StorageRecoveryHostOperation.t.

(** ** Starting a session *)
Definition kubernetes_char (c : ascii) : bool :=
  let n := N_of_ascii c in
  ((97 <=? n) && (n <=? 122) || (48 <=? n) && (n <=? 57) || (n =? 45) || (n =? 46))%N.
Fixpoint last_char (s : string) : option ascii :=
  match s with
  | EmptyString => None
  | String c EmptyString => Some c
  | String _ s' => last_char s'
  end.
Definition valid_kubernetes_name (value : string) : bool :=
  bool_decide (value ≠ ""%string) && (String.length value <=? 253)%nat && all_chars kubernetes_char value
  && match value with String c _ => ascii_alphanumeric c | EmptyString => false end
  && match last_char value with Some c => ascii_alphanumeric c | None => false end.

Record HostAdapter := mkHostAdapter {
  ha_cluster_context : string;
  ha_namespace : string;
  ha_helper_pod : string;
  ha_timeout : N;
}.
Definition host_adapter_new (cluster_context namespace helper_pod : string) (timeout : N) : Result HostAdapter :=
  _ ← ensure (valid_kubernetes_name namespace && valid_kubernetes_name helper_pod)
        "storage-recovery helper namespace or Pod name is invalid";
  _ ← ensure (negb (timeout =? 0)%N) "storage-recovery helper timeout is zero";
  ok (mkHostAdapter cluster_context namespace helper_pod timeout).
Definition helper_command (a : HostAdapter) (c : OwnedStorageContext) : Result unit :=
  _ ← validate_context c;
  ensure (bool_decide (oc_cluster_context c = ha_cluster_context a)
          && bool_decide (sv_namespace (oc_volume c) = ha_namespace a)
          && bool_decide (oc_helper_pod_name c = ha_helper_pod a))
    "storage-recovery helper adapter is bound to another context, namespace, or Pod".
(** The new guard is the state the program starts from once the child runs. *)
Definition begin_attempt (a : HostAdapter) (c : OwnedStorageContext) : GuardProg unit :=
  client ← await (BuildClient (oc_cluster_context c));
  _ ← GRet client;
  _ ← lease_call (require_current_lease c);
  _ ← GRet (helper_command a c);
  spawned ← await Spawn;
  _ ← GRet spawned;
  response ← exchange (Begin c);
  match response with
  | Error message => GRet (err ("storage helper rejected session startup: " +:+ message))
  | Ready scope_sha256 =>
      GRet (ensure (bool_decide (scope_sha256 = oc_scope_sha256 c))
              "storage helper returned the wrong session-ready response")
  | _ => GRet (err "storage helper returned the wrong session-ready response")
  end.

(** ** Operations *)
Definition guard_execute (c : OwnedStorageContext) (o : operation) : GuardProg StorageRecoveryOperationReceipt :=
  _ ← GRet (validate_operation o);
  _ ← lease_call (require_current_lease c);
  response ← exchange (Execute (mkStorageHelperInvocation c o));
  match response with
  | Receipt receipt => _ ← GRet (validate_receipt receipt c o); mret receipt
  | Error message => GRet (err ("storage helper rejected operation: " +:+ message))
  | _ => GRet (err "storage helper returned an unexpected operation response")
  end.

Inductive MutationAnswer :=
| MutationReceipt (receipt : StorageRecoveryOperationReceipt)
(** [Err(StorageHelperMutationRejected(message))]. *)
| MutationRejected (message : string).
Definition guard_execute_mutation (c : OwnedStorageContext) (operation_id : string) (o : operation)
    : GuardProg MutationAnswer :=
  _ ← GRet (ensure (is_file_mutation o) "explicit helper operationId is restricted to shard mutation");
  _ ← GRet (uuid_context operation_id "storage helper mutation operationId is not a UUID");
  _ ← GRet (validate_operation o);
  _ ← lease_call (require_current_lease c);
  _ ← set_pending (Some (PendingMutation operation_id false));
  _ ← send_request (ExecuteMutation operation_id (mkStorageHelperInvocation c o));
  response ← read_response;
  match response with
  | Receipt receipt =>
      _ ← set_pending None;
      _ ← GRet (validate_receipt receipt c o);
      _ ← GRet (ensure (bool_decide (or_operation_id receipt = operation_id))
                  "storage helper changed the controller-owned mutation operationId");
      mret (MutationReceipt receipt)
  | MutationRejectedBeforeJournal message => _ ← set_pending None; mret (MutationRejected message)
  | Error message => GRet (err ("storage helper mutation failed after journal creation: " +:+ message))
  | _ => GRet (err "storage helper returned an unexpected mutation response")
  end.

(** The response after a delayed mutation response. *)
Definition read_second (operation_id : string) : GuardProg Response :=
  _ ← set_pending (Some (PendingLookup operation_id));
  second ← read_response;
  _ ← set_pending None;
  mret second.
Definition awaits_lookup (p : PendingMutationResponse) : bool :=
  match p with PendingMutation _ false => true | _ => false end.
Definition exchange_mutation_lookup (request : Request) (operation_id : string) : GuardProg Response :=
  g ← get_guard;
  match ag_pending_mutation_response g with
  | None => exchange request
  | Some pending =>
      _ ← GRet (ensure (bool_decide (pending_operation_id pending = operation_id))
                  "another mutation response is still pending");
      _ ← (if awaits_lookup pending
           then _ ← send_request request; set_pending (Some (PendingMutation operation_id true))
           else mret tt);
      first ← read_response;
      match pending with
      | PendingMutation _ _ =>
          match first with
          | MutationLookup lookup => _ ← set_pending None; mret (MutationLookup lookup)
          | Receipt receipt =>
              _ ← GRet (ensure (bool_decide (or_operation_id receipt = operation_id))
                          "delayed mutation response belongs to another operationId");
              read_second operation_id
          | Error _ => read_second operation_id
          | _ => GRet (err "storage helper returned an unexpected delayed mutation response")
          end
      | PendingLookup _ => _ ← set_pending None; mret first
      end
  end.

Inductive LookupAnswer :=
| LookupFound (lookup : MutationJournalLookup)
(** [Err(StorageHelperMutationJournalAbsent(operation_id))]. *)
| LookupAbsent (operation_id : string).
Definition guard_query_mutation (c : OwnedStorageContext) (operation_id : string) (o : operation)
    : GuardProg LookupAnswer :=
  _ ← lease_call (require_current_lease c);
  response ← exchange_mutation_lookup (QueryMutation c operation_id) operation_id;
  match response with
  | MutationLookup lookup => _ ← GRet (validate_lookup lookup c operation_id o); mret (LookupFound lookup)
  | MutationJournalAbsent absent_operation_id =>
      _ ← GRet (ensure (bool_decide (absent_operation_id = operation_id))
                  "storage helper reported another absent mutation journal");
      mret (LookupAbsent absent_operation_id)
  | Error message => GRet (err ("storage helper mutation lookup failed: " +:+ message))
  | _ => GRet (err "storage helper returned an unexpected mutation lookup response")
  end.

Definition guard_execute_stale (c : OwnedStorageContext) (request : StaleRequest) : GuardProg StaleResponse :=
  _ ← lease_call (require_current_lease c);
  response ← exchange (StaleExecute c request);
  match response with
  | StaleReply response => mret response
  | Error message => GRet (err ("storage helper rejected stale operation: " +:+ message))
  | _ => GRet (err "storage helper returned an unexpected stale response")
  end.

(** ** Ending a session *)
Definition set_finished : GuardProg unit :=
  GGet (λ g, GSet (g <| ag_finished := true |>) (mret tt)).
Definition child_wait (msg : string) : GuardProg bool :=
  status ← await ChildWait;
  match status with
  | Done success => mret success
  | IoFailed => GRet (err "wait for the storage helper")
  | TimedOut => GRet (err msg)
  end.
Definition terminate_for_reconnect : GuardProg unit :=
  g ← get_guard;
  if ag_finished g then mret tt else
  _ ← poison_transport (ok tt);
  _ ← child_wait "storage helper transport did not exit before reconnect";
  set_finished.
Definition finish_in_place (c : OwnedStorageContext) (cleanup : StorageRecoveryCleanupProof.t) : GuardProg unit :=
  _ ← lease_call (require_current_lease c);
  _ ← GRet (cleanup_validate_for cleanup c);
  response ← exchange (Finish c cleanup);
  _ ← (match response with
       | Finished scope_sha256 =>
           GRet (ensure (bool_decide (scope_sha256 = oc_scope_sha256 c))
                   "storage helper returned an unexpected cleanup response")
       | Error message => GRet (err ("storage helper rejected cleanup: " +:+ message))
       | _ => GRet (err "storage helper returned an unexpected cleanup response")
       end);
  success ← child_wait "storage helper did not exit after cleanup";
  _ ← GRet (ensure success "storage helper exited unsuccessfully after cleanup");
  _ ← set_finished;
  lease_call (release_owned_lease c cleanup).

(** ** The helper *)
Context (session_execute_stale : StorageHelperSession → OwnedStorageContext → StaleRequest →
  HostProg (StorageHelperSession * Result StaleResponse)).

(** The response to a request, and the session that goes on, if it does. *)
Definition Reaction : Type := Response * option StorageHelperSession.
Definition receipt_or (s : StorageHelperSession) (result : Result StorageRecoveryOperationReceipt)
    (failed : string → HostProg Reaction) : HostProg Reaction :=
  match result with
  | ok receipt => mret (Receipt receipt, Some s)
  | err message => failed message
  | panicked => HRet panicked
  end.
(** [match session.mutation_journal_exists(id) { Ok(false) => absent, Ok(true) | Err(_) => error }]. *)
Definition unless_journaled (s : StorageHelperSession) (operation_id : string) (absent : Response)
    (message : string) : HostProg Reaction :=
  hcatch (mutation_journal_exists operation_id) (λ exists_,
    mret (match exists_ with ok false => absent | _ => Error message end, Some s)).
Definition serve_request (s : StorageHelperSession) (request : Request) : HostProg Reaction :=
  match request with
  | Begin _ => mret (Error "storage helper session is already active", Some s)
  | Execute invocation =>
      p ← session_execute s invocation;
      receipt_or p.1 p.2 (λ message, mret (Error message, Some p.1))
  | ExecuteMutation operation_id invocation =>
      p ← execute_mutation_with_id s invocation operation_id;
      receipt_or p.1 p.2 (λ message,
        unless_journaled p.1 operation_id (MutationRejectedBeforeJournal message) message)
  | QueryMutation context operation_id =>
      hcatch (query_mutation s context operation_id) (λ result,
        match result with
        | ok lookup => mret (MutationLookup lookup, Some s)
        | err message => unless_journaled s operation_id (MutationJournalAbsent operation_id) message
        | panicked => HRet panicked
        end)
  | StaleExecute context request =>
      p ← session_execute_stale s context request;
      match p.2 with
      | ok response => mret (StaleReply response, Some p.1)
      | err message => mret (Error message, Some p.1)
      | panicked => HRet panicked
      end
  | Finish context cleanup =>
      hcatch (session_finish s context cleanup) (λ result,
        match result with
        | ok _ => mret (Finished (oc_scope_sha256 context), None)
        | err message => mret (Error message, Some s)
        | panicked => HRet panicked
        end)
  end.
(** The first request; [None] in place of a response is an exit without one. *)
Definition serve_begin (request : Request) : HostProg (option Response * option StorageHelperSession) :=
  match request with
  | Begin context =>
      hcatch (session_begin context) (λ result,
        match result with
        | ok s => mret (Some (Ready (oc_scope_sha256 context)), Some s)
        | err message => mret (Some (Error message), None)
        | panicked => HRet panicked
        end)
  | _ => mret (None, None)
  end.
End Protocol.
Arguments GRet {StaleRequest StaleResponse Htime A} r.
Arguments GGet {StaleRequest StaleResponse Htime A} k.
Arguments GSet {StaleRequest StaleResponse Htime A} g k.
Arguments GAwait {StaleRequest StaleResponse Htime A} R c k.
