(* ===== verification/HelperSystem.v ===== *)
(** Controller and helper as one system: the calls of the guard on one end of the
    pipe, one after another and each dropped at any await if its caller wishes, the
    helper on the other end, which serves the lines it finds and may die at any
    time. *)
From S2P Require Import Prelude RustText RustWords Quorum Msgpack Xl2Inspector.
From S2P Require Import StorageLease StorageOwnership StorageReceipts HostFiles StorageHelper StorageMutation StorageSession.
From S2P Require Import StorageMutationFacts StorageHelperTheorems HelperProtocol.
From stdpp Require Import options.
Import StorageHelperSessionRequest StorageHelperSessionResponse.

Section System.
Context {StaleRequest StaleResponse : Type} `{Htime : LeaseTime}.
Context `{Henv : StorageEnv} `{Hxl2 : Xl2Env} `{Hhelper : HelperEnv}.
Context (session_execute_stale : StorageHelperSession → OwnedStorageContext → StaleRequest →
  HostProg (StorageHelperSession * Result StaleResponse)).
Local Abbreviation Request := (StorageHelperSessionRequest.t StaleRequest).
Local Abbreviation Response := (StorageHelperSessionResponse.t StaleResponse).
Local Abbreviation operation := StorageRecoveryHostOperation.t.
Local Abbreviation Prog := (@GuardProg StaleRequest StaleResponse Htime).
Local Abbreviation Call := (@GuardCall StaleRequest StaleResponse Htime).
Local Abbreviation serve := (serve_request session_execute_stale).

(** ** The world of a session *)

(** A line of the pipe that is a request, or one that does not decode: the rest
    of a line whose write was cut off, joined with the next. *)
Inductive PipeLine := Whole (r : Request) | Garbage.
(** A request the helper served, with the session and the host before and after. *)
Record Entry := mkEntry {
  en_request : Request;
  en_response : Response;
  en_session : StorageHelperSession;
  en_next : option StorageHelperSession;
  en_before : Host;
  en_after : Host;
}.
Inductive HelperState := Starting | Serving (s : StorageHelperSession) | Exited (success : bool).
Record World := mkWorld {
  w_pipe : list PipeLine;
  w_torn : bool;
  w_helper : HelperState;
  w_host : Host;
  w_log : list Entry;
  w_unread : list Response;
  w_half_read : bool;
}.
Definition whole (l : PipeLine) : option Request := match l with Whole r => Some r | Garbage => None end.

Definition write_whole (w : World) (r : Request) : World :=
  mkWorld (w_pipe w ++ [if w_torn w then Garbage else Whole r]) false (w_helper w) (w_host w) (w_log w)
    (w_unread w) (w_half_read w).
Definition write_torn (w : World) : World :=
  mkWorld (w_pipe w) true (w_helper w) (w_host w) (w_log w) (w_unread w) (w_half_read w).
Definition read_half (w : World) : World :=
  mkWorld (w_pipe w) (w_torn w) (w_helper w) (w_host w) (w_log w) (w_unread w) true.
Definition read_one (w : World) (unread : list Response) : World :=
  mkWorld (w_pipe w) (w_torn w) (w_helper w) (w_host w) (w_log w) unread false.

(** A call that did not come to its end: a write may have put nothing, a part of
    the line or all of it into the pipe, a read may have lost a part of a line. *)
Inductive interrupted : ∀ {R}, Call R → World → World → Prop :=
| int_nothing {R} (c : Call R) w : interrupted c w w
| int_torn r w : interrupted (WriteLine r) w (write_torn w)
| int_whole r w : interrupted (WriteLine r) w (write_whole w r)
| int_half w : interrupted ReadLine w (read_half w).
Inductive completes : ∀ {R}, Call R → World → R → World → Prop :=
| co_lease p r w : completes (RunLease p) w r w
| co_client x r w : completes (BuildClient x) w r w
| co_spawn r w : completes Spawn w r w
| co_written r w : completes (WriteLine r) w (Done tt) (write_whole w r)
| co_write_failed r w w' : interrupted (WriteLine r) w w' → completes (WriteLine r) w IoFailed w'
| co_write_timeout r w w' : interrupted (WriteLine r) w w' → completes (WriteLine r) w TimedOut w'
| co_flush x w : completes Flush w x w
| co_read w response unread :
    w_unread w = response :: unread → w_half_read w = false →
    completes ReadLine w (Done (Line response)) (read_one w unread)
| co_undecodable w response unread :
    w_unread w = response :: unread → completes ReadLine w (Done Undecodable) (read_one w unread)
| co_absent w : completes ReadLine w (Done AbsentOrOversized) w
| co_read_failed w w' : interrupted ReadLine w w' → completes ReadLine w IoFailed w'
| co_read_timeout w w' : interrupted ReadLine w w' → completes ReadLine w TimedOut w'
| co_exited w success : w_helper w = Exited success → completes ChildWait w (Done success) w
| co_wait_failed w : completes ChildWait w IoFailed w
| co_wait_timeout w : completes ChildWait w TimedOut w.

Definition goes_on (next : option StorageHelperSession) : HelperState :=
  match next with Some s => Serving s | None => Exited true end.
Inductive helper_step : World → World → Prop :=
| he_begin w r pipe response next h :
    w_pipe w = Whole r :: pipe → w_helper w = Starting →
    host_run (w_host w) (serve_begin r) h (HRet (ok (Some response, next))) →
    helper_step w (mkWorld pipe (w_torn w) (match next with Some s => Serving s | None => Exited false end) h
                     (w_log w) (w_unread w ++ [response]) (w_half_read w))
| he_serve w r pipe s response next h :
    w_pipe w = Whole r :: pipe → w_helper w = Serving s →
    host_run (w_host w) (serve s r) h (HRet (ok (response, next))) →
    helper_step w (mkWorld pipe (w_torn w) (goes_on next) h
                     (w_log w ++ [mkEntry r response s next (w_host w) h]) (w_unread w ++ [response]) (w_half_read w))
(** The helper is killed, fails, or gives up on its input, perhaps in the middle
    of serving a request. *)
| he_dies w h :
    (∀ success, w_helper w ≠ Exited success) →
    (h = w_host w ∨ ∃ r pipe s p, w_pipe w = Whole r :: pipe ∧ w_helper w = Serving s ∧
                      host_run (w_host w) (serve s r) h p) →
    helper_step w (mkWorld (w_pipe w) (w_torn w) (Exited false) h (w_log w) (w_unread w) (w_half_read w)).

(** ** The controller *)
Inductive Op :=
| OpBegin (a : HostAdapter) (c : OwnedStorageContext)
| OpExecute (c : OwnedStorageContext) (o : operation)
| OpMutation (c : OwnedStorageContext) (operation_id : string) (o : operation)
| OpQuery (c : OwnedStorageContext) (operation_id : string) (o : operation)
| OpStale (c : OwnedStorageContext) (request : StaleRequest)
| OpTerminate
| OpFinish (c : OwnedStorageContext) (cleanup : StorageRecoveryCleanupProof.t).
Inductive OpValue :=
| VUnit
| VReceipt (receipt : StorageRecoveryOperationReceipt)
| VMutation (answer : MutationAnswer)
| VLookup (answer : LookupAnswer)
| VStale (response : StaleResponse).
Definition op_program (op : Op) : Prog OpValue :=
  match op with
  | OpBegin a c => _ ← begin_attempt a c; mret VUnit
  | OpExecute c o => r ← guard_execute c o; mret (VReceipt r)
  | OpMutation c operation_id o => r ← guard_execute_mutation c operation_id o; mret (VMutation r)
  | OpQuery c operation_id o => r ← guard_query_mutation c operation_id o; mret (VLookup r)
  | OpStale c request => r ← guard_execute_stale c request; mret (VStale r)
  | OpTerminate => _ ← terminate_for_reconnect; mret VUnit
  | OpFinish c cleanup => _ ← finish_in_place c cleanup; mret VUnit
  end.

Inductive Task := Idle | Running (op : Op) (p : Prog OpValue).
Record Config := mkConfig {
  cf_guard : AttemptGuard;
  cf_world : World;
  cf_task : Task;
  (** The identifiers of the mutations that were looked up. *)
  cf_queried : gset string;
}.
(** An identifier is the identifier of one mutation: it is not mutated with
    again once it was looked up. *)
Definition allowed (queried : gset string) (op : Op) : Prop :=
  match op with OpMutation _ operation_id _ => operation_id ∉ queried | _ => True end.
Definition queries (op : Op) : gset string :=
  match op with OpQuery _ operation_id _ => {[operation_id]} | _ => ∅ end.

Inductive system_step : Config → Config → Prop :=
| sy_call g w q op : allowed q op →
    system_step (mkConfig g w Idle q) (mkConfig g w (Running op (op_program op)) (q ∪ queries op))
| sy_get g w op k q : system_step (mkConfig g w (Running op (GGet k)) q) (mkConfig g w (Running op (k g)) q)
| sy_set g w op g' k q : system_step (mkConfig g w (Running op (GSet g' k)) q) (mkConfig g' w (Running op k) q)
| sy_await g w op R (c : Call R) k r w' q : completes c w r w' →
    system_step (mkConfig g w (Running op (GAwait R c k)) q) (mkConfig g w' (Running op (k r)) q)
| sy_drop g w op R (c : Call R) k w' q : interrupted c w w' →
    system_step (mkConfig g w (Running op (GAwait R c k)) q) (mkConfig g w' Idle q)
| sy_return g w op r q : system_step (mkConfig g w (Running op (GRet r)) q) (mkConfig g w Idle q)
| sy_helper g w w' t q : helper_step w w' → system_step (mkConfig g w t q) (mkConfig g w' t q).
Definition initial_config (h : Host) : Config :=
  mkConfig fresh_guard (mkWorld [] false Starting h [] [] false) Idle ∅.
Definition reachable (h : Host) (cf : Config) : Prop := rtc system_step (initial_config h) cf.
End System.
