(* ===== verification/HelperSystemFacts.v ===== *)
(** Sessions of controller and helper: what an answer the controller gets says
    about the host, however calls are dropped, responses delayed and the helper
    killed, and when the Lease is given up. *)
From S2P Require Import Prelude RustText RustWords Quorum Msgpack Xl2Inspector.
From S2P Require Import StorageLease StorageOwnership StorageReceipts HostFiles StorageHelper StorageMutation StorageSession.
From S2P Require Import StorageMutationFacts StorageHelperTheorems HelperProtocol HelperSystem.
From stdpp Require Import options.
Import StorageHelperSessionRequest StorageHelperSessionResponse.

(** ** What the helper answers *)
Lemma hwp_weaken `{JournalNames} {A} (I I' : Host → Prop) (Q : Result A → Host → Prop) p h :
  (∀ h, I h → I' h) → hwp I Q p h → hwp I' Q p h.
Proof. intros HI. revert h. induction p as [r|R c k IH]; intros h [Hi Hp]; split; auto. Qed.
Lemma hwp_keep `{JournalNames} {A} (I : Host → Prop) (Q : Result A → Host → Prop) p h :
  hwp I Q p h → hwp I (λ r h, I h ∧ Q r h) p h.
Proof. revert h. induction p as [r|R c k IH]; intros h [Hi Hp]; split; auto. Qed.
Lemma hwp_trivial `{JournalNames} {A} (Q : Result A → Host → Prop) p h :
  (∀ r h, Q r h) → hwp (λ _, True) Q p h.
Proof. intros HQ. revert h. induction p as [r|R c k IH]; intros h; split; auto. Qed.

Section Serving.
Context {StaleRequest StaleResponse : Type}.
Context `{Henv : StorageEnv} `{Hxl2 : Xl2Env} `{Hhelper : HelperEnv}.
Context (session_execute_stale : StorageHelperSession → OwnedStorageContext → StaleRequest →
  HostProg (StorageHelperSession * Result StaleResponse)).
Local Abbreviation serve := (serve_request session_execute_stale).

(** No journal of the operation is in the journal directory. *)
Definition journal_absent (h : Host) (operation_id : string) : Prop :=
  ∃ name, journal_name operation_id = ok name ∧ h_journal h !! name = None.
(** The cleanup that ended the session was checked against its owner. *)
Definition cleanup_accepted (s : StorageHelperSession) (c : OwnedStorageContext)
    (cleanup : StorageRecoveryCleanupProof.t) : Prop :=
  same_session (hs_owner s) c = true ∧ cleanup_validate_for cleanup c = ok tt ∧
  (is_abort cleanup = true → hs_mutation_started s = false).
Definition reaction_ok (s : StorageHelperSession) (r : StorageHelperSessionRequest.t StaleRequest) (h : Host)
    (reaction : StorageHelperSessionResponse.t StaleResponse * option StorageHelperSession) (h' : Host) : Prop :=
  match r with
  | QueryMutation c id =>
      is_Some reaction.2 ∧
      match reaction.1 with
      | MutationLookup l => h' = h ∧ ml_operation_id l = id ∧ ∃ j, loaded h id j ∧ lookup_of j l
      | MutationJournalAbsent id' => h' = h ∧ id' = id ∧ journal_absent h id
      | Error _ => True
      | _ => False
      end
  | Finish c cleanup =>
      match reaction.1 with
      | Finished scope => reaction.2 = None ∧ scope = oc_scope_sha256 c ∧ cleanup_accepted s c cleanup
      | Error _ => is_Some reaction.2
      | _ => False
      end
  | _ =>
      is_Some reaction.2 ∧
      match reaction.1 with
      | MutationLookup _ | MutationJournalAbsent _ | Finished _ => False
      | Receipt _ => match r with Execute _ | ExecuteMutation _ _ => True | _ => False end
      | _ => True
      end
  end.

Lemma receipt_or_ok (I : Host → Prop) s result failed h (P : _ → Host → Prop) :
  I h → (∀ receipt, P (Receipt receipt, Some s) h) → (∀ message, hok I P (failed message) h) →
  hok I P (receipt_or (StaleResponse := StaleResponse) s result failed) h.
Proof. intros Hi Hr Hf. destruct result; [by apply hok_value|by apply Hf|by apply hok_ret]. Qed.
Lemma unless_journaled_ok s id absent message h (P : _ → Host → Prop) :
  (journal_absent h id → P (absent, Some s) h) → P (Error message, Some s) h →
  hok (unchanged h) P (unless_journaled (StaleResponse := StaleResponse) s id absent message) h.
Proof.
  intros Ha He. unfold unless_journaled. apply hwp_catch.
  assert (hok (unchanged h) (λ b _, b = false → journal_absent h id) (mutation_journal_exists id) h) as Hex.
  { unfold mutation_journal_exists. apply hok_bind_ret; [done|]. intros name Hname.
    apply hok_bind, hok_context, hok_silent; [done..|]. intros names [_ Hn]%answers_inv.
    apply hok_value; [done|]. intros Hb%bool_decide_eq_false. exists name. split; [done|].
    rewrite Hn, <-eq_None_not_Some in Hb. done. }
  eapply hwp_mono; [|exact (hwp_keep _ _ _ _ Hex)].
  intros r h' [-> Hr]. destruct r as [[]|e|]; try done; (apply hok_value; [done|]); eauto.
Qed.

Lemma serve_ok s r h : hok (λ _, True) (reaction_ok s r h) (serve s r) h.
Proof using Type.
  destruct r as [c|invocation|id invocation|c id|c request|c cleanup]; cbn [serve_request].
  - by apply hok_value.
  - apply hok_bind, hwp_trivial. intros r h' p _. apply receipt_or_ok; [done|done|]. intros. by apply hok_value.
  - apply hok_bind, hwp_trivial. intros r h' p _. apply receipt_or_ok; [done|done|]. intros message.
    eapply hwp_weaken; [|apply unless_journaled_ok]; done.
  - apply (hwp_weaken (unchanged h)); [done|]. apply hwp_catch.
    eapply hwp_mono; [|exact (hwp_keep _ _ _ _ (query_mutation_ok s c id h))].
    intros r h' [-> Hr]. destruct r as [l|e|]; [|by apply unless_journaled_ok|done].
    apply hok_value; [done|]. destruct (Hr l eq_refl) as (? & _ & ?). done.
  - apply hok_bind, hwp_trivial. intros r h' [s' [response|e|]] _; cbn [snd fst]; [by apply hok_value..|by apply hok_ret].
  - apply (hwp_weaken (unchanged h)); [done|]. apply hwp_catch.
    assert (hok (unchanged h) (λ _ _, cleanup_accepted s c cleanup) (session_finish s c cleanup) h) as Hf.
    { unfold session_finish. apply hok_bind, session_context_ok. intros _ Hs.
      apply hok_bind_ret; [done|]. intros [] Habort%ensure_ok. apply hok_ret; [done|]. intros [] Hc.
      split_and!; [done..|]. intros Ha. rewrite Ha in Habort. by apply negb_true_iff in Habort. }
    eapply hwp_mono; [|exact (hwp_keep _ _ _ _ Hf)].
    intros r h' [-> Hr]. destruct r as [[]|e|]; [|apply hok_value; [done|]; by eexists|done].
    apply hok_value; [done|]. cbn. split; [done|]. split; [done|]. exact (Hr tt eq_refl).
Qed.
Lemma serve_run s r h h' response next :
  host_run h (serve s r) h' (HRet (ok (response, next))) → reaction_ok s r h (response, next) h'.
Proof using Type. intros Hrun. by apply (hok_run _ _ _ _ _ _ (serve_ok s r h) Hrun). Qed.
End Serving.

(** ** What the controller's calls do *)
Section Guarding.
Context {StaleRequest StaleResponse : Type} `{Htime : LeaseTime}.
Local Abbreviation Request := (StorageHelperSessionRequest.t StaleRequest).
Local Abbreviation Response := (StorageHelperSessionResponse.t StaleResponse).
Local Abbreviation Prog := (@GuardProg StaleRequest StaleResponse Htime).
Local Abbreviation Call := (@GuardCall StaleRequest StaleResponse Htime).

(** The responses a call reads, and whether it saw the child exit with success. *)
Definition seen_of {R} (c : Call R) : R → list Response :=
  match c with ReadLine => λ r, match r with Done (Line x) => [x] | _ => [] end | _ => λ _, [] end.
Definition exit_of {R} (c : Call R) : R → bool :=
  match c with ChildWait => λ r, match r with Done b => b | _ => false end | _ => λ _, false end.

Section rules.
Context (W : Request → Prop) (L : list Response → bool → LeaseProg unit → Prop).
Definition call_ok (seen : list Response) (exited : bool) {R} (c : Call R) : Prop :=
  match c with WriteLine r => W r | RunLease p => L seen exited p | _ => True end.
(** The program writes requests of [W] and runs Lease programs of [L], and [Q]
    holds of a value it returns, of the responses it read and of the exit it saw. *)
Fixpoint gok {A} (Q : list Response → bool → A → Prop) (seen : list Response) (exited : bool) (p : Prog A) : Prop :=
  match p with
  | GRet r => ∀ a, r = ok a → Q seen exited a
  | GGet k => ∀ g, gok Q seen exited (k g)
  | GSet _ k => gok Q seen exited k
  | GAwait R c k =>
      call_ok seen exited c ∧ ∀ r, gok Q (seen ++ seen_of c r) (exited || exit_of c r) (k r)
  end.

Lemma gok_bind {A B} (Q : list Response → bool → B → Prop) (f : A → Prog B) seen exited p :
  gok (λ seen exited a, gok Q seen exited (f a)) seen exited p → gok Q seen exited (p ≫= f).
Proof using Type.
  unfold mbind, GuardProg_bind. revert seen exited.
  induction p as [[a|e|]|k IH|g k IH|R c k IH]; intros seen exited Hp; cbn in *; [by apply Hp|done|done|..].
  - intros g. by apply IH.
  - by apply IH.
  - destruct Hp as [Hc Hk]. split; [done|]. intros r. by apply IH.
Qed.
Lemma gok_ret {A} (Q : list Response → bool → A → Prop) seen exited r :
  (∀ a, r = ok a → Q seen exited a) → gok Q seen exited (GRet r).
Proof using Type. done. Qed.
Lemma gok_value {A} (Q : list Response → bool → A → Prop) seen exited a : Q seen exited a → gok Q seen exited (mret a).
Proof using Type. by intros ? ? [= <-]. Qed.
Lemma gok_then {A B} (Q : list Response → bool → B → Prop) seen exited (r : Result A) (f : A → Prog B) :
  (∀ a, r = ok a → gok Q seen exited (f a)) → gok Q seen exited (GRet r ≫= f).
Proof using Type. intros H. by apply gok_bind, gok_ret. Qed.

(** Reads that know nothing new, and errors. *)
Lemma gok_same {A} (Q : list Response → bool → A → Prop) seen exited k :
  gok Q seen exited k → gok Q (seen ++ []) (exited || false) k.
Proof using Type. by rewrite app_nil_r, orb_false_r. Qed.
Lemma gok_poison {A} (Q : list Response → bool → A → Prop) seen exited e :
  gok Q seen exited (poison_transport (err e)).
Proof using Type. by intros g a. Qed.
Lemma gok_sound {B} (Q : list Response → bool → B → Prop) seen exited (f : unit → Prog B) :
  gok Q seen exited (f tt) → gok Q seen exited (require_sound ≫= f).
Proof using Type.
  intros Hf. apply gok_bind. intros g. apply (gok_ret (λ seen exited a, gok Q seen exited (f a))).
  by intros [] _.
Qed.
Lemma gok_send {B} (Q : list Response → bool → B → Prop) seen exited r (f : unit → Prog B) :
  W r → gok Q seen exited (f tt) → gok Q seen exited (send_request r ≫= f).
Proof using Type.
  intros Hr Hf. apply gok_bind, gok_sound, gok_bind. split; [done|]. intros written. cbn [seen_of exit_of].
  apply gok_same, gok_value, gok_bind. destruct written; [|apply gok_poison..]. apply gok_value, gok_bind.
  split; [done|]. intros flushed. apply gok_same, gok_value. destruct flushed; [by apply gok_value|apply gok_poison..].
Qed.
Lemma gok_read (Q : list Response → bool → Response → Prop) seen exited :
  (∀ response, Q (seen ++ [response]) exited response) → gok Q seen exited read_response.
Proof using Type.
  intros Hf. apply gok_sound, gok_bind. split; [done|]. intros line.
  cbn [seen_of exit_of]. rewrite orb_false_r. apply gok_value.
  destruct line as [[response| |]| |]; [by apply gok_value|apply gok_poison..].
Qed.
Lemma gok_exchange (Q : list Response → bool → Response → Prop) seen exited r :
  W r → (∀ response, Q (seen ++ [response]) exited response) → gok Q seen exited (exchange r).
Proof using Type. intros Hr Hf. by apply gok_send, gok_read. Qed.
Lemma gok_lease_call (Q : list Response → bool → unit → Prop) seen exited p :
  L seen exited p → Q seen exited tt → gok Q seen exited (lease_call p).
Proof using Type.
  intros Hp Hf. apply gok_bind. split; [done|]. intros r. apply gok_same, gok_value, gok_ret. by intros [] _.
Qed.
Lemma gok_lease {B} (Q : list Response → bool → B → Prop) seen exited p (f : unit → Prog B) :
  L seen exited p → gok Q seen exited (f tt) → gok Q seen exited (lease_call p ≫= f).
Proof using Type. intros Hp Hf. by apply gok_bind, gok_lease_call. Qed.
Lemma gok_pending {B} (Q : list Response → bool → B → Prop) seen exited x (f : unit → Prog B) :
  gok Q seen exited (f tt) → gok Q seen exited (set_pending x ≫= f).
Proof using Type. intros Hf. apply gok_bind. intros g. by apply gok_value. Qed.
Lemma gok_poisoned {B} (Q : list Response → bool → B → Prop) seen exited (f : unit → Prog B) :
  gok Q seen exited (f tt) → gok Q seen exited (poison_transport (ok tt) ≫= f).
Proof using Type. intros Hf. apply gok_bind. intros g. by apply gok_value. Qed.
Lemma gok_wait {B} (Q : list Response → bool → B → Prop) seen exited msg (f : bool → Prog B) :
  (∀ success, gok Q seen (exited || success) (f success)) → gok Q seen exited (child_wait msg ≫= f).
Proof using Type.
  intros Hf. apply gok_bind, gok_bind. split; [done|]. intros r. cbn [seen_of exit_of].
  rewrite app_nil_r. apply gok_value. destruct r; [by apply gok_value|by apply gok_ret..].
Qed.
End rules.
End Guarding.

Section Operations.
Context {StaleRequest StaleResponse : Type} `{Htime : LeaseTime}.
Context `{Henv : StorageEnv} `{Hxl2 : Xl2Env} `{Hhelper : HelperEnv}.
Context (session_execute_stale : StorageHelperSession → OwnedStorageContext → StaleRequest →
  HostProg (StorageHelperSession * Result StaleResponse)).
Local Abbreviation Request := (StorageHelperSessionRequest.t StaleRequest).
Local Abbreviation Response := (StorageHelperSessionResponse.t StaleResponse).
Local Abbreviation Op := (@Op StaleRequest).
Local Abbreviation OpValue := (@OpValue StaleResponse).

(** The request of a call, its Lease programs and its value. *)
Definition op_writes (op : Op) (r : Request) : Prop :=
  match op with
  | OpBegin _ c => r = Begin c
  | OpExecute c o => r = Execute (mkStorageHelperInvocation c o)
  | OpMutation c id o => r = ExecuteMutation id (mkStorageHelperInvocation c o)
  | OpQuery c id _ => r = QueryMutation c id
  | OpStale c request => r = StaleExecute c request
  | OpTerminate => False
  | OpFinish c cleanup => r = Finish c cleanup
  end.
Definition op_lease (op : Op) (seen : list Response) (exited : bool) (p : LeaseProg unit) : Prop :=
  match op with
  | OpBegin _ c | OpExecute c _ | OpMutation c _ _ | OpQuery c _ _ | OpStale c _ => p = require_current_lease c
  | OpTerminate => False
  | OpFinish c cleanup =>
      p = require_current_lease c ∨
      p = release_owned_lease c cleanup ∧ exited = true ∧ Finished (oc_scope_sha256 c) ∈ seen
  end.
Definition op_value (op : Op) (seen : list Response) (v : OpValue) : Prop :=
  match op, v with
  | OpExecute c o, VReceipt r => Receipt r ∈ seen ∧ validate_receipt r c o = ok tt
  | OpMutation c id o, VMutation (MutationReceipt r) =>
      Receipt r ∈ seen ∧ validate_receipt r c o = ok tt ∧ or_operation_id r = id
  | OpMutation _ _ _, VMutation (MutationRejected message) => MutationRejectedBeforeJournal message ∈ seen
  | OpQuery c id o, VLookup (LookupFound l) => MutationLookup l ∈ seen ∧ validate_lookup l c id o = ok tt
  | OpQuery c id o, VLookup (LookupAbsent id') => id' = id ∧ MutationJournalAbsent id ∈ seen
  | OpStale _ _, VStale response => StaleReply response ∈ seen
  | (OpBegin _ _ | OpTerminate | OpFinish _ _), VUnit => True
  | _, _ => False
  end.
Local Abbreviation op_ok op := (gok (op_writes op) (op_lease op) (λ seen _ v, op_value op seen v)).

Lemma elem_of_snoc_last {A} (l : list A) x : x ∈ l ++ [x].
Proof using Type. apply elem_of_app. right. by left. Qed.
Local Hint Resolve elem_of_snoc_last list_elem_of_here : core.
Local Hint Extern 0 (op_writes _ _) => exact eq_refl : core.
Local Hint Extern 0 (op_lease _ _ _ _) => first [exact eq_refl | left; exact eq_refl] : core.

Lemma lookup_read (W : Request → Prop) L (Q : list Response → bool → Response → Prop) seen exited r id :
  W r → (∀ seen response, response ∈ seen → Q seen exited response) →
  gok W L Q seen exited (exchange_mutation_lookup r id).
Proof using Type.
  intros Hr HQ. apply gok_bind. intros g. apply gok_value.
  destruct (ag_pending_mutation_response g) as [pending|]; [|apply gok_exchange; auto].
  apply gok_then. intros [] _. apply gok_bind.
  assert (∀ seen, gok W L Q seen exited (read_second id)) as Hsecond.
  { intros seen'. apply gok_pending, gok_bind, gok_read. intros response. apply gok_pending, gok_value. auto. }
  assert (∀ seen response, response ∈ seen → gok W L Q seen exited (_ ← set_pending None; mret response)) as Hlast.
  { intros seen' response Hin. apply gok_pending, gok_value. auto. }
  assert (∀ seen, gok W L Q seen exited (
    first ← read_response;
    match pending with
    | PendingMutation _ _ =>
        match first with
        | MutationLookup lookup => _ ← set_pending None; mret (MutationLookup lookup)
        | Receipt receipt =>
            _ ← GRet (ensure (bool_decide (or_operation_id receipt = id))
                        "delayed mutation response belongs to another operationId");
            read_second id
        | Error _ => read_second id
        | _ => GRet (err "storage helper returned an unexpected delayed mutation response")
        end
    | PendingLookup _ => _ ← set_pending None; mret first
    end)) as Hfirst.
  { intros seen'. apply gok_bind, gok_read. intros first.
    destruct pending; [destruct first; try (by apply gok_ret); auto; apply gok_then; auto|auto]. }
  destruct (awaits_lookup pending); [|by apply gok_value].
  apply gok_send; [done|]. intros g'. by apply gok_value.
Qed.

Lemma op_program_ok op : op_ok op [] false (op_program op).
Proof using Type.
  destruct op as [a c|c o|c id o|c id o|c request| |c cleanup]; cbn [op_program]; apply gok_bind.
  - apply gok_bind. split; [done|]. intros client. apply gok_same, gok_value. apply gok_then. intros [] _.
    apply gok_lease; [auto|]. apply gok_then. intros [] _. apply gok_bind. split; [done|]. intros spawned.
    apply gok_same, gok_value, gok_then. intros [] _. apply gok_bind, gok_exchange; [auto|]. intros response.
    destruct response; apply gok_ret; try done; intros [] _; by apply gok_value.
  - apply gok_then. intros [] _. apply gok_lease; [auto|]. apply gok_bind, gok_exchange; [auto|].
    intros response. destruct response; try (by apply gok_ret). apply gok_then. intros [] Hv. apply gok_value, gok_value.
    cbn. auto.
  - apply gok_then. intros [] _. apply gok_then. intros [] _. apply gok_then. intros [] _.
    apply gok_lease; [auto|]. apply gok_pending, gok_send; [auto|]. apply gok_bind, gok_read.
    intros response. destruct response; try (by apply gok_ret); apply gok_pending.
    + apply gok_then. intros [] Hv. apply gok_then. intros [] Hid%ensure_ok%bool_decide_eq_true.
      apply gok_value, gok_value. cbn. auto.
    + apply gok_value, gok_value. cbn. auto.
  - apply gok_lease; [auto|]. apply gok_bind, lookup_read; [auto|]. intros seen response Hin.
    destruct response; try (by apply gok_ret).
    + apply gok_then. intros [] Hv. apply gok_value, gok_value. done.
    + apply gok_then. intros [] Hid%ensure_ok%bool_decide_eq_true. apply gok_value, gok_value. cbn. by subst.
  - apply gok_lease; [auto|]. apply gok_bind, gok_exchange; [auto|]. intros response.
    destruct response; try (by apply gok_ret). apply gok_value, gok_value. cbn. auto.
  - apply gok_bind. intros g. apply gok_value. destruct (ag_finished g); [by apply gok_value, gok_value|].
    apply gok_poisoned, gok_wait. intros success g'. by apply gok_value, gok_value.
  - apply gok_lease; [auto|]. apply gok_then. intros [] _. apply gok_bind, gok_exchange; [auto|]. intros response.
    apply gok_bind. destruct response; apply gok_ret; try done. intros [] ->%ensure_ok%bool_decide_eq_true.
    apply gok_wait. intros success. apply gok_then. intros [] ->%ensure_ok. apply gok_bind. intros g. apply gok_value.
    apply gok_lease_call; [right; cbn; auto|by apply gok_value].
Qed.
End Operations.

(** ** Pairing responses with requests *)
Section Pairing.
Context {StaleRequest StaleResponse : Type} `{Htime : LeaseTime}.
Local Abbreviation Request := (StorageHelperSessionRequest.t StaleRequest).
Local Abbreviation Response := (StorageHelperSessionResponse.t StaleResponse).
Local Abbreviation Prog := (@GuardProg StaleRequest StaleResponse Htime).
Local Abbreviation Call := (@GuardCall StaleRequest StaleResponse Htime).

(** Every call succeeds and reads take the given responses; [None] when the guard
    waits for a response that does not come. *)
Definition answer_call {R} (c : Call R) (responses : list Response) : option (R * list Response) :=
  match c in GuardCall R return option (R * list Response) with
  | RunLease _ => Some (ok tt, responses)
  | BuildClient _ => Some (ok tt, responses)
  | Spawn => Some (ok tt, responses)
  | WriteLine _ => Some (Done tt, responses)
  | Flush => Some (Done tt, responses)
  | ReadLine => match responses with x :: rest => Some (Done (Line x), rest) | [] => None end
  | ChildWait => Some (Done true, responses)
  end.
Fixpoint run_guard {A} (g : AttemptGuard) (responses : list Response) (p : Prog A)
    : option (Result A * AttemptGuard * list Response) :=
  match p with
  | GRet r => Some (r, g, responses)
  | GGet k => run_guard g responses (k g)
  | GSet g k => run_guard g responses k
  | GAwait R c k => match answer_call c responses with Some (r, rest) => run_guard g rest (k r) | None => None end
  end.

(** After a mutation whose response was not read, a lookup takes the delayed
    response for what it is and returns its own; after one that was answered with an
    error it takes its own answer, unless that is an error too: then it waits for a
    response that does not come. *)
Theorem lookup_resynchronizes g id (r : Request) rest :
  ag_poisoned g = false → ag_pending_mutation_response g = Some (PendingMutation id false) →
  (∀ delayed response : Response,
     match delayed with Receipt receipt => or_operation_id receipt = id | Error _ => True | _ => False end →
     run_guard g (delayed :: response :: rest) (exchange_mutation_lookup r id)
     = Some (ok response, g <| ag_pending_mutation_response := None |>, rest)) ∧
  (∀ lookup, run_guard g (MutationLookup lookup :: rest) (exchange_mutation_lookup r id)
     = Some (ok (MutationLookup lookup), g <| ag_pending_mutation_response := None |>, rest)) ∧
  (∀ message, run_guard g [Error message] (exchange_mutation_lookup r id) = None).
Proof using Type.
  destruct g as [f p o]. cbn. intros -> ->. cbn. rewrite bool_decide_eq_true_2 by done. cbn.
  split_and!; [|done..]. intros delayed response Hd. destruct delayed; try done. by rewrite bool_decide_eq_true_2.
Qed.
End Pairing.
