(* ===== verification/HelperSystemTheorems.v ===== *)
(** The invariant of a session and its theorems: an answer to a lookup is final,
    and the Lease is released only after the helper has accepted the cleanup and
    exited. *)
From S2P Require Import Prelude RustText RustWords Quorum Msgpack Xl2Inspector.
From S2P Require Import StorageLease StorageOwnership StorageReceipts HostFiles StorageHelper StorageMutation StorageSession.
From S2P Require Import StorageMutationFacts StorageHelperTheorems HelperProtocol HelperSystem HelperSystemFacts.
From stdpp Require Import options.
Import StorageHelperSessionRequest StorageHelperSessionResponse.

(** ** Lookups follow mutations *)
Section Order.
Context {StaleRequest : Type}.
Local Abbreviation Request := (StorageHelperSessionRequest.t StaleRequest).

(** No mutation [id] comes after a lookup of [id]. *)
Definition lookups_last (id : string) (l : list Request) : Prop :=
  ∀ l1 c l2 inv, l = l1 ++ QueryMutation c id :: l2 → ExecuteMutation id inv ∉ l2.

Lemma lookups_last_snoc id l r :
  lookups_last id l → (∀ inv, r = ExecuteMutation id inv → ∀ c, QueryMutation c id ∉ l) → lookups_last id (l ++ [r]).
Proof using Type.
  intros Hl Hr l1 c l2 inv Heq. destruct l2 as [|x l2 _] using rev_ind; [by intros ?%elem_of_nil|].
  rewrite app_comm_cons, (assoc_L (++)) in Heq. apply app_inj_tail in Heq as [Heq ->].
  intros [Hin|Hin%list_elem_of_singleton]%elem_of_app; [by eapply Hl|].
  eapply (Hr inv (eq_sym Hin) c). rewrite Heq. apply elem_of_app. right. by left.
Qed.
Lemma lookups_last_tail id r l : lookups_last id (r :: l) → lookups_last id l.
Proof using Type. intros Hl l1 c l2 inv ->. by apply (Hl (r :: l1) c l2 inv). Qed.
End Order.

Section Sessions.
Context {StaleRequest StaleResponse : Type} `{Htime : LeaseTime}.
Context `{Henv : StorageEnv} `{Hxl2 : Xl2Env} `{Hhelper : HelperEnv}.
Context (session_execute_stale : StorageHelperSession → OwnedStorageContext → StaleRequest →
  HostProg (StorageHelperSession * Result StaleResponse)).
Local Abbreviation Request := (StorageHelperSessionRequest.t StaleRequest).
Local Abbreviation Response := (StorageHelperSessionResponse.t StaleResponse).
Local Abbreviation World := (@World StaleRequest StaleResponse).
Local Abbreviation Entry := (@Entry StaleRequest StaleResponse).
Local Abbreviation Op := (@Op StaleRequest).
Local Abbreviation Task := (@Task StaleRequest StaleResponse Htime).
Local Abbreviation Config := (@Config StaleRequest StaleResponse Htime).
Local Abbreviation Call := (@GuardCall StaleRequest StaleResponse Htime).
Local Abbreviation helper_step := (helper_step session_execute_stale).
Local Abbreviation system_step := (system_step session_execute_stale).
Local Abbreviation reachable := (reachable session_execute_stale).
Local Abbreviation op_ok op := (gok (op_writes op) (op_lease op) (λ seen _ v, op_value op seen v)).

(** ** The invariant *)

(** The requests in the order they were written, served ones first. *)
Definition requests (w : World) : list Request := (en_request <$> w_log w) ++ omap whole (w_pipe w).
Definition entry_ok (e : Entry) : Prop :=
  reaction_ok (en_session e) (en_request e) (en_before e) (en_response e, en_next e) (en_after e).
Definition begin_response (r : Response) : Prop := match r with Ready _ | Error _ => True | _ => False end.
Definition known (log : list Entry) (r : Response) : Prop :=
  begin_response r ∨ ∃ e, e ∈ log ∧ en_response e = r.
Definition log_shape (helper : HelperState) (log : list Entry) : Prop :=
  match helper with
  | Starting => log = []
  | Exited true => ∃ pre e, log = pre ++ [e] ∧ en_next e = None ∧ Forall (λ e, is_Some (en_next e)) pre
  | _ => Forall (λ e, is_Some (en_next e)) log
  end.
Record world_ok (q : gset string) (w : World) : Prop := {
  wo_entries : Forall entry_ok (w_log w);
  wo_unread : Forall (known (w_log w)) (w_unread w);
  wo_shape : log_shape (w_helper w) (w_log w);
  wo_order : ∀ id, lookups_last id (requests w);
  wo_queried : ∀ c id, QueryMutation c id ∈ requests w → id ∈ q;
}.
Definition op_live (q : gset string) (op : Op) : Prop :=
  match op with OpMutation _ id _ => id ∉ q | OpQuery _ id _ => id ∈ q | _ => True end.
Definition task_ok (q : gset string) (w : World) (t : Task) : Prop :=
  match t with
  | Idle => True
  | Running op p => op_live q op ∧ ∃ seen exited, Forall (known (w_log w)) seen ∧
      (exited = true → w_helper w = Exited true) ∧ op_ok op seen exited p
  end.
Definition config_ok (cf : Config) : Prop :=
  world_ok (cf_queried cf) (cf_world cf) ∧ task_ok (cf_queried cf) (cf_world cf) (cf_task cf).

Lemma known_app log log' r : known log r → known (log ++ log') r.
Proof using Type. intros [?|(e & He & <-)]; [by left|]. right. exists e. split; [|done]. apply elem_of_app. by left. Qed.
Lemma Forall_known_app log log' rs : Forall (known log) rs → Forall (known (log ++ log')) rs.
Proof using Type. intros H. eapply Forall_impl; [exact H|]. intros r. apply known_app. Qed.

(** ** Calls of the guard *)
Lemma write_requests (w : World) r : requests (write_whole w r) = requests w ∨ requests (write_whole w r) = requests w ++ [r].
Proof using Type.
  unfold requests, write_whole. cbn. rewrite omap_app. destruct (w_torn w); cbn; [left|right].
  - by rewrite app_nil_r.
  - by rewrite (assoc_L (++)).
Qed.
Lemma write_ok q w op r : world_ok q w → op_live q op → op_writes op r → world_ok q (write_whole w r).
Proof using Type.
  intros [H1 H2 H3 H4 H5] Hlive Hr.
  destruct (write_requests w r) as [Hreq|Hreq]; [by split; rewrite ?Hreq|].
  split; rewrite ?Hreq; [done|done|done|..].
  - intros id. apply lookups_last_snoc; [done|]. intros inv -> c Hin. apply H5 in Hin.
    by destruct op; cbn in Hr; simplify_eq.
  - intros c id [Hin|Hin%list_elem_of_singleton]%elem_of_app; [by eapply H5|]. subst r.
    by destruct op; cbn in Hr; simplify_eq.
Qed.
Lemma interrupted_ok {R} (c : Call R) q w w' op seen exited :
  interrupted c w w' → world_ok q w → op_live q op → call_ok (op_writes op) (op_lease op) seen exited c →
  world_ok q w' ∧ w_log w' = w_log w ∧ w_helper w' = w_helper w.
Proof using Type.
  intros Hint Hw Hlive Hc. destruct Hint as [R c w|r w|r w|w]; cbn in Hc; (split; [|done]); [done|..].
  - destruct Hw; by split.
  - by eapply write_ok.
  - destruct Hw; by split.
Qed.
(** A completed call keeps the invariant and brings only known responses. *)
Lemma completes_ok {R} (c : Call R) q w r w' op seen exited :
  completes c w r w' → world_ok q w → op_live q op → call_ok (op_writes op) (op_lease op) seen exited c →
  world_ok q w' ∧ w_log w' = w_log w ∧ w_helper w' = w_helper w ∧
  Forall (known (w_log w)) (seen_of c r) ∧ (exit_of c r = true → w_helper w = Exited true).
Proof using Type.
  intros Hcomp Hw Hlive Hc.
  assert (∀ unread, (∃ x, w_unread w = x :: unread) → world_ok q (read_one w unread)) as Hread.
  { intros unread [x Hx]. destruct Hw as [H1 H2 H3 H4 H5]. split; try done. cbn. rewrite Hx in H2. by inversion H2. }
  destruct Hcomp as [p r w|x r w|r w|r w|r w w' Hint|r w w' Hint|x w|w x unread Hx _|w x unread Hx|w|w w' Hint|w w' Hint|w b Hb|w|w];
    cbn [seen_of exit_of]; try (split_and!; try done; by constructor).
  - cbn in Hc. split_and!; try done; by eapply write_ok.
  - destruct (interrupted_ok _ q w w' op seen exited Hint Hw Hlive Hc) as (? & ? & ?). split_and!; try done; by constructor.
  - destruct (interrupted_ok _ q w w' op seen exited Hint Hw Hlive Hc) as (? & ? & ?). split_and!; try done; by constructor.
  - split_and!; try done; [eauto|]. constructor; [|constructor]. destruct Hw as [_ H2 _ _ _]. rewrite Hx in H2. by inversion H2.
  - split_and!; try done; eauto.
  - destruct (interrupted_ok _ q w w' op seen exited Hint Hw Hlive Hc) as (? & ? & ?). split_and!; try done; by constructor.
  - destruct (interrupted_ok _ q w w' op seen exited Hint Hw Hlive Hc) as (? & ? & ?). split_and!; try done; by constructor.
  - split_and!; try done; by intros ->.
Qed.

(** ** Steps of the helper *)
Lemma begin_run_response (r : Request) h h' (response : Response) next :
  host_run h (serve_begin r) h' (HRet (ok (Some response, next))) → begin_response response.
Proof using Type.
  assert (hok (λ _, True) (λ (x : option Response * _) _, ∀ y, x.1 = Some y → begin_response y) (serve_begin r) h) as Hok.
  { unfold serve_begin. destruct r; try (apply hok_value; [done|]; by intros y).
    apply hwp_catch, hwp_trivial. intros [s|e|] h1; [..|done]; apply hok_value; try done; by intros y [= <-]. }
  intros Hrun. destruct (hok_run _ _ _ _ _ _ Hok Hrun) as [_ HP]. by apply (HP _ eq_refl).
Qed.
Lemma helper_step_ok q w w' : helper_step w w' → world_ok q w →
  world_ok q w' ∧ (∃ log', w_log w' = w_log w ++ log') ∧ (w_helper w = Exited true → w_helper w' = Exited true).
Proof using Type.
  intros Hstep [H1 H2 H3 H4 H5]. destruct Hstep as [w r pipe response next h Hpipe Hh Hrun
    |w r pipe s response next h Hpipe Hh Hrun|w h Hh _].
  - rewrite Hh in H3. cbn in H3.
    assert (requests w = r :: omap whole pipe) as Hreq by (unfold requests; by rewrite H3, Hpipe).
    split; [|split; [exists []; by rewrite app_nil_r|by rewrite Hh]].
    split; cbn; rewrite ?H3; [by constructor| | |..].
    + rewrite H3 in H2. apply Forall_app. split; [done|]. constructor; [|constructor]. left.
      by eapply begin_run_response.
    + by destruct next; cbn.
    + intros id. specialize (H4 id). rewrite Hreq in H4. by apply lookups_last_tail in H4.
    + intros c id Hin. apply (H5 c). rewrite Hreq. by right.
  - rewrite Hh in H3. cbn in H3.
    assert (∀ helper unread half, requests (mkWorld pipe (w_torn w) helper h
      (w_log w ++ [mkEntry r response s next (w_host w) h]) unread half) = requests w) as Hreq.
    { intros. unfold requests. cbn. rewrite Hpipe, fmap_app. cbn. by rewrite <-(assoc_L (++)). }
    split; [|split; [by eexists|by rewrite Hh]].
    split; rewrite ?Hreq; cbn [w_log w_unread w_helper]; [..|done|done].
    + apply Forall_app. split; [done|]. constructor; [|constructor]. by eapply serve_run.
    + apply Forall_app. split; [by apply Forall_known_app|]. constructor; [|constructor]. right.
      eexists. split; [apply elem_of_app; right; by left|done].
    + destruct next as [s'|]; cbn; [apply Forall_app; split; [done|]; by constructor|by eexists _, _].
  - split; [|split; [exists []; by rewrite app_nil_r|by intros ?%Hh]]. split; try done. cbn.
    destruct (w_helper w) as [|s|b]; [by rewrite H3|done|by destruct (Hh b)].
Qed.

(** ** Reachable sessions *)
Lemma queried_mono q q' w : q ⊆ q' → world_ok q w → world_ok q' w.
Proof using Type. intros Hq [H1 H2 H3 H4 H5]. split; try done. intros c id Hin. apply Hq. by eapply H5. Qed.
Lemma system_step_ok cf cf' : system_step cf cf' → config_ok cf → config_ok cf'.
Proof using Type.
  intros Hstep [Hw Ht]. destruct Hstep as [g w q op Hop|g w op k q|g w op g' k q|g w op R c k r w' q Hc
    |g w op R c k w' q Hc|g w op r q|g w w' t q Hh]; cbn in *; split; cbn; try done.
  - eapply queried_mono; [|done]. set_solver.
  - split; [destruct op; cbn in *; set_solver|]. exists [], false. split_and!; [constructor|done|].
    apply op_program_ok.
  - destruct Ht as (Hlive & seen & exited & Hs & He & Hp). split; [done|]. by exists seen, exited.
  - destruct Ht as (Hlive & seen & exited & Hs & He & Hcall & _). by eapply (completes_ok c).
  - destruct Ht as (Hlive & seen & exited & Hs & He & Hcall & Hp).
    destruct (completes_ok c q w r w' op seen exited Hc Hw Hlive Hcall) as (_ & Hlog & Hsame & Hseen & Hexit).
    split; [done|]. exists (seen ++ seen_of c r), (exited || exit_of c r). rewrite Hlog, Hsame. split_and!.
    + by apply Forall_app.
    + intros [?|?]%orb_true_iff; auto.
    + apply Hp.
  - destruct Ht as (Hlive & seen & exited & Hs & He & Hcall & _). by eapply (interrupted_ok c).
  - by apply (helper_step_ok q w w' Hh).
  - destruct (helper_step_ok q w w' Hh Hw) as (_ & [log' Hlog] & Hsame). destruct t as [|op p]; [done|].
    destruct Ht as (Hlive & seen & exited & Hs & He & Hp). split; [done|]. exists seen, exited.
    split_and!; [rewrite Hlog; by apply Forall_known_app|auto|done].
Qed.
Lemma reachable_ok h cf : reachable h cf → config_ok cf.
Proof using Type.
  revert cf. apply (rtc_ind_r config_ok).
  - split; [|done]. split; cbn; try by constructor.
    + intros id [|? l1] c l2 inv; discriminate.
    + by intros c id ?%elem_of_nil.
  - intros cf cf' _ Hstep IH. by eapply system_step_ok.
Qed.

(** A response that is no answer to [Begin] was served. *)
Lemma known_served q w r : world_ok q w → known (w_log w) r → ¬ begin_response r →
  ∃ e, e ∈ w_log w ∧ en_response e = r ∧ entry_ok e.
Proof using Type.
  intros [H1 _ _ _ _] [?|(e & He & <-)] Hr; [done|]. exists e. rewrite Forall_forall in H1. auto.
Qed.
End Sessions.


(** C16. The guard runs no Lease program but the check of its own Lease, except at the
    end of finish_in_place: the Lease is released only when the helper has exited
    successfully, after serving as its last request a cleanup for the same scope that it
    accepted for the context of its session, and an abort proof only while the
    mutation_started flag of the session is not set (a flag that a rejected second
    mutation clears again). *)
Theorem lease_released_after_cleanup {StaleRequest StaleResponse} `{LeaseTime} `{StorageEnv} `{Xl2Env} `{HelperEnv}
    (session_execute_stale : StorageHelperSession → OwnedStorageContext → StaleRequest →
       HostProg (StorageHelperSession * Result StaleResponse)) h g w op p k q :
  reachable session_execute_stale h (mkConfig g w (Running op (GAwait _ (RunLease p) k)) q) →
  (∃ c, p = require_current_lease c) ∨
  ∃ c cleanup, op = OpFinish c cleanup ∧ p = release_owned_lease c cleanup ∧ w_helper w = Exited true ∧
    ∃ pre e c' cleanup', w_log w = pre ++ [e] ∧ en_request e = Finish c' cleanup' ∧
      oc_scope_sha256 c' = oc_scope_sha256 c ∧ cleanup_accepted (en_session e) c' cleanup'.
Proof.
  intros [Hw (_ & seen & exited & Hseen & Hexit & [Hcall _])]%reachable_ok. cbn in Hw, Hseen, Hexit, Hcall.
  destruct op as [a c|c o|c id o|c id o|c request| |c cleanup]; cbn in Hcall; [left; by exists c..|done|].
  destruct Hcall as [->|(-> & -> & Hin)]; [left; by exists c|right].
  specialize (Hexit eq_refl). exists c, cleanup. split_and!; [done..|].
  rewrite Forall_forall in Hseen. destruct (known_served q w _ Hw (Hseen _ Hin)) as (e' & He & Hresp & Hok); [by intros []|].
  destruct Hw as [_ _ Hshape _ _]. rewrite Hexit in Hshape. destruct Hshape as (pre & e & Hlog & Hnext & Hpre).
  unfold entry_ok, reaction_ok in Hok. cbn in Hok. rewrite Hresp in Hok.
  destruct (en_request e') as [?|?|? ?|? ?|? ?|c' cleanup'] eqn:Hreq; try (by destruct Hok); [].
  destruct Hok as (Hnext' & Hscope & Hacc).
  assert (e' = e) as ->.
  { rewrite Hlog in He. apply elem_of_app in He as [He|He%list_elem_of_singleton]; [|done].
    rewrite Forall_forall in Hpre. apply Hpre in He as [s' Hs]. by rewrite Hnext' in Hs. }
  by exists pre, e, c', cleanup'.
Qed.
