(* ===== verification/RecoveryWorkflow.v ===== *)
(** The lifecycle of a storage-recovery attempt
    ([src/fault/storage_recovery_runner.rs]) and the suite deadline it runs under
    ([RunDeadline] of [src/fault/shutdown.rs]).

    The workflow is a program over two clocks (the wall clock of the receipts and
    the monotonic clock of the deadlines) and the calls of the case driver, each
    awaited under a bound. An error is its rendering with [{:#}]: the contexts of its
    chain joined with colons. *)
From S2P Require Import Prelude RustText StorageLease StorageOwnership.
From stdpp Require Import options.

(** ** Evidence *)
Module PhaseStatus.
Inductive t := Succeeded | Failed.
Global Instance eq_dec : EqDecision t.
Proof. solve_decision. Defined.
End PhaseStatus.
Record PhaseReceipt := mkPhaseReceipt {
  pr_phase : string;
  pr_status : PhaseStatus.t;
  pr_started_at_ms : N;
  pr_ended_at_ms : N;
  pr_error : option string;
}.
Record WorkflowEvidence := mkWorkflowEvidence {
  we_schema_version : N;
  we_scenario : string;
  we_case : StorageRecoveryCase.t;
  we_run_id : string;
  we_phases : list PhaseReceipt;
  we_cancel_attempted : bool;
  we_evidence_persisted_before_cleanup : bool;
  we_cleanup_succeeded : bool;
  we_completed : bool;
}.
Global Instance WorkflowEvidence_eta : Eta WorkflowEvidence := λ e,
  mkWorkflowEvidence (we_schema_version e) (we_scenario e) (we_case e) (we_run_id e) (we_phases e)
    (we_cancel_attempted e) (we_evidence_persisted_before_cleanup e) (we_cleanup_succeeded e) (we_completed e).

Definition failed_phase (p : PhaseReceipt) : bool := bool_decide (pr_status p = PhaseStatus.Failed).
Definition succeeded_phase (p : PhaseReceipt) : bool := bool_decide (pr_status p = PhaseStatus.Succeeded).
Definition receipt_valid (p : PhaseReceipt) : bool :=
  negb (trim_is_empty (pr_phase p)) && (0 <? pr_started_at_ms p)%N && (pr_started_at_ms p <=? pr_ended_at_ms p)%N
  && Bool.eqb (failed_phase p) (bool_decide (is_Some (pr_error p))).
(** [phases.windows(2).all(..)]. *)
Fixpoint receipts_ordered (phases : list PhaseReceipt) : bool :=
  match phases with
  | a :: (b :: _) as rest => (pr_ended_at_ms a <=? pr_started_at_ms b)%N && receipts_ordered rest
  | _ => true
  end.
Definition validate_workflow (e : WorkflowEvidence) : Result unit :=
  _ ← ensure (we_schema_version e =? 1)%N "unsupported storage workflow schema";
  _ ← ensure (bool_decide (StorageRecoveryCase.scenario (we_case e) = we_scenario e)
              && negb (trim_is_empty (we_run_id e)) && negb (bool_decide (we_phases e = [])))
        "storage workflow lacks an exact scenario, case, or run identity";
  _ ← ensure (forallb receipt_valid (we_phases e) && receipts_ordered (we_phases e))
        "storage workflow phase receipts are invalid or unordered";
  _ ← ensure (we_evidence_persisted_before_cleanup e)
        "storage workflow did not persist raw evidence before cleanup";
  _ ← ensure (match last (we_phases e) with Some p => bool_decide (pr_phase p = "cleanup") | None => false end)
        "storage workflow must end with cleanup";
  _ ← ensure (Bool.eqb (we_cleanup_succeeded e)
                (match last (we_phases e) with Some p => succeeded_phase p | None => false end))
        "storage workflow cleanup summary contradicts its receipt";
  if we_completed e then
    ensure (forallb succeeded_phase (we_phases e) && negb (we_cancel_attempted e) && we_cleanup_succeeded e)
      "completed storage workflow contains a failed or canceled phase"
  else ensure (existsb failed_phase (we_phases e)) "incomplete storage workflow lacks a failed phase".
Definition validate_completed_attempt (e : WorkflowEvidence) (scenario run_id : string)
    (case : StorageRecoveryCase.t) : Result unit :=
  _ ← validate_workflow e;
  ensure (we_completed e && bool_decide (we_scenario e = scenario) && bool_decide (we_run_id e = run_id)
          && bool_decide (we_case e = case))
    "storage workflow is incomplete or belongs to another exact attempt".

(** ** The driver *)
Inductive OwnedHealCancel := Canceled | NoOwnedHeal.
Inductive DriverCall : Type → Type :=
| PrepareAndSealDataset : DriverCall unit
| CaptureOfflineMapping : DriverCall unit
| ReplaceVolume : DriverCall unit
| VerifyReplacementBaseline : DriverCall unit
| StartHeal : DriverCall unit
| WaitForOwnedHeal : DriverCall unit
| VerifyRecoveryAndPostWrite : DriverCall unit
| PersistRawEvidence : DriverCall unit
| PersistWorkflowSnapshot (evidence : WorkflowEvidence) : DriverCall unit
| CancelOwnedHeal : DriverCall OwnedHealCancel
| CleanupOrQuarantine : DriverCall unit.
(** An operation deadline inside a suite deadline, or a timeout. *)
Inductive Bound := Until (operation_deadline : N) (suite_deadline : option N) | For (timeout : N).
Inductive Waited (R : Type) := Finished (r : Result R) | OperationElapsed | SuiteElapsed.
Arguments Finished {R} r.
Arguments OperationElapsed {R}.
Arguments SuiteElapsed {R}.

Inductive WorkflowProg (A : Type) : Type :=
| WRet (r : Result A)
(** [SystemTime::now()], in milliseconds since the epoch if it is not before. *)
| Wall (k : option N → WorkflowProg A)
(** [Instant::now()]. *)
| Mono (k : N → WorkflowProg A)
| Drive (R : Type) (c : DriverCall R) (b : Bound) (k : Waited R → WorkflowProg A).
Arguments WRet {A} r.
Arguments Wall {A} k.
Arguments Mono {A} k.
Arguments Drive {A} R c b k.
Fixpoint workflow_bind {A B} (f : A → WorkflowProg B) (p : WorkflowProg A) : WorkflowProg B :=
  match p with
  | WRet (ok a) => f a
  | WRet (err e) => WRet (err e)
  | WRet panicked => WRet panicked
  | Wall k => Wall (λ t, workflow_bind f (k t))
  | Mono k => Mono (λ t, workflow_bind f (k t))
  | Drive R c b k => Drive R c b (λ r, workflow_bind f (k r))
  end.
Global Instance WorkflowProg_ret : MRet WorkflowProg := λ A a, WRet (ok a).
Global Instance WorkflowProg_bind : MBind WorkflowProg := @workflow_bind.

Definition workflow_now_ms : WorkflowProg N :=
  Wall (λ t, mret ((default 0 t `min` u64_max) `max` 1)%N).
Definition drive {R} (c : DriverCall R) (b : Bound) : WorkflowProg (Waited R) := Drive R c b mret.
(** [error.context(message)]. *)
Definition chain_context (message error : string) : string := message +:+ ": " +:+ error.

(** ** The suite deadline *)
Record RunDeadline := mkRunDeadline {
  rd_at : option N;
  rd_seconds : option N;
}.
Definition deadline_exceeded (seconds : N) : string :=
  "suite maxDuration budget " +:+ dec seconds +:+ "s was reached during execution".
(** [Err(SuiteDeadlineExceeded(self.seconds.expect(..)))]: an error as a value. *)
Definition suite_exceeded {A} (d : RunDeadline) : WorkflowProg (Result A) :=
  match rd_seconds d with
  | Some seconds => mret (err (deadline_exceeded seconds))
  | None => WRet panicked
  end.
Definition deadline_new (checked_add : N → N → option N) (seconds : option N) : WorkflowProg (Result RunDeadline) :=
  match seconds with
  | None => mret (ok (mkRunDeadline None None))
  | Some s =>
      Mono (λ now,
        mret (at_ ← context (checked_add now (s * NANOS_PER_SECOND)%N)
                      "suite maxDuration exceeds the monotonic clock range";
              ok (mkRunDeadline (Some at_) (Some s))))
  end.
Definition deadline_check (d : RunDeadline) : WorkflowProg (Result unit) :=
  match rd_at d with
  | None => mret (ok tt)
  | Some at_ => Mono (λ now, if (at_ <=? now)%N then suite_exceeded d else mret (ok tt))
  end.
Definition bounded_timeout (d : RunDeadline) (requested : N) : WorkflowProg (Result N) :=
  checked ← deadline_check d;
  match checked with
  | ok _ =>
      match rd_at d with
      | None => mret (ok requested)
      | Some at_ =>
          Mono (λ now,
            let remaining_ms := ((at_ - now) / 1000000)%N in
            if (u64_max <? remaining_ms)%N
            then mret (err (chain_context "remaining suite maxDuration exceeds the supported millisecond range"
                              "out of range integral type conversion attempted"))
            else if (remaining_ms =? 0)%N then suite_exceeded d
            else mret (ok (requested `min` (remaining_ms * 1000000))%N))
      end
  | err e => mret (err e)
  | panicked => WRet panicked
  end.
Definition remaining_duration (d : RunDeadline) : WorkflowProg (Result (option N)) :=
  checked ← deadline_check d;
  match checked with
  | ok _ =>
      match rd_at d with
      | None => mret (ok None)
      | Some at_ => Mono (λ now, mret (ok (Some (at_ - now)%N)))
      end
  | err e => mret (err e)
  | panicked => WRet panicked
  end.
Definition deadline_instant (d : RunDeadline) : WorkflowProg (Result (option N)) :=
  checked ← deadline_check d;
  mret (_ ← checked; ok (rd_at d)).
(** [RunDeadline::run] of an operation that awaits one call of the driver under its
    own deadline; [operation] is what it makes of the call's end. *)
Definition deadline_run {R} (d : RunDeadline) (operation_deadline : N) (c : DriverCall R)
    (operation : Waited R → Result R) : WorkflowProg (Result R) :=
  before ← deadline_check d;
  match before with
  | ok _ =>
      waited ← drive c (Until operation_deadline (rd_at d));
      match waited with
      | SuiteElapsed => suite_exceeded d
      | Finished panicked => WRet panicked
      | _ =>
          after ← deadline_check d;
          match after with
          | ok _ => mret (operation waited)
          | err e => mret (err e)
          | panicked => WRet panicked
          end
      end
  | err e => mret (err e)
  | panicked => WRet panicked
  end.
Definition run_bounded (d : RunDeadline) (operation_deadline : N) (phase : string) (c : DriverCall unit)
    : WorkflowProg (Result unit) :=
  deadline_run d operation_deadline c (λ waited,
    match waited with
    | Finished r => r
    | _ => err (chain_context ("storage-recovery phase " +:+ phase +:+ " exceeded operation timeout")
                  "deadline has elapsed")
    end).

(** ** The workflow *)
Record StorageRecoveryExecutionPlan := mkStorageRecoveryExecutionPlan {
  rp_scenario : string;
  rp_operation_timeout : N;
  rp_case : StorageRecoveryCase.t;
}.
Definition push_receipt (e : WorkflowEvidence) (r : PhaseReceipt) : WorkflowEvidence :=
  e <| we_phases ::= λ l, l ++ [r] |>.
Definition record_phase (e : WorkflowEvidence) (phase : string) (started_at_ms : N) (result : Result unit)
    : WorkflowProg (WorkflowEvidence * option string) :=
  ended_at_ms ← workflow_now_ms;
  let started_at_ms :=
    match last (we_phases e) with
    | Some previous => (pr_ended_at_ms previous `max` started_at_ms)%N
    | None => started_at_ms
    end in
  match result with
  | ok _ => mret (push_receipt e (mkPhaseReceipt phase PhaseStatus.Succeeded started_at_ms ended_at_ms None), None)
  | err error =>
      mret (push_receipt e (mkPhaseReceipt phase PhaseStatus.Failed started_at_ms ended_at_ms (Some error)), Some error)
  | panicked => WRet panicked
  end.
(** [timeout(cleanup_timeout, call)], then the message of an elapsed timeout. *)
Definition drive_for {R} (c : DriverCall R) (cleanup_timeout : N) (elapsed : string) : WorkflowProg (Result R) :=
  waited ← drive c (For cleanup_timeout);
  mret (match waited with Finished r => r | _ => err elapsed end).
(** A later error, in the context of the first one. *)
Definition also_failed (what : string) (primary : option string) (error : option string) : option string :=
  match error, primary with
  | Some error, Some original => Some (chain_context (what +:+ error) original)
  | Some error, None => Some error
  | None, _ => primary
  end.

Section workflow.
Context (d : RunDeadline) (operation_deadline : option N) (cleanup_timeout : N).
Local Abbreviation State := (WorkflowEvidence * option string)%type.

(** The [phase!] macro. *)
Definition phase (name : string) (c : DriverCall unit) (s : State) : WorkflowProg State :=
  match s.2 with
  | Some _ => mret s
  | None =>
      started_at_ms ← workflow_now_ms;
      result ← (match operation_deadline with
                | Some deadline => run_bounded d deadline name c
                | None => mret (err "storage-recovery operation timeout must be positive")
                end);
      record_phase s.1 name started_at_ms result
  end.
Definition cancel_heal (s : State) : WorkflowProg State :=
  started_at_ms ← workflow_now_ms;
  cancel ← drive_for CancelOwnedHeal cleanup_timeout "storage-recovery heal cancellation timed out";
  let e := s.1 <| we_cancel_attempted := match cancel with ok Canceled => true | _ => false end |> in
  p ← record_phase e "cancel-heal" started_at_ms (_ ← cancel; ok tt);
  mret (p.1, also_failed "owned heal cancellation also failed: " s.2 p.2).
Definition persist_raw (s : State) : WorkflowProg State :=
  started_at_ms ← workflow_now_ms;
  persisted ← drive_for PersistRawEvidence cleanup_timeout "storage-recovery evidence persistence timed out";
  let e := s.1 <| we_evidence_persisted_before_cleanup := is_ok persisted |> in
  p ← record_phase e "persist-raw-evidence" started_at_ms persisted;
  mret (p.1, also_failed "raw evidence persistence also failed: " s.2 p.2).
Definition persist_workflow (s : State) : WorkflowProg State :=
  started_at_ms ← workflow_now_ms;
  persisted ← drive_for (PersistWorkflowSnapshot s.1) cleanup_timeout
                "storage-recovery workflow persistence timed out";
  p ← record_phase s.1 "persist-workflow-evidence" started_at_ms persisted;
  mret (p.1, also_failed "workflow evidence persistence also failed: " s.2 p.2).
Definition cleanup (s : State) : WorkflowProg State :=
  started_at_ms ← workflow_now_ms;
  result ← drive_for CleanupOrQuarantine cleanup_timeout "storage-recovery cleanup timed out";
  p ← record_phase s.1 "cleanup" started_at_ms result;
  match p.2 with
  | Some _ => mret (p.1, also_failed "cleanup or quarantine also failed: " s.2 p.2)
  | None => mret (p.1 <| we_cleanup_succeeded := true |>, s.2)
  end.
Definition is_none {A} (o : option A) : bool := match o with None => true | Some _ => false end.
End workflow.

Definition initial_evidence (plan : StorageRecoveryExecutionPlan) (run_id : string) : WorkflowEvidence :=
  mkWorkflowEvidence 1 (rp_scenario plan) (rp_case plan) run_id [] false false false false.
Definition execute_storage_recovery_workflow (checked_add : N → N → option N) (plan : StorageRecoveryExecutionPlan)
    (run_id : string) (d : RunDeadline) (cleanup_timeout : N) : WorkflowProg (WorkflowEvidence * option string) :=
  Mono (λ now,
    let operation_deadline :=
      if (rp_operation_timeout plan =? 0)%N then None else checked_add now (rp_operation_timeout plan) in
    let phase := phase d operation_deadline in
    s ← phase "prepare-and-seal-dataset" PrepareAndSealDataset (initial_evidence plan run_id, None);
    s ← phase "capture-offline-mapping" CaptureOfflineMapping s;
    s ← phase "replace-volume" ReplaceVolume s;
    s ← phase "verify-replacement-baseline" VerifyReplacementBaseline s;
    let may_own := is_none s.2 in
    s ← phase "start-heal" StartHeal s;
    let owns_heal := may_own && is_none s.2 in
    s ← phase "wait-owned-heal" WaitForOwnedHeal s;
    s ← phase "verify-recovery-and-post-write" VerifyRecoveryAndPostWrite s;
    s ← (if negb (is_none s.2) && owns_heal then cancel_heal cleanup_timeout s else mret s);
    s ← persist_raw cleanup_timeout s;
    s ← persist_workflow cleanup_timeout s;
    s ← cleanup cleanup_timeout s;
    mret (s.1 <| we_completed := is_none s.2 |>, s.2)).

(** The end of [run_storage_recovery_case]: the artifact is rendered and written as it
    is, an error of that comes first, and the error of the attempt before that of its
    validation. [to_string_pretty] is serde_json's, [write_text] the collector's. *)
Definition workflow_result (to_string_pretty : WorkflowEvidence → Result string) (write_text : string → Result unit)
    (evidence : WorkflowEvidence) (error : option string) : Result unit :=
  json ← to_string_pretty evidence;
  _ ← write_text json;
  match error, validate_workflow evidence with
  | Some error, ok _ => err error
  | Some error, err validation =>
      err (chain_context ("storage workflow artifact validation also failed: " +:+ validation) error)
  | None, r => r
  | _, panicked => panicked
  end.
