(* ===== verification/RecoveryWorkflowFacts.v ===== *)
(** The runs of a storage-recovery workflow: what an attempt drives, in which order,
    whatever fails, and what its evidence records. *)
From S2P Require Import Prelude RustText StorageLease StorageOwnership RecoveryWorkflow.
From stdpp Require Import options.

(** ** Runs *)
Inductive Event : Type :=
| ReadWall (t : option N)
| ReadMono (t : N)
| Driven (R : Type) (c : DriverCall R) (b : Bound) (w : Waited R).
Fixpoint runs {A} (p : WorkflowProg A) (tr : list Event) (r : Result A) : Prop :=
  match p with
  | WRet r' => tr = [] ∧ r = r'
  | Wall k => ∃ t tr', tr = ReadWall t :: tr' ∧ runs (k t) tr' r
  | Mono k => ∃ t tr', tr = ReadMono t :: tr' ∧ runs (k t) tr' r
  | Drive R c b k => ∃ w tr', tr = Driven R c b w :: tr' ∧ runs (k w) tr' r
  end.
Lemma runs_bind {A B} (p : WorkflowProg A) (f : A → WorkflowProg B) tr r :
  runs (p ≫= f) tr r →
  (∃ tr1 tr2 a, tr = tr1 ++ tr2 ∧ runs p tr1 (ok a) ∧ runs (f a) tr2 r)
  ∨ runs p tr panicked ∨ ∃ e, runs p tr (err e).
Proof.
  change (p ≫= f) with (workflow_bind f p). revert tr.
  induction p as [r'|k IH|k IH|R c b k IH]; intros tr H; cbn [workflow_bind runs] in H.
  { destruct r' as [a|e|]; cbn [runs] in H; [left; by exists [], tr, a| |].
    all: right; destruct H as [-> ->]; cbn [runs]; eauto. }
  all: destruct H as (x & tr' & -> & H); apply IH in H.
  all: destruct H as [(tr1 & tr2 & a & -> & H1 & H2)|[H|(e & H)]].
  all: try (left; do 2 eexists; exists a; split; [by rewrite app_comm_cons|]; split; [|exact H2];
            cbn [runs]; by eauto).
  all: right; cbn [runs]; first [left; by eauto | right; exists e; by eauto].
Qed.

(** A script of the clocks and of the driver determines a run. *)
Section perform.
Context (wall : nat → option N) (mono : nat → N) (driver : ∀ R, DriverCall R → Waited R).
Fixpoint perform {A} (n : nat) (p : WorkflowProg A) : list Event * Result A :=
  match p with
  | WRet r => ([], r)
  | Wall k => let q := perform (S n) (k (wall n)) in (ReadWall (wall n) :: q.1, q.2)
  | Mono k => let q := perform (S n) (k (mono n)) in (ReadMono (mono n) :: q.1, q.2)
  | Drive R c b k => let q := perform (S n) (k (driver R c)) in (Driven R c b (driver R c) :: q.1, q.2)
  end.
Lemma perform_runs {A} n (p : WorkflowProg A) : runs p (perform n p).1 (perform n p).2.
Proof. revert n. induction p; intros n; cbn [perform runs fst snd]; eauto. Qed.
End perform.

(** ** What a run shows *)

(** The readings of the wall clock, as the receipts have them. *)
Definition reading (t : option N) : N := ((default 0 t `min` u64_max) `max` 1)%N.
Definition wall_readings : list Event → list N := omap (λ ev, match ev with ReadWall t => Some (reading t) | _ => None end).
Inductive Await := awaited (R : Type) (c : DriverCall R) (b : Bound).
Definition driven : list Event → list Await :=
  omap (λ ev, match ev with Driven R c b _ => Some (awaited R c b) | _ => None end).
(** The driver does not panic, and a suite deadline elapses only where there is one. *)
Definition returned (ev : Event) : Prop :=
  match ev with
  | Driven _ _ _ (Finished panicked) => False
  | Driven _ _ b SuiteElapsed => match b with Until _ (Some _) => True | _ => False end
  | _ => True
  end.
Definition deadline_formed (d : RunDeadline) : Prop := is_Some (rd_at d) → is_Some (rd_seconds d).
(** The wall clock does not step back. *)
Definition clock_steady (tr : list Event) : Prop := StronglySorted N.le (wall_readings tr).
Definition not_panicked {A} (r : Result A) : Prop := r ≠ panicked.
Definition error_of {A} (r : Result A) : option string := match r with err e => Some e | _ => None end.

Lemma wall_readings_app tr1 tr2 : wall_readings (tr1 ++ tr2) = wall_readings tr1 ++ wall_readings tr2.
Proof. apply omap_app. Qed.
Lemma driven_app tr1 tr2 : driven (tr1 ++ tr2) = driven tr1 ++ driven tr2.
Proof. apply omap_app. Qed.

(** A part of the program that reads no wall clock, drives nothing and does not panic. *)
Definition silent (tr : list Event) : Prop := wall_readings tr = [] ∧ driven tr = [].

(** ** Bounded operations *)
Ltac runs_step H :=
  match type of H with
  | runs (WRet _) _ _ => destruct H as [-> H]
  | runs (Mono _) _ _ => destruct H as (? & ? & -> & H); cbn beta in H
  | runs (Wall _) _ _ => destruct H as (? & ? & -> & H); cbn beta in H
  | runs (Drive _ _ _ _) _ _ => destruct H as (? & ? & -> & H); cbn beta in H
  end.

Lemma suite_exceeded_runs {A} d tr (r : Result (Result A)) :
  runs (suite_exceeded d) tr r → is_Some (rd_seconds d) → tr = [] ∧ ∃ e, r = ok (err e).
Proof. unfold suite_exceeded. intros H [s Hs]. rewrite Hs in H. destruct H as [-> ->]. eauto. Qed.
(** Every deadline the program makes has its budget. *)
Lemma deadline_new_formed checked_add seconds tr d :
  runs (deadline_new checked_add seconds) tr (ok (ok d)) → deadline_formed d.
Proof.
  unfold deadline_new. destruct seconds as [s|]; intros H.
  - runs_step H. destruct H as [_ [= H]]. symmetry in H. apply bind_ok in H as (at_ & _ & [= <-]). by eexists.
  - destruct H as [_ [= ->]]. by intros [? [=]].
Qed.
Lemma deadline_check_runs d tr r :
  runs (deadline_check d) tr r → deadline_formed d →
  silent tr ∧ ∃ x, r = ok x ∧ (x = ok tt ∨ ∃ e, x = err e).
Proof.
  unfold deadline_check, deadline_formed. intros H Hd. destruct (rd_at d) as [at_|].
  - runs_step H. destruct (at_ <=? x)%N.
    + apply suite_exceeded_runs in H as [-> (e & ->)]; [|by apply Hd]. split; [done|]. eauto.
    + destruct H as [-> ->]. split; [done|]. eauto.
  - destruct H as [-> ->]. split; [done|]. eauto.
Qed.
Lemma runs_drive {R A} (c : DriverCall R) b (f : Waited R → WorkflowProg A) tr r :
  runs (drive c b ≫= f) tr r → ∃ w tr', tr = Driven R c b w :: tr' ∧ runs (f w) tr' r.
Proof. exact id. Qed.
Lemma runs_now {A} (f : N → WorkflowProg A) tr r :
  runs (workflow_now_ms ≫= f) tr r → ∃ t tr', tr = ReadWall t :: tr' ∧ runs (f (reading t)) tr' r.
Proof. exact id. Qed.
(** A check of the suite deadline that lets the attempt go on, and one that does not. *)
Definition in_time (d : RunDeadline) (tr : list Event) : Prop :=
  match rd_at d with
  | None => tr = []
  | Some at_ => ∃ now, tr = [ReadMono now] ∧ (now < at_)%N
  end.
Definition overdue (d : RunDeadline) (tr : list Event) (error : string) : Prop :=
  ∃ at_ now seconds, d = mkRunDeadline (Some at_) (Some seconds) ∧ tr = [ReadMono now] ∧ (at_ <= now)%N ∧
    error = "suite maxDuration budget " +:+ dec seconds +:+ "s was reached during execution".
(** What the answer of the driver makes of a call. *)
Inductive answers {R} (elapsed : string) : Waited R → option string → Prop :=
| answers_ok v : answers elapsed (Finished (ok v)) None
| answers_err e : answers elapsed (Finished (err e)) (Some e)
| answers_elapsed : answers elapsed OperationElapsed (Some elapsed).
(** How an operation under the deadline [od] ends: not begun, cut off by the suite
    deadline, answered after it, or answered in time. *)
Inductive op_end (d : RunDeadline) (od : option N) (name : string) (c : DriverCall unit)
    : list Event → option string → Prop :=
| op_untimed : od = None → op_end d od name c [] (Some "storage-recovery operation timeout must be positive")
| op_refused tr e : is_Some od → overdue d tr e → op_end d od name c tr (Some e)
| op_overrun dl at_ seconds before :
    od = Some dl → d = mkRunDeadline (Some at_) (Some seconds) → in_time d before →
    op_end d od name c (before ++ [Driven unit c (Until dl (Some at_)) SuiteElapsed])
      (Some ("suite maxDuration budget " +:+ dec seconds +:+ "s was reached during execution"))
| op_late dl before w after e :
    od = Some dl → in_time d before → overdue d after e →
    op_end d od name c (before ++ Driven unit c (Until dl (rd_at d)) w :: after) (Some e)
| op_answered dl before w after error :
    od = Some dl → in_time d before → in_time d after →
    answers (("storage-recovery phase " +:+ name +:+ " exceeded operation timeout") +:+ ": deadline has elapsed") w error →
    op_end d od name c (before ++ Driven unit c (Until dl (rd_at d)) w :: after) error.

Lemma deadline_check_ends d tr r :
  runs (deadline_check d) tr r → deadline_formed d →
  r = ok (ok tt) ∧ in_time d tr ∨ ∃ e, r = ok (err e) ∧ overdue d tr e.
Proof.
  unfold deadline_check, in_time. intros H Hd. destruct (rd_at d) as [at_|] eqn:Eat.
  - runs_step H. destruct (at_ <=? x)%N eqn:E.
    + destruct (Hd (mk_is_Some _ _ Eat)) as [s Hs]. unfold suite_exceeded in H. rewrite Hs in H.
      destruct H as [-> ->]. right. eexists. split; [done|]. exists at_, x, s. destruct d; cbn in *; subst.
      split_and!; try done. by apply N.leb_le.
    + destruct H as [-> ->]. left. split; [done|]. exists x. split; [done|]. by apply N.leb_gt.
  - destruct H as [-> ->]. by left.
Qed.
Lemma run_bounded_ends d dl name c tr r :
  runs (run_bounded d dl name c) tr r → deadline_formed d → Forall returned tr →
  ∃ x, r = ok x ∧ not_panicked x ∧ op_end d (Some dl) name c tr (error_of x).
Proof.
  intros H Hd Hret. unfold run_bounded, deadline_run in H.
  apply runs_bind in H as [(tr1 & tr2 & x & -> & H1 & H)|[H|[e H]]].
  2,3: by apply deadline_check_runs in H as (_ & x & [=] & _).
  apply deadline_check_ends in H1 as [[[= ->] Hin]|(e & [= ->] & Hover)]; [| |done]; cycle 1.
  { destruct H as [-> ->]. rewrite app_nil_r. eexists. do 2 (split; [done|]). by apply op_refused; [eexists|]. }
  apply runs_drive in H as (w & tr' & -> & H). apply Forall_app in Hret as [_ [Hw _]%Forall_cons].
  destruct w as [[[]|e|]| |]; [| |done| |].
  4: { destruct d as [[at_|] seconds]; [|done]. destruct (Hd ltac:(by eexists)) as [s Hs]. cbn in Hs. subst.
       destruct H as [-> ->]. eexists. do 2 (split; [done|]). by eapply op_overrun. }
  all: apply runs_bind in H as [(tr1' & tr2 & after & -> & H2 & H)|[H|[e' H]]];
    [|by apply deadline_check_runs in H as (_ & x & [=] & _)|by apply deadline_check_runs in H as (_ & x & [=] & _)].
  all: apply deadline_check_ends in H2 as [[[= ->] Hin']|(e2 & [= ->] & Hover)]; [| |done]; destruct H as [-> ->].
  all: rewrite app_nil_r; eexists; do 2 (split; [done|]).
  all: first [by eapply op_late|by eapply op_answered; try constructor].
Qed.
Lemma in_time_silent d tr : in_time d tr → silent tr.
Proof. unfold in_time. destruct (rd_at d); [by intros (? & -> & _)|by intros ->]. Qed.
Lemma overdue_silent d tr e : overdue d tr e → silent tr.
Proof. by intros (? & ? & ? & _ & -> & _). Qed.
Lemma op_end_shows d od name c tr error :
  op_end d od name c tr error →
  wall_readings tr = [] ∧
  (driven tr = [] ∧ is_Some error ∨ driven tr = [awaited unit c (Until (default 0%N od) (rd_at d))]).
Proof.
  assert (Hmid : ∀ before w after, silent before → silent after →
    wall_readings (before ++ Driven unit c (Until (default 0%N od) (rd_at d)) w :: after) = [] ∧
    driven (before ++ Driven unit c (Until (default 0%N od) (rd_at d)) w :: after)
    = [awaited unit c (Until (default 0%N od) (rd_at d))]).
  { intros before w after [W1 D1] [W2 D2]. rewrite wall_readings_app, driven_app, W1, D1. cbn.
    fold wall_readings driven. by rewrite W2, D2. }
  intros [Hod|tr' e _ [Hw Hdr]%overdue_silent|dl at_ seconds before Hod Hat Hb%in_time_silent
    |dl before w after e Hod Hb%in_time_silent Ha%overdue_silent
    |dl before w after e Hod Hb%in_time_silent Ha%in_time_silent _].
  - split; [done|]. by left.
  - split; [done|]. by left.
  - destruct (Hmid before SuiteElapsed [] Hb) as [Hw Hdr]; [done|]. rewrite Hod, Hat in *. cbn in Hw, Hdr. by auto.
  - destruct (Hmid before w after Hb Ha) as [Hw Hdr]. rewrite Hod in *. cbn in Hw, Hdr. by auto.
  - destruct (Hmid before w after Hb Ha) as [Hw Hdr]. rewrite Hod in *. cbn in Hw, Hdr. by auto.
Qed.
(** A bounded timeout ends no later than the suite deadline, and is not zero because
    of it. *)
Lemma bounded_timeout_within d requested tr t :
  runs (bounded_timeout d requested) tr (ok (ok t)) → deadline_formed d →
  (t <= requested)%N ∧
  ∀ at_, rd_at d = Some at_ → ∃ now, last tr = Some (ReadMono now) ∧ (now + t <= at_)%N ∧ (t = 0 → requested = 0)%N.
Proof.
  intros H Hd. unfold bounded_timeout in H.
  apply runs_bind in H as [(tr1 & tr2 & x & -> & H1 & H)|[H|[e H]]].
  2,3: by apply deadline_check_runs in H as (_ & x & [=] & _).
  apply deadline_check_runs in H1 as (_ & y & [= ->] & Hy); [|done].
  destruct Hy as [->|(e & ->)]; [|by destruct H as [_ [=]]].
  destruct (rd_at d) as [at_|] eqn:Hat; [|destruct H as [_ [= ->]]; split; [lia|done]].
  destruct H as (now & tr3 & -> & H). cbv zeta in H.
  destruct (u64_max <? (at_ - now) / 1000000)%N; [by destruct H as [_ [=]]|].
  destruct ((at_ - now) / 1000000 =? 0)%N eqn:E0.
  { apply suite_exceeded_runs in H as [_ (e & [=])]. apply Hd. by rewrite Hat. }
  destruct H as [-> [= ->]]. apply N.eqb_neq in E0. split; [lia|]. intros at' [= <-]. exists now.
  split; [by rewrite last_snoc|].
  assert (((at_ - now) / 1000000 * 1000000 <= at_ - now)%N) by (rewrite N.mul_comm; apply N.Div0.mul_div_le).
  split; [|lia]. assert (now <= at_)%N by (destruct (N.le_gt_cases now at_); [done|];
    replace (at_ - now)%N with 0%N in E0 by lia; done). lia.
Qed.

(** ** How the phases end *)
Definition operations : list (string * DriverCall unit) :=
  [("prepare-and-seal-dataset", PrepareAndSealDataset);
   ("capture-offline-mapping", CaptureOfflineMapping);
   ("replace-volume", ReplaceVolume);
   ("verify-replacement-baseline", VerifyReplacementBaseline);
   ("start-heal", StartHeal);
   ("wait-owned-heal", WaitForOwnedHeal);
   ("verify-recovery-and-post-write", VerifyRecoveryAndPostWrite)].
(** The phases that close an attempt, with the error of a call that takes too long. *)
Inductive closes : ∀ R, string → DriverCall R → string → Prop :=
| closes_heal : closes OwnedHealCancel "cancel-heal" CancelOwnedHeal "storage-recovery heal cancellation timed out"
| closes_raw : closes unit "persist-raw-evidence" PersistRawEvidence "storage-recovery evidence persistence timed out"
| closes_snapshot snapshot : closes unit "persist-workflow-evidence" (PersistWorkflowSnapshot snapshot)
    "storage-recovery workflow persistence timed out"
| closes_cleanup : closes unit "cleanup" CleanupOrQuarantine "storage-recovery cleanup timed out".
(** A phase with the given events, and the error they mean: an operation under both
    deadlines, or a closing call under the cleanup timeout. *)
Inductive phase_end (d : RunDeadline) (od : option N) (ct : N) : string → list Event → option string → Prop :=
| end_operation name c tr error :
    (name, c) ∈ operations → op_end d od name c tr error → phase_end d od ct name tr error
| end_closing R name c elapsed w error :
    closes R name c elapsed → answers elapsed w error → phase_end d od ct name [Driven R c (For ct) w] error.
Lemma phase_end_shows d od ct name tr error :
  phase_end d od ct name tr error → trim_is_empty name = false ∧ wall_readings tr = [].
Proof.
  intros [name' c tr' error' Hop [Hw _]%op_end_shows|R name' c elapsed w error' Hc _].
  - split; [|done]. revert Hop. unfold operations. rewrite !elem_of_cons, elem_of_nil. naive_solver.
  - by destruct Hc.
Qed.

(** ** Receipts *)
Definition stamped (phases : list PhaseReceipt) (name : string) (s t : N) (error : option string) : PhaseReceipt :=
  mkPhaseReceipt name (match error with Some _ => PhaseStatus.Failed | None => PhaseStatus.Succeeded end)
    (match last phases with Some previous => (pr_ended_at_ms previous `max` s)%N | None => s end) t error.
(** The run cut into the parts its receipts stand for: each part begins and ends with
    a reading of the wall clock, and its events mean the receipt's error. *)
Inductive Receipts (d : RunDeadline) (od : option N) (ct : N) : list PhaseReceipt → list Event → Prop :=
| receipts_nil : Receipts d od ct [] []
| receipts_snoc l tr name s events t error :
    Receipts d od ct l tr → phase_end d od ct name events error →
    Receipts d od ct (l ++ [stamped l name (reading s) (reading t) error])
      (tr ++ ReadWall s :: events ++ [ReadWall t]).

Lemma reading_pos t : (0 < reading t)%N.
Proof. unfold reading. lia. Qed.
Lemma receipts_ordered_snoc l x :
  receipts_ordered (l ++ [x])
  = receipts_ordered l && match last l with Some y => (pr_ended_at_ms y <=? pr_started_at_ms x)%N | None => true end.
Proof.
  induction l as [|a [|b l] IH]; [done|cbn; by rewrite andb_true_r|].
  change ((a :: b :: l) ++ [x]) with (a :: (b :: l) ++ [x]).
  change (last (a :: b :: l)) with (last (b :: l)).
  cbn [receipts_ordered app] in IH |- *. by rewrite IH, andb_assoc.
Qed.
Lemma part_readings s events t :
  wall_readings events = [] → wall_readings (ReadWall s :: events ++ [ReadWall t]) = [reading s; reading t].
Proof.
  intros H. change (wall_readings (ReadWall s :: events ++ [ReadWall t]))
    with (reading s :: wall_readings (events ++ [ReadWall t])).
  by rewrite wall_readings_app, H.
Qed.
Lemma part_driven s events t : driven (ReadWall s :: events ++ [ReadWall t]) = driven events.
Proof.
  change (driven (ReadWall s :: events ++ [ReadWall t])) with (driven (events ++ [ReadWall t])).
  by rewrite driven_app, app_nil_r.
Qed.
Lemma Receipts_last d od ct l tr : Receipts d od ct l tr → pr_ended_at_ms <$> last l = last (wall_readings tr).
Proof.
  intros [|l' tr' name s events t error _ [_ Hw]%phase_end_shows]; [done|].
  rewrite last_snoc, wall_readings_app, part_readings by done.
  change [reading s; reading t] with ([reading s] ++ [reading t]). by rewrite app_assoc, last_snoc.
Qed.
(** Under a clock that does not step back, the receipts are the ordered, nonempty
    intervals the validator asks for. *)
Lemma Receipts_valid d od ct l tr :
  Receipts d od ct l tr → clock_steady tr → forallb receipt_valid l && receipts_ordered l = true.
Proof.
  unfold clock_steady.
  induction 1 as [|l tr name s events t error Hl IH [Hname Hevents]%phase_end_shows]; intros Hw; [done|].
  rewrite wall_readings_app, part_readings, StronglySorted_app in Hw by done. destruct Hw as (Hcross & Hw1 & Hw2).
  apply IH in Hw1. apply andb_true_iff in Hw1 as [Hv Ho].
  apply StronglySorted_inv in Hw2 as [_ Hst]. inversion Hst as [|? ? Hst' _]; subst.
  pose proof (reading_pos s) as Hpos. pose proof (Receipts_last _ _ _ _ _ Hl) as Hlast.
  assert (Hend : ∀ p, last l = Some p → (pr_ended_at_ms p <= reading s)%N).
  { intros p Hp. rewrite Hp in Hlast. cbn in Hlast. symmetry in Hlast. apply last_Some_elem_of in Hlast.
    by apply Hcross; [|left]. }
  rewrite forallb_app, receipts_ordered_snoc, Hv, Ho. cbn [andb forallb].
  assert (Hstart : pr_started_at_ms (stamped l name (reading s) (reading t) error) = reading s).
  { cbn. destruct (last l) as [p|] eqn:Ep; [|done]. specialize (Hend p eq_refl). lia. }
  unfold receipt_valid. rewrite Hstart. cbn [stamped pr_phase pr_ended_at_ms pr_error failed_phase pr_status].
  rewrite Hname. apply andb_true_iff; split; [repeat (apply andb_true_iff; split)|]; try done.
  - by apply N.ltb_lt.
  - by apply N.leb_le.
  - unfold failed_phase. cbn. by destruct error.
  - destruct (last l) as [p|]; [|done]. apply N.leb_le. by apply Hend.
Qed.

(** ** Runs without a failure *)

(** The driver answers with a success, and the suite deadline has not passed. *)
Definition smooth (d : RunDeadline) (ev : Event) : Prop :=
  match ev with
  | ReadWall _ => True
  | ReadMono now => match rd_at d with Some at_ => (now < at_)%N | None => True end
  | Driven _ _ _ (Finished (ok _)) => True
  | Driven _ _ _ _ => False
  end.
Lemma in_time_smooth d tr : in_time d tr → Forall (smooth d) tr.
Proof.
  unfold in_time. destruct (rd_at d) as [at_|] eqn:E; [intros (now & -> & H)|intros ->; constructor].
  constructor; [|constructor]. cbn. by rewrite E.
Qed.
Lemma overdue_not_smooth d tr e : overdue d tr e → ¬ Forall (smooth d) tr.
Proof. intros (at_ & now & s & -> & -> & H & _) [Hs _]%Forall_cons. cbn in Hs. lia. Qed.
Lemma answers_smooth {R} d (c : DriverCall R) b elapsed w error :
  answers elapsed w error → error = None ↔ smooth d (Driven R c b w).
Proof. by intros []. Qed.
Lemma phase_end_smooth d od ct name tr error :
  phase_end d od ct name tr error → is_Some od → error = None ↔ Forall (smooth d) tr.
Proof.
  intros [name' c tr' error' _ [Hod|tr1 e _ Ho|dl at_ s before _ -> _|dl before w after e _ _ Ho
    |dl before w after e _ Hb Ha Hans]|R name' c elapsed w error' _ Hans] Hsome.
  - by rewrite Hod in Hsome; apply is_Some_None in Hsome.
  - split; [done|]. by intros H%(overdue_not_smooth _ _ _ Ho).
  - split; [done|]. by intros [_ [H _]%Forall_cons]%Forall_app.
  - split; [done|]. by intros [_ [_ H%(overdue_not_smooth _ _ _ Ho)]%Forall_cons]%Forall_app.
  - rewrite (answers_smooth d c (Until dl (rd_at d)) _ _ _ Hans), Forall_app, Forall_cons.
    pose proof (in_time_smooth _ _ Hb). pose proof (in_time_smooth _ _ Ha). tauto.
  - rewrite (answers_smooth d c (For ct) _ _ _ Hans), Forall_singleton. done.
Qed.
(** All receipts are successes exactly when nothing in the run failed. *)
Lemma Receipts_smooth d od ct l tr :
  Receipts d od ct l tr → is_Some od → forallb succeeded_phase l = true ↔ Forall (smooth d) tr.
Proof.
  intros H Hod. induction H as [|l tr name s events t error _ IH Hend]; [by cbn|].
  rewrite forallb_app, andb_true_iff, IH. cbn [forallb]. rewrite andb_true_r, Forall_app, Forall_cons, Forall_app.
  rewrite <-(phase_end_smooth _ _ _ _ _ _ Hend Hod), Forall_singleton. cbn.
  unfold succeeded_phase. cbn. destruct error; cbn; naive_solver.
Qed.
(** Without an operation deadline, no operation succeeds. *)
Lemma Receipts_untimed d ct l tr p :
  Receipts d None ct l tr → p ∈ l → pr_phase p ∈ operations.*1 → pr_status p = PhaseStatus.Failed.
Proof.
  induction 1 as [|l tr name s events t error _ IH Hend]; [by intros ?%elem_of_nil|].
  intros [Hp| ->%list_elem_of_singleton]%elem_of_app Hop; [auto|]. cbn in *.
  inversion Hend as [name' c tr' error' _ He|R name' c elapsed w error' Hc _]; subst.
  - inversion He; subst; try done.
  - exfalso. revert Hop. unfold operations. cbn. rewrite !elem_of_cons, elem_of_nil. by destruct Hc; naive_solver.
Qed.

(** ** Stages *)
Lemma record_phase_runs e name s res tr r :
  runs (record_phase e name s res) tr r → not_panicked res →
  ∃ t, tr = [ReadWall t] ∧
  r = ok (push_receipt e (stamped (we_phases e) name s (reading t) (error_of res)), error_of res).
Proof.
  intros (t & tr' & -> & H)%runs_now Hres. exists t.
  destruct res as [[]|x|]; [| |done]; destruct H as [-> ->]; split; done.
Qed.
Lemma drive_for_runs {R} (c : DriverCall R) ct elapsed tr r :
  runs (drive_for c ct elapsed) tr r → Forall returned tr →
  ∃ w x, tr = [Driven R c (For ct) w] ∧ r = ok x ∧ not_panicked x ∧ answers elapsed w (error_of x).
Proof.
  intros (w & tr' & -> & [-> ->])%runs_drive [Hw _]%Forall_cons. exists w. eexists. do 2 (split; [done|]).
  destruct w as [[| |]| |]; try done; split; try done; constructor.
Qed.
(** A program whose runs all return lets the next one run. *)
Lemma runs_then {A B} (P : list Event → A → Prop) (p : WorkflowProg A) (f : A → WorkflowProg B) tr r :
  (∀ tr' x, runs p tr' x → Forall returned tr' → ∃ a, x = ok a ∧ P tr' a) →
  runs (p ≫= f) tr r → Forall returned tr →
  ∃ tr1 tr2 a, tr = tr1 ++ tr2 ∧ P tr1 a ∧ Forall returned tr2 ∧ runs (f a) tr2 r.
Proof.
  intros Hp H Hret. apply runs_bind in H as [(tr1 & tr2 & a & -> & H1 & H)|[H|[e H]]].
  2,3: by apply Hp in H as (a & [=] & _).
  apply Forall_app in Hret as [Hret1 Hret2]. apply Hp in H1 as (a' & [= ->] & HP); [|done].
  by exists tr1, tr2, a'.
Qed.

Section stages.
Context (d : RunDeadline) (od : option N) (ct : N) (Hd : deadline_formed d).
Local Abbreviation State := (WorkflowEvidence * option string)%type.

(** A phase was recorded: the receipt says its name, its status and its error, and
    stands for the events. *)
Definition recorded (name : string) (e e' : WorkflowEvidence) (error : option string) (tr : list Event) : Prop :=
  ∃ receipt, e' = push_receipt e receipt ∧
    pr_phase receipt = name ∧ pr_error receipt = error ∧
    pr_status receipt = (match error with Some _ => PhaseStatus.Failed | None => PhaseStatus.Succeeded end) ∧
    ∀ tr0, Receipts d od ct (we_phases e) tr0 → Receipts d od ct (we_phases e') (tr0 ++ tr).
Lemma stamped_recorded e name s t error events :
  phase_end d od ct name events error →
  recorded name e (push_receipt e (stamped (we_phases e) name (reading s) (reading t) error)) error
    (ReadWall s :: events ++ [ReadWall t]).
Proof. intros Hend. eexists. do 4 (split; [done|]). intros tr0 H. by apply receipts_snoc. Qed.

Lemma bounded_total name c tr r :
  runs (match od with
        | Some dl => run_bounded d dl name c
        | None => mret (err "storage-recovery operation timeout must be positive")
        end) tr r → Forall returned tr →
  ∃ x, r = ok x ∧ not_panicked x ∧ op_end d od name c tr (error_of x).
Proof using Hd.
  intros H Hret. destruct od as [dl|].
  - by apply run_bounded_ends.
  - destruct H as [-> ->]. eexists. do 2 (split; [done|]). by apply op_untimed.
Qed.
Lemma phase_runs name c (s : State) tr r :
  (name, c) ∈ operations → runs (phase d od name c s) tr r → Forall returned tr →
  ∃ s', r = ok s' ∧
  match s.2 with
  | Some _ => s' = s ∧ tr = []
  | None => recorded name s.1 s'.1 s'.2 tr ∧
            (driven tr = [] ∧ is_Some s'.2 ∨ driven tr = [awaited unit c (Until (default 0%N od) (rd_at d))])
  end.
Proof using Hd.
  intros Hop H Hret. unfold phase in H. destruct s.2 as [e|].
  { destruct H as [-> ->]. eauto. }
  apply runs_now in H as (t & tr' & -> & H). apply Forall_cons in Hret as [_ Hret].
  destruct (runs_then _ _ _ _ _ (bounded_total name c) H Hret) as (tr1 & tr2 & x & -> & (Hx & Hend) & _ & Hrec).
  apply record_phase_runs in Hrec as (t' & -> & ->); [|done].
  eexists. split; [done|]. cbn [fst snd]. split.
  - apply stamped_recorded. by eapply end_operation.
  - rewrite part_driven. by apply op_end_shows in Hend as [_ ?].
Qed.

(** The stages after the operations: each is driven exactly once, under the cleanup
    timeout alone. *)
Lemma closing_runs {R A} (c : DriverCall R) msg (g : Result R → WorkflowEvidence) name (h : Result R → Result unit)
    (k : State → WorkflowProg A) tr r :
  runs (started_at_ms ← workflow_now_ms;
        x ← drive_for c ct msg;
        p ← record_phase (g x) name started_at_ms (h x);
        k p) tr r →
  Forall returned tr → closes R name c msg → (∀ x, not_panicked x → not_panicked (h x) ∧ error_of (h x) = error_of x) →
  ∃ x e' tr1 tr2, tr = tr1 ++ tr2 ∧ not_panicked x ∧ recorded name (g x) e' (error_of (h x)) tr1 ∧
  driven tr1 = [awaited R c (For ct)] ∧ runs (k (e', error_of (h x))) tr2 r.
Proof.
  intros (t & tr' & -> & H)%runs_now Hret Hcloses Hh. apply Forall_cons in Hret as [_ Hret].
  eapply (runs_then (λ tr1 x, not_panicked x ∧ ∃ w, tr1 = [Driven R c (For ct) w] ∧ answers msg w (error_of x)))
    in Hret as (tr1 & tr2 & x & -> & (Hx & w & -> & Hans) & Hret2 & H2); [|..|exact H]; last first.
  { intros tr1 x H1 Hr1. apply drive_for_runs in H1 as (w & y & -> & -> & ? & ?); eauto 10. }
  destruct (Hh x Hx) as [Hp Herr].
  eapply (runs_then (λ tr3 p, ∃ t', tr3 = [ReadWall t'] ∧
      p = (push_receipt (g x) (stamped (we_phases (g x)) name (reading t) (reading t') (error_of (h x))), error_of (h x))))
    in Hret2 as (tr3 & tr4 & p & -> & (t' & -> & ->) & _ & H3); [|..|exact H2]; last first.
  { intros tr3 p H3 _. apply record_phase_runs in H3 as (t' & -> & ->); eauto. }
  exists x. eexists _, (ReadWall t :: [Driven R c (For ct) w] ++ [ReadWall t']), tr4.
  split; [by cbn|]. split; [done|]. split; [|split; [done|exact H3]].
  apply stamped_recorded. rewrite Herr. by eapply end_closing.
Qed.
Lemma cancel_heal_runs (s : State) tr r :
  runs (cancel_heal ct s) tr r → Forall returned tr →
  ∃ s', r = ok s' ∧ ∃ attempted e' error,
  recorded "cancel-heal" (s.1 <| we_cancel_attempted := attempted |>) e' error tr ∧
  driven tr = [awaited OwnedHealCancel CancelOwnedHeal (For ct)] ∧
  s' = (e', also_failed "owned heal cancellation also failed: " s.2 error).
Proof.
  intros H Hret. apply (closing_runs _ _ _ _ (λ x, _ ← x; ok tt)) in H
    as (x & e' & tr1 & tr2 & -> & Hx & Hrec & Hdr & [-> ->]); [|done|constructor|by intros [| |]].
  rewrite app_nil_r. eauto 10.
Qed.
Lemma persist_raw_runs (s : State) tr r :
  runs (persist_raw ct s) tr r → Forall returned tr →
  ∃ s', r = ok s' ∧ ∃ e' error,
  recorded "persist-raw-evidence" (s.1 <| we_evidence_persisted_before_cleanup := is_none error |>) e' error tr ∧
  driven tr = [awaited unit PersistRawEvidence (For ct)] ∧
  s' = (e', also_failed "raw evidence persistence also failed: " s.2 error).
Proof.
  intros H Hret. apply (closing_runs _ _ _ _ id) in H
    as (x & e' & tr1 & tr2 & -> & Hx & Hrec & Hdr & [-> ->]); [|done|constructor|done].
  rewrite app_nil_r. eexists. split; [done|]. exists e', (error_of x). split; [|done]. by destruct x.
Qed.
Lemma persist_workflow_runs (s : State) tr r :
  runs (persist_workflow ct s) tr r → Forall returned tr →
  ∃ s', r = ok s' ∧ ∃ e' error,
  recorded "persist-workflow-evidence" s.1 e' error tr ∧
  driven tr = [awaited unit (PersistWorkflowSnapshot s.1) (For ct)] ∧
  s' = (e', also_failed "workflow evidence persistence also failed: " s.2 error).
Proof.
  intros H Hret. apply (closing_runs _ _ (λ _, s.1) _ id) in H
    as (x & e' & tr1 & tr2 & -> & Hx & Hrec & Hdr & [-> ->]); [|done|constructor|done].
  rewrite app_nil_r. eauto 10.
Qed.
Lemma cleanup_runs (s : State) (Hs : we_cleanup_succeeded s.1 = false) tr r :
  runs (cleanup ct s) tr r → Forall returned tr →
  ∃ s', r = ok s' ∧ ∃ e' error,
  recorded "cleanup" s.1 e' error tr ∧
  driven tr = [awaited unit CleanupOrQuarantine (For ct)] ∧
  s' = (e' <| we_cleanup_succeeded := is_none error |>, also_failed "cleanup or quarantine also failed: " s.2 error).
Proof.
  intros H Hret. apply (closing_runs _ _ (λ _, s.1) _ id) in H
    as (x & e' & tr1 & tr2 & -> & Hx & Hrec & Hdr & H); [|done|constructor|done].
  change (id x) with x in *. cbn [fst snd] in H.
  destruct x as [[]|m|]; [| |done]; destruct H as [-> ->]; rewrite app_nil_r.
  all: eexists; split; [done|]; eexists e', _; split; [exact Hrec|]; split; [done|].
  { done. }
  destruct Hrec as (receipt & -> & _). unfold push_receipt. destruct s as [[] o]; cbn in *. by subst.
Qed.
End stages.
