(* ===== verification/RecoveryWorkflowTheorems.v ===== *)
(** The lifecycle of a storage-recovery attempt: whatever fails, the raw evidence and
    the workflow evidence are persisted and the cleanup is driven, in this order; and
    the evidence is what its validator accepts. Sample attempts, run from a script of
    the clocks and of the driver, are at the end. *)
From S2P Require Import Prelude RustText StorageLease StorageOwnership RecoveryWorkflow RecoveryWorkflowFacts.
From stdpp Require Import options.

Local Abbreviation Operation := (string * DriverCall unit)%type.
Definition outcome (p : PhaseReceipt) : string * PhaseStatus.t := (pr_phase p, pr_status p).
Definition outcomes (e : WorkflowEvidence) : list (string * PhaseStatus.t) := outcome <$> we_phases e.
Definition status_of (error : option string) : PhaseStatus.t :=
  match error with Some _ => PhaseStatus.Failed | None => PhaseStatus.Succeeded end.
Definition with_status (st : PhaseStatus.t) (op : Operation) : string * PhaseStatus.t := (op.1, st).
(** The heal was started, and a later operation failed. *)
Definition heal_outstanding (done rest : list Operation) : bool :=
  bool_decide ("start-heal" ∈ done.*1) && negb (bool_decide (length rest = 0)).
(** An operation is awaited under the operation deadline and the suite deadline. *)
Definition op_await (d : RunDeadline) (dl : N) (op : Operation) : Await := awaited unit op.2 (Until dl (rd_at d)).

(** ** Recording *)
Section recording.
Context {d : RunDeadline} {od : option N} {ct : N}.
Local Abbreviation recorded := (recorded d od ct).
Lemma recorded_outcomes name e e' error tr :
  recorded name e e' error tr → outcomes e' = outcomes e ++ [(name, status_of error)].
Proof.
  intros (receipt & -> & Hp & _ & Hs & _). unfold outcomes, push_receipt. cbn. rewrite fmap_app. cbn.
  unfold outcome at 2. by rewrite Hp, Hs.
Qed.
Lemma recorded_fields name e e' error tr :
  recorded name e e' error tr → e' = e <| we_phases := we_phases e' |>.
Proof. by intros (receipt & -> & _). Qed.
Lemma recorded_prefix name e e' error tr :
  recorded name e e' error tr → ∃ receipt, we_phases e' = we_phases e ++ [receipt].
Proof. intros (receipt & -> & _). by exists receipt. Qed.
Lemma recorded_receipts name e e' error tr tr0 :
  recorded name e e' error tr → Receipts d od ct (we_phases e) tr0 → Receipts d od ct (we_phases e') (tr0 ++ tr).
Proof. intros (receipt & -> & _ & _ & _ & H). apply H. Qed.
End recording.
Lemma also_failed_None what primary error :
  also_failed what primary error = None ↔ primary = None ∧ error = None.
Proof. destruct error, primary; cbn; naive_solver. Qed.

(** ** The operations *)
Section operations.
Context (plan : StorageRecoveryExecutionPlan) (run_id : string).
Context (d : RunDeadline) (od : option N) (ct : N) (Hd : deadline_formed d).
Local Abbreviation State := (WorkflowEvidence * option string)%type.
Local Abbreviation await := (op_await d (default 0%N od)).
Local Abbreviation evidence phases := (mkWorkflowEvidence 1 (rp_scenario plan) (rp_case plan) run_id phases).

(** After [n] operations: those of [done] succeeded, the first of [rest] failed,
    the others of it were not begun. *)
Record Progress (n : nat) (done rest : list Operation) (s : State) (tr : list Event) : Prop := mkProgress {
  pg_split : take n operations = done ++ rest;
  pg_error : s.2 = None ↔ rest = [];
  pg_fields : s.1 = evidence (we_phases s.1) false false false false;
  pg_outcomes : outcomes s.1 = (with_status PhaseStatus.Succeeded <$> done)
                               ++ (with_status PhaseStatus.Failed <$> take 1 rest);
  pg_driven : ∃ attempted, driven tr = (await <$> done) ++ attempted ∧ attempted `prefix_of` (await <$> take 1 rest);
  pg_receipts : Receipts d od ct (we_phases s.1) tr;
}.
Lemma Progress_nil : Progress 0 [] [] (initial_evidence plan run_id, None) [].
Proof. split; try done; [by exists []|constructor]. Qed.

(** One more operation: skipped after a failure, or recorded. *)
Lemma Progress_step n name c done rest s tr tr' r :
  Progress n done rest s tr → operations !! n = Some (name, c) →
  runs (phase d od name c s) tr' r → Forall returned tr' →
  ∃ s' done' rest', r = ok s' ∧ Progress (S n) done' rest' s' (tr ++ tr') ∧
    done `prefix_of` done' ∧ (s.2 = None ∨ done' = done ∧ s'.2 = s.2).
Proof using Hd.
  intros [Hsplit Herror Hfields Hout (att & Hdr & Hatt) Hrec] Hop H Hret.
  apply (phase_runs d od ct Hd) in H as (s' & -> & H); [|by eapply list_elem_of_lookup_2|done].
  assert (Htake : take (S n) operations = (done ++ rest) ++ [(name, c)]) by (by erewrite take_S_r, Hsplit).
  destruct s.2 as [e|] eqn:Es.
  - destruct H as [-> ->]. exists s, done, (rest ++ [(name, c)]). split; [done|]. split; [|auto].
    rewrite app_nil_r. destruct rest as [|op rest]; [by discriminate (proj2 Herror eq_refl)|].
    split; try done; [by rewrite Htake, app_assoc|by rewrite Es|by exists att].
  - assert (rest = []) as -> by tauto. destruct H as [Hr Hd'].
    cbn in Hout, Hatt. apply prefix_nil_inv in Hatt as ->. rewrite !app_nil_r in *.
    pose proof (recorded_outcomes _ _ _ _ _ Hr) as Hout'. pose proof (recorded_fields _ _ _ _ _ Hr) as Hf'.
    pose proof (recorded_receipts _ _ _ _ _ _ Hr Hrec) as Hrec'.
    rewrite Hfields in Hf'. rewrite Hout in Hout'.
    destruct (s'.2) as [e|] eqn:Es'.
    + exists s', done, [(name, c)]. split; [done|]. split; [|auto].
      split; try done; [by rewrite Es'|].
      exists (driven tr'). rewrite driven_app, Hdr. split; [done|].
      destruct Hd' as [[Hd' _]|Hd']; rewrite Hd'; [apply prefix_nil|done].
    + exists s', (done ++ [(name, c)]), []. split; [done|].
      split; [|split; [by apply prefix_app_r|by left]].
      split; try done; [by rewrite app_nil_r| |].
      * by rewrite Hout', app_nil_r, fmap_app.
      * exists []. rewrite driven_app, Hdr, app_nil_r, fmap_app. split; [|done].
        destruct Hd' as [[_ [? [=]]]|Hd']. by rewrite Hd'.
Qed.
Lemma Progress_then {A} n name c done rest s tr (f : State → WorkflowProg A) tr' r :
  Progress n done rest s tr → operations !! n = Some (name, c) →
  runs (phase d od name c s ≫= f) tr' r → Forall returned tr' →
  ∃ tr1 tr2 s' done' rest', tr' = tr1 ++ tr2 ∧ Progress (S n) done' rest' s' (tr ++ tr1) ∧
    (done `prefix_of` done' ∧ (s.2 = None ∨ done' = done ∧ s'.2 = s.2)) ∧ Forall returned tr2 ∧ runs (f s') tr2 r.
Proof using Hd.
  intros Hp Hop H Hret.
  eapply (runs_then (λ tr1 s', ∃ done' rest', Progress (S n) done' rest' s' (tr ++ tr1) ∧
      done `prefix_of` done' ∧ (s.2 = None ∨ done' = done ∧ s'.2 = s.2))) in Hret
    as (tr1 & tr2 & s' & -> & (done' & rest' & HP & Hs) & Hret & H2); [|..|exact H].
  - eauto 10.
  - intros tr1 x H1 Hr1. eapply Progress_step in H1 as (s' & done' & rest' & -> & ?); eauto.
Qed.

(** Before the closing stages: the heal the attempt owns was canceled if something failed. *)
Definition cancel_outcome (done rest : list Operation) (cancel : PhaseStatus.t) : list (string * PhaseStatus.t) :=
  if heal_outstanding done rest then [("cancel-heal", cancel)] else [].
Definition cancel_await (done rest : list Operation) : list Await :=
  if heal_outstanding done rest then [awaited OwnedHealCancel CancelOwnedHeal (For ct)] else [].
Record Stopped (done rest : list Operation) (cancel : PhaseStatus.t) (attempted : bool) (s : State)
    (tr : list Event) : Prop := mkStopped {
  sp_split : operations = done ++ rest;
  sp_error : s.2 = None ↔ rest = [];
  sp_fields : s.1 = evidence (we_phases s.1) attempted false false false;
  sp_attempted : attempted = true → heal_outstanding done rest = true;
  sp_outcomes : outcomes s.1 = (with_status PhaseStatus.Succeeded <$> done)
      ++ (with_status PhaseStatus.Failed <$> take 1 rest) ++ cancel_outcome done rest cancel;
  sp_driven : ∃ begun, driven tr = (await <$> done) ++ begun ++ cancel_await done rest ∧
      begun `prefix_of` (await <$> take 1 rest);
  sp_receipts : Receipts d od ct (we_phases s.1) tr;
}.
Lemma stop_runs {A} done rest s tr (owned : bool) (f : State → WorkflowProg A) tr' r :
  Progress 7 done rest s tr → (rest ≠ [] → owned = bool_decide ("start-heal" ∈ done.*1)) →
  runs ((if negb (is_none s.2) && owned then cancel_heal ct s else mret s) ≫= f) tr' r → Forall returned tr' →
  ∃ tr1 tr2 s' cancel attempted, tr' = tr1 ++ tr2 ∧ Stopped done rest cancel attempted s' (tr ++ tr1) ∧
    Forall returned tr2 ∧ runs (f s') tr2 r.
Proof.
  intros [Hsplit Herror Hfields Hout (att & Hdr & Hatt) Hrec] Howned H Hret.
  change (take 7 operations) with operations in Hsplit.
  assert (Hheal : negb (is_none s.2) && owned = heal_outstanding done rest).
  { unfold heal_outstanding. destruct rest as [|op rest].
    - rewrite (proj2 Herror eq_refl). cbn. by rewrite andb_false_r.
    - destruct s.2; [|by discriminate (proj1 Herror eq_refl)]. rewrite Howned by done. cbn. by rewrite andb_true_r. }
  rewrite Hheal in H. destruct (heal_outstanding done rest) eqn:E.
  - destruct (runs_then _ _ _ _ _ (cancel_heal_runs d od ct s) H Hret)
      as (tr1 & tr2 & s' & -> & (attempted & e' & error & Hr & Hd1 & ->) & Hret2 & H2).
    exists tr1, tr2. eexists _, (status_of error), attempted. split; [done|]. split; [|done].
    pose proof (recorded_outcomes _ _ _ _ _ Hr) as Hout'. pose proof (recorded_fields _ _ _ _ _ Hr) as Hf'.
    eapply recorded_receipts in Hr as Hrec'; [|exact Hrec].
    rewrite Hfields in Hf'. split; try done; cbn [fst snd].
    + rewrite also_failed_None. unfold heal_outstanding in E. split; [naive_solver|intros ->].
      by rewrite andb_false_r in E.
    + unfold cancel_outcome. rewrite E, Hout'. change (outcomes (s.1 <| we_cancel_attempted := attempted |>)) with (outcomes s.1).
      by rewrite Hout, <-app_assoc.
    + exists att. unfold cancel_await. by rewrite E, driven_app, Hdr, Hd1, <-app_assoc.
  - exists [], tr', s, PhaseStatus.Succeeded, false. split; [done|]. rewrite app_nil_r. split; [|done].
    split; try done; unfold cancel_outcome, cancel_await; rewrite E, ?app_nil_r; [done|].
    exists att. by rewrite app_nil_r.
Qed.

(** The end of an attempt: the errors of its three closing stages. *)
Record Closing := mkClosing { cl_raw : option string; cl_persisted : option string; cl_cleaned : option string }.
Definition closing_outcomes (c : Closing) : list (string * PhaseStatus.t) :=
  [("persist-raw-evidence", status_of (cl_raw c)); ("persist-workflow-evidence", status_of (cl_persisted c));
   ("cleanup", status_of (cl_cleaned c))].
Definition closing_awaits (snapshot : WorkflowEvidence) : list Await :=
  [awaited unit PersistRawEvidence (For ct); awaited unit (PersistWorkflowSnapshot snapshot) (For ct);
   awaited unit CleanupOrQuarantine (For ct)].
Lemma close_runs (s : State) phases attempted tr0 tr r :
  runs (s ← persist_raw ct s; s ← persist_workflow ct s; s ← cleanup ct s;
        mret (s.1 <| we_completed := is_none s.2 |>, s.2)) tr r →
  Forall returned tr → s.1 = evidence phases attempted false false false → Receipts d od ct phases tr0 →
  ∃ e error c snapshot, r = ok (e, error) ∧
    e = evidence (we_phases e) attempted (is_none (cl_raw c)) (is_none (cl_cleaned c)) (is_none error) ∧
    (error = None ↔ s.2 = None ∧ cl_raw c = None ∧ cl_persisted c = None ∧ cl_cleaned c = None) ∧
    outcomes e = outcomes s.1 ++ closing_outcomes c ∧ driven tr = closing_awaits snapshot ∧
    (∃ a b, we_phases e = we_phases snapshot ++ [a; b]) ∧ Receipts d od ct (we_phases e) (tr0 ++ tr).
Proof.
  intros H Hret Hs Hw.
  destruct (runs_then _ _ _ _ _ (persist_raw_runs d od ct s) H Hret)
    as (tr1 & tr' & s1 & -> & (e1 & err1 & R1 & D1 & ->) & Hret1 & H1).
  destruct (runs_then _ _ _ _ _ (persist_workflow_runs d od ct _) H1 Hret1)
    as (tr2 & tr'' & s2 & -> & (e2 & err2 & R2 & D2 & ->) & Hret2 & H2).
  pose proof (recorded_fields _ _ _ _ _ R1) as F1. pose proof (recorded_fields _ _ _ _ _ R2) as F2.
  rewrite Hs in F1. cbn [fst] in F2. rewrite F1 in F2.
  assert (Hc : we_cleanup_succeeded e2 = false) by (by rewrite F2).
  destruct (runs_then _ _ _ _ _ (cleanup_runs d od ct (e2, _) Hc) H2 Hret2)
    as (tr3 & tr4 & s3 & -> & (e3 & err3 & R3 & D3 & ->) & _ & [-> ->]).
  pose proof (recorded_fields _ _ _ _ _ R3) as F3. cbn [fst] in F3. rewrite F2 in F3.
  eexists _, _, (mkClosing err1 err2 err3), e1. split; [done|]. cbn [fst snd cl_raw cl_persisted cl_cleaned].
  split; [by rewrite F3|]. split; [rewrite !also_failed_None; tauto|].
  apply recorded_outcomes in R1 as O1. apply recorded_outcomes in R2 as O2. apply recorded_outcomes in R3 as O3.
  split; [|split; [by rewrite !driven_app, D1, D2, D3|split]].
  - change (outcomes (e3 <| we_cleanup_succeeded := is_none err3 |> <| we_completed := _ |>)) with (outcomes e3).
    rewrite O3. cbn [fst]. rewrite O2. cbn [fst]. by rewrite O1, <-!app_assoc.
  - apply recorded_prefix in R2 as [a Ha]. apply recorded_prefix in R3 as [b Hb]. cbn [fst] in Ha, Hb.
    exists a, b. cbn. by rewrite Hb, Ha, <-app_assoc.
  - rewrite app_nil_r, !app_assoc.
    apply (recorded_receipts _ _ e3 _ _ _ R3). eapply recorded_receipts; [exact R2|].
    eapply recorded_receipts; [exact R1|]. by rewrite Hs.
Qed.
End operations.
Arguments Progress_then {plan run_id d od ct} Hd {A n name c done rest s tr f tr' r} _ _ _ _.

(** The heal is owned when its start succeeded. *)
Lemma start_heal_done done rest : take 5 operations = done ++ rest →
  bool_decide ("start-heal" ∈ done.*1) = bool_decide (length rest = 0).
Proof.
  intros Hsplit. destruct rest as [|op rest] using rev_ind.
  - rewrite app_nil_r in Hsplit. by rewrite <-Hsplit.
  - clear IHrest. change (take 5 operations) with (take 4 operations ++ [("start-heal", StartHeal)]) in Hsplit.
    rewrite app_assoc in Hsplit. apply app_inj_tail in Hsplit as [Hsplit _].
    rewrite length_app, (bool_decide_eq_false_2 (_ + _ = 0)) by (cbn; lia).
    apply bool_decide_eq_false_2. intros Hin.
    assert (Hin' : "start-heal" ∈ (take 4 operations).*1) by (rewrite Hsplit, fmap_app; set_solver).
    revert Hin'. by apply (bool_decide_unpack _).
Qed.
Lemma owned_heal {plan run_id d od ct} {s4 s5 s6 s7 : WorkflowEvidence * option string} {done5 rest5 done6 done7 tr} :
  Progress plan run_id d od ct 5 done5 rest5 s5 tr →
  (s4.2 = None ∨ s5.2 = s4.2) →
  done5 `prefix_of` done6 ∧ (s5.2 = None ∨ done6 = done5 ∧ s6.2 = s5.2) →
  done6 `prefix_of` done7 ∧ (s6.2 = None ∨ done7 = done6 ∧ s7.2 = s6.2) →
  is_none s4.2 && is_none s5.2 = bool_decide ("start-heal" ∈ done7.*1).
Proof.
  intros P S4 [D6 S6] [D7 S7]. pose proof (start_heal_done _ _ (pg_split _ _ _ _ _ _ _ _ _ _ P)) as Hs.
  pose proof (pg_error _ _ _ _ _ _ _ _ _ _ P) as He. destruct (s5.2) as [x|].
  - destruct S6 as [[=]|[-> S6]]. destruct S7 as [S7|[-> _]]; [congruence|].
    rewrite Hs, andb_false_r. symmetry. apply bool_decide_eq_false_2. destruct rest5; [|done]. naive_solver.
  - assert (Hin : "start-heal" ∈ done5.*1).
    { apply (bool_decide_unpack _). rewrite Hs. by rewrite (proj1 He eq_refl). }
    rewrite bool_decide_eq_true_2; [by destruct S4 as [->|<-]|].
    destruct D6 as [k6 ->], D7 as [k7 ->]. rewrite !fmap_app. set_solver.
Qed.

(** ** The whole attempt *)

(** The deadline of the operations: none for a timeout of zero or one that the clock
    cannot hold. *)
Definition operations_end (checked_add : N → N → option N) (plan : StorageRecoveryExecutionPlan) (now : N) : option N :=
  match rp_operation_timeout plan with 0%N => None | timeout => checked_add now timeout end.
Section attempt.
Context (checked_add : N → N → option N) (plan : StorageRecoveryExecutionPlan) (run_id : string).
Context (d : RunDeadline) (ct : N).

Record Attempt (od : option N) (e : WorkflowEvidence) (error : option string) (tr : list Event) (done rest : list Operation)
    (cancel : PhaseStatus.t) (attempted : bool) (c : Closing) (snapshot : WorkflowEvidence) : Prop := mkAttempt {
  at_split : operations = done ++ rest;
  at_fields : e = mkWorkflowEvidence 1 (rp_scenario plan) (rp_case plan) run_id (we_phases e) attempted
                    (is_none (cl_raw c)) (is_none (cl_cleaned c)) (is_none error);
  at_attempted : attempted = true → heal_outstanding done rest = true;
  at_error : error = None ↔ rest = [] ∧ cl_raw c = None ∧ cl_persisted c = None ∧ cl_cleaned c = None;
  at_outcomes : outcomes e = (with_status PhaseStatus.Succeeded <$> done)
      ++ (with_status PhaseStatus.Failed <$> take 1 rest) ++ cancel_outcome done rest cancel ++ closing_outcomes c;
  at_driven : ∃ begun, driven tr = (op_await d (default 0%N od) <$> done) ++ begun ++ cancel_await ct done rest
      ++ closing_awaits ct snapshot ∧ begun `prefix_of` (op_await d (default 0%N od) <$> take 1 rest);
  at_snapshot : ∃ a b, we_phases e = we_phases snapshot ++ [a; b];
  at_receipts : Receipts d od ct (we_phases e) tr;
}.
Lemma execute_runs tr r :
  runs (execute_storage_recovery_workflow checked_add plan run_id d ct) tr r →
  deadline_formed d → Forall returned tr →
  ∃ now tr' e error done rest cancel attempted c snapshot,
    tr = ReadMono now :: tr' ∧ r = ok (e, error) ∧
    Attempt (operations_end checked_add plan now) e error tr' done rest cancel attempted c snapshot.
Proof.
  intros (now & tr' & -> & H) Hd Hret. apply Forall_cons in Hret as [_ Hret].
  cbv zeta in H.
  assert ((if (rp_operation_timeout plan =? 0)%N then None else checked_add now (rp_operation_timeout plan))
          = operations_end checked_add plan now) as Hod by (unfold operations_end; by destruct (rp_operation_timeout plan)).
  rewrite Hod in H. clear Hod. exists now, tr'. generalize dependent (operations_end checked_add plan now). intros od H.
  pose proof (Progress_nil plan run_id d od ct) as P0.
  destruct (Progress_then Hd P0 eq_refl H Hret)
    as (tr1 & ? & s1 & done1 & rest1 & -> & P1 & _ & Hret1 & H1).
  destruct (Progress_then Hd P1 eq_refl H1 Hret1)
    as (tr2 & ? & s2 & done2 & rest2 & -> & P2 & _ & Hret2 & H2).
  destruct (Progress_then Hd P2 eq_refl H2 Hret2)
    as (tr3 & ? & s3 & done3 & rest3 & -> & P3 & _ & Hret3 & H3).
  destruct (Progress_then Hd P3 eq_refl H3 Hret3)
    as (tr4 & ? & s4 & done4 & rest4 & -> & P4 & _ & Hret4 & H4).
  destruct (Progress_then Hd P4 eq_refl H4 Hret4)
    as (tr5 & ? & s5 & done5 & rest5 & -> & P5 & [_ S5] & Hret5 & H5).
  destruct (Progress_then Hd P5 eq_refl H5 Hret5)
    as (tr6 & ? & s6 & done6 & rest6 & -> & P6 & S6 & Hret6 & H6).
  destruct (Progress_then Hd P6 eq_refl H6 Hret6)
    as (tr7 & ? & s7 & done & rest & -> & P7 & S7 & Hret7 & H7).
  assert (S4 : s4.2 = None ∨ s5.2 = s4.2) by tauto. pose proof (owned_heal P5 S4 S6 S7) as Howned.
  eapply stop_runs in H7 as (tr8 & ? & s8 & cancel & attempted & -> & P8 & Hret8 & H8); [|exact P7|intros _; exact Howned|done].
  destruct P8 as [Hsplit Herror Hfields Hattempted Hout (begun & Hdr & Hbegun) Hrec].
  eapply close_runs in H8 as (e & error & c & snapshot & -> & Hf & He & Ho & Hd8 & Hsnap & Hr); [|done|exact Hfields|exact Hrec].
  exists e, error, done, rest, cancel, attempted, c, snapshot. do 2 (split; [done|]).
  cbn [app] in Hdr, Hrec, Hr. rewrite !app_assoc. split; try done.
  - by rewrite He, Herror.
  - by rewrite Ho, Hout, <-!app_assoc.
  - exists begun. split; [|done]. by rewrite driven_app, Hdr, Hd8, <-!app_assoc.
Qed.
End attempt.

(** ** The evidence *)
Definition succeeded_outcome (o : string * PhaseStatus.t) : bool := bool_decide (o.2 = PhaseStatus.Succeeded).
Lemma succeeded_outcomes l : forallb succeeded_phase l = forallb succeeded_outcome (outcome <$> l).
Proof. induction l as [|p l IH]; [done|]. cbn. by rewrite IH. Qed.
Lemma failed_succeeded l : existsb failed_phase l = negb (forallb succeeded_phase l).
Proof.
  induction l as [|p l IH]; [done|]. cbn. rewrite IH, negb_andb.
  unfold failed_phase, succeeded_phase. by destruct (pr_status p).
Qed.
Lemma succeeded_status error : bool_decide (status_of error = PhaseStatus.Succeeded) = is_none error.
Proof. by destruct error. Qed.
Lemma succeeded_outcome_status name error : succeeded_outcome (name, status_of error) = is_none error.
Proof. apply succeeded_status. Qed.
Lemma forallb_with_status st (l : list Operation) :
  forallb succeeded_outcome (with_status st <$> l) = bool_decide (st = PhaseStatus.Succeeded) || bool_decide (length l = 0).
Proof. destruct st; by induction l. Qed.

Section evidence.
Context {plan : StorageRecoveryExecutionPlan} {run_id : string} {d : RunDeadline} {ct : N} {od : option N}.
Context {e : WorkflowEvidence} {error : option string} {tr : list Event} {done rest : list Operation}.
Context {cancel : PhaseStatus.t} {attempted : bool} {c : Closing} {snapshot : WorkflowEvidence}.
Context (HA : Attempt plan run_id d ct od e error tr done rest cancel attempted c snapshot).

(** An attempt has no error if and only if all its phases succeeded. *)
Lemma attempt_all_succeeded : forallb succeeded_phase (we_phases e) = is_none error.
Proof using HA.
  destruct HA as [_ _ _ Herror Hout _ _ _].
  rewrite succeeded_outcomes. fold (outcomes e). rewrite Hout, !forallb_app, !forallb_with_status.
  unfold closing_outcomes, cancel_outcome, heal_outstanding. cbn [forallb].
  rewrite !succeeded_outcome_status. destruct rest as [|op r]; cbn.
  - rewrite andb_false_r. cbn. destruct c as [[] [] []], error; cbn in *; naive_solver.
  - destruct error; [done|]. naive_solver.
Qed.
Lemma attempt_last : ∃ p, last (we_phases e) = Some p ∧ outcome p = ("cleanup", status_of (cl_cleaned c)).
Proof using HA.
  destruct HA as [_ _ _ _ Hout _ _ _].
  assert (Hl : last (outcomes e) = Some ("cleanup", status_of (cl_cleaned c))).
  { rewrite Hout, !app_assoc. unfold closing_outcomes. by rewrite last_app. }
  unfold outcomes in Hl. rewrite fmap_last in Hl. destruct (last (we_phases e)) as [p|]; [|done].
  exists p. split; [done|]. by apply (inj Some) in Hl.
Qed.
Lemma attempt_first : ∃ p, p ∈ we_phases e ∧ pr_phase p = "prepare-and-seal-dataset".
Proof using HA.
  destruct HA as [Hsplit _ _ _ Hout _ _ _].
  assert (∃ st, ("prepare-and-seal-dataset", st) ∈ outcomes e) as [st Hin].
  { rewrite Hout. destruct done as [|op l]; cbn in Hsplit; [|injection Hsplit as <- _; eexists; cbn; by left].
    destruct rest as [|op l]; [done|]. injection Hsplit as <- _. eexists; cbn; by left. }
  apply list_elem_of_fmap in Hin as (p & [= H _] & Hp). by exists p.
Qed.
Lemma attempt_raw : bool_decide (("persist-raw-evidence", PhaseStatus.Succeeded) ∈ outcomes e) = is_none (cl_raw c).
Proof using HA.
  destruct HA as [Hsplit _ _ _ Hout _ _ _].
  assert (Hops : ∀ st op, op ∈ operations → with_status st op ≠ ("persist-raw-evidence", PhaseStatus.Succeeded)).
  { intros st op. unfold operations. rewrite !elem_of_cons, elem_of_nil. naive_solver. }
  assert (Hpart : ∀ st (l : list Operation), (∀ op, op ∈ l → op ∈ operations) →
    ("persist-raw-evidence", PhaseStatus.Succeeded) ∉ with_status st <$> l).
  { intros st l Hl (op & Heq & Hin)%list_elem_of_fmap. by eapply Hops; [apply Hl|]. }
  assert (Hmem : ("persist-raw-evidence", PhaseStatus.Succeeded) ∈ outcomes e ↔ cl_raw c = None).
  { rewrite Hout, !elem_of_app. unfold closing_outcomes, cancel_outcome. rewrite !elem_of_cons, elem_of_nil. split.
    - intros [Hin|[Hin|[Hin|Hin]]].
      + exfalso. revert Hin. apply Hpart. intros op. rewrite Hsplit, elem_of_app. auto.
      + exfalso. revert Hin. apply Hpart. intros op Hop. rewrite Hsplit, elem_of_app. right. by destruct rest; set_solver.
      + destruct (heal_outstanding done rest); set_solver.
      + destruct (cl_raw c); naive_solver.
    - intros ->. auto. }
  destruct (cl_raw c) as [x|]; [apply bool_decide_eq_false_2|apply bool_decide_eq_true_2]; naive_solver.
Qed.
(** An attempt has no error if and only if its operations have a deadline, the suite
    deadline is met at every check and the driver answers every call with a success. *)
Lemma attempt_smooth : error = None ↔ is_Some od ∧ Forall (smooth d) tr.
Proof using HA.
  pose proof (at_receipts _ _ _ _ _ _ _ _ _ _ _ _ _ _ HA) as Hrec. pose proof attempt_all_succeeded as Hall.
  destruct attempt_first as (p & Hp & Hname). destruct od as [dl|].
  - rewrite <-(Receipts_smooth _ _ _ _ _ Hrec) by (by eexists). rewrite Hall.
    destruct error; cbn; split; [done|by intros [_ ?]|by eexists|done].
  - split; [intros ->|by intros [?%is_Some_None _]]. cbn in Hall.
    assert (pr_status p = PhaseStatus.Succeeded) as Hs.
    { apply (bool_decide_unpack _), Is_true_true.
      exact (proj1 (forallb_forall _ _) Hall p (proj1 (list_elem_of_In _ _) Hp)). }
    by rewrite (Receipts_untimed _ _ _ _ _ Hrec Hp) in Hs by (rewrite Hname; cbn; left).
Qed.
(** The validator accepts the evidence exactly when the raw evidence was persisted. *)
Lemma attempt_validates :
  StorageRecoveryCase.scenario (rp_case plan) = rp_scenario plan → trim_is_empty run_id = false → clock_steady tr →
  is_ok (validate_workflow e) = is_none (cl_raw c).
Proof using HA.
  intros Hscenario Hrun Hclock. pose proof attempt_all_succeeded as Hall.
  destruct attempt_last as (p & Hlast & [= Hp Hst]).
  pose proof (Receipts_valid _ _ _ _ _ (at_receipts _ _ _ _ _ _ _ _ _ _ _ _ _ _ HA) Hclock) as Hvalid.
  pose proof (at_attempted _ _ _ _ _ _ _ _ _ _ _ _ _ _ HA) as Hatt.
  pose proof (at_error _ _ _ _ _ _ _ _ _ _ _ _ _ _ HA) as Herr.
  pose proof (at_fields _ _ _ _ _ _ _ _ _ _ _ _ _ _ HA) as Hf.
  assert (Hne : bool_decide (we_phases e = []) = false).
  { apply bool_decide_eq_false_2. intros E. by rewrite E in Hlast. }
  unfold validate_workflow. rewrite failed_succeeded, Hall, Hvalid, Hlast, Hne, Hp. unfold succeeded_phase at 1. rewrite Hst, succeeded_status.
  rewrite Hf. cbn [we_schema_version we_scenario we_case we_run_id we_cancel_attempted we_completed
    we_evidence_persisted_before_cleanup we_cleanup_succeeded].
  rewrite Hscenario, Hrun, (bool_decide_eq_true_2 (rp_scenario plan = _)) by done.
  rewrite eqb_reflx. cbn.
  destruct (cl_raw c) eqn:Eraw; cbn; [done|].
  destruct error as [x|]; cbn; [done|].
  destruct (proj1 Herr eq_refl) as (-> & _ & _ & ->). destruct attempted; [|done]. specialize (Hatt eq_refl).
  unfold heal_outstanding in Hatt. by rewrite andb_false_r in Hatt.
Qed.
End evidence.

(** C19. Whatever the driver answers short of a panic, whatever times out and whatever
    the clocks show, a storage-recovery attempt returns: it drives the operations in
    their order up to the first that fails, each until the operation deadline (the first
    reading of the monotonic clock plus the timeout of the plan; no operation begins
    without one) and the suite deadline, cancels the heal exactly when it was started
    and something later failed, and then, under the cleanup timeout alone, persists the
    raw evidence, persists the workflow evidence and cleans up, each exactly once and in
    this order. The run splits into the parts its receipts stand for, and each receipt
    has the times read at the two ends of its part and the outcome of the events
    between: an operation succeeds exactly when the driver answered it with a success
    and both checks of the suite deadline were in time, a closing phase exactly when its
    call was answered with a success; otherwise the receipt has the error of the driver,
    of the operation timeout, of the cleanup timeout or of the suite deadline. The
    attempt is completed exactly when all receipts are successes. *)
Theorem workflow_always_cleans_up checked_add plan run_id d ct tr r :
  deadline_formed d → Forall returned tr →
  runs (execute_storage_recovery_workflow checked_add plan run_id d ct) tr r →
  ∃ now tr' e error done rest cancel c begun snapshot,
    let od := operations_end checked_add plan now in
    tr = ReadMono now :: tr' ∧ r = ok (e, error) ∧ operations = done ++ rest ∧
    outcomes e = (with_status PhaseStatus.Succeeded <$> done) ++ (with_status PhaseStatus.Failed <$> take 1 rest)
                 ++ cancel_outcome done rest cancel ++ closing_outcomes c ∧
    driven tr = (op_await d (default 0%N od) <$> done) ++ begun ++ cancel_await ct done rest
                ++ closing_awaits ct snapshot ∧
    begun `prefix_of` (op_await d (default 0%N od) <$> take 1 rest) ∧
    Receipts d od ct (we_phases e) tr' ∧
    (∃ a b, we_phases e = we_phases snapshot ++ [a; b]) ∧
    we_completed e = is_none error ∧ forallb succeeded_phase (we_phases e) = is_none error.
Proof.
  intros Hd Hret Hr.
  apply execute_runs in Hr as (now & tr' & e & error & ops & rest & cancel & att & c & snap & -> & -> & HA); [|done|done].
  destruct (at_driven _ _ _ _ _ _ _ _ _ _ _ _ _ _ HA) as (begun & Hdr & Hbegun).
  exists now, tr', e, error, ops, rest, cancel, c, begun, snap.
  pose proof (attempt_all_succeeded HA) as Hall. destruct HA as [? Hf ? ? ? _ ? ?].
  split_and!; try done. by rewrite Hf.
Qed.

(** C20. If the wall clock does not step back during an attempt with a non-blank run id,
    of a plan whose scenario is that of its case, the workflow evidence passes its own
    validator exactly when the raw evidence was persisted. The attempt has no error, and
    the evidence is accepted as that of this completed attempt, exactly when the
    operations have a deadline, the driver answered every call with a success and every
    check of the suite deadline was in time; the runner then returns success exactly
    when the artifact was also serialized and written. *)
Theorem workflow_evidence_valid checked_add plan run_id d ct to_string_pretty write_text tr r :
  deadline_formed d → Forall returned tr → clock_steady tr →
  StorageRecoveryCase.scenario (rp_case plan) = rp_scenario plan → trim_is_empty run_id = false →
  runs (execute_storage_recovery_workflow checked_add plan run_id d ct) tr r →
  ∃ now tr' e error, tr = ReadMono now :: tr' ∧ r = ok (e, error) ∧
    (error = None ↔ is_Some (operations_end checked_add plan now) ∧ Forall (smooth d) tr') ∧
    is_none error = forallb succeeded_phase (we_phases e) ∧
    is_ok (validate_workflow e) = bool_decide (("persist-raw-evidence", PhaseStatus.Succeeded) ∈ outcomes e) ∧
    is_ok (validate_completed_attempt e (rp_scenario plan) run_id (rp_case plan)) = is_none error ∧
    is_ok (workflow_result to_string_pretty write_text e error)
    = is_ok (json ← to_string_pretty e; write_text json) && is_none error.
Proof.
  intros Hd Hret Hclock Hscenario Hrun Hr.
  apply execute_runs in Hr as (now & tr' & e & error & ops & rest & cancel & att & c & snap & -> & -> & HA); [|done|done].
  pose proof (attempt_validates HA Hscenario Hrun Hclock) as Hv. pose proof (attempt_raw HA) as Hraw.
  pose proof (attempt_smooth HA) as Hsmooth. pose proof (attempt_all_succeeded HA) as Hall.
  pose proof (at_error _ _ _ _ _ _ _ _ _ _ _ _ _ _ HA) as Herr.
  pose proof (at_fields _ _ _ _ _ _ _ _ _ _ _ _ _ _ HA) as Hf.
  exists now, tr', e, error. do 4 (split; [done|]). split; [by rewrite Hv, Hraw|].
  assert (Hok : error = None → validate_workflow e = ok tt).
  { intros E. destruct (proj1 Herr E) as (_ & Hr & _). rewrite Hr in Hv. by destruct (validate_workflow e) as [[]| |]. }
  assert (we_completed e = is_none error ∧ we_scenario e = rp_scenario plan ∧ we_run_id e = run_id
          ∧ we_case e = rp_case plan) as (Hc & Hs & Hi & Hk) by (by rewrite Hf).
  split.
  - unfold validate_completed_attempt. rewrite Hc, Hs, Hi, Hk, !bool_decide_eq_true_2 by done.
    destruct error as [x|]; [by destruct (validate_workflow e) as [[]| |]|]. by rewrite Hok.
  - unfold workflow_result. destruct (to_string_pretty e) as [json| |]; [|done..]. cbn [mbind Result_bind].
    destruct (write_text json) as [[]| |]; [|done..]. cbn [mbind Result_bind].
    destruct error as [x|]; [by destruct (validate_workflow e) as [[]| |]|]. by rewrite Hok.
Qed.

(** ** Sample attempts *)
Definition workflow_plan : StorageRecoveryExecutionPlan :=
  mkStorageRecoveryExecutionPlan "fresh-volume-replacement" 5000000000
    StorageRecoveryCase.FreshVolumeReplacementAdminDeep.
Definition workflow_deadline : RunDeadline := mkRunDeadline (Some 9000000000%N) (Some 9%N).
Definition nanos_add (a b : N) : option N := Some (a + b)%N.
(** The heal does not end well. *)
Definition failing_heal (R : Type) (c : DriverCall R) : Waited R :=
  match c in DriverCall R return Waited R with
  | WaitForOwnedHeal => Finished (err "heal failed")
  | CancelOwnedHeal => Finished (ok Canceled)
  | _ => Finished (ok tt)
  end.
(** The volume is not replaced before the operation deadline, and the raw evidence is
    not persisted before the cleanup timeout. *)
Definition stalled_replace (R : Type) (c : DriverCall R) : Waited R :=
  match c in DriverCall R return Waited R with
  | ReplaceVolume => OperationElapsed
  | PersistRawEvidence => OperationElapsed
  | CancelOwnedHeal => Finished (ok NoOwnedHeal)
  | _ => Finished (ok tt)
  end.
Definition all_well (R : Type) (c : DriverCall R) : Waited R :=
  match c in DriverCall R return Waited R with
  | CancelOwnedHeal => Finished (ok NoOwnedHeal)
  | _ => Finished (ok tt)
  end.
Definition ticking (n : nat) : option N := Some (1700000000000 + N.of_nat n)%N.
(** The wall clock steps back an hour during the second operation. *)
Definition stepping_back (n : nat) : option N :=
  Some (if N.of_nat n <? 10 then 1700000000000 + N.of_nat n else 1699996400000 + N.of_nat n)%N.
Definition attempt_with (wall : nat → option N) (driver : ∀ R, DriverCall R → Waited R)
    : list Event * Result (WorkflowEvidence * option string) :=
  perform wall (λ n, N.of_nat n) driver 0
    (execute_storage_recovery_workflow nanos_add workflow_plan "run-1" workflow_deadline 1000000000).
Lemma attempt_runs wall driver :
  runs (execute_storage_recovery_workflow nanos_add workflow_plan "run-1" workflow_deadline 1000000000)
    (attempt_with wall driver).1 (attempt_with wall driver).2.
Proof. apply perform_runs. Qed.
Lemma workflow_deadline_formed : deadline_formed workflow_deadline.
Proof. by eexists. Qed.

Definition result_view (r : Result (WorkflowEvidence * option string))
    : option (list (string * PhaseStatus.t) * option string * bool) :=
  match r with ok (e, error) => Some (outcomes e, error, is_ok (validate_workflow e)) | _ => None end.
(** A failed heal is canceled, and the evidence of the failure is valid. *)
Example failing_heal_outcomes :
  result_view (attempt_with ticking failing_heal).2
  = Some ([("prepare-and-seal-dataset", PhaseStatus.Succeeded); ("capture-offline-mapping", PhaseStatus.Succeeded);
           ("replace-volume", PhaseStatus.Succeeded); ("verify-replacement-baseline", PhaseStatus.Succeeded);
           ("start-heal", PhaseStatus.Succeeded); ("wait-owned-heal", PhaseStatus.Failed);
           ("cancel-heal", PhaseStatus.Succeeded); ("persist-raw-evidence", PhaseStatus.Succeeded);
           ("persist-workflow-evidence", PhaseStatus.Succeeded); ("cleanup", PhaseStatus.Succeeded)],
          Some "heal failed", true).
Proof. vm_compute. reflexivity. Qed.
Example stalled_replace_outcomes :
  result_view (attempt_with ticking stalled_replace).2
  = Some ([("prepare-and-seal-dataset", PhaseStatus.Succeeded); ("capture-offline-mapping", PhaseStatus.Succeeded);
           ("replace-volume", PhaseStatus.Failed); ("persist-raw-evidence", PhaseStatus.Failed);
           ("persist-workflow-evidence", PhaseStatus.Succeeded); ("cleanup", PhaseStatus.Succeeded)],
          Some ("raw evidence persistence also failed: storage-recovery evidence persistence timed out: "
                +:+ "storage-recovery phase replace-volume exceeded operation timeout: deadline has elapsed"), false).
Proof. vm_compute. reflexivity. Qed.
(** An artifact that is rendered and written. *)
Definition rendered (e : WorkflowEvidence) : Result string := ok ("{" +:+ we_run_id e +:+ "}").
(** The wall clock steps back during an attempt that succeeds: its own validator
    refuses the evidence, and the attempt fails. *)
Lemma clock_step_back_refused :
  match (attempt_with stepping_back all_well).2 with
  | ok (e, error) => error = None ∧ is_ok (workflow_result rendered (λ _, ok tt) e error) = false
  | _ => False
  end.
Proof. vm_compute. split; reflexivity. Qed.

Lemma workflow_always_cleans_up_witness :
  deadline_formed workflow_deadline ∧ Forall returned (attempt_with ticking failing_heal).1 ∧
  ∃ now tr' e error ops rest cancel c begun snapshot,
    let od := operations_end nanos_add workflow_plan now in
    (attempt_with ticking failing_heal).1 = ReadMono now :: tr' ∧
    (attempt_with ticking failing_heal).2 = ok (e, error) ∧ operations = ops ++ rest ∧
    outcomes e = (with_status PhaseStatus.Succeeded <$> ops) ++ (with_status PhaseStatus.Failed <$> take 1 rest)
                 ++ cancel_outcome ops rest cancel ++ closing_outcomes c ∧
    driven (attempt_with ticking failing_heal).1
    = (op_await workflow_deadline (default 0%N od) <$> ops) ++ begun ++ cancel_await 1000000000 ops rest
      ++ closing_awaits 1000000000 snapshot ∧
    begun `prefix_of` (op_await workflow_deadline (default 0%N od) <$> take 1 rest) ∧
    Receipts workflow_deadline od 1000000000 (we_phases e) tr' ∧
    (∃ a b, we_phases e = we_phases snapshot ++ [a; b]) ∧
    we_completed e = is_none error ∧ forallb succeeded_phase (we_phases e) = is_none error.
Proof.
  split; [apply workflow_deadline_formed|].
  assert (Hret : Forall returned (attempt_with ticking failing_heal).1).
  { vm_compute. repeat (constructor; [exact I|]). constructor. }
  split; [exact Hret|].
  eapply workflow_always_cleans_up; [apply workflow_deadline_formed|exact Hret|apply attempt_runs].
Defined.
Lemma workflow_evidence_valid_witness :
  clock_steady (attempt_with ticking stalled_replace).1 ∧
  ∃ now tr' e error, (attempt_with ticking stalled_replace).1 = ReadMono now :: tr' ∧
    (attempt_with ticking stalled_replace).2 = ok (e, error) ∧
    (error = None ↔ is_Some (operations_end nanos_add workflow_plan now) ∧ Forall (smooth workflow_deadline) tr') ∧
    is_none error = forallb succeeded_phase (we_phases e) ∧
    is_ok (validate_workflow e) = bool_decide (("persist-raw-evidence", PhaseStatus.Succeeded) ∈ outcomes e) ∧
    is_ok (validate_completed_attempt e (rp_scenario workflow_plan) "run-1" (rp_case workflow_plan)) = is_none error ∧
    is_ok (workflow_result rendered (λ _, ok tt) e error)
    = is_ok (json ← rendered e; (λ _, ok tt) json) && is_none error.
Proof.
  assert (Hclock : clock_steady (attempt_with ticking stalled_replace).1).
  { unfold clock_steady. apply Sorted_StronglySorted; [apply _|]. vm_compute.
    repeat (constructor; try discriminate). }
  split; [exact Hclock|].
  eapply workflow_evidence_valid; [apply workflow_deadline_formed| |exact Hclock|reflexivity|reflexivity|apply attempt_runs].
  vm_compute. repeat (constructor; [exact I|]). constructor.
Defined.
