(* ===== verification/HelperSamples.v ===== *)
(** * A storage host

    A concrete environment of the storage helper: a codec for journals, a digest
    printed as 64 hexadecimal characters, an owned context, a volume with one
    shard, and an executor that answers the calls of a program, with some of them
    failing on request. *)
From S2P Require Import Prelude RustText RustWords Quorum Msgpack Xl2Inspector Xl2Samples.
From S2P Require Import StorageLease StorageOwnership StorageReceipts HostFiles StorageHelper StorageMutation.
From S2P Require Import StorageSession StorageMutationFacts.
From stdpp Require Import options.

(** ** Codecs *)
Class Codec (A : Type) := {
  enc : A → list N;
  dec_ : list N → option (A * list N);
  dec_enc : ∀ a rest, dec_ (enc a ++ rest) = Some (a, rest);
}.
Program Definition codec_via {A B} (c : Codec B) (f : A → B) (g : B → option A) (gf : ∀ a, g (f a) = Some a) : Codec A := {|
  enc a := enc (f a);
  dec_ l := '(b, rest) ← dec_ l; a ← g b; Some (a, rest) |}.
Next Obligation. intros A B c f g gf a rest. cbn. rewrite dec_enc. cbn. by rewrite gf. Qed.
Global Program Instance N_codec : Codec N := {| enc n := [n]; dec_ l := '(n, rest) ← match l with n :: rest => Some (n, rest) | [] => None end; Some (n, rest) |}.
Next Obligation. done. Qed.
Global Program Instance unit_codec : Codec unit := {| enc _ := []; dec_ l := Some (tt, l) |}.
Next Obligation. by intros [] rest. Qed.
Global Program Instance prod_codec {A B} (ca : Codec A) (cb : Codec B) : Codec (A * B) := {|
  enc p := enc (fst p) ++ enc (snd p);
  dec_ l := '(a, l) ← dec_ l; '(b, l) ← dec_ l; Some ((a, b), l) |}.
Next Obligation. intros A B ca cb [a b] rest. cbn. rewrite <-app_assoc, dec_enc. cbn. by rewrite dec_enc. Qed.
Fixpoint dec_list {A} (d : list N → option (A * list N)) (n : nat) (l : list N) : option (list A * list N) :=
  match n with
  | O => Some ([], l)
  | S n => '(a, l) ← d l; '(xs, l) ← dec_list d n l; Some (a :: xs, l)
  end.
Lemma dec_list_enc {A} (c : Codec A) (xs : list A) rest :
  dec_list dec_ (length xs) (concat (enc <$> xs) ++ rest) = Some (xs, rest).
Proof. induction xs as [|x xs IH]; cbn; [done|]. rewrite <-app_assoc, dec_enc. cbn. by rewrite IH. Qed.
Global Program Instance list_codec {A} (c : Codec A) : Codec (list A) := {|
  enc xs := len xs :: concat (enc <$> xs);
  dec_ l := match l with [] => None | n :: l => dec_list dec_ (N.to_nat n) l end |}.
Next Obligation. intros A c xs rest. cbn. unfold len. rewrite Nat2N.id. apply dec_list_enc. Qed.
Lemma bytes_of_string_of s : String.string_of_list_ascii (ascii_of_N <$> as_bytes s) = s.
Proof.
  unfold as_bytes. rewrite <-list_fmap_compose, (list_fmap_ext _ id), list_fmap_id; [|intros; apply ascii_N_embedding].
  apply String.string_of_list_ascii_of_string.
Qed.
Global Instance string_codec : Codec string :=
  codec_via _ as_bytes (λ l, Some (String.string_of_list_ascii (ascii_of_N <$> l)))
    (λ s, f_equal Some (bytes_of_string_of s)).
Global Instance option_codec {A} (c : Codec A) : Codec (option A) :=
  codec_via (list_codec c) (λ o, match o with Some a => [a] | None => [] end)
    (λ l, match l with [] => Some None | [a] => Some (Some a) | _ => None end) ltac:(by intros []).

Definition op_parts (o : StorageRecoveryHostOperation.t) : N * list string * list N :=
  match o with
  | StorageRecoveryHostOperation.InspectHostGeneration => (0%N, [], [])
  | StorageRecoveryHostOperation.InspectXlMeta a b c d e n f g => (1%N, [a; b; c; d; e; f; g], [n])
  | StorageRecoveryHostOperation.MutateShard a n m => (2%N, [a], [n; m])
  | StorageRecoveryHostOperation.MutateMetadata a => (3%N, [a], [])
  | StorageRecoveryHostOperation.PrepareFreshVolume a b => (4%N, [a; b], [])
  | StorageRecoveryHostOperation.DetachDeviceMapper a b c d => (5%N, [a; b; c; d], [])
  | StorageRecoveryHostOperation.ReattachDeviceMapper a b c d => (6%N, [a; b; c; d], [])
  | StorageRecoveryHostOperation.RestoreShard a => (7%N, [a], [])
  | StorageRecoveryHostOperation.VerifySupersededShard a b => (8%N, [a; b], [])
  end.
Definition op_of_parts (p : N * list string * list N) : option StorageRecoveryHostOperation.t :=
  match p with
  | (0%N, [], []) => Some StorageRecoveryHostOperation.InspectHostGeneration
  | (1%N, [a; b; c; d; e; f; g], [n]) => Some (StorageRecoveryHostOperation.InspectXlMeta a b c d e n f g)
  | (2%N, [a], [n; m]) => Some (StorageRecoveryHostOperation.MutateShard a n m)
  | (3%N, [a], []) => Some (StorageRecoveryHostOperation.MutateMetadata a)
  | (4%N, [a; b], []) => Some (StorageRecoveryHostOperation.PrepareFreshVolume a b)
  | (5%N, [a; b; c; d], []) => Some (StorageRecoveryHostOperation.DetachDeviceMapper a b c d)
  | (6%N, [a; b; c; d], []) => Some (StorageRecoveryHostOperation.ReattachDeviceMapper a b c d)
  | (7%N, [a], []) => Some (StorageRecoveryHostOperation.RestoreShard a)
  | (8%N, [a; b], []) => Some (StorageRecoveryHostOperation.VerifySupersededShard a b)
  | _ => None
  end.
Global Instance op_codec : Codec StorageRecoveryHostOperation.t :=
  codec_via _ op_parts op_of_parts ltac:(by intros []).
Definition states : list JournalState.t :=
  [JournalState.Completed; JournalState.Prepared; JournalState.Mutated; JournalState.Restored;
   JournalState.VerifiedSuperseded; JournalState.Quarantined].
Definition state_index (s : JournalState.t) : N := default 0%N (N.of_nat ∘ fst <$> list_find (λ x, x = s) states).
Global Instance state_codec : Codec JournalState.t :=
  codec_via _ state_index (λ n, states !! N.to_nat n) ltac:(by intros []).
Definition journal_parts (j : MutationJournal) :=
  ((mj_schema_version j, [mj_operation_id j; mj_context_sha256 j; mj_scope_sha256 j; mj_lease_uid j; mj_holder_identity j],
    mj_lease_acquired_at_ms j, mj_operation j, mj_state j),
   ([mj_relative_part_path j; mj_shard_device_id j; mj_original_sha256 j; mj_mutated_sha256 j; mj_reason j;
     mj_terminal_post_inspection_operation_id j; mj_response_body j; mj_response_sha256 j],
    [mj_shard_inode j; mj_shard_size_bytes j; mj_byte_offset j; mj_original_byte j; mj_mutated_byte j],
    mj_started_at_ms j, mj_updated_at_ms j)).
Definition journal_of_parts (p : N * list string * N * StorageRecoveryHostOperation.t * JournalState.t
                                 * (list (option string) * list (option N) * N * N)) : option MutationJournal :=
  match p with
  | ((v, [id; digest; scope; uid; holder], acquired, o, s),
     ([path; device; osha; msha; reason; post; body; bsha], [ino; size; off; ob; mb], t0, t1)) =>
      Some (mkMutationJournal v id digest scope uid acquired holder o s path device ino size off ob mb osha msha
              reason post body bsha t0 t1)
  | _ => None
  end.
Global Instance journal_codec : Codec MutationJournal :=
  codec_via _ journal_parts journal_of_parts ltac:(by intros []).

(** ** Digests *)
Definition digest_N (l : list N) : N := foldl (λ acc b, N.land (acc * 31 + b + 1) 0xffffffff)%N 7%N l.
Fixpoint hex_onto (w : nat) (n : N) (s : string) : string :=
  match w with O => s | S w => hex_onto w (N.shiftr n 4) (String (hex_digit (N.land n 15)) s) end.
Definition hex_of (w : nat) (n : N) : string := hex_onto w n EmptyString.
Definition volume_strings (v : StorageVolumeIdentity) : list string :=
  [sv_target_proof_sha256 v; sv_host_storage_proof_sha256 v; sv_rustfs_deployment_id v; sv_namespace v; sv_tenant v;
   sv_pod v; sv_pod_uid v; sv_rustfs_container_id v; sv_volume_name v; sv_persistent_volume_claim v;
   sv_persistent_volume_claim_uid v; sv_persistent_volume v; sv_persistent_volume_uid v; sv_node v; sv_node_uid v;
   sv_storage_class v; sv_local_volume_path v; sv_mount_path v; sv_canonical_device v;
   sv_target_mount_namespace_id v; sv_filesystem_uuid v; sv_rustfs_drive_uuid v].
Definition generation_strings (g : HostGenerationIdentity) : list string :=
  [hg_mount_id g; hg_mount_namespace_id g; hg_device_major_minor g; default "" (hg_device_mapper_uuid g);
   default "" (hg_device_mapper_table_sha256 g); hg_filesystem_uuid g; hg_rustfs_drive_uuid g].
Definition ownership_parts (d : MutationOwnershipDigest) : list string * list string * list string * list N :=
  (volume_strings (mo_volume d), generation_strings (mo_host_generation d),
   [mo_attempt_id d; mo_scope_sha256 d; mo_lease_namespace d; mo_lease_name d; mo_lease_uid d; mo_lease_holder_identity d],
   [mo_schema_version d; sv_pool_index (mo_volume d); sv_set_index (mo_volume d); sv_observed_at_ms (mo_volume d);
    mo_lease_acquired_at_ms d]).
Global Instance storage_env : StorageEnv := {|
  sha256_bytes l := hex_of 64 (digest_N l);
  uuid_error s := if bool_decide (s = "") then Some "empty" else None;
  ownership_to_vec d := Some (enc (ownership_parts d));
  generation_to_vec g := Some (enc (generation_strings g));
  transition_from_str _ := None;
  value_outcome s := Some (Some s) |}.

(** ** An owned context *)
Definition sample_digest : string := hex_of 64 1%N.
Definition sample_volume (observed : N) : StorageVolumeIdentity :=
  mkStorageVolumeIdentity sample_digest sample_digest "deployment" "storage" "tenant" "rustfs-0" "pod-uid" "container"
    "data-0" "data-0-rustfs-0" "pvc-uid" "pv-0" "pv-uid" "node-a" "node-uid" "local" "/mnt/disk0" "/data/rustfs0"
    "/dev/sdb" "4026531840" "fs-uuid" "drive-uuid" 0%N 0%N observed.
Definition sample_generation : HostGenerationIdentity :=
  mkHostGenerationIdentity "36" "4026531840" "8:16" None None "fs-uuid" "drive-uuid".
Definition sample_scope : string :=
  sha256_bytes (concat ((λ value, as_bytes value ++ [0%N]) <$>
    ["kind-kind"; "storage"; "tenant-uid"; "pv-uid"; "node-uid"; "/dev/sdb"; "fs-uuid"])).
Definition sample_lease (renewed : N) : KubernetesLeaseProof :=
  mkKubernetesLeaseProof ("s3chaos-storage-" +:+ String.substring 0 20 sample_scope) "lease-uid" "41" "run/attempt"
    sample_scope 1000%N renewed (renewed + 60000)%N.
Definition sample_context (observed : N) : OwnedStorageContext :=
  mkOwnedStorageContext (mkStorageRecoveryArtifactIdentity "run" "on-disk-bitrot" "case" "bucket")
    StorageRecoveryCase.OnDiskBitrotAdminDeep "attempt" "kind-kind" "tenant-uid" sample_scope (sample_volume observed)
    (mkKubernetesResourceVersions "1" "2" "3" "4" "5" "6") sample_generation
    (mkStorageRecoveryExclusiveAccess (sample_lease observed)
       (mkHostFlockProof "node-a" "node-uid" ("/var/lock/s3chaos/storage-" +:+ sample_scope +:+ ".lock") "8:1" 55%N
          sample_scope 1500%N))
    "helper-0" "helper-uid" observed.
Lemma sample_context_valid : validate_context (sample_context 2000%N) = ok tt.
Proof. vm_compute. reflexivity. Qed.

(** ** The volume and the helper *)
Definition shard_path : string := "bucket/key/fedcba98-7654-3210-fedc-ba9876543210/part.1".
Definition shard_bytes : list N := [10; 20; 30; 40]%N.
Definition sample_inspection : OfflineXl2InspectResponse :=
  mkOfflineXl2InspectResponse "8:16" "drive-uuid" sample_digest sample_digest
    (mkXl2ObjectVersionLayout OFFLINE_XL2_INSPECTOR_REVISION LATEST_RUSTFS w_version_id
       "fedcba98-7654-3210-fedc-ba9876543210" 4 4 2 [1]%N [4]%N [shard_path])
    (mkOfflineInspectedShard 1 shard_path "8:16" 7 4 (sha256_bytes shard_bytes)) None.
Definition outcome_string (o : RestoreOutcome.t) : string :=
  match o with
  | RestoreOutcome.Restored => "restored"
  | RestoreOutcome.AlreadyRepaired => "already-repaired"
  | RestoreOutcome.VerifiedSuperseded => "verified-superseded"
  | RestoreOutcome.Quarantined => "quarantined"
  end.
Definition sample_from_slice (l : list N) : option MutationJournal :=
  match dec_ l with Some (j, []) => Some j | _ => None end.
Global Instance helper_env : HelperEnv := {|
  journal_to_vec j := Some (enc j);
  journal_from_slice := sample_from_slice;
  inspection_from_str s := if bool_decide (s = "inspection") then Some sample_inspection else None;
  inspection_to_string _ := Some "inspection";
  mutation_to_string r := Some ("mutated " +:+ sm_relative_part_path r);
  metadata_mutation_to_string r := Some ("mutated " +:+ mm_relative_metadata_path r);
  recovery_to_string r := Some (outcome_string (rr_outcome r));
  generation_to_string g := Some (hg_mount_id g);
  transition_to_string r := Some (tr_mapping_name r);
  prepared_to_string a b := Some (a +:+ b);
  serde_error := "serde";
  sha256_digest l := (λ k, (digest_N (N.of_nat k :: l)) mod 256)%N <$> seq 0 32;
  process_id := "1";
  host_probe c require_format :=
    HRet (ok (mkHostProbe "36" "4026531840" "8:16" "/dev/sdb" "fs-uuid" (Some "drive-uuid"))) |}.
Lemma sample_journal_roundtrip j bytes : journal_to_vec j = Some bytes → journal_from_slice bytes = Some j.
Proof.
  intros [= <-]. pose proof (dec_enc j []) as H. rewrite app_nil_r in H. change (sample_from_slice (enc j) = Some j).
  unfold sample_from_slice. by rewrite H.
Qed.

Definition inspection_id : string := "11111111-1111-4111-8111-111111111111".
Definition mutation_id : string := "22222222-2222-4222-8222-222222222222".
Definition mutation_name : string := "mutation-" +:+ mutation_id +:+ ".json".
Definition sample_c : OwnedStorageContext := sample_context 2000%N.
Definition sample_digest_of_c : string := match context_sha256 sample_c with ok d => d | _ => "" end.
Definition inspection_operation : StorageRecoveryHostOperation.t :=
  StorageRecoveryHostOperation.InspectXlMeta "bucket/key" "bucket" "key" sample_digest w_version_id 1 "8:16" "drive-uuid".
Definition mutation_operation : StorageRecoveryHostOperation.t :=
  StorageRecoveryHostOperation.MutateShard inspection_id 1 2.
Definition inspection_journal : MutationJournal :=
  context_journal sample_c sample_digest_of_c inspection_id inspection_operation JournalState.Completed 1900%N 1900%N
    <| mj_response_body := Some "inspection" |>
    <| mj_response_sha256 := Some (digest_str "inspection") |>.
Definition sample_journals : gmap string JournalFile :=
  {[ "mutation-" +:+ inspection_id +:+ ".json" := mkJournalFile (enc inspection_journal) true ]}.
Definition sample_host : Host :=
  mkHost {[ shard_path := 7%N ]} {[ 7%N := mkInode "8:16" true 1 shard_bytes shard_bytes ]}
    sample_journals sample_journals.

(** ** Runs *)
Definition answer (h : Host) {R} (c : call R) : option (R * Host) :=
  match c in call R return option (R * Host) with
  | CNow => Some (2500%N, h)
  | CNewUuid =>
      let id := "33333333-3333-4333-8333-333333333333" in
      match h_journal h !! ("mutation-" +:+ id +:+ ".json") with Some _ => None | None => Some (id, h) end
  | COpen path => fd ← h_paths h !! path; Some (fd, h)
  | CStat fd => i ← h_inodes h !! fd; Some (meta_of fd i, h)
  | CRead fd => i ← h_inodes h !! fd; Some (in_bytes i, h)
  | CReadAt fd offset => i ← h_inodes h !! fd; Some (in_bytes i !! N.to_nat offset, h)
  | CWriteAt fd offset byte => Some (true, write_byte h fd offset byte)
  | CSync fd => Some (tt, sync_inode h fd)
  | CVolumeRoot => Some ("8:16", h)
  | CLock _ => Some (("8:1", 55%N), h)
  | CJournalOpen name => _ ← h_journal h !! name; Some (tt, h)
  | CJournalRead name => f ← h_journal h !! name; Some (jf_bytes f, h)
  | CJournalCreate name =>
      match h_journal h !! name with
      | Some _ => None
      | None => Some (tt, h <| h_journal ::= <[name := mkJournalFile [] false]> |>)
      end
  | CJournalWrite name bytes => Some (tt, h <| h_journal ::= <[name := mkJournalFile bytes false]> |>)
  | CJournalSync name => Some (tt, h <| h_journal ::= alter (λ f, mkJournalFile (jf_bytes f) true) name |>)
  | CJournalUnlink name => Some (tt, h <| h_journal ::= delete name |>)
  | CJournalRename old new =>
      f ← h_journal h !! old; Some (tt, h <| h_journal ::= λ m, <[new := f]> (delete old m) |>)
  | CJournalSyncDir => Some (tt, h <| h_journal_durable := h_journal h |>)
  | CJournalList => Some ((map_to_list (h_journal h)).*1, h)
  | CDmsetup _ => Some ((0%Z, "", ""), h)
  end.
Lemma answer_sound h R (c : call R) a h' : answer h c = Some (a, h') → answers h c a h'.
Proof.
  destruct c; cbn -[helper_names]; intros Ha; try (simplify_option_eq; by econstructor).
  - destruct (h_journal h !! _) eqn:Hn; [done|]. simplify_eq. constructor. intros name [= <-]. exact Hn.
  - destruct (h_journal h !! name) eqn:Hn; [done|]. simplify_eq. by constructor.
  - simplify_eq. constructor. intros name. split.
    + intros ([n f] & -> & Hin%elem_of_map_to_list)%list_elem_of_fmap. by exists f.
    + intros [f Hf]. apply list_elem_of_fmap. exists (name, f). split; [done|]. by apply elem_of_map_to_list.
Qed.
(** The calls that fail are those at the given positions. *)
Fixpoint exec {A} (fails : list bool) (h : Host) (p : HostProg A) : Host * Result A :=
  match p with
  | HRet r => (h, r)
  | HCall c k =>
      match fails, answer h c with
      | true :: fails, _ => exec fails h (k (err "failed"))
      | fails, Some (a, h') => exec (tail fails) h' (k (ok a))
      | fails, None => exec (tail fails) h (k (err "failed"))
      end
  end.
Lemma exec_sound {A} (p : HostProg A) fails h : host_run h p (fst (exec fails h p)) (HRet (snd (exec fails h p))).
Proof.
  revert fails h. induction p as [r|R c k IH]; intros fails h; cbn -[answer]; [constructor|].
  destruct fails as [|[] fails], (answer h c) as [[a h']|] eqn:Ha;
    (eapply hr_step; [constructor|apply IH]); solve [by constructor; apply answer_sound|by apply step_failed].
Qed.
Lemma exec_run {A} fails h (p : HostProg A) h' r : exec fails h p = (h', r) → host_run h p h' (HRet r).
Proof. intros H. pose proof (exec_sound p fails h) as Hr. by rewrite H in Hr. Qed.
