(* ===== verification/HelperSystemSamples.v ===== *)
(** Sessions that run: a scheduler of the system of controller and helper, a
    mutation whose call is dropped before its response arrives and looked up
    afterwards, and a session that ends before any mutation. *)
From S2P Require Import Prelude RustText RustWords Quorum Msgpack Xl2Inspector Xl2Samples.
From S2P Require Import StorageLease LeaseServerSample StorageOwnership StorageReceipts HostFiles StorageHelper StorageMutation.
From S2P Require Import StorageSession StorageMutationFacts StorageHelperTheorems HelperSamples.
From S2P Require Import HelperProtocol HelperSystem HelperSystemFacts HelperSystemTheorems.
From stdpp Require Import options.
Import StorageHelperSessionRequest StorageHelperSessionResponse.

Section Scheduler.
Context `{Htime : LeaseTime}.
Local Abbreviation SProg := (@GuardProg unit unit Htime).
Local Abbreviation SCall := (@GuardCall unit unit Htime).
Local Abbreviation SWorld := (@World unit unit).
Local Abbreviation SConfig := (@Config unit unit Htime).
Local Abbreviation SOp := (@Op unit).
Definition no_stale (s : StorageHelperSession) (c : OwnedStorageContext) (r : unit)
    : HostProg (StorageHelperSession * Result unit) := HRet (ok (s, ok tt)).

(** A call that succeeds, if it can. *)
Definition complete_call {R} (c : SCall R) (w : SWorld) : option (R * SWorld) :=
  match c in GuardCall R return option (R * SWorld) with
  | RunLease _ => Some (ok tt, w)
  | BuildClient _ => Some (ok tt, w)
  | Spawn => Some (ok tt, w)
  | WriteLine r => Some (Done tt, write_whole w r)
  | Flush => Some (Done tt, w)
  | ReadLine =>
      match w_unread w, w_half_read w with
      | x :: rest, false => Some (Done (Line x), read_one w rest)
      | _, _ => None
      end
  | ChildWait => match w_helper w with Exited b => Some (Done b, w) | _ => None end
  end.
Lemma complete_call_sound {R} (c : SCall R) w r w' : complete_call c w = Some (r, w') → completes c w r w'.
Proof using Type.
  destruct c; cbn; intros Heq; try (injection Heq as <- <-; constructor).
  - destruct (w_unread w) as [|x rest] eqn:Hu; [done|]. destruct (w_half_read w) eqn:Hh; [done|].
    injection Heq as <- <-. by constructor.
  - destruct (w_helper w) eqn:Hw; [done..|]. injection Heq as <- <-. by constructor.
Qed.

Inductive Event := EvCall (op : SOp) | EvRun | EvDrop | EvServe.
Definition run_task (cf : SConfig) : option SConfig :=
  match cf_task cf with
  | Running op (GGet k) => Some (mkConfig (cf_guard cf) (cf_world cf) (Running op (k (cf_guard cf))) (cf_queried cf))
  | Running op (GSet g k) => Some (mkConfig g (cf_world cf) (Running op k) (cf_queried cf))
  | Running op (GAwait R c k) =>
      '(r, w) ← complete_call c (cf_world cf); Some (mkConfig (cf_guard cf) w (Running op (k r)) (cf_queried cf))
  | Running op (GRet _) => Some (mkConfig (cf_guard cf) (cf_world cf) Idle (cf_queried cf))
  | Idle => None
  end.
Definition serve_next (w : SWorld) : option SWorld :=
  match w_pipe w, w_helper w with
  | Whole r :: pipe, Starting =>
      match exec [] (w_host w) (serve_begin (StaleResponse := unit) r) with
      | (h, ok (Some response, next)) =>
          Some (mkWorld pipe (w_torn w) (match next with Some s => Serving s | None => Exited false end) h
                  (w_log w) (w_unread w ++ [response]) (w_half_read w))
      | _ => None
      end
  | Whole r :: pipe, Serving s =>
      match exec [] (w_host w) (serve_request no_stale s r) with
      | (h, ok (response, next)) =>
          Some (mkWorld pipe (w_torn w) (goes_on next) h
                  (w_log w ++ [mkEntry r response s next (w_host w) h]) (w_unread w ++ [response]) (w_half_read w))
      | _ => None
      end
  | _, _ => None
  end.
Definition may_call (q : gset string) (op : SOp) : bool :=
  match op with OpMutation _ id _ => bool_decide (id ∉ q) | _ => true end.
Definition system_run_step (cf : SConfig) (ev : Event) : option SConfig :=
  match ev, cf_task cf with
  | EvCall op, Idle =>
      if may_call (cf_queried cf) op
      then Some (mkConfig (cf_guard cf) (cf_world cf) (Running op (op_program op)) (cf_queried cf ∪ queries op)) else None
  | EvRun, _ => run_task cf
  | EvDrop, Running op (GAwait R c k) => Some (mkConfig (cf_guard cf) (cf_world cf) Idle (cf_queried cf))
  | EvServe, t => w ← serve_next (cf_world cf); Some (mkConfig (cf_guard cf) w t (cf_queried cf))
  | _, _ => None
  end.
Lemma serve_next_sound w w' : serve_next w = Some w' → helper_step no_stale w w'.
Proof using Type.
  unfold serve_next. destruct (w_pipe w) as [|[r|] pipe] eqn:Hp; [done| |done].
  destruct (w_helper w) as [|s|b] eqn:Hh; [..|done].
  - destruct (exec [] (w_host w) (serve_begin r)) as [h [[[response|] next]|e|]] eqn:He; try done.
    intros [= <-]. apply exec_run in He. by eapply he_begin.
  - destruct (exec [] (w_host w) (serve_request no_stale s r)) as [h [[response next]|e|]] eqn:He; try done.
    intros [= <-]. apply exec_run in He. by eapply he_serve.
Qed.
Lemma system_run_step_sound cf ev cf' : system_run_step cf ev = Some cf' → system_step no_stale cf cf'.
Proof using Type.
  destruct cf as [g w t q], ev as [op| | |], t as [|op' p]; unfold system_run_step, run_task; cbn; try done.
  - destruct (may_call q op) eqn:Hm; [|done]. intros [= <-]. constructor.
    destruct op; try done. by apply bool_decide_eq_true in Hm.
  - destruct p as [r|k|g' k|R c k]; cbn; try (intros [= <-]; constructor).
    destruct (complete_call c w) as [[r w']|] eqn:Hc; [|done]. intros [= <-]. constructor. by apply complete_call_sound.
  - destruct p as [r|k|g' k|R c k]; try done. intros [= <-]. econstructor. constructor.
  - destruct (serve_next w) as [w'|] eqn:Hs; [|done]. intros [= <-]. constructor. by apply serve_next_sound.
  - destruct (serve_next w) as [w'|] eqn:Hs; [|done]. intros [= <-]. constructor. by apply serve_next_sound.
Qed.
Definition system_run (h : Host) (evs : list Event) : option SConfig :=
  foldl (λ cf ev, cf ← cf; system_run_step cf ev) (Some (initial_config h)) evs.
Lemma system_run_sound h evs cf : system_run h evs = Some cf → reachable no_stale h cf.
Proof using Type.
  unfold system_run. revert cf. induction evs as [|ev evs IH] using rev_ind; intros cf; cbn.
  - intros [= <-]. apply rtc_refl.
  - rewrite foldl_app. cbn. destruct (foldl _ _ evs) as [cf1|] eqn:Hf; [|done]. cbn. intros Hs.
    eapply rtc_r; [by apply IH|by eapply system_run_step_sound].
Qed.
End Scheduler.

(** ** A dropped mutation *)
Definition sample_adapter : HostAdapter := mkHostAdapter "kind-kind" "storage" "helper-0" 1.
Definition begin_events : list (@Event) :=
  [EvCall (OpBegin sample_adapter sample_c)] ++ replicate 7 EvRun ++ [EvServe] ++ replicate 2 EvRun.
Definition lease_view (evs : list (@Event)) :=
  cf ← system_run (Htime := sample_time) sample_host evs;
  match cf with
  | mkConfig g w (Running op (GAwait _ (RunLease _) _)) q => Some (g, w, op, q)
  | _ => None
  end.
Lemma lease_view_reachable evs g w op q : lease_view evs = Some (g, w, op, q) →
  ∃ p k, reachable (Htime := sample_time) no_stale sample_host
    (mkConfig g w (Running op (GAwait _ (RunLease p) k)) q).
Proof.
  unfold lease_view. destruct (system_run sample_host evs) as [cf|] eqn:Hrun; [|done]. cbn.
  apply system_run_sound in Hrun. destruct cf as [g' w' [|op' [r|k|g'' k|R c k]] q']; try done.
  destruct c; try done. intros [= <- <- <- <-]. eauto.
Qed.


(** ** A session that ends *)
Definition sample_abort : StorageRecoveryCleanupProof.t := StorageRecoveryCleanupProof.AbortedBeforeMutation 2500%N.
Definition finish_events : list (@Event) :=
  begin_events ++ [EvCall (OpFinish sample_c sample_abort)] ++ replicate 5 EvRun ++ [EvServe] ++ replicate 4 EvRun.
Definition about_to_release (v : option (AttemptGuard * @World unit unit * @Op unit * gset string)) : bool :=
  match v with
  | Some (mkAttemptGuard true false None, w, OpFinish _ _, _) => match w_helper w with Exited true => true | _ => false end
  | _ => false
  end.
Lemma finish_run : about_to_release (lease_view finish_events) = true.
Proof. vm_compute. reflexivity. Qed.
Lemma lease_released_after_cleanup_witness :
  ∃ (w : @World unit unit) p (op : @Op unit), w_helper w = Exited true ∧
    ((∃ c, p = require_current_lease (Htime := sample_time) c) ∨
     ∃ c cleanup, op = OpFinish c cleanup ∧
       p = release_owned_lease c cleanup ∧ w_helper w = Exited true ∧
       ∃ pre e c' cleanup', w_log w = pre ++ [e] ∧ en_request e = Finish c' cleanup' ∧
         oc_scope_sha256 c' = oc_scope_sha256 c ∧ cleanup_accepted (en_session e) c' cleanup').
Proof.
  pose proof finish_run as Hcheck. destruct (lease_view finish_events) as [[[[g w] op] q]|] eqn:Hv; [|done].
  destruct (lease_view_reachable _ _ _ _ _ Hv) as (p & k & Hreach). exists w, p, op. split.
  - clear Hv Hreach. destruct g as [[] [] []], op; try discriminate Hcheck. cbn in Hcheck.
    by destruct (w_helper w) as [| |[]].
  - exact (lease_released_after_cleanup _ _ _ _ _ _ _ _ Hreach).
Defined.
