(* ===== verification/HelperWitnesses.v ===== *)
(** * The storage helper on a concrete host

    The theorems of the helper applied to one shard that is mutated, restored with
    a failing sync and restored again, and two runs in which the helper does not
    keep what its error messages promise. *)
From S2P Require Import Prelude RustText RustWords Quorum Msgpack Xl2Inspector Xl2Samples.
From S2P Require Import StorageLease StorageOwnership StorageReceipts HostFiles StorageHelper StorageMutation.
From S2P Require Import StorageSession StorageMutationFacts StorageHelperTheorems StorageReceiptTheorems HelperSamples.
From stdpp Require Import options.

Definition mutate_sample : HostProg StorageRecoveryOperationReceipt := mutate sample_c mutation_operation mutation_id 2400%N.
Definition restore_sample : HostProg StorageRecoveryOperationReceipt :=
  restore sample_c (StorageRecoveryHostOperation.RestoreShard mutation_id) mutation_id 2400%N.
Definition mutated_host : Host := fst (exec [] sample_host mutate_sample).
(** The restore whose sync of the shard fails, and the restore after it. *)
Definition fsync_fails : list bool := repeat false 7 ++ [true].
Definition unsynced_host : Host := fst (exec fsync_fails mutated_host restore_sample).
Definition sealed_host : Host := fst (exec [] unsynced_host restore_sample).
Definition restored_host : Host := fst (exec [] mutated_host restore_sample).

Lemma exec_success {A} fails h (p : HostProg A) : is_ok (snd (exec fails h p)) = true →
  ∃ a, snd (exec fails h p) = ok a ∧ host_run h p (fst (exec fails h p)) (HRet (ok a)).
Proof.
  intros Hok. pose proof (exec_sound p fails h) as Hr. destruct (snd (exec fails h p)) as [a| |]; [|done..].
  by exists a.
Qed.
Lemma sample_name : journal_name mutation_id = ok mutation_name.
Proof. vm_compute. reflexivity. Qed.
Lemma sample_clean : clean_host sample_host mutation_name.
Proof.
  split; [|vm_compute; done]. 
  apply (bool_decide_unpack (map_Forall (λ _ i, in_durable i = in_bytes i) (h_inodes sample_host))). vm_compute. exact I.
Qed.
Lemma sample_terminal final :
  journal_name (stable_operation_id ("s3chaos-bitrot-cleanup:restore:" +:+ mutation_id)) = ok final → final ≠ mutation_name.
Proof. intros [= <-]. vm_compute. discriminate. Qed.
Lemma mutated_written_back : written_back mutated_host.
Proof.
  apply (bool_decide_unpack (map_Forall (λ _ i, in_durable i = in_bytes i) (h_inodes mutated_host))). vm_compute. exact I.
Qed.

(** ** The theorems on this host *)
Lemma mutation_stays_journaled_witness :
  h_paths unsynced_host = h_paths sample_host ∧
  (h_inodes unsynced_host = h_inodes sample_host ∨
   ∃ m b d, flip_of_host sample_host m ∧
     h_inodes unsynced_host = <[fl_ino m := shard_with m b d]> (h_inodes sample_host) ∧
     either m b ∧ either m d ∧ both_in mutation_id mutation_name m unresolved unsynced_host).
Proof.
  apply (mutation_stays_journaled sample_host mutation_id mutation_name sample_name sample_journal_roundtrip sample_terminal
           sample_c mutation_operation 2400%N mutated_host (HRet (snd (exec [] sample_host mutate_sample)))).
  - apply sample_clean.
  - apply exec_sound.
  - apply rtc_once. right. split; [apply mutated_written_back|].
    exists sample_c, 2400%N, (HRet (snd (exec fsync_fails mutated_host restore_sample))). apply exec_sound.
Defined.
Lemma completed_restore_is_original_witness :
  ∃ r outcome observed,
    recovery_to_string (mkOfflineShardRecoveryResponse mutation_id outcome observed) = Some (or_response_body r) ∧
    (outcome ≠ RestoreOutcome.Quarantined →
     h_paths restored_host = h_paths sample_host ∧ h_inodes restored_host = h_inodes sample_host) ∧
    ∃ m, flip_of_host sample_host m ∧
      both_in mutation_id mutation_name m
        [if decide (outcome = RestoreOutcome.Quarantined) then JournalState.Quarantined else JournalState.Restored]
        restored_host.
Proof.
  destruct (exec_success [] mutated_host restore_sample) as (r & _ & Hrun); [vm_compute; reflexivity|]. exists r.
  apply (completed_restore_is_original sample_host mutation_id mutation_name sample_name sample_journal_roundtrip
           sample_terminal sample_c mutation_operation 2400%N mutated_host
           (HRet (snd (exec [] sample_host mutate_sample))) mutated_host sample_c 2400%N).
  - apply sample_clean.
  - apply exec_sound.
  - apply rtc_refl.
  - apply mutated_written_back.
  - apply Hrun.
Defined.
Lemma mutation_receipt_exact_witness :
  ∃ m, flip_of_host sample_host m ∧ volume_of sample_host m (mutated_bytes m) (mutated_bytes m) mutated_host ∧
    both_in mutation_id mutation_name m [JournalState.Mutated] mutated_host.
Proof.
  destruct (exec_success [] sample_host mutate_sample) as (r & _ & Hrun); [vm_compute; reflexivity|].
  apply (mutation_receipt_exact sample_host mutation_id mutation_name sample_name sample_journal_roundtrip
           sample_c mutation_operation 2400%N _ r sample_clean Hrun).
Defined.
Definition sample_session : StorageHelperSession := mkStorageHelperSession sample_c true.
Lemma mutation_lookup_exact_witness :
  ∃ l j, loaded mutated_host mutation_id j ∧ lookup_of j l ∧ ml_operation_id l = mutation_id.
Proof.
  destruct (exec_success [] mutated_host (query_mutation sample_session sample_c mutation_id)) as (l & _ & Hrun);
    [vm_compute; reflexivity|]. exists l.
  destruct (mutation_lookup_exact sample_session sample_c mutation_id mutated_host _ l Hrun) as (_ & Hid & _ & j & Hj & Hl).
  by exists j.
Defined.
Lemma session_refuses_foreign_mutation_witness :
  ∃ digest, context_sha256 sample_c = ok digest ∧ ∀ id j, loaded mutated_host id j → resolved_for sample_c digest j.
Proof.
  destruct (exec_success [] mutated_host (session_begin sample_c)) as (s & _ & Hrun); [vm_compute; reflexivity|].
  destruct (session_refuses_foreign_mutation (Hxl2 := xl2_env) (λ u, eq_refl (Some u)) sample_c mutated_host _ s Hrun) as (_ & _ & H).
  exact H.
Defined.
Definition renewed_c : OwnedStorageContext := sample_context 3000%N.
Lemma sample_encodes (d : MutationOwnershipDigest) : is_Some (ownership_to_vec d).
Proof. by eexists. Qed.
Lemma receipt_survives_renewal_witness :
  same_session sample_c renewed_c = true ∧ context_sha256 sample_c = context_sha256 renewed_c.
Proof.
  assert (same_session sample_c renewed_c = true) as H by (vm_compute; reflexivity). split; [exact H|].
  apply (receipt_survives_renewal sample_encodes sample_c renewed_c H).
Defined.
Definition sample_receipt : StorageRecoveryOperationReceipt :=
  mkStorageRecoveryOperationReceipt mutation_id mutation_operation sample_digest_of_c (digest_str "body") "body" 2400%N
    2500%N 2500%N true.
Lemma receipt_binds_ownership_witness :
  validate_receipt sample_receipt sample_c mutation_operation = ok tt ∧
  validate_receipt sample_receipt renewed_c mutation_operation = ok tt ∧
  oc_attempt_id sample_c = oc_attempt_id renewed_c.
Proof.
  assert (validate_receipt sample_receipt sample_c mutation_operation = ok tt) as H by (vm_compute; reflexivity).
  assert (validate_receipt sample_receipt renewed_c mutation_operation = ok tt) as H' by (vm_compute; reflexivity).
  split; [exact H|]. split; [exact H'|].
  refine (proj1 (receipt_binds_ownership sample_receipt sample_c renewed_c mutation_operation mutation_operation _ H H')).
  intros d d' bytes bytes' Hd Hd' [= <-] [= <-] Heq. unfold ownerships in Hd, Hd'.
  rewrite !elem_of_cons, elem_of_nil in Hd, Hd'.
  destruct Hd as [->|[->|[]]], Hd' as [->|[->|[]]]; try (vm_compute; reflexivity); exfalso; vm_compute in Heq; discriminate.
Defined.

(** ** A repair that was not synced

    The restore whose [fsync] failed leaves the original byte in the cache only.
    The next restore finds the original digest, syncs nothing and seals the journal
    as restored; after a crash the shard is mutated under a resolved journal. *)
Definition crashed_host : Host :=
  mkHost (h_paths sealed_host) (h_inodes mutated_host) (h_journal sealed_host) (h_journal sealed_host).
Definition settlesb (i i' : Inode) : bool :=
  bool_decide (in_device i' = in_device i) && eqb (in_regular i') (in_regular i) && (in_nlink i' =? in_nlink i)%N
  && bool_decide (in_durable i' = in_bytes i') && bool_decide (in_bytes i' = in_durable i)
  && bool_decide (length (in_bytes i) = length (in_durable i)).
Lemma settlesb_sound i i' : settlesb i i' = true → settles i i'.
Proof.
  unfold settlesb. rewrite !andb_true_iff, !bool_decide_eq_true, eqb_true_iff, N.eqb_eq.
  intros [[[[[? ?] ?] ?] Hb] Hlen]. split_and!; [done..|by rewrite Hb|]. intros k. right. by rewrite Hb.
Qed.
Definition crashb (h : Host) (inodes : gmap N Inode) : bool :=
  bool_decide (dom (h_inodes h) = dom inodes)
  && bool_decide (map_Forall (λ fd i, match inodes !! fd with Some i' => settlesb i i' | None => false end = true) (h_inodes h))
  && bool_decide (map_Forall (λ _ f, jf_synced f = true) (h_journal h)).
Lemma crashb_sound h inodes : crashb h inodes = true →
  crashed h (mkHost (h_paths h) inodes (h_journal h) (h_journal h)).
Proof.
  unfold crashb. rewrite !andb_true_iff, !bool_decide_eq_true. intros [[Hdom Hset] Hsync].
  split; [done|]. split; [done|]. split; cbn.
  - intros fd. destruct (h_inodes h !! fd) as [i|] eqn:Hi.
    + apply Hset in Hi. destruct (inodes !! fd) as [i'|]; [|done]. constructor. by apply settlesb_sound.
    + apply not_elem_of_dom in Hi. rewrite Hdom in Hi. apply not_elem_of_dom in Hi. rewrite Hi. constructor.
  - intros name. left. destruct (h_journal h !! name) as [f|] eqn:Hf; [|done]. exists f. apply Hsync in Hf. done.
Qed.
Lemma sealed_crashed : crashed sealed_host crashed_host.
Proof. apply (crashb_sound sealed_host (h_inodes mutated_host)). vm_compute. reflexivity. Qed.
Definition loadedb (h : Host) (id : string) : option JournalState.t :=
  f ← h_journal h !! ("mutation-" +:+ id +:+ ".json"); mj_state <$> journal_from_slice (jf_bytes f).
Lemma loadedb_sound h id s : loadedb h id = Some s → ∃ j, loaded h id j ∧ mj_state j = s.
Proof.
  intros (f & Hf & (j & Hj & ->)%fmap_Some)%bind_Some. exists j. split; [|done]. by exists ("mutation-" +:+ id +:+ ".json"), f.
Qed.

(** A mutated shard is left under a journal that says it was restored. *)
Theorem unsynced_repair_lost :
  ∃ r j, host_run mutated_host restore_sample unsynced_host (HRet (err "fsync restored shard")) ∧
    host_run unsynced_host restore_sample sealed_host (HRet (ok r)) ∧ or_response_body r = "already-repaired" ∧
    crashed sealed_host crashed_host ∧ loaded crashed_host mutation_id j ∧ mj_state j = JournalState.Restored ∧
    (in_bytes <$> h_inodes crashed_host !! 7%N) = Some [10; 20; 225; 40]%N.
Proof.
  destruct (exec_success [] unsynced_host restore_sample) as (r & Hr & Hrun); [vm_compute; reflexivity|].
  destruct (loadedb_sound crashed_host mutation_id JournalState.Restored) as (j & Hj & Hs); [vm_compute; reflexivity|].
  exists r, j. split_and!; [|exact Hrun| |exact sealed_crashed|exact Hj|exact Hs|vm_compute; reflexivity].
  - apply (exec_run fsync_fails). vm_compute. reflexivity.
  - vm_compute in Hr. by simplify_eq.
Qed.

(** ** An abort after a mutation

    A mutation that is rejected before its journal exists resets the flag that an
    earlier mutation of the session set. *)
Definition rejected_id : string := "44444444-4444-4444-8444-444444444444".
Definition invoke (s : StorageHelperSession) (o : StorageRecoveryHostOperation.t) (id : string) :=
  execute_mutation_with_id s (mkStorageHelperInvocation sample_c o) id.
Definition start_session : StorageHelperSession := mkStorageHelperSession sample_c false.
Definition first_run := exec [] sample_host (invoke start_session mutation_operation mutation_id).
Definition first_session : StorageHelperSession := match snd first_run with ok (s, _) => s | _ => start_session end.
Definition second_run :=
  exec [] (fst first_run) (invoke first_session (StorageRecoveryHostOperation.MutateShard inspection_id 2 2) rejected_id).
Definition second_session : StorageHelperSession := match snd second_run with ok (s, _) => s | _ => first_session end.
Definition session_result {A} (r : Result (StorageHelperSession * Result A)) : option (bool * bool) :=
  match r with ok (s, r) => Some (hs_mutation_started s, is_ok r) | _ => None end.

(** The session is closed as aborted before any mutation while its own journal
    says that the shard is mutated. *)
Theorem abort_accepted_after_mutation :
  host_run sample_host (invoke start_session mutation_operation mutation_id) (fst first_run) (HRet (snd first_run)) ∧
  session_result (snd first_run) = Some (true, true) ∧
  host_run (fst first_run) (invoke first_session (StorageRecoveryHostOperation.MutateShard inspection_id 2 2) rejected_id)
    (fst second_run) (HRet (snd second_run)) ∧
  session_result (snd second_run) = Some (false, false) ∧
  (∃ h, host_run (fst second_run)
          (session_finish second_session sample_c (StorageRecoveryCleanupProof.AbortedBeforeMutation 2500%N))
          h (HRet (ok tt))) ∧
  ∃ j, loaded (fst second_run) mutation_id j ∧ mj_state j = JournalState.Mutated.
Proof.
  split; [exact (exec_sound _ [] _)|]. split; [vm_compute; reflexivity|].
  split; [exact (exec_sound _ [] _)|]. split; [vm_compute; reflexivity|]. split.
  - destruct (exec_success [] (fst second_run)
      (session_finish second_session sample_c (StorageRecoveryCleanupProof.AbortedBeforeMutation 2500%N)))
      as ([] & _ & Hrun); [vm_compute; reflexivity|]. by eexists.
  - apply loadedb_sound. vm_compute. reflexivity.
Qed.
