(* ===== verification/Samples.v ===== *)
(** Small concrete histories, stores and workloads on which the definitions
    evaluate and the theorems are instantiated. *)
From S2P Require Import Prelude Ordering RustText History Workload ObjectModel Attempts.
From S2P Require Import ReadAnomalies Lineage ReadFailure Report Evaluate Checker Verdict.
From S2P Require Import Recovery Reread RecoveryArtifacts Quorum.
From stdpp Require Import options.

(** A toy digest: the bytes in decimal. *)
Definition sample_sha (l : list N) : string := join "." (dec <$> l).

Definition sample_record (n : N) (kind : OperationKind.t) (key : option string)
    (outcome : OperationOutcome.t) : OperationRecord :=
  mkOperationRecord ("op-" +:+ dec n) "scenario" (Some "run") kind "bucket" key None None None None
    None None None None None None None None None None (Some (2 * n - 1)%N) (Some (2 * n)%N)
    (10 * n)%N (10 * n + 1)%N outcome None None None None.
Definition sample_write (n : N) (key : string) (body : list N) (outcome : OperationOutcome.t)
    (version : option string) : OperationRecord :=
  sample_record n OperationKind.Put (Some key) outcome
    <| op_value_sha256 := Some (sample_sha body) |> <| op_size_bytes := Some (len body) |>
    <| op_version_id := version |>.
Definition sample_read (n : N) (key : string) (body : list N) : OperationRecord :=
  sample_record n OperationKind.Get (Some key) OperationOutcome.Ok
    <| op_value_sha256 := Some (sample_sha body) |> <| op_size_bytes := Some (len body) |>.
Definition sample_delete (n : N) (key : string) (outcome : OperationOutcome.t)
    (marker : option string) : OperationRecord :=
  sample_record n OperationKind.Delete (Some key) outcome
    <| op_version_id := marker |> <| op_is_delete_marker := Some true |>.
Definition sample_list (n : N) (prefix : string) (keys : list string) : OperationRecord :=
  sample_record n OperationKind.List (Some prefix) OperationOutcome.Ok
    <| op_listed_keys := Some keys |>.

(** A versioned history: a committed object, an ambiguous write, a committed
    object deleted again, and reads of the first. *)
Definition sample_history : list OperationRecord :=
  [ sample_write 1 "fault-test/run/a" [1; 2]%N OperationOutcome.Ok (Some "v1");
    sample_write 2 "fault-test/run/b" [3]%N OperationOutcome.Timeout None;
    sample_write 3 "fault-test/run/c" [4]%N OperationOutcome.Ok (Some "v2");
    sample_read 4 "fault-test/run/a" [1; 2]%N;
    sample_delete 5 "fault-test/run/c" OperationOutcome.Ok (Some "m1");
    sample_list 6 "fault-test/run/" ["fault-test/run/a"] ].

Definition got (body : list N) : GetObjectResult :=
  mkGetObjectResult OperationOutcome.Ok (Some 200%N) None (Some body).
Definition not_found : GetObjectResult :=
  mkGetObjectResult OperationOutcome.NotFound (Some 404%N) None None.

(** A store that holds what the history committed; batches complete in reverse. *)
Definition sample_env : CheckerEnv := {|
  env_bucket := "bucket";
  env_get_object := λ key,
    ok (if decide (key = "fault-test/run/a") then got [1; 2]%N else not_found);
  env_get_object_version := λ key version_id,
    ok (if decide (version_id = "v1") then got [1; 2]%N
        else if decide (version_id = "v2") then got [4]%N else not_found);
  env_list_object_versions := λ _,
    ok (Some [ mkObjectVersionEntry "fault-test/run/a" (Some "v1") true false;
               mkObjectVersionEntry "fault-test/run/c" (Some "m1") true true;
               mkObjectVersionEntry "fault-test/run/c" (Some "v2") false false ]);
  env_list_prefix := λ _, ok (Some ["fault-test/run/a"]);
  env_completed := λ A, @reverse A;
  env_suffix := [];
  env_started_at_ms := 100;
  env_completed_at_ms := 200;
  env_sha256_hex := sample_sha;
  env_to_json := λ records, ok [len records];
|}.

Definition sample_report : Result CheckerReport :=
  check_s3_history (H := sample_env) "scenario" "run" sample_history true true.

(** A committed object with a later ambiguous write, whose final read times
    out. *)
Definition slow_history : list OperationRecord :=
  [ sample_write 1 "fault-test/run/a" [1; 2]%N OperationOutcome.Ok None;
    sample_write 2 "fault-test/run/a" [9]%N OperationOutcome.Timeout None ].
Definition slow_get : GetObjectResult :=
  mkGetObjectResult OperationOutcome.Timeout None (Some "get object timed out") None.
Definition slow_record : OperationRecord :=
  sample_record 3 OperationKind.Get (Some "fault-test/run/a") OperationOutcome.Timeout
    <| op_error := Some "get object timed out" |>.
Definition slow_checker_env : CheckerEnv := {|
  env_bucket := "bucket";
  env_get_object := λ _, ok slow_get;
  env_get_object_version := λ _ _, ok not_found;
  env_list_object_versions := λ _, ok None;
  env_list_prefix := λ _, ok (Some ["fault-test/run/a"]);
  env_completed := λ A l, l;
  env_suffix := [slow_record];
  env_started_at_ms := 100;
  env_completed_at_ms := 200;
  env_sha256_hex := sample_sha;
  env_to_json := λ records, ok [len records];
|}.
Definition slow_report : CheckerReport :=
  match check_s3_history (H := slow_checker_env) "scenario" "run" slow_history true false with
  | ok r => r
  | _ => mkCheckerReport "" "" 0 0 0 [] [] [] [] [] [] [] [] [] 0 0 [] [] None false 0 0 0 [] [] []
           [] [] [] [] [] [] [] [] [] ∅ ∅ None false false
  end.

(** A store that answers every reread with the given body; every reading of
    the clock costs a millisecond, and one of them the given delay. *)
Definition answering_env (body : list N) (late : nat) (delay : N) : RereadEnv := {|
  re_sha256_hex := sample_sha;
  re_get := λ _ _, ok (got body);
  re_completed := λ _ l, l;
  re_elapsed := λ n, if decide (n = late) then delay else 1000000%N;
  re_times_out := λ _, false;
|}.
Definition slow_reread (env : RereadEnv) : Result RecoveryStabilityReport :=
  recovery_stability_reread (H := env) (slow_history ++ [slow_record]) slow_report 2 (60 * SECOND).

(** An ambiguous write that landed, beside a listed key nobody can read. *)
Definition ghost_history : list OperationRecord :=
  [ sample_write 1 "fault-test/run/b" [3]%N OperationOutcome.Timeout None ].
Definition ghost_checker_env : CheckerEnv := {|
  env_bucket := "bucket";
  env_get_object := λ key,
    ok (if decide (key = "fault-test/run/b") then got [3]%N else not_found);
  env_get_object_version := λ _ _, ok not_found;
  env_list_object_versions := λ _, ok None;
  env_list_prefix := λ _, ok (Some ["fault-test/run/b"; "fault-test/run/x"]);
  env_completed := λ A l, l;
  env_suffix := [];
  env_started_at_ms := 100;
  env_completed_at_ms := 200;
  env_sha256_hex := sample_sha;
  env_to_json := λ records, ok [len records];
|}.

(** An unversioned history with a live key, an ambiguous write that lands, a
    deleted key and a failed write that lands all the same, and the reads and
    the listing of the check that follows. *)
Definition audit_history : list OperationRecord :=
  [ sample_write 1 "fault-test/run/a" [1; 2]%N OperationOutcome.Ok None;
    sample_write 2 "fault-test/run/b" [3]%N OperationOutcome.Timeout None;
    sample_write 3 "fault-test/run/c" [4]%N OperationOutcome.Ok None;
    sample_delete 4 "fault-test/run/c" OperationOutcome.Ok None;
    sample_write 5 "fault-test/run/d" [5]%N OperationOutcome.Failed None
      <| op_mutation_attempts := Some 2%N |> <| op_mutation_max_attempts := Some 3%N |> ].
Definition audit_get (n : N) (key : string) (get : GetObjectResult) : OperationRecord :=
  sample_record n OperationKind.Get (Some key) (get_outcome get)
    <| op_http_status := get_http_status get |> <| op_error := get_error get |>
    <| op_value_sha256 := sample_sha <$> get_body get |> <| op_size_bytes := len <$> get_body get |>.
Definition audit_answer (key : string) : GetObjectResult :=
  if decide (key = "fault-test/run/a") then got [1; 2]%N
  else if decide (key = "fault-test/run/b") then got [3]%N
  else if decide (key = "fault-test/run/d") then got [5]%N else not_found.
Definition audit_listed : list string := ["fault-test/run/a"; "fault-test/run/b"; "fault-test/run/d"].
Definition audited_env (answer : string → GetObjectResult) (listed : list string) : CheckerEnv := {|
  env_bucket := "bucket";
  env_get_object := λ key, ok (answer key);
  env_get_object_version := λ _ _, ok not_found;
  env_list_object_versions := λ _, ok None;
  env_list_prefix := λ _, ok (Some listed);
  env_completed := λ A, @reverse A;
  env_suffix :=
    [ audit_get 6 "fault-test/run/b" (answer "fault-test/run/b");
      audit_get 7 "fault-test/run/a" (answer "fault-test/run/a");
      audit_get 8 "fault-test/run/c" (answer "fault-test/run/c");
      sample_list 9 "fault-test/run/" listed <| op_http_status := Some 200%N |>;
      audit_get 10 "fault-test/run/d" (answer "fault-test/run/d") ];
  env_started_at_ms := 60;
  env_completed_at_ms := 200;
  env_sha256_hex := sample_sha;
  env_to_json := λ records, ok [len records];
|}.
Definition audit_env : CheckerEnv := audited_env audit_answer audit_listed.

(** The same for a versioned bucket, where the ambiguous write left a version. *)
Definition version_answer (key version_id : string) : GetObjectResult :=
  if decide (version_id = "v1") then got [1; 2]%N
  else if decide (version_id = "v2") then got [4]%N
  else if decide (version_id = "v3") then got [3]%N else not_found.
Definition audit_version_get (n : N) (key version_id : string) : OperationRecord :=
  audit_get n key (version_answer key version_id) <| op_version_id := Some version_id |>.
Definition version_entries : list ObjectVersionEntry :=
  [ mkObjectVersionEntry "fault-test/run/a" (Some "v1") true false;
    mkObjectVersionEntry "fault-test/run/b" (Some "v3") true false;
    mkObjectVersionEntry "fault-test/run/c" (Some "m1") true true;
    mkObjectVersionEntry "fault-test/run/c" (Some "v2") false false ].
Definition versioned_audit_env : CheckerEnv := {|
  env_bucket := "bucket";
  env_get_object := λ key, ok (if decide (key = "fault-test/run/c") then not_found else audit_answer key);
  env_get_object_version := λ key version_id, ok (version_answer key version_id);
  env_list_object_versions := λ _, ok (Some version_entries);
  env_list_prefix := λ _, ok (Some ["fault-test/run/a"; "fault-test/run/b"]);
  env_completed := λ A l, l;
  env_suffix :=
    [ audit_get 7 "fault-test/run/a" (got [1; 2]%N);
      audit_get 8 "fault-test/run/b" (got [3]%N);
      audit_get 9 "fault-test/run/c" not_found;
      audit_version_get 10 "fault-test/run/a" "v1";
      audit_version_get 11 "fault-test/run/c" "v2";
      sample_record 12 OperationKind.ListVersions (Some "fault-test/run/") OperationOutcome.Ok
        <| op_http_status := Some 200%N |>
        <| op_listed_versions := Some ((λ e, mkListedVersionEntry (ove_key e) (ove_version_id e)
             (ove_is_latest e) (ove_is_delete_marker e)) <$> version_entries) |>;
      audit_version_get 13 "fault-test/run/b" "v3";
      sample_list 14 "fault-test/run/" ["fault-test/run/a"; "fault-test/run/b"]
        <| op_http_status := Some 200%N |> ];
  env_started_at_ms := 60;
  env_completed_at_ms := 200;
  env_sha256_hex := sample_sha;
  env_to_json := λ records, ok [len records];
|}.

(** A set of four servers with one volume each, half of its shards parity. *)
Definition quorum_shape : ErasureSetShape := mkErasureSetShape 0 0 4 1 4 2 2.
Definition quorum_member (n : string) : ErasureSetMember :=
  mkErasureSetMember ("pod-" +:+ n) ("endpoint-" +:+ n) ["drive-" +:+ n].
Definition quorum_members : ErasureSetMembership := quorum_member <$> ["0"; "1"; "2"; "3"].
Definition quorum_binding (n : string) : QuorumVolumeBinding :=
  mkQuorumVolumeBinding ("pod-" +:+ n) ("uid-" +:+ n) ("container-" +:+ n) "/data/rustfs0" ("pvc-" +:+ n)
    ("pv-" +:+ n) ("drive-" +:+ n) 0 0.
Definition payload_boundary : QuorumVolumeBoundary := mkQuorumVolumeBoundary QuorumCaseClass.Payload false.
Definition quorum_target : Result QuorumVolumeTargetProof :=
  target_from_runtime quorum_shape quorum_members payload_boundary (quorum_binding <$> ["3"; "1"; "0"; "2"]).
Definition quorum_drive (n state : string) : QuorumDriveHealth :=
  mkQuorumDriveHealth ("pod-" +:+ n) ("endpoint-" +:+ n) ("drive-" +:+ n) state 0 0.
Definition quorum_observation : QuorumHealthObservation :=
  mkQuorumHealthObservation 10 20 "deployment" quorum_shape
    [quorum_drive "0" "offline"; quorum_drive "1" "ok"; quorum_drive "2" "ok"; quorum_drive "3" "offline"].
