(* ===== verification/AckSamples.v ===== *)
(** The acknowledgement trigger on a concrete store: a PUT that is acknowledged,
    a fault that becomes active four milliseconds later, and a check of the store
    after it. *)
From S2P Require Import Prelude Ordering RustText RustWords StorageLease.
From S2P Require Import History HistoryFacts RecorderFacts Workload ObjectModel Attempts ListHistory Lineage LineageFacts.
From S2P Require Import ReadAnomalies Report Evaluate Checker CheckerFacts Samples Client ClientRuns ClientFacts AckTrigger AckTriggerFacts.
From stdpp Require Import options.

Definition ack_body : list N := Eval vm_compute in seeded_bytes 7 0 2.
Definition ack_object : ObjectSpec := mkObjectSpec "fault-test/run/a" 2 (sample_sha ack_body) 7 0.
(** Every mutation is transmitted once and acknowledged. *)
Definition ack_server : Server := λ R _ request,
  match request in Request R return R with
  | CreateBucket => Replied tt
  | PutBucketVersioning => Replied tt
  | PutObject _ _ => (1%N, Replied (Some "v1"))
  | GetObject _ _ _ => Replied tt
  | CollectBody => Replied ack_body
  | DeleteObject _ => (1%N, Replied (mkDeleteObjectOutput (Some "m1") (Some true) None None))
  | CreateMultipartUpload _ => Replied (Some "u1")
  | UploadPart _ _ _ _ => Replied (Some "e1")
  | CompleteMultipartUpload _ _ _ => (1%N, Replied (Some "v1"))
  | AbortMultipartUpload _ _ _ => Replied tt
  | HeadObject _ => Replied tt
  | ListObjectsV2 _ _ => Replied (mkListPage [Some "fault-test/run/a"] None None)
  | ListObjectVersions _ _ _ => Replied (mkListVersionsPage [] [] None None None)
  end.
Lemma ack_server_ok deadline R n (request : Request R) :
  reply_ok (for_quiet_mutation deadline) request (ack_server R n request).
Proof. destruct request; cbn; try done; (split; [cbn; lia|intros; cbn; lia]). Defined.

Definition ack_clock (n : nat) : N := 100 + 10 * N.of_nat n.
(** The fault counts its activations and reports the time it became active. *)
Definition ack_fault (n : nat) : Result N * nat := (ok 124%N, S n).
Definition ack_trigger : AcknowledgedMutationTrigger :=
  mkAcknowledgedMutationTrigger (1000 * NANOS_PER_MILLI) 10.
Definition ack_add (start timeout : N) : option N := Some (start + timeout)%N.
Definition ack_run (m : QuietMutation) (now : N) :=
  run_prog "bucket" ack_server ack_clock (λ _, None) 0 (create "scenario" "run")
    (execute_and_activate_fault sample_sha ack_add ack_fault ack_trigger m 0 0 now).
Definition ack_evidence : AckToFaultEvidence :=
  mkAckToFaultEvidence "op-000001" AcknowledgedMutationKind.Put "fault-test/run/a" "v1" 120 124 4 10.
Definition ack_state : RecorderState :=
  Eval vm_compute in match ack_run (QPut ack_object) 5 with ok (_, st) => st | _ => create "" "" end.
Lemma ack_run_armed : ack_run (QPut ack_object) 5 = ok ((TOk ack_evidence, 1), ack_state).
Proof. vm_compute. reflexivity. Defined.
(** After the deadline the same acknowledgement does not touch the fault. *)
Example ack_run_late :
  ack_run (QPut ack_object) (1000 * NANOS_PER_MILLI)
  = ok ((TErr (TriggerError.OperationInterrupted 1000), 0), ack_state).
Proof. vm_compute. reflexivity. Qed.

Lemma fault_only_after_acknowledged_commit_witness :
  ∃ rs, rs_records ack_state = rs_records (create "scenario" "run") ++ rs ∧
    (1 ≠ 0 → ∃ r, acknowledged sample_sha ack_add ack_trigger (QPut ack_object) 0 5 rs r ∧
       op_mutation_attempts r = Some 1%N) ∧
    ∀ ev, TOk ack_evidence = TOk ev →
      ∃ r, acknowledged sample_sha ack_add ack_trigger (QPut ack_object) 0 5 rs r ∧
      ack_fault 0 = (ok (ae_fault_activated_at_ms ev), 1) ∧
      (op_ended_at_ms r ≤ ae_fault_activated_at_ms ev ≤ op_ended_at_ms r + 10)%N ∧
      ae_trigger_operation_id ev = op_id r ∧ op_key r = Some (ae_trigger_key ev) ∧
      op_version_id r = Some (ae_trigger_version_id ev).
Proof.
  exact (fault_only_after_acknowledged_commit sample_sha ack_add "bucket" ack_fault ack_server ack_clock (λ _, None) 0
    (create "scenario" "run") ack_trigger (QPut ack_object) 0 0 5 (TOk ack_evidence) 1 ack_state
    ack_server_ok ack_run_armed).
Defined.

(** The store after the fault still holds the acknowledged version. *)
Definition ack_env : CheckerEnv := {|
  env_bucket := "bucket";
  env_get_object := λ key, ok (got ack_body);
  env_get_object_version := λ key version_id, ok (got ack_body);
  env_list_object_versions := λ _,
    ok (Some [ mkObjectVersionEntry "fault-test/run/a" (Some "v1") true false ]);
  env_list_prefix := λ _, ok (Some ["fault-test/run/a"]);
  env_completed := λ A, @reverse A;
  env_suffix := [];
  env_started_at_ms := 200;
  env_completed_at_ms := 300;
  env_sha256_hex := sample_sha;
  env_to_json := λ records, ok [len records];
|}.
Definition ack_report : CheckerReport :=
  Eval vm_compute in
    match check_s3_history (H := ack_env) "scenario" "run" (rs_records ack_state ++ []) true true with
    | ok r => r
    | _ => initial_report "" "" [] empty_model no_anomalies false false
    end.
Lemma ack_report_passed :
  check_s3_history (H := ack_env) "scenario" "run" (rs_records ack_state ++ []) true true = ok ack_report.
Proof. vm_compute. reflexivity. Defined.

Lemma acknowledged_version_survives_witness :
  ∃ entries, @env_list_object_versions ack_env (key_prefix "run") = ok (Some entries) ∧
    lists_entry entries "fault-test/run/a" "v1" false ∧
    ∃ get body, @env_get_object_version ack_env "fault-test/run/a" "v1" = ok get ∧
      body_of get = Some body ∧ sample_sha body = os_sha256 ack_object ∧ len body = 2%N.
Proof.
  exact (@acknowledged_version_survives ack_env nat ack_add "bucket" ack_fault ack_server ack_clock (λ _, None) 0
    (create "scenario" "run") ack_trigger (QPut ack_object) 0 0 5 ack_evidence 1 ack_state []
    "scenario" "run" true ack_report ack_server_ok ack_run_armed
    (λ A l, reverse_Permutation l) ack_report_passed eq_refl).
Defined.
