(* ===== verification/Disagreements.v ===== *)
(** Three places where the parts of the program disagree, on concrete runs: the
    recovery time that the runner writes and the artifact validator rejects, a
    ghost key that the two gates of the checker classify differently, and passing
    checks whose reports the audit rejects. *)
From S2P Require Import Prelude Ordering RustText History Workload ObjectModel Attempts.
From S2P Require Import ReadFailure Report Evaluate Checker Verdict Recovery Reread ReportAudit.
From S2P Require Import RereadFacts RecoveryArtifacts Samples.
From stdpp Require Import options.

(** The rereads of a run end in the class, the report is valid, and the summary
    the runner writes for it is rejected with the message. *)
Definition summary_rejected (env : RereadEnv) (c : RecoveryStabilityClassification.t)
    (message : string) : Prop :=
  ∃ rep, slow_reread env = ok rep ∧ rsr_classification rep = c ∧
    validate_recovery_stability_report rep = ok tt ∧
    validate_recovery_stability_against_checker rep slow_report = ok tt ∧
    validate_recovery_failure_summary_fields
      (pre_recommit_summary 0 "scenario" "run" "fault checker failed" rep) rep = err message.

(** The runner can write a failure summary its own validator rejects: when a reread
    shows that an ambiguous write landed the report still claims a recovery time, and
    when the window closes right after the last successful reread the recovery-tail
    report has none. *)
Theorem recovery_time_rejected :
  summary_rejected (answering_env [9]%N 100 0)
    RecoveryStabilityClassification.AmbiguousWriteMaterialized
    "ambiguous_write_materialized failure-summary.json must not claim recovery" ∧
  summary_rejected (answering_env [1; 2]%N 6 (60 * SECOND))
    RecoveryStabilityClassification.RecoveryTailReadLatency
    "recovery_tail_read_latency failure-summary.json recovered_within_seconds must match recovery-stability-report.json".
Proof. split; eexists; (split; [vm_compute; reflexivity|]); split_and!; vm_compute; reflexivity. Qed.

(** The same evidence classifies differently at the two gates: a listed key that
    cannot be read beside a materialized ambiguous write is listed_key_unreadable, a
    correctness failure, for the final verdict and ambiguous_write_materialized, to be
    investigated, after the rereads. *)
Lemma gates_classify_ghost_keys_differently :
  ∃ r rep, check_s3_history (H := ghost_checker_env) "scenario" "run" ghost_history true false = ok r ∧
    recovery_stability_reread (H := answering_env [] 100 0) ghost_history r 1 (60 * SECOND) = ok rep ∧
    failure_classification r = RecoveryStabilityClassification.ListedKeyUnreadable ∧
    recovery_severity (failure_classification r) = FailureSeverity.FailCorrectness ∧
    rsr_classification rep = RecoveryStabilityClassification.AmbiguousWriteMaterialized ∧
    recovery_severity (rsr_classification rep) = FailureSeverity.NeedsInvestigation.
Proof.
  eexists _, _. split; [vm_compute; reflexivity|]. split; [vm_compute; reflexivity|].
  split_and!; vm_compute; reflexivity.
Qed.

(** The check passes, and the audit of its report against the history it left
    fails with the message. *)
Definition passes_unaudited (env : CheckerEnv) (message : string) : Prop :=
  ∃ r, check_s3_history (H := env) "scenario" "run" audit_history true false = ok r ∧
    cr_passed r = true ∧
    validate_checker_audit_against_history (H := env) r (audit_history ++ @env_suffix env) = err message.

(** A passing report is rejected when the GET of a deleted key timed out, when an
    ambiguous write is readable but not listed, and when the listing repeats a key. *)
Lemma passing_reports_rejected :
  passes_unaudited (audited_env (λ key, if decide (key = "fault-test/run/c") then slow_get else audit_answer key)
                      audit_listed)
    "checker current GET materialized a key absent from the authenticated model: fault-test/run/c" ∧
  passes_unaudited (audited_env audit_answer ["fault-test/run/a"; "fault-test/run/d"])
    "checker final LIST does not match its authenticated model" ∧
  passes_unaudited (audited_env audit_answer (audit_listed ++ audit_listed))
    "checker final LIST does not match its authenticated model".
Proof.
  split; [|split]; (eexists; split; [vm_compute; reflexivity|split; [reflexivity|vm_compute; reflexivity]]).
Qed.
