(* ===== verification/Witnesses.v ===== *)
(** The theorems that carry hypotheses, applied to concrete histories, stores
    and workloads on which the hypotheses hold. *)
From S2P Require Import Prelude Ordering RustText History HistoryFacts RecorderFacts.
From S2P Require Import Workload WorkloadFacts ObjectModel ObjectModelFacts.
From S2P Require Import SourceIndexFacts Attempts ReadAnomalies ReadSweepFacts.
From S2P Require Import ReadFacts ReplayFacts ListHistory ListHistoryFacts Lineage.
From S2P Require Import LineageFacts ReadFailure Report Evaluate Checker CheckerFacts.
From S2P Require Import LegalityFacts Quorum QuorumFacts Samples.
From S2P Require Import Verdict VerdictFacts Recovery RecoveryFacts Reread RereadFacts.
From S2P Require Import RecoveryArtifacts RecoveryArtifactsFacts EvidenceFacts.
From S2P Require Import Client ClientRuns ClientFacts ReportAudit AuditFacts AuditVersionFacts AuditCheckFacts.
From stdpp Require Import options.

(** ** The checker *)
Definition sample_passed : CheckerReport :=
  Eval vm_compute in
    match sample_report with ok r => r | _ => initial_report "" "" [] empty_model no_anomalies false false end.
Lemma sample_report_passed :
  check_s3_history (H := sample_env) "scenario" "run" sample_history true true = ok sample_passed.
Proof. vm_compute. reflexivity. Defined.
Lemma sample_env_completed : ∀ A (l : list A), @env_completed sample_env A l ≡ₚ l.
Proof. intros A l. apply reverse_Permutation. Defined.

Lemma passed_check_accounts_for_live_keys_witness :
  ∃ keys, @env_list_prefix sample_env (key_prefix "run") = ok (Some keys) ∧
    ∀ key expected, om_live (object_model sample_history) !! key = Some expected →
      (@reads_back sample_env (object_model sample_history) key expected ∧ key ∈ keys) ∨
      (@ambiguously_absent sample_env (object_model sample_history) key ∧ key ∉ keys).
Proof.
  apply (@passed_check_accounts_for_live_keys sample_env "scenario" "run" sample_history true true
    sample_passed sample_env_completed sample_report_passed).
  reflexivity.
Defined.

Lemma passed_check_explains_every_listed_key_witness :
  let m := object_model sample_history in
  (∀ key, key ∈ om_deleted m →
     ∃ get, @env_get_object sample_env key = ok get ∧ ∀ body, body_of get = Some body →
       ∃ a, a ∈ default [] (om_unknown_writes m !! key) ∧ aw_superseded_by a = None ∧
         aw_object a = observed_object sample_sha body) ∧
  ∃ keys, @env_list_prefix sample_env (key_prefix "run") = ok (Some keys) ∧
    ∀ key, key ∈ keys →
      (key ∈ om_deleted m → @ambiguous_write_landed sample_env m key) ∧
      (is_Some (om_live m !! key) ∨ is_Some (om_unknown_writes m !! key) ∨
       @failed_write_landed sample_env m key).
Proof.
  apply (@passed_check_explains_every_listed_key sample_env "scenario" "run" sample_history true
    true sample_passed sample_env_completed sample_report_passed).
  reflexivity.
Defined.

Lemma passed_check_verifies_every_version_witness :
  ∃ entries, @env_list_object_versions sample_env (key_prefix "run") = ok (Some entries) ∧
    (∀ w key version_id sha256 size, w ∈ sample_history → creates_data_version w key version_id sha256 size →
       lists_entry entries key version_id false ∧
       ∃ get body, @env_get_object_version sample_env key version_id = ok get ∧ body_of get = Some body ∧
         sample_sha body = sha256 ∧ len body = size) ∧
    (∀ d key version_id, d ∈ sample_history → creates_marker key version_id d →
       lists_entry entries key version_id true) ∧
    listing_sound sample_history entries.
Proof.
  apply (@passed_check_verifies_every_version sample_env "scenario" "run" sample_history true
    sample_passed sample_env_completed sample_report_passed).
  reflexivity.
Defined.

Lemma passed_check_read_only_written_values_witness :
  written_in sample_history "fault-test/run/a" (observed (sample_read 4 "fault-test/run/a" [1; 2]%N)).
Proof.
  apply (@passed_check_read_only_written_values sample_env "scenario" "run" sample_history true true
    sample_passed 3 (sample_read 4 "fault-test/run/a" [1; 2]%N) "fault-test/run/a"
    sample_env_completed).
  - repeat constructor.
  - exact sample_report_passed.
  - reflexivity.
  - reflexivity.
  - repeat split.
Defined.

Lemma sample_check_completes : @check_completes sample_env "scenario" "run" sample_history.
Proof.
  split.
  - vm_compute. reflexivity.
  - vm_compute. reflexivity.
  - reflexivity.
  - intros l. eexists. reflexivity.
  - intros key. eexists. reflexivity.
  - eexists. reflexivity.
  - repeat constructor.
Defined.
Lemma unversioned_check_decides_legality_witness :
  ∃ r, check_s3_history (H := sample_env) "scenario" "run" sample_history true false = ok r ∧
    (cr_passed r = true ↔
     true = true ∧ @reads_clean sample_env sample_history ∧
     ∃ keys, @legal_store sample_env (object_model sample_history) (key_prefix "run") keys).
Proof.
  apply (@unversioned_check_decides_legality sample_env "scenario" "run" sample_history true
    sample_env_completed sample_check_completes).
  - vm_compute. reflexivity.
  - vm_compute. discriminate.
Defined.

(** ** Reads and listings *)
(** A GET returning bytes nobody wrote. *)
Definition corrupt_history : list OperationRecord :=
  [ sample_write 1 "k" [1]%N OperationOutcome.Ok None; sample_read 2 "k" [9]%N ].

Lemma unwritten_value_is_reported_witness :
  ∃ a, successful_read_anomalies sample_sha corrupt_history = ok a ∧ reported "k" a.
Proof.
  apply (unwritten_value_is_reported sample_sha corrupt_history 1 (sample_read 2 "k" [9]%N) "k").
  - repeat constructor.
  - reflexivity.
  - repeat split.
  - intros (r & Hr & Hk & _ & Ho). apply list_elem_of_In in Hr. simpl in Hr.
    destruct Hr as [<-|[<-|[]]]; [discriminate Ho|]. destruct Hk; discriminate.
Defined.

Lemma committed_reads_raise_no_anomaly_witness :
  successful_read_anomalies sample_sha sample_history = ok no_anomalies.
Proof.
  apply committed_reads_raise_no_anomaly.
  - repeat constructor; discriminate.
  - intros i r Hi Hc.
    destruct i as [|[|[|[|[|[|i]]]]]]; try discriminate Hi; injection Hi as <-;
      try discriminate Hc.
    exists "fault-test/run/a". split; [repeat split|]. left. reflexivity.
Defined.

Lemma stable_reads_equal_per_read_scan_witness :
  stable_live_objects_at_read_starts sample_history !! 3 =
  (read ← sample_history !! 3; key ← (if is_current_read read then op_key read else None);
   live_at_start sample_history read !! key).
Proof. apply stable_reads_equal_per_read_scan. reflexivity. Defined.

Definition sample_windows : list CommittedWriteWindow :=
  [ mkCommittedWriteWindow (mkExpectedObject "a" 1) 5 (Some 8%N) None;
    mkCommittedWriteWindow (mkExpectedObject "b" 1) 6 (Some 2%N) None ].
Lemma concurrent_read_equals_window_scan_witness :
  concurrent_committed_read (history_of sample_windows) (sample_read 3 "k" [1]%N)
    (mkExpectedObject "a" 1)
  = overlapping_read sample_windows (sample_read 3 "k" [1]%N) (mkExpectedObject "a" 1).
Proof.
  apply concurrent_read_equals_window_scan; [repeat constructor; by eexists|by eexists].
Defined.

Lemma ranged_get_judged_by_slices_witness :
  let range := mkByteRange 1 2 in
  let state := mkRangedReadState
    [mkCommittedWriteWindow (mkExpectedObject "x" 4) 5 (Some 2%N) (Some (mkPayloadRef 7 0))]
    [] None None in
  let record := sample_read 3 "k" [1; 2]%N in
  ∃ a', verify_ranged_get sample_sha "k" range record state no_anomalies = ok a' ∧
    extends no_anomalies a' ∧
    (ra_corrupted_reads a' ≠ ra_corrupted_reads no_anomalies ↔
     ranged_corrupt sample_sha range record state) ∧
    (default 0%N (op_size_bytes record) = range_length range →
     Some (default "" (op_value_sha256 record))
       ∈ slice_sha sample_sha range <$> ranged_candidates record state → a' = no_anomalies).
Proof.
  intros range state record. apply ranged_get_judged_by_slices. vm_compute. split; discriminate.
Defined.

Lemma list_history_counts_every_violation_witness :
  let w := list_history_warnings sample_history in
  ws_total_count w = sum_N ((λ r, expected_warnings (model_at_start sample_history r) r)
                              <$> filter is_successful_list sample_history) ∧
  len (ws_samples w) = (MAX_WARNING_SAMPLES `min` ws_total_count w)%N.
Proof. apply list_history_counts_every_violation. reflexivity. Defined.

Lemma legacy_read_failure_roundtrip_witness :
  failure_evidence (Legacy (read_failure_message "k" OperationOutcome.Timeout (Some 200%N)
                              (Some "body read timed out")))
  = Some (mkReadFailureEvidence "k" OperationOutcome.Timeout (Some 200%N)
            (Some (str_debug "body read timed out"))).
Proof.
  apply (legacy_read_failure_roundtrip "k" OperationOutcome.Timeout (Some 200%N)
    (Some "body read timed out")); try reflexivity. discriminate.
Defined.

(** ** Histories *)

(** Two clients whose operations overlap: a PUT ends while a GET is in flight. *)
Definition run {A} (d : A) (r : Result A) : A := match r with ok a => a | _ => d end.
Definition recorder0 : RecorderState := create "scenario" "run".
Definition idle := (sample_record 0 OperationKind.Get None OperationOutcome.Unknown, recorder0).
Definition sample_client : S3WorkloadClient := mkS3WorkloadClient None 3.
Definition sample_object : PreparedObject := mkPreparedObject (mkObjectSpec "k" 1 "7" 5 0) [7%N].
Definition put_begun :=
  run idle (begin recorder0 OperationKind.Put "bucket" (Some "k") (Some "7") (Some 1%N) 10).
Definition get_begun :=
  run idle (begin put_begun.2 OperationKind.Get "bucket" (Some "k") None None 11).
Definition stopped : Result OperationRecord * RecorderState := (ok idle.1, recorder0).
Definition written_all (r : OperationRecord) : option string := None.
Definition put_ended :=
  run stopped (finish get_begun.2
    (put_begun.1 <| op_mutation_max_attempts := Some 3%N |>
       <| op_payload_ref := Some (mkPayloadRef 5 0) |> <| op_mutation_attempts := Some 1%N |>
       <| op_version_id := None |>) OperationOutcome.Ok (Some 200%N) None 12 written_all).
Definition get_ended :=
  run stopped (finish put_ended.2
    (get_begun.1 <| op_version_id := None |> <| op_read_purpose := None |>
       <| op_value_sha256 := Some (sample_sha [7%N]) |> <| op_size_bytes := Some (len [7%N]) |>)
    OperationOutcome.Ok (Some 200%N) None 13 written_all).

Lemma client_history_valid_witness :
  validate_partial_history_scope_and_order (rs_records get_ended.2) "scenario" "run" "bucket" = ok tt ∧
  ((∀ r, written_all r = None) →
   validate_history_scope_and_order (rs_records get_ended.2) "scenario" "run" "bucket" = ok tt).
Proof.
  apply (client_history_valid sample_sha sample_client "bucket" written_all).
  - eapply rtc_l; [apply task_spawns, (call_get _ _ "k")|].
    eapply rtc_l; [apply task_spawns, (call_put _ _ sample_object)|].
    eapply rtc_l; [by apply (task_begins _ _ _ _ _ [] _ _ _ _ _ _ 10 put_begun.1 put_begun.2)|].
    eapply rtc_l; [by apply (task_begins _ _ _ _ _ [_] [] _ _ _ _ _ 11 get_begun.1 get_begun.2)|].
    eapply rtc_l; [apply (task_sends _ _ _ _ _ [_] [] _ _ _ _ (1%N, Replied None)); split; [discriminate|reflexivity]|].
    eapply rtc_l; [apply (task_sends _ _ _ _ _ [] _ _ _ _ _ (Replied tt)); done|].
    eapply rtc_l; [by apply (task_finishes _ _ _ _ _ [_] [] _ _ _ _ _ _ 12 put_ended.1 put_ended.2)|].
    eapply rtc_l; [apply (task_returns _ _ _ _ _ [_] [] (ok tt))|].
    eapply rtc_l; [apply (task_sends _ _ _ _ _ [] _ _ _ _ _ (Replied [7%N])); done|].
    eapply rtc_l; [by apply (task_finishes _ _ _ _ _ [] [] _ _ _ _ _ _ 13 get_ended.1 get_ended.2)|].
    eapply rtc_l; [apply (task_returns _ _ _ _ _ [] [] (ok tt))|]. apply rtc_refl.
  - vm_compute. repeat constructor; set_solver.
  - intros earlier x rest s Heq Hs Hk. vm_compute in Heq.
    destruct earlier as [|y [|z earlier]]; injection Heq; intros; subst.
    + exists "k". split; [reflexivity|]. intros y ended Hy. by apply elem_of_nil in Hy.
    + discriminate Hk.
    + by destruct earlier.
Defined.
(** A PUT whose record cannot be written, and the GET recorded after it: the history
    has a gap, which only the validator of partial histories accepts. *)
Definition lost_ended :=
  run stopped (finish (run stopped (finish get_begun.2 put_begun.1 OperationOutcome.Ok (Some 200%N) None 12
                         (λ _, Some "no space left on device"))).2
    get_begun.1 OperationOutcome.NotFound (Some 404%N) None 13 written_all).
Example lost_record_leaves_gap :
  is_ok (validate_partial_history_scope_and_order (rs_records lost_ended.2) "scenario" "run" "bucket") = true ∧
  is_ok (validate_history_scope_and_order (rs_records lost_ended.2) "scenario" "run" "bucket") = false.
Proof. vm_compute. split; reflexivity. Qed.

(** A server that holds one object. *)
Definition sample_server : Server := λ R _ request,
  match request in Request R return R with
  | CreateBucket => Replied tt
  | PutBucketVersioning => Replied tt
  | PutObject _ _ => (1%N, Replied None)
  | GetObject key _ _ =>
      if decide (key = "k") then Replied tt else Refused (mkSdkError (ServiceError 404) "no such key" None None)
  | CollectBody => Replied [7%N]
  | DeleteObject _ => (1%N, Elapsed)
  | CreateMultipartUpload _ => Replied (Some "upload")
  | UploadPart _ _ _ _ => Replied (Some "etag")
  | CompleteMultipartUpload _ _ _ => (1%N, Replied None)
  | AbortMultipartUpload _ _ _ => Replied tt
  | HeadObject _ => Elapsed
  | ListObjectsV2 _ _ => Replied (mkListPage [Some "k"] None None)
  | ListObjectVersions _ _ _ => Replied (mkListVersionsPage [] [] None None None)
  end.

Lemma reads_are_recorded_witness :
  ∃ g st' r,
    run_prog "bucket" sample_server N.of_nat written_all 0 recorder0
      (g ← get_object_result_inner sample_sha "k" None None; mret (rg_result g)) = ok (g, st') ∧
    rs_records st' = [] ++ [r] ∧ recorded_get sample_sha "k" None None g r.
Proof.
  apply (reads_are_recorded sample_sha sample_client "bucket" sample_server N.of_nat written_all 0 recorder0).
  - intros R n []; simpl; try exact I; split; first [discriminate|reflexivity].
  - reflexivity.
  - by split.
Defined.

(** ** Workloads *)
Definition sample_classes : list WorkloadPayloadClass :=
  [mkWorkloadPayloadClass 10 1; mkWorkloadPayloadClass 20 2].
Definition sample_plan : WorkloadPlan :=
  Eval vm_compute in
    match seeded_with_profile 3 10 2 default_operation_mix (Some sample_classes) None with
    | ok p => p
    | _ => mkWorkloadPlan 0 GENERATOR 0 0 default_operation_mix 0 [] None []
    end.
Lemma plan_serialization_roundtrip_witness :
  ∃ p, seeded_with_profile 3 10 2 default_operation_mix (Some sample_classes) None = ok p ∧
    plan_wf p ∧ wp_total_payload_bytes p = sum_N (wp_sizes p) ∧
    from_serialized (serialize_plan p) = ok p.
Proof.
  apply plan_serialization_roundtrip; try reflexivity; [split; discriminate|discriminate].
Defined.

Lemma sample_plan_wf : plan_wf sample_plan.
Proof. split; [reflexivity| |reflexivity]. repeat constructor; discriminate. Defined.
Lemma mixed_write_upper_bound_exact_witness :
  ∃ costs, workload_writes sample_plan 4 6 costs ∧
    mixed_write_upper_bound sample_plan 4 6 ≠ panicked ∧
    ∀ b, mixed_write_upper_bound sample_plan 4 6 = ok b ↔
         b = storage_needed costs ∧ (storage_needed costs ≤ u64_max)%N.
Proof.
  apply mixed_write_upper_bound_exact; [exact sample_plan_wf|reflexivity|split; discriminate].
Defined.

(** ** Failure summaries *)
Definition sample_summary : FailureSummary :=
  with_run_id "run" (summary_from_checker 5 "scenario" "checker-verdict"
    RecoveryStabilityClassification.VersionHashMismatch "mismatch").
Lemma written_summaries_validate_witness :
  validate_classification_projection sample_summary = ok tt ∧ coherent sample_summary ∧
  FailureClassification.from_name (fs_classification sample_summary)
    = Some FailureClassification.VersionHashMismatch ∧
  fs_responsibility_domain sample_summary
    = Some (domain_from_classification (fs_classification sample_summary)) ∧
  ((fs_s3_model_classification sample_summary = Some (fs_classification sample_summary) ∧
    fs_run_failure_reason sample_summary = None) ∨
   (fs_s3_model_classification sample_summary = None ∧
    fs_run_failure_reason sample_summary = Some (fs_classification sample_summary))).
Proof.
  apply (written_summaries_validate FailureClassification.VersionHashMismatch).
  apply written_run_id, written_checker. reflexivity.
Defined.

(** ** Rereads of a slow object *)
Definition slow_env : RereadEnv := answering_env [1; 2]%N 100 0.
Definition slow_rep : RecoveryStabilityReport :=
  Eval vm_compute in match slow_reread slow_env with ok rep => rep | _ => harness_error "" 0 end.
Lemma slow_env_completed : ∀ n l, @re_completed slow_env n l ≡ₚ l.
Proof. intros n l. reflexivity. Defined.
Lemma slow_env_answers : ∀ n key, @re_get slow_env n key ≠ panicked.
Proof. intros n key. discriminate. Defined.
Lemma slow_candidates :
  immediate_recovery_candidate_keys slow_report
  = ok (to_set (attempted_keys (slow_history ++ [slow_record]) 2)).
Proof. vm_compute. reflexivity. Defined.
Lemma slow_keys :
  ∀ key, key ∈ attempted_keys (slow_history ++ [slow_record]) 2 → starts_with "version:" key = false.
Proof.
  assert (attempted_keys (slow_history ++ [slow_record]) 2 = ["fault-test/run/a"]) as ->
    by (vm_compute; reflexivity).
  intros key ->%list_elem_of_singleton. reflexivity.
Defined.
Lemma slow_bound : checker_bound (slow_history ++ [slow_record]) 2 slow_report.
Proof. split; [exact slow_candidates|exact slow_keys|vm_compute; reflexivity]. Defined.

Lemma reread_terminates_witness :
  ∃ rep, slow_reread slow_env = ok rep.
Proof.
  apply (@reread_terminates slow_env (slow_history ++ [slow_record]) 2 slow_report (60 * SECOND) []);
    [exact slow_env_completed|exact slow_env_answers|vm_compute; reflexivity].
Defined.

Definition slow_expectations : gmap string (ExpectedObject * list AmbiguousWriteAttempt) :=
  expectations (slow_history ++ [slow_record]) 2.

Lemma tail_latency_reads_everything_back_witness :
  only_read_failures slow_report ∧
  (∀ f, f ∈ committed_read_failures slow_report →
     ∃ key, failure_key f = Some key ∧ @read_back slow_env slow_expectations key).
Proof.
  apply (@tail_latency_reads_everything_back slow_env (slow_history ++ [slow_record]) 2 slow_report
           (60 * SECOND) slow_rep);
    [exact slow_env_completed|exact slow_bound|vm_compute; reflexivity|discriminate
    |vm_compute; reflexivity|reflexivity].
Defined.

Lemma recovery_lists_evidenced_classes_witness :
  recovery_as_str RecoveryStabilityClassification.VersionHashMismatch
    ∈ evidence_classifications slow_rep ↔
  RecoveryStabilityClassification.VersionHashMismatch = rsr_classification slow_rep ∨
  class_evidenced slow_report RecoveryStabilityClassification.VersionHashMismatch.
Proof.
  apply (@recovery_lists_evidenced_classes slow_env (slow_history ++ [slow_record]) 2 slow_report
           (60 * SECOND) slow_rep);
    [exact slow_env_completed|exact I|vm_compute; reflexivity].
Defined.

Definition corrupt_report : CheckerReport :=
  slow_report <| cr_hash_mismatches := ["fault-test/run/a: expected 1.2, got 7"] |>.
Definition corrupt_rep : RecoveryStabilityReport :=
  Eval vm_compute in
    match @recovery_stability_reread slow_env (slow_history ++ [slow_record]) corrupt_report 2
            (60 * SECOND) with ok rep => rep | _ => harness_error "" 0 end.
Lemma reread_keeps_correctness_failures_witness :
  recovery_severity (rsr_classification corrupt_rep) = FailureSeverity.FailCorrectness.
Proof.
  apply (@reread_keeps_correctness_failures slow_env (slow_history ++ [slow_record]) 2 corrupt_report
           (60 * SECOND) corrupt_rep);
    [exact slow_env_completed|vm_compute; reflexivity|vm_compute; reflexivity
    |vm_compute; discriminate|vm_compute; discriminate].
Defined.

Lemma recovery_summary_accepted_iff_witness :
  validate_recovery_failure_summary_fields
    (pre_recommit_summary 0 "scenario" "run" "failed" slow_rep) slow_rep = ok tt ↔
  recovery_time_fits slow_rep.
Proof. apply (recovery_summary_accepted_iff 0 "scenario" "run" "failed" slow_rep). reflexivity. Defined.

Lemma slow_checker_completed : ∀ A (l : list A), @env_completed slow_checker_env A l ≡ₚ l.
Proof. intros A l. reflexivity. Defined.
Lemma slow_checked :
  @check_s3_history slow_checker_env "scenario" "run" slow_history true false = ok slow_report.
Proof. vm_compute. reflexivity. Defined.

(** A store that lost nothing, behind a tenant that did not come back. *)
Definition down_history : list OperationRecord :=
  [ sample_write 1 "fault-test/run/a" [1; 2]%N OperationOutcome.Ok None ].
Definition down_env : CheckerEnv := {|
  env_bucket := "bucket";
  env_get_object := λ _, ok (got [1; 2]%N);
  env_get_object_version := λ _ _, ok not_found;
  env_list_object_versions := λ _, ok None;
  env_list_prefix := λ _, ok (Some ["fault-test/run/a"]);
  env_completed := λ A l, l;
  env_suffix := [];
  env_started_at_ms := 100;
  env_completed_at_ms := 200;
  env_sha256_hex := sample_sha;
  env_to_json := λ records, ok [len records];
|}.
Definition down_report : CheckerReport :=
  Eval vm_compute in
  match check_s3_history (H := down_env) "scenario" "run" down_history false false with
  | ok r => r | _ => slow_report end.
Lemma failing_check_is_classified_witness :
  false = false ∧ @reads_clean down_env down_history ∧
  ∃ keys, @legal_store down_env (object_model down_history) (key_prefix "run") keys.
Proof.
  apply (@failing_check_is_classified down_env "scenario" "run" down_history false down_report);
    [intros A l; reflexivity|vm_compute; reflexivity|vm_compute; discriminate
    |vm_compute; reflexivity|reflexivity|vm_compute; reflexivity].
Defined.

Lemma slow_live key :
  is_Some (om_live (object_model slow_history) !! key) → key = "fault-test/run/a".
Proof.
  rewrite <- elem_of_dom, <- elem_of_set_elems.
  assert (set_elems (dom (om_live (object_model slow_history))) = ["fault-test/run/a"]) as ->
    by (vm_compute; reflexivity).
  by intros ->%list_elem_of_singleton.
Defined.
Lemma slow_recorded : @reads_recorded slow_checker_env (object_model slow_history).
Proof.
  split.
  - intros key ->%slow_live. exists slow_record. split; [left|]. by split_and!.
  - intros key r ->%slow_live ->%list_elem_of_singleton _ _ _. exists slow_get.
    split; [reflexivity|]. split; [|reflexivity]. split; try reflexivity; cbn.
    all: first [discriminate|split; [discriminate|intros [? [=]]]].
Defined.
Lemma failed_check_leaves_valid_artifacts_witness :
  validate_recovery_stability_report slow_rep = ok tt ∧
  validate_recovery_stability_against_checker slow_rep slow_report = ok tt.
Proof.
  apply (@failed_check_leaves_valid_artifacts slow_checker_env slow_env "scenario" "run" slow_history
           slow_report (60 * SECOND) slow_rep);
    [exact slow_checker_completed|exact slow_env_completed|vm_compute; reflexivity
    |vm_compute; discriminate|by intros key ->%slow_live|exact slow_recorded
    |exact slow_checked|vm_compute; reflexivity|discriminate|vm_compute; reflexivity].
Defined.

(** ** The audit *)
Definition audit_passed : CheckerReport :=
  Eval vm_compute in
    match check_s3_history (H := audit_env) "scenario" "run" audit_history true false with
    | ok r => r | _ => initial_report "" "" [] empty_model no_anomalies false false end.
Lemma audit_report_passed :
  check_s3_history (H := audit_env) "scenario" "run" audit_history true false = ok audit_passed.
Proof. vm_compute. reflexivity. Defined.

Lemma audit_proves_legal_store_witness :
  ∃ audit prefix suffix rest keys anomalies,
    cr_audit audit_passed = Some audit ∧
    audit_history ++ @env_suffix audit_env = prefix ++ suffix ++ rest ∧
    len prefix = ca_history_prefix_record_count audit ∧ len suffix = ca_history_suffix_record_count audit ∧
    @checker_history_records_sha256 audit_env prefix = ok (ca_history_prefix_sha256 audit) ∧
    @checker_history_records_sha256 audit_env suffix = ok (ca_history_suffix_sha256 audit) ∧
    successful_read_anomalies sample_sha prefix = ok anomalies ∧ clean_reads anomalies ∧
    audited_store (object_model prefix) (key_prefix (cr_run_id audit_passed)) suffix
      (cr_tolerated_ambiguous_deletes audit_passed) keys.
Proof. apply (@audit_proves_legal_store audit_env). vm_compute. reflexivity. Defined.

Lemma audit_env_completed : ∀ A (l : list A), @env_completed audit_env A l ≡ₚ l.
Proof. intros A l. apply reverse_Permutation. Defined.
Lemma audit_recorded : @check_recorded audit_env "run" audit_history audit_listed.
Proof.
  split.
  - vm_compute. split; [discriminate|]. intros r Hr.
    repeat (apply elem_of_cons in Hr as [->|Hr]; [split; discriminate|]). by apply elem_of_nil in Hr.
  - intros r Hr. repeat (apply elem_of_cons in Hr as [->|Hr]; [first [by left|by right]|]). by apply elem_of_nil in Hr.
  - vm_compute. apply (bool_decide_unpack _). vm_compute. done.
  - intros key r Hr Hg Hk. exists (audit_answer key). split; [reflexivity|].
    repeat (apply elem_of_cons in Hr as [->|Hr];
      [first [discriminate|injection Hk as <-; split; try done; split; try done; by intros [? ?]]|]).
    by apply elem_of_nil in Hr.
  - eexists. split; [vm_compute; reflexivity|]. by repeat split.
Qed.

Lemma passing_check_audited_iff_witness :
  @validate_checker_audit_against_history audit_env audit_passed (audit_history ++ @env_suffix audit_env) = ok tt.
Proof.
  apply (@passing_check_audited_iff audit_env "scenario" "run" audit_history audit_passed audit_listed
    audit_env_completed eq_refl audit_report_passed eq_refl eq_refl audit_recorded).
  split; [|split].
  - apply (bool_decide_unpack _). vm_compute. done.
  - intros key get _ _ [= <-]. unfold audit_answer. repeat case_decide; auto.
  - intros key _ (get & body & a & [= <-] & Hb & _). unfold audit_answer in Hb.
    repeat case_decide; subst; try discriminate; set_solver.
Defined.

Definition versioned_passed : CheckerReport :=
  Eval vm_compute in
    match check_s3_history (H := versioned_audit_env) "scenario" "run" sample_history true true with
    | ok r => r | _ => initial_report "" "" [] empty_model no_anomalies false false end.
Lemma audit_verifies_every_version_witness :
  ∃ audit prefix suffix rest entries,
    cr_audit versioned_passed = Some audit ∧
    sample_history ++ @env_suffix versioned_audit_env = prefix ++ suffix ++ rest ∧
    @checker_history_records_sha256 versioned_audit_env prefix = ok (ca_history_prefix_sha256 audit) ∧
    @checker_history_records_sha256 versioned_audit_env suffix = ok (ca_history_suffix_sha256 audit) ∧
    audited_versions prefix suffix (key_prefix (cr_run_id versioned_passed)) entries.
Proof. apply (@audit_verifies_every_version versioned_audit_env); vm_compute; reflexivity. Defined.

(** ** Quorums *)
Lemma quorums_overlap_witness :
  ({["0"; "1"; "2"]} : gset string) ∩ {["1"; "2"; "3"]} ≠ ∅.
Proof.
  apply (quorums_overlap 4 2 QuorumMutationClass.PutObject (quorum_of 4 2) {["0"; "1"; "2"; "3"]});
    try (vm_compute; reflexivity); try (vm_compute; discriminate); set_solver.
Defined.
Lemma volume_boundary_exact_witness :
  ∃ q l, requirements QuorumCaseClass.Payload quorum_shape = ok q ∧
    unavailable_mutations payload_boundary quorum_shape = ok l ∧ (0 < 2 ∧ 2 < es_total_shards quorum_shape)%N ∧
    (es_total_shards quorum_shape - 2 + 0 = qr_read_quorum q)%N ∧
    (∀ m qm, for_mutation 4 2 m = ok qm →
       m ∈ l ↔ (es_total_shards quorum_shape - 2 < qr_write_quorum qm)%N) ∧
    (false = true → QuorumMutationClass.PutObject ∈ l).
Proof. apply (volume_boundary_exact payload_boundary quorum_shape 2); vm_compute; reflexivity. Defined.
Lemma selected_boundary_iff_witness :
  require_selected_boundary quorum_members quorum_shape {["pod-0"; "pod-3"]} = ok tt.
Proof.
  apply (selected_boundary_iff quorum_members quorum_shape {["pod-0"; "pod-3"]});
    [vm_compute; reflexivity..|]. split; [set_solver|vm_compute; reflexivity].
Defined.
Lemma health_observation_leaves_quorum_witness :
  ∃ target, quorum_target = ok target ∧
    (qr_read_quorum (qt_requirements target)
     ≤ len (filter (λ d, qd_state d = "ok") (qo_drives quorum_observation)))%N.
Proof.
  eexists. split; [vm_compute; reflexivity|].
  apply (health_observation_leaves_quorum quorum_observation "deployment" quorum_shape quorum_members _
    {["pod-0"; "pod-3"]}); vm_compute; reflexivity.
Defined.
